(* ===== verification/_CoqProject ===== *)
-Q . S2P
Prelude.v
Budget.v
Waiter.v
SocketTable.v
Device.v
Wire.v
TcpSupport.v
Packet.v
Smol.v
Stack.v
Create.v
Readiness.v
Invariant.v
Maintenance.v
Drive.v
Settle.v
Shutdown.v
TcpOps.v
UdpOps.v
Closedown.v
Snapshot.v
Nif.v
Hooks.v
Calls.v
History.v
Sample.v
