(* ===== verification/Prelude.v ===== *)
(** * SmolNet's native stack, verified

    SmolNet gives Erlang and Elixir programs a TCP/IP stack of their own. Its
    core is a Rust library ([src/native/smolnet_core/src]) that the runtime
    calls through native functions: each call takes the lock of one stack,
    feeds packets or performs one operation on a socket, polls the vendored
    smoltcp engine within a time budget, and returns an envelope with the
    packets to send, the time of the next poll and whether work is left. A
    process that has to wait is promised exactly one message, which a later
    call sends. This library models that core as executable definitions and
    proves what a caller relies on.

    ** The program and its model

    State is passed explicitly: an operation of the source is a function
    [M S E A := S → outcome E A * S], where [outcome] is a value, the source's
    error, or a panic ([Prelude]). A [?] of the source is the monad's bind, an
    early return is [fail_if] or [fail], [expect] and out-of-range indexing
    panic. [wp m Q R s] says that [m] does not panic from [s] and ends in [Q]
    or, with an error, in [R]; the method lemmas are proved with its rules.
    Unsigned integers are [N] and [i64] is [Z]; bytes are [Byte.byte]; a
    [BTreeMap] is a [gmap] read in key order. Overflow is written out: checked
    and saturating operations as such; the addition to an instant, which a
    caller's clock can overflow, by the kind of build ([overflow_checks]: the
    release build wraps, a debug build panics). The counters of statistics
    wrap at 64 bits: those of [waiter.rs] are atomics, and for the plain ones
    of [stack.rs] this is the release build (a debug build would panic at the
    2^64th event, which is not modelled). Readings of the monotonic clock are
    not bounded.

    - [Budget]: [time.rs], [limits.rs], [budget.rs]. Instants, limits, and the
      deadline and reduction budget of one call.
    - [Waiter]: [waiter.rs]. Readiness flags shared with wakers, and the
      bounded queue of ready keys with its overflow mark.
    - [SocketTable]: [socket_table.rs]. Identities that are never reused,
      armed and sent waiters, the resumable scan of ready sockets.
    - [Device]: [device.rs]. Packet queues, egress credit, the tokens given to
      the engine. [Wire], [Packet]: the packet views, the checksum, packet
      validation, classification of segments, the configuration.
    - [TcpSupport]: [tcp.rs], [udp.rs]. Endpoints, records, ports.
    - [Smol]: what the stack calls of the vendored smoltcp's sockets and
      socket set; the engine itself is the class [Engine].
    - [Stack], [Create], [Readiness], [Maintenance], [Drive], [Shutdown],
      [TcpOps], [UdpOps], [Snapshot]: [stack.rs]. [NativeStack] is a record
      with the fields of the source; [Sys] adds what a stack shares (flags,
      queue, identity counters), the clock and the messages sent. One
      definition per method, under the method's name.
    - [Nif]: [lib.rs] and [StackResource]. The native functions, the decoders
      of their arguments, the lock, and the panic that becomes an error atom;
      [Call] and [perform] are the functions a process can call.
    - [Hooks]: the test hooks of a debug build, in [stack.rs] and [lib.rs].

    [Invariant] (the well-formedness of a stack and the steps that keep it),
    [Settle] (what a call owes and pays), [Closedown] (the progress of a
    shutdown), [Calls] (one call), [History] (any sequence of calls) and
    [Sample] (instances of every parameter, and a run on them) hold the proofs
    that cross components.

    ** What is proved

    - Whole histories ([History]): whatever a process calls, with whatever
      arguments, no call panics except on an improper list and the stack stays
      well formed, but for one call in a build that checks overflow: a graceful
      close within thirty seconds of the last instant panics and poisons the
      lock of the stack for good, which is a theorem too. As long as the lock
      is free, the stack refines a ledger of promised messages, so that
      every waiter is told exactly once or withdrawn; the packets handed to
      the link were paid for; errors change nothing that is owed; a running
      stack that reports no more work has nothing left to tell; two UDP
      sockets never share a port.
    - Shutdown ([Closedown]): polling ends it, with nothing left and every
      waiter aborted with the reason given, however often the clock interrupts
      a call, once as many calls as the stack's [burden] were not interrupted
      at their start.
    - One call: [finish_call] strands no wakeup and settles what it owes
      ([Readiness]); a drive ends within its limits and keeps packets in order
      ([Drive]); a send appends what fits to the buffer, a receive takes
      the front of it, and each arms a waiter exactly when it is not done; a
      connect whose peer closed early cannot be completed ([TcpOps]); the
      counts of a snapshot add up ([Snapshot]).
    - Components: the table conserves waiters and never reuses an identity
      ([SocketTable]); a waker loses no wakeup ([Waiter]); the device stays
      within limits and credit ([Device]); a budget that says stop says so for
      good and bills each nanosecond once ([Budget]); packet validation, the
      checksum and the decoders equal their specifications ([Packet], [Wire],
      [Nif]); ports, endpoints and configurations ([TcpSupport], [Create]).

    ** Interfaces and assumptions

    Code outside the sources is a parameter, and every theorem holds for every
    instance. [Beam] is the clock and the scheduler, [Mailbox] whether a
    message could be sent, [Terms] the runtime's terms and derived decoders.
    [Engine] is smoltcp's interface: for each poll, the requests it makes of
    the device and the sockets it leaves. A poll, the maintenance and the choice
    of a source address may panic, and a panic of theirs is one of the stack.
    [EngineLaws] is what the stack relies on: polls and the maintenance return,
    whatever the time; a source address is chosen or refused for every
    specified remote address; a poll keeps each socket in its slot with its
    kind and transmit capacity, only takes from its transmit buffer, does not
    reopen a closed socket, calls only registered wakers, and an egress poll
    reads no packet. The other functions of [Engine] (building the interface,
    the time of the next poll, the transmit queue of a UDP socket) are taken to
    return. No theorem on calls restricts the clock; those on one budget in
    [Budget] assume that it does not run backwards. [Sample] has instances for
    all of them, with a clock that interrupts calls.

    ** Loops and fuel

    A [for] of the source is structural on its list. A [while] is
    [while_loop n body], which panics when [n] turns do not end it, so that the
    theorems that nothing panics are also the proofs that [n] is enough: [n]
    is the limit of the loop's own work counter plus one (the maintenance,
    input or ready-event limit, or the capacity of a datagram buffer).
    [poll_until] is structural on the times of its polls; how many are enough
    is the theorem [shutdown_ends], in terms of the [burden] of the stack: its
    structures (a registered socket counts three times, as it leaves up to two
    notifications), its pending notifications and retained keys, and its queued
    keys, which count twice as they may be retained.

    ** Not modelled

    The engine's protocol machines (TCP segment processing and timers,
    neighbour discovery, ICMP, fragmentation), which are behind [Engine]; the
    contents of uninitialised transmit buffers, and the TCP timestamp clock,
    which only peers read; the fuzzing harness of [stack.rs] and the unit
    tests, which drive the operations modelled here; the registration crate
    [smolnet_nif]; and the Elixir side ([src/lib]), whose processes, links and
    supervision are concurrent programs of another kind. Two threads cannot
    run one stack: a call that finds the lock taken fails at once ([Nif]). *)
From Stdlib Require Export ZArith NArith Lia ZifyN ZifyBool.
From stdpp Require Export base gmap sets list strings sorting numbers option.
From Stdlib Require Strings.Byte.

(** ** Machine integers

    The unsigned widths are [N] and [i64] is [Z]; the operations below write
    out what the source does at the edge of the width. *)
Abbreviation usize := N (only parsing).
Abbreviation u64 := N (only parsing).
Abbreviation u32 := N (only parsing).
Abbreviation u16 := N (only parsing).
Abbreviation i64 := Z (only parsing).
Abbreviation u8 := Byte.byte (only parsing).
Abbreviation bytes := (list Byte.byte) (only parsing).

#[export] Instance byte_eq_decision : EqDecision Byte.byte := Byte.byte_eq_dec.
#[export] Instance byte_countable : Countable Byte.byte :=
  inj_countable Byte.to_N Byte.of_N Byte.of_to_N.

Definition usize_max : N := 18446744073709551615.
Definition u64_max : N := 18446744073709551615.
Definition u32_max : N := 4294967295.
Definition u16_max : N := 65535.
Definition i64_max : Z := 9223372036854775807.
Definition i64_min : Z := -9223372036854775808.

Definition checked_add (a b : usize) : option usize :=
  if (a + b <=? usize_max)%N then Some (a + b)%N else None.
Definition checked_sub (a b : usize) : option usize :=
  if (b <=? a)%N then Some (a - b)%N else None.
Definition saturating_add (a b : usize) : usize := N.min (a + b) usize_max.
Definition saturating_mul (a b : usize) : usize := N.min (a * b) usize_max.
Definition saturating_sub (a b : usize) : usize := (a - b)%N.
(** Additions that wrap: those of atomics, and plain ones of a release build. *)
Definition wrapping_add (a b : u64) : u64 := ((a + b) mod 2 ^ 64)%N.
Definition incr (a : u64) : u64 := wrapping_add a 1.
Definition wrap_i64 (z : Z) : i64 := ((z + 2 ^ 63) mod 2 ^ 64 - 2 ^ 63)%Z.
Definition i64_in_range (z : Z) : bool := ((i64_min <=? z) && (z <=? i64_max))%Z.

(** The length of a [Vec], [VecDeque] or slice, as the [usize] Rust returns. *)
Definition llen {A} (l : list A) : usize := N.of_nat (length l).

(** ** Record update: [r <| f := v |>] and [r <| f ::= g |>]

    A record declares its eta expansion once; the setter of a projection is
    found by replacing that projection in it. *)
Class Eta (R : Type) := eta : R → R.
Class Setter {R T} (p : R → T) := set_field : (T → T) → R → R.
Arguments set_field {R T} p {_} _ _ / : assert.

Ltac solve_setter :=
  lazymatch goal with
  | |- @Setter ?R ?T ?p =>
      exact (fun (f : T → T) (r : R) =>
        ltac:(let e := eval hnf in (@eta R _ r) in
              match e with
              | context C [p r] => let t := context C [f (p r)] in exact t
              end))
  end.
#[export] Hint Extern 1 (Setter _) => solve_setter : typeclass_instances.

Declare Scope rust_scope.
Delimit Scope rust_scope with rust.
Notation "r <| f ::= g |>" := (set_field f g r)
  (at level 1, f at level 200, left associativity) : rust_scope.
Notation "r <| f := v |>" := (set_field f (λ _, v) r)
  (at level 1, f at level 200, left associativity) : rust_scope.
Open Scope rust_scope.

(** ** Fallible, stateful code

    A method with a [&mut self] receiver is a function on the state that
    either returns, fails with an error value (Rust's [Err], propagated by
    [?]) or panics. The state is kept on every outcome, since Rust does not
    roll a [&mut self] method back. *)
Inductive outcome (E A : Type) : Type :=
| Ok (a : A)
| Err (e : E)
| Panic.
Arguments Ok {E A} _.
Arguments Err {E A} _.
Arguments Panic {E A}.

#[export] Instance outcome_ret {E} : MRet (outcome E) := λ A a, Ok a.
#[export] Instance outcome_bind {E} : MBind (outcome E) := λ A B k o,
  match o with Ok a => k a | Err e => Err e | Panic => Panic end.

Definition M (S E A : Type) : Type := S → outcome E A * S.

#[export] Instance M_ret {S E} : MRet (M S E) := λ A a s, (Ok a, s).
#[export] Instance M_bind {S E} : MBind (M S E) := λ A B k m s,
  match m s with
  | (Ok a, s') => k a s'
  | (Err e, s') => (Err e, s')
  | (Panic, s') => (Panic, s')
  end.

Section monad.
Context {S E : Type}.
Definition fail {A} (e : E) : M S E A := λ s, (Err e, s).
Definition panic {A} : M S E A := λ s, (Panic, s).
Definition gets {A} (f : S → A) : M S E A := λ s, (Ok (f s), s).
Definition modify (f : S → S) : M S E unit := λ s, (Ok tt, f s).
Definition lift_outcome {A} (o : outcome E A) : M S E A := λ s, (o, s).
Definition ok_or {A} (o : option A) (e : E) : M S E A :=
  match o with Some a => mret a | None => fail e end.
Definition expect {A} (o : option A) : M S E A :=
  match o with Some a => mret a | None => panic end.
(** [Result::expect]: an error becomes a panic. *)
Definition expect_ok {E' A} (m : M S E' A) : M S E A := λ s,
  match m s with (Ok a, s') => (Ok a, s') | (_, s') => (Panic, s') end.
Definition fail_if (b : bool) (e : E) : M S E unit :=
  if b then fail e else mret tt.
Definition assert_true (b : bool) : M S E unit :=
  if b then mret tt else panic.
Definition when (b : bool) (m : M S E unit) : M S E unit :=
  if b then m else mret tt.
End monad.

(** The state a run leaves. *)
Definition after {S E A} (m : M S E A) (s : S) : S := (m s).2.

(** Running a method of a sub-structure inside the structure that owns it. *)
Definition zoom {S T E A} (get : S → T) (put : T → S → S) (m : M T E A) : M S E A :=
  λ s, match m (get s) with (o, t) => (o, put t s) end.

(** [map_err]. *)
Definition map_err {S E E' A} (f : E → E') (m : M S E A) : M S E' A := λ s,
  match m s with
  | (Ok a, s') => (Ok a, s')
  | (Err e, s') => (Err (f e), s')
  | (Panic, s') => (Panic, s')
  end.

Fixpoint for_each {S E A} (l : list A) (body : A → M S E unit) : M S E unit :=
  match l with
  | [] => mret tt
  | a :: l => body a ;; for_each l body
  end.

(** [for] with variables carried from turn to turn. *)
Fixpoint for_acc {S E A B} (l : list A) (body : A → B → M S E B) (acc : B) : M S E B :=
  match l with
  | [] => mret acc
  | a :: l => acc ← body a acc; for_acc l body acc
  end.

(** [for] with a [break]: a turn also returns whether the loop goes on. *)
Fixpoint for_break {S E A B} (l : list A) (body : A → B → M S E (B * bool)) (acc : B) : M S E B :=
  match l with
  | [] => mret acc
  | a :: l =>
      '(acc, go) ← body a acc;
      if (go : bool) then for_break l body acc else mret acc
  end.

(** A call whose [Result] is kept as a value. *)
Definition attempt {S E E' A} (m : M S E A) : M S E' (A + E) := λ s,
  match m s with
  | (Ok a, s') => (Ok (inl a), s')
  | (Err e, s') => (Ok (inr e), s')
  | (Panic, s') => (Panic, s')
  end.

(** [while]: a turn returns the variables it carries and whether the loop goes
    on. Running out of turns is a panic, so that a theorem which excludes
    panics also shows that the turns given are enough. *)
Fixpoint while_loop {S E B} (turns : nat) (body : B → M S E (B * bool)) (acc : B) : M S E B :=
  match turns with
  | O => panic
  | Datatypes.S turns =>
      '(acc, go) ← body acc;
      if (go : bool) then while_loop turns body acc else mret acc
  end.

(** ** A unary program logic

    [wp m Q R s]: from [s], [m] does not panic; if it returns [a] in [s'],
    [Q a s'] holds; if it fails with [e] in [s'], [R e s'] holds. *)
Definition wp {S E A} (m : M S E A) (Q : A → S → Prop) (R : E → S → Prop) (s : S) : Prop :=
  match m s with
  | (Ok a, s') => Q a s'
  | (Err e, s') => R e s'
  | (Panic, _) => False
  end.

(** ** Ordered maps and sets

    A [BTreeMap] is a [gmap], and a [BTreeSet] a [gset], together with the
    order in which Rust iterates over the keys: the derived [Ord] of the key
    type, which compares the fields in turn. [okey] lists those fields. *)
Class Ordered (K : Type) := {
  okey : K → list Z;
  okey_inj :: Inj (=) (=) okey
}.

Fixpoint lex_lt (a b : list Z) : bool :=
  match a, b with
  | _, [] => false
  | [], _ :: _ => true
  | x :: a, y :: b => (x <? y)%Z || ((x =? y)%Z && lex_lt a b)
  end.

Definition key_lt {K} `{Ordered K} (a b : K) : Prop := lex_lt (okey a) (okey b) = true.
Definition key_le {K} `{Ordered K} (a b : K) : Prop := lex_lt (okey b) (okey a) = false.
#[export] Instance key_lt_dec {K} `{Ordered K} (a b : K) : Decision (key_lt a b) :=
  decide (lex_lt (okey a) (okey b) = true).
#[export] Instance key_le_dec {K} `{Ordered K} (a b : K) : Decision (key_le a b) :=
  decide (lex_lt (okey b) (okey a) = false).

Definition bset_elems {K} `{Ordered K, Countable K} (s : gset K) : list K :=
  merge_sort key_le (elements s).
Definition bmap_keys {K V} `{Ordered K, Countable K} (m : gmap K V) : list K :=
  bset_elems (dom m).
Definition bmap_list {K V} `{Ordered K, Countable K} (m : gmap K V) : list (K * V) :=
  omap (λ k, (k,.) <$> m !! k) (bmap_keys m).
Definition bmap_values {K V} `{Ordered K, Countable K} (m : gmap K V) : list V :=
  (bmap_list m).*2.

(** Rust's [Bound], for the lower end of a range that is unbounded above. *)
Inductive bound (K : Type) := Included (k : K) | Excluded (k : K) | Unbounded.
Arguments Included {K} _.
Arguments Excluded {K} _.
Arguments Unbounded {K}.

Definition in_bound {K} `{Ordered K} (b : bound K) (k : K) : bool :=
  match b with
  | Included c => bool_decide (key_le c k)
  | Excluded c => bool_decide (key_lt c k)
  | Unbounded => true
  end.

Definition bset_range {K} `{Ordered K, Countable K} (b : bound K) (s : gset K) : list K :=
  List.filter (in_bound b) (bset_elems s).
Definition bmap_range {K V} `{Ordered K, Countable K} (b : bound K) (m : gmap K V) : list (K * V) :=
  List.filter (λ kv, in_bound b kv.1) (bmap_list m).

#[export] Program Instance N_ordered : Ordered N := {| okey n := [Z.of_N n] |}.
Next Obligation. by intros ?? [= ?%N2Z.inj]. Qed.

(** [first_key_value] and [BTreeSet::first]. *)
Definition bmap_first {K V} `{Ordered K, Countable K} (m : gmap K V) : option (K * V) :=
  head (bmap_list m).
Definition bset_first {K} `{Ordered K, Countable K} (s : gset K) : option K :=
  head (bset_elems s).

(** [Iterator::sum]. *)
Definition sum_N (l : list N) : N := foldr N.add 0%N l.
Definition bmap_sum {K V} `{Ordered K, Countable K} (f : V → N) (m : gmap K V) : N :=
  sum_N (f <$> bmap_values m).

Definition bmap_flat {K V A} `{Ordered K, Countable K} (f : K → V → list A) (m : gmap K V) : list A :=
  concat ((λ kv, f kv.1 kv.2) <$> bmap_list m).

(** ** Proof rules *)
Section wp_rules.
Context {S E : Type}.

Lemma wp_ret {A} (a : A) Q R (s : S) : wp (E:=E) (mret a) Q R s ↔ Q a s.
Proof. done. Qed.

Lemma wp_bind {A B} (m : M S E A) (k : A → M S E B) Q R s :
  wp (m ≫= k) Q R s ↔ wp m (λ a s', wp (k a) Q R s') R s.
Proof. unfold wp, mbind, M_bind. by destruct (m s) as [[a|e|] s']. Qed.

Lemma wp_fail {A} (e : E) (Q : A → S → Prop) R (s : S) : wp (fail e) Q R s ↔ R e s.
Proof. done. Qed.

Lemma wp_gets {A} (f : S → A) Q R s : wp (E:=E) (gets f) Q R s ↔ Q (f s) s.
Proof. done. Qed.

Lemma wp_modify (f : S → S) Q R s : wp (E:=E) (modify f) Q R s ↔ Q tt (f s).
Proof. done. Qed.

Lemma wp_ok_or {A} (o : option A) (e : E) Q R (s : S) :
  (∀ a, o = Some a → Q a s) → (o = None → R e s) → wp (ok_or o e) Q R s.
Proof. destruct o; simpl; intros H1 H2; [by apply H1|by apply H2]. Qed.

Lemma wp_fail_if (b : bool) (e : E) Q R (s : S) :
  (b = true → R e s) → (b = false → Q tt s) → wp (fail_if b e) Q R s.
Proof. destruct b; simpl; intros H1 H2; [by apply H1|by apply H2]. Qed.

Lemma wp_when (b : bool) (m : M S E unit) Q R s :
  (b = true → wp m Q R s) → (b = false → Q tt s) → wp (when b m) Q R s.
Proof. destruct b; simpl; intros H1 H2; [by apply H1|by apply H2]. Qed.

Lemma wp_expect {A} (o : option A) Q R (s : S) :
  (∃ a, o = Some a ∧ Q a s) → wp (E:=E) (expect o) Q R s.
Proof. by intros (a & -> & HQ). Qed.

Lemma wp_expect_ok {E' A} (m : M S E' A) Q R (s : S) :
  wp m Q (λ _ _, False) s → wp (E:=E) (expect_ok m) Q R s.
Proof. unfold wp, expect_ok. by destruct (m s) as [[a|e|] s']. Qed.

Lemma wp_lift_outcome {A} (o : outcome E A) Q R (s : S) :
  (∀ a, o = Ok a → Q a s) → (∀ e, o = Err e → R e s) → o ≠ Panic →
  wp (lift_outcome o) Q R s.
Proof. destruct o; simpl; intros H1 H2 H3; [by apply H1|by apply H2|done]. Qed.

Lemma wp_assert (b : bool) Q R (s : S) :
  b = true → Q tt s → wp (E:=E) (assert_true b) Q R s.
Proof. by intros ->. Qed.

Lemma wp_mono {A} (m : M S E A) (Q Q' : A → S → Prop) (R R' : E → S → Prop) s :
  wp m Q R s → (∀ a s', Q a s' → Q' a s') → (∀ e s', R e s' → R' e s') → wp m Q' R' s.
Proof. unfold wp. destruct (m s) as [[a|e|] s']; naive_solver. Qed.

Lemma wp_conj {A} (m : M S E A) (Q Q' : A → S → Prop) (R R' : E → S → Prop) s :
  wp m Q R s → wp m Q' R' s → wp m (λ a s', Q a s' ∧ Q' a s') (λ e s', R e s' ∧ R' e s') s.
Proof. unfold wp. by destruct (m s) as [[a|e|] s']. Qed.

Lemma wp_self {A} (m : M S E A) (Q : A → S → Prop) (R : E → S → Prop) s :
  wp m Q R s → wp m (λ a s', Q a s' ∧ m s = (Ok a, s')) R s.
Proof. unfold wp. by destruct (m s) as [[|?|] ?]. Qed.

(** Runs that panic. *)
Definition panics {A} (m : M S E A) (P : S → Prop) (s : S) : Prop :=
  match m s with (Panic, s') => P s' | _ => False end.

Lemma panics_bind {A B} (m : M S E A) (k : A → M S E B) (Q : A → S → Prop) P s :
  wp m Q (λ _ _, False) s → (∀ a s', Q a s' → panics (k a) P s') → panics (m ≫= k) P s.
Proof.
  unfold wp, panics, mbind, M_bind. destruct (m s) as [[a|e|] s']; [|done|done]. intros HQ Hk. by apply Hk.
Qed.
Lemma panics_bind_now {A B} (m : M S E A) (k : A → M S E B) P s : panics m P s → panics (m ≫= k) P s.
Proof. unfold panics, mbind, M_bind. by destruct (m s) as [[a|e|] s']. Qed.

Lemma wp_then {A B} (m : M S E unit) (a : A) (k : A → M S E B) Q R s :
  wp (m ;; k a) Q R s → wp ((m ;; mret a) ≫= k) Q R s.
Proof. unfold wp, mbind, M_bind. by destruct (m s) as [[[]|e|] s']. Qed.

(** What a proved triple says of a run that returned, and of one that failed. *)
Lemma wp_impl {A} (P : Prop) (m : M S E A) (Q Q' : A → S → Prop) (R R' : E → S → Prop) s :
  wp m Q R s → (P → wp m Q' R' s) → wp m (λ a s, Q a s ∧ (P → Q' a s)) R s.
Proof. unfold wp. destruct (m s) as [[]]; tauto. Qed.
Lemma wp_run_ok {A} (m : M S E A) Q R s a s' : wp m Q R s → m s = (Ok a, s') → Q a s'.
Proof. unfold wp. intros Hw Hm. by rewrite Hm in Hw. Qed.

Lemma wp_run_err {A} (m : M S E A) Q R s e s' : wp m Q R s → m s = (Err e, s') → R e s'.
Proof. unfold wp. intros Hw Hm. by rewrite Hm in Hw. Qed.

Lemma wp_no_panic {A} (m : M S E A) Q R s : wp m Q R s → (m s).1 ≠ Panic.
Proof. unfold wp. by destruct (m s) as [[a|e|] s']. Qed.

(** A loop over a list keeps what each turn keeps. *)
Lemma wp_for_each {A} (l : list A) (body : A → M S E unit) (I : S → Prop) R s :
  I s → (∀ a s, a ∈ l → I s → wp (body a) (λ _, I) R s) →
  wp (for_each l body) (λ _, I) R s.
Proof.
  revert s. induction l as [|a l IH]; intros s HI Hb; [done|].
  simpl. apply wp_bind. eapply wp_mono; [apply Hb; [set_solver|done]| |done].
  intros [] s' HI'. apply IH; [done|]. intros a' s'' Ha HI''. apply Hb; [set_solver|done].
Qed.

Lemma wp_for_acc {A B} (l : list A) (body : A → B → M S E B) (I : list A → B → S → Prop) R acc s :
  I l acc s →
  (∀ a l acc s, I (a :: l) acc s → wp (body a acc) (I l) R s) →
  wp (for_acc l body acc) (I []) R s.
Proof.
  revert acc s. induction l as [|a l IH]; intros acc s HI Hb; [done|].
  simpl. apply wp_bind. eapply wp_mono; [by apply Hb| |done].
  intros acc' s' HI'. by apply IH.
Qed.

Lemma wp_for_break {A B} (l : list A) (body : A → B → M S E (B * bool))
    (I : list A → B → S → Prop) (Q : B → S → Prop) R acc s :
  I l acc s → (∀ acc s, I [] acc s → Q acc s) →
  (∀ a l acc s, I (a :: l) acc s →
    wp (body a acc) (λ '(acc, go) s, if (go : bool) then I l acc s else Q acc s) R s) →
  wp (for_break l body acc) Q R s.
Proof.
  revert acc s. induction l as [|a l IH]; intros acc s HI HQ Hb; [by apply HQ|].
  simpl. apply wp_bind. eapply wp_mono; [by apply Hb| |done].
  intros [acc' []] s' HI'; [by apply IH|done].
Qed.

Lemma wp_attempt {E' A} (m : M S E A) Q R s :
  wp (attempt (E':=E') m) Q R s ↔ wp m (λ a, Q (inl a)) (λ e, Q (inr e)) s.
Proof. unfold wp, attempt. by destruct (m s) as [[a|e|] s']. Qed.

(** [I] bounds by its first argument the turns still to come. *)
Lemma wp_while_loop {B} turns (body : B → M S E (B * bool)) (I : nat → B → S → Prop) Q R n acc s :
  I n acc s → n < turns →
  (∀ n acc s, I n acc s →
    wp (body acc) (λ '(acc, go) s,
      if (go : bool) then ∃ n', n' < n ∧ I n' acc s else Q acc s) R s) →
  wp (while_loop turns body acc) Q R s.
Proof.
  revert n acc s. induction turns as [|turns IH]; intros n acc s HI Hn Hb; [lia|].
  simpl. apply wp_bind. eapply wp_mono; [by apply Hb| |done].
  intros [acc' []] s'; simpl; [|done]. intros (n' & Hn' & HI'). eapply IH; [done|lia|done].
Qed.
End wp_rules.

Lemma wp_zoom {S T E A} (get : S → T) put (m : M T E A) Q R s :
  wp (zoom get put m) Q R s ↔
  wp m (λ a t, Q a (put t s)) (λ e t, R e (put t s)) (get s).
Proof. unfold wp, zoom. by destruct (m (get s)) as [[a|e|] t]. Qed.

Lemma wp_map_err {S E E' A} (f : E → E') (m : M S E A) Q R s :
  wp (map_err f m) Q R s ↔ wp m Q (λ e s', R (f e) s') s.
Proof. unfold wp, map_err. by destruct (m s) as [[a|e|] t]. Qed.

Lemma bool_decide_not_false P `{!Decision P} (D : Decision (¬ P)) : @bool_decide (¬ P) D = false ↔ P.
Proof. rewrite bool_decide_eq_false. split; [apply dec_stable|tauto]. Qed.
Lemma bool_decide_neq_false {A} `{EqDecision A} (x y : A) :
  bool_decide (x ≠ y) = false ↔ x = y.
Proof. rewrite bool_decide_eq_false. split; [apply dec_stable|by intros -> []]. Qed.

(** One step of symbolic execution of a monadic goal. *)
Ltac wp_step :=
  lazymatch goal with
  | |- wp (_ ≫= _) _ _ _ => apply wp_bind
  | |- wp (mret _) _ _ _ => apply wp_ret
  | |- wp (fail _) _ _ _ => apply wp_fail
  | |- wp (gets _) _ _ _ => apply wp_gets
  | |- wp (modify _) _ _ _ => apply wp_modify
  | |- wp (ok_or _ _) _ _ _ => apply wp_ok_or; [intros ? ?|intros ?]
  | |- wp (fail_if _ _) _ _ _ => apply wp_fail_if; intros ?
  | |- wp (when _ _) _ _ _ => apply wp_when; intros ?
  | |- wp (lift_outcome _) _ _ _ => apply wp_lift_outcome; [intros ? ?|intros ? ?|]
  | |- wp (zoom _ _ _) _ _ _ => apply wp_zoom
  | |- wp (attempt _) _ _ _ => apply wp_attempt
  | |- wp (map_err _ _) _ _ _ => apply wp_map_err
  | |- wp (if ?b then _ else _) _ _ _ => destruct b eqn:?
  | |- wp (match ?o with Some _ => _ | None => _ end) _ _ _ => destruct o eqn:?
  end.
Ltac wp_steps := cbn beta iota; repeat (wp_step; cbn beta iota).

(** ** Order and iteration *)
Lemma lex_lt_irrefl a : lex_lt a a = false.
Proof. induction a as [|x a IH]; [done|]. simpl. rewrite IH. lia. Qed.

Lemma lex_lt_trans a b c : lex_lt a b = true → lex_lt b c = true → lex_lt a c = true.
Proof.
  revert b c. induction a as [|x a IH]; intros [|y b] [|z c]; simpl; try done.
  rewrite !orb_true_iff, !andb_true_iff, !Z.ltb_lt, !Z.eqb_eq.
  intros [?|[-> ?]] [?|[-> ?]]; [left; lia|left; lia|left; lia|right; eauto].
Qed.

Lemma lex_lt_total a b : lex_lt a b = false → lex_lt b a = false → a = b.
Proof.
  revert b. induction a as [|x a IH]; intros [|y b]; simpl; try done.
  rewrite !orb_false_iff, !andb_false_iff, !Z.ltb_ge, !Z.eqb_neq.
  intros [? H1] [? H2]. assert (x = y) as -> by lia.
  f_equal. apply IH; [by destruct H1|by destruct H2].
Qed.

Section ordered.
Context {K : Type} `{Ordered K}.

Lemma key_lt_irrefl (a : K) : ¬ key_lt a a.
Proof. unfold key_lt. by rewrite lex_lt_irrefl. Qed.

#[export] Instance key_lt_trans : Transitive (key_lt (K:=K)).
Proof. intros a b c. apply lex_lt_trans. Qed.

Lemma key_le_lteq (a b : K) : key_le a b ↔ key_lt a b ∨ a = b.
Proof.
  unfold key_le, key_lt. split.
  - intros Hab. destruct (lex_lt (okey a) (okey b)) eqn:E; [by left|].
    right. apply (inj okey). by apply lex_lt_total.
  - intros [Hab| ->]; [|apply lex_lt_irrefl].
    destruct (lex_lt (okey b) (okey a)) eqn:E; [|done].
    pose proof (lex_lt_trans _ _ _ Hab E) as Hc. by rewrite lex_lt_irrefl in Hc.
Qed.

Lemma key_not_le (a b : K) : ¬ key_le a b ↔ key_lt b a.
Proof. unfold key_le, key_lt. by destruct (lex_lt _ _). Qed.

Lemma key_not_lt (a b : K) : ¬ key_lt a b ↔ key_le b a.
Proof. unfold key_le, key_lt. by destruct (lex_lt _ _). Qed.

#[export] Instance key_le_trans : Transitive (key_le (K:=K)).
Proof.
  intros a b c. rewrite !key_le_lteq.
  intros [?| ->] [?| ->]; eauto. left. by etrans.
Qed.

#[export] Instance key_le_total : Total (key_le (K:=K)).
Proof.
  intros a b. destruct (decide (key_le a b)) as [?|Hn%key_not_le]; [by left|].
  right. apply key_le_lteq. by left.
Qed.

#[export] Instance key_le_antisymm : AntiSymm (=) (key_le (K:=K)).
Proof.
  intros a b. rewrite !key_le_lteq. intros [Hab| ->] [Hba|Hba]; try done.
  destruct (key_lt_irrefl a). by trans b.
Qed.
End ordered.

Section btree.
Context {K : Type} `{Ordered K, Countable K}.

Lemma bset_elems_perm (s : gset K) : bset_elems s ≡ₚ elements s.
Proof. apply merge_sort_Permutation. Qed.

Lemma elem_of_bset_elems (s : gset K) k : k ∈ bset_elems s ↔ k ∈ s.
Proof. rewrite bset_elems_perm. apply elem_of_elements. Qed.

Lemma NoDup_bset_elems (s : gset K) : NoDup (bset_elems s).
Proof. rewrite bset_elems_perm. apply NoDup_elements. Qed.

Lemma length_bset_elems (s : gset K) : length (bset_elems s) = size s.
Proof. by rewrite bset_elems_perm. Qed.

Lemma bset_elems_add (s : gset K) k : k ∉ s → bset_elems ({[k]} ∪ s) ≡ₚ k :: bset_elems s.
Proof. intros Hk. by rewrite !bset_elems_perm, elements_union_singleton. Qed.
Lemma bset_elems_remove (s : gset K) k : k ∈ s → bset_elems s ≡ₚ k :: bset_elems (s ∖ {[k]}).
Proof.
  intros Hk. rewrite <-bset_elems_add by set_solver. rewrite !bset_elems_perm.
  by rewrite <-union_difference_L by set_solver.
Qed.

Lemma bset_elems_sorted (s : gset K) : StronglySorted key_le (bset_elems s).
Proof. apply StronglySorted_merge_sort; apply _. Qed.

Lemma bset_elems_empty (s : gset K) : bset_elems s = [] ↔ s = ∅.
Proof.
  split; [|by intros ->].
  intros Hs. apply set_eq. intros k. rewrite <-elem_of_bset_elems, Hs. set_solver.
Qed.

Lemma bset_first_None (s : gset K) : bset_first s = None ↔ s = ∅.
Proof.
  unfold bset_first. rewrite <-bset_elems_empty. by destruct (bset_elems s).
Qed.

Lemma bset_first_elem (s : gset K) k : bset_first s = Some k → k ∈ s.
Proof.
  unfold bset_first. intros Hk. apply elem_of_bset_elems.
  destruct (bset_elems s); simplify_eq/=. set_solver.
Qed.

(** The sorted enumeration of a set is unique. *)
Lemma bset_elems_unique (s : gset K) l :
  StronglySorted key_le l → l ≡ₚ elements s → bset_elems s = l.
Proof.
  intros Hl Hp. eapply (StronglySorted_unique key_le).
  - apply bset_elems_sorted.
  - done.
  - by rewrite Hp, bset_elems_perm.
Qed.

Lemma bset_elems_cons (s : gset K) k :
  bset_first s = Some k → bset_elems s = k :: bset_elems (s ∖ {[k]}).
Proof.
  unfold bset_first. intros Hk. destruct (bset_elems s) as [|k' l] eqn:E; simplify_eq/=.
  f_equal. pose proof (bset_elems_sorted s) as Hs. pose proof (NoDup_bset_elems s) as Hnd.
  rewrite E in Hs, Hnd. apply StronglySorted_inv in Hs as [Hs _].
  apply list.NoDup_cons in Hnd as [Hnk Hnd]. symmetry. apply bset_elems_unique; [done|].
  apply NoDup_Permutation; [done|apply NoDup_elements|]. intros x.
  rewrite elem_of_elements, elem_of_difference, <-elem_of_bset_elems, E.
  rewrite elem_of_cons, elem_of_singleton.
  split; [intros Hx; split; [by right|by intros ->]|by intros [[->|?] ?]].
Qed.

Lemma bset_elems_sorted_lt (s : gset K) : StronglySorted key_lt (bset_elems s).
Proof.
  pose proof (bset_elems_sorted s) as Hs. pose proof (NoDup_bset_elems s) as Hnd.
  induction Hs as [|k l Hs IH Hk]; [constructor|].
  apply list.NoDup_cons in Hnd as [Hnk Hnd]. constructor; [by apply IH|].
  apply list.Forall_forall. intros x Hx. rewrite list.Forall_forall in Hk.
  specialize (Hk x Hx). rewrite key_le_lteq in Hk. destruct Hk as [?|Heq]; [done|].
  destruct Hnk. by rewrite Heq.
Qed.

Lemma elem_of_bset_range b (s : gset K) k :
  k ∈ bset_range b s ↔ k ∈ s ∧ in_bound b k = true.
Proof.
  unfold bset_range. rewrite list_elem_of_In, filter_In, <-list_elem_of_In.
  by rewrite elem_of_bset_elems.
Qed.

Context {V : Type}.
Implicit Type m : gmap K V.

Lemma bmap_list_keys m : (bmap_list m).*1 = bmap_keys m.
Proof.
  unfold bmap_list.
  assert (∀ l, (∀ k, k ∈ l → is_Some (m !! k)) →
    (omap (λ k, (k,.) <$> m !! k) l).*1 = l) as Hl.
  { induction l as [|k l IH]; intros Hl; [done|].
    destruct (Hl k) as [v Hv]; [set_solver|].
    simpl. rewrite Hv. simpl. f_equal. apply IH. set_solver. }
  apply Hl. intros k. unfold bmap_keys.
  by rewrite elem_of_bset_elems, elem_of_dom.
Qed.

Lemma elem_of_bmap_list m k v : (k, v) ∈ bmap_list m ↔ m !! k = Some v.
Proof.
  unfold bmap_list. rewrite list_elem_of_omap. split.
  - intros (k' & _ & Hk). by destruct (m !! k') eqn:E; simplify_eq/=.
  - intros Hk. exists k. rewrite Hk. split; [|done].
    unfold bmap_keys. rewrite elem_of_bset_elems. by eapply elem_of_dom_2.
Qed.

Lemma NoDup_bmap_keys m : NoDup (bmap_keys m).
Proof. apply NoDup_bset_elems. Qed.

Lemma bmap_list_perm m : bmap_list m ≡ₚ map_to_list m.
Proof.
  apply NoDup_Permutation.
  - apply (NoDup_fmap_1 fst). rewrite bmap_list_keys. apply NoDup_bmap_keys.
  - apply NoDup_map_to_list.
  - intros [k v]. by rewrite elem_of_bmap_list, elem_of_map_to_list.
Qed.

Lemma elem_of_bmap_values m v : v ∈ bmap_values m ↔ ∃ k, m !! k = Some v.
Proof.
  unfold bmap_values. rewrite list_elem_of_fmap. split.
  - intros ([k v'] & -> & Hk). exists k. by apply elem_of_bmap_list.
  - intros [k Hk]. exists (k, v). by rewrite elem_of_bmap_list.
Qed.

Lemma length_bmap_list m : length (bmap_list m) = size m.
Proof. by rewrite bmap_list_perm, length_map_to_list. Qed.

Lemma bmap_first_None m : bmap_first m = None ↔ m = ∅.
Proof.
  unfold bmap_first. split; [|by intros ->].
  intros Hm. apply map_empty. intros k.
  destruct (m !! k) as [v|] eqn:E; [|done].
  apply elem_of_bmap_list in E. destruct (bmap_list m); [set_solver|done].
Qed.

Lemma bmap_first_Some m k v : bmap_first m = Some (k, v) → m !! k = Some v.
Proof.
  unfold bmap_first. intros Hk. apply elem_of_bmap_list.
  destruct (bmap_list m); simplify_eq/=. set_solver.
Qed.

Lemma elem_of_bmap_range b m k v :
  (k, v) ∈ bmap_range b m ↔ m !! k = Some v ∧ in_bound b k = true.
Proof.
  unfold bmap_range. rewrite list_elem_of_In, filter_In, <-list_elem_of_In.
  by rewrite elem_of_bmap_list.
Qed.
End btree.

Lemma sublist_List_filter {A} (f : A → bool) (l : list A) : List.filter f l `sublist_of` l.
Proof. induction l as [|a l IH]; simpl; [done|]. destruct (f a); by constructor. Qed.

(** ** Sums over the values of a map *)
Lemma sum_N_app l1 l2 : sum_N (l1 ++ l2) = (sum_N l1 + sum_N l2)%N.
Proof. induction l1 as [|x l1 IH]; simpl; [done|]. rewrite IH. lia. Qed.

#[export] Instance sum_N_perm : Proper ((≡ₚ) ==> (=)) sum_N.
Proof. induction 1; simpl; lia. Qed.

Section sums.
Context {K V : Type} `{Ordered K, Countable K}.
Implicit Types (m : gmap K V) (f : V → N).

Lemma bmap_sum_insert f m k v :
  m !! k = None → bmap_sum f (<[k:=v]> m) = (f v + bmap_sum f m)%N.
Proof.
  intros Hk. unfold bmap_sum, bmap_values.
  by rewrite !bmap_list_perm, map_to_list_insert.
Qed.

Lemma bmap_sum_delete f m k v :
  m !! k = Some v → bmap_sum f m = (f v + bmap_sum f (delete k m))%N.
Proof.
  intros Hk. rewrite <-(insert_delete_id m k v) at 1 by done.
  apply bmap_sum_insert, lookup_delete_eq.
Qed.

Lemma bmap_sum_update f m k v v' :
  m !! k = Some v → (bmap_sum f (<[k:=v']> m) + f v = bmap_sum f m + f v')%N.
Proof.
  intros Hk. rewrite <-(insert_delete_eq m k v').
  rewrite bmap_sum_insert by apply lookup_delete_eq.
  rewrite (bmap_sum_delete f m k v Hk). lia.
Qed.
End sums.

(** ** Lists gathered from the entries of a map *)
#[export] Instance concat_perm {A} : Proper ((≡ₚ) ==> (≡ₚ)) (@concat A).
Proof.
  induction 1 as [| l ls ls' _ IH | l1 l2 ls | ]; simpl; [done|by rewrite IH| |by etrans].
  by rewrite !app_assoc, (Permutation_app_comm l1).
Qed.

Section flat.
Context {K V A : Type} `{Ordered K, Countable K}.
Implicit Types (m : gmap K V) (f : K → V → list A).

Lemma bmap_flat_insert f m k v :
  m !! k = None → bmap_flat f (<[k:=v]> m) ≡ₚ f k v ++ bmap_flat f m.
Proof.
  intros Hk. unfold bmap_flat. by rewrite !bmap_list_perm, map_to_list_insert.
Qed.

Lemma bmap_flat_delete f m k v :
  m !! k = Some v → bmap_flat f m ≡ₚ f k v ++ bmap_flat f (delete k m).
Proof.
  intros Hk. rewrite <-(insert_delete_id m k v) at 1 by done.
  apply bmap_flat_insert, lookup_delete_eq.
Qed.

Lemma bmap_flat_update f m k v :
  bmap_flat f (<[k:=v]> m) ≡ₚ f k v ++ bmap_flat f (delete k m).
Proof.
  rewrite <-(insert_delete_eq m k v). rewrite bmap_flat_insert by apply lookup_delete_eq. done.
Qed.

Lemma elem_of_bmap_flat f m a : a ∈ bmap_flat f m ↔ ∃ k v, m !! k = Some v ∧ a ∈ f k v.
Proof.
  unfold bmap_flat. rewrite list_elem_of_In, in_concat. split.
  - intros (l & Hl & Ha). apply list_elem_of_In, list_elem_of_fmap in Hl as ([k v] & -> & Hkv).
    exists k, v. split; [by apply elem_of_bmap_list|by apply list_elem_of_In].
  - intros (k & v & Hkv & Ha). exists (f k v). split; [|by apply list_elem_of_In].
    apply list_elem_of_In, list_elem_of_fmap. exists (k, v). split; [done|].
    by apply elem_of_bmap_list.
Qed.

Lemma length_bmap_flat_le f m n :
  (∀ k v, m !! k = Some v → length (f k v) ≤ n) → length (bmap_flat f m) ≤ size m * n.
Proof.
  intros Hn. unfold bmap_flat. rewrite <-length_bmap_list.
  assert (Hall : ∀ k v, (k, v) ∈ bmap_list m → length (f k v) ≤ n)
    by (intros k v Hkv; apply Hn; by apply elem_of_bmap_list).
  induction (bmap_list m) as [|[k v] l IH]; [done|]. simpl. rewrite length_app.
  pose proof (Hall k v ltac:(set_solver)). specialize (IH ltac:(set_solver)). unfold fmap in IH. lia.
Qed.
End flat.
