(* ===== verification/Budget.v ===== *)
(** * Time, limits and the work budget of a native call

    Models [time.rs], [limits.rs] and [budget.rs] of [smolnet_core], with the
    [Instant] and [Duration] arithmetic they take from the vendored smoltcp.

    The clock, the scheduler and the build profile are outside the program:
    [Beam] gives the value of each reading of [std::time::Instant::now], the
    scheduler's answer to each [enif_consume_timeslice], and whether overflow
    is checked; [Clock] counts the readings and keeps what the scheduler was
    told, so that every theorem holds for every clock, scheduler and build. *)
From S2P Require Import Prelude.

(** ** smoltcp's [Instant] (microseconds, an [i64]) and [Duration] *)
Module Time.
Definition Instant : Type := Z.
Definition Duration : Type := N.

Definition from_micros (micros : i64) : Instant := micros.
Definition from_millis (millis : i64) : Instant := (millis * 1000)%Z.
(** [i64] division truncates towards zero. *)
Definition total_millis (i : Instant) : i64 := Z.quot i 1000.
Definition duration_from_millis (millis : u64) : Duration := (millis * 1000)%N.
(** The sum of an instant and a duration is one of [i64]: a build that checks
    for overflow panics on it, any other wraps. *)
Definition instant_add {E} (checks : bool) (i : Instant) (d : Duration) : outcome E Instant :=
  let sum := (i + wrap_i64 (Z.of_N d))%Z in
  if i64_in_range sum then Ok sum else if checks then Panic else Ok (wrap_i64 sum).

Definition instant_from_millis (millis : i64) : outcome unit Instant :=
  let micros := (millis * 1000)%Z in
  if i64_in_range micros then Ok (from_micros micros) else Err tt.

Definition time_until (now_millis deadline_millis : i64) : outcome unit u64 :=
  if (deadline_millis <=? now_millis)%Z then Ok 0%N
  else
    let difference := (deadline_millis - now_millis)%Z in
    if i64_in_range difference then
      (if (0 <=? difference)%Z then Ok (Z.to_N difference) else Err tt)
    else Err tt.
End Time.

(** ** The limits of a call, and the work a call did *)
Record Limits := {
  l_bytes_copied : usize;
  l_input_packets : usize;
  l_output_packets : usize;
  l_ready_events : usize;
  l_maintenance_work : usize;
  l_sockets : usize
}.

Record Work := {
  w_bytes_copied : usize;
  w_input_packets : usize;
  w_output_packets : usize;
  w_ready_events : usize;
  w_maintenance_work : usize
}.

#[export] Instance Work_eq_dec : EqDecision Work.
Proof. solve_decision. Defined.

Definition MAX_BYTES_COPIED : usize := 65575.
Definition MAX_INPUT_PACKETS : usize := 32.
Definition MAX_OUTPUT_PACKETS : usize := 32.
Definition MAX_READY_EVENTS : usize := 128.
Definition MAX_MAINTENANCE_WORK : usize := 128.
Definition MAX_SOCKETS : usize := 512.

Definition contains (lo hi x : N) : bool := ((lo <=? x) && (x <=? hi))%N.

Definition limits_valid (l : Limits) : bool :=
  contains 1 MAX_BYTES_COPIED (l_bytes_copied l)
  && contains 1 MAX_INPUT_PACKETS (l_input_packets l)
  && contains 1 MAX_OUTPUT_PACKETS (l_output_packets l)
  && contains 1 MAX_READY_EVENTS (l_ready_events l)
  && contains 1 MAX_MAINTENANCE_WORK (l_maintenance_work l)
  && contains 1 MAX_SOCKETS (l_sockets l).

Definition work_default : Work := {|
  w_bytes_copied := 0; w_input_packets := 0; w_output_packets := 0;
  w_ready_events := 0; w_maintenance_work := 0 |}.

Definition constrain (l : Limits) (requested : Work) : Work * bool :=
  let completed := {|
    w_bytes_copied := N.min (w_bytes_copied requested) (l_bytes_copied l);
    w_input_packets := N.min (w_input_packets requested) (l_input_packets l);
    w_output_packets := N.min (w_output_packets requested) (l_output_packets l);
    w_ready_events := N.min (w_ready_events requested) (l_ready_events l);
    w_maintenance_work := N.min (w_maintenance_work requested) (l_maintenance_work l)
  |} in
  (completed, bool_decide (completed ≠ requested)).

(** ** The budget of a call, in nanoseconds of the monotonic clock *)
Definition CALL_TARGET : N := 1000000.
Definition ENCODING_HEADROOM : N := 250000.
Definition WORK_BUDGET : N := 750000.
Definition CHARGE_CHUNK : usize := 16.

Class Beam := {
  (** the [n]-th reading of the monotonic clock *)
  clock_at : N → Z;
  (** whether the [n]-th charge, of this percentage, exhausts the slice *)
  timeslice_spent : N → Z → bool;
  (** whether the library is built with overflow checks: a debug build is *)
  overflow_checks : bool
}.

(** The readings taken so far and the percentages given to the scheduler. *)
Record Clock := { clk_reads : N; clk_bills : list Z }.
#[export] Instance eta_Clock : Eta Clock := λ c,
  {| clk_reads := clk_reads c; clk_bills := clk_bills c |}.

Record CallBudget := {
  started_at : Z;
  deadline : Z;
  last_charged_at : Z;
  forced_checkpoints : option usize;
  forced_charges : option usize;
  yielded : bool;
  slice_exhausted : bool
}.
#[export] Instance eta_CallBudget : Eta CallBudget := λ b,
  {| started_at := started_at b; deadline := deadline b;
     last_charged_at := last_charged_at b;
     forced_checkpoints := forced_checkpoints b; forced_charges := forced_charges b;
     yielded := yielded b; slice_exhausted := slice_exhausted b |}.

(** [u64::div_ceil]. *)
Definition div_ceil (a b : N) : N := ((a + (b - 1)) / b)%N.

Definition percent_of_call_target (duration : N) : Z :=
  let nanoseconds := if (duration <=? u64_max)%N then duration else u64_max in
  let percent := div_ceil (N.min (nanoseconds * 100) u64_max) CALL_TARGET in
  Z.of_N (N.max 1 (N.min percent 100)).

Section budget.
Context `{Beam}.

Definition read_clock (c : Clock) : Z * Clock :=
  (clock_at (clk_reads c), c <| clk_reads ::= N.succ |>).

Definition budget_start (forced : option usize) (c : Clock) : CallBudget * Clock :=
  let '(now, c) := read_clock c in
  ({| started_at := now; deadline := now + Z.of_N WORK_BUDGET; last_charged_at := now;
      forced_checkpoints := forced; forced_charges := None;
      yielded := false; slice_exhausted := false |}, c).

(** [charge] returns whether the slice is spent. *)
Definition charge (b : CallBudget) (c : Clock) : bool * CallBudget * Clock :=
  let '(now, c) := read_clock c in
  (* [saturating_duration_since] *)
  let delta := Z.to_N (now - last_charged_at b) in
  let percent := percent_of_call_target delta in
  let charged := timeslice_spent (llen (clk_bills c)) percent in
  let c := c <| clk_bills ::= λ l, l ++ [percent] |> in
  let '(exhausted, forced) :=
    match forced_charges b with
    | Some 0%N => (true, Some 0%N)
    | Some remaining => (charged, Some (remaining - 1)%N)
    | None => (charged, None)
    end in
  (exhausted,
   b <| last_charged_at := now |> <| forced_charges := forced |>
     <| slice_exhausted ::= orb exhausted |>, c).

Definition force_slice_exhaustion_after (charges : usize) (b : CallBudget) : CallBudget :=
  b <| forced_charges := Some charges |>.

Definition checkpoint (b : CallBudget) (c : Clock) : bool * CallBudget * Clock :=
  let '(within_budget, forced, c) :=
    match forced_checkpoints b with
    | Some 0%N => (false, Some 0%N, c)
    | Some remaining => (true, Some (remaining - 1)%N, c)
    | None =>
        if slice_exhausted b then (false, None, c)
        else let '(now, c) := read_clock c in ((now <? deadline b)%Z, None, c)
    end in
  (within_budget,
   b <| forced_checkpoints := forced |> <| yielded ::= orb (negb within_budget) |>, c).

Definition elapsed_nanoseconds (b : CallBudget) (c : Clock) : u64 * Clock :=
  let '(now, c) := read_clock c in
  (N.min (Z.to_N (now - started_at b)) u64_max, c).

(** A call is a sequence of charges and checkpoints. [run_budget] returns the
    answers of the checkpoints; the bills are in the clock. *)
Inductive budget_op := OpCharge | OpCheckpoint.

Fixpoint run_budget (ops : list budget_op) (b : CallBudget) (c : Clock) : list bool * CallBudget * Clock :=
  match ops with
  | [] => ([], b, c)
  | OpCharge :: ops => let '(_, b, c) := charge b c in run_budget ops b c
  | OpCheckpoint :: ops =>
      let '(x, b, c) := checkpoint b c in
      let '(xs, b, c) := run_budget ops b c in (x :: xs, b, c)
  end.

Definition charges (ops : list budget_op) : list budget_op :=
  List.filter (λ op, match op with OpCharge => true | OpCheckpoint => false end) ops.

(** The documented behaviour of [std::time::Instant]: readings never go back. *)
Definition monotonic_clock : Prop := ∀ m n, (m <= n)%N → (clock_at m <= clock_at n)%Z.
End budget.

(** ** Theorems on time and limits *)
Lemma i64_in_range_spec z : i64_in_range z = true ↔ (i64_min <= z <= i64_max)%Z.
Proof. unfold i64_in_range. rewrite andb_true_iff, !Z.leb_le. lia. Qed.

Lemma limits_positive l :
  limits_valid l = true →
  (0 < l_input_packets l ∧ 0 < l_output_packets l ∧ 0 < l_ready_events l
   ∧ 0 < l_maintenance_work l ∧ 0 < l_sockets l)%N.
Proof. unfold limits_valid, contains. lia. Qed.

Lemma instant_from_millis_ok millis :
  (i64_min <= millis * 1000 <= i64_max)%Z →
  Time.instant_from_millis millis = Ok (Time.from_millis millis).
Proof.
  intros Hr. unfold Time.instant_from_millis.
  by rewrite (proj2 (i64_in_range_spec _) Hr).
Qed.

(** C38. A millisecond time either becomes an instant that reads back as the same milliseconds,
    or is rejected because its microseconds do not fit 64 bits. *)
Theorem instant_millis_roundtrip millis :
  match Time.instant_from_millis millis with
  | Ok instant =>
      Time.total_millis instant = millis ∧ i64_in_range instant = true
  | Err _ => (millis * 1000 < i64_min ∨ i64_max < millis * 1000)%Z
  | Panic => False
  end.
Proof.
  unfold Time.instant_from_millis. destruct (i64_in_range (millis * 1000)) eqn:Hr.
  - split; [|done]. unfold Time.total_millis, Time.from_micros.
    by rewrite Z.quot_mul.
  - apply not_true_iff_false in Hr. rewrite i64_in_range_spec in Hr. lia.
Qed.

(** The time until a deadline is the difference clamped at zero, failing exactly when the
    difference overflows 64 bits. *)
Theorem time_until_spec now deadline :
  Time.time_until now deadline =
    if decide (i64_max < deadline - now)%Z then Err tt
    else Ok (Z.to_N (deadline - now)).
Proof.
  unfold Time.time_until, i64_max. case_match eqn:Hle.
  - apply Z.leb_le in Hle. rewrite decide_False by lia. f_equal. lia.
  - apply Z.leb_gt in Hle. case_decide as Hov.
    + destruct (i64_in_range (deadline - now)) eqn:Hr; [|done].
      apply i64_in_range_spec in Hr. unfold i64_max in Hr. lia.
    + rewrite (proj2 (i64_in_range_spec _)); [|unfold i64_max, i64_min; lia].
      by rewrite (proj2 (Z.leb_le _ _)) by lia.
Qed.

(** What is left of a request under a limit. *)
Definition cut_to (limit requested completed : usize) : Prop :=
  ((requested <= limit ∧ completed = requested) ∨ (limit < requested ∧ completed = limit))%N.
Definition within (l : Limits) (w : Work) : Prop :=
  ((w_bytes_copied w <= l_bytes_copied l)
   ∧ (w_input_packets w <= l_input_packets l)
   ∧ (w_output_packets w <= l_output_packets l)
   ∧ (w_ready_events w <= l_ready_events l)
   ∧ (w_maintenance_work w <= l_maintenance_work l))%N.

(** C37. Each kind of requested work is completed as requested when it is at or below its limit
    and cut to exactly the limit when it is above; more work is reported exactly when
    something was above its limit, and constraining again changes nothing. *)
Theorem constrain_spec l requested completed more :
  constrain l requested = (completed, more) →
  cut_to (l_bytes_copied l) (w_bytes_copied requested) (w_bytes_copied completed)
  ∧ cut_to (l_input_packets l) (w_input_packets requested) (w_input_packets completed)
  ∧ cut_to (l_output_packets l) (w_output_packets requested) (w_output_packets completed)
  ∧ cut_to (l_ready_events l) (w_ready_events requested) (w_ready_events completed)
  ∧ cut_to (l_maintenance_work l) (w_maintenance_work requested) (w_maintenance_work completed)
  ∧ (more = false ↔ within l requested)
  ∧ constrain l completed = (completed, false).
Proof.
  unfold constrain, cut_to, within. intros [= <- <-]; simpl. split_and!; try lia.
  - rewrite bool_decide_eq_false. split.
    + intros Heq%dec_stable. destruct requested. simplify_eq/=. lia.
    + intros Hle Hne. apply Hne. destruct requested. simpl in *. f_equal; lia.
  - f_equal; [f_equal; lia|]. apply bool_decide_eq_false. intros Hne. apply Hne.
    f_equal; lia.
Qed.

(** ** Theorems on the budget *)
Lemma div_ceil_spec a b p :
  (0 < b)%N → (div_ceil a b = p ↔ a <= p * b ∧ (p = 0 ∨ (p - 1) * b < a))%N.
Proof.
  intros Hb. unfold div_ceil.
  pose proof (N.div_mod (a + (b - 1)) b ltac:(lia)) as Hd.
  pose proof (N.mod_lt (a + (b - 1)) b ltac:(lia)) as Hm.
  set (q := ((a + (b - 1)) / b)%N) in *. set (r := ((a + (b - 1)) mod b)%N) in *.
  split.
  - intros <-. nia.
  - intros [? [->|?]]; [nia|]. assert (q <= p)%N by nia. assert (p <= q)%N by nia. lia.
Qed.

(** The percentage charged is between 1 and 100 and is the duration rounded up to ten-
    microsecond steps. *)
Theorem percent_of_call_target_spec duration p :
  percent_of_call_target duration = Z.of_N p ↔
  (1 <= p <= 100)%N
  ∧ (p = 1 ∨ (p - 1) * 10000 < duration)%N
  ∧ (p = 100 ∨ duration <= p * 10000)%N.
Proof.
  unfold percent_of_call_target.
  set (n := if (duration <=? u64_max)%N then duration else u64_max).
  assert (Hn : n = N.min duration u64_max) by (unfold n; destruct (N.leb_spec duration u64_max); lia).
  set (q := div_ceil (N.min (n * 100) u64_max) CALL_TARGET).
  assert (Hq : div_ceil (N.min (n * 100) u64_max) CALL_TARGET = q) by done.
  apply div_ceil_spec in Hq; [|unfold CALL_TARGET; lia].
  unfold CALL_TARGET, u64_max in *. lia.
Qed.

Section budget_theorems.
Context `{Beam}.

Lemma charge_last b c x b' c' :
  charge b c = (x, b', c') →
  last_charged_at b' = clock_at (clk_reads c)
  ∧ clk_reads c' = N.succ (clk_reads c)
  ∧ clk_bills c' = clk_bills c ++ [percent_of_call_target (Z.to_N (clock_at (clk_reads c) - last_charged_at b))]
  ∧ deadline b' = deadline b ∧ forced_checkpoints b' = forced_checkpoints b
  ∧ yielded b' = yielded b
  ∧ slice_exhausted b' = x || slice_exhausted b.
Proof.
  unfold charge; simpl. intros Hc. by repeat case_match; simplify_eq/=.
Qed.

Lemma checkpoint_last b c x b' c' :
  checkpoint b c = (x, b', c') →
  last_charged_at b' = last_charged_at b
  ∧ (clk_reads c <= clk_reads c')%N ∧ clk_bills c' = clk_bills c
  ∧ deadline b' = deadline b
  ∧ slice_exhausted b' = slice_exhausted b
  ∧ yielded b' = negb x || yielded b.
Proof.
  unfold checkpoint, read_clock; simpl. intros Hc.
  repeat case_match; simplify_eq/=; split_and!; done || lia.
Qed.

(** A budget whose next checkpoint, whenever it comes, answers no. *)
Definition spent (b : CallBudget) (c : Clock) : Prop :=
  match forced_checkpoints b with
  | Some n => n = 0%N
  | None => slice_exhausted b = true ∨ (deadline b <= clock_at (clk_reads c))%Z
  end.

Lemma checkpoint_false_spent (Hmono : monotonic_clock) b c b' c' :
  checkpoint b c = (false, b', c') → spent b' c'.
Proof.
  unfold checkpoint, spent, read_clock. intros Hc.
  repeat case_match; simplify_eq/=; auto.
  destruct (Z.ltb_spec (clock_at (clk_reads c)) (deadline b)) as [|Hge]; [done|].
  right. etrans; [exact Hge|]. apply Hmono. lia.
Qed.

Lemma spent_charge (Hmono : monotonic_clock) b c x b' c' :
  spent b c → charge b c = (x, b', c') → spent b' c'.
Proof.
  intros Hs (_ & Hr & _ & Hd & Hf & _ & He)%charge_last. unfold spent in *.
  rewrite Hf, Hd, He. destruct (forced_checkpoints b); [done|].
  destruct Hs as [->|Hs]; [left; by rewrite orb_true_r|right].
  etrans; [exact Hs|]. apply Hmono. lia.
Qed.

Lemma spent_checkpoint (Hmono : monotonic_clock) b c x b' c' :
  spent b c → checkpoint b c = (x, b', c') → x = false ∧ spent b' c'.
Proof.
  intros Hs Hc. assert (x = false) as ->; [|eauto using checkpoint_false_spent].
  unfold checkpoint, spent, read_clock in *. repeat case_match; simplify_eq/=; try done.
  destruct Hs as [?|?]; [congruence|by apply Z.ltb_ge].
Qed.

Lemma run_budget_spent (Hmono : monotonic_clock) ops b c xs b' c' :
  spent b c → run_budget ops b c = (xs, b', c') → xs = replicate (length xs) false.
Proof.
  revert b c xs b' c'. induction ops as [|[] ops IH]; intros b c xs b' c' Hs Hr; simpl in Hr.
  - by simplify_eq.
  - destruct (charge b c) as [[x b1] c1] eqn:Hc. eauto using spent_charge.
  - destruct (checkpoint b c) as [[x b1] c1] eqn:Hc.
    destruct (run_budget ops b1 c1) as [[xs1 b2] c2] eqn:Hr1. simplify_eq.
    destruct (spent_checkpoint Hmono _ _ _ _ _ Hs Hc) as [-> Hs1]. simpl. f_equal. eauto.
Qed.

(** C33. On a clock that does not run backwards, once a checkpoint of a call budget answers no,
    every later one does, and the budget remembers that it yielded. *)
Theorem checkpoints_stop_for_good (Hmono : monotonic_clock) ops b c xs b' c' :
  run_budget ops b c = (xs, b', c') →
  (∃ m n, xs = replicate m true ++ replicate n false)
  ∧ yielded b' = existsb negb xs || yielded b.
Proof.
  revert b c xs b' c'. induction ops as [|[] ops IH]; intros b c xs b' c' Hr; simpl in Hr.
  - simplify_eq. split; [by exists 0, 0|done].
  - destruct (charge b c) as [[x b1] c1] eqn:Hc.
    apply charge_last in Hc as (_ & _ & _ & _ & _ & <- & _). eauto.
  - destruct (checkpoint b c) as [[x b1] c1] eqn:Hc.
    destruct (run_budget ops b1 c1) as [[xs1 b2] c2] eqn:Hr1. simplify_eq.
    pose proof (checkpoint_last _ _ _ _ _ Hc) as (_ & _ & _ & _ & _ & Hy).
    destruct (IH _ _ _ _ _ Hr1) as [(m & n & Hxs) Hy']. split.
    + destruct x; [exists (S m), n; by rewrite Hxs|]. exists 0, (S (length xs1)). simpl. f_equal.
      eauto using run_budget_spent, checkpoint_false_spent.
    + rewrite Hy', Hy. simpl. by destruct x, (existsb negb xs1).
Qed.

(** The percentage for a duration: whole steps of ten microseconds, rounded up,
    at least one and at most a hundred. *)
Definition bill_for (duration : N) (percent : Z) : Prop :=
  (1 <= percent <= 100
   ∧ (percent = 1 ∨ (percent - 1) * 10000 < Z.of_N duration)
   ∧ (percent = 100 ∨ Z.of_N duration <= percent * 10000))%Z.

Lemma percent_bill_for duration : bill_for duration (percent_of_call_target duration).
Proof.
  unfold bill_for. set (p := percent_of_call_target duration).
  destruct (proj1 (percent_of_call_target_spec duration (Z.to_N p))) as (H1 & H2 & H3); [|lia].
  fold p. assert (1 <= p)%Z by (unfold p, percent_of_call_target; lia). lia.
Qed.

Lemma run_budget_charges (Hmono : monotonic_clock) ops b c xs b' c' :
  run_budget ops b c = (xs, b', c') →
  (last_charged_at b <= clock_at (clk_reads c))%Z →
  ∃ durations bills,
    clk_bills c' = clk_bills c ++ bills
    ∧ length bills = length (charges ops)
    ∧ Forall2 bill_for durations bills
    ∧ (last_charged_at b + Z.of_N (sum_N durations) = last_charged_at b')%Z
    ∧ (last_charged_at b' <= clock_at (clk_reads c'))%Z.
Proof.
  revert b c xs b' c'. induction ops as [|[] ops IH]; intros b c xs b' c' Hr Hle; simpl in Hr.
  - simplify_eq. exists [], []. rewrite app_nil_r. simpl. split_and!; [done|done|constructor|lia|done].
  - destruct (charge b c) as [[x b1] c1] eqn:Hc. apply charge_last in Hc as (Hl & Hrd & Hbl & _).
    assert (clock_at (clk_reads c) <= clock_at (clk_reads c1))%Z by (apply Hmono; lia).
    destruct (IH _ _ _ _ _ Hr ltac:(lia)) as (ds & bs & Hb & Hn & Hf & Hs & Hle').
    eexists (_ :: ds), (_ :: bs). rewrite Hb, Hbl, <-app_assoc. simpl.
    split_and!; [done|by rewrite Hn|constructor; [apply percent_bill_for|done]|lia|done].
  - destruct (checkpoint b c) as [[x b1] c1] eqn:Hc.
    destruct (run_budget ops b1 c1) as [[xs1 b2] c2] eqn:Hr1. simplify_eq.
    apply checkpoint_last in Hc as (Hl & Hrd & Hbl & _).
    assert (clock_at (clk_reads c) <= clock_at (clk_reads c1))%Z by (apply Hmono; lia).
    destruct (IH _ _ _ _ _ Hr1 ltac:(lia)) as (ds & bs & Hb & Hn & Hf & Hs & Hle').
    exists ds, bs. rewrite Hb, Hbl. split_and!; done || lia.
Qed.

Lemma run_budget_charged ops b c xs b' c' :
  run_budget (ops ++ [OpCharge]) b c = (xs, b', c') → last_charged_at b' = clock_at (N.pred (clk_reads c')).
Proof.
  revert b c xs. induction ops as [|[] ops IH]; intros b c xs Hr; simpl in Hr.
  - destruct (charge b c) as [[x b1] c1] eqn:Hc. simplify_eq. apply charge_last in Hc as (-> & -> & _). by rewrite N.pred_succ.
  - destruct (charge b c) as [[x b1] c1]. eauto.
  - destruct (checkpoint b c) as [[x b1] c1]. destruct (run_budget (ops ++ _) b1 c1) as [[xs1 b2] c2] eqn:Hr1.
    simplify_eq. eauto.
Qed.

(** C34. Over any sequence of checkpoints and charges up to a charge, the scheduler is told one
    percentage for each charge; these are the bills (ten microseconds a percent, rounded up,
    at least one and at most a hundred) for durations that add up to the time from the
    charge before the first to the clock reading of the last: no nanosecond is billed twice
    and none is skipped. *)
Theorem charges_bill_each_nanosecond_once (Hmono : monotonic_clock) ops b c xs b' c' :
  run_budget (ops ++ [OpCharge]) b c = (xs, b', c') →
  (last_charged_at b <= clock_at (clk_reads c))%Z →
  ∃ durations bills,
    clk_bills c' = clk_bills c ++ bills
    ∧ length bills = S (length (charges ops))
    ∧ Forall2 bill_for durations bills
    ∧ (last_charged_at b + Z.of_N (sum_N durations) = clock_at (N.pred (clk_reads c')))%Z.
Proof.
  intros Hr Hle. destruct (run_budget_charges Hmono _ _ _ _ _ _ Hr Hle) as (ds & bs & Hb & Hn & Hf & Hs & _).
  exists ds, bs. rewrite <-(run_budget_charged _ _ _ _ _ _ Hr). split_and!; try done.
  rewrite Hn. unfold charges. rewrite List.filter_app, length_app. simpl. lia.
Qed.
End budget_theorems.

(** ** Concrete runs *)
Definition ticking_beam : Beam := {|
  clock_at n := (Z.of_N n * 300000)%Z;
  timeslice_spent _ percent := (90 <? percent)%Z;
  overflow_checks := true
|}.

Lemma ticking_beam_monotonic : monotonic_clock (H := ticking_beam).
Proof. intros m n Hle. simpl. lia. Qed.

Lemma constrain_witness :
  let l := {| l_bytes_copied := 10; l_input_packets := 1; l_output_packets := 1;
              l_ready_events := 1; l_maintenance_work := 1; l_sockets := 1 |} in
  let w := {| w_bytes_copied := 12; w_input_packets := 1; w_output_packets := 0;
              w_ready_events := 0; w_maintenance_work := 0 |} in
  cut_to 10 12 (w_bytes_copied (constrain l w).1).
Proof.
  intros l w. exact (proj1 (constrain_spec l w _ _ eq_refl)).
Defined.

Definition clock_new : Clock := {| clk_reads := 0; clk_bills := [] |}.

Lemma checkpoints_stop_for_good_witness :
  let b := (@budget_start ticking_beam None clock_new) in
  ∃ m n, (@run_budget ticking_beam [OpCheckpoint; OpCharge; OpCheckpoint; OpCheckpoint] b.1 b.2).1.1
         = replicate m true ++ replicate n false.
Proof.
  intros b.
  exact (proj1 (@checkpoints_stop_for_good ticking_beam ticking_beam_monotonic
    [OpCheckpoint; OpCharge; OpCheckpoint; OpCheckpoint] b.1 b.2 _ _ _ eq_refl)).
Defined.

Lemma charges_bill_each_nanosecond_once_witness :
  let b := (@budget_start ticking_beam None clock_new) in
  let r := @run_budget ticking_beam [OpCharge; OpCheckpoint; OpCharge] b.1 b.2 in
  clk_bills r.2 = [30; 60]%Z
  ∧ ∃ durations bills, clk_bills r.2 = clk_bills b.2 ++ bills ∧ length bills = 2
    ∧ Forall2 bill_for durations bills
    ∧ (last_charged_at b.1 + Z.of_N (sum_N durations) = 900000)%Z.
Proof.
  intros b r. split; [vm_compute; reflexivity|].
  destruct (@charges_bill_each_nanosecond_once ticking_beam ticking_beam_monotonic
    [OpCharge; OpCheckpoint] b.1 b.2 _ _ _ eq_refl ltac:(vm_compute; congruence))
    as (ds & bs & Hb & Hn & Hf & Hs).
  exists ds, bs. split; [exact Hb|]. split; [exact Hn|]. split; [exact Hf|exact Hs].
Defined.
