(* ===== verification/Waiter.v ===== *)
(** * Waiters, wakers and the ready queue

    Models [waiter.rs] of [smolnet_core]. A socket has two readiness flags,
    one per direction, each an [Arc<AtomicBool>] shared by the socket's table
    entry and by every waker made for it. The flags are cells of a heap
    ([Flags]); the two cells allocated for a socket are named by the socket's
    [ReadyKey]s, which are as fresh as the cells. *)
From S2P Require Import Prelude.

Inductive Direction := Read | Write.
#[export] Instance Direction_eq_dec : EqDecision Direction.
Proof. solve_decision. Defined.
#[export] Program Instance Direction_countable : Countable Direction :=
  inj_countable (λ d, match d with Read => false | Write => true end)
    (λ b : bool, Some (if b then Write else Read)) _.
Next Obligation. by intros []. Qed.

Inductive Operation := Recv | Recvfrom | Accept | Send | Sendto | Connect.
#[export] Instance Operation_eq_dec : EqDecision Operation.
Proof. solve_decision. Defined.

Definition operation_direction (o : Operation) : Direction :=
  match o with
  | Recv | Recvfrom | Accept => Read
  | Send | Sendto | Connect => Write
  end.

Record SocketIdentity := { id : u64; generation : u64 }.
#[export] Instance SocketIdentity_eq_dec : EqDecision SocketIdentity.
Proof. solve_decision. Defined.
#[export] Program Instance SocketIdentity_countable : Countable SocketIdentity :=
  inj_countable' (λ i, (id i, generation i)) (λ p, {| id := p.1; generation := p.2 |}) _.
Next Obligation. by intros []. Qed.

Record ReadyKey := { identity : SocketIdentity; direction : Direction }.
#[export] Instance ReadyKey_eq_dec : EqDecision ReadyKey.
Proof. solve_decision. Defined.
#[export] Program Instance ReadyKey_countable : Countable ReadyKey :=
  inj_countable' (λ k, (identity k, direction k)) (λ p, {| identity := p.1; direction := p.2 |}) _.
Next Obligation. by intros []. Qed.

(** The derived [Ord]s. *)
Definition direction_rank (d : Direction) : Z := match d with Read => 0 | Write => 1 end.
#[export] Program Instance SocketIdentity_ordered : Ordered SocketIdentity :=
  {| okey i := [Z.of_N (id i); Z.of_N (generation i)] |}.
Next Obligation. intros [] [] [= ?%N2Z.inj ?%N2Z.inj]; simpl in *; by subst. Qed.
#[export] Program Instance ReadyKey_ordered : Ordered ReadyKey :=
  {| okey k := [Z.of_N (id (identity k)); Z.of_N (generation (identity k));
                direction_rank (direction k)] |}.
Next Obligation.
  intros [[] []] [[] []] [= ?%N2Z.inj ?%N2Z.inj]; simpl in *; by subst.
Qed.

(** A process and a reference are opaque terms that can only be compared. *)
Abbreviation LocalPid := N (only parsing).
Abbreviation Reference := N (only parsing).

Record Waiter := { pid : LocalPid; operation : Operation; reference : Reference }.
#[export] Instance Waiter_eq_dec : EqDecision Waiter.
Proof. solve_decision. Defined.

Definition waiter_new (p : LocalPid) (o : Operation) (r : Reference) : Waiter :=
  {| pid := p; operation := o; reference := r |}.

Definition waiter_matches (w : Waiter) (o : Operation) (r : Reference) : bool :=
  bool_decide (operation w = o) && bool_decide (reference w = r).

(** ** The heap of readiness flags *)
Abbreviation cell := ReadyKey (only parsing).
Abbreviation Flags := (gmap cell bool) (only parsing).
(** [AtomicBool::load], [store] and [swap]. *)
Definition load (c : cell) (h : Flags) : bool := default false (h !! c).
Definition store (c : cell) (v : bool) (h : Flags) : Flags := <[c := v]> h.

(** ** The ready queue *)
Inductive lock_state := Unlocked | Locked | Poisoned.
#[export] Instance lock_state_eq_dec : EqDecision lock_state.
Proof. solve_decision. Defined.

Record ReadyState := {
  entries : gset ReadyKey;
  lock : lock_state;
  capacity : usize;
  overflow : bool;
  queued : u64;
  coalesced : u64;
  overflows : u64
}.
#[export] Instance eta_ReadyState : Eta ReadyState := λ s,
  {| entries := entries s; lock := lock s; capacity := capacity s; overflow := overflow s;
     queued := queued s; coalesced := coalesced s; overflows := overflows s |}.

Record ReadinessCounters := { rc_queued : u64; rc_coalesced : u64; rc_overflows : u64 }.

Definition queue_new (capacity : usize) : ReadyState :=
  {| entries := ∅; lock := Unlocked; capacity := capacity; overflow := false;
     queued := 0; coalesced := 0; overflows := 0 |}.

Definition entries_len (q : ReadyState) : usize := N.of_nat (size (entries q)).

(** [try_entries]: a poisoned lock is taken, a held one is not waited for. *)
Definition try_entries (q : ReadyState) : option (gset ReadyKey) :=
  match lock q with
  | Unlocked | Poisoned => Some (entries q)
  | Locked => None
  end.

Record Waker := { wk_key : ReadyKey; wk_flag : cell }.
#[export] Instance Waker_eq_dec : EqDecision Waker.
Proof. solve_decision. Defined.

Definition waker (key : ReadyKey) (flag : cell) : Waker := {| wk_key := key; wk_flag := flag |}.

(** [mark_ready], on the shared flag heap and queue. *)
Definition mark_ready (w : Waker) (h : Flags) (q : ReadyState) : Flags * ReadyState :=
  if load (wk_flag w) h then (store (wk_flag w) true h, q <| coalesced ::= incr |>)
  else
    let h := store (wk_flag w) true h in
    let insert := q <| entries ::= λ es, {[wk_key w]} ∪ es |> <| queued ::= incr |> in
    let spill := q <| overflow := true |> <| overflows ::= incr |> in
    match lock q with
    | Unlocked => (h, if (entries_len q <? capacity q)%N then insert else spill)
    | Poisoned => (h, if (entries_len q <? capacity q)%N then insert else spill)
    | Locked => (h, spill)
    end.

(** [drain], of the fuzzing build. *)
Definition drain (limit : usize) (q : ReadyState) : list ReadyKey * ReadyState :=
  match try_entries q with
  | None => ([], q <| overflow := true |>)
  | Some es =>
      let count := N.min limit (N.of_nat (size es)) in
      let keys := take (N.to_nat count) (bset_elems es) in
      (keys, q <| entries := foldl (λ es k, es ∖ {[k]}) es keys |>)
  end.

Section drain_while.
(** The state behind the [within_budget] closure. *)
Context {B : Type} (within_budget : B → bool * B).

(** The loop pops one key a turn, so it takes at most [size entries] turns. *)
Fixpoint drain_loop (turns : nat) (limit : usize) (es : gset ReadyKey)
    (keys : list ReadyKey) (b : B) : list ReadyKey * gset ReadyKey * B :=
  match turns with
  | O => (keys, es, b)
  | S turns =>
      match bset_first es with
      | None => (keys, es, b)
      | Some key =>
          let es := es ∖ {[key]} in
          let keys := keys ++ [key] in
          if (llen keys =? limit)%N then (keys, es, b)
          else
            let '(ok, b) := within_budget b in
            if ok then drain_loop turns limit es keys b else (keys, es, b)
      end
  end.

Definition drain_while (limit : usize) (q : ReadyState) (b : B) :
    list ReadyKey * ReadyState * B :=
  if (limit =? 0)%N then ([], q, b)
  else
    let '(ok, b) := within_budget b in
    if negb ok then ([], q, b)
    else
      match try_entries q with
      | None => ([], q <| overflow := true |>, b)
      | Some es =>
          let '(keys, es, b) := drain_loop (size es) limit es [] b in
          (keys, q <| entries := es |>, b)
      end.
End drain_while.

Definition take_overflow (q : ReadyState) : bool * ReadyState :=
  (overflow q, q <| overflow := false |>).

Definition queue_len (q : ReadyState) : usize :=
  match try_entries q with Some es => N.of_nat (size es) | None => 0 end.

Definition has_pending (q : ReadyState) : bool :=
  overflow q || match try_entries q with
                | None => true
                | Some es => bool_decide (es ≠ ∅)
                end.

(** [clear], of the fuzzing build. *)
Definition queue_clear (q : ReadyState) : ReadyState :=
  let q := match try_entries q with Some _ => q <| entries := ∅ |> | None => q end in
  q <| overflow := false |>.

Definition queue_counters (q : ReadyState) : ReadinessCounters :=
  {| rc_queued := queued q; rc_coalesced := coalesced q; rc_overflows := overflows q |}.

(** ** Theorems *)
(** Every set flag is accounted for: its key is queued or has just been taken
    out ([taken]), or the overflow mark calls for a scan of the table. *)
Definition covered (h : Flags) (q : ReadyState) (taken : list ReadyKey) : Prop :=
  ∀ k, load k h = true → k ∈ entries q ∨ overflow q = true ∨ k ∈ taken.

Definition within_capacity (q : ReadyState) : Prop := (entries_len q <= capacity q)%N.

Lemma load_store c c' v h : load c (store c' v h) = if decide (c = c') then v else load c h.
Proof.
  unfold load, store. case_decide as Hc; [subst; by rewrite lookup_insert_eq|].
  by rewrite lookup_insert_ne.
Qed.

Lemma drain_loop_spec {B} (within : B → bool * B) turns limit es keys b keys' es' b' :
  size es = turns → (llen keys < limit)%N →
  drain_loop within turns limit es keys b = (keys', es', b') →
  ∃ n, keys' = keys ++ take n (bset_elems es)
    ∧ bset_elems es' = drop n (bset_elems es)
    ∧ es' = es ∖ list_to_set (take n (bset_elems es))
    ∧ (llen keys' <= limit)%N
    ∧ ((∀ b, (within b).1 = true) → bset_elems es' = [] ∨ llen keys' = limit).
Proof.
  revert es keys b. induction turns as [|turns IH]; intros es keys b Hsz Hlt Hr; simpl in Hr.
  - simplify_eq. apply size_empty_inv in Hsz. exists 0. rewrite take_0, app_nil_r, drop_0.
    assert (es' = ∅) as -> by set_solver. split_and!; [done|done|set_solver|lia|by left].
  - destruct (bset_first es) as [k|] eqn:Hf; cycle 1.
    { apply bset_first_None in Hf as ->. by rewrite size_empty in Hsz. }
    pose proof (bset_elems_cons _ _ Hf) as Hc. apply bset_first_elem in Hf.
    assert (Hsz' : size (es ∖ {[k]}) = turns).
    { rewrite size_difference by set_solver. rewrite size_singleton. lia. }
    assert (Hll : llen (keys ++ [k]) = (llen keys + 1)%N) by (unfold llen; rewrite length_app; simpl; lia).
    assert (Hone : ∃ n, keys ++ [k] = keys ++ take n (bset_elems es)
      ∧ bset_elems (es ∖ {[k]}) = drop n (bset_elems es)
      ∧ es ∖ {[k]} = es ∖ list_to_set (take n (bset_elems es))).
    { exists 1. rewrite Hc. simpl. rewrite take_0, drop_0. split_and!; [done|done|set_solver]. }
    case_match eqn:Hl; [|destruct (within b) as [[] b1] eqn:Hb].
    + simplify_eq. destruct Hone as (n & ? & ? & ?). exists n. split_and!; try done; [lia|].
      intros _. right. lia.
    + destruct (IH (es ∖ {[k]}) (keys ++ [k]) b1) as (n & -> & ? & -> & ? & ?); [done|lia|done|].
      exists (S n). rewrite Hc. simpl. split_and!; [by rewrite <-app_assoc|done|set_solver|done|done].
    + simplify_eq. destruct Hone as (n & ? & ? & ?). exists n. split_and!; try done; [lia|].
      intros Hw. specialize (Hw b). by rewrite Hb in Hw.
Qed.

(** C28. Waking a socket raises its flag and keeps the queue covering: every raised flag is
    queued, being taken, or an overflow is marked; the queue stays within its capacity,
    other flags are untouched, and exactly one of the counters moves, by one. *)
Theorem mark_ready_never_loses_a_wakeup w h q taken h' q' :
  wk_flag w = wk_key w →
  covered h q taken → within_capacity q →
  mark_ready w h q = (h', q') →
  covered h' q' taken ∧ within_capacity q'
  ∧ load (wk_key w) h' = true
  ∧ (∀ c, c ≠ wk_key w → load c h' = load c h)
  ∧ (queued q', coalesced q', overflows q') ∈
      [(incr (queued q), coalesced q, overflows q); (queued q, incr (coalesced q), overflows q);
       (queued q, coalesced q, incr (overflows q))].
Proof.
  intros Hw Hcov Hcap. unfold mark_ready. rewrite Hw.
  assert (Hload : ∀ c, c ≠ wk_key w → load c (store (wk_key w) true h) = load c h).
  { intros c ?. by rewrite load_store, decide_False. }
  assert (Hself : load (wk_key w) (store (wk_key w) true h) = true).
  { by rewrite load_store, decide_True. }
  destruct (load (wk_key w) h) eqn:Hl.
  { intros [= <- <-]. split_and!; try done; [|simpl; set_solver].
    intros k Hk. destruct (decide (k = wk_key w)) as [->|?]; [by apply Hcov|].
    rewrite Hload in Hk by done. by apply Hcov. }
  set (ins := q <| entries ::= _ |> <| queued ::= _ |>).
  set (spill := q <| overflow := _ |> <| overflows ::= _ |>).
  intros Hr.
  assert (h' = store (wk_key w) true h
    ∧ (q' = spill ∨ (entries_len q < capacity q)%N ∧ q' = ins)) as [-> [->|[Hlt ->]]].
  { repeat case_match; simplify_eq; auto; split; auto; right; (split; [lia|done]). }
  - split_and!; try done; [by right; left|simpl; set_solver].
  - split_and!; try done; [| |simpl; set_solver].
    + intros k Hk. destruct (decide (k = wk_key w)) as [->|?]; [left; set_solver|].
      rewrite Hload in Hk by done. destruct (Hcov k Hk) as [?|?]; [left; set_solver|by right].
    + unfold within_capacity, entries_len in *. simpl.
      pose proof (size_union_alt {[wk_key w]} (entries q)) as Hu.
      rewrite size_singleton in Hu.
      pose proof (subseteq_size (entries q ∖ {[wk_key w]}) (entries q) ltac:(set_solver)). lia.
Qed.

(** The keys drained are the first of the queue; a held lock marks an overflow
    instead. *)
Lemma drain_while_spec {B} (within : B → bool * B) limit q b keys q' b' :
  drain_while within limit q b = (keys, q', b') →
  bset_elems (entries q) = keys ++ bset_elems (entries q')
  ∧ (llen keys <= limit)%N
  ∧ (overflow q = true → overflow q' = true)
  ∧ lock q' = lock q ∧ capacity q' = capacity q
  ∧ (lock q ≠ Locked → (∀ b, (within b).1 = true) →
      overflow q' = overflow q ∧ (entries q' = ∅ ∨ llen keys = limit)).
Proof.
  unfold drain_while. intros Hd. case_match eqn:Hlim.
  { simplify_eq. split_and!; try done; [unfold llen; simpl; lia|].
    intros _ _. split; [done|]. right. unfold llen; simpl. lia. }
  destruct (within b) as [[] b1] eqn:Hb; simpl in Hd; cycle 1.
  { simplify_eq. split_and!; try done; [unfold llen; simpl; lia|].
    intros _ Hw. specialize (Hw b). by rewrite Hb in Hw. }
  destruct (decide (lock q = Locked)) as [Hlk|Hlk].
  { unfold try_entries in Hd. rewrite Hlk in Hd. simplify_eq/=.
    split_and!; try done; unfold llen; simpl; lia. }
  assert (try_entries q = Some (entries q)) as Ht by (unfold try_entries; by destruct (lock q)).
  rewrite Ht in Hd.
  destruct (drain_loop within (size (entries q)) limit (entries q) [] b1)
    as [[keys1 es1] b2] eqn:Hloop. simplify_eq.
  apply drain_loop_spec in Hloop as (n & -> & Hes & Hes1 & Hle & Hall); [|done|unfold llen; simpl; lia].
  simpl in *. split_and!; [|done|done|done|done|].
  - by rewrite Hes, take_drop.
  - intros _ Hw. split; [done|]. rewrite <-(bset_elems_empty es1). by destruct (Hall Hw); auto.
Qed.

(** ** Concrete runs *)
Definition sample_key (n : N) : ReadyKey :=
  {| identity := {| id := n; generation := n |}; direction := Read |}.

Lemma mark_ready_witness :
  load (sample_key 2) (mark_ready (waker (sample_key 2) (sample_key 2)) ∅ (queue_new 1)).1 = true.
Proof.
  refine (proj1 (proj2 (proj2 (mark_ready_never_loses_a_wakeup
    (waker (sample_key 2) (sample_key 2)) ∅ (queue_new 1) [] _ _ _ _ _ (surjective_pairing _))))).
  - reflexivity.
  - intros k Hk. discriminate Hk.
  - vm_compute. discriminate.
Defined.
