(* ===== verification/SocketTable.v ===== *)
(** * The socket table

    Models [socket_table.rs] of [smolnet_core]: the logical sockets of a
    stack, their identities and their waiters. [Shared] is what the table
    reaches through an [Arc] or a [static]: the readiness flags, the ready
    queue and the two identity counters, which every stack of the process
    shares. *)
From S2P Require Import Prelude Waiter.

Definition MAX_SOCKET_ID : u64 := (N.shiftl 1 59 - 1)%N.

Inductive SocketKind := Tcp | Udp | Synthetic.
#[export] Instance SocketKind_eq_dec : EqDecision SocketKind.
Proof. solve_decision. Defined.

Inductive SocketLifecycle := SlOpen | SlClosing.
#[export] Instance SocketLifecycle_eq_dec : EqDecision SocketLifecycle.
Proof. solve_decision. Defined.

Inductive SocketError :=
| Closed | EndOfStream | InvalidSocket | WrongKind | InvalidState | InvalidOperation
| InvalidOptions | Busy | SystemLimit | InvalidAddress | InvalidPort | InvalidBacklog
| ScopeRequired | InvalidScope | AddressInUse | AddressNotAvailable
| EphemeralPortsExhausted | NetworkUnreachable | AlreadyConnected | NotBound
| NotConnected | ConnectionRefused | ConnectionReset | ConnectionTimeout | MessageTooLarge.
#[export] Instance SocketError_eq_dec : EqDecision SocketError.
Proof. solve_decision. Defined.

Record SocketEntry := {
  entry_kind : SocketKind;
  entry_lifecycle : SocketLifecycle;
  internal_handle : u64;
  read_waiter : option Waiter;
  write_waiter : option Waiter;
  read_ready : cell;
  write_ready : cell;
  read_sent : option Waiter;
  write_sent : option Waiter
}.
#[export] Instance eta_SocketEntry : Eta SocketEntry := λ e,
  {| entry_kind := entry_kind e; entry_lifecycle := entry_lifecycle e;
     internal_handle := internal_handle e;
     read_waiter := read_waiter e; write_waiter := write_waiter e;
     read_ready := read_ready e; write_ready := write_ready e;
     read_sent := read_sent e; write_sent := write_sent e |}.

Record SocketTable := {
  table_entries : gmap u64 (u64 * SocketEntry);
  max_entries : usize;
  waiter_count : usize;
  max_waiters : usize
}.
#[export] Instance eta_SocketTable : Eta SocketTable := λ t,
  {| table_entries := table_entries t; max_entries := max_entries t;
     waiter_count := waiter_count t; max_waiters := max_waiters t |}.

Record Shared := {
  flags : Flags;
  ready : ReadyState;
  next_socket_id : u64;
  next_generation : u64
}.
#[export] Instance eta_Shared : Eta Shared := λ s,
  {| flags := flags s; ready := ready s;
     next_socket_id := next_socket_id s; next_generation := next_generation s |}.

Record TableState := { table : SocketTable; shared : Shared }.
#[export] Instance eta_TableState : Eta TableState := λ s,
  {| table := table s; shared := shared s |}.

Abbreviation T := (M TableState SocketError).

Inductive InstallResult := Armed | AlreadyArmed.
Inductive CancelResult := Cancelled | AlreadySent | NotFound.
Inductive ReadyResult := Notify (w : Waiter) | NoWaiter | Coalesced | Stale.
Record WaiterRegistration := {
  reg_identity : SocketIdentity;
  reg_expected_kind : SocketKind;
  reg_direction : Direction;
  reg_pid : LocalPid;
  reg_operation : Operation;
  reg_reference : Reference
}.
Record ReadyScan := {
  scan_keys : list ReadyKey;
  scan_cursor : option ReadyKey;
  scan_complete : bool;
  entries_scanned : usize
}.

(** ** Entries *)
Definition ready_key (i : SocketIdentity) (d : Direction) : ReadyKey :=
  {| identity := i; direction := d |}.

(** [SocketEntry::new] allocates two flags, named after the socket. *)
Definition entry_new (kind : SocketKind) (handle : u64) (i : SocketIdentity) : SocketEntry := {|
  entry_kind := kind; entry_lifecycle := SlOpen; internal_handle := handle;
  read_waiter := None; write_waiter := None;
  read_ready := ready_key i Read; write_ready := ready_key i Write;
  read_sent := None; write_sent := None |}.

Definition waiter (e : SocketEntry) (d : Direction) : option Waiter :=
  match d with Read => read_waiter e | Write => write_waiter e end.
Definition waiter_mut (d : Direction) (w : option Waiter) (e : SocketEntry) : SocketEntry :=
  match d with Read => e <| read_waiter := w |> | Write => e <| write_waiter := w |> end.
Definition sent (e : SocketEntry) (d : Direction) : option Waiter :=
  match d with Read => read_sent e | Write => write_sent e end.
Definition sent_mut (d : Direction) (w : option Waiter) (e : SocketEntry) : SocketEntry :=
  match d with Read => e <| read_sent := w |> | Write => e <| write_sent := w |> end.
Definition entry_ready_flag (e : SocketEntry) (d : Direction) : cell :=
  match d with Read => read_ready e | Write => write_ready e end.

Definition bool_usize (b : bool) : usize := if b then 1%N else 0%N.
Definition entry_waiter_count (e : SocketEntry) : usize :=
  (bool_usize (bool_decide (is_Some (read_waiter e)))
   + bool_usize (bool_decide (is_Some (write_waiter e))))%N.

(** ** The table *)
Definition table_new (max_entries max_waiters : usize) : SocketTable :=
  {| table_entries := ∅; max_entries := max_entries; waiter_count := 0;
     max_waiters := max_waiters |}.

Definition table_len (t : SocketTable) : usize := N.of_nat (size (table_entries t)).

Definition next_identity (current : u64) : outcome SocketError u64 :=
  if (current <=? MAX_SOCKET_ID)%N then Ok (current + 1)%N else Err SystemLimit.

(** [fetch_update] returns the value it replaced. *)
Definition fetch_next_socket_id : T u64 :=
  current ← gets (next_socket_id ∘ shared);
  next ← lift_outcome (next_identity current);
  modify (λ s, s <| shared ::= λ h, h <| next_socket_id := next |> |>) ;;
  mret current.
Definition fetch_next_generation : T u64 :=
  current ← gets (next_generation ∘ shared);
  next ← lift_outcome (next_identity current);
  modify (λ s, s <| shared ::= λ h, h <| next_generation := next |> |>) ;;
  mret current.

Definition put_entry (i : u64) (ge : u64 * SocketEntry) : T unit :=
  modify (λ s, s <| table ::= λ t, t <| table_entries ::= <[i := ge]> |> |>).
Definition store_flag (c : cell) (v : bool) : T unit :=
  modify (λ s, s <| shared ::= λ h, h <| flags ::= store c v |> |>).
(** [self.waiter_count -= n], which panics below zero. *)
Definition waiter_count_sub (n : usize) : T unit :=
  count ← gets (waiter_count ∘ table);
  count ← expect (checked_sub count n);
  modify (λ s, s <| table ::= λ t, t <| waiter_count := count |> |>).

Definition table_insert (kind : SocketKind) (handle : u64) : T SocketIdentity :=
  t ← gets table;
  fail_if (max_entries t <=? table_len t)%N SystemLimit ;;
  i ← fetch_next_socket_id;
  g ← fetch_next_generation;
  let identity := {| id := i; generation := g |} in
  let e := entry_new kind handle identity in
  store_flag (read_ready e) false ;;
  store_flag (write_ready e) false ;;
  put_entry i (g, e) ;;
  mret identity.

Definition validate (t : SocketTable) (i : SocketIdentity) (expected_kind : SocketKind) :
    outcome SocketError SocketEntry :=
  match table_entries t !! id i with
  | None => Err InvalidSocket
  | Some (g, e) =>
      if negb (g =? generation i)%N then Err InvalidSocket
      else if bool_decide (entry_kind e ≠ expected_kind) then Err WrongKind
      else if bool_decide (entry_lifecycle e ≠ SlOpen) then Err InvalidState
      else Ok e
  end.

Definition validate_any (t : SocketTable) (i : SocketIdentity) : outcome SocketError SocketEntry :=
  match table_entries t !! id i with
  | None => Err InvalidSocket
  | Some (g, e) =>
      if negb (g =? generation i)%N then Err InvalidSocket
      else if bool_decide (entry_lifecycle e ≠ SlOpen) then Err InvalidState
      else Ok e
  end.

Definition ready_flag (t : SocketTable) (i : SocketIdentity) (kind : SocketKind)
    (d : Direction) : outcome SocketError cell :=
  e ← validate t i kind; mret (entry_ready_flag e d).

Definition has_waiter (t : SocketTable) (i : SocketIdentity) (kind : SocketKind)
    (d : Direction) : outcome SocketError bool :=
  e ← validate t i kind; mret (bool_decide (is_Some (waiter e d))).

Definition test_set_max_waiters (n : usize) (t : SocketTable) : SocketTable :=
  t <| max_waiters := n |>.

Definition ensure_waiter_capacity (t : SocketTable) : outcome SocketError unit :=
  if (max_waiters t <=? waiter_count t)%N then Err SystemLimit else Ok tt.

Definition take_waiter (i : SocketIdentity) (kind : SocketKind) (d : Direction) :
    T (option Waiter) :=
  t ← gets table;
  lift_outcome (validate t i kind) ;;
  ge ← expect (table_entries t !! id i);
  let '(g, e) := ge in
  let w := waiter e d in
  put_entry (id i) (g, waiter_mut d None e) ;;
  match w with
  | Some _ => store_flag (entry_ready_flag e d) false ;; waiter_count_sub 1
  | None => mret tt
  end ;;
  mret w.

Definition install_waiter (r : WaiterRegistration) : T InstallResult :=
  let d := reg_direction r in
  let i := reg_identity r in
  fail_if (bool_decide (operation_direction (reg_operation r) ≠ d)) InvalidOperation ;;
  t ← gets table;
  e ← lift_outcome (validate t i (reg_expected_kind r));
  match waiter e d with
  | Some w =>
      if bool_decide (pid w = reg_pid r) && waiter_matches w (reg_operation r) (reg_reference r)
      then mret AlreadyArmed else fail Busy
  | None =>
      fail_if (max_waiters t <=? waiter_count t)%N SystemLimit ;;
      ge ← expect (table_entries t !! id i);
      let '(g, e) := ge in
      let w := waiter_new (reg_pid r) (reg_operation r) (reg_reference r) in
      put_entry (id i) (g, waiter_mut d (Some w) (sent_mut d None e)) ;;
      modify (λ s, s <| table ::= λ t, t <| waiter_count ::= λ n, (n + 1)%N |> |>) ;;
      mret Armed
  end.

Definition table_cancel (i : SocketIdentity) (o : Operation) (r : Reference) : T CancelResult :=
  let d := operation_direction o in
  t ← gets table;
  ge ← ok_or (ge ← table_entries t !! id i;
              if (ge.1 =? generation i)%N then Some ge else None) InvalidSocket;
  let '(g, e) := ge in
  fail_if (bool_decide (entry_lifecycle e ≠ SlOpen)) InvalidState ;;
  if match waiter e d with Some w => waiter_matches w o r | None => false end then
    put_entry (id i) (g, waiter_mut d None e) ;;
    store_flag (entry_ready_flag e d) false ;;
    waiter_count_sub 1 ;;
    mret Cancelled
  else if match sent e d with Some w => waiter_matches w o r | None => false end then
    mret AlreadySent
  else mret NotFound.

(** The waiter passes through the [sent] slot on its way out. *)
Definition take_ready_waiter (key : ReadyKey) : T ReadyResult :=
  let i := identity key in
  let d := direction key in
  s ← gets (λ s, s);
  match table_entries (table s) !! id i with
  | None => mret Stale
  | Some (g, e) =>
      if negb (g =? generation i)%N || bool_decide (entry_lifecycle e ≠ SlOpen) then mret Stale
      else
        let was_ready := load (entry_ready_flag e d) (flags (shared s)) in
        store_flag (entry_ready_flag e d) false ;;
        if negb was_ready then mret Coalesced
        else
          match waiter e d with
          | None => mret NoWaiter
          | Some w =>
              waiter_count_sub 1 ;;
              let e := sent_mut d (Some w) (waiter_mut d None e) in
              w ← expect (sent e d);
              put_entry (id i) (g, sent_mut d None e) ;;
              mret (Notify w)
          end
  end.

Definition remember_sent (i : SocketIdentity) (d : Direction) (w : Waiter) : T unit :=
  t ← gets table;
  match table_entries t !! id i with
  | Some (g, e) =>
      if (g =? generation i)%N then put_entry (id i) (g, sent_mut d (Some w) e) else mret tt
  | None => mret tt
  end.

Definition table_close (i : SocketIdentity) : T (list (Direction * Waiter)) :=
  t ← gets table;
  ge ← ok_or (table_entries t !! id i) InvalidSocket;
  let '(g, e) := ge in
  modify (λ s, s <| table ::= λ t, t <| table_entries ::= delete (id i) |> |>) ;;
  if negb (g =? generation i)%N then put_entry (id i) (g, e) ;; fail InvalidSocket
  else
    let waiters :=
      match read_waiter e with Some w => [(Read, w)] | None => [] end
      ++ match write_waiter e with Some w => [(Write, w)] | None => [] end in
    waiter_count_sub (llen waiters) ;;
    mret waiters.

Definition table_close_next : T (option (SocketIdentity * list (Direction * Waiter))) :=
  t ← gets table;
  match bmap_first (table_entries t) with
  | None => mret None
  | Some (i, (g, _)) =>
      let identity := {| id := i; generation := g |} in
      waiters ← expect_ok (table_close identity);
      mret (Some (identity, waiters))
  end.

Section scan.
(** The state behind the [within_budget] closure. *)
Context {B : Type} (within_budget : B → bool * B).

Definition scan_stop (acc : ReadyScan) : ReadyScan :=
  {| scan_keys := scan_keys acc; scan_cursor := scan_cursor acc; scan_complete := false;
     entries_scanned := entries_scanned acc |}.
Definition scan_count (acc : ReadyScan) : ReadyScan :=
  {| scan_keys := scan_keys acc; scan_cursor := scan_cursor acc;
     scan_complete := scan_complete acc; entries_scanned := (entries_scanned acc + 1)%N |}.
Definition scan_push (key : ReadyKey) (acc : ReadyScan) : ReadyScan :=
  {| scan_keys := scan_keys acc ++ [key]; scan_cursor := scan_cursor acc;
     scan_complete := scan_complete acc; entries_scanned := entries_scanned acc |}.
Definition scan_at (key : ReadyKey) (acc : ReadyScan) : ReadyScan :=
  {| scan_keys := scan_keys acc; scan_cursor := Some key;
     scan_complete := scan_complete acc; entries_scanned := entries_scanned acc |}.

(** The end of a turn: the write flag, the cursor, the limits; [next] is the
    rest of the loop. *)
Definition scan_write (h : Flags) (entry_limit key_limit : usize) (write_key : ReadyKey)
    (e : SocketEntry) (last : bool) (next : ReadyScan → B → ReadyScan * B)
    (acc : ReadyScan) (b : B) : ReadyScan * B :=
  let acc := if load (write_ready e) h then scan_push write_key acc else acc in
  let acc := scan_at write_key acc in
  if (llen (scan_keys acc) =? key_limit)%N || (entries_scanned acc =? entry_limit)%N then
    ({| scan_keys := scan_keys acc; scan_cursor := scan_cursor acc; scan_complete := last;
        entries_scanned := entries_scanned acc |}, b)
  else next acc b.

Definition at_cursor (start : option ReadyKey) (i : u64) (d : Direction) : bool :=
  match start with
  | Some key => (id (identity key) =? i)%N && bool_decide (direction key = d)
  | None => false
  end.

(** The loop over [entries.range]: [rest] is what the iterator still holds,
    so that [rest = []] after a turn is the source's [range((Excluded(id), ..))]
    being empty. *)
Fixpoint scan_loop (h : Flags) (start : option ReadyKey) (entry_limit key_limit : usize)
    (rest : list (u64 * (u64 * SocketEntry))) (acc : ReadyScan) (b : B) : ReadyScan * B :=
  match rest with
  | [] => (acc, b)
  | (i, (g, e)) :: rest =>
      let identity := {| id := i; generation := g |} in
      let skip_read := at_cursor start i Read in
      if at_cursor start i Write then scan_loop h start entry_limit key_limit rest acc b
      else
        let '(ok, b) := within_budget b in
        if negb ok then (scan_stop acc, b)
        else
          let acc := scan_count acc in
          let visit_write := scan_write h entry_limit key_limit (ready_key identity Write) e
            (match rest with [] => true | _ => false end)
            (scan_loop h start entry_limit key_limit rest) in
          if negb skip_read && load (read_ready e) h then
            let key := ready_key identity Read in
            let acc := scan_at key (scan_push key acc) in
            if (llen (scan_keys acc) =? key_limit)%N then (scan_stop acc, b)
            else
              let '(ok, b) := within_budget b in
              if negb ok then (scan_stop acc, b) else visit_write acc b
          else visit_write acc b
  end.

Definition scan_ready (t : SocketTable) (h : Flags) (start : option ReadyKey)
    (entry_limit key_limit : usize) (b : B) : ReadyScan * B :=
  if (entry_limit =? 0)%N || (key_limit =? 0)%N then
    ({| scan_keys := []; scan_cursor := start; scan_complete := false; entries_scanned := 0 |}, b)
  else
    let start_bound :=
      match start with Some key => Included (id (identity key)) | None => Unbounded end in
    scan_loop h start entry_limit key_limit (bmap_range start_bound (table_entries t))
      {| scan_keys := []; scan_cursor := start; scan_complete := true; entries_scanned := 0 |} b.
End scan.

Definition waiter_counts (t : SocketTable) : usize * usize :=
  foldl (λ '(read, write) '(_, e),
    (read + bool_usize (bool_decide (is_Some (read_waiter e))),
     write + bool_usize (bool_decide (is_Some (write_waiter e))))%N)
    (0, 0)%N (bmap_values (table_entries t)).

Definition sent_waiter_counts (t : SocketTable) : usize * usize :=
  foldl (λ '(read, write) '(_, e),
    (read + bool_usize (bool_decide (is_Some (read_sent e))),
     write + bool_usize (bool_decide (is_Some (write_sent e))))%N)
    (0, 0)%N (bmap_values (table_entries t)).

(** ** Histories of a table

    A waiter is held with the socket and direction it waits for. [run_op]
    performs one operation and reports the waiters it took in and those it
    gave out; a failed operation does neither. [OpWake] is a waker called by
    the engine, [OpOther] the other stacks of the process taking identities. *)
Definition held : Type := ReadyKey * Waiter.

Definition entry_held (i : u64) (ge : u64 * SocketEntry) : list held :=
  let key := ready_key {| id := i; generation := ge.1 |} in
  match read_waiter ge.2 with Some w => [(key Read, w)] | None => [] end
  ++ match write_waiter ge.2 with Some w => [(key Write, w)] | None => [] end.

Definition table_held (t : SocketTable) : list held := bmap_flat entry_held (table_entries t).

Inductive TableOp :=
| OpInsert (kind : SocketKind) (handle : u64)
| OpTakeWaiter (i : SocketIdentity) (kind : SocketKind) (d : Direction)
| OpInstall (r : WaiterRegistration)
| OpCancel (i : SocketIdentity) (o : Operation) (r : Reference)
| OpTakeReady (key : ReadyKey)
| OpRememberSent (i : SocketIdentity) (d : Direction) (w : Waiter)
| OpClose (i : SocketIdentity)
| OpCloseNext
| OpWake (w : Waker)
| OpOther (ids generations : N).

Definition given (i : SocketIdentity) (ws : list (Direction * Waiter)) : list held :=
  (λ dw, (ready_key i dw.1, dw.2)) <$> ws.

(** No stack takes an identity past the limit. *)
Definition others_take (ids generations : N) (h : Shared) : Shared :=
  h <| next_socket_id ::= λ n, N.min (n + ids) (N.max n (MAX_SOCKET_ID + 1)) |>
    <| next_generation ::= λ n, N.min (n + generations) (N.max n (MAX_SOCKET_ID + 1)) |>.

Definition run_op (op : TableOp) : T (list held * list held) :=
  match op with
  | OpInsert kind handle => table_insert kind handle ;; mret ([], [])
  | OpTakeWaiter i kind d =>
      w ← take_waiter i kind d;
      mret ([], match w with Some w => [(ready_key i d, w)] | None => [] end)
  | OpInstall r =>
      res ← install_waiter r;
      mret (match res with
            | Armed => [(ready_key (reg_identity r) (reg_direction r),
                         waiter_new (reg_pid r) (reg_operation r) (reg_reference r))]
            | AlreadyArmed => []
            end, [])
  | OpCancel i o r =>
      t ← gets table;
      res ← table_cancel i o r;
      let d := operation_direction o in
      mret ([], match res, table_entries t !! id i with
                | Cancelled, Some (_, e) =>
                    match waiter e d with Some w => [(ready_key i d, w)] | None => [] end
                | _, _ => []
                end)
  | OpTakeReady key =>
      res ← take_ready_waiter key;
      mret ([], match res with Notify w => [(key, w)] | _ => [] end)
  | OpRememberSent i d w => remember_sent i d w ;; mret ([], [])
  | OpClose i => ws ← table_close i; mret ([], given i ws)
  | OpCloseNext =>
      res ← table_close_next;
      mret ([], match res with Some (i, ws) => given i ws | None => [] end)
  | OpWake w =>
      modify (λ s, s <| shared ::= λ h,
        let '(fl, q) := mark_ready w (flags h) (ready h) in
        h <| flags := fl |> <| ready := q |> |>) ;;
      mret ([], [])
  | OpOther ids generations =>
      modify (λ s, s <| shared ::= others_take ids generations |>) ;;
      mret ([], [])
  end.

(** A history; [None] if an operation panicked. *)
Fixpoint run_ops (ops : list TableOp) (s : TableState) :
    option (list held * list held * TableState) :=
  match ops with
  | [] => Some ([], [], s)
  | op :: ops =>
      match run_op op s with
      | (Panic, _) => None
      | (Err _, s) => run_ops ops s
      | (Ok (ins, outs), s) =>
          '(ins', outs', s) ← run_ops ops s; Some (ins ++ ins', outs ++ outs', s)
      end
  end.

(** ** The invariant *)
Record table_wf (s : TableState) : Prop := {
  wf_len : (table_len (table s) <= max_entries (table s))%N;
  wf_count : waiter_count (table s) = llen (table_held (table s));
  wf_max : (waiter_count (table s) <= max_waiters (table s))%N;
  wf_entry : ∀ i g e, table_entries (table s) !! i = Some (g, e) →
    (i < next_socket_id (shared s) ∧ g < next_generation (shared s))%N
    ∧ read_ready e = ready_key {| id := i; generation := g |} Read
    ∧ write_ready e = ready_key {| id := i; generation := g |} Write;
  wf_next : (next_socket_id (shared s) <= MAX_SOCKET_ID + 1
    ∧ next_generation (shared s) <= MAX_SOCKET_ID + 1)%N
}.

(** What an operation may do to the sockets: drop some, change their waiters,
    add one whose number was never given out. *)
Definition table_grows (s s' : TableState) : Prop :=
  (next_socket_id (shared s) <= next_socket_id (shared s'))%N
  ∧ max_entries (table s') = max_entries (table s)
  ∧ max_waiters (table s') = max_waiters (table s)
  ∧ ∀ i g e', table_entries (table s') !! i = Some (g, e') →
      (∃ e, table_entries (table s) !! i = Some (g, e)
        ∧ entry_kind e' = entry_kind e ∧ entry_lifecycle e' = entry_lifecycle e)
      ∨ (next_socket_id (shared s) <= i)%N.

(** The state after an operation that gave and took these waiters. *)
Definition op_post (s : TableState) (ins outs : list held) (s' : TableState) : Prop :=
  table_wf s' ∧ table_grows s s'
  ∧ table_held (table s) ++ ins ≡ₚ table_held (table s') ++ outs.

#[export] Instance table_grows_refl : Reflexive table_grows.
Proof. intros s. split_and!; [done..|]. intros i g e He. left. by exists e. Qed.

#[export] Instance table_grows_trans : Transitive table_grows.
Proof.
  intros s1 s2 s3 (Hn1 & He1 & Hw1 & Hg1) (Hn2 & He2 & Hw2 & Hg2).
  split_and!; [by etrans|congruence|congruence|]. intros i g e3 H3.
  destruct (Hg2 i g e3 H3) as [(e2 & H2 & Hk2 & Hl2)|?]; [|right; lia].
  destruct (Hg1 i g e2 H2) as [(e1 & H1 & Hk1 & Hl1)|?]; [left|by right].
  exists e1. split_and!; congruence.
Qed.

Lemma llen_app {A} (l1 l2 : list A) : llen (l1 ++ l2) = (llen l1 + llen l2)%N.
Proof. unfold llen. rewrite length_app. lia. Qed.

#[export] Instance llen_perm {A} : Proper ((≡ₚ) ==> (=)) (@llen A).
Proof. intros l1 l2 Hl. unfold llen. by rewrite Hl. Qed.

Lemma op_post_same s : table_wf s → op_post s [] [] s.
Proof. intros Hwf. split_and!; [done..|]. by rewrite !app_nil_r. Qed.

(** The parts of the state no operation on an entry touches. *)
Definition same_frame (s s' : TableState) : Prop :=
  max_entries (table s') = max_entries (table s)
  ∧ max_waiters (table s') = max_waiters (table s)
  ∧ next_socket_id (shared s') = next_socket_id (shared s)
  ∧ next_generation (shared s') = next_generation (shared s).

(** An entry changes its waiters: what it held and takes in is what it then
    holds and gives out. *)
Lemma op_post_update s s' i g e e' ins outs :
  table_wf s → table_entries (table s) !! i = Some (g, e) →
  table_entries (table s') = <[i := (g, e')]> (table_entries (table s)) → same_frame s s' →
  entry_kind e' = entry_kind e → entry_lifecycle e' = entry_lifecycle e →
  read_ready e' = read_ready e → write_ready e' = write_ready e →
  entry_held i (g, e) ++ ins ≡ₚ entry_held i (g, e') ++ outs →
  (waiter_count (table s') + llen outs = waiter_count (table s) + llen ins)%N →
  (waiter_count (table s') <= max_waiters (table s))%N →
  op_post s ins outs s'.
Proof.
  intros Hwf He Hes (Hme & Hmw & Hni & Hng) Hk Hl Hr Hw Hheld Hn Hmax.
  assert (Hperm : table_held (table s) ++ ins ≡ₚ table_held (table s') ++ outs).
  { unfold table_held. rewrite Hes, (bmap_flat_delete _ _ _ _ He), bmap_flat_update.
    rewrite <-!app_assoc, (Permutation_app_comm (bmap_flat _ _) ins).
    rewrite (Permutation_app_comm (bmap_flat _ _) outs), !app_assoc. by rewrite Hheld. }
  split_and!; [constructor|split_and!|done]; rewrite ?Hme, ?Hmw, ?Hni, ?Hng, ?Hes; try done.
  - pose proof (wf_len _ Hwf) as Hlen. unfold table_len in *. rewrite Hes.
    by rewrite map_size_insert_Some by (by eexists).
  - pose proof (wf_count _ Hwf). apply llen_perm in Hperm. rewrite !llen_app in Hperm. lia.
  - intros j g' e'' Hj. destruct (decide (i = j)) as [->|Hne].
    + rewrite lookup_insert_eq in Hj. simplify_eq. rewrite Hr, Hw. by apply (wf_entry _ Hwf).
    + rewrite lookup_insert_ne in Hj by done. by apply (wf_entry _ Hwf).
  - apply (wf_next _ Hwf).
  - intros j g' e'' Hj. left. destruct (decide (i = j)) as [->|Hne].
    + rewrite lookup_insert_eq in Hj. simplify_eq. by exists e.
    + rewrite lookup_insert_ne in Hj by done. by exists e''.
Qed.

(** The counters move and wakers run, the table stays. *)
Lemma op_post_shared s s' :
  table_wf s → table s' = table s →
  (next_socket_id (shared s) <= next_socket_id (shared s') <= MAX_SOCKET_ID + 1)%N →
  (next_generation (shared s) <= next_generation (shared s') <= MAX_SOCKET_ID + 1)%N →
  op_post s [] [] s'.
Proof.
  intros Hwf Ht Hi Hg. unfold op_post, table_grows. rewrite Ht.
  split_and!; try done; try lia.
  - constructor; rewrite ?Ht; [apply Hwf..| |lia].
    intros i g e He. destruct (wf_entry _ Hwf i g e He) as (? & ?). split; [lia|done].
  - intros i g e He. left. by exists e.
Qed.

Lemma op_post_delete s s' i g e :
  table_wf s → table_entries (table s) !! i = Some (g, e) →
  table_entries (table s') = delete i (table_entries (table s)) → same_frame s s' →
  (waiter_count (table s') + llen (entry_held i (g, e)) = waiter_count (table s))%N →
  op_post s [] (entry_held i (g, e)) s'.
Proof.
  intros Hwf He Hes (Hme & Hmw & Hni & Hng) Hn.
  assert (Hperm : table_held (table s) ++ [] ≡ₚ table_held (table s') ++ entry_held i (g, e)).
  { rewrite app_nil_r. unfold table_held. rewrite Hes, (bmap_flat_delete _ _ _ _ He).
    apply Permutation_app_comm. }
  split_and!; [constructor|split_and!|done]; rewrite ?Hme, ?Hmw, ?Hni, ?Hng, ?Hes; try done.
  - pose proof (wf_len _ Hwf) as Hlen. unfold table_len in *. rewrite Hes.
    rewrite map_size_delete_Some by (by eexists). lia.
  - pose proof (wf_count _ Hwf). apply llen_perm in Hperm. rewrite app_nil_r, llen_app in Hperm. lia.
  - pose proof (wf_max _ Hwf). lia.
  - intros j g' e' Hj. apply lookup_delete_Some in Hj as [_ Hj]. by apply (wf_entry _ Hwf).
  - apply (wf_next _ Hwf).
  - intros j g' e' Hj. apply lookup_delete_Some in Hj as [_ Hj]. left. by exists e'.
Qed.

Lemma op_post_insert s g e fl :
  table_wf s → (table_len (table s) < max_entries (table s))%N →
  let i := next_socket_id (shared s) in
  (i <= MAX_SOCKET_ID)%N → g = next_generation (shared s) → (g <= MAX_SOCKET_ID)%N →
  read_ready e = ready_key {| id := i; generation := g |} Read →
  write_ready e = ready_key {| id := i; generation := g |} Write →
  read_waiter e = None → write_waiter e = None →
  op_post s [] [] {|
    table := {| table_entries := <[i := (g, e)]> (table_entries (table s));
                max_entries := max_entries (table s); waiter_count := waiter_count (table s);
                max_waiters := max_waiters (table s) |};
    shared := {| flags := fl; ready := ready (shared s); next_socket_id := (i + 1)%N;
                 next_generation := (g + 1)%N |} |}.
Proof.
  intros Hwf Hlen i Hi -> Hg Hr Hw Hrn Hwn.
  assert (Hfresh : table_entries (table s) !! i = None).
  { destruct (table_entries (table s) !! i) as [[g' e']|] eqn:He; [|done].
    destruct (wf_entry _ Hwf _ _ _ He) as [? _]. unfold i in *. lia. }
  assert (Hheld : bmap_flat entry_held (<[i:=(next_generation (shared s), e)]>
    (table_entries (table s))) ≡ₚ table_held (table s)).
  { rewrite bmap_flat_insert by done. unfold entry_held. simpl. by rewrite Hrn, Hwn. }
  split_and!; [constructor; simpl|split_and!; simpl; try done; try lia|].
  - unfold table_len in *. simpl. rewrite map_size_insert_None by done. lia.
  - rewrite (wf_count _ Hwf). unfold table_held. simpl. by rewrite Hheld.
  - apply (wf_max _ Hwf).
  - intros j g' e' Hj. destruct (decide (i = j)) as [<-|Hne].
    + rewrite lookup_insert_eq in Hj. simplify_eq. split_and!; [lia|lia|done|done].
    + rewrite lookup_insert_ne in Hj by done.
      destruct (wf_entry _ Hwf _ _ _ Hj) as [? ?]. split; [unfold i; lia|done].
  - lia.
  - intros j g' e' Hj. destruct (decide (i = j)) as [<-|Hne]; [by right|].
    rewrite lookup_insert_ne in Hj by done. left. by exists e'.
  - rewrite !app_nil_r. unfold table_held. simpl. by rewrite Hheld.
Qed.

(** Taking a waiter out of its slot, and putting one into an empty slot. *)
Lemma entry_held_take i g e d w :
  waiter e d = Some w →
  entry_held i (g, e) ≡ₚ
    entry_held i (g, waiter_mut d None e)
    ++ [(ready_key {| id := i; generation := g |} d, w)].
Proof.
  destruct e as [? ? ? rw ww ? ? ? ?], d; unfold entry_held; simpl; intros ->; simpl.
  - rewrite Permutation_app_comm. done.
  - rewrite app_nil_r. done.
Qed.

Lemma entry_held_sent i g e d w : entry_held i (g, sent_mut d w e) = entry_held i (g, e).
Proof. by destruct d. Qed.

Lemma entry_held_put i g e d w :
  waiter e d = None →
  entry_held i (g, e) ++ [(ready_key {| id := i; generation := g |} d, w)] ≡ₚ
    entry_held i (g, waiter_mut d (Some w) e).
Proof.
  destruct e as [? ? ? rw ww ? ? ? ?], d; unfold entry_held; simpl; intros ->; simpl.
  - rewrite Permutation_app_comm. done.
  - by rewrite app_nil_r.
Qed.

Lemma entry_held_le s i g e :
  table_wf s → table_entries (table s) !! i = Some (g, e) →
  (llen (entry_held i (g, e)) <= waiter_count (table s))%N.
Proof.
  intros Hwf He. rewrite (wf_count _ Hwf). unfold table_held.
  rewrite (bmap_flat_delete _ _ _ _ He), llen_app. lia.
Qed.

Lemma waiter_count_pos s i g e d w :
  table_wf s → table_entries (table s) !! i = Some (g, e) → waiter e d = Some w →
  (1 <= waiter_count (table s))%N.
Proof.
  intros Hwf He Hw. pose proof (entry_held_le _ _ _ _ Hwf He) as Hle.
  rewrite (entry_held_take _ _ _ _ _ Hw), llen_app in Hle.
  unfold llen in Hle at 2. simpl in Hle. lia.
Qed.

Lemma checked_sub_Some a b : (b <= a)%N → checked_sub a b = Some (a - b)%N.
Proof. intros ?. unfold checked_sub. by rewrite (proj2 (N.leb_le _ _)). Qed.

Lemma validate_Ok t i k e :
  validate t i k = Ok e ↔
  table_entries t !! id i = Some (generation i, e) ∧ entry_kind e = k ∧ entry_lifecycle e = SlOpen.
Proof.
  unfold validate. split.
  - intros Hv. repeat case_match; simplify_eq; try done.
    rewrite !bool_decide_neq_false in *. rewrite negb_false_iff, N.eqb_eq in *. by subst.
  - intros (-> & <- & ->). rewrite N.eqb_refl. simpl.
    by rewrite !(proj2 (bool_decide_neq_false _ _)).
Qed.

Lemma validate_no_panic t i k : validate t i k ≠ Panic.
Proof. unfold validate. by repeat case_match. Qed.

(** ** Every operation keeps the invariant and conserves the waiters *)
Definition op_spec {A} (m : T A) (ins outs : A → list held) (s : TableState) : Prop :=
  wp m (λ a s', op_post s (ins a) (outs a) s') (λ _ s', op_post s [] [] s') s.

Lemma waiter_count_sub_wp n Q R s :
  (n <= waiter_count (table s))%N →
  Q tt (s <| table ::= λ t, t <| waiter_count := (waiter_count t - n)%N |> |>) →
  wp (waiter_count_sub n) Q R s.
Proof.
  intros Hle HQ. unfold waiter_count_sub. wp_steps. apply wp_expect.
  exists (waiter_count (table s) - n)%N. by rewrite checked_sub_Some by done.
Qed.

Lemma table_insert_spec kind handle s :
  table_wf s → op_spec (table_insert kind handle) (λ _, []) (λ _, []) s.
Proof.
  intros Hwf. unfold op_spec, table_insert, fetch_next_socket_id, fetch_next_generation, next_identity.
  pose proof (wf_next _ Hwf) as [Hi Hg].
  wp_steps; try (by apply op_post_same); try done; simplify_eq/=; repeat case_match; simplify_eq/=;
    try (by apply op_post_same); try done.
  - unfold put_entry, store_flag. wp_steps. simpl.
    apply (op_post_insert s (next_generation (shared s))
      (entry_new kind handle {| id := next_socket_id (shared s);
                                generation := next_generation (shared s) |})); done || lia.
  - apply op_post_shared; simpl; done || lia.
Qed.

Lemma table_insert_ok kind handle s :
  wp (table_insert kind handle)
    (λ j s', j = {| id := next_socket_id (shared s); generation := next_generation (shared s) |}
      ∧ (id j <= MAX_SOCKET_ID ∧ generation j <= MAX_SOCKET_ID)%N
      ∧ table_entries (table s')
        = <[id j := (generation j, entry_new kind handle j)]> (table_entries (table s)))
    (λ err _, err = SystemLimit) s.
Proof.
  unfold table_insert, fetch_next_socket_id, fetch_next_generation, next_identity, put_entry, store_flag.
  wp_steps; try done; repeat case_match; simplify_eq/=; try done.
  split_and!; [done|lia|lia|done].
Qed.

(** The three ways a waiter leaves its slot share this. *)
Lemma op_post_take s s' i e e' d w :
  table_wf s → table_entries (table s) !! id i = Some (generation i, e) →
  waiter e d = Some w → e' = waiter_mut d None e ∨ (∃ x, e' = sent_mut d x (waiter_mut d None e)) →
  table_entries (table s') = <[id i := (generation i, e')]> (table_entries (table s)) →
  same_frame s s' → (waiter_count (table s') = waiter_count (table s) - 1)%N →
  op_post s [] [(ready_key i d, w)] s'.
Proof.
  intros Hwf He Hw He' Hes Hfr Hn. pose proof (waiter_count_pos _ _ _ _ _ _ Hwf He Hw) as Hpos.
  pose proof (wf_max _ Hwf). apply (op_post_update _ _ (id i) (generation i) e e'); try done.
  5: { destruct He' as [->|[x ->]]; rewrite ?entry_held_sent, app_nil_r;
       destruct i; by apply entry_held_take. }
  5,6: change (llen (@nil held)) with 0%N; change (llen [_]) with 1%N; lia.
  all: destruct He' as [->|[x ->]]; by destruct d.
Qed.

Lemma take_waiter_spec i kind d s :
  table_wf s →
  op_spec (take_waiter i kind d) (λ _, [])
    (λ w, match w with Some w => [(ready_key i d, w)] | None => [] end) s.
Proof.
  intros Hwf. unfold op_spec, take_waiter, put_entry, store_flag.
  wp_steps; [|by apply op_post_same|apply validate_no_panic].
  match goal with Hv : validate _ _ _ = Ok ?e |- _ => apply validate_Ok in Hv as (He & _ & _) end.
  apply wp_expect. eexists. split; [exact He|]. wp_steps.
  - apply waiter_count_sub_wp.
    + simpl. by apply (waiter_count_pos s (id i) (generation i) a d w).
    + wp_steps. simpl. by apply (op_post_take s _ i a (waiter_mut d None a) d w); auto.
  - eapply (op_post_update _ _ _ _ a); try done; try (by destruct d).
    + rewrite !app_nil_r. by destruct d, a; unfold entry_held; simpl in *; subst.
    + by apply (wf_max _ Hwf).
Qed.

Lemma install_waiter_spec r s :
  table_wf s →
  op_spec (install_waiter r)
    (λ res, match res with
            | Armed => [(ready_key (reg_identity r) (reg_direction r),
                         waiter_new (reg_pid r) (reg_operation r) (reg_reference r))]
            | AlreadyArmed => []
            end) (λ _, []) s.
Proof.
  intros Hwf. unfold op_spec, install_waiter, put_entry.
  wp_steps; try (by apply op_post_same); [|apply validate_no_panic].
  match goal with Hv : validate _ _ _ = Ok ?e |- _ => apply validate_Ok in Hv as (He & _ & _) end.
  apply wp_expect. eexists. split; [exact He|]. wp_steps.
  set (w := waiter_new _ _ _). set (d := reg_direction r) in *.
  apply (op_post_update _ _ (id (reg_identity r)) (generation (reg_identity r)) a
    (waiter_mut d (Some w) (sent_mut d None a))); try done; try (by destruct d).
  - destruct (reg_identity r). rewrite app_nil_r. rewrite <-(entry_held_sent _ _ a d None).
    apply entry_held_put. by destruct d.
  - unfold llen. simpl. lia.
  - simpl. lia.
Qed.

Lemma table_cancel_spec i o r s :
  table_wf s → op_spec (run_op (OpCancel i o r)) fst snd s.
Proof.
  intros Hwf. unfold op_spec, run_op, table_cancel, put_entry, store_flag.
  wp_steps; try (by apply op_post_same).
  destruct a as [g e]. assert (table_entries (table s) !! id i = Some (generation i, e)) as He.
  { destruct (table_entries (table s) !! id i) as [[g' e']|]; simplify_eq/=. case_match; [|done].
    simplify_eq. f_equal. f_equal. lia. }
  rewrite He in *. wp_steps; try (by apply op_post_same).
  destruct (waiter e (operation_direction o)) as [w|] eqn:Hw; [|done].
  assert (g = generation i) as -> by (simpl in *; by repeat case_match; simplify_eq).
  apply waiter_count_sub_wp.
  - simpl. by apply (waiter_count_pos s (id i) (generation i) e (operation_direction o) w).
  - wp_steps. simpl. by apply (op_post_take s _ i e (waiter_mut (operation_direction o) None e)
      (operation_direction o) w); auto.
Qed.

Lemma take_ready_waiter_spec key s :
  table_wf s →
  op_spec (take_ready_waiter key) (λ _, [])
    (λ res, match res with Notify w => [(key, w)] | _ => [] end) s.
Proof.
  intros Hwf. pose proof (wf_next _ Hwf). unfold op_spec, take_ready_waiter, put_entry, store_flag.
  wp_steps; try (by apply op_post_same).
  destruct p as [g e]. wp_steps; try (by apply op_post_same);
    try (by apply op_post_shared; simpl; done || lia).
  assert (g = generation (identity key)) as -> by lia.
  match goal with Hw : waiter e _ = Some ?w |- _ => rename Hw into Hwt; rename w into wt end.
  apply waiter_count_sub_wp.
  - simpl. by apply (waiter_count_pos s (id (identity key)) (generation (identity key)) e (direction key) wt).
  - apply wp_bind, wp_expect. exists wt. split; [by destruct (direction key)|]. wp_steps. simpl.
    destruct key as [i d].
    apply (op_post_take s _ i e (sent_mut d None (sent_mut d (Some wt) (waiter_mut d None e))) d wt);
      try done. right. exists None. by destruct d.
Qed.

Lemma remember_sent_spec i d w s :
  table_wf s → op_spec (remember_sent i d w) (λ _, []) (λ _, []) s.
Proof.
  intros Hwf. pose proof (wf_max _ Hwf). unfold op_spec, remember_sent, put_entry.
  wp_steps; try (by apply op_post_same).
  destruct p as [g e]. wp_steps; try (by apply op_post_same).
  apply (op_post_update _ _ (id i) g e (sent_mut d (Some w) e)); try done; try (by destruct d).
Qed.

Lemma given_entry_held i g e :
  given {| id := i; generation := g |}
    (match read_waiter e with Some w => [(Read, w)] | None => [] end
     ++ match write_waiter e with Some w => [(Write, w)] | None => [] end) = entry_held i (g, e).
Proof. unfold given, entry_held. simpl. by destruct (read_waiter e), (write_waiter e). Qed.

Lemma table_close_spec i s :
  table_wf s →
  wp (table_close i)
    (λ ws s', op_post s [] (given i ws) s'
      ∧ (∃ e, table_entries (table s) !! id i = Some (generation i, e)
          ∧ given i ws = entry_held (id i) (generation i, e))
      ∧ table_entries (table s') = delete (id i) (table_entries (table s)))
    (λ _ s', op_post s [] [] s' ∧ ∀ e, table_entries (table s) !! id i ≠ Some (generation i, e)) s.
Proof.
  intros Hwf. unfold table_close, put_entry.
  wp_steps; [|split; [by apply op_post_same|congruence]].
  destruct a as [g e]. wp_steps.
  - split; [|intros e' ?; simplify_eq; lia]. pose proof (wf_max _ Hwf).
    apply (op_post_update _ _ (id i) g e e); try done. simpl. by rewrite insert_delete_eq.
  - assert (g = generation i) as -> by lia. pose proof (given_entry_held (id i) (generation i) e) as Hg.
    pose proof (entry_held_le s (id i) (generation i) e Hwf ltac:(done)) as Hle.
    set (ws := _ ++ _) in *.
    assert (llen ws = llen (entry_held (id i) (generation i, e))) as Hlen.
    { rewrite <-Hg. unfold llen, given. by rewrite length_fmap. }
    apply waiter_count_sub_wp; [simpl; lia|]. wp_steps. simpl. destruct i as [i g]. simpl in *. rewrite Hg. split_and!.
    + apply (op_post_delete _ _ i g e); try done. simpl in *. lia.
    + by exists e.
    + done.
Qed.

Lemma table_close_next_spec s :
  table_wf s →
  op_spec table_close_next (λ _, [])
    (λ res, match res with Some (i, ws) => given i ws | None => [] end) s.
Proof.
  intros Hwf. unfold op_spec, table_close_next. wp_steps; try (by apply op_post_same).
  destruct p as [i [g e]]. wp_steps. apply wp_expect_ok.
  match goal with Hf : bmap_first _ = _ |- _ => apply bmap_first_Some in Hf as He end.
  eapply wp_mono; [apply table_close_spec, Hwf| |].
  - intros ws s' (Hp & _). by wp_steps.
  - intros err s' (_ & Hn). by apply (Hn e).
Qed.

Lemma run_op_spec op s : table_wf s → op_spec (run_op op) fst snd s.
Proof.
  intros Hwf. destruct op; try (by apply table_cancel_spec);
    unfold op_spec, run_op; wp_steps; try (apply op_post_shared; simpl; try done);
    try (eapply wp_mono;
      [by first [apply table_insert_spec|apply take_waiter_spec|apply install_waiter_spec
                |apply take_ready_waiter_spec|apply remember_sent_spec|apply table_close_next_spec
                |apply table_close_spec]
      |simpl; intros; wp_steps; naive_solver|naive_solver]).
  all: pose proof (wf_next _ Hwf) as [? ?]; try lia.
  all: destruct (mark_ready _ _ _); simpl; lia.
Qed.

Lemma op_post_trans s s1 s2 ins outs ins' outs' :
  op_post s ins outs s1 → op_post s1 ins' outs' s2 →
  op_post s (ins ++ ins') (outs ++ outs') s2.
Proof.
  intros (Hwf1 & Hg1 & Hp1) (Hwf2 & Hg2 & Hp2). split_and!; [done|by trans s1|].
  rewrite (app_assoc _ ins ins'), Hp1, <-app_assoc, (Permutation_app_comm outs ins').
  by rewrite app_assoc, Hp2, <-app_assoc, (Permutation_app_comm outs' outs).
Qed.

Lemma run_ops_spec ops s :
  table_wf s → ∃ ins outs s', run_ops ops s = Some (ins, outs, s') ∧ op_post s ins outs s'.
Proof.
  revert s. induction ops as [|op ops IH]; intros s Hwf.
  { exists [], [], s. split; [done|by apply op_post_same]. }
  pose proof (run_op_spec op s Hwf) as Hop. unfold op_spec, wp in Hop. simpl.
  destruct (run_op op s) as [[[ins outs]|e|] s1]; [| |done].
  - destruct (IH s1) as (ins' & outs' & s2 & -> & Hpost); [apply Hop|]. simpl.
    exists (ins ++ ins'), (outs ++ outs'), s2. split; [done|]. by eapply op_post_trans.
  - destruct (IH s1) as (ins' & outs' & s2 & -> & Hpost); [apply Hop|].
    exists ins', outs', s2. split; [done|]. by eapply (op_post_trans _ _ _ [] []).
Qed.

(** C8. Whatever sequence of operations runs on a well-formed socket table (insertions, arming,
    cancelling, notifying, closing, wakers called by the engine, other stacks taking
    identities), none panics, the table stays well formed, and the waiters it held at the
    start plus those armed are exactly the waiters it holds at the end plus those it gave
    back: no waiter is lost and none is handed out twice. *)
Theorem table_conserves_waiters ops s :
  table_wf s →
  ∃ armed released s',
    run_ops ops s = Some (armed, released, s')
    ∧ table_wf s'
    ∧ table_held (table s) ++ armed ≡ₚ table_held (table s') ++ released.
Proof.
  intros (ins & outs & s' & Hr & Hwf & _ & Hp)%(run_ops_spec ops). by exists ins, outs, s'.
Qed.

(** C18. Once a socket is closed, its identity is rejected after any further sequence of table
    operations, and every identity handed out later is larger. *)
Theorem closed_identity_stays_invalid ops i kind handle s ws s1 :
  table_wf s → table_close i s = (Ok ws, s1) →
  ∃ armed released s2,
    run_ops ops s1 = Some (armed, released, s2)
    ∧ (∀ k, validate (table s2) i k = Err InvalidSocket)
    ∧ (∀ j s3, table_insert kind handle s2 = (Ok j, s3) → (id i < id j <= MAX_SOCKET_ID)%N).
Proof.
  intros Hwf Hc.
  pose proof (wp_run_ok _ _ _ _ _ _ (table_close_spec i s Hwf) Hc) as ((Hwf1 & Hg1 & _) & (e & He & _) & Hes).
  destruct (run_ops_spec ops s1 Hwf1) as (ins & outs & s2 & -> & Hwf2 & Hg2 & _).
  destruct (wf_entry _ Hwf _ _ _ He) as [[Hi _] _].
  assert (Hnext : (id i < next_socket_id (shared s2))%N) by (destruct Hg1, Hg2; lia).
  exists ins, outs, s2. split_and!; [done| |].
  - intros k. unfold validate. destruct (table_entries (table s2) !! id i) as [[g e2]|] eqn:He2; [|done].
    destruct Hg2 as (_ & _ & _ & Hg2). destruct (Hg2 _ _ _ He2) as [(e1 & He1 & _)|Hge].
    + rewrite Hes, lookup_delete_eq in He1. done.
    + destruct Hg1. lia.
  - intros j s3 Hj. pose proof (wp_run_ok _ _ _ _ _ _ (table_insert_ok kind handle s2) Hj) as (-> & ? & _).
    simpl in *. lia.
Qed.

(** A table that may hold two waiters per socket never runs out of them. *)
Lemma waiter_capacity_suffices i e d s :
  table_wf s → (2 * max_entries (table s) <= max_waiters (table s))%N →
  table_entries (table s) !! id i = Some (generation i, e) → waiter e d = None →
  (waiter_count (table s) < max_waiters (table s))%N.
Proof.
  intros Hwf H2 He Hw. pose proof (wf_len _ Hwf) as Hlen. unfold table_len in Hlen.
  rewrite (wf_count _ Hwf). unfold table_held. rewrite (bmap_flat_delete _ _ _ _ He), llen_app.
  assert (Htwo : ∀ k v, length (entry_held k v) ≤ 2).
  { intros k [g e']. unfold entry_held. simpl. by destruct (read_waiter e'), (write_waiter e'); simpl; lia. }
  assert (length (entry_held (id i) (generation i, e)) ≤ 1).
  { unfold entry_held. simpl. destruct d; simpl in Hw; rewrite Hw; by case_match; simpl; lia. }
  pose proof (length_bmap_flat_le entry_held (delete (id i) (table_entries (table s))) 2
    ltac:(auto)) as Hrest.
  assert (size (table_entries (table s)) ≠ 0).
  { intros Hz%map_size_empty_inv. by rewrite Hz in He. }
  rewrite map_size_delete_Some in Hrest by (by eexists).
  unfold llen. lia.
Qed.

Lemma waiter_same w p o r :
  bool_decide (pid w = p) && waiter_matches w o r = bool_decide (w = waiter_new p o r).
Proof.
  unfold waiter_matches. apply eq_true_iff_eq.
  rewrite !andb_true_iff, !bool_decide_eq_true. destruct w; unfold waiter_new; naive_solver.
Qed.

(** ** The scan *)
(** The reference: the keys whose flag is set, in order, after a cursor. *)
Definition entry_ready_keys (h : Flags) (i : u64) (ge : u64 * SocketEntry) : list ReadyKey :=
  let key := ready_key {| id := i; generation := ge.1 |} in
  (if load (read_ready ge.2) h then [key Read] else [])
  ++ (if load (write_ready ge.2) h then [key Write] else []).

Definition after_cursor (c : option ReadyKey) (k : ReadyKey) : bool :=
  match c with
  | None => true
  | Some c =>
      (id (identity c) <? id (identity k))%N
      || ((id (identity c) =? id (identity k))%N
          && (direction_rank (direction c) <? direction_rank (direction k))%Z)
  end.

Definition ready_of (h : Flags) (l : list (u64 * (u64 * SocketEntry))) : list ReadyKey :=
  concat ((λ kv, entry_ready_keys h kv.1 kv.2) <$> l).

Definition ready_after (t : SocketTable) (h : Flags) (c : option ReadyKey) : list ReadyKey :=
  List.filter (after_cursor c) (ready_of h (bmap_list (table_entries t))).

(** How far a cursor may lie from the entries still to visit. *)
Definition cursor_before (c : option ReadyKey) (l : list (u64 * (u64 * SocketEntry))) : Prop :=
  match c with
  | None => True
  | Some c => Forall (λ kv, (id (identity c) < kv.1)%N) l
  end.

Lemma ready_of_cons h i ge l : ready_of h ((i, ge) :: l) = entry_ready_keys h i ge ++ ready_of h l.
Proof. done. Qed.

Lemma elem_of_entry_ready_keys h i ge k :
  k ∈ entry_ready_keys h i ge → identity k = {| id := i; generation := ge.1 |}.
Proof. unfold entry_ready_keys. repeat case_match; simpl; set_solver. Qed.

Lemma elem_of_ready_of h l k :
  k ∈ ready_of h l → ∃ kv, kv ∈ l ∧ id (identity k) = kv.1.
Proof.
  induction l as [|[i ge] l IH]; [set_solver|]. rewrite ready_of_cons, elem_of_app.
  intros [Hk|Hk]; [|destruct (IH Hk) as (kv & ? & ?); exists kv; set_solver].
  exists (i, ge). split; [set_solver|]. by rewrite (elem_of_entry_ready_keys _ _ _ _ Hk).
Qed.

Lemma filter_all {A} (f : A → bool) l : (∀ x, x ∈ l → f x = true) → List.filter f l = l.
Proof.
  induction l as [|x l IH]; intros Hf; simpl; [done|].
  rewrite (Hf x) by set_solver. f_equal. apply IH. set_solver.
Qed.

Lemma filter_none {A} (f : A → bool) l : (∀ x, x ∈ l → f x = false) → List.filter f l = [].
Proof.
  induction l as [|x l IH]; intros Hf; simpl; [done|].
  rewrite (Hf x) by set_solver. apply IH. set_solver.
Qed.

Lemma ready_after_all h c l :
  cursor_before c l → List.filter (after_cursor c) (ready_of h l) = ready_of h l.
Proof.
  intros Hc. apply filter_all. intros k (kv & Hkv & Hk)%elem_of_ready_of.
  destruct c as [c|]; [|done]. simpl in *. rewrite list.Forall_forall in Hc.
  specialize (Hc kv Hkv). lia.
Qed.

(** The part of an entry's keys the loop leaves to a later scan. *)
Definition scan_rest (h : Flags) (c : option ReadyKey) (l : list (u64 * (u64 * SocketEntry))) :=
  List.filter (after_cursor c) (ready_of h l).

Lemma scan_rest_read h i g e l :
  cursor_before (Some (ready_key {| id := i; generation := g |} Read)) l →
  scan_rest h (Some (ready_key {| id := i; generation := g |} Read)) ((i, (g, e)) :: l)
  = (if load (write_ready e) h then [ready_key {| id := i; generation := g |} Write] else [])
    ++ ready_of h l.
Proof.
  intros Hc. unfold scan_rest. rewrite ready_of_cons, List.filter_app, ready_after_all by done. f_equal.
  unfold entry_ready_keys. simpl. repeat case_match; simpl; rewrite ?N.eqb_refl, ?N.ltb_irrefl; done.
Qed.

Definition scan_entries : Type := list (u64 * (u64 * SocketEntry)).
Definition entries_sorted (l : scan_entries) : Prop := StronglySorted (λ x y, (x.1 < y.1)%N) l.

(** A cursor past all the keys of the entry numbered [i]. *)
Definition cursor_past (c : option ReadyKey) (i : u64) : Prop :=
  match c with
  | None => False
  | Some c => (i < id (identity c))%N ∨ i = id (identity c) ∧ direction c = Write
  end.

Lemma scan_rest_skip h c i ge l : cursor_past c i → scan_rest h c ((i, ge) :: l) = scan_rest h c l.
Proof.
  intros Hc. destruct c as [c|]; [|done]. unfold scan_rest. simpl in Hc.
  rewrite ready_of_cons, List.filter_app, (filter_none _ (entry_ready_keys _ _ _)); [done|].
  intros k Hk%elem_of_entry_ready_keys. simpl. rewrite Hk. simpl.
  destruct Hc as [?|[-> ->]], (direction k); simpl; lia.
Qed.

(** What the loop achieves from [acc] on, when the keys after [c0] remain. *)
Definition scan_post (h : Flags) (entry_limit key_limit : usize) (c0 : option ReadyKey)
    (rest : scan_entries) (acc r : ReadyScan) : Prop :=
  (∃ ks, scan_keys r = scan_keys acc ++ ks
    ∧ ks ++ scan_rest h (scan_cursor r) rest = scan_rest h c0 rest)
  ∧ (llen (scan_keys r) <= key_limit)%N ∧ (entries_scanned r <= entry_limit)%N
  ∧ (scan_complete r = true → scan_rest h (scan_cursor r) rest = [])
  ∧ (scan_cursor r = scan_cursor acc
     ∨ ∃ c kv, scan_cursor r = Some c ∧ kv ∈ rest ∧ id (identity c) = kv.1).

Lemma entries_sorted_cons i ge l c :
  entries_sorted ((i, ge) :: l) → id (identity c) = i → entries_sorted l ∧ cursor_before (Some c) l.
Proof.
  intros [Hs Hi]%StronglySorted_inv <-. done.
Qed.

Lemma scan_write_spec {B} h el kl i g e l next acc0 acc b r (b' : B) ks0 c0 :
  entries_sorted ((i, (g, e)) :: l) →
  scan_keys acc = scan_keys acc0 ++ ks0 → (llen (scan_keys acc) < kl)%N → (entries_scanned acc <= el)%N →
  ks0 ++ (if load (write_ready e) h then [ready_key {| id := i; generation := g |} Write] else [])
    ++ ready_of h l = scan_rest h c0 ((i, (g, e)) :: l) →
  (∀ acc b r b',
     scan_cursor acc = Some (ready_key {| id := i; generation := g |} Write) →
     (llen (scan_keys acc) < kl)%N → (entries_scanned acc < el)%N →
     next acc b = (r, b') → scan_post h el kl (scan_cursor acc) l acc r) →
  scan_write h el kl (ready_key {| id := i; generation := g |} Write) e
    (match l with [] => true | _ => false end) next acc b = (r, b') →
  scan_post h el kl c0 ((i, (g, e)) :: l) acc0 r.
Proof.
  set (wk := ready_key _ Write). intros Hs Hk Hkl Hel Hks Hnext Hw. unfold scan_write in Hw.
  destruct (entries_sorted_cons _ _ _ wk Hs eq_refl) as [_ Hbef].
  set (ws := if load (write_ready e) h then [wk] else []) in *.
  set (acc1 := scan_at wk _) in Hw.
  assert (Hk1 : scan_keys acc1 = scan_keys acc0 ++ ks0 ++ ws).
  { rewrite app_assoc, <-Hk. subst acc1 ws. destruct (load _ _); simpl; by rewrite ?app_nil_r. }
  assert (Hl1 : (llen (scan_keys acc1) <= kl)%N).
  { rewrite Hk1, app_assoc, <-Hk, llen_app. subst ws. case_match; unfold llen in *; simpl; lia. }
  assert (entries_scanned acc1 = entries_scanned acc) as He1 by (subst acc1; by case_match).
  assert (Hsk : scan_rest h (Some wk) ((i, (g, e)) :: l) = ready_of h l).
  { rewrite scan_rest_skip by (by right). by apply ready_after_all. }
  case_match eqn:Hstop.
  - simplify_eq/=. split_and!; simpl; [|done|lia| |].
    + exists (ks0 ++ ws). rewrite Hsk, <-app_assoc. done.
    + rewrite Hsk. by destruct l.
    + right. exists wk, (i, (g, e)). split_and!; [done|set_solver|done].
  - apply Hnext in Hw as ((ks & Hks1 & Hks2) & ? & ? & Hcomp & Hcur); [|done|lia|lia].
    change (scan_cursor acc1) with (Some wk) in *.
    assert (Hskip : scan_rest h (scan_cursor r) ((i, (g, e)) :: l) = scan_rest h (scan_cursor r) l).
    { apply scan_rest_skip. destruct Hcur as [->|(c & kv & -> & Hkv & Hc)]; [by right|left].
      simpl in Hbef. rewrite list.Forall_forall in Hbef. rewrite Hc. by apply Hbef. }
    split_and!; [|done|done|by rewrite Hskip|].
    + exists (ks0 ++ ws ++ ks). rewrite Hskip, Hks1, Hk1, <-!app_assoc. split; [done|].
      rewrite Hks2, <-Hks. unfold scan_rest. by rewrite ready_after_all.
    + right. destruct Hcur as [->|(c & kv & -> & Hkv & Hc)].
      * exists wk, (i, (g, e)). split_and!; [done|set_solver|done].
      * exists c, kv. split_and!; [done|set_solver|done].
Qed.

(** The start of a scan lies at or before the first entry to visit; once the
    cursor has moved, it and the start lie strictly before. *)
Definition scan_from (start c : option ReadyKey) (rest : scan_entries) : Prop :=
  (c = start ∧ match start with
               | None => True
               | Some k => Forall (λ kv, (id (identity k) <= kv.1)%N) rest
               end)
  ∨ (cursor_before start rest ∧ cursor_before c rest).

Lemma scan_from_rest h start c rest :
  scan_from start c rest → scan_rest h c rest = scan_rest h start rest.
Proof. intros [[-> _]|[Hs Hc]]; [done|]. unfold scan_rest. by rewrite !ready_after_all. Qed.

Lemma scan_from_tail start c i ge l :
  entries_sorted ((i, ge) :: l) → scan_from start c ((i, ge) :: l) → cursor_before start l.
Proof.
  intros [_ Hi]%StronglySorted_inv [[_ Hs]|[Hs _]]; destruct start as [k|]; try done.
  - apply list.Forall_cons in Hs as [Hk _]. simpl in *. eapply list.Forall_impl; [exact Hi|]. simpl. lia.
  - by apply list.Forall_cons in Hs as [_ Hs].
Qed.

(** The keys of the first entry that lie after the start. *)
Lemma scan_rest_head h start c i g e l :
  entries_sorted ((i, (g, e)) :: l) → scan_from start c ((i, (g, e)) :: l) →
  at_cursor start i Write = false →
  scan_rest h start ((i, (g, e)) :: l) =
    (if negb (at_cursor start i Read) && load (read_ready e) h
     then [ready_key {| id := i; generation := g |} Read] else [])
    ++ (if load (write_ready e) h then [ready_key {| id := i; generation := g |} Write] else [])
    ++ ready_of h l.
Proof.
  intros Hs Hfrom Hw. pose proof (scan_from_tail _ _ _ _ _ Hs Hfrom) as Hl.
  unfold scan_rest. rewrite ready_of_cons, List.filter_app, (ready_after_all _ _ l Hl), app_assoc. f_equal.
  unfold entry_ready_keys. simpl. rewrite List.filter_app.
  assert (Hle : match start with None => True | Some k => (id (identity k) <= i)%N end).
  { destruct start as [k|]; [|done].
    by destruct Hfrom as [[_ [Hk _]%list.Forall_cons]|[[Hk _]%list.Forall_cons _]]; simpl in *; lia. }
  unfold at_cursor, after_cursor in *. destruct start as [[[ki kg] kd]|]; simpl in *.
  - destruct (N.eqb_spec ki i) as [->|Hne]; simpl in *.
    + destruct kd; [|done]. simpl.
      repeat case_match; simpl; rewrite ?N.ltb_irrefl, ?N.eqb_refl; done.
    + assert ((ki <? i)%N = true) as Hlt by lia.
      repeat case_match; simpl; rewrite ?Hlt; done.
  - by repeat case_match.
Qed.

Section scan_loop_spec.
Context {B : Type} (within : B → bool * B) (h : Flags) (start : option ReadyKey) (el kl : usize).

Definition scans (rest : scan_entries) : Prop := ∀ acc b r b',
  scan_from start (scan_cursor acc) rest →
  (llen (scan_keys acc) < kl)%N → (entries_scanned acc < el)%N →
  scan_loop within h start el kl rest acc b = (r, b') →
  scan_post h el kl start rest acc r.

(** A turn on the entry the start points at, past its write key. *)
Lemma scan_turn_skipped i g e l acc b r b' :
  entries_sorted ((i, (g, e)) :: l) → scans l →
  scan_from start (scan_cursor acc) ((i, (g, e)) :: l) → at_cursor start i Write = true →
  (llen (scan_keys acc) < kl)%N → (entries_scanned acc < el)%N →
  scan_loop within h start el kl l acc b = (r, b') →
  scan_post h el kl start ((i, (g, e)) :: l) acc r.
Proof.
  intros Hs IH Hfrom Hcw Hkl Hel Hr.
  pose proof (scan_from_tail _ _ _ _ _ Hs Hfrom) as Hstart. unfold scans in IH.
  destruct start as [c|]; [|done]. simpl in Hcw.
  apply andb_true_iff in Hcw as [Hci%N.eqb_eq Hcd%bool_decide_eq_true].
  destruct (entries_sorted_cons _ _ _ c Hs Hci) as [_ Hwk].
  assert (Hpast : cursor_past (Some c) i) by (right; done).
  assert (scan_cursor acc = Some c) as Hacc.
  { destruct Hfrom as [[? _]|[[Hk _]%list.Forall_cons _]]; [done|]. simpl in Hk. lia. }
  apply IH in Hr as ((ks & Hk1 & Hk2) & ? & ? & Hcomp & Hcur); [|by right; rewrite Hacc|done|done].
  assert (Hrp : cursor_past (scan_cursor r) i).
  { destruct Hcur as [->|(c' & kv & -> & Hkv & Hc')]; [by rewrite Hacc|left].
    simpl in Hwk. rewrite list.Forall_forall in Hwk. rewrite Hc', <-Hci. by apply Hwk. }
  unfold scan_post. rewrite !scan_rest_skip by done.
  split_and!; [by exists ks|done|done|done|].
  destruct Hcur as [?|(c' & kv & ? & Hkv & ?)]; [by left|right]. exists c', kv. set_solver.
Qed.

(** A scan that stops right after it took the read key of an entry. *)
Lemma scan_stop_read i g e l acc acc' :
  entries_sorted ((i, (g, e)) :: l) →
  let rk := ready_key {| id := i; generation := g |} Read in
  scan_rest h start ((i, (g, e)) :: l) =
    [rk] ++ (if load (write_ready e) h then [ready_key {| id := i; generation := g |} Write] else [])
    ++ ready_of h l →
  scan_keys acc' = scan_keys acc ++ [rk] → scan_cursor acc' = Some rk →
  (llen (scan_keys acc') <= kl)%N → (entries_scanned acc' <= el)%N →
  scan_complete acc' = false → scan_post h el kl start ((i, (g, e)) :: l) acc acc'.
Proof.
  intros Hs rk Hhead Hk' Hc' ? ? Hco. split_and!; [|done|done|by rewrite Hco|].
  - exists [rk]. split; [done|]. rewrite Hc', Hhead. unfold rk. rewrite scan_rest_read; [done|].
    by apply (entries_sorted_cons i (g, e) l rk Hs).
  - right. exists rk, (i, (g, e)). split_and!; [done|set_solver|done].
Qed.

Lemma scan_loop_spec rest : entries_sorted rest → scans rest.
Proof.
  induction rest as [|[i [g e]] l IH]; intros Hs acc b r b' Hfrom Hkl Hel Hr; simpl in Hr.
  { simplify_eq. split_and!; [exists []; by rewrite app_nil_r|lia|lia|done|by left]. }
  set (wk := ready_key {| id := i; generation := g |} Write) in *.
  destruct (entries_sorted_cons _ _ _ wk Hs eq_refl) as [Hsl Hwk]. specialize (IH Hsl).
  pose proof (scan_from_tail _ _ _ _ _ Hs Hfrom) as Hstart.
  destruct (at_cursor start i Write) eqn:Hcw; [by eapply scan_turn_skipped|].
  pose proof (scan_rest_head h _ _ _ _ _ _ Hs Hfrom Hcw) as Hhead.
  destruct (within b) as [[] b1]; simpl in Hr; cycle 1.
  { simplify_eq. split_and!; simpl; [|lia|lia|done|by left].
    exists []. rewrite app_nil_r. split; [done|]. by apply scan_from_rest. }
  assert (Hnext : ∀ acc b r b', scan_cursor acc = Some wk →
     (llen (scan_keys acc) < kl)%N → (entries_scanned acc < el)%N →
     scan_loop within h start el kl l acc b = (r, b') → scan_post h el kl (scan_cursor acc) l acc r).
  { intros acc' ? r' ? Hc' ? ? Hr'. unfold scan_post. rewrite Hc'.
    replace (scan_rest h (Some wk) l) with (scan_rest h start l)
      by (unfold scan_rest; by rewrite !ready_after_all).
    rewrite <-Hc'. eapply IH; try done. right. by rewrite Hc'. }
  set (rk := ready_key {| id := i; generation := g |} Read) in *.
  assert (Hl1 : llen (scan_keys acc ++ [rk]) = (llen (scan_keys acc) + 1)%N) by (by rewrite llen_app).
  destruct (negb (at_cursor start i Read) && load (read_ready e) h) eqn:Hread.
  - destruct (llen (_ ++ [rk]) =? kl)%N eqn:Hkey; [|destruct (within b1) as [[] b2]]; simpl in Hr.
    + simplify_eq. apply scan_stop_read; [exact Hs|exact Hhead|..]; simpl; done || lia.
    + eapply (scan_write_spec _ _ _ _ _ _ _ _ acc _ _ _ _ [rk] _ Hs);
        [..|exact Hr]; [done|simpl; lia|simpl; lia|symmetry; exact Hhead|exact Hnext].
    + simplify_eq. apply scan_stop_read; [exact Hs|exact Hhead|..]; simpl; done || lia.
  - eapply (scan_write_spec _ _ _ _ _ _ _ _ acc _ _ _ _ [] _ Hs); [..|exact Hr];
      [simpl; by rewrite app_nil_r|simpl; lia|simpl; lia|symmetry; exact Hhead|exact Hnext].
Qed.
End scan_loop_spec.

Lemma bmap_list_sorted {V} (m : gmap N V) : StronglySorted (λ x y, (x.1 < y.1)%N) (bmap_list m).
Proof.
  pose proof (bset_elems_sorted_lt (dom m)) as Hs. change (bset_elems (dom m)) with (bmap_keys m) in Hs.
  rewrite <-bmap_list_keys in Hs. induction (bmap_list m) as [|[k v] l IH]; [constructor|].
  apply StronglySorted_inv in Hs as [Hs Hk]. constructor; [by apply IH|].
  apply (list.Forall_fmap fst (key_lt k) l) in Hk. eapply list.Forall_impl; [exact Hk|].
  intros [k' v']. unfold compose, key_lt. simpl. lia.
Qed.

Lemma StronglySorted_filter {A} (R : A → A → Prop) (f : A → bool) l :
  StronglySorted R l → StronglySorted R (List.filter f l).
Proof.
  induction 1 as [|x l Hs IH Hx]; simpl; [constructor|]. case_match; [|done]. constructor; [done|].
  apply list.Forall_forall. intros y [Hy _]%list_elem_of_In%filter_In. rewrite list.Forall_forall in Hx.
  apply Hx. by apply list_elem_of_In.
Qed.

(** The entries before the start of the range have no key after the cursor. *)
Lemma scan_rest_range h start c (m : gmap u64 (u64 * SocketEntry)) :
  (∀ k, start = Some k → ∃ c', c = Some c' ∧ (id (identity k) <= id (identity c'))%N) →
  scan_rest h c (bmap_range (match start with
                             | Some key => Included (id (identity key))
                             | None => Unbounded end) m)
  = scan_rest h c (bmap_list m).
Proof.
  intros Hc. unfold bmap_range. induction (bmap_list m) as [|[i ge] l IH]; [done|].
  cbn [List.filter fst]. destruct start as [k|]; cbn [in_bound] in *; cycle 1.
  { unfold scan_rest in *. by rewrite !ready_of_cons, !List.filter_app, IH. }
  destruct (Hc k eq_refl) as (c' & -> & Hle). case_bool_decide as Hb.
  - unfold scan_rest in *. by rewrite !ready_of_cons, !List.filter_app, IH.
  - rewrite scan_rest_skip; [done|]. left. apply key_not_le in Hb. unfold key_lt in Hb. simpl in Hb. lia.
Qed.

Lemma scan_ready_spec {B} (within : B → bool * B) t h start el kl b r b' :
  (0 < el)%N → (0 < kl)%N →
  scan_ready within t h start el kl b = (r, b') →
  scan_keys r ++ ready_after t h (scan_cursor r) = ready_after t h start
  ∧ (llen (scan_keys r) <= kl)%N ∧ (entries_scanned r <= el)%N
  ∧ (scan_complete r = true → ready_after t h (scan_cursor r) = []).
Proof.
  intros Hel Hkl Hr. unfold scan_ready in Hr. case_match; [lia|].
  pose proof (λ c, scan_rest_range h start c (table_entries t)) as Hrange.
  set (rest := bmap_range _ _) in *.
  assert (Hs : entries_sorted rest) by apply StronglySorted_filter, bmap_list_sorted.
  assert (Hge : ∀ k, start = Some k → Forall (λ kv, (id (identity k) <= kv.1)%N) rest).
  { intros k ->. apply list.Forall_forall. intros [i ge] Hi%elem_of_bmap_range. simpl in *.
    destruct Hi as [_ Hi%bool_decide_eq_true]. unfold key_le in Hi. simpl in Hi. lia. }
  apply scan_loop_spec in Hr as ((ks & Hk & Hrest) & ? & ? & Hcomp & Hcur); simpl; [|done| |done|done];
    cycle 1. { left. split; [done|]. destruct start; [by apply Hge|done]. }
  simpl in *. subst ks. unfold ready_after. fold (scan_rest h (scan_cursor r) (bmap_list (table_entries t))).
  fold (scan_rest h start (bmap_list (table_entries t))). rewrite <-!Hrange; [done| |].
  - by intros k ->; exists k.
  - intros k ->. destruct Hcur as [->|(c & kv & -> & Hkv & Hc)]; [by exists k|].
    exists c. split; [done|]. rewrite Hc. specialize (Hge k eq_refl).
    rewrite list.Forall_forall in Hge. by apply Hge.
Qed.

(** ** Notification and cancellation *)
(** A waiter a live socket holds in a slot. *)
Definition armed_at (s : TableState) (key : ReadyKey) (w : Waiter) : Prop :=
  ∃ e, table_entries (table s) !! id (identity key) = Some (generation (identity key), e)
    ∧ entry_lifecycle e = SlOpen ∧ waiter e (direction key) = Some w.

Lemma wf_entry_ready_flag s i g e d :
  table_wf s → table_entries (table s) !! i = Some (g, e) →
  entry_ready_flag e d = ready_key {| id := i; generation := g |} d.
Proof. intros Hwf He. destruct (wf_entry _ Hwf _ _ _ He) as (_ & ? & ?). by destruct d. Qed.

(** Rewriting an entry keeps the waiters it keeps. *)
Lemma armed_update s s' i g e e' k w :
  table_entries (table s) !! i = Some (g, e) →
  table_entries (table s') = <[i := (g, e')]> (table_entries (table s)) →
  entry_lifecycle e' = entry_lifecycle e →
  (identity k = {| id := i; generation := g |} → waiter e' (direction k) = waiter e (direction k)) →
  armed_at s k w → armed_at s' k w.
Proof.
  intros He Hes Hl' Hw' (e0 & He0 & Hl & Hw). unfold armed_at. rewrite Hes.
  destruct (decide (i = id (identity k))) as [->|Hi]; [|rewrite lookup_insert_ne by done; by exists e0].
  rewrite He in He0. injection He0 as -> ->. rewrite lookup_insert_eq. exists e'.
  split_and!; [done|congruence|]. rewrite Hw'; [done|]. by destruct (identity k).
Qed.

(** Arming a free slot changes that slot only. *)
Lemma armed_put s s' i e e' d w :
  table_entries (table s) !! id i = Some (generation i, e) → entry_lifecycle e = SlOpen →
  table_entries (table s') = <[id i := (generation i, e')]> (table_entries (table s)) →
  entry_lifecycle e' = SlOpen → waiter e' d = Some w → (∀ d', d' ≠ d → waiter e' d' = waiter e d') →
  armed_at s' (ready_key i d) w
  ∧ ∀ k' w', k' ≠ ready_key i d → armed_at s' k' w' ↔ armed_at s k' w'.
Proof.
  intros He Hl Hes Hl' Hw Hd. split.
  { exists e'. simpl. by rewrite Hes, lookup_insert_eq. }
  intros k' w' Hk.
  assert (Hsame : identity k' = {| id := id i; generation := generation i |} → waiter e' (direction k') = waiter e (direction k')).
  { intros Hi. apply Hd. intros Hd'. apply Hk. destruct k', i. simpl in *. by subst. }
  split.
  - eapply (armed_update s' s (id i) (generation i) e' e); [by rewrite Hes, lookup_insert_eq| |congruence|].
    + by rewrite Hes, insert_insert_eq, insert_id.
    + intros Hi. symmetry. auto.
  - eapply (armed_update s s'); [done|done|congruence|done].
Qed.

Lemma install_waiter_arms r s :
  wp (install_waiter r)
    (λ _ s', armed_at s' (ready_key (reg_identity r) (reg_direction r))
               (waiter_new (reg_pid r) (reg_operation r) (reg_reference r))) (λ _ _, True) s.
Proof.
  cbv [wp install_waiter mbind M_bind gets fail_if fail mret M_ret lift_outcome put_entry modify expect].
  destruct (bool_decide (operation_direction _ ≠ _)); [done|].
  destruct (validate _ _ _) as [e|err|] eqn:Hv; [|done|by apply validate_no_panic in Hv].
  apply validate_Ok in Hv as (He & _ & Hl). rewrite He.
  destruct (waiter e (reg_direction r)) as [w|] eqn:Hw.
  - rewrite waiter_same. case_bool_decide; [|done]. subst w. by exists e.
  - destruct (_ <=? _)%N; [done|]. simpl. edestruct (armed_put s) as [Ha _]; [exact He|exact Hl| | | | |exact Ha];
      simpl; [done|by destruct (reg_direction r)..|]. by destruct (reg_direction r); intros [].
Qed.

Lemma take_ready_run key s :
  table_wf s →
  wp (take_ready_waiter key)
    (λ res s', match res with
      | Notify w =>
          armed_at s key w ∧ load key (flags (shared s)) = true
          ∧ load key (flags (shared s')) = false ∧ ∀ w', ¬ armed_at s' key w'
      | NoWaiter => load key (flags (shared s)) = true ∧ ∀ w, ¬ armed_at s key w
      | Coalesced => load key (flags (shared s)) = false
      | Stale => ∀ w, ¬ armed_at s key w
      end)
    (λ _ _, False) s.
Proof.
  intros Hwf. destruct key as [[i g0] d]. unfold take_ready_waiter, put_entry, store_flag, armed_at. simpl.
  wp_steps; cycle 1. { intros w (e & He & _). simpl in *. congruence. }
  destruct p as [g e]. destruct (decide (g = g0)) as [->|Hg]; cycle 1.
  { rewrite (proj2 (N.eqb_neq _ _) Hg). simpl. wp_steps. intros w (e' & He' & _). simplify_eq. }
  rewrite N.eqb_refl. simpl. rewrite (wf_entry_ready_flag _ _ _ _ d Hwf Heqo).
  set (key := ready_key _ d). wp_steps.
  - intros w (e' & He' & Hlc & _). simplify_eq. by rewrite bool_decide_eq_true in *.
  - by apply negb_true_iff.
  - pose proof (waiter_count_pos _ _ _ _ _ _ Hwf Heqo Heqo0).
    apply waiter_count_sub_wp; [done|]. apply wp_bind, wp_expect. exists w.
    split; [by destruct d|]. wp_steps. simpl. rewrite bool_decide_neq_false, negb_false_iff in *.
    split_and!; [by exists e|done|by rewrite load_store, decide_True|].
    intros w' (e' & He' & _ & Hw'). rewrite lookup_insert_eq in He'. by destruct d; simplify_eq/=.
  - split; [by apply negb_false_iff|]. intros w (e' & He' & _ & Hw'). congruence.
Qed.

Lemma table_cancel_run i o r s :
  table_wf s →
  let key := ready_key i (operation_direction o) in
  wp (table_cancel i o r)
    (λ res s', table_wf s' ∧ (res = Cancelled →
      (∃ p, armed_at s key {| pid := p; operation := o; reference := r |})
      ∧ load key (flags (shared s')) = false ∧ ∀ w, ¬ armed_at s' key w))
    (λ _ _, True) s.
Proof.
  intros Hwf key. pose proof (table_cancel_spec i o r s Hwf) as Hop.
  unfold op_spec, run_op in Hop. rewrite wp_bind, wp_gets, wp_bind in Hop.
  unfold wp in *. destruct (table_cancel i o r s) as [[res|err|] s'] eqn:Hc; [|done|done].
  destruct Hop as [Hwf' _]. split; [done|]. intros ->.
  unfold armed_at. subst key. destruct i as [i g]. simpl. revert Hc.
  cbv [table_cancel put_entry store_flag waiter_count_sub mbind M_bind gets fail_if fail mret M_ret
    lift_outcome ok_or modify expect]. simpl.
  destruct (table_entries (table s) !! i) as [[g' e]|] eqn:He; simpl; [|done].
  destruct (N.eqb_spec g' g) as [->|]; [|done]. simpl.
  destruct (bool_decide (entry_lifecycle e ≠ SlOpen)) eqn:Hlc; [done|]. rewrite bool_decide_neq_false in Hlc.
  destruct (waiter e (operation_direction o)) as [w|] eqn:Hw; [|by repeat case_match].
  destruct (waiter_matches w o r) eqn:Hm; [|by repeat case_match].
  pose proof (waiter_count_pos _ _ _ _ _ _ Hwf He Hw). simpl. rewrite checked_sub_Some by done.
  intros [= <-]. simpl. split_and!.
  - exists (pid w), e. split_and!; [done|done|]. simpl. rewrite Hw. unfold waiter_matches in Hm.
    rewrite andb_true_iff, !bool_decide_eq_true in Hm. destruct w, Hm; simpl in *; by subst.
  - rewrite (wf_entry_ready_flag _ _ _ _ (operation_direction o) Hwf He). by rewrite load_store, decide_True.
  - intros w' (e' & He' & _ & Hw'). rewrite lookup_insert_eq in He'.
    by destruct (operation_direction o); simplify_eq/=.
Qed.

(** C29. With room for two waiters a socket, installing a waiter arms it and counts it, leaving
    every other slot, flag and counter as it was, when the slot is free; otherwise it
    changes nothing and recognises the same registration, reports Busy for another, or
    rejects the socket or the operation; the waiter limit is never the reason. *)
Theorem install_waiter_outcome r s :
  table_wf s → (2 * max_entries (table s) <= max_waiters (table s))%N →
  let key := ready_key (reg_identity r) (reg_direction r) in
  let w := waiter_new (reg_pid r) (reg_operation r) (reg_reference r) in
  let '(res, s') := install_waiter r s in
  res =
    (if bool_decide (operation_direction (reg_operation r) ≠ reg_direction r) then Err InvalidOperation
     else match validate (table s) (reg_identity r) (reg_expected_kind r) with
          | Ok e =>
              match waiter e (reg_direction r) with
              | None => Ok Armed
              | Some w' => if decide (w' = w) then Ok AlreadyArmed else Err Busy
              end
          | Err err => Err err
          | Panic => Panic
          end)
  ∧ match res with
    | Ok Armed =>
        armed_at s' key w ∧ waiter_count (table s') = (waiter_count (table s) + 1)%N
        ∧ shared s' = shared s ∧ ∀ k' w', k' ≠ key → armed_at s' k' w' ↔ armed_at s k' w'
    | _ => s' = s
    end.
Proof.
  intros Hwf H2 key w. subst key w.
  cbv [install_waiter mbind M_bind gets fail_if fail mret M_ret lift_outcome put_entry modify].
  destruct (bool_decide (operation_direction _ ≠ _)); [done|].
  destruct (validate _ _ _) as [e|err|] eqn:Hv; [|done|done].
  apply validate_Ok in Hv as (He & _ & Hl). rewrite He.
  destruct (waiter e (reg_direction r)) as [w|] eqn:Hw.
  - rewrite waiter_same. case_decide; [by rewrite bool_decide_true|by rewrite bool_decide_false].
  - pose proof (waiter_capacity_suffices _ _ _ _ Hwf H2 He Hw).
    rewrite (proj2 (N.leb_gt _ _)) by done. simpl. split; [done|].
    edestruct (armed_put s) as [Ha Ho]; [exact He|exact Hl| | | | |split_and!; [exact Ha|done|done|exact Ho]];
      simpl; [done|by destruct (reg_direction r)..|]. by destruct (reg_direction r); intros [].
Qed.

(** C30. Taking the waiter of a ready key notifies exactly when the flag is raised and a waiter
    is armed, lowering the flag and disarming it; each other answer says which of the two is
    missing. *)
Theorem take_ready_waiter_outcome key s :
  table_wf s →
  match take_ready_waiter key s with
  | (Ok (Notify w), s') =>
      armed_at s key w ∧ load key (flags (shared s)) = true
      ∧ load key (flags (shared s')) = false ∧ ∀ w', ¬ armed_at s' key w'
  | (Ok NoWaiter, _) => load key (flags (shared s)) = true ∧ ∀ w, ¬ armed_at s key w
  | (Ok Coalesced, _) => load key (flags (shared s)) = false
  | (Ok Stale, _) => ∀ w, ¬ armed_at s key w
  | _ => False
  end.
Proof.
  intros Hwf. pose proof (take_ready_run key s Hwf) as Hw. unfold wp in Hw.
  by destruct (take_ready_waiter key s) as [[[]| |] s'].
Qed.

(** C19. A cancel that reports success removed the waiter that was armed for that operation and
    reference and lowered its flag; whatever the flags and the queue become afterwards, no
    notification for it can be taken. *)
Theorem cancelled_waiter_is_never_notified i o r s s' fl q :
  table_wf s → table_cancel i o r s = (Ok Cancelled, s') →
  let key := ready_key i (operation_direction o) in
  (∃ p, armed_at s key {| pid := p; operation := o; reference := r |})
  ∧ load key (flags (shared s')) = false
  ∧ ∀ w, (take_ready_waiter key (s' <| shared ::= λ h, h <| flags := fl |> <| ready := q |> |>)).1
         ≠ Ok (Notify w).
Proof.
  intros Hwf Hc key. destruct (wp_run_ok _ _ _ _ _ _ (table_cancel_run i o r s Hwf) Hc) as [Hwf' Hcan].
  destruct (Hcan eq_refl) as (Hp & Hl & Hno). split_and!; [exact Hp|exact Hl|]. intros w Hn.
  set (s1 := set_field shared _ s') in Hn.
  assert (Hwf1 : table_wf s1) by (destruct Hwf'; by constructor).
  pose proof (take_ready_run key s1 Hwf1) as Hw. unfold wp in Hw.
  destruct (take_ready_waiter key s1) as [[[]| |] ?]; simplify_eq/=.
  destruct Hw as [Hw _]. by apply (Hno w).
Qed.

(** ** Concrete runs *)
Definition sample_state : TableState := {|
  table := table_new 2 4;
  shared := {| flags := ∅; ready := queue_new 4; next_socket_id := 1; next_generation := 1 |} |}.
Definition sample_socket : SocketIdentity := {| id := 1; generation := 1 |}.
Definition sample_registration : WaiterRegistration := {|
  reg_identity := sample_socket; reg_expected_kind := Tcp; reg_direction := Read;
  reg_pid := 7; reg_operation := Recv; reg_reference := 9 |}.
(** One TCP socket, with a reader armed and woken. *)
Definition sample_armed : TableState :=
  (run_op (OpWake (waker (ready_key sample_socket Read) (ready_key sample_socket Read)))
    (run_op (OpInstall sample_registration) (run_op (OpInsert Tcp 0) sample_state).2).2).2.

Lemma sample_state_wf : table_wf sample_state.
Proof. constructor; try (vm_compute; (done || discriminate || intuition discriminate)). Qed.

Lemma run_op_wf op s : table_wf s → table_wf (run_op op s).2.
Proof.
  intros Hwf. pose proof (run_op_spec op s Hwf) as Hop. unfold op_spec, wp in Hop.
  destruct (run_op op s) as [[| |] s']; [apply Hop|apply Hop|done].
Qed.

Lemma sample_armed_wf : table_wf sample_armed.
Proof. apply run_op_wf, run_op_wf, run_op_wf, sample_state_wf. Qed.

Lemma table_conserves_waiters_witness :
  ∃ armed released s',
    run_ops [OpInsert Tcp 0; OpInstall sample_registration; OpClose sample_socket] sample_state
    = Some (armed, released, s')
    ∧ table_wf s'
    ∧ table_held (table sample_state) ++ armed ≡ₚ table_held (table s') ++ released.
Proof. apply table_conserves_waiters, sample_state_wf. Defined.

Lemma closed_identity_stays_invalid_witness :
  ∃ armed released s2,
    run_ops [OpInsert Udp 0] (table_close sample_socket sample_armed).2
    = Some (armed, released, s2)
    ∧ (∀ k, validate (table s2) sample_socket k = Err InvalidSocket)
    ∧ (∀ j s3, table_insert Tcp 0 s2 = (Ok j, s3) → (id sample_socket < id j <= MAX_SOCKET_ID)%N).
Proof.
  apply (closed_identity_stays_invalid [OpInsert Udp 0] sample_socket Tcp 0 sample_armed
    [(Read, waiter_new 7 Recv 9)]).
  - exact sample_armed_wf.
  - vm_compute. reflexivity.
Defined.

Lemma install_waiter_outcome_witness :
  let s := (run_op (OpInsert Tcp 0) sample_state).2 in
  let '(res, s') := install_waiter sample_registration s in
  res = Ok Armed ∧ armed_at s' (ready_key sample_socket Read) (waiter_new 7 Recv 9).
Proof.
  intros s. pose proof (install_waiter_outcome sample_registration s
    (run_op_wf _ _ sample_state_wf) ltac:(vm_compute; discriminate)) as Ho.
  destruct (install_waiter sample_registration s) as [res s'].
  assert (res = Ok Armed) as -> by (rewrite (proj1 Ho); vm_compute; reflexivity).
  split; [reflexivity|exact (proj1 (proj2 Ho))].
Defined.

Lemma take_ready_waiter_outcome_witness :
  let s' := (take_ready_waiter (ready_key sample_socket Read) sample_armed).2 in
  (take_ready_waiter (ready_key sample_socket Read) sample_armed).1 = Ok (Notify (waiter_new 7 Recv 9))
  ∧ ∀ w', ¬ armed_at s' (ready_key sample_socket Read) w'.
Proof.
  pose proof (take_ready_waiter_outcome (ready_key sample_socket Read) sample_armed sample_armed_wf) as H.
  assert ((take_ready_waiter (ready_key sample_socket Read) sample_armed).1
    = Ok (Notify (waiter_new 7 Recv 9))) as Hr by (vm_compute; reflexivity).
  destruct (take_ready_waiter _ _) as [res s']. simpl in *. subst res. split; [done|apply H].
Defined.

Lemma cancelled_waiter_is_never_notified_witness :
  let s' := (table_cancel sample_socket Recv 9 sample_armed).2 in
  load (ready_key sample_socket Read) (flags (shared s')) = false
  ∧ ∀ w, (take_ready_waiter (ready_key sample_socket Read)
           (s' <| shared ::= λ h, h <| flags := {[ready_key sample_socket Read := true]} |>
                                    <| ready := queue_new 4 |> |>)).1 ≠ Ok (Notify w).
Proof.
  intros s'.
  refine (proj2 (cancelled_waiter_is_never_notified sample_socket Recv 9 sample_armed s'
    {[ready_key sample_socket Read := true]} (queue_new 4) sample_armed_wf _)).
  vm_compute. reflexivity.
Defined.
