(* ===== verification/Device.v ===== *)
(** * The device between smoltcp and the link

    Models [device.rs] of [smolnet_core]: the receive and transmit queues, the
    egress credit the link grants, and the two implementations of smoltcp's
    [Device] trait. What smoltcp does with a device during one poll is a
    [DevProg]: a finite sequence of requests for tokens, of frames written
    through them and of wakers called, each depending on the answers so far.
    The queue of a packet is a list of bytes; what an uninitialised transmit
    buffer holds before smoltcp writes the frame is not modelled. *)
From S2P Require Import Prelude Waiter.

Definition ZEROED_PREFIX : usize := 64.

Record EgressCredit := { packets : usize; credit_bytes : usize }.
#[export] Instance eta_EgressCredit : Eta EgressCredit := λ c,
  {| packets := packets c; credit_bytes := credit_bytes c |}.

Record BeamDevice := {
  mtu : usize;
  receive : list bytes;
  receive_limit : usize;
  transmit : list bytes;
  transmit_bytes : usize;
  transmit_limit : usize;
  credit : option EgressCredit
}.
#[export] Instance eta_BeamDevice : Eta BeamDevice := λ d,
  {| mtu := mtu d; receive := receive d; receive_limit := receive_limit d;
     transmit := transmit d; transmit_bytes := transmit_bytes d;
     transmit_limit := transmit_limit d; credit := credit d |}.

Definition device_new (mtu receive_limit : usize) (credit : option EgressCredit) : BeamDevice := {|
  mtu := mtu; receive := []; receive_limit := receive_limit; transmit := [];
  transmit_bytes := 0; transmit_limit := 0; credit := credit |}.

Definition grant_egress (ps bs : usize) (d : BeamDevice) : bool * BeamDevice :=
  match credit d with
  | None => (false, d)
  | Some c =>
      (true, d <| credit := Some {| packets := saturating_add (packets c) ps;
                                    credit_bytes := saturating_add (credit_bytes c) bs |} |>)
  end.

Definition device_begin_call (limit : usize) (d : BeamDevice) : BeamDevice :=
  d <| transmit_limit := limit |>.

Definition receive_fits (ps : usize) (d : BeamDevice) : bool :=
  match checked_add (llen (receive d)) ps with
  | Some queued => (queued <=? receive_limit d)%N
  | None => false
  end.

Definition enqueue_receive_batch (ps : list bytes) (d : BeamDevice) : outcome unit unit * BeamDevice :=
  if negb (receive_fits (llen ps) d) then (Err tt, d)
  else (Ok tt, d <| receive ::= λ q, q ++ ps |>).

Definition take_receive (d : BeamDevice) : option bytes * BeamDevice :=
  match receive d with
  | [] => (None, d)
  | p :: q => (Some p, d <| receive := q |>)
  end.

Definition return_receive (p : bytes) (d : BeamDevice) : BeamDevice :=
  d <| receive ::= cons p |>.

Definition transmit_credit_available (d : BeamDevice) : bool :=
  match credit d with
  | None => true
  | Some c => (llen (transmit d) <? packets c)%N && (transmit_bytes d <? credit_bytes c)%N
  end.

Definition transmit_ready (d : BeamDevice) : bool :=
  match transmit d with
  | [] => false
  | p :: _ =>
      match credit d with
      | None => true
      | Some c => (0 <? packets c)%N && (llen p <=? credit_bytes c)%N
      end
  end.

Definition has_receive (d : BeamDevice) : bool :=
  match receive d with [] => false | _ => true end.

Definition can_receive (d : BeamDevice) : bool := (llen (transmit d) <? transmit_limit d)%N.

Definition queued_packets (d : BeamDevice) : usize * usize :=
  (llen (receive d), llen (transmit d)).

Section take_transmit.
(** The state behind [budget.checkpoint()]. *)
Context {B E : Type} (checkpoint : B → bool * B).

(** The [while] loop. It returns what it took, its size and what is left. *)
Fixpoint take_loop (packet_limit byte_limit : usize) (taken : list bytes) (size : usize)
    (queue : list bytes) (b : B) : list bytes * usize * list bytes * B :=
  match queue with
  | [] => (taken, size, queue, b)
  | packet :: queue' =>
      if negb (llen taken <? packet_limit)%N then (taken, size, queue, b)
      else
        match checked_add size (llen packet) with
        | None => (taken, size, queue, b)
        | Some next_bytes =>
            if (byte_limit <? next_bytes)%N then (taken, size, queue, b)
            else
              let '(ok, b) := checkpoint b in
              if negb ok then (taken, size, queue, b)
              else take_loop packet_limit byte_limit (taken ++ [packet]) next_bytes queue' b
        end
  end.

Definition take_limits (packet_limit byte_limit : usize) (d : BeamDevice) : usize * usize :=
  match credit d with
  | Some c => (N.min packet_limit (packets c), N.min byte_limit (credit_bytes c))
  | None => (packet_limit, byte_limit)
  end.

Definition take_transmit (packet_limit byte_limit : usize) : M (BeamDevice * B) E (list bytes) :=
  s ← gets (λ s, s);
  let '(d, b) := s in
  let '(packet_limit, byte_limit) := take_limits packet_limit byte_limit d in
  let '(taken, size, queue, b) := take_loop packet_limit byte_limit [] 0%N (transmit d) b in
  left ← expect (checked_sub (transmit_bytes d) size);
  c ← match credit d with
      | None => mret None
      | Some c =>
          ps ← expect (checked_sub (packets c) (llen taken));
          bs ← expect (checked_sub (credit_bytes c) size);
          mret (Some {| packets := ps; credit_bytes := bs |})
      end;
  modify (λ _, (d <| transmit := queue |> <| transmit_bytes := left |> <| credit := c |>, b)) ;;
  mret taken.
End take_transmit.

Definition discard_one {E} : M BeamDevice E bool :=
  d ← gets (λ d, d);
  match receive d with
  | _ :: q => modify (λ d, d <| receive := q |>) ;; mret true
  | [] =>
      match transmit d with
      | packet :: q =>
          left ← expect (checked_sub (transmit_bytes d) (llen packet));
          modify (λ d, d <| transmit := q |> <| transmit_bytes := left |>) ;;
          mret true
      | [] => mret false
      end
  end.

Definition zeroed (size : usize) : bytes := replicate (N.to_nat size) Byte.x00.

Definition test_fill_transmit (count size : usize) (d : BeamDevice) : outcome unit unit * BeamDevice :=
  match transmit d with
  | _ :: _ => (Err tt, d)
  | [] => (Ok tt, d <| transmit := replicate (N.to_nat count) (zeroed size) |>
                    <| transmit_bytes := (count * size)%N |>)
  end.

(** ** smoltcp's [Device] trait

    [dev_receive] returns the packet of the receive token; the transmit token
    that comes with it, and the one [dev_transmit] gives, are consumed by
    [tx_consume] with the frame written through them, or dropped. *)
Class Device (D : Type) := {
  dev_receive : D → option (bytes * D);
  dev_transmit : D → bool;
  tx_consume : bytes → D → D
}.

(** [BeamTxToken::consume]. *)
Definition beam_tx_consume (frame : bytes) (d : BeamDevice) : BeamDevice :=
  d <| transmit_bytes ::= λ n, (n + llen frame)%N |> <| transmit ::= λ q, q ++ [frame] |>.

#[export] Instance BeamDevice_device : Device BeamDevice := {|
  dev_receive d :=
    if (transmit_limit d <=? llen (transmit d))%N then None
    else match receive d with
         | [] => None
         | p :: q => Some (p, d <| receive := q |>)
         end;
  dev_transmit d := (llen (transmit d) <? transmit_limit d)%N && transmit_credit_available d;
  tx_consume := beam_tx_consume
|}.

Record ReceiveOne := { one_device : BeamDevice; one_packet : option bytes }.
#[export] Instance eta_ReceiveOne : Eta ReceiveOne := λ r,
  {| one_device := one_device r; one_packet := one_packet r |}.

Definition receive_one_new (d : BeamDevice) (p : bytes) : ReceiveOne :=
  {| one_device := d; one_packet := Some p |}.
Definition received (r : ReceiveOne) : bool := bool_decide (one_packet r = None).

#[export] Instance ReceiveOne_device : Device ReceiveOne := {|
  dev_receive r :=
    if negb (can_receive (one_device r)) then None
    else match one_packet r with
         | None => None
         | Some p => Some (p, r <| one_packet := None |>)
         end;
  dev_transmit r := dev_transmit (one_device r);
  tx_consume frame r := r <| one_device ::= beam_tx_consume frame |>
|}.

(** ** What smoltcp does with a device in one poll

    [DPanic] is a poll that panics at this point. *)
Inductive DevProg (A : Type) :=
| DRet (a : A)
| DReceive (none : DevProg A) (reply : bytes → option bytes) (some : bytes → DevProg A)
| DTransmit (none : DevProg A) (frame : option bytes) (some : DevProg A)
| DWake (w : Waker) (next : DevProg A)
| DPanic.
Arguments DRet {A} _.
Arguments DReceive {A} _ _ _.
Arguments DTransmit {A} _ _ _.
Arguments DWake {A} _ _.
Arguments DPanic {A}.

Record DevWorld (D : Type) := { dw_device : D; dw_flags : Flags; dw_ready : ReadyState }.
Arguments Build_DevWorld {D} _ _ _.
Arguments dw_device {D} _.
Arguments dw_flags {D} _.
Arguments dw_ready {D} _.

Section run_prog.
Context {D : Type} `{Device D}.

Definition consume_token (frame : option bytes) (d : D) : D :=
  match frame with Some f => tx_consume f d | None => d end.

(** The result, if the poll does not panic, and the world it leaves. *)
Fixpoint run_prog {A} (p : DevProg A) (w : DevWorld D) : option A * DevWorld D :=
  match p with
  | DRet a => (Some a, w)
  | DReceive none reply some =>
      match dev_receive (dw_device w) with
      | None => run_prog none w
      | Some (packet, d) =>
          run_prog (some packet)
            (Build_DevWorld (consume_token (reply packet) d) (dw_flags w) (dw_ready w))
      end
  | DTransmit none frame some =>
      if dev_transmit (dw_device w) then
        run_prog some (Build_DevWorld (consume_token frame (dw_device w)) (dw_flags w) (dw_ready w))
      else run_prog none w
  | DWake wk next =>
      let '(h, q) := mark_ready wk (dw_flags w) (dw_ready w) in
      run_prog next (Build_DevWorld (dw_device w) h q)
  | DPanic => (None, w)
  end.
End run_prog.

(** ** Histories of a device

    [DevOp]s are what the stack does to its device; a history returns the
    packets handed to the link, and the credit it granted. *)
Inductive DevOp :=
| DevGrant (ps bs : usize)
| DevBegin (limit : usize)
| DevEnqueue (ps : list bytes)
| DevTakeReceive
| DevReturn (p : bytes)
| DevTake (packet_limit byte_limit : usize)
| DevPoll (p : DevProg unit)
| DevPollOne (packet : bytes) (p : DevProg unit)
| DevDiscard.

Section dev_history.
Context {B : Type} (checkpoint : B → bool * B).

Definition on_device (f : BeamDevice → BeamDevice) (w : DevWorld BeamDevice) : DevWorld BeamDevice :=
  Build_DevWorld (f (dw_device w)) (dw_flags w) (dw_ready w).

(** One operation; [None] if it panicked. A poll that panics leaves the device
    as it is at that point. *)
Definition run_dev_op (op : DevOp) (w : DevWorld BeamDevice) (b : B) :
    option (list bytes * DevWorld BeamDevice * B) :=
  match op with
  | DevGrant ps bs => Some ([], on_device (λ d, (grant_egress ps bs d).2) w, b)
  | DevBegin limit => Some ([], on_device (device_begin_call limit) w, b)
  | DevEnqueue ps => Some ([], on_device (λ d, (enqueue_receive_batch ps d).2) w, b)
  | DevTakeReceive => Some ([], on_device (λ d, (take_receive d).2) w, b)
  | DevReturn p => Some ([], on_device (return_receive p) w, b)
  | DevTake pl bl =>
      match take_transmit (E:=Empty_set) checkpoint pl bl (dw_device w, b) with
      | (Ok taken, (d, b)) => Some (taken, on_device (λ _, d) w, b)
      | _ => None
      end
  | DevPoll p => Some ([], (run_prog p w).2, b)
  | DevPollOne packet p =>
      let '(_, w') := run_prog p (Build_DevWorld (receive_one_new (dw_device w) packet)
                                    (dw_flags w) (dw_ready w)) in
      Some ([], Build_DevWorld (one_device (dw_device w')) (dw_flags w') (dw_ready w'), b)
  | DevDiscard =>
      match discard_one (E:=Empty_set) (dw_device w) with
      | (Ok _, d) => Some ([], on_device (λ _, d) w, b)
      | _ => None
      end
  end.

Fixpoint run_dev_ops (ops : list DevOp) (w : DevWorld BeamDevice) (b : B) :
    option (list bytes * DevWorld BeamDevice * B) :=
  match ops with
  | [] => Some ([], w, b)
  | op :: ops =>
      '(taken, w, b) ← run_dev_op op w b;
      '(taken', w, b) ← run_dev_ops ops w b;
      Some (taken ++ taken', w, b)
  end.
End dev_history.

Definition granted_packets (ops : list DevOp) : N :=
  sum_N ((λ op, match op with DevGrant ps _ => ps | _ => 0%N end) <$> ops).
Definition granted_bytes (ops : list DevOp) : N :=
  sum_N ((λ op, match op with DevGrant _ bs => bs | _ => 0%N end) <$> ops).

(** ** Theorems *)
Definition frame_total (q : list bytes) : N := sum_N (llen <$> q).

(** The invariant of a device: the byte count is that of the queue. *)
Definition device_wf (d : BeamDevice) : Prop := transmit_bytes d = frame_total (transmit d).

Lemma frame_total_app q1 q2 : frame_total (q1 ++ q2) = (frame_total q1 + frame_total q2)%N.
Proof. unfold frame_total. by rewrite fmap_app, sum_N_app. Qed.

Lemma frame_total_cons p q : frame_total (p :: q) = (llen p + frame_total q)%N.
Proof. done. Qed.

(** What smoltcp may rely on of a device of this crate, and what it may do to
    the device through it: the transmit side is that of a [BeamDevice]. *)
Class LawfulDevice (D : Type) `{Device D} := {
  dev_beam : D → BeamDevice;
  dev_receive_law : ∀ d p d', dev_receive d = Some (p, d') →
    can_receive (dev_beam d) = true
    ∧ transmit (dev_beam d') = transmit (dev_beam d)
    ∧ transmit_bytes (dev_beam d') = transmit_bytes (dev_beam d)
    ∧ transmit_limit (dev_beam d') = transmit_limit (dev_beam d)
    ∧ credit (dev_beam d') = credit (dev_beam d);
  dev_transmit_law : ∀ d, dev_transmit d = true →
    can_receive (dev_beam d) = true ∧ transmit_credit_available (dev_beam d) = true;
  tx_consume_law : ∀ f d, dev_beam (tx_consume f d) = beam_tx_consume f (dev_beam d)
}.

#[export] Program Instance BeamDevice_lawful : LawfulDevice BeamDevice := {| dev_beam d := d |}.
Next Obligation.
  simpl. intros d p d' Hr. repeat case_match; simplify_eq/=. split_and!; try done.
  unfold can_receive. lia.
Qed.
Next Obligation. simpl. intros d [? ?]%andb_true_iff. done. Qed.
Next Obligation. done. Qed.

#[export] Program Instance ReceiveOne_lawful : LawfulDevice ReceiveOne := {| dev_beam := one_device |}.
Next Obligation.
  simpl. intros d p d' Hr. destruct (can_receive (one_device d)) eqn:Hc; [|done].
  simpl in Hr. case_match; simplify_eq/=. done.
Qed.
Next Obligation. simpl. intros d [? ?]%andb_true_iff. done. Qed.
Next Obligation. done. Qed.

(** The effect of any poll on the transmit side of a device. *)
Record poll_effect (d d' : BeamDevice) : Prop := {
  pe_frames : ∃ fs, transmit d' = transmit d ++ fs;
  pe_limit : transmit_limit d' = transmit_limit d;
  pe_credit : credit d' = credit d;
  pe_wf : device_wf d → device_wf d';
  pe_bound : (llen (transmit d') <= N.max (llen (transmit d)) (transmit_limit d))%N
}.

#[export] Instance poll_effect_refl : Reflexive poll_effect.
Proof. intros d. constructor; try done; [|lia]. exists []. by rewrite app_nil_r. Qed.

#[export] Instance poll_effect_trans : Transitive poll_effect.
Proof.
  intros d1 d2 d3 [[f1 H1] ? ? ? ?] [[f2 H2] ? ? ? ?]. constructor; try congruence; auto; [|lia].
  exists (f1 ++ f2). by rewrite H2, H1, app_assoc.
Qed.

Lemma poll_effect_same d d' :
  transmit d' = transmit d → transmit_bytes d' = transmit_bytes d →
  transmit_limit d' = transmit_limit d → credit d' = credit d → poll_effect d d'.
Proof.
  intros H1 H2 H3 H4. constructor; try done.
  - exists []. by rewrite app_nil_r.
  - unfold device_wf. by rewrite H1, H2.
  - rewrite H1. lia.
Qed.

Lemma poll_effect_consume f d : can_receive d = true → poll_effect d (beam_tx_consume f d).
Proof.
  unfold can_receive. intros Hc. constructor; try done.
  - by exists [f].
  - unfold device_wf. simpl. intros ->. rewrite frame_total_app. unfold frame_total. simpl. lia.
  - simpl. unfold llen in *. rewrite length_app. simpl. lia.
Qed.

Section lawful.
Context {D : Type} `{LawfulDevice D}.

Lemma consume_token_effect frame d :
  can_receive (dev_beam d) = true → poll_effect (dev_beam d) (dev_beam (consume_token frame d)).
Proof.
  intros Hc. destruct frame as [f|]; simpl; [|done]. rewrite tx_consume_law.
  by apply poll_effect_consume.
Qed.

Lemma run_prog_effect {A} (p : DevProg A) (w : DevWorld D) :
  poll_effect (dev_beam (dw_device w)) (dev_beam (dw_device (run_prog p w).2)).
Proof.
  revert w. induction p as [a|none IH1 reply some IH2|none IH1 frame some IH2|wk next IH|]; intros w; simpl.
  - done.
  - destruct (dev_receive (dw_device w)) as [[packet d]|] eqn:Hr; [|apply IH1].
    apply dev_receive_law in Hr as (Hc & Ht & Hb & Hl & Hcr). etrans; [|apply IH2]. simpl.
    etrans; [by apply (poll_effect_same _ (dev_beam d))|]. apply consume_token_effect.
    unfold can_receive in *. by rewrite Ht, Hl.
  - destruct (dev_transmit (dw_device w)) eqn:Ht; [|apply IH1].
    apply dev_transmit_law in Ht as [Hc _]. etrans; [|apply IH2]. by apply consume_token_effect.
  - destruct (mark_ready _ _ _) as [h q]. exact (IH (Build_DevWorld (dw_device w) h q)).
  - done.
Qed.
End lawful.

(** C31. Whatever the engine does with the device during one poll, directly or through a
    borrowed packet, frames are only appended, never beyond the limits of the call, and the
    device stays well formed. *)
Theorem poll_respects_transmit_limit {A} (p : DevProg A) (d : BeamDevice) (packet : bytes) h q :
  device_wf d →
  let queued := dw_device (run_prog p (Build_DevWorld d h q)).2 in
  let borrowed := one_device (dw_device (run_prog p (Build_DevWorld (receive_one_new d packet) h q)).2) in
  poll_effect d queued ∧ device_wf queued ∧ poll_effect d borrowed ∧ device_wf borrowed.
Proof.
  intros Hwf queued borrowed.
  pose proof (run_prog_effect p (Build_DevWorld d h q)) as H1.
  pose proof (run_prog_effect p (Build_DevWorld (receive_one_new d packet) h q)) as H2.
  split_and!; [exact H1|by apply (pe_wf _ _ H1)|exact H2|by apply (pe_wf _ _ H2)].
Qed.

(** A poll that takes no packet in, as [poll_egress] does. *)
Fixpoint sends_only {A} (p : DevProg A) : Prop :=
  match p with
  | DRet _ => True
  | DReceive _ _ _ => False
  | DTransmit none _ some => sends_only none ∧ sends_only some
  | DWake _ next => sends_only next
  | DPanic => True
  end.

(** C32. A poll that only transmits never queues more frames than the credit has packets, queues
    nothing once the queued bytes use up the byte credit, and leaves the receive queue
    alone. *)
Theorem egress_stays_within_credit {A} (p : DevProg A) (w : DevWorld BeamDevice) c :
  sends_only p → credit (dw_device w) = Some c →
  let d := dw_device w in
  let d' := dw_device (run_prog p w).2 in
  (llen (transmit d') <= N.max (llen (transmit d)) (packets c))%N
  ∧ (transmit_bytes d < credit_bytes c ∨ transmit d' = transmit d)%N
  ∧ receive d' = receive d.
Proof.
  revert w. induction p as [a|none IH1 reply some IH2|none IH1 frame some IH2|wk next IH|];
    intros w Hs Hc; simpl in *.
  - split_and!; [lia|by right|done].
  - done.
  - destruct Hs as [Hn Hsm]. destruct (_ && transmit_credit_available _) eqn:Ht; [|by apply IH1].
    apply andb_true_iff in Ht as [Hlim Hcr]. unfold transmit_credit_available in Hcr. rewrite Hc in Hcr.
    destruct (IH2 (Build_DevWorld (consume_token frame (dw_device w)) (dw_flags w) (dw_ready w)) Hsm)
      as (H1 & H2 & H3); [by destruct frame|].
    split_and!; [|left; lia|rewrite H3; by destruct frame].
    etrans; [exact H1|]. destruct frame; simpl; [|lia]. unfold llen in *. rewrite length_app. simpl. lia.
  - destruct (mark_ready _ _ _) as [h q]. by apply (IH (Build_DevWorld (dw_device w) h q)).
  - split_and!; [lia|by right|done].
Qed.

Section take_spec.
Context {B : Type} (checkpoint : B → bool * B).

(** Why a take stops before a packet when the budget does not stop it. *)
Definition take_full (pl bl : usize) (taken : list bytes) (size : usize) (queue : list bytes) : Prop :=
  match queue with
  | [] => True
  | p :: _ => llen taken = pl ∨ (bl < size + llen p)%N ∨ (usize_max < size + llen p)%N
  end.

Definition take_post (pl bl : usize) (taken : list bytes) (size : usize) (queue taken' : list bytes)
    (size' : usize) (queue' : list bytes) : Prop :=
  (∃ more, taken' = taken ++ more ∧ queue = more ++ queue' ∧ size' = (size + frame_total more)%N)
  ∧ (llen taken' <= pl)%N ∧ (size' <= bl)%N
  ∧ ((∀ b, (checkpoint b).1 = true) → take_full pl bl taken' size' queue').

Lemma take_stop pl bl taken size queue :
  (llen taken <= pl)%N → (size <= bl)%N →
  ((∀ b, (checkpoint b).1 = true) → take_full pl bl taken size queue) →
  take_post pl bl taken size queue taken size queue.
Proof.
  intros Hn Hs Hf. split_and!; try done. exists []. rewrite app_nil_r. unfold frame_total. simpl.
  split_and!; done || lia.
Qed.

Lemma take_loop_spec pl bl taken size queue b taken' size' queue' b' :
  take_loop checkpoint pl bl taken size queue b = (taken', size', queue', b') →
  (llen taken <= pl)%N → (size <= bl)%N →
  take_post pl bl taken size queue taken' size' queue'.
Proof.
  revert taken size b. induction queue as [|p queue IH]; intros taken size b Hl Hn Hs; simpl in Hl.
  { simplify_eq. by apply take_stop. }
  destruct (llen taken <? pl)%N eqn:Hpl; simpl in Hl; cycle 1.
  { simplify_eq. apply take_stop; try done. intros _. left. lia. }
  unfold checked_add in Hl. destruct (size + llen p <=? usize_max)%N eqn:Hov; cycle 1.
  { simplify_eq. apply take_stop; try done. intros _. right; right. lia. }
  destruct (bl <? size + llen p)%N eqn:Hbl.
  { simplify_eq. apply take_stop; try done. intros _. right; left. lia. }
  destruct (checkpoint b) as [[] b1] eqn:Hb; simpl in Hl; cycle 1.
  { simplify_eq. apply take_stop; try done. intros Hall. specialize (Hall b). by rewrite Hb in Hall. }
  apply IH in Hl as ((more & -> & -> & ->) & ? & ? & ?);
    [|unfold llen in *; rewrite length_app; simpl; lia|lia].
  split_and!; try done. exists (p :: more). rewrite <-app_assoc. split_and!; [done..|].
  rewrite frame_total_cons. lia.
Qed.

(** What taking packets does: it hands over a prefix of the queue, inside the
    call's limits and the credit, and lowers the credit by exactly that. *)
Lemma take_transmit_wp {E} pl bl d b :
  device_wf d →
  wp (E:=E) (take_transmit checkpoint pl bl)
    (λ taken '(d', _),
      transmit d = taken ++ transmit d' ∧ device_wf d'
      ∧ (llen taken <= pl ∧ frame_total taken <= bl)%N
      ∧ d' = d <| transmit := transmit d' |> <| transmit_bytes := transmit_bytes d' |>
               <| credit := credit d' |>
      ∧ match credit d with
        | None => credit d' = None
        | Some c => ∃ c', credit d' = Some c'
            ∧ (packets c = packets c' + llen taken)%N
            ∧ (credit_bytes c = credit_bytes c' + frame_total taken)%N
        end
      ∧ ((∀ b, (checkpoint b).1 = true) →
          let '(pl, bl) := take_limits pl bl d in
          take_full pl bl taken (frame_total taken) (transmit d')))
    (λ _ _, False) (d, b).
Proof.
  intros Hwf. unfold take_transmit. wp_steps.
  assert (Hlim : (take_limits pl bl d).1 = match credit d with
    Some c => N.min pl (packets c) | None => pl end
    ∧ (take_limits pl bl d).2 = match credit d with
    Some c => N.min bl (credit_bytes c) | None => bl end) by (unfold take_limits; by destruct (credit d)).
  destruct (take_limits pl bl d) as [pl' bl']. simpl in Hlim. destruct Hlim as [Hp Hb].
  destruct (take_loop _ _ _ _ _ _ _) as [[[taken size] queue] b'] eqn:Hl.
  apply take_loop_spec in Hl as ((more & Hm & Hq & Hsz) & Hpl & Hbl & Hfull); [|unfold llen; simpl; lia|lia].
  simpl in Hm. subst more size. rewrite N.add_0_l in *. unfold device_wf in Hwf.
  rewrite Hq, frame_total_app in Hwf.
  assert (Hleft : checked_sub (transmit_bytes d) (frame_total taken) = Some (frame_total queue)).
  { unfold checked_sub. rewrite Hwf, (proj2 (N.leb_le _ _)) by lia. f_equal. lia. }
  wp_steps. apply wp_expect. eexists. split; [exact Hleft|]. wp_steps.
  - apply wp_expect. exists (packets e - llen taken)%N. unfold checked_sub.
    rewrite (proj2 (N.leb_le _ _)) by lia. split; [done|]. wp_steps.
    apply wp_expect. exists (credit_bytes e - frame_total taken)%N. unfold checked_sub.
    rewrite (proj2 (N.leb_le _ _)) by lia. split; [done|]. wp_steps.
    simpl. split_and!; try done; try lia. eexists. split_and!; [done|simpl; lia..].
  - simpl. split_and!; done || lia.
Qed.
End take_spec.

(** A packet may follow those taken: the call's limits, the credit and the
    width of the byte count have room for it. *)
Definition takeable (pl bl : usize) (cr : option EgressCredit) (taken : list bytes) (p : bytes) : Prop :=
  let size := (frame_total taken + llen p)%N in
  (llen taken < pl ∧ size <= bl ∧ size <= usize_max)%N
  ∧ match cr with Some c => (llen taken < packets c ∧ size <= credit_bytes c)%N | None => True end.

Lemma take_full_stops pl bl d taken queue :
  (let '(pl, bl) := take_limits pl bl d in take_full pl bl taken (frame_total taken) queue) →
  match queue with [] => True | p :: _ => ¬ takeable pl bl (credit d) taken p end.
Proof. unfold take_limits, take_full, takeable. destruct queue, (credit d); simpl; [done|done|lia..]. Qed.

(** C17. take_transmit removes a prefix of the transmit queue within the packet and the byte
    limit, takes exactly its packets and bytes off the credit, never opens or closes the
    credit window, and, when the call budget holds out, leaves a packet at the front of the
    queue only if it could not be taken: the packet limit or the packet credit is used up,
    or its bytes exceed what is left of the byte limit or of the byte credit. *)
Theorem take_transmit_spec {B} (checkpoint : B → bool * B) pl bl d b :
  device_wf d →
  ∃ taken d' b',
    take_transmit (E:=Empty_set) checkpoint pl bl (d, b) = (Ok taken, (d', b'))
    ∧ transmit d = taken ++ transmit d'
    ∧ (llen taken <= pl ∧ frame_total taken <= bl)%N
    ∧ transmit_credit_available d' = transmit_credit_available d
    ∧ match credit d with
      | None => credit d' = None
      | Some c => ∃ c', credit d' = Some c'
          ∧ (packets c = packets c' + llen taken ∧ credit_bytes c = credit_bytes c' + frame_total taken)%N
      end
    ∧ ((∀ b, (checkpoint b).1 = true) →
        match transmit d' with [] => True | p :: _ => ¬ takeable pl bl (credit d) taken p end).
Proof.
  intros Hwf. pose proof (take_transmit_wp (E:=Empty_set) checkpoint pl bl d b Hwf) as Hw. unfold wp in Hw.
  destruct (take_transmit checkpoint pl bl (d, b)) as [[taken|[]|] [d' b']]; [|done].
  destruct Hw as (Hq & Hwf' & Hlim & Hd & Hcr & Hfull). exists taken, d', b'.
  split_and!; try done; [apply Hlim|apply Hlim| |intros Hall; by apply take_full_stops, Hfull].
  unfold transmit_credit_available. rewrite Hwf', Hwf, Hq.
  destruct (credit d) as [c|]; [destruct Hcr as (c' & -> & Hp & Hb)|by rewrite Hcr].
  rewrite frame_total_app. unfold llen in *. rewrite length_app.
  destruct (N.ltb_spec (N.of_nat (length (transmit d'))) (packets c'));
    destruct (N.ltb_spec (frame_total (transmit d')) (credit_bytes c')); lia.
Qed.

Lemma discard_one_wp {E} d :
  device_wf d →
  wp (E:=E) discard_one
    (λ more d', device_wf d' ∧ credit d' = credit d
      ∧ (more = true → llen (receive d') + llen (transmit d') + 1
                       = llen (receive d) + llen (transmit d))%N
      ∧ (more = false → receive d = [] ∧ transmit d = [] ∧ d' = d)
      ∧ ∃ n, receive d' = drop n (receive d))
    (λ _ _, False) d.
Proof.
  unfold device_wf. intros Hwf. unfold discard_one. wp_steps.
  destruct (receive d) as [|p q] eqn:Hr; [destruct (transmit d) as [|p q] eqn:Ht|].
  - wp_steps. rewrite ?Ht. split_and!; try done. by exists 0.
  - rewrite frame_total_cons in Hwf. wp_steps. apply wp_expect. exists (frame_total q).
    unfold checked_sub. rewrite Hwf, (proj2 (N.leb_le _ _)) by lia.
    split; [f_equal; lia|]. wp_steps. simpl. split_and!; try done; [|by exists 0; rewrite Hr].
    intros _. rewrite Hr. unfold llen. simpl. lia.
  - wp_steps. simpl. split_and!; try done; [|by exists 1]. intros _. unfold llen. simpl. lia.
Qed.

(** The credit left, as numbers; a device without credit has none to lose. *)
Definition credit_left (d : BeamDevice) : N * N :=
  match credit d with Some c => (packets c, credit_bytes c) | None => (0, 0)%N end.

Lemma run_dev_op_credit {B} (checkpoint : B → bool * B) op w b :
  device_wf (dw_device w) → is_Some (credit (dw_device w)) →
  ∃ taken w' b', run_dev_op checkpoint op w b = Some (taken, w', b')
    ∧ device_wf (dw_device w') ∧ is_Some (credit (dw_device w'))
    ∧ (llen taken + (credit_left (dw_device w')).1
       <= (credit_left (dw_device w)).1 + granted_packets [op])%N
    ∧ (frame_total taken + (credit_left (dw_device w')).2
       <= (credit_left (dw_device w)).2 + granted_bytes [op])%N.
Proof.
  intros Hwf [c Hc].
  assert (Hsame : ∀ w', device_wf (dw_device w') → credit (dw_device w') = Some c →
    device_wf (dw_device w') ∧ is_Some (credit (dw_device w'))
    ∧ (llen (@nil bytes) + (credit_left (dw_device w')).1
       <= (credit_left (dw_device w)).1 + granted_packets [op])%N
    ∧ (frame_total [] + (credit_left (dw_device w')).2
       <= (credit_left (dw_device w)).2 + granted_bytes [op])%N).
  { intros w' Hwf' Hc'. unfold credit_left. rewrite Hc, Hc'. split_and!; [done|by eexists|..];
      unfold llen, frame_total; simpl; lia. }
  destruct op; simpl.
  - eexists _, _, _. split; [done|]. simpl. unfold grant_egress, credit_left. rewrite Hc. simpl.
    split_and!; [done|by eexists|..]; unfold saturating_add, llen, frame_total, granted_packets,
      granted_bytes; simpl; lia.
  - eexists _, _, _. split; [done|]. by apply Hsame.
  - eexists _, _, _. split; [done|]. unfold enqueue_receive_batch. by apply Hsame; simpl; case_match.
  - eexists _, _, _. split; [done|]. unfold take_receive. by apply Hsame; simpl; case_match.
  - eexists _, _, _. split; [done|]. by apply Hsame.
  - pose proof (take_transmit_wp (E:=Empty_set) checkpoint packet_limit byte_limit _ b Hwf) as Hw.
    unfold wp in Hw. destruct (take_transmit _ _ _ _) as [[taken|[]|] [d' b']]; [|done].
    destruct Hw as (_ & Hwf' & _ & _ & Hcr & _). rewrite Hc in Hcr. destruct Hcr as (c' & Hc' & ? & ?).
    eexists _, _, _. split; [done|]. unfold credit_left. simpl. rewrite Hc', Hc.
    split_and!; [done|by eexists|simpl; lia..].
  - eexists _, _, _. split; [done|]. pose proof (run_prog_effect p w) as He. simpl in He.
    apply Hsame; [by apply (pe_wf _ _ He)|]. by rewrite (pe_credit _ _ He).
  - destruct (run_prog p _) as [a w'] eqn:Hp.
    pose proof (run_prog_effect p (Build_DevWorld (receive_one_new (dw_device w) packet)
      (dw_flags w) (dw_ready w))) as He. rewrite Hp in He. simpl in He.
    eexists _, _, _. split; [done|]. apply Hsame; [by apply (pe_wf _ _ He)|]. simpl. by rewrite (pe_credit _ _ He).
  - pose proof (discard_one_wp (E:=Empty_set) _ Hwf) as Hw. unfold wp in Hw.
    destruct (discard_one (dw_device w)) as [[more|[]|] d']; [|done]. destruct Hw as (? & Hcr & _).
    eexists _, _, _. split; [done|]. apply Hsame; simpl; [done|by rewrite Hcr].
Qed.

(** C16. Over any history of polls, grants and takes on a device with egress credit, the packets
    and bytes handed to the link plus the credit left never exceed the initial credit plus
    what the link granted. *)
Theorem link_is_never_handed_more_than_it_granted {B} (checkpoint : B → bool * B) ops w b :
  device_wf (dw_device w) → is_Some (credit (dw_device w)) →
  ∃ taken w' b', run_dev_ops checkpoint ops w b = Some (taken, w', b')
    ∧ (llen taken + (credit_left (dw_device w')).1
       <= (credit_left (dw_device w)).1 + granted_packets ops)%N
    ∧ (frame_total taken + (credit_left (dw_device w')).2
       <= (credit_left (dw_device w)).2 + granted_bytes ops)%N.
Proof.
  revert w b. induction ops as [|op ops IH]; intros w b Hwf Hc.
  { exists [], w, b. split; [done|]. unfold llen, frame_total. simpl. lia. }
  destruct (run_dev_op_credit checkpoint op w b Hwf Hc) as (taken & w1 & b1 & Hop & Hwf1 & Hc1 & Hp & Hb).
  destruct (IH w1 b1 Hwf1 Hc1) as (taken' & w2 & b2 & Hops & Hp' & Hb'). simpl. rewrite Hop. simpl.
  rewrite Hops. simpl. exists (taken ++ taken'), w2, b2. split; [done|].
  rewrite frame_total_app. unfold llen in *. rewrite length_app.
  unfold granted_packets, granted_bytes in *. simpl in *. unfold fmap in *. lia.
Qed.

(** ** Concrete runs *)
Definition sample_device : BeamDevice :=
  (device_new 1500 4 (Some {| packets := 2; credit_bytes := 5 |}))
    <| transmit := [[Byte.x01; Byte.x02]; [Byte.x03]; [Byte.x04]] |>
    <| transmit_bytes := 4%N |> <| transmit_limit := 4%N |>.
Definition sample_world : DevWorld BeamDevice := Build_DevWorld sample_device ∅ (queue_new 4).

Lemma poll_respects_transmit_limit_witness :
  let p := DReceive (DTransmit (DRet tt) (Some [Byte.x05]) (DRet tt)) (λ x, Some x) (λ _, DRet tt) in
  device_wf (dw_device (run_prog p sample_world).2).
Proof.
  intros p. exact (proj1 (proj2 (poll_respects_transmit_limit p sample_device [] ∅ (queue_new 4) eq_refl))).
Defined.

Lemma egress_stays_within_credit_witness :
  (llen (transmit (dw_device (run_prog (DTransmit (DRet tt) (Some [Byte.x05]) (DRet tt)) sample_world).2))
   <= 3)%N.
Proof.
  exact (proj1 (egress_stays_within_credit (DTransmit (DRet tt) (Some [Byte.x05]) (DRet tt))
    sample_world {| packets := 2; credit_bytes := 5 |} (conj I I) eq_refl)).
Defined.

Lemma take_transmit_spec_witness :
  ∃ taken d' b',
    take_transmit (E:=Empty_set) (λ b : nat, (true, b)) 3 10 (sample_device, 0) = (Ok taken, (d', b'))
    ∧ transmit sample_device = taken ++ transmit d'
    ∧ match transmit d' with [] => True | p :: _ => ¬ takeable 3 10 (credit sample_device) taken p end.
Proof.
  destruct (take_transmit_spec (λ b : nat, (true, b)) 3 10 sample_device 0 eq_refl)
    as (taken & d' & b' & H1 & H2 & _ & _ & _ & H3).
  exists taken, d', b'. exact (conj H1 (conj H2 (H3 (λ _, eq_refl)))).
Defined.

Lemma link_is_never_handed_more_than_it_granted_witness :
  ∃ taken w' b', run_dev_ops (λ b : nat, (true, b)) [DevTake 3 10; DevGrant 1 1; DevTake 3 10] sample_world 0
    = Some (taken, w', b') ∧ (llen taken + (credit_left (dw_device w')).1 <= 3)%N.
Proof.
  destruct (link_is_never_handed_more_than_it_granted (λ b : nat, (true, b))
    [DevTake 3 10; DevGrant 1 1; DevTake 3 10] sample_world 0 eq_refl ltac:(eexists; reflexivity))
    as (taken & w' & b' & H1 & H2 & _).
  exists taken, w', b'. exact (conj H1 H2).
Defined.
