(* ===== verification/Wire.v ===== *)
(** * Addresses and packet headers

    Models what [smolnet_core] uses of the vendored smoltcp's [wire] module:
    IP addresses, endpoints and CIDR blocks, the checked views of IPv4, IPv6,
    IPv6 extension and TCP headers, and the RFC 1071 checksum. An address is
    the list of its octets (4 or 16 of them, [addr_wf]). Reading outside a
    buffer panics. *)
From S2P Require Import Prelude.

Definition octet (b : u8) : N := Byte.to_N b.

(** ** Reading a buffer *)
Section buffers.
Context {E : Type}.

Definition index (data : bytes) (i : usize) : outcome E N :=
  match data !! N.to_nat i with Some b => Ok (octet b) | None => Panic end.

(** [&data[first..last]]. *)
Definition slice (data : bytes) (first last : usize) : outcome E bytes :=
  if (first <=? last)%N && (last <=? llen data)%N
  then Ok (take (N.to_nat (last - first)) (drop (N.to_nat first) data)) else Panic.

(** [NetworkEndian::read_u16] of two bytes at an offset. *)
Definition read_u16 (data : bytes) (i : usize) : outcome E u16 :=
  hi ← index data i; lo ← index data (i + 1); mret (hi * 256 + lo)%N.
End buffers.

(** ** Addresses *)
Inductive IpAddress := Ipv4 (octets : bytes) | Ipv6 (octets : bytes).
#[export] Instance IpAddress_eq_dec : EqDecision IpAddress.
Proof. solve_decision. Defined.

Definition octets (a : IpAddress) : bytes := match a with Ipv4 o | Ipv6 o => o end.

Definition addr_wf (a : IpAddress) : bool :=
  match a with Ipv4 o => (length o =? 4)%nat | Ipv6 o => (length o =? 16)%nat end.

Definition first_octet (o : bytes) : N := match o with b :: _ => octet b | [] => 0%N end.
Definition all_octets (v : N) (o : bytes) : bool := forallb (λ b, (octet b =? v)%N) o.

(** [core::net]'s predicates. *)
Definition is_multicast (a : IpAddress) : bool :=
  match a with
  | Ipv4 o => (224 <=? first_octet o)%N && (first_octet o <=? 239)%N
  | Ipv6 o => (first_octet o =? 255)%N
  end.
Definition is_broadcast (a : IpAddress) : bool :=
  match a with Ipv4 o => all_octets 255 o | Ipv6 _ => false end.
Definition is_unspecified (a : IpAddress) : bool := all_octets 0 (octets a).

(** [x_is_unicast] of either family. *)
Definition is_unicast (a : IpAddress) : bool :=
  match a with
  | Ipv4 _ => negb (is_broadcast a || is_multicast a || is_unspecified a)
  | Ipv6 _ => negb (is_multicast a || is_unspecified a)
  end.

Definition unspecified_v4 : IpAddress := Ipv4 (replicate 4 Byte.x00).
Definition unspecified_v6 : IpAddress := Ipv6 (replicate 16 Byte.x00).

(** [to_bits]: the octets as a number, most significant first. *)
Definition to_bits (o : bytes) : N := foldl (λ acc b, (acc * 256 + octet b)%N) 0%N o.

(** ** CIDR blocks *)
Record Cidr := { cidr_address : IpAddress; prefix_len : N }.
#[export] Instance Cidr_eq_dec : EqDecision Cidr.
Proof. solve_decision. Defined.

(** [Ipv4Cidr::new] and [Ipv6Cidr::new] assert the length. *)
Definition cidr_new {E} (a : IpAddress) (len : N) : outcome E Cidr :=
  match a with
  | Ipv4 _ => if (len <=? 32)%N then Ok {| cidr_address := a; prefix_len := len |} else Panic
  | Ipv6 _ => if (len <=? 128)%N then Ok {| cidr_address := a; prefix_len := len |} else Panic
  end.

(** [Ipv4Cidr::netmask], as a 32-bit number. *)
Definition netmask (len : N) : N :=
  if (len =? 0)%N then 0%N else (N.shiftl 4294967295 (32 - len) mod 4294967296)%N.

(** [Ipv6Address::mask]. *)
Definition mask (o : bytes) (m : N) : list N :=
  let idx := N.to_nat (m / 8) in
  let modulus := (m mod 8)%N in
  (octet <$> take idx o)
  ++ (if (idx <? 16)%nat then
        match drop idx o with
        | part :: _ => [N.land (octet part) (N.lxor 255 (N.shiftr 255 modulus))]
        | [] => []
        end ++ replicate (15 - idx) 0%N
      else []).

Definition contains_addr (c : Cidr) (a : IpAddress) : bool :=
  match cidr_address c, a with
  | Ipv4 net, Ipv4 o =>
      (N.land (to_bits net) (netmask (prefix_len c)) =? N.land (to_bits o) (netmask (prefix_len c)))%N
  | Ipv6 net, Ipv6 o =>
      if (prefix_len c =? 0)%N then true
      else bool_decide (mask net (prefix_len c) = mask o (prefix_len c))
  | _, _ => false
  end.

(** ** Endpoints *)
Record IpEndpoint := { addr : IpAddress; port : u16 }.
#[export] Instance IpEndpoint_eq_dec : EqDecision IpEndpoint.
Proof. solve_decision. Defined.

Record IpListenEndpoint := { listen_addr : option IpAddress; listen_port : u16 }.
#[export] Instance IpListenEndpoint_eq_dec : EqDecision IpListenEndpoint.
Proof. solve_decision. Defined.

Definition is_specified (e : IpListenEndpoint) : bool :=
  bool_decide (is_Some (listen_addr e)) && negb (listen_port e =? 0)%N.

(** ** Checksums

    The sum runs over 16-bit words in native order, taken here as
    little-endian, four bytes a turn, and is converted at the end. *)
Definition propagate_carries (word : u32) : u16 :=
  let sum := (N.shiftr word 16 + N.land word 65535)%N in
  (N.shiftr sum 16 + N.land sum 65535)%N.

Definition ne_word (b0 b1 : u8) : N := (octet b0 + 256 * octet b1)%N.

Fixpoint checksum_accum (data : bytes) (accum : N) : N :=
  match data with
  | b0 :: b1 :: b2 :: b3 :: data =>
      checksum_accum data (accum + ne_word b0 b1 + ne_word b2 b3)%N
  | [b0; b1; b2] => (accum + ne_word b0 b1 + ne_word b2 Byte.x00)%N
  | [b0; b1] => (accum + ne_word b0 b1)%N
  | [b0] => (accum + ne_word b0 Byte.x00)%N
  | [] => accum
  end.

(** [u16::to_be] on a little-endian machine. *)
Definition to_be (w : u16) : u16 := (256 * (w mod 256) + w / 256)%N.

Definition checksum_data (data : bytes) : u16 := to_be (propagate_carries (checksum_accum data 0)).

(** ** Protocol numbers *)
Inductive Protocol :=
| HopByHop | Icmp | Igmp | TcpProtocol | UdpProtocol | Ipv6Route | Ipv6Frag | IpSecEsp
| IpSecAh | Icmpv6 | Ipv6NoNxt | Ipv6Opts | UnknownProtocol (n : N).
#[export] Instance Protocol_eq_dec : EqDecision Protocol.
Proof. solve_decision. Defined.

Definition protocol_from (n : N) : Protocol :=
  match n with
  | 0x00 => HopByHop | 0x01 => Icmp | 0x02 => Igmp | 0x06 => TcpProtocol | 0x11 => UdpProtocol
  | 0x2b => Ipv6Route | 0x2c => Ipv6Frag | 0x32 => IpSecEsp | 0x33 => IpSecAh
  | 0x3a => Icmpv6 | 0x3b => Ipv6NoNxt | 0x3c => Ipv6Opts | n => UnknownProtocol n
  end%N.

(** ** Packet views *)
Module Ipv4Packet.
Section views.
Context {E : Type} (data : bytes).
Definition MINIMUM_IHL_BYTES : N := 20.
Definition header_len : outcome E N := b ← index data 0; mret (N.land b 15 * 4)%N.
Definition total_len : outcome E u16 := read_u16 data 2.
Definition more_frags : outcome E bool := w ← read_u16 data 6; mret (negb (N.land w 8192 =? 0)%N).
(** A shift of a [u16] drops the high bits. *)
Definition frag_offset : outcome E u16 := w ← read_u16 data 6; mret (N.shiftl w 3 mod 65536)%N.
Definition next_header : outcome E Protocol := b ← index data 9; mret (protocol_from b).
Definition src_addr : outcome E IpAddress := o ← slice data 12 16; mret (Ipv4 o).
Definition dst_addr : outcome E IpAddress := o ← slice data 16 20; mret (Ipv4 o).
Definition verify_checksum : outcome E bool :=
  h ← header_len; d ← slice data 0 h; mret (checksum_data d =? 65535)%N.
Definition payload : outcome E bytes := h ← header_len; t ← total_len; slice data h t.
End views.

(** [check_len]; [new_checked] is the buffer itself when it succeeds. *)
Definition check_len (data : bytes) : outcome unit unit :=
  if (llen data <? 20)%N then Err tt
  else
    h ← header_len data;
    t ← total_len data;
    if (llen data <? h)%N then Err tt
    else if (t <? h)%N then Err tt
    else if (llen data <? t)%N then Err tt
    else if (h <? MINIMUM_IHL_BYTES)%N then Err tt
    else Ok tt.
End Ipv4Packet.

Module Ipv6Packet.
Section views.
Context {E : Type} (data : bytes).
Definition payload_len : outcome E u16 := read_u16 data 4.
Definition total_len : outcome E usize := n ← payload_len; mret (40 + n)%N.
Definition next_header : outcome E Protocol := b ← index data 6; mret (protocol_from b).
Definition src_addr : outcome E IpAddress := o ← slice data 8 24; mret (Ipv6 o).
Definition dst_addr : outcome E IpAddress := o ← slice data 24 40; mret (Ipv6 o).
Definition payload : outcome E bytes := t ← total_len; slice data 40 t.
End views.

Definition check_len (data : bytes) : outcome unit unit :=
  if (llen data <? 40)%N then Err tt
  else t ← total_len data; if (llen data <? t)%N then Err tt else Ok tt.
End Ipv6Packet.

Module Ipv6ExtHeader.
Section views.
Context {E : Type} (data : bytes).
Definition next_header : outcome E Protocol := b ← index data 0; mret (protocol_from b).
Definition header_len : outcome E N := index data 1.
End views.

Definition check_len (data : bytes) : outcome unit unit :=
  if (llen data <? 8)%N then Err tt
  else n ← header_len data; if (llen data <? n * 8 + 8)%N then Err tt else Ok tt.
End Ipv6ExtHeader.

Module TcpPacket.
Section views.
Context {E : Type} (data : bytes).
Definition src_port : outcome E u16 := read_u16 data 0.
Definition dst_port : outcome E u16 := read_u16 data 2.
Definition flag (bit : N) : outcome E bool := w ← read_u16 data 12; mret (negb (N.land w bit =? 0)%N).
Definition syn : outcome E bool := flag 2.
Definition rst : outcome E bool := flag 4.
Definition ack : outcome E bool := flag 16.
Definition header_len : outcome E N := w ← read_u16 data 12; mret (N.shiftr w 12 * 4)%N.
End views.

Definition check_len (data : bytes) : outcome unit unit :=
  if (llen data <? 20)%N then Err tt
  else h ← header_len data; if (llen data <? h)%N || (h <? 20)%N then Err tt else Ok tt.
End TcpPacket.

(** ** The checksum against RFC 1071

    The reference adds the big-endian words one by one in one's complement
    arithmetic, an odd last byte being padded with zero. *)
Definition ones_add (a b : N) : N := if (65535 <? a + b)%N then (a + b - 65535)%N else (a + b)%N.
Fixpoint be_words (data : bytes) : list N :=
  match data with
  | hi :: lo :: data => (256 * octet hi + octet lo)%N :: be_words data
  | [hi] => [(256 * octet hi)%N]
  | [] => []
  end.
Definition rfc1071_sum (data : bytes) : N := foldl ones_add 0%N (be_words data).

Lemma octet_bound b : (octet b < 256)%N.
Proof. unfold octet. pose proof (Byte.to_N_bounded b). lia. Qed.

(** The total of the words in either byte order. *)
Fixpoint word_total (data : bytes) : N * N :=
  match data with
  | hi :: lo :: data =>
      let '(n, b) := word_total data in
      (ne_word hi lo + n, 256 * octet hi + octet lo + b)%N
  | [hi] => (octet hi, 256 * octet hi)%N
  | [] => (0, 0)%N
  end.

(** An induction on a list two elements at a time. *)
Lemma list_ind2 {A} (P : list A → Prop) :
  P [] → (∀ a, P [a]) → (∀ a b l, P l → P (a :: b :: l)) → ∀ l, P l.
Proof.
  intros H0 H1 H2. fix IH 1. intros [|a [|b l]]; [exact H0|exact (H1 a)|apply H2, IH].
Qed.

Lemma checksum_accum_total data accum :
  checksum_accum data accum = (accum + (word_total data).1)%N.
Proof.
  revert accum. assert (∀ n, length data < n → ∀ accum, checksum_accum data accum = (accum + (word_total data).1)%N)
    as Hn; [|apply (Hn (S (length data))); lia].
  intros n. revert data. induction n as [|n IH]; intros data Hlen accum; [lia|].
  destruct data as [|b0 [|b1 [|b2 [|b3 data]]]]; simpl in *;
    try rewrite IH by lia; try destruct (word_total data); unfold ne_word; simpl;
    change (octet Byte.x00) with 0%N; lia.
Qed.

Lemma word_total_orders data :
  ∃ k, (256 * (word_total data).2 = (word_total data).1 + 65535 * k)%N
    ∧ ((word_total data).1 = 0 ↔ (word_total data).2 = 0)%N
    ∧ (2 * (word_total data).1 <= 65535 * (llen data + 1))%N.
Proof.
  induction data as [|hi|hi lo data (k & Hk & Hz & Hb)] using list_ind2.
  - exists 0%N. unfold llen. simpl. lia.
  - exists (octet hi). unfold llen. simpl. pose proof (octet_bound hi). lia.
  - exists (octet hi + k)%N. unfold llen in *. simpl. destruct (word_total data) as [n b]. simpl in *.
    unfold ne_word. pose proof (octet_bound hi). pose proof (octet_bound lo). lia.
Qed.

(** [collapses w n]: [w] is the one's complement sum of a total [n]. *)
Definition collapses (w n : N) : Prop := (w <= 65535)%N ∧ (∃ k, n = w + 65535 * k)%N ∧ (w = 0 ↔ n = 0)%N.

Lemma collapses_unique w w' n : collapses w n → collapses w' n → w = w'.
Proof. intros (? & [k ->] & ?) (? & [k' ?] & ?). nia. Qed.

Lemma propagate_carries_collapses n : (n <= u32_max)%N → collapses (propagate_carries n) n.
Proof.
  unfold u32_max, propagate_carries. intros Hn.
  change 65535%N with (N.ones 16). rewrite !N.land_ones, !N.shiftr_div_pow2.
  change (2 ^ 16)%N with 65536%N. change (N.ones 16) with 65535%N.
  pose proof (N.div_mod n 65536 ltac:(lia)) as H1. pose proof (N.mod_lt n 65536 ltac:(lia)) as H2.
  set (q := (n / 65536)%N) in *. set (r := (n mod 65536)%N) in *.
  pose proof (N.div_mod (q + r) 65536 ltac:(lia)) as H3. pose proof (N.mod_lt (q + r) 65536 ltac:(lia)) as H4.
  set (q' := ((q + r) / 65536)%N) in *. set (r' := ((q + r) mod 65536)%N) in *.
  unfold collapses. split_and!; [lia|exists (q + q')%N; lia|lia].
Qed.

Lemma to_be_collapses w k m :
  (w <= 65535)%N → (256 * m = w + 65535 * k)%N → (w = 0 ↔ m = 0)%N → collapses (to_be w) m.
Proof.
  unfold to_be, collapses. intros Hw Hm Hz.
  pose proof (N.div_mod w 256 ltac:(lia)) as H1. pose proof (N.mod_lt w 256 ltac:(lia)) as H2.
  set (q := (w / 256)%N) in *. set (r := (w mod 256)%N) in *.
  assert (q <= 255)%N by lia. split_and!; [lia| |lia].
  (* 65536 m = 256 w + 256 * 65535 k, so m = to_be w modulo 65535 *)
  exists (q + 256 * k - m)%N. lia.
Qed.

Lemma ones_add_collapses a n b :
  collapses a n → (b <= 65535)%N → collapses (ones_add a b) (n + b)%N.
Proof.
  unfold collapses, ones_add. intros (Ha & [k ->] & Hz) Hb.
  destruct (N.ltb_spec 65535 (a + b)); split_and!; try lia; [exists (k + 1)%N; lia|by exists k; lia].
Qed.

Lemma rfc1071_collapses data n a :
  collapses a n → collapses (foldl ones_add a (be_words data)) (n + (word_total data).2)%N.
Proof.
  revert n a. induction data as [|hi|hi lo data IH] using list_ind2; intros n a Ha; simpl.
  - by rewrite N.add_0_r.
  - apply ones_add_collapses; [done|]. pose proof (octet_bound hi). lia.
  - pose proof (octet_bound hi). pose proof (octet_bound lo).
    specialize (IH _ _ (ones_add_collapses _ _ (256 * octet hi + octet lo)%N Ha ltac:(lia))).
    destruct (word_total data) as [m b]. simpl in *. by rewrite <-N.add_assoc in IH.
Qed.

Lemma checksum_accum_bound data :
  (llen data < 131072)%N → (checksum_accum data 0 <= u32_max)%N.
Proof.
  intros Hlen. destruct (word_total_orders data) as (k & _ & _ & Hb).
  rewrite checksum_accum_total. unfold u32_max. lia.
Qed.

Lemma checksum_data_rfc data : (llen data < 131072)%N → checksum_data data = rfc1071_sum data.
Proof.
  intros Hlen. destruct (word_total_orders data) as (k & Hk & Hz & _).
  pose proof (checksum_accum_bound data Hlen) as Hmax. unfold checksum_data.
  rewrite checksum_accum_total, N.add_0_l in *.
  pose proof (propagate_carries_collapses _ Hmax) as (Hw & [j Hj] & Hwz).
  apply (collapses_unique _ _ (word_total data).2).
  - apply (to_be_collapses _ (j + k)%N); [done|lia|lia].
  - apply (rfc1071_collapses data 0 0). split_and!; [lia|by exists 0%N|done].
Qed.

(** C22. The checksum that adds native-order words two at a time and swaps the bytes of the
    collapsed sum equals the RFC 1071 sum of the big-endian words, and its 32-bit
    accumulator does not overflow, for every buffer shorter than 128 KiB. *)
Theorem checksum_data_matches_rfc1071 (data : bytes) :
  (llen data < 131072)%N →
  checksum_data data = rfc1071_sum data ∧ (checksum_accum data 0 <= u32_max)%N.
Proof. intros Hlen. split; [by apply checksum_data_rfc|by apply checksum_accum_bound]. Qed.
Lemma checksum_data_matches_rfc1071_witness :
  let header := [Byte.x45; Byte.x00; Byte.x00; Byte.x73; Byte.x00; Byte.x00; Byte.x40; Byte.x00; Byte.x40;
    Byte.x11; Byte.xb8; Byte.x61; Byte.xc0; Byte.xa8; Byte.x00; Byte.x01; Byte.xc0; Byte.xa8; Byte.x00; Byte.xc7] in
  rfc1071_sum header = 65535%N ∧ checksum_data header = 65535%N.
Proof.
  split; [by vm_compute|]. etransitivity; [apply checksum_data_matches_rfc1071; by vm_compute|by vm_compute].
Defined.
