(* ===== verification/TcpSupport.v ===== *)
(** * Endpoints, timers, records and ports of TCP sockets

    Models [tcp.rs] and [udp.rs] of [smolnet_core]. *)
From S2P Require Import Prelude Budget Waiter SocketTable Wire.

Definition DEFAULT_BUFFER_BYTES : usize := 262144.
Definition MIN_BUFFER_BYTES : usize := 1024.
Definition MAX_BUFFER_BYTES : usize := 1048576.
Definition CONNECT_TIMEOUT_MILLIS : u64 := 30000.
Definition CLOSE_TIMEOUT_MILLIS : u64 := 30000.
Definition USER_TIMEOUT_MILLIS : u64 := 924600.
Definition KEEPALIVE_IDLE_MILLIS : u64 := 7200000.
Definition KEEPALIVE_INTERVAL_MILLIS : u64 := 75000.
Definition KEEPALIVE_PROBES : N := 9.
Definition EPHEMERAL_PORT_FIRST : u16 := 49152.
Definition EPHEMERAL_PORT_LAST : u16 := 50175.
Definition LISTENER_POOL_MAX : usize := 4.
Definition LISTENER_BACKLOG_MAX : usize := 128.

(** [smoltcp::iface::SocketHandle], an index. *)
Abbreviation SocketHandle := N (only parsing).

Inductive AddressFamily := Inet | Inet6.
#[export] Instance AddressFamily_eq_dec : EqDecision AddressFamily.
Proof. solve_decision. Defined.

Definition family_of (a : IpAddress) : AddressFamily :=
  match a with Ipv4 _ => Inet | Ipv6 _ => Inet6 end.
Definition family_unspecified (f : AddressFamily) : IpAddress :=
  match f with Inet => unspecified_v4 | Inet6 => unspecified_v6 end.
Definition family_matches (f : AddressFamily) (a : IpAddress) : bool :=
  match f, a with Inet, Ipv4 _ | Inet6, Ipv6 _ => true | _, _ => false end.

(** ** Endpoints given by a caller *)
Record TcpEndpoint := { ep_address : bytes; ep_port : i64; ep_scope_id : i64 }.

Record ValidatedEndpoint := { v_address : IpAddress; v_port : u16; v_scope_id : u32 }.
#[export] Instance ValidatedEndpoint_eq_dec : EqDecision ValidatedEndpoint.
Proof. solve_decision. Defined.

Definition ipv4_mapped (o : bytes) : bool :=
  all_octets 0 (take 10 o) && bool_decide (take 2 (drop 10 o) = [Byte.xff; Byte.xff]).

Definition link_local (o : bytes) : bool :=
  (first_octet o =? 0xfe)%N && (N.land (first_octet (drop 1 o)) 0xc0 =? 0x80)%N.

Definition endpoint_address (octets : bytes) : outcome SocketError IpAddress :=
  if (length octets =? 4)%nat then Ok (Ipv4 octets)
  else if (length octets =? 16)%nat then
    if ipv4_mapped octets then Err InvalidAddress else Ok (Ipv6 octets)
  else Err InvalidAddress.

(** The scope a link-local address needs and no other may have. *)
Definition endpoint_scope (address : IpAddress) (scope_id : i64) : outcome SocketError unit :=
  match address with
  | Ipv6 o =>
      if link_local o then
        if (scope_id =? 0)%Z then Err ScopeRequired
        else if (scope_id <? 0)%Z || (4294967295 <? scope_id)%Z then Err InvalidScope
        else Ok tt
      else if negb (scope_id =? 0)%Z then Err InvalidScope else Ok tt
  | Ipv4 _ => if negb (scope_id =? 0)%Z then Err InvalidScope else Ok tt
  end.

Definition endpoint_validate (e : TcpEndpoint) (bind : bool) : outcome SocketError ValidatedEndpoint :=
  address ← endpoint_address (ep_address e);
  if is_multicast address || is_broadcast address || (negb bind && is_unspecified address)
  then Err InvalidAddress
  else if (ep_port e <? 0)%Z || (65535 <? ep_port e)%Z || (negb bind && (ep_port e =? 0)%Z)
  then Err InvalidPort
  else
    endpoint_scope address (ep_scope_id e) ;;
    (* [as u16] and [as u32] keep the low bits *)
    Ok {| v_address := address; v_port := Z.to_N (ep_port e mod 65536);
          v_scope_id := Z.to_N (ep_scope_id e mod 4294967296) |}.

Definition bind_endpoint (e : TcpEndpoint) := endpoint_validate e true.
Definition remote_endpoint (e : TcpEndpoint) := endpoint_validate e false.

Definition ip_endpoint (v : ValidatedEndpoint) : IpEndpoint :=
  {| addr := v_address v; port := v_port v |}.
Definition listen_endpoint (v : ValidatedEndpoint) : IpListenEndpoint :=
  {| listen_addr := if negb (is_unspecified (v_address v)) then Some (v_address v) else None;
     listen_port := v_port v |}.

Record EncodedEndpoint := { enc_address : bytes; enc_port : u16; enc_scope_id : u32 }.
Definition encoded_endpoint (e : IpEndpoint) (scope_id : u32) : EncodedEndpoint :=
  {| enc_address := octets (addr e); enc_port := port e; enc_scope_id := scope_id |}.

(** ** Connections *)
Inductive ConnectFailure := Refused | Reset | TimedOut.
#[export] Instance ConnectFailure_eq_dec : EqDecision ConnectFailure.
Proof. solve_decision. Defined.

Inductive ConnectPhase := PhaseOpen | PhaseBound | PhaseConnecting | PhaseConnected
| PhaseFailed (f : ConnectFailure).
#[export] Instance ConnectPhase_eq_dec : EqDecision ConnectPhase.
Proof. solve_decision. Defined.

Inductive ShutdownHow := ShutRead | ShutWrite | ShutReadWrite.

Definition socket_error (f : ConnectFailure) : SocketError :=
  match f with
  | Refused => ConnectionRefused | Reset => ConnectionReset | TimedOut => ConnectionTimeout
  end.

Record TcpTimers := {
  user_timeout_millis : u64;
  keepalive_idle : u64;
  keepalive_interval : u64;
  keepalive_probes : N
}.
Definition timers_default : TcpTimers := {|
  user_timeout_millis := USER_TIMEOUT_MILLIS; keepalive_idle := KEEPALIVE_IDLE_MILLIS;
  keepalive_interval := KEEPALIVE_INTERVAL_MILLIS; keepalive_probes := KEEPALIVE_PROBES |}.
Definition TIMERS_MAX_MILLIS : u64 := 86400000.
Definition timers_valid (t : TcpTimers) : bool :=
  contains 1 TIMERS_MAX_MILLIS (user_timeout_millis t)
  && contains 1 TIMERS_MAX_MILLIS (keepalive_idle t)
  && contains 1 TIMERS_MAX_MILLIS (keepalive_interval t)
  && (0 <? keepalive_probes t)%N.
Definition user_timeout (t : TcpTimers) : Time.Duration :=
  Time.duration_from_millis (user_timeout_millis t).

(** smoltcp's [KeepAlive]. *)
Record KeepAlive := { ka_idle : Time.Duration; ka_interval : Time.Duration; ka_probes : option N }.
#[export] Instance KeepAlive_eq_dec : EqDecision KeepAlive.
Proof. solve_decision. Defined.
Definition keep_alive (t : TcpTimers) (enabled : bool) : option KeepAlive :=
  if enabled then Some {| ka_idle := Time.duration_from_millis (keepalive_idle t);
                          ka_interval := Time.duration_from_millis (keepalive_interval t);
                          ka_probes := Some (keepalive_probes t) |}
  else None.

Record TcpRecord := {
  tr_identity : SocketIdentity;
  tr_handle : SocketHandle;
  tr_family : AddressFamily;
  phase : ConnectPhase;
  local : option IpEndpoint;
  local_scope_id : u32;
  remote : option IpEndpoint;
  remote_scope_id : u32;
  read_shutdown : bool;
  write_shutdown : bool;
  close_deadline : option Time.Instant;
  accepted : bool;
  tr_rcvbuf : usize;
  tr_sndbuf : usize
}.
#[export] Instance eta_TcpRecord : Eta TcpRecord := λ r,
  {| tr_identity := tr_identity r; tr_handle := tr_handle r; tr_family := tr_family r;
     phase := phase r; local := local r; local_scope_id := local_scope_id r;
     remote := remote r; remote_scope_id := remote_scope_id r;
     read_shutdown := read_shutdown r; write_shutdown := write_shutdown r;
     close_deadline := close_deadline r; accepted := accepted r;
     tr_rcvbuf := tr_rcvbuf r; tr_sndbuf := tr_sndbuf r |}.

Definition tcp_record_new (i : SocketIdentity) (h : SocketHandle) (f : AddressFamily)
    (rcvbuf sndbuf : usize) : TcpRecord := {|
  tr_identity := i; tr_handle := h; tr_family := f; phase := PhaseOpen;
  local := None; local_scope_id := 0; remote := None; remote_scope_id := 0;
  read_shutdown := false; write_shutdown := false; close_deadline := None;
  accepted := false; tr_rcvbuf := rcvbuf; tr_sndbuf := sndbuf |}.

Definition tcp_record_accepted (i : SocketIdentity) (h : SocketHandle) (l r : IpEndpoint)
    (scope_id : u32) (rcvbuf sndbuf : usize) : TcpRecord := {|
  tr_identity := i; tr_handle := h; tr_family := family_of (addr l); phase := PhaseConnected;
  local := Some l; local_scope_id := scope_id; remote := Some r; remote_scope_id := scope_id;
  read_shutdown := false; write_shutdown := false; close_deadline := None;
  accepted := true; tr_rcvbuf := rcvbuf; tr_sndbuf := sndbuf |}.

Record ListenerRecord := {
  lr_identity : SocketIdentity;
  lr_endpoint : ValidatedEndpoint;
  lr_listen_endpoint : IpListenEndpoint;
  lr_local : IpEndpoint;
  backlog : usize;
  pool_target : usize;
  pool : gset SocketHandle;
  accepted_queue : list SocketIdentity;
  lr_rcvbuf : usize;
  lr_sndbuf : usize;
  lr_nodelay : bool;
  lr_keepalive : bool
}.
#[export] Instance eta_ListenerRecord : Eta ListenerRecord := λ l,
  {| lr_identity := lr_identity l; lr_endpoint := lr_endpoint l;
     lr_listen_endpoint := lr_listen_endpoint l; lr_local := lr_local l; backlog := backlog l;
     pool_target := pool_target l; pool := pool l; accepted_queue := accepted_queue l;
     lr_rcvbuf := lr_rcvbuf l; lr_sndbuf := lr_sndbuf l;
     lr_nodelay := lr_nodelay l; lr_keepalive := lr_keepalive l |}.

Definition listener_record_new (i : SocketIdentity) (e : ValidatedEndpoint) (le : IpListenEndpoint)
    (l : IpEndpoint) (backlog : usize) (handles : gset SocketHandle) (rcvbuf sndbuf : usize) :
    ListenerRecord := {|
  lr_identity := i; lr_endpoint := e; lr_listen_endpoint := le; lr_local := l;
  backlog := backlog; pool_target := N.min backlog LISTENER_POOL_MAX; pool := handles;
  accepted_queue := []; lr_rcvbuf := rcvbuf; lr_sndbuf := sndbuf;
  lr_nodelay := false; lr_keepalive := false |}.

Definition valid_buffer_bytes (n : usize) : bool := contains MIN_BUFFER_BYTES MAX_BUFFER_BYTES n.

(** ** Ports *)
(** The [for] loop over the offsets, [turns] of them to go. *)
Fixpoint ephemeral_loop (used : gset u16) (start first count offset : N) (turns : nat) :
    outcome SocketError u16 :=
  match turns with
  | O => Err EphemeralPortsExhausted
  | S turns =>
      let candidate := (first + (start - first + offset) mod count)%N in
      if bool_decide (candidate ∉ used) then Ok candidate
      else ephemeral_loop used start first count (offset + 1) turns
  end.

Definition allocate_ephemeral (used : gset u16) (start first last : u16) : outcome SocketError u16 :=
  match checked_sub last first with
  | None => Panic
  | Some span =>
      let count := (span + 1)%N in
      let start := N.max first (N.min start last) in
      ephemeral_loop used start first count 0 (N.to_nat count)
  end.

(** ** UDP sockets *)
Definition PACKET_CAPACITY : usize := 16.
Definition PAYLOAD_BYTES : usize := 16384.
Definition BUFFER_BYTES : usize := (2 * PAYLOAD_BYTES)%N.

Record UdpRecord := {
  ur_identity : SocketIdentity;
  handles : list SocketHandle;
  ur_family : AddressFamily;
  udp_local : option ValidatedEndpoint;
  peer : option ValidatedEndpoint;
  receive_cursor : usize
}.
#[export] Instance eta_UdpRecord : Eta UdpRecord := λ r,
  {| ur_identity := ur_identity r; handles := handles r; ur_family := ur_family r;
     udp_local := udp_local r; peer := peer r; receive_cursor := receive_cursor r |}.

Definition udp_record_new (i : SocketIdentity) (h : SocketHandle) (f : AddressFamily) : UdpRecord := {|
  ur_identity := i; handles := [h]; ur_family := f; udp_local := None; peer := None;
  receive_cursor := 0 |}.

Definition primary_handle {E} (r : UdpRecord) : outcome E SocketHandle :=
  match handles r with h :: _ => Ok h | [] => Panic end.

Definition max_datagram_bytes (mtu : usize) (f : AddressFamily) : usize :=
  let header_bytes := match f with Inet => 28 | Inet6 => 48 end%N in
  N.min (saturating_sub mtu header_bytes) PAYLOAD_BYTES.

(** ** Theorems *)
(** The port a search started at [start] tries after [k] others. *)
Definition ephemeral_candidate (start first last : N) (k : N) : N :=
  (first + (N.max first (N.min start last) - first + k) mod (last - first + 1))%N.

Lemma ephemeral_loop_spec used start first count offset turns :
  match ephemeral_loop used start first count offset turns with
  | Ok p => ∃ k, (offset <= k < offset + N.of_nat turns)%N
      ∧ p = (first + (start - first + k) mod count)%N ∧ (p ∉ used)
      ∧ ∀ j, (offset <= j < k)%N → (first + (start - first + j) mod count)%N ∈ used
  | Err e => e = EphemeralPortsExhausted
      ∧ ∀ j, (offset <= j < offset + N.of_nat turns)%N → (first + (start - first + j) mod count)%N ∈ used
  | Panic => False
  end.
Proof.
  revert offset. induction turns as [|turns IH]; intros offset; simpl; [split; [done|lia]|].
  case_bool_decide as Hu.
  - exists offset. split_and!; [lia|lia|done|done|lia].
  - specialize (IH (offset + 1)%N).
    destruct (ephemeral_loop _ _ _ _ _ _) as [p|e|]; [| |done].
    + destruct IH as (k & ? & ? & ? & Hj). exists k. split_and!; [lia|lia|done|done|].
      intros j Hjk. destruct (decide (j = offset)) as [->|]; [done|]. apply Hj. lia.
    + destruct IH as [-> Hj]. split; [done|]. intros j Hjk.
      destruct (decide (j = offset)) as [->|]; [done|]. apply Hj. lia.
Qed.

(** The candidates cover the whole range. *)
Lemma ephemeral_candidate_onto start first last p :
  (first <= p <= last)%N →
  ∃ k, (k < last - first + 1)%N ∧ ephemeral_candidate start first last k = p.
Proof.
  intros Hp. unfold ephemeral_candidate.
  set (s := (N.max first (N.min start last) - first)%N). set (count := (last - first + 1)%N).
  assert (Hs : (s < count)%N) by (unfold s, count; lia).
  destruct (decide (s <= p - first)%N) as [Hle|Hgt].
  - exists (p - first - s)%N. split; [lia|].
    replace (s + (p - first - s))%N with (p - first)%N by lia. rewrite N.mod_small by lia. lia.
  - exists (p - first + count - s)%N. split; [lia|].
    replace (s + (p - first + count - s))%N with (p - first + 1 * count)%N by lia.
    rewrite N.Div0.mod_add, N.mod_small by lia. lia.
Qed.

(** C35. Ephemeral allocation returns the first free port in the cyclic order from its starting
    point, inside the range; it fails only when every port of the range is taken. *)
Theorem allocate_ephemeral_spec used start first last :
  (first <= last)%N →
  match allocate_ephemeral used start first last with
  | Ok p =>
      (first <= p <= last)%N ∧ (p ∉ used)
      ∧ ∃ k, p = ephemeral_candidate start first last k
          ∧ ∀ j, (j < k)%N → ephemeral_candidate start first last j ∈ used
  | Err e => e = EphemeralPortsExhausted ∧ ∀ p, (first <= p <= last)%N → p ∈ used
  | Panic => False
  end.
Proof.
  intros Hfl. unfold allocate_ephemeral, checked_sub. rewrite (proj2 (N.leb_le _ _) Hfl).
  pose proof (ephemeral_loop_spec used (N.max first (N.min start last)) first (last - first + 1) 0
    (N.to_nat (last - first + 1))) as Hl. destruct (ephemeral_loop _ _ _ _ _ _) as [p|e|]; [| |done].
  - destruct Hl as (k & _ & -> & Hu & Hj). split_and!; try done; try lia.
    exists k. split; [done|]. intros j ?. apply Hj. lia.
  - destruct Hl as [-> Hj]. split; [done|]. intros p Hp.
    destruct (ephemeral_candidate_onto start first last p Hp) as (k & ? & <-). apply Hj. lia.
Qed.

(** What a caller's endpoint must be. *)
Definition endpoint_ok (e : TcpEndpoint) (bind : bool) (v : ValidatedEndpoint) : Prop :=
  octets (v_address v) = ep_address e ∧ addr_wf (v_address v) = true
  ∧ (family_of (v_address v) = Inet6 → ipv4_mapped (ep_address e) = false)
  ∧ is_multicast (v_address v) = false ∧ is_broadcast (v_address v) = false
  ∧ (bind = false → is_unspecified (v_address v) = false ∧ v_port v ≠ 0%N)
  ∧ (0 <= ep_port e <= 65535)%Z ∧ ep_port e = Z.of_N (v_port v)
  ∧ (0 <= ep_scope_id e <= 4294967295)%Z ∧ ep_scope_id e = Z.of_N (v_scope_id v)
  ∧ (v_scope_id v ≠ 0%N ↔ family_of (v_address v) = Inet6 ∧ link_local (ep_address e) = true).

Lemma endpoint_address_spec o a :
  endpoint_address o = Ok a ↔
  octets a = o ∧ addr_wf a = true ∧ (family_of a = Inet6 → ipv4_mapped o = false).
Proof.
  unfold endpoint_address. split.
  - intros Ha. repeat case_match; simplify_eq/=; done.
  - destruct a as [o'|o']; simpl; intros (-> & Hl & Hm).
    + by rewrite Hl.
    + rewrite Hl, Hm by done. apply Nat.eqb_eq in Hl. by rewrite Hl.
Qed.

Lemma endpoint_scope_spec a scope :
  endpoint_scope a scope = Ok tt ↔
  (0 <= scope <= 4294967295)%Z
  ∧ (scope ≠ 0%Z ↔ family_of a = Inet6 ∧ link_local (octets a) = true).
Proof.
  unfold endpoint_scope. destruct a as [o|o]; simpl.
  - destruct (Z.eqb_spec scope 0); simpl; naive_solver lia.
  - destruct (link_local o), (Z.eqb_spec scope 0); simpl; try naive_solver lia.
    destruct (_ || _) eqn:Hr; split; try naive_solver lia.
Qed.

Lemma remote_endpoint_specified e v : remote_endpoint e = Ok v → is_unspecified (v_address v) = false.
Proof.
  unfold remote_endpoint, endpoint_validate. destruct (endpoint_address (ep_address e)) as [a| |]; simpl; [|done|done].
  destruct (_ || _ || is_unspecified a) eqn:Hk; [done|]. destruct (_ || _ || _) eqn:Hp in |- *; [done|].
  destruct (endpoint_scope a (ep_scope_id e)); simpl; [|done|done]. intros [= <-]. simpl.
  rewrite !orb_false_iff in Hk. apply Hk.
Qed.

(** C36. Endpoint validation accepts exactly the endpoints of the declarative description
    (length, port, scope and address class), with the address it names. *)
Theorem endpoint_validate_spec e bind v :
  endpoint_validate e bind = Ok v ↔ endpoint_ok e bind v.
Proof.
  unfold endpoint_validate, endpoint_ok. split.
  - destruct (endpoint_address (ep_address e)) as [a| |] eqn:Ha; simpl; [|done|done].
    apply endpoint_address_spec in Ha as (Ho & Hwf & Hm).
    destruct (_ || _ || (negb bind && _)) eqn:Hk; [done|]. destruct (_ || _ || _) eqn:Hp in |- *; [done|].
    destruct (endpoint_scope a (ep_scope_id e)) as [[]| |] eqn:Hs; simpl; [|done|done].
    apply endpoint_scope_spec in Hs as [Hr Hl]. intros [= <-]. simpl.
    rewrite !orb_false_iff, !andb_false_iff, negb_false_iff in *. rewrite <-Ho.
    rewrite !Z.mod_small by lia. split_and!; try done; try lia; try naive_solver lia.
    by rewrite Ho.
  - destruct v as [a p s]. simpl. intros (Ho & Hwf & Hm & Hmu & Hb & Hu & Hp & Hpe & Hs & Hse & Hl).
    rewrite (proj2 (endpoint_address_spec _ a)) by done. simpl. rewrite Hmu, Hb. simpl.
    assert (negb bind && is_unspecified a = false) as -> by (destruct bind; simpl; [done|]; by apply Hu).
    assert ((ep_port e <? 0)%Z || (65535 <? ep_port e)%Z || (negb bind && (ep_port e =? 0)%Z) = false) as ->.
    { destruct bind; simpl; [lia|]. destruct (Hu eq_refl). lia. }
    rewrite (proj2 (endpoint_scope_spec _ _)); cycle 1.
    { split; [done|]. rewrite Ho, <-Hl. lia. }
    simpl. rewrite !Z.mod_small by lia. do 2 f_equal; lia.
Qed.

Lemma allocate_ephemeral_witness :
  match allocate_ephemeral {[10; 11]}%N 11 10 12 with
  | Ok p => (10 <= p <= 12)%N ∧ (p ∉ ({[10; 11]}%N : gset N))
  | _ => False
  end.
Proof.
  pose proof (allocate_ephemeral_spec {[10; 11]}%N 11 10 12 ltac:(lia)) as Ha.
  assert (allocate_ephemeral {[10; 11]}%N 11 10 12 = Ok 12%N) as Hr by (vm_compute; reflexivity).
  rewrite Hr in *. exact (conj (proj1 Ha) (proj1 (proj2 Ha))).
Defined.
