(* ===== verification/Packet.v ===== *)
(** * What the stack reads of a packet, and the stack's configuration

    Models the packet validation, the classification of TCP segments, the
    connection keys and the configuration of [stack.rs]. *)
From S2P Require Import Prelude Budget SocketTable Wire TcpSupport Device.

Inductive StackError :=
| SClosed | InvalidLimits | InvalidStackConfig | InvalidPacket | PacketTooLarge
| BatchTooLarge | OwnershipInvariantViolation | EgressCreditDisabled.
#[export] Instance StackError_eq_dec : EqDecision StackError.
Proof. solve_decision. Defined.

(** [Result::is_ok_and]. *)
Definition is_ok_and {E E' A} (o : outcome E A) (f : A → outcome E' bool) : outcome E' bool :=
  match o with Ok a => f a | Err _ => Ok false | Panic => Panic end.
Definition and_also {E} (o1 : outcome E bool) (o2 : outcome E bool) : outcome E bool :=
  b ← o1; if (b : bool) then o2 else Ok false.

Definition ipv4_valid (packet : bytes) : outcome StackError bool :=
  is_ok_and (Ipv4Packet.check_len packet) (λ _,
    and_also (t ← Ipv4Packet.total_len packet; mret (t =? llen packet)%N)
      (and_also (Ipv4Packet.verify_checksum packet)
        (and_also (m ← Ipv4Packet.more_frags packet; mret (negb m))
          (o ← Ipv4Packet.frag_offset packet; mret (o =? 0)%N)))).

Definition ipv6_valid (packet : bytes) : outcome StackError bool :=
  is_ok_and (Ipv6Packet.check_len packet) (λ _,
    n ← Ipv6Packet.payload_len packet;
    mret (match checked_add 40 n with Some declared => (declared =? llen packet)%N | None => false end)).

Definition validate_raw_packet (packet : bytes) (mtu bytes_copied : usize) : outcome StackError unit :=
  match packet with
  | [] => Err InvalidPacket
  | _ =>
      first ← index packet 0;
      valid ← match N.shiftr first 4 with
              | 4%N => ipv4_valid packet
              | 6%N => ipv6_valid packet
              | _ => Ok false
              end;
      if negb valid then Err InvalidPacket
      else if (mtu <? llen packet)%N || (bytes_copied <? llen packet)%N then Err PacketTooLarge
      else Ok tt
  end.

(** ** Classifying segments

    [Err] is the early [return None] or [?] of a function that returns an
    [Option]. *)
Definition new_checked (check : bytes → outcome unit unit) (data : bytes) : outcome unit bytes :=
  check data ;; Ok data.

(** The addresses, protocol and transport part of an IP packet: the shared
    start of [inbound_reset] and [tcp_listener_target]. *)
Definition ip_transport (packet : bytes) :
    outcome unit (IpAddress * IpAddress * Protocol * bytes) :=
  match packet with
  | [] => Err tt
  | first :: _ =>
      match N.shiftr (octet first) 4 with
      | 4%N =>
          ipv4 ← new_checked Ipv4Packet.check_len packet;
          src ← Ipv4Packet.src_addr ipv4;
          dst ← Ipv4Packet.dst_addr ipv4;
          nh ← Ipv4Packet.next_header ipv4;
          transport ← Ipv4Packet.payload ipv4;
          Ok (src, dst, nh, transport)
      | 6%N =>
          ipv6 ← new_checked Ipv6Packet.check_len packet;
          nh ← Ipv6Packet.next_header ipv6;
          transport ← Ipv6Packet.payload ipv6;
          '(nh, transport) ←
            (if bool_decide (nh = HopByHop) then
               extension ← new_checked Ipv6ExtHeader.check_len transport;
               nh ← Ipv6ExtHeader.next_header extension;
               len ← Ipv6ExtHeader.header_len extension;
               let header_len := ((len + 1) * 8)%N in
               (* [transport.get(header_len..)?] *)
               if (header_len <=? llen transport)%N
               then Ok (nh, drop (N.to_nat header_len) transport) else Err tt
             else Ok (nh, transport));
          src ← Ipv6Packet.src_addr ipv6;
          dst ← Ipv6Packet.dst_addr ipv6;
          Ok (src, dst, nh, transport)
      | _ => Err tt
      end
  end.

(** The TCP segment of a packet, with its addresses. *)
Definition tcp_segment (packet : bytes) : outcome unit (IpAddress * IpAddress * bytes) :=
  '(src, dst, nh, transport) ← ip_transport packet;
  if bool_decide (nh ≠ TcpProtocol) then Err tt
  else tcp ← new_checked TcpPacket.check_len transport; Ok (src, dst, tcp).

Definition tcp_listener_target (packet : bytes) : outcome unit (IpAddress * u16) :=
  '(_, dst, tcp) ← tcp_segment packet;
  syn ← TcpPacket.syn tcp;
  ack ← TcpPacket.ack tcp;
  if syn && negb ack then p ← TcpPacket.dst_port tcp; Ok (dst, p) else Err tt.

(** The endpoints, local first, a reset segment is about. *)
Definition reset_endpoints (packet : bytes) : outcome unit (IpEndpoint * IpEndpoint) :=
  '(src, dst, tcp) ← tcp_segment packet;
  rst ← TcpPacket.rst tcp;
  if negb rst then Err tt
  else
    dp ← TcpPacket.dst_port tcp;
    sp ← TcpPacket.src_port tcp;
    Ok ({| addr := dst; port := dp |}, {| addr := src; port := sp |}).

(** ** Connection keys *)
Record ConnectionKey := {
  ck_family : AddressFamily;
  local_address : bytes;
  local_port : u16;
  remote_address : bytes;
  remote_port : u16
}.
#[export] Instance ConnectionKey_eq_dec : EqDecision ConnectionKey.
Proof. solve_decision. Defined.
#[export] Program Instance ConnectionKey_countable : Countable ConnectionKey :=
  inj_countable'
    (λ k, (match ck_family k with Inet => false | Inet6 => true end,
           local_address k, local_port k, remote_address k, remote_port k))
    (λ '(f, la, lp, ra, rp),
      {| ck_family := if f then Inet6 else Inet; local_address := la; local_port := lp;
         remote_address := ra; remote_port := rp |}) _.
Next Obligation. by intros [[] ? ? ? ?]. Qed.

(** The derived [Ord]: arrays compare octet by octet. The octets are shifted
    and terminated so that the order is one on lists of any length. *)
Definition octets_okey (o : bytes) (tail : list Z) : list Z :=
  ((λ b, Z.of_N (octet b) + 1)%Z <$> o) ++ 0%Z :: tail.
Lemma octets_okey_inj o1 o2 t1 t2 :
  octets_okey o1 t1 = octets_okey o2 t2 → o1 = o2 ∧ t1 = t2.
Proof.
  revert o2. induction o1 as [|b1 o1 IH]; intros [|b2 o2]; cbn; intros Heq; simplify_eq; try lia.
  - done.
  - assert (octet b1 = octet b2) as Hb by lia.
    apply (f_equal Byte.of_N) in Hb. unfold octet in Hb. rewrite !Byte.of_to_N in Hb.
    destruct (IH o2) as [-> ->]; [done|]. by simplify_eq.
Qed.
#[export] Program Instance ConnectionKey_ordered : Ordered ConnectionKey :=
  {| okey k := (match ck_family k with Inet => 0 | Inet6 => 1 end)%Z ::
       octets_okey (local_address k) (Z.of_N (local_port k) ::
         octets_okey (remote_address k) [Z.of_N (remote_port k)]) |}.
Next Obligation.
  intros [f1 ????] [f2 ????]; cbn -[octets_okey]. intros [= Hf Ho].
  apply octets_okey_inj in Ho as [-> [= ->%N2Z.inj [-> [= ->%N2Z.inj]]%octets_okey_inj]].
  by destruct f1, f2.
Qed.

Definition address_key (a : IpAddress) : bytes :=
  match a with
  | Ipv4 o => o ++ replicate 12 Byte.x00
  | Ipv6 o => o
  end.

Definition same_family (left right : IpAddress) : bool :=
  match left, right with Ipv4 _, Ipv4 _ | Ipv6 _, Ipv6 _ => true | _, _ => false end.

(** The assertion is checked in debug builds only. *)
Definition connection_key (l r : IpEndpoint) : ConnectionKey := {|
  ck_family := family_of (addr l);
  local_address := address_key (addr l); local_port := port l;
  remote_address := address_key (addr r); remote_port := port r |}.

Record ListenerMemberKey := { listener_id : u64; member_handle : SocketHandle }.
#[export] Instance ListenerMemberKey_eq_dec : EqDecision ListenerMemberKey.
Proof. solve_decision. Defined.
#[export] Program Instance ListenerMemberKey_countable : Countable ListenerMemberKey :=
  inj_countable' (λ k, (listener_id k, member_handle k))
    (λ p, {| listener_id := p.1; member_handle := p.2 |}) _.
Next Obligation. by intros []. Qed.
#[export] Program Instance ListenerMemberKey_ordered : Ordered ListenerMemberKey :=
  {| okey k := [Z.of_N (listener_id k); Z.of_N (member_handle k)] |}.
Next Obligation. intros [] [] [= ?%N2Z.inj ?%N2Z.inj]; simpl in *; by subst. Qed.

(** ** Configuration *)
Definition ip_address (o : bytes) : option IpAddress :=
  if (length o =? 4)%nat then Some (Ipv4 o)
  else if (length o =? 16)%nat then
    if all_octets 0 (take 10 o) && bool_decide (take 2 (drop 10 o) = [Byte.xff; Byte.xff])
    then None else Some (Ipv6 o)
  else None.

Definition prefix_limit (a : IpAddress) : N := match a with Ipv4 _ => 32 | Ipv6 _ => 128 end%N.

Record AddressConfig := { ac_address : bytes; ac_prefix_length : N }.
Record RouteConfig := { destination : bytes; rc_prefix_length : N; gateway : bytes }.

Definition address_valid (c : AddressConfig) : bool :=
  match ip_address (ac_address c) with
  | Some a => (ac_prefix_length c <=? prefix_limit a)%N && (is_unspecified a || is_unicast a)
  | None => false
  end.

Definition address_to_cidr {E} (c : AddressConfig) : outcome E Cidr :=
  match ip_address (ac_address c) with
  | Some a => cidr_new a (ac_prefix_length c)
  | None => Panic
  end.

Definition route_valid (c : RouteConfig) : bool :=
  match ip_address (destination c) with
  | None => false
  | Some d =>
      match ip_address (gateway c) with
      | None => false
      | Some g =>
          same_family d g && (rc_prefix_length c <=? prefix_limit d)%N
          && negb (is_multicast d) && is_unicast g
      end
  end.

Definition route_to_cidr {E} (c : RouteConfig) : outcome E Cidr :=
  match ip_address (destination c) with
  | Some a => cidr_new a (rc_prefix_length c)
  | None => Panic
  end.

(** smoltcp's [Route], without the expiry times the stack leaves unset. *)
Record Route := { route_cidr : Cidr; via_router : IpAddress }.

Definition to_route {E} (c : RouteConfig) : outcome E Route :=
  cidr ← route_to_cidr c;
  match ip_address (gateway c) with
  | Some g => Ok {| route_cidr := cidr; via_router := g |}
  | None => Panic
  end.

Record StackConfig := {
  cfg_mtu : usize;
  addresses : list AddressConfig;
  routes : list RouteConfig;
  cfg_egress_credit : option EgressCredit;
  cfg_tcp_timers : TcpTimers
}.

Definition config_validate (c : StackConfig) (limits : Limits) : outcome StackError unit :=
  if negb (contains 1280 65575 (cfg_mtu c))
     || (l_bytes_copied limits <? cfg_mtu c)%N
     || (8 <? llen (addresses c))%N
     || (4 <? llen (routes c))%N
     || existsb (λ a, negb (address_valid a)) (addresses c)
     || existsb (λ r, negb (route_valid r)) (routes c)
     || negb (timers_valid (cfg_tcp_timers c))
  then Err InvalidStackConfig else Ok tt.

(** ** Reading a packet is safe

    [safe o P]: [o] is not a panic, and a value it returns satisfies [P]. *)
Definition safe {E A} (o : outcome E A) (P : A → Prop) : Prop :=
  match o with Ok a => P a | Err _ => True | Panic => False end.

Lemma safe_bind {E A B} (o : outcome E A) (k : A → outcome E B) P :
  safe o (λ a, safe (k a) P) → safe (o ≫= k) P.
Proof. by destruct o. Qed.
Lemma safe_mono {E A} (o : outcome E A) (P Q : A → Prop) : safe o P → (∀ a, P a → Q a) → safe o Q.
Proof. destruct o; simpl; auto. Qed.
Lemma safe_no_panic {E A} (o : outcome E A) P : safe o P → o ≠ Panic.
Proof. by destruct o. Qed.

Definition byte_at (data : bytes) (i : usize) : N := default 0%N (octet <$> data !! N.to_nat i).
Definition be16_at (data : bytes) (i : usize) : N := (byte_at data i * 256 + byte_at data (i + 1))%N.

Lemma index_in {E} data i : (i < llen data)%N → index (E:=E) data i = Ok (byte_at data i).
Proof.
  unfold index, byte_at, llen. intros Hi.
  destruct (lookup_lt_is_Some_2 data (N.to_nat i)) as [b ->]; [lia|done].
Qed.
Lemma read_u16_in {E} data i : (i + 1 < llen data)%N → read_u16 (E:=E) data i = Ok (be16_at data i).
Proof. intros Hi. unfold read_u16. rewrite !index_in by lia. done. Qed.
Lemma slice_in {E} data first last :
  (first <= last <= llen data)%N →
  slice (E:=E) data first last = Ok (take (N.to_nat (last - first)) (drop (N.to_nat first) data)).
Proof. intros [Hf Hl]. unfold slice. by rewrite (proj2 (N.leb_le _ _) Hf), (proj2 (N.leb_le _ _) Hl). Qed.
Lemma byte_at_bound data i : (byte_at data i < 256)%N.
Proof. unfold byte_at. destruct (data !! N.to_nat i) as [b|]; simpl; [apply octet_bound|lia]. Qed.

(** What the checked views have established. *)
Lemma ipv4_check_len_cases data :
  Ipv4Packet.check_len data =
    if (20 <=? llen data)%N && (20 <=? N.land (byte_at data 0) 15 * 4)%N
       && (N.land (byte_at data 0) 15 * 4 <=? be16_at data 2)%N && (be16_at data 2 <=? llen data)%N
    then Ok tt else Err tt.
Proof.
  unfold Ipv4Packet.check_len, Ipv4Packet.header_len, Ipv4Packet.total_len, Ipv4Packet.MINIMUM_IHL_BYTES.
  destruct (N.ltb_spec (llen data) 20) as [Hl|Hl].
  { by rewrite (proj2 (N.leb_gt _ _)). }
  rewrite index_in, read_u16_in by lia. simpl.
  rewrite (proj2 (N.leb_le 20 _)) by lia. simpl.
  set (h := (N.land (byte_at data 0) 15 * 4)%N). set (t := be16_at data 2).
  destruct (N.ltb_spec (llen data) h), (N.ltb_spec t h), (N.ltb_spec (llen data) t), (N.ltb_spec h 20),
    (N.leb_spec 20 h), (N.leb_spec h t), (N.leb_spec t (llen data)); simpl; done || lia.
Qed.
Lemma ipv6_check_len_cases data :
  Ipv6Packet.check_len data =
    if (40 <=? llen data)%N && (40 + be16_at data 4 <=? llen data)%N then Ok tt else Err tt.
Proof.
  unfold Ipv6Packet.check_len, Ipv6Packet.total_len, Ipv6Packet.payload_len.
  destruct (N.ltb_spec (llen data) 40) as [Hl|Hl].
  { by rewrite (proj2 (N.leb_gt _ _)). }
  rewrite read_u16_in by lia. simpl. rewrite (proj2 (N.leb_le 40 _)) by lia. simpl.
  destruct (N.ltb_spec (llen data) (40 + be16_at data 4)), (N.leb_spec (40 + be16_at data 4) (llen data));
    done || lia.
Qed.

Lemma new_checked_safe check data (P : bytes → Prop) :
  safe (check data) (λ _, P data) → safe (new_checked check data) P.
Proof. unfold new_checked. intros Hc. by apply safe_bind. Qed.

Lemma ip_transport_safe packet : safe (ip_transport packet) (λ _, True).
Proof.
  destruct packet as [|first rest]; [done|]. unfold ip_transport. set (packet := first :: rest).
  destruct (decide (N.shiftr (octet first) 4 = 4%N)) as [->|H4]; [|destruct (decide (N.shiftr (octet first) 4 = 6%N)) as [->|H6]].
  - unfold new_checked. rewrite ipv4_check_len_cases. destruct (_ && _) eqn:Hc; [|done].
    rewrite !andb_true_iff, !N.leb_le in Hc. destruct Hc as (((H1 & H2) & H3) & H5). cbn [mbind outcome_bind].
    unfold Ipv4Packet.src_addr, Ipv4Packet.dst_addr, Ipv4Packet.next_header, Ipv4Packet.payload,
      Ipv4Packet.header_len, Ipv4Packet.total_len.
    rewrite !slice_in, !index_in, read_u16_in by lia. cbn [mbind outcome_bind mret outcome_ret].
    rewrite slice_in by lia. done.
  - unfold new_checked. rewrite ipv6_check_len_cases. destruct (_ && _) eqn:Hc; [|done].
    rewrite !andb_true_iff, !N.leb_le in Hc. destruct Hc as (H1 & H2). cbn [mbind outcome_bind].
    unfold Ipv6Packet.src_addr, Ipv6Packet.dst_addr, Ipv6Packet.next_header, Ipv6Packet.payload,
      Ipv6Packet.total_len, Ipv6Packet.payload_len.
    rewrite index_in, read_u16_in by lia.
    cbn [mbind outcome_bind mret outcome_ret].
    rewrite (slice_in packet 40) by lia. cbn [mbind outcome_bind mret outcome_ret].
    set (transport := take _ _). apply safe_bind. eapply (safe_mono _ (λ _, True)); cycle 1.
    { intros [nh tr] _. rewrite !slice_in by lia. done. }
    case_bool_decide; [|done].
    unfold Ipv6ExtHeader.check_len, Ipv6ExtHeader.header_len, Ipv6ExtHeader.next_header.
    destruct (N.ltb_spec (llen transport) 8); [done|]. rewrite !index_in by lia.
    cbn [mbind outcome_bind mret outcome_ret]. destruct (_ <? _)%N; [done|].
    cbn [mbind outcome_bind mret outcome_ret]. rewrite !index_in by lia.
    cbn [mbind outcome_bind mret outcome_ret]. by destruct (_ <=? _)%N.
  - destruct (N.shiftr (octet first) 4) as [|[[]|[[]|[]|]|]]; done.
Qed.

Lemma tcp_segment_safe packet : safe (tcp_segment packet) (λ '(_, _, tcp), (20 <= llen tcp)%N).
Proof.
  unfold tcp_segment. apply safe_bind. eapply safe_mono; [apply ip_transport_safe|].
  intros [[[src dst] nh] transport] _. case_bool_decide; [done|].
  unfold new_checked, TcpPacket.check_len, TcpPacket.header_len.
  destruct (N.ltb_spec (llen transport) 20); [done|]. rewrite read_u16_in by lia.
  cbn [mbind outcome_bind mret outcome_ret]. by destruct (_ || _).
Qed.

Lemma tcp_listener_target_safe packet : safe (tcp_listener_target packet) (λ _, True).
Proof.
  unfold tcp_listener_target. apply safe_bind. eapply safe_mono; [apply tcp_segment_safe|].
  intros [[src dst] tcp] Hlen. unfold TcpPacket.syn, TcpPacket.ack, TcpPacket.flag, TcpPacket.dst_port.
  rewrite !read_u16_in by lia. cbn [mbind outcome_bind mret outcome_ret]. by destruct (_ && _).
Qed.
Lemma reset_endpoints_safe packet : safe (reset_endpoints packet) (λ _, True).
Proof.
  unfold reset_endpoints. apply safe_bind. eapply safe_mono; [apply tcp_segment_safe|].
  intros [[src dst] tcp] Hlen. unfold TcpPacket.rst, TcpPacket.flag, TcpPacket.dst_port, TcpPacket.src_port.
  rewrite !read_u16_in by lia. cbn [mbind outcome_bind mret outcome_ret]. by destruct (negb _).
Qed.

(** The header fields of an acceptable packet, read at their offsets: a whole
    IPv4 packet with a valid checksum that is not a fragment, or a whole IPv6
    packet. *)
Definition raw_ipv4_ok (packet : bytes) : bool :=
  let ihl := (N.land (byte_at packet 0) 15 * 4)%N in
  (20 <=? ihl)%N && (ihl <=? llen packet)%N && (be16_at packet 2 =? llen packet)%N
  && (rfc1071_sum (take (N.to_nat ihl) packet) =? 65535)%N
  && (be16_at packet 6 mod 16384 =? 0)%N.
Definition raw_ipv6_ok (packet : bytes) : bool :=
  (40 <=? llen packet)%N && (40 + be16_at packet 4 =? llen packet)%N.
Definition raw_packet_ok (packet : bytes) : bool :=
  match (byte_at packet 0 / 16)%N with
  | 4%N => raw_ipv4_ok packet
  | 6%N => raw_ipv6_ok packet
  | _ => false
  end.

(** The more-fragments flag and the fragment offset are both clear. *)
Lemma unfragmented w :
  (w < 65536)%N →
  negb (negb (N.land w 8192 =? 0)%N) && (N.shiftl w 3 mod 65536 =? 0)%N = (w mod 16384 =? 0)%N.
Proof.
  intros Hw. assert (Hbit : (N.land w 8192 =? 0)%N = negb (N.testbit w 13)).
  { change 8192%N with (2 ^ 13)%N. destruct (N.testbit w 13) eqn:Hb; simpl.
    - apply N.eqb_neq. intros Hz. apply (f_equal (λ n, N.testbit n 13)) in Hz.
      by rewrite N.land_spec, N.pow2_bits_true, Hb, N.bits_0 in Hz.
    - apply N.eqb_eq, N.bits_inj. intros n. rewrite N.land_spec, N.bits_0, N.pow2_bits_eqb.
      destruct (N.eqb_spec 13 n); [subst; by rewrite Hb|by rewrite andb_false_r]. }
  rewrite Hbit, N.testbit_eqb, N.shiftl_mul_pow2. change (2 ^ 13)%N with 8192%N. change (2 ^ 3)%N with 8%N.
  pose proof (N.div_mod w 8192 ltac:(lia)) as H1. pose proof (N.mod_lt w 8192 ltac:(lia)) as H2.
  set (q := (w / 8192)%N) in *. set (r := (w mod 8192)%N) in *.
  pose proof (N.div_mod q 2 ltac:(lia)) as H3. pose proof (N.mod_lt q 2 ltac:(lia)) as H4.
  set (q2 := (q / 2)%N) in *. set (p := (q mod 2)%N) in *.
  assert ((w * 8) mod 65536 = r * 8)%N as ->.
  { rewrite H1. replace ((8192 * q + r) * 8)%N with (r * 8 + q * 65536)%N by lia.
    rewrite N.Div0.mod_add. apply N.mod_small. lia. }
  assert (w mod 16384 = 8192 * p + r)%N as ->.
  { rewrite H1, H3. replace (8192 * (2 * q2 + p) + r)%N with (8192 * p + r + q2 * 16384)%N by lia.
    rewrite N.Div0.mod_add. apply N.mod_small. lia. }
  destruct (N.eqb_spec p 1), (N.eqb_spec (r * 8) 0), (N.eqb_spec (8192 * p + r) 0); simpl; done || lia.
Qed.

Lemma be16_bound data i : (be16_at data i < 65536)%N.
Proof. unfold be16_at. pose proof (byte_at_bound data i). pose proof (byte_at_bound data (i + 1)). lia. Qed.

Lemma ipv4_valid_ok packet : ipv4_valid packet = Ok (raw_ipv4_ok packet).
Proof.
  unfold ipv4_valid, is_ok_and, raw_ipv4_ok. rewrite ipv4_check_len_cases. cbv zeta.
  assert (N.land (byte_at packet 0) 15 * 4 < 64)%N as Hihl.
  { change 15%N with (N.ones 4). rewrite N.land_ones. pose proof (N.mod_lt (byte_at packet 0) (2 ^ 4) ltac:(done)).
    change (2 ^ 4)%N with 16%N in *. lia. }
  set (ihl := (N.land (byte_at packet 0) 15 * 4)%N) in *.
  destruct (_ && (be16_at packet 2 <=? llen packet)%N) eqn:Hc; cycle 1.
  { f_equal. symmetry. apply not_true_iff_false. intros Hok. rewrite !andb_true_iff, !N.leb_le, !N.eqb_eq in Hok.
    apply not_true_iff_false in Hc. apply Hc. rewrite !andb_true_iff, !N.leb_le. lia. }
  rewrite !andb_true_iff, !N.leb_le in Hc.
  unfold and_also, Ipv4Packet.total_len, Ipv4Packet.verify_checksum, Ipv4Packet.header_len,
    Ipv4Packet.more_frags, Ipv4Packet.frag_offset.
  rewrite !read_u16_in, !index_in by lia. cbn [mbind outcome_bind mret outcome_ret]. fold ihl.
  rewrite slice_in by lia. cbn [mbind outcome_bind mret outcome_ret].
  rewrite N.sub_0_r, drop_0, checksum_data_rfc by (unfold llen in *; rewrite length_take; lia).
  rewrite (proj2 (N.leb_le 20 ihl)), (proj2 (N.leb_le ihl _)) by lia. cbn [andb].
  pose proof (unfragmented (be16_at packet 6) (be16_bound _ _)) as Hf.
  destruct (_ =? llen packet)%N; [|done]. destruct (_ =? 65535)%N; [|done].
  rewrite <-Hf. by destruct (N.land _ _ =? 0)%N.
Qed.

Lemma ipv6_valid_ok packet : ipv6_valid packet = Ok (raw_ipv6_ok packet).
Proof.
  unfold ipv6_valid, is_ok_and, raw_ipv6_ok. rewrite ipv6_check_len_cases.
  destruct (N.leb_spec 40 (llen packet)); [|done]. cbn [andb].
  destruct (N.leb_spec (40 + be16_at packet 4) (llen packet)); cycle 1.
  { by rewrite (proj2 (N.eqb_neq _ _)) by lia. }
  unfold Ipv6Packet.payload_len, checked_add. rewrite read_u16_in by lia. cbn [mbind outcome_bind mret outcome_ret].
  pose proof (be16_bound packet 4). rewrite (proj2 (N.leb_le _ usize_max)) by (unfold usize_max; lia). done.
Qed.

Lemma validate_raw_packet_cases packet mtu limit :
  validate_raw_packet packet mtu limit =
    if negb (raw_packet_ok packet) then Err InvalidPacket
    else if (N.min mtu limit <? llen packet)%N then Err PacketTooLarge else Ok tt.
Proof.
  unfold validate_raw_packet, raw_packet_ok. destruct packet as [|first rest]; [done|]. set (packet := first :: rest).
  rewrite index_in by (unfold packet, llen; simpl; lia). cbn [mbind outcome_bind].
  rewrite N.shiftr_div_pow2. change (2 ^ 4)%N with 16%N.
  assert (Hsize : (N.min mtu limit <? llen packet)%N = (mtu <? llen packet)%N || (limit <? llen packet)%N).
  { destruct (N.ltb_spec (N.min mtu limit) (llen packet)), (N.ltb_spec mtu (llen packet)),
      (N.ltb_spec limit (llen packet)); done || lia. }
  rewrite Hsize, ipv4_valid_ok, ipv6_valid_ok.
  by destruct (byte_at packet 0 / 16)%N as [|[[]|[[]|[]|]|]].
Qed.

(** C21. validate_raw_packet accepts exactly the whole, unfragmented IPv4 packets with a valid
    RFC 1071 header checksum and the whole IPv6 packets that fit the MTU and the copy limit;
    it tells a malformed packet from an oversized one, and never reads out of bounds. *)
Theorem validate_raw_packet_spec (packet : bytes) (mtu limit : usize) :
  validate_raw_packet packet mtu limit =
    if negb (raw_packet_ok packet) then Err InvalidPacket
    else if (N.min mtu limit <? llen packet)%N then Err PacketTooLarge else Ok tt.
Proof. apply validate_raw_packet_cases. Qed.

(** C23. Reading a packet never panics, whatever its bytes: neither the search for the listener
    a SYN is for nor the classification of a reset indexes outside the packet. *)
Theorem packet_parsing_never_panics (packet : bytes) :
  tcp_listener_target packet ≠ Panic ∧ reset_endpoints packet ≠ Panic.
Proof.
  split; eapply safe_no_panic; [apply tcp_listener_target_safe|apply reset_endpoints_safe].
Qed.

(** Addresses of the two families have different keys. *)
Lemma address_key_inj a b :
  addr_wf a = true → addr_wf b = true → family_of a = family_of b → address_key a = address_key b → a = b.
Proof.
  destruct a as [o|o], b as [o'|o']; simpl; intros Ha Hb Hf Hk; try done; [|by subst].
  by apply app_inj_2 in Hk as [-> _].
Qed.

(** C24. Two connections share a key of the connection table only if they are the same pair of
    endpoints. *)
Theorem connection_key_injective (l r l' r' : IpEndpoint) :
  Forall (λ e, addr_wf (addr e) = true) [l; r; l'; r'] →
  same_family (addr l) (addr r) = true → same_family (addr l') (addr r') = true →
  connection_key l r = connection_key l' r' → l = l' ∧ r = r'.
Proof.
  rewrite !list.Forall_cons. intros (Hl & Hr & Hl' & Hr' & _) Hf Hf' [= Hfam Hla Hlp Hra Hrp].
  destruct l as [la lp], r as [ra rp], l' as [la' lp'], r' as [ra' rp']; simpl in *. subst.
  apply address_key_inj in Hla as ->; [|done|done|done].
  apply address_key_inj in Hra as ->; [done|done|done|]. by destruct la', ra, ra'.
Qed.
Definition sample_v4 (n : Byte.byte) (p : u16) : IpEndpoint :=
  {| addr := Ipv4 [Byte.x0a; Byte.x00; Byte.x00; n]; port := p |}.
Lemma connection_key_injective_witness :
  connection_key (sample_v4 Byte.x01 80) (sample_v4 Byte.x02 5000)
  ≠ connection_key (sample_v4 Byte.x01 80) (sample_v4 Byte.x02 5001).
Proof.
  intros Hk. apply connection_key_injective in Hk as [_ ?]; [done|repeat constructor|done|done].
Defined.
