(* ===== verification/Smol.v ===== *)
(** * The smoltcp interface the stack drives

    Models the part of the vendored smoltcp that [stack.rs] calls: the socket
    set, the methods of TCP and UDP sockets, and the interface.

    What one poll of the interface does to the sockets (the TCP and UDP
    machines, ICMP, reassembly) is not translated. It is a parameter: [Engine]
    gives, for each poll, the [DevProg] it performs on the device and the
    sockets it leaves. The fields of a TCP socket that only the machine uses
    (sequence numbers, windows, timers, congestion control) are one opaque
    component, [tcp_rest], and the transmit ring of a UDP socket another. *)
From S2P Require Import Prelude Budget Waiter Wire TcpSupport Device Packet.

Class SmolTypes := {
  TcpRest : Type;
  UdpTx : Type;
  IfaceRest : Type;
  (** a socket just created, and one after each call that touches the rest *)
  tcp_rest_new : usize → TcpRest;
  tcp_rest_reset : usize → TcpRest → TcpRest;
  tcp_rest_connect : IfaceRest → TcpRest → TcpRest;
  iface_after_connect : IfaceRest → IfaceRest;
  (** data queued: whether the queue was empty, and how much *)
  tcp_rest_sent : bool → usize → TcpRest → TcpRest;
  tcp_rest_received : usize → TcpRest → TcpRest;
  tcp_rest_keep_alive : option KeepAlive → TcpRest → TcpRest;
  tcp_rest_idle : TcpRest → TcpRest;
  udp_tx_new : UdpTx
}.

(** ** TCP sockets *)
Inductive TcpState :=
| StClosed | StListen | StSynSent | StSynReceived | StEstablished | StFinWait1 | StFinWait2
| StCloseWait | StClosing | StLastAck | StTimeWait.
#[export] Instance TcpState_eq_dec : EqDecision TcpState.
Proof. solve_decision. Defined.

Inductive ListenError := ListenInvalidState | ListenUnaddressable.
Inductive ConnectError := ConnectInvalidState | ConnectUnaddressable.
Inductive RecvError := RecvFinished | RecvInvalidState.

Section types.
Context `{SmolTypes}.

Record TcpSocket := {
  tcp_state : TcpState;
  rx_buffer : bytes;
  rx_capacity : usize;
  rx_fin_received : bool;
  tx_buffer : bytes;
  tx_capacity : usize;
  timeout : option Time.Duration;
  tcp_keep_alive : option KeepAlive;
  timeout_abort : bool;
  tcp_listen_endpoint : IpListenEndpoint;
  tuple : option (IpEndpoint * IpEndpoint);
  nagle : bool;
  rx_waker : option Waker;
  tx_waker : option Waker;
  tcp_rest : TcpRest
}.
#[export] Instance eta_TcpSocket : Eta TcpSocket := λ t,
  {| tcp_state := tcp_state t; rx_buffer := rx_buffer t; rx_capacity := rx_capacity t;
     rx_fin_received := rx_fin_received t; tx_buffer := tx_buffer t;
     tx_capacity := tx_capacity t; timeout := timeout t; tcp_keep_alive := tcp_keep_alive t;
     timeout_abort := timeout_abort t; tcp_listen_endpoint := tcp_listen_endpoint t;
     tuple := tuple t; nagle := nagle t; rx_waker := rx_waker t; tx_waker := tx_waker t;
     tcp_rest := tcp_rest t |}.

(** [IpListenEndpoint::default()]. *)
Definition listen_endpoint_default : IpListenEndpoint := {| listen_addr := None; listen_port := 0 |}.

(** [Socket::new] panics on a receive buffer above a gibibyte. *)
Definition tcp_socket_new {E} (rcvbuf sndbuf : usize) : outcome E TcpSocket :=
  if (2 ^ 30 <? rcvbuf)%N then Panic else Ok {|
  tcp_state := StClosed; rx_buffer := []; rx_capacity := rcvbuf; rx_fin_received := false;
  tx_buffer := []; tx_capacity := sndbuf; timeout := None; tcp_keep_alive := None;
  timeout_abort := false; tcp_listen_endpoint := listen_endpoint_default; tuple := None;
  nagle := true; rx_waker := None; tx_waker := None; tcp_rest := tcp_rest_new rcvbuf |}.

(** Methods that wake return the wakers they call, in order; a registration is
    emptied as it is woken. *)
Definition wakers (rx tx : option Waker) : list Waker :=
  match rx with Some w => [w] | None => [] end ++ match tx with Some w => [w] | None => [] end.

Definition wake_both (t : TcpSocket) : list Waker * TcpSocket :=
  (wakers (rx_waker t) (tx_waker t), t <| rx_waker := None |> <| tx_waker := None |>).

Definition set_state (st : TcpState) (t : TcpSocket) : list Waker * TcpSocket :=
  wake_both (t <| tcp_state := st |>).

(** [reset]: back to the closed state, the options kept. *)
Definition tcp_reset (t : TcpSocket) : list Waker * TcpSocket :=
  wake_both {|
    tcp_state := StClosed; rx_buffer := []; rx_capacity := rx_capacity t;
    rx_fin_received := false; tx_buffer := []; tx_capacity := tx_capacity t;
    timeout := timeout t; tcp_keep_alive := tcp_keep_alive t; timeout_abort := false;
    tcp_listen_endpoint := listen_endpoint_default; tuple := None; nagle := nagle t;
    rx_waker := rx_waker t; tx_waker := tx_waker t;
    tcp_rest := tcp_rest_reset (rx_capacity t) (tcp_rest t) |}.

Definition is_open (t : TcpSocket) : bool :=
  match tcp_state t with StClosed | StTimeWait => false | _ => true end.
Definition may_send (t : TcpSocket) : bool :=
  match tcp_state t with StEstablished | StCloseWait => true | _ => false end.
Definition can_recv (t : TcpSocket) : bool := bool_decide (rx_buffer t ≠ []).
Definition may_recv (t : TcpSocket) : bool :=
  match tcp_state t with
  | StEstablished | StFinWait1 | StFinWait2 => true
  | _ => can_recv t
  end.
Definition can_send (t : TcpSocket) : bool :=
  may_send t && negb (llen (tx_buffer t) =? tx_capacity t)%N.
Definition recv_queue (t : TcpSocket) : usize := llen (rx_buffer t).
Definition send_queue (t : TcpSocket) : usize := llen (tx_buffer t).
Definition local_endpoint (t : TcpSocket) : option IpEndpoint := fst <$> tuple t.
Definition tcp_remote_endpoint (t : TcpSocket) : option IpEndpoint := snd <$> tuple t.

Definition tcp_listen_on (e : IpListenEndpoint) (t : TcpSocket) :
    outcome ListenError unit * list Waker * TcpSocket :=
  if (listen_port e =? 0)%N then (Err ListenUnaddressable, [], t)
  else if is_open t then
    if bool_decide (tcp_state t = StListen) && bool_decide (tcp_listen_endpoint t = e)
    then (Ok tt, [], t) else (Err ListenInvalidState, [], t)
  else
    let '(w1, t) := tcp_reset t in
    let t := t <| tcp_listen_endpoint := e |> <| tuple := None |> in
    let '(w2, t) := set_state StListen t in
    (Ok tt, w1 ++ w2, t).

(** The local address a connection takes; [source] is the interface's choice,
    [None] if asking for it panics. *)
Definition connect_local (source : option (option IpAddress)) (e : IpListenEndpoint) :
    outcome ConnectError IpEndpoint :=
  match listen_addr e with
  | Some a =>
      if is_unspecified a then Err ConnectUnaddressable
      else Ok {| addr := a; port := listen_port e |}
  | None =>
      match source with
      | Some (Some a) => Ok {| addr := a; port := listen_port e |}
      | Some None => Err ConnectUnaddressable
      | None => Panic
      end
  end.

(** [connect]; [source] is the interface's [get_source_address] for the remote
    address and [rand] the interface the initial sequence number is drawn from. *)
Definition tcp_connect_to (source : option (option IpAddress)) (rand : IfaceRest) (r : IpEndpoint)
    (e : IpListenEndpoint) (t : TcpSocket) : outcome ConnectError unit * list Waker * TcpSocket :=
  if is_open t then (Err ConnectInvalidState, [], t)
  else if (port r =? 0)%N || is_unspecified (addr r) then (Err ConnectUnaddressable, [], t)
  else if (listen_port e =? 0)%N then (Err ConnectUnaddressable, [], t)
  else
    match connect_local source e with
    | Ok l =>
        if negb (bool_decide (family_of (addr l) = family_of (addr r)))
        then (Err ConnectUnaddressable, [], t)
        else
          let '(w1, t) := tcp_reset t in
          let t := t <| tuple := Some (l, r) |> in
          let '(w2, t) := set_state StSynSent t in
          (Ok tt, w1 ++ w2, t <| tcp_rest ::= tcp_rest_connect rand |>)
    | Err err => (Err err, [], t)
    | Panic => (Panic, [], t)
    end.

Definition restart_timeout_if_idle (t : TcpSocket) : TcpSocket :=
  match tx_buffer t with [] => t <| tcp_rest ::= tcp_rest_idle |> | _ => t end.

(** [close], of the transmit half. *)
Definition tcp_socket_close (t : TcpSocket) : list Waker * TcpSocket :=
  match tcp_state t with
  | StListen | StSynSent => set_state StClosed t
  | StSynReceived | StEstablished => set_state StFinWait1 (restart_timeout_if_idle t)
  | StCloseWait => set_state StLastAck (restart_timeout_if_idle t)
  | StFinWait1 | StFinWait2 | StClosing | StTimeWait | StLastAck | StClosed => ([], t)
  end.

Definition tcp_abort (t : TcpSocket) : list Waker * TcpSocket := set_state StClosed t.

Definition set_timeout (d : option Time.Duration) (t : TcpSocket) : TcpSocket := t <| timeout := d |>.
Definition set_nagle_enabled (b : bool) (t : TcpSocket) : TcpSocket := t <| nagle := b |>.
Definition set_keep_alive_config (k : option KeepAlive) (t : TcpSocket) : TcpSocket :=
  t <| tcp_keep_alive := k |> <| tcp_rest ::= tcp_rest_keep_alive k |>.

(** [send_slice]: what fits of the data is queued. *)
Definition send_slice (data : bytes) (t : TcpSocket) : outcome unit usize * TcpSocket :=
  if negb (may_send t) then (Err tt, t)
  else
    let size := N.min (tx_capacity t - llen (tx_buffer t)) (llen data) in
    (Ok size,
     t <| tx_buffer ::= λ q, q ++ take (N.to_nat size) data |>
       <| tcp_rest ::= λ r,
            if (size =? 0)%N then r else tcp_rest_sent (bool_decide (tx_buffer t = [])) size r |>).

Definition recv_error_check (t : TcpSocket) : outcome RecvError unit :=
  if negb (may_recv t) then
    if rx_fin_received t then Err RecvFinished else Err RecvInvalidState
  else Ok tt.

(** [recv_slice] into a buffer of [n] bytes. *)
Definition recv_slice (n : usize) (t : TcpSocket) : outcome RecvError bytes * TcpSocket :=
  match recv_error_check t with
  | Err e => (Err e, t)
  | Panic => (Panic, t)
  | Ok _ =>
    let size := N.min n (llen (rx_buffer t)) in
    (Ok (take (N.to_nat size) (rx_buffer t)),
     t <| rx_buffer ::= drop (N.to_nat size) |> <| tcp_rest ::= tcp_rest_received size |>)
  end.

(** ** UDP sockets *)
Record UdpMetadata := { meta_endpoint : IpEndpoint; meta_local_address : option IpAddress }.

Record UdpSocket := {
  udp_endpoint : IpListenEndpoint;
  udp_rx : list (bytes * UdpMetadata);
  udp_tx : UdpTx;
  udp_rx_waker : option Waker;
  udp_tx_waker : option Waker
}.
#[export] Instance eta_UdpSocket : Eta UdpSocket := λ u,
  {| udp_endpoint := udp_endpoint u; udp_rx := udp_rx u; udp_tx := udp_tx u;
     udp_rx_waker := udp_rx_waker u; udp_tx_waker := udp_tx_waker u |}.

Definition udp_socket_new : UdpSocket := {|
  udp_endpoint := listen_endpoint_default; udp_rx := []; udp_tx := udp_tx_new;
  udp_rx_waker := None; udp_tx_waker := None |}.

Definition udp_is_open (u : UdpSocket) : bool := negb (listen_port (udp_endpoint u) =? 0)%N.

Inductive UdpBindError := UdpBindInvalidState | UdpBindUnaddressable.
Definition udp_bind_to (e : IpListenEndpoint) (u : UdpSocket) :
    outcome UdpBindError unit * list Waker * UdpSocket :=
  if (listen_port e =? 0)%N then (Err UdpBindUnaddressable, [], u)
  else if udp_is_open u then (Err UdpBindInvalidState, [], u)
  else
    (Ok tt, wakers (udp_rx_waker u) (udp_tx_waker u),
     u <| udp_endpoint := e |> <| udp_rx_waker := None |> <| udp_tx_waker := None |>).

Definition udp_can_recv (u : UdpSocket) : bool := match udp_rx u with [] => false | _ => true end.

(** [recv]; [None] is [RecvError::Exhausted]. *)
Definition udp_recv (u : UdpSocket) : option (bytes * UdpMetadata) * UdpSocket :=
  match udp_rx u with
  | [] => (None, u)
  | d :: q => (Some d, u <| udp_rx := q |>)
  end.

(** ** The socket set *)
Inductive Socket := STcp (t : TcpSocket) | SUdp (u : UdpSocket).
Definition SocketSet : Type := list (option Socket).

Fixpoint add_at (index : N) (s : Socket) (set : SocketSet) : SocketHandle * SocketSet :=
  match set with
  | [] => (index, [Some s])
  | None :: set => (index, Some s :: set)
  | Some s' :: set => let '(h, set) := add_at (index + 1) s set in (h, Some s' :: set)
  end.
(** [add]: the first free slot, or a new one at the end. *)
Definition set_add (s : Socket) (set : SocketSet) : SocketHandle * SocketSet := add_at 0 s set.

Definition set_get (set : SocketSet) (h : SocketHandle) : option Socket := mjoin (set !! N.to_nat h).
Definition set_put (h : SocketHandle) (s : option Socket) (set : SocketSet) : SocketSet :=
  <[N.to_nat h := s]> set.
Definition get_tcp (set : SocketSet) (h : SocketHandle) : option TcpSocket :=
  match set_get set h with Some (STcp t) => Some t | _ => None end.
Definition get_udp (set : SocketSet) (h : SocketHandle) : option UdpSocket :=
  match set_get set h with Some (SUdp u) => Some u | _ => None end.
(** [iter().count()]. *)
Definition set_count (set : SocketSet) : usize :=
  N.of_nat (length (List.filter (λ s, match s with Some _ => true | None => false end) set)).

(** ** The interface *)
Record Interface := { ip_addrs : list Cidr; iface_routes : list Route; iface_rest : IfaceRest }.
#[export] Instance eta_Interface : Eta Interface := λ i,
  {| ip_addrs := ip_addrs i; iface_routes := iface_routes i; iface_rest := iface_rest i |}.
End types.

Inductive PollResult := PollNone | PollSocketStateChanged.
#[export] Instance PollResult_eq_dec : EqDecision PollResult.
Proof. solve_decision. Defined.

Inductive UdpSendError := UdpUnaddressable | UdpBufferFull.

(** What a poll does, as a program on the device that returns the interface
    and the sockets, or panics. [poll_maintenance] and [get_source_address] give
    [None] if they panic; the other functions are taken to return. *)
Class Engine `{SmolTypes} := {
  iface_new : u64 → BeamDevice → Time.Instant → list Cidr → list Route → Interface;
  poll_ingress_single : Time.Instant → Interface → SocketSet → DevProg (Interface * SocketSet);
  poll_egress : Time.Instant → Interface → SocketSet → DevProg (Interface * SocketSet * PollResult);
  poll_maintenance : Time.Instant → Interface → option Interface;
  iface_poll_at : Time.Instant → Interface → SocketSet → option Time.Instant;
  get_source_address : Interface → IpAddress → option (option IpAddress);
  udp_tx_enqueue : UdpMetadata → bytes → UdpTx → option UdpTx
}.

Section udp_send.
Context `{Engine}.
Definition udp_send_slice (data : bytes) (m : UdpMetadata) (u : UdpSocket) :
    outcome UdpSendError unit * UdpSocket :=
  if (listen_port (udp_endpoint u) =? 0)%N then (Err UdpUnaddressable, u)
  else if is_unspecified (addr (meta_endpoint m)) then (Err UdpUnaddressable, u)
  else if (port (meta_endpoint m) =? 0)%N then (Err UdpUnaddressable, u)
  else
    match udp_tx_enqueue m data (udp_tx u) with
    | None => (Err UdpBufferFull, u)
    | Some tx => (Ok tt, u <| udp_tx := tx |>)
    end.
End udp_send.
