(* ===== verification/Stack.v ===== *)
(** * The state of a stack

    Models [NativeStack] of [stack.rs] and the small methods the others are
    built from. [Sys] is a stack together with what its methods reach outside
    it: the readiness flags, ready queue and identity counters ([Shared]), the
    clock, and the messages sent to processes. The source's [ready] field is
    the queue of [Shared]. *)
From S2P Require Import Prelude Budget Waiter SocketTable Wire TcpSupport Device Packet Smol.

Definition MAX_SOCKET_BUFFER_BYTES : usize := (64 * 2 * MAX_BUFFER_BYTES)%N.

Inductive AbortReason := ReasonClosed | LinkDown | StackDown.
#[export] Instance AbortReason_eq_dec : EqDecision AbortReason.
Proof. solve_decision. Defined.

Inductive Lifecycle := Running | ShuttingDown | Shutdown.
#[export] Instance Lifecycle_eq_dec : EqDecision Lifecycle.
Proof. solve_decision. Defined.

Record PendingNotification := {
  pn_identity : SocketIdentity;
  pn_direction : Direction;
  pn_waiter : Waiter
}.

(** What a process is sent: the socket, the reference of its call and, for an
    abort, why. *)
Inductive Message :=
| Select (to : LocalPid) (socket : SocketIdentity) (r : Reference)
| Abort (to : LocalPid) (socket : SocketIdentity) (r : Reference) (reason : AbortReason).

Record Counters := {
  max_bytes_copied : usize;
  max_input_packets : usize;
  max_output_packets : usize;
  max_ready_events : usize;
  max_maintenance_work : usize;
  ingress_packets : usize;
  rejected_packets : usize;
  emitted_packets : usize;
  poll_calls : usize;
  notifications_delivered : usize;
  notifications_dropped : usize;
  readiness_dropped : usize;
  listener_promotions : usize;
  listener_refills : usize;
  listener_overflow_drops : usize;
  native_calls : usize;
  deadline_yields : usize;
  timeslice_exhaustions : usize;
  max_native_work_nanoseconds : u64;
  icmp_too_big_received : u64;
  icmp_too_big_rejected : u64;
  path_mtu_reductions : u64
}.
#[export] Instance eta_Counters : Eta Counters := λ c, {|
  max_bytes_copied := max_bytes_copied c; max_input_packets := max_input_packets c;
  max_output_packets := max_output_packets c; max_ready_events := max_ready_events c;
  max_maintenance_work := max_maintenance_work c; ingress_packets := ingress_packets c;
  rejected_packets := rejected_packets c; emitted_packets := emitted_packets c;
  poll_calls := poll_calls c; notifications_delivered := notifications_delivered c;
  notifications_dropped := notifications_dropped c; readiness_dropped := readiness_dropped c;
  listener_promotions := listener_promotions c; listener_refills := listener_refills c;
  listener_overflow_drops := listener_overflow_drops c; native_calls := native_calls c;
  deadline_yields := deadline_yields c; timeslice_exhaustions := timeslice_exhaustions c;
  max_native_work_nanoseconds := max_native_work_nanoseconds c;
  icmp_too_big_received := icmp_too_big_received c; icmp_too_big_rejected := icmp_too_big_rejected c;
  path_mtu_reductions := path_mtu_reductions c |}.

Definition counters_default : Counters := {|
  max_bytes_copied := 0; max_input_packets := 0; max_output_packets := 0;
  max_ready_events := 0; max_maintenance_work := 0; ingress_packets := 0;
  rejected_packets := 0; emitted_packets := 0; poll_calls := 0;
  notifications_delivered := 0; notifications_dropped := 0; readiness_dropped := 0;
  listener_promotions := 0; listener_refills := 0; listener_overflow_drops := 0;
  native_calls := 0; deadline_yields := 0; timeslice_exhaustions := 0;
  max_native_work_nanoseconds := 0; icmp_too_big_received := 0; icmp_too_big_rejected := 0;
  path_mtu_reductions := 0 |}.

Definition observe (w : Work) (c : Counters) : Counters :=
  c <| max_bytes_copied ::= λ n, N.max n (w_bytes_copied w) |>
    <| max_input_packets ::= λ n, N.max n (w_input_packets w) |>
    <| max_output_packets ::= λ n, N.max n (w_output_packets w) |>
    <| max_ready_events ::= λ n, N.max n (w_ready_events w) |>
    <| max_maintenance_work ::= λ n, N.max n (w_maintenance_work w) |>.

(** A closing socket is ordered by its deadline, then by its id. *)
#[export] Program Instance deadline_ordered : Ordered (Z * N) :=
  {| okey p := [p.1; Z.of_N p.2] |}.
Next Obligation. intros [??] [??] [= ? ?%N2Z.inj]; simpl in *; by subst. Qed.

(** Whether the [n]-th message sent reaches a live process. *)
Class Mailbox := delivered_at : N → LocalPid → bool.

Section state.
Context `{SmolTypes}.

Record NativeStack := {
  stack_id : u64;
  interface : Interface;
  sockets : SocketSet;
  device : BeamDevice;
  socket_table : SocketTable;
  tcp_records : gmap u64 TcpRecord;
  tcp_listeners : gmap u64 ListenerRecord;
  tcp_connections : gmap ConnectionKey SocketIdentity;
  udp_records : gmap u64 UdpRecord;
  closing_tcp : gset u64;
  closing_deadlines : gset (Time.Instant * u64);
  closing_sweep_cursor : option u64;
  closing_cleanup_pending : bool;
  closing_cleanup_resweep : bool;
  maintenance_cleanup_turn : bool;
  scheduled_poll_at : option Time.Instant;
  next_ephemeral_port : u16;
  next_udp_ephemeral_port : u16;
  listener_scan_cursor : option ListenerMemberKey;
  listener_scan_pending : bool;
  listener_scan_resweep : bool;
  listener_maintenance_turn : bool;
  ready_sweep : bool;
  ready_sweep_cursor : option ReadyKey;
  ready_sweep_resweep : bool;
  ready_sweep_pending : list ReadyKey;
  counters : Counters;
  lifecycle : Lifecycle;
  limits : Limits;
  stack_mtu : usize;
  tcp_timers : TcpTimers;
  route_prefixes : list Cidr;
  call_budget : CallBudget;
  next_forced_budget_checkpoints : option usize;
  next_forced_slice_exhaustion : option usize;
  pending_notifications : list PendingNotification;
  shutdown_reason : AbortReason
}.
#[export] Instance eta_NativeStack : Eta NativeStack := λ s, {|
  stack_id := stack_id s; interface := interface s; sockets := sockets s; device := device s;
  socket_table := socket_table s; tcp_records := tcp_records s;
  tcp_listeners := tcp_listeners s; tcp_connections := tcp_connections s;
  udp_records := udp_records s; closing_tcp := closing_tcp s;
  closing_deadlines := closing_deadlines s; closing_sweep_cursor := closing_sweep_cursor s;
  closing_cleanup_pending := closing_cleanup_pending s;
  closing_cleanup_resweep := closing_cleanup_resweep s;
  maintenance_cleanup_turn := maintenance_cleanup_turn s;
  scheduled_poll_at := scheduled_poll_at s; next_ephemeral_port := next_ephemeral_port s;
  next_udp_ephemeral_port := next_udp_ephemeral_port s;
  listener_scan_cursor := listener_scan_cursor s;
  listener_scan_pending := listener_scan_pending s;
  listener_scan_resweep := listener_scan_resweep s;
  listener_maintenance_turn := listener_maintenance_turn s; ready_sweep := ready_sweep s;
  ready_sweep_cursor := ready_sweep_cursor s; ready_sweep_resweep := ready_sweep_resweep s;
  ready_sweep_pending := ready_sweep_pending s; counters := counters s;
  lifecycle := lifecycle s; limits := limits s; stack_mtu := stack_mtu s;
  tcp_timers := tcp_timers s; route_prefixes := route_prefixes s;
  call_budget := call_budget s;
  next_forced_budget_checkpoints := next_forced_budget_checkpoints s;
  next_forced_slice_exhaustion := next_forced_slice_exhaustion s;
  pending_notifications := pending_notifications s; shutdown_reason := shutdown_reason s |}.

Record Sys := {
  stack : NativeStack;
  shd : Shared;
  clk : Clock;
  outbox : list (Message * bool)
}.
#[export] Instance eta_Sys : Eta Sys := λ s,
  {| stack := stack s; shd := shd s; clk := clk s; outbox := outbox s |}.
End state.

Record Effects := {
  eff_output : list bytes;
  eff_poll_at : option i64;
  eff_more : bool;
  eff_maintenance_work : usize
}.
Definition effects_empty : Effects :=
  {| eff_output := []; eff_poll_at := None; eff_more := false; eff_maintenance_work := 0 |}.

Record Envelope (A : Type) := {
  result : A;
  output : list bytes;
  poll_at : option i64;
  more : bool
}.
Arguments result {A} _.
Arguments output {A} _.
Arguments poll_at {A} _.
Arguments more {A} _.
Arguments Build_Envelope {A} _ _ _ _.
Definition envelope_empty {A} (a : A) : Envelope A :=
  {| result := a; output := []; poll_at := None; more := false |}.

Section methods.
Context `{Beam, Mailbox, Engine}.
(** The error type of a method that does not fail is free. *)
Context {E : Type}.
Abbreviation St := (M Sys E).

(** ** Access to the state *)
Definition gs {A} (f : NativeStack → A) : St A := gets (λ s, f (stack s)).
Definition ms (f : NativeStack → NativeStack) : St unit := modify (λ s, s <| stack ::= f |>).

(** Running a method of the socket table. *)
Definition get_table (s : Sys) : TableState :=
  {| table := socket_table (stack s); shared := shd s |}.
Definition put_table (t : TableState) (s : Sys) : Sys :=
  s <| stack ::= λ st, st <| socket_table := table t |> |> <| shd := shared t |>.

(** Waking runs [mark_ready] on the shared flags and queue. *)
Definition wake (w : Waker) : St unit :=
  modify (λ s, s <| shd ::= λ h,
    let '(f, q) := mark_ready w (flags h) (ready h) in h <| flags := f |> <| ready := q |> |>).
Definition wake_all (ws : list Waker) : St unit := for_each ws wake.

(** The set's [get], [get_mut] and [remove] panic on a bad handle. *)
Definition get_tcp_socket (h : SocketHandle) : St TcpSocket :=
  ss ← gs sockets; expect (get_tcp ss h).
Definition put_tcp_socket (h : SocketHandle) (t : TcpSocket) : St unit :=
  ms (λ st, st <| sockets ::= set_put h (Some (STcp t)) |>).
Definition get_udp_socket (h : SocketHandle) : St UdpSocket :=
  ss ← gs sockets; expect (get_udp ss h).
Definition put_udp_socket (h : SocketHandle) (u : UdpSocket) : St unit :=
  ms (λ st, st <| sockets ::= set_put h (Some (SUdp u)) |>).
Definition add_socket (s : Socket) : St SocketHandle :=
  ss ← gs sockets;
  let '(h, ss) := set_add s ss in
  ms (λ st, st <| sockets := ss |>) ;; mret h.
Definition remove_socket (h : SocketHandle) : St unit :=
  ss ← gs sockets;
  expect (set_get ss h) ;;
  ms (λ st, st <| sockets ::= set_put h None |>).

(** A method of a TCP socket that may wake its wakers, and one that does not. *)
Definition tcp_call (h : SocketHandle) (f : TcpSocket → list Waker * TcpSocket) : St unit :=
  t ← get_tcp_socket h;
  let '(ws, t) := f t in
  put_tcp_socket h t ;; wake_all ws.
Definition tcp_update (h : SocketHandle) (f : TcpSocket → TcpSocket) : St unit :=
  t ← get_tcp_socket h; put_tcp_socket h (f t).

Definition bump (f : Counters → Counters) : St unit := ms (λ st, st <| counters ::= f |>).

(** ** The budget *)
Definition within_budget : St bool := λ s,
  let '(ok, b, c) := checkpoint (call_budget (stack s)) (clk s) in
  (Ok ok, s <| stack ::= λ st, st <| call_budget := b |> |> <| clk := c |>).

(** The closure [|| call_budget.checkpoint()] passed to a component. *)
Definition budget_state : Type := CallBudget * Clock.
Definition budget_checkpoint (b : budget_state) : bool * budget_state :=
  let '(ok, cb, c) := checkpoint b.1 b.2 in (ok, (cb, c)).
Definition get_budget (s : Sys) : budget_state := (call_budget (stack s), clk s).
Definition put_budget (b : budget_state) (s : Sys) : Sys :=
  s <| stack ::= λ st, st <| call_budget := b.1 |> |> <| clk := b.2 |>.

(** [charge_chunk] returns the units still to be charged. *)
Definition charge_chunk (pending : usize) (force : bool) : St usize := λ s,
  if negb force && (pending <? CHARGE_CHUNK)%N then (Ok pending, s)
  else
    let '(_, b, c) := charge (call_budget (stack s)) (clk s) in
    (Ok 0%N, put_budget (b, c) s).

Definition begin_call : St unit := λ s,
  let '(b, c) := budget_start (next_forced_budget_checkpoints (stack s)) (clk s) in
  let b := match next_forced_slice_exhaustion (stack s) with
           | Some charges => force_slice_exhaustion_after charges b
           | None => b
           end in
  (Ok tt, s <| stack ::= λ st, st <| call_budget := b |>
              <| next_forced_budget_checkpoints := None |>
              <| next_forced_slice_exhaustion := None |> |>
            <| clk := c |>).

Definition observe_call : St unit := λ s,
  let b := call_budget (stack s) in
  let '(elapsed, c) := elapsed_nanoseconds b (clk s) in
  (Ok tt, s <| clk := c |> <| stack ::= λ st, st <| counters ::= λ k,
     k <| native_calls ::= incr |>
       <| max_native_work_nanoseconds ::= λ n, N.max n elapsed |>
       <| deadline_yields ::= λ n, if yielded b then incr n else n |>
       <| timeslice_exhaustions ::= λ n, if slice_exhausted b then incr n else n |> |> |>).

(** [with_stack], on a stack that is there and whose lock is free. *)
Definition with_stack {A} (operation : St A) : St A := λ s,
  match (begin_call ;; operation) s with
  | (Panic, s) => (Panic, s)
  | (o, s) => match observe_call s with (Ok _, s) => (o, s) | (_, s) => (Panic, s) end
  end.

(** ** Messages *)
Definition send (m : Message) (to : LocalPid) : St bool := λ s,
  let delivered := delivered_at (llen (outbox s)) to in
  (Ok delivered, s <| outbox ::= λ q, q ++ [(m, delivered)] |>).

Definition observe_notification (delivered : bool) : St unit :=
  if delivered then bump (λ c, c <| notifications_delivered ::= incr |>)
  else bump (λ c, c <| notifications_dropped ::= incr |>).

Definition deliver_ready (key : ReadyKey) : St unit :=
  r ← expect_ok (zoom get_table put_table (take_ready_waiter key));
  match r with
  | Notify w =>
      delivered ← send (Select (pid w) (identity key) (reference w)) (pid w);
      observe_notification delivered ;;
      expect_ok (zoom get_table put_table (remember_sent (identity key) (direction key) w))
  | NoWaiter | Coalesced | Stale => bump (λ c, c <| readiness_dropped ::= incr |>)
  end.

Definition deliver_or_discard_ready (key : ReadyKey) : St unit :=
  l ← gs lifecycle;
  match l with
  | Running => deliver_ready key
  | ShuttingDown | Shutdown => bump (λ c, c <| readiness_dropped ::= incr |>)
  end.

Definition send_abort (w : Waiter) (i : SocketIdentity) : St unit :=
  st ← gs (λ st, st);
  let reason := match lifecycle st with
                | Running => ReasonClosed
                | ShuttingDown | Shutdown => shutdown_reason st
                end in
  delivered ← send (Abort (pid w) i (reference w) reason) (pid w);
  observe_notification delivered.

(** ** Requests for a sweep *)
Definition request_listener_scan : St unit :=
  ms (λ st,
    if bool_decide (tcp_listeners st = ∅) then st
    else if listener_scan_pending st then st <| listener_scan_resweep := true |>
    else st <| listener_scan_pending := true |> <| listener_scan_cursor := None |>).

Definition request_closing_cleanup : St unit :=
  ms (λ st,
    if bool_decide (closing_tcp st = ∅) then st
    else if closing_cleanup_pending st then st <| closing_cleanup_resweep := true |>
    else st <| closing_cleanup_pending := true |> <| closing_sweep_cursor := None |>).

Definition next_close_deadline (st : NativeStack) : option Time.Instant :=
  fst <$> bset_first (closing_deadlines st).

(** ** Removing TCP sockets *)
Definition remove_tcp_record (r : TcpRecord) : St unit :=
  match local r, remote r with
  | Some l, Some p => ms (λ st, st <| tcp_connections ::= delete (connection_key l p) |>)
  | _, _ => mret tt
  end ;;
  ms (λ st, st <| tcp_records ::= delete (id (tr_identity r)) |>).

Definition remove_tcp_socket (r : TcpRecord) : St unit :=
  remove_socket (tr_handle r) ;;
  ms (λ st, st <| closing_tcp ::= λ ids, ids ∖ {[id (tr_identity r)]} |>) ;;
  match close_deadline r with
  | Some d => ms (λ st, st <| closing_deadlines ::= λ ds, ds ∖ {[(d, id (tr_identity r))]} |>)
  | None => mret tt
  end ;;
  remove_tcp_record r ;;
  request_listener_scan.

(** ** Reading the configuration and the records *)
Definition has_ip_address (st : NativeStack) (a : IpAddress) : bool :=
  existsb (λ c, bool_decide (cidr_address c = a)) (ip_addrs (interface st)).

Definition reachable (st : NativeStack) (a : IpAddress) : bool :=
  existsb (λ c, contains_addr c a) (ip_addrs (interface st))
  || existsb (λ c, contains_addr c a) (route_prefixes st).

Definition tcp_record_in_use (st_excluding : option SocketIdentity) (p : u16) (f : AddressFamily)
    (r : TcpRecord) : bool :=
  bool_decide (Some (tr_identity r) ≠ st_excluding) && bool_decide (tr_family r = f)
  && negb (accepted r)
  && match local r with Some l => (port l =? p)%N | None => false end.
Definition listener_in_use (excluding : option SocketIdentity) (p : u16) (f : AddressFamily)
    (l : ListenerRecord) : bool :=
  bool_decide (Some (lr_identity l) ≠ excluding) && family_matches f (addr (lr_local l))
  && (port (lr_local l) =? p)%N.
Definition port_in_use (st : NativeStack) (p : u16) (f : AddressFamily)
    (excluding : option SocketIdentity) : bool :=
  existsb (tcp_record_in_use excluding p f) (bmap_values (tcp_records st))
  || existsb (listener_in_use excluding p f) (bmap_values (tcp_listeners st)).

Definition udp_port_in_use (st : NativeStack) (p : u16) (f : AddressFamily)
    (excluding : option SocketIdentity) : bool :=
  existsb (λ r, bool_decide (Some (ur_identity r) ≠ excluding) && bool_decide (ur_family r = f)
    && match udp_local r with Some l => (v_port l =? p)%N | None => false end)
    (bmap_values (udp_records st)).

(** The ports [allocate_ephemeral_port] avoids. *)
Definition used_tcp_ports (st : NativeStack) (f : AddressFamily) : gset u16 :=
  list_to_set
    (omap (λ r, if bool_decide (tr_family r = f) then port <$> local r else None)
       (bmap_values (tcp_records st))
     ++ omap (λ l, if family_matches f (addr (lr_local l)) then Some (port (lr_local l)) else None)
       (bmap_values (tcp_listeners st))).
Definition used_udp_ports (st : NativeStack) (f : AddressFamily) : gset u16 :=
  list_to_set
    (omap (λ r, if bool_decide (ur_family r = f) then v_port <$> udp_local r else None)
       (bmap_values (udp_records st))).

Definition port_after (p : u16) : u16 :=
  if (p =? EPHEMERAL_PORT_LAST)%N then EPHEMERAL_PORT_FIRST else (p + 1)%N.

Definition socket_buffer_bytes (st : NativeStack) : usize :=
  (bmap_sum (λ r, (tr_rcvbuf r + tr_sndbuf r)%N) (tcp_records st)
   + bmap_sum (λ l, (N.of_nat (size (pool l)) * (lr_rcvbuf l + lr_sndbuf l))%N) (tcp_listeners st)
   + bmap_sum (λ r, (llen (handles r) * BUFFER_BYTES)%N) (udp_records st))%N.

Definition current_effects (now : Time.Instant) : St Effects :=
  at_ ← gs (λ st, iface_poll_at now (interface st) (sockets st));
  mret {| eff_output := []; eff_poll_at := Time.total_millis <$> at_; eff_more := false;
          eff_maintenance_work := 0 |}.
End methods.

(** ** Methods that fail with a [SocketError] *)
Section fallible.
Context `{Beam, Mailbox, Engine}.
Abbreviation St := (M Sys SocketError).

Definition on_table {A} (m : T A) : St A := zoom get_table put_table m.

Definition ensure_running : St unit :=
  l ← gs lifecycle;
  match l with Running => mret tt | ShuttingDown | Shutdown => fail Closed end.

Definition ensure_logical_socket_capacity : St unit :=
  st ← gs (λ st, st);
  count ← ok_or (checked_add (table_len (socket_table st)) (N.of_nat (size (closing_tcp st))))
    SystemLimit;
  fail_if (l_sockets (limits st) <=? count)%N SystemLimit.

Definition ensure_socket_buffer_capacity (added : usize) : St unit :=
  st ← gs (λ st, st);
  match checked_add (socket_buffer_bytes st) added with
  | Some total => fail_if (negb (total <=? MAX_SOCKET_BUFFER_BYTES)%N) SystemLimit
  | None => fail SystemLimit
  end.

Definition ensure_native_socket_capacity (added removed : usize) : St unit :=
  st ← gs (λ st, st);
  count ← ok_or (count ← checked_sub (set_count (sockets st)) removed; checked_add count added)
    SystemLimit;
  fail_if (l_sockets (limits st) <? count)%N SystemLimit.

Definition is_listener (st : NativeStack) (i : SocketIdentity) : bool :=
  match tcp_listeners st !! id i with
  | Some l => bool_decide (lr_identity l = i)
  | None => false
  end.

Definition tcp_record (i : SocketIdentity) : St TcpRecord :=
  st ← gs (λ st, st);
  if is_listener st i then fail InvalidState
  else
    match tcp_records st !! id i with
    | Some r => if bool_decide (tr_identity r = i) then mret r else fail InvalidSocket
    | None => fail InvalidSocket
    end.
(** [tcp_record_mut], with the change made through the reference. *)
Definition tcp_record_mut (i : SocketIdentity) (f : TcpRecord → TcpRecord) : St unit :=
  r ← tcp_record i;
  ms (λ st, st <| tcp_records ::= <[id i := f r]> |>).

Definition udp_record (i : SocketIdentity) : St UdpRecord :=
  st ← gs (λ st, st);
  match udp_records st !! id i with
  | Some r => if bool_decide (ur_identity r = i) then mret r else fail InvalidSocket
  | None => fail InvalidSocket
  end.
Definition udp_record_mut (i : SocketIdentity) (f : UdpRecord → UdpRecord) : St unit :=
  r ← udp_record i;
  ms (λ st, st <| udp_records ::= <[id i := f r]> |>).

Definition ensure_connected (r : TcpRecord) : St unit :=
  match phase r with
  | PhaseConnected =>
      t ← get_tcp_socket (tr_handle r);
      fail_if (timeout_abort t) (socket_error TimedOut)
  | PhaseFailed failure => fail (socket_error failure)
  | PhaseOpen | PhaseBound | PhaseConnecting => fail NotConnected
  end.

Definition allocate_ephemeral_port (f : AddressFamily) : St u16 :=
  st ← gs (λ st, st);
  p ← lift_outcome (allocate_ephemeral (used_tcp_ports st f) (next_ephemeral_port st)
        EPHEMERAL_PORT_FIRST EPHEMERAL_PORT_LAST);
  ms (λ st, st <| next_ephemeral_port := port_after p |>) ;;
  mret p.

Definition allocate_udp_ephemeral_port (f : AddressFamily) : St u16 :=
  st ← gs (λ st, st);
  p ← lift_outcome (allocate_ephemeral (used_udp_ports st f) (next_udp_ephemeral_port st)
        EPHEMERAL_PORT_FIRST EPHEMERAL_PORT_LAST);
  ms (λ st, st <| next_udp_ephemeral_port := port_after p |>) ;;
  mret p.

Definition concrete_listener_endpoint (v : ValidatedEndpoint) : St IpListenEndpoint :=
  st ← gs (λ st, st);
  if negb (is_unspecified (v_address v)) then mret (listen_endpoint v)
  else
    let f := family_of (v_address v) in
    a ← ok_or (List.find (λ a, family_matches f a && negb (is_unspecified a))
                 (cidr_address <$> ip_addrs (interface st))) AddressNotAvailable;
    mret {| listen_addr := Some a; listen_port := v_port v |}.

(** [tcp_support::socket]. *)
Definition tcp_socket (rcvbuf sndbuf : usize) : outcome SocketError TcpSocket :=
  if negb (valid_buffer_bytes rcvbuf) || negb (valid_buffer_bytes sndbuf) then Err InvalidOptions
  else tcp_socket_new rcvbuf sndbuf.
End fallible.
