(* ===== verification/Create.v ===== *)
(** * Creating a stack

    Models [StackResource::new] and [NativeStack::new] of [stack.rs], and a
    small engine on which the theorems about stacks are run. *)
From S2P Require Import Prelude Budget Waiter SocketTable Wire TcpSupport Device Packet Smol Stack.

(** The capacities the engine is built with: the number of addresses is a
    feature [smolnet_core] asks for, the number of routes smoltcp's default. *)
Definition IFACE_MAX_ADDR_COUNT : usize := 8.
Definition IFACE_MAX_ROUTE_COUNT : usize := 2.

Section creation.
Context `{Beam, Engine}.

(** [iter().map(..).collect()] of a conversion that may panic. *)
Fixpoint collect {E A B} (f : A → outcome E B) (l : list A) : outcome E (list B) :=
  match l with
  | [] => Ok []
  | a :: l => b ← f a; bs ← collect f l; Ok (b :: bs)
  end.

(** [check_ip_addrs], run when the addresses are set. *)
Definition check_ip_addrs (cs : list Cidr) : bool :=
  forallb (λ c, is_unicast (cidr_address c) || is_unspecified (cidr_address c)) cs.

(** The addresses and routes of a new interface; pushing past a capacity, or
    an address of the wrong kind, panics. *)
Definition configured_interface (config : StackConfig) : outcome StackError (list Cidr * list Route) :=
  cs ← collect address_to_cidr (addresses config);
  rs ← collect to_route (routes config);
  if (llen cs <=? IFACE_MAX_ADDR_COUNT)%N && check_ip_addrs cs
     && (llen rs <=? IFACE_MAX_ROUTE_COUNT)%N
  then Ok (cs, rs) else Panic.

(** [StackResource::new] and [NativeStack::new]; [stack_id] is what
    [NEXT_STACK_ID] gave, [ids] and [generations] the identity counters. *)
Definition stack_new (lim : Limits) (config : StackConfig) (now : Time.Instant)
    (stack_id ids generations : u64) (c : Clock) : outcome StackError Sys :=
  if negb (limits_valid lim) then Err InvalidLimits
  else
    config_validate config lim ;;
    prefixes ← collect route_to_cidr (routes config);
    let d := device_new (cfg_mtu config) (l_input_packets lim) (cfg_egress_credit config) in
    '(cs, rs) ← configured_interface config;
    let '(budget, c) := budget_start None c in
    Ok {|
      stack := {|
        stack_id := stack_id; interface := iface_new stack_id d now cs rs; sockets := [];
        device := d; socket_table := table_new (l_sockets lim) (l_sockets lim * 2);
        tcp_records := ∅; tcp_listeners := ∅; tcp_connections := ∅; udp_records := ∅;
        closing_tcp := ∅; closing_deadlines := ∅; closing_sweep_cursor := None;
        closing_cleanup_pending := false; closing_cleanup_resweep := false;
        maintenance_cleanup_turn := false; scheduled_poll_at := None;
        next_ephemeral_port := EPHEMERAL_PORT_FIRST;
        next_udp_ephemeral_port := EPHEMERAL_PORT_FIRST; listener_scan_cursor := None;
        listener_scan_pending := false; listener_scan_resweep := false;
        listener_maintenance_turn := true; ready_sweep := false; ready_sweep_cursor := None;
        ready_sweep_resweep := false; ready_sweep_pending := []; counters := counters_default;
        lifecycle := Running; limits := lim; stack_mtu := cfg_mtu config;
        tcp_timers := cfg_tcp_timers config; route_prefixes := prefixes;
        call_budget := budget; next_forced_budget_checkpoints := None;
        next_forced_slice_exhaustion := None; pending_notifications := [];
        shutdown_reason := ReasonClosed |};
      shd := {| flags := ∅; ready := queue_new (N.max (l_ready_events lim / 2) 1);
                next_socket_id := ids; next_generation := generations |};
      clk := c; outbox := [] |}.
End creation.

(** ** A concrete stack

    The smallest engine: a poll takes the packet it is offered and drops it,
    and sends nothing. *)
Section sample.
Definition idle_types : SmolTypes := {|
  TcpRest := unit; UdpTx := list (bytes * IpEndpoint); IfaceRest := unit;
  tcp_rest_new _ := tt; tcp_rest_reset _ _ := tt; tcp_rest_connect _ _ := tt;
  iface_after_connect _ := tt; tcp_rest_sent _ _ _ := tt; tcp_rest_received _ _ := tt;
  tcp_rest_keep_alive _ _ := tt; tcp_rest_idle _ := tt; udp_tx_new := [] |}.
#[local] Existing Instance idle_types.
Definition idle_engine : Engine := {|
  iface_new _ _ _ cs rs := {| ip_addrs := cs; iface_routes := rs; iface_rest := tt : IfaceRest |};
  poll_ingress_single _ i ss := DReceive (DRet (i, ss)) (λ _, None) (λ _, DRet (i, ss));
  poll_egress _ i ss := DRet (i, ss, PollNone);
  poll_maintenance _ i := Some i;
  iface_poll_at _ _ _ := None;
  get_source_address i _ := Some (cidr_address <$> head (ip_addrs i));
  udp_tx_enqueue m d q :=
    if (llen (q : list (bytes * IpEndpoint)) <? PACKET_CAPACITY)%N
    then Some (q ++ [(d, meta_endpoint m)]) else None |}.
Definition idle_beam : Beam :=
  {| clock_at _ := 0%Z; timeslice_spent _ _ := false; overflow_checks := true |}.
Definition idle_mailbox : Mailbox := λ _ _, true.

#[local] Existing Instances idle_engine idle_beam idle_mailbox.

Definition sample_limits : Limits := {|
  l_bytes_copied := 65575; l_input_packets := 32; l_output_packets := 32; l_ready_events := 4;
  l_maintenance_work := 8; l_sockets := 16 |}.
(** 10.0.0.1/24. *)
Definition sample_config : StackConfig := {|
  cfg_mtu := 1500;
  addresses := [{| ac_address := [Byte.x0a; Byte.x00; Byte.x00; Byte.x01]; ac_prefix_length := 24 |}];
  routes := []; cfg_egress_credit := None; cfg_tcp_timers := timers_default |}.
(** The value of an outcome that computes to one. *)
Definition from_ok {E A} (o : outcome E A) : match o return Type with Ok _ => A | _ => unit end :=
  match o with Ok a => a | _ => tt end.
Definition sample_sys : Sys :=
  from_ok (stack_new sample_limits sample_config 0%Z 1 1 1 clock_new).
End sample.

(** ** Theorems *)
Lemma collect_ok {E A B} (f : A → outcome E B) (l : list A) (P : B → Prop) :
  (∀ a, a ∈ l → ∃ b, f a = Ok b ∧ P b) →
  ∃ bs, collect f l = Ok bs ∧ llen bs = llen l ∧ Forall P bs.
Proof.
  induction l as [|a l IH]; intros Hf; [by exists []|].
  destruct (Hf a) as (b & Hb & HP); [set_solver|].
  destruct IH as (bs & Hbs & Hlen & HF); [intros a' ?; apply Hf; set_solver|].
  exists (b :: bs). simpl. rewrite Hb. simpl. rewrite Hbs. unfold llen in *. simpl.
  split_and!; [done|lia|by constructor].
Qed.

Lemma cidr_new_ok {E} a len : (len <= prefix_limit a)%N →
  cidr_new (E:=E) a len = Ok {| cidr_address := a; prefix_len := len |}.
Proof. unfold cidr_new, prefix_limit. intros. repeat case_match; simplify_eq; done || lia. Qed.

Lemma address_to_cidr_ok {E} c : address_valid c = true →
  ∃ cidr, address_to_cidr (E:=E) c = Ok cidr
    ∧ is_unicast (cidr_address cidr) || is_unspecified (cidr_address cidr) = true.
Proof.
  unfold address_valid, address_to_cidr. destruct (ip_address (ac_address c)) as [a|]; [|done].
  intros [Hp Hu]%andb_true_iff. rewrite cidr_new_ok by lia. eexists. split; [done|]. simpl.
  by rewrite orb_comm.
Qed.

Lemma route_to_cidr_ok {E} c : route_valid c = true →
  ∃ cidr, route_to_cidr (E:=E) c = Ok cidr ∧ ∃ r, to_route (E:=E) c = Ok r.
Proof.
  unfold route_valid, to_route, route_to_cidr.
  destruct (ip_address (destination c)) as [a|]; [|done].
  destruct (ip_address (gateway c)) as [g|]; [|done].
  intros Hv. rewrite !andb_true_iff in Hv. rewrite cidr_new_ok by lia. eauto.
Qed.

Lemma existsb_negb_false {A} (f : A → bool) l x :
  existsb (λ a, negb (f a)) l = false → x ∈ l → f x = true.
Proof.
  intros He Hx. destruct (f x) eqn:Hf; [done|].
  assert (existsb (λ a, negb (f a)) l = true); [|congruence]. apply existsb_exists.
  exists x. rewrite Hf. by rewrite <-list_elem_of_In.
Qed.

(** What a valid configuration comes to: a panic if it has more routes than
    the engine holds. *)
Lemma configured_interface_valid config lim :
  config_validate config lim = Ok tt →
  (∃ prefixes, collect (E:=StackError) route_to_cidr (routes config) = Ok prefixes)
  ∧ ∃ cs rs, llen cs = llen (addresses config) ∧
      configured_interface config =
        if (llen (routes config) <=? IFACE_MAX_ROUTE_COUNT)%N then Ok (cs, rs) else Panic.
Proof.
  unfold config_validate. destruct (_ || _) eqn:Hv; [done|]. intros _. rewrite !orb_false_iff in Hv.
  destruct Hv as [[[[[[_ _] Ha] _] Hav] Hrv] _].
  destruct (collect_ok (E:=StackError) address_to_cidr (addresses config) (λ c,
    is_unicast (cidr_address c) || is_unspecified (cidr_address c) = true)) as (cs & Hcs & Hlc & HFc).
  { intros a Hin. apply address_to_cidr_ok. by eapply existsb_negb_false. }
  destruct (collect_ok (E:=StackError) to_route (routes config) (λ _, True)) as (rs & Hrs & Hlr & _).
  { intros r Hin. destruct (route_to_cidr_ok (E:=StackError) r) as (? & _ & ? & ?); [|eauto].
    by eapply existsb_negb_false. }
  destruct (collect_ok (E:=StackError) route_to_cidr (routes config) (λ _, True)) as (ps & Hps & _).
  { intros r Hin. destruct (route_to_cidr_ok (E:=StackError) r) as (? & ? & _); [|eauto].
    by eapply existsb_negb_false. }
  split; [by exists ps|]. exists cs, rs. split; [done|].
  unfold configured_interface. rewrite Hcs. simpl. rewrite Hrs. simpl. rewrite Hlr.
  unfold IFACE_MAX_ADDR_COUNT. replace (llen cs <=? 8)%N with true by lia.
  replace (check_ip_addrs cs) with true; [done|]. symmetry. apply forallb_forall.
  intros c Hc%list_elem_of_In. rewrite list.Forall_forall in HFc. by apply HFc.
Qed.

Section creation_theorems.
Context `{Beam, Engine}.

(** C20. Creating a stack succeeds exactly on valid limits and a valid configuration with at
    most two routes, giving a running stack with a well-formed table; invalid limits or
    configurations give their error; and the only panic is a valid configuration with three
    or four routes. *)
Theorem stack_new_outcome lim config now stack_id ids generations c :
  match stack_new lim config now stack_id ids generations c with
  | Ok s =>
      limits_valid lim = true ∧ config_validate config lim = Ok tt
      ∧ (llen (routes config) <= IFACE_MAX_ROUTE_COUNT)%N
      ∧ lifecycle (stack s) = Running ∧ limits (stack s) = lim ∧ sockets (stack s) = []
      ∧ ((ids <= MAX_SOCKET_ID + 1 ∧ generations <= MAX_SOCKET_ID + 1)%N → table_wf (get_table s))
  | Err e =>
      if limits_valid lim then e = InvalidStackConfig ∧ config_validate config lim = Err e
      else e = InvalidLimits
  | Panic =>
      limits_valid lim = true ∧ config_validate config lim = Ok tt
      ∧ (IFACE_MAX_ROUTE_COUNT < llen (routes config) <= 4)%N
  end.
Proof.
  unfold stack_new. destruct (limits_valid lim); [simpl|done].
  destruct (config_validate config lim) as [[]|e|] eqn:Hv; simpl; cycle 1.
  { unfold config_validate in Hv. by case_match; simplify_eq. }
  { unfold config_validate in Hv. by case_match. }
  destruct (configured_interface_valid _ _ Hv) as ([ps ->] & cs & rs & _ & ->). simpl.
  destruct (N.leb_spec (llen (routes config)) IFACE_MAX_ROUTE_COUNT) as [Hle|Hgt]; simpl.
  - split_and!; try done. intros [? ?]. constructor; simpl; try done; try lia.
    unfold table_len. simpl. rewrite map_size_empty. lia.
  - split_and!; [done|done|lia|]. unfold config_validate in Hv. destruct (_ || _) eqn:Hb; [done|].
    rewrite !orb_false_iff in Hb. lia.
Qed.
End creation_theorems.
