(* ===== verification/Readiness.v ===== *)
(** * The end of a call: aborts, readiness and the continuation

    Models [finish_call] of [stack.rs], which every method of the stack ends
    with. It sends the aborts owed, delivers the readiness the call's wakers
    queued, sweeps the table after an overflow, and tells the caller whether
    work is left. *)
From S2P Require Import Prelude Budget Waiter SocketTable Wire TcpSupport Device Packet Smol.
From S2P Require Import Stack Create.

Section finish_call.
Context `{Beam, Mailbox, Engine}.
Context {E : Type}.
Abbreviation St := (M Sys E).

(** The two counts the loops carry: the units of readiness work done, and
    those not yet charged. *)
Abbreviation tally := (usize * usize)%type.

Definition pop_pending_notification : St PendingNotification :=
  q ← gs pending_notifications;
  n ← expect (head q);
  ms (λ st, st <| pending_notifications := tail q |>) ;; mret n.

Definition abort_turn (acc : tally) : St (tally * bool) :=
  let '(work, uncharged) := acc in
  st ← gs (λ st, st);
  if (work <? l_ready_events (limits st))%N && bool_decide (pending_notifications st ≠ []) then
    ok ← within_budget;
    if (ok : bool) then
      n ← pop_pending_notification;
      send_abort (pn_waiter n) (pn_identity n) ;;
      uncharged ← charge_chunk (uncharged + 1) false;
      mret ((work + 1, uncharged)%N, true)
    else mret (acc, false)
  else mret (acc, false).

(** An overflow starts a sweep, or has the one under way run again. *)
Definition request_sweep (overflowed : bool) (st : NativeStack) : NativeStack :=
  if overflowed && bool_decide (lifecycle st = Running) then
    if ready_sweep st then st <| ready_sweep_resweep := true |>
    else st <| ready_sweep := true |> <| ready_sweep_cursor := None |>
  else st.

Definition note_overflow : St unit :=
  q ← gets (ready ∘ shd);
  let '(overflowed, q) := take_overflow q in
  modify (λ s, s <| shd ::= λ h, h <| ready := q |> |>) ;;
  ms (request_sweep overflowed).

Definition drain_ready (limit : usize) : St (list ReadyKey) := λ s,
  let '(keys, q, b) := drain_while budget_checkpoint limit (ready (shd s)) (get_budget s) in
  (Ok keys, put_budget b (s <| shd ::= λ h, h <| ready := q |> |>)).

Definition queued_turn (key : ReadyKey) (acc : tally) : St tally :=
  let '(work, uncharged) := acc in
  ok ← within_budget;
  if (ok : bool) then
    deliver_or_discard_ready key ;;
    uncharged ← charge_chunk (uncharged + 1) false;
    mret (work + 1, uncharged)%N
  else
    ms (λ st, st <| ready_sweep_pending ::= λ q, q ++ [key] |>) ;;
    mret acc.

Definition pop_sweep_pending : St ReadyKey :=
  q ← gs ready_sweep_pending;
  key ← expect (head q);
  ms (λ st, st <| ready_sweep_pending := tail q |>) ;; mret key.

Definition pending_turn (acc : tally) : St (tally * bool) :=
  let '(work, uncharged) := acc in
  st ← gs (λ st, st);
  if (work <? l_ready_events (limits st))%N && bool_decide (ready_sweep_pending st ≠ []) then
    ok ← within_budget;
    if (ok : bool) then
      key ← pop_sweep_pending;
      deliver_or_discard_ready key ;;
      uncharged ← charge_chunk (uncharged + 1) false;
      mret ((work + 1, uncharged)%N, true)
    else mret (acc, false)
  else mret (acc, false).

Definition scan_table (start : option ReadyKey) (limit : usize) : St ReadyScan := λ s,
  let '(scan, b) := scan_ready budget_checkpoint (socket_table (stack s)) (flags (shd s))
                      start limit limit (get_budget s) in
  (Ok scan, put_budget b s).

Definition scanned_turn (key : ReadyKey) (uncharged : usize) : St usize :=
  ok ← within_budget;
  if (ok : bool) then
    deliver_or_discard_ready key ;;
    charge_chunk (uncharged + 1) false
  else
    ms (λ st, st <| ready_sweep_pending ::= λ q, q ++ [key] |>) ;;
    mret uncharged.

(** The sweep's own state after a scan. *)
Definition sweep_scanned (scan : ReadyScan) (st : NativeStack) : NativeStack :=
  if scan_complete scan && ready_sweep_resweep st then
    st <| ready_sweep_resweep := false |> <| ready_sweep_cursor := None |>
  else
    st <| ready_sweep := negb (scan_complete scan) |>
       <| ready_sweep_cursor := if negb (scan_complete scan) then scan_cursor scan else None |>.

(** One slice of the sweep. *)
Definition sweep (acc : tally) : St tally :=
  let '(work, uncharged) := acc in
  st ← gs (λ st, st);
  if ready_sweep st && bool_decide (ready_sweep_pending st = [])
     && (work <? l_ready_events (limits st))%N then
    remaining ← expect (checked_sub (l_ready_events (limits st)) work);
    scan ← scan_table (ready_sweep_cursor st) remaining;
    let scan_cost := N.max (entries_scanned scan) (llen (scan_keys scan)) in
    uncharged ← for_acc (scan_keys scan) scanned_turn uncharged;
    ms (sweep_scanned scan) ;;
    mret (work + scan_cost, uncharged)%N
  else mret acc.

Definition readiness_left (st : NativeStack) (q : ReadyState) : bool :=
  bool_decide (pending_notifications st ≠ []) || has_pending q
  || bool_decide (ready_sweep_pending st ≠ []) || ready_sweep st.

Definition finish_call {A} (res : A) (effects : Effects) (aborts : list PendingNotification) :
    St (Envelope A) :=
  ms (λ st, st <| pending_notifications ::= λ q, q ++ aborts |>) ;;
  limit ← gs (l_ready_events ∘ limits);
  let turns := S (N.to_nat limit) in
  acc ← while_loop turns abort_turn (0, 0)%N;
  note_overflow ;;
  remaining ← expect (checked_sub limit acc.1);
  queued ← drain_ready remaining;
  acc ← for_acc queued queued_turn acc;
  acc ← while_loop turns pending_turn acc;
  acc ← sweep acc;
  let '(work, uncharged) := acc in
  s ← gets (λ s, s);
  let more := eff_more effects || readiness_left (stack s) (ready (shd s)) in
  bump (observe {| w_bytes_copied := 0; w_input_packets := 0; w_output_packets := 0;
                   w_ready_events := work;
                   w_maintenance_work := eff_maintenance_work effects |}) ;;
  charge_chunk uncharged true ;;
  match eff_poll_at effects with
  | Some millis =>
      when (negb more)
        (ms (λ st, st <| scheduled_poll_at := Some (Time.from_millis millis) |>))
  | None => mret tt
  end ;;
  mret {| result := res; output := eff_output effects; poll_at := eff_poll_at effects;
          more := more |}.
End finish_call.

(** ** What the end of a call leaves alone *)
(** A stack without the fields [finish_call] writes: two stacks with the same
    [core] agree on every other field. *)
Section core.
Context `{SmolTypes}.
Definition core (st : NativeStack) : NativeStack :=
  st <| socket_table := table_new 0 0 |> <| pending_notifications := [] |>
     <| ready_sweep := false |> <| ready_sweep_cursor := None |> <| ready_sweep_resweep := false |>
     <| ready_sweep_pending := [] |> <| counters := counters_default |>
     <| scheduled_poll_at := None |>
     <| call_budget := {| started_at := 0; deadline := 0; last_charged_at := 0;
          forced_checkpoints := None; forced_charges := None; yielded := false;
          slice_exhausted := false |} |>.
End core.

(** An entry without its waiters. *)
Definition entry_shape (ge : u64 * SocketEntry) :=
  (ge.1, entry_kind ge.2, entry_lifecycle ge.2, internal_handle ge.2, read_ready ge.2,
   write_ready ge.2).
Definition same_shape (s s' : TableState) : Prop :=
  (∀ i, entry_shape <$> table_entries (table s') !! i = entry_shape <$> table_entries (table s) !! i)
  ∧ same_frame s s'.

#[export] Instance same_shape_refl : Reflexive same_shape.
Proof. by intros s. Qed.
#[export] Instance same_shape_trans : Transitive same_shape.
Proof.
  intros s1 s2 s3 (Ha & ? & ? & ? & ?) (Hb & ? & ? & ? & ?).
  split; [intros i; by rewrite Hb|]. unfold same_frame. split_and!; congruence.
Qed.

(** A socket of the table whose flag is set: it has been woken and nobody has
    been told. *)
Definition woken (s : TableState) (k : ReadyKey) : Prop :=
  ∃ e, table_entries (table s) !! id (identity k) = Some (generation (identity k), e)
    ∧ entry_lifecycle e = SlOpen
    ∧ load (entry_ready_flag e (direction k)) (flags (shared s)) = true.

Lemma same_shape_update s s' i g e e' :
  table_entries (table s) !! i = Some (g, e) →
  table_entries (table s') = <[i := (g, e')]> (table_entries (table s)) →
  entry_shape (g, e') = entry_shape (g, e) → same_frame s s' → same_shape s s'.
Proof.
  intros He Hes Hsh Hf. split; [|done]. intros j. rewrite Hes.
  destruct (decide (i = j)) as [<-|]; [|by rewrite lookup_insert_ne].
  by rewrite lookup_insert_eq, He; simpl; f_equal.
Qed.

Lemma woken_shape s s' k :
  same_shape s s' → (∀ c, load c (flags (shared s')) = true → load c (flags (shared s)) = true) →
  woken s' k → woken s k.
Proof.
  intros (Hsh & _) Hf (e' & He' & Hl & Hk). specialize (Hsh (id (identity k))). rewrite He' in Hsh.
  destruct (table_entries (table s) !! id (identity k)) as [[g e]|] eqn:He; [|done].
  unfold entry_shape in Hsh; simplify_eq/=. exists e. split_and!; [done|congruence|].
  apply Hf. rewrite <-Hk. by destruct (direction k); simpl; f_equal.
Qed.

Lemma woken_stored s s' k c :
  table_wf s → same_shape s s' → flags (shared s') = store c false (flags (shared s)) →
  woken s' k → woken s k ∧ k ≠ c.
Proof.
  intros Hwf Hsh Hf Hk. split.
  - eapply woken_shape; [done| |done]. intros c'. rewrite Hf, load_store. by case_decide.
  - intros ->. destruct Hk as (e & He & _ & Hl). rewrite Hf, load_store, decide_True in Hl; [done|].
    destruct Hsh as [Hsh _]. specialize (Hsh (id (identity c))). rewrite He in Hsh.
    destruct (table_entries (table s) !! id (identity c)) as [[g e0]|] eqn:He0; [|done].
    unfold entry_shape in Hsh; simplify_eq/=.
    pose proof (wf_entry_ready_flag _ _ _ _ (direction c) Hwf He0) as Hfl.
    unfold ready_key in Hfl. destruct c as [[] []]; simpl in *; congruence.
Qed.

(** Taking a ready key: the entries keep their shape, and the key is no longer
    woken. *)
Lemma take_ready_shape key s :
  table_wf s →
  wp (take_ready_waiter key)
    (λ res s', op_post s [] (match res with Notify w => [(key, w)] | _ => [] end) s'
      ∧ same_shape s s' ∧ ready (shared s') = ready (shared s)
      ∧ ∀ k, woken s' k → woken s k ∧ k ≠ key)
    (λ _ _, False) s.
Proof.
  intros Hwf. pose proof (take_ready_waiter_spec key s Hwf) as Hop.
  pose proof (take_ready_run key s Hwf) as Hrun. unfold op_spec, wp in *.
  destruct (take_ready_waiter key s) as [[res|e|] s'] eqn:Hr; [|done|done]. split; [done|]. clear Hop Hrun.
  revert Hr. cbv [take_ready_waiter put_entry store_flag waiter_count_sub mbind M_bind gets mret M_ret
    modify expect panic].
  destruct (table_entries (table s) !! id (identity key)) as [[g e]|] eqn:He; cycle 1.
  { intros [= <- <-]. split_and!; [done|done|]. intros k Hk. split; [done|]. intros ->.
    destruct Hk as (? & ? & _). congruence. }
  destruct (negb (g =? generation (identity key))%N || bool_decide (entry_lifecycle e ≠ SlOpen)) eqn:Hst.
  { intros [= <- <-]. split_and!; [done|done|]. intros k Hk. split; [done|]. intros ->.
    destruct Hk as (e' & He' & Hl & _). simplify_eq. rewrite N.eqb_refl in Hst. simpl in Hst.
    by rewrite bool_decide_eq_true in Hst. }
  apply orb_false_iff in Hst as [Hg Hl]. rewrite negb_false_iff, N.eqb_eq in Hg. subst g.
  pose proof (wf_entry_ready_flag _ _ _ _ (direction key) Hwf He) as Hfl.
  assert (Hkey : entry_ready_flag e (direction key) = key) by (rewrite Hfl; by destruct key as [[] ?]).
  rewrite Hkey.
  assert (Hsh : ∀ t, table_entries t = table_entries (table s) ∨
      (∃ e', table_entries t = <[id (identity key) := (generation (identity key), e')]> (table_entries (table s))
        ∧ entry_shape (generation (identity key), e') = entry_shape (generation (identity key), e)) →
      max_entries t = max_entries (table s) → max_waiters t = max_waiters (table s) →
      let s' := {| table := t; shared := (shared s) <| flags ::= store key false |> |} in
      same_shape s s' ∧ ready (shared s') = ready (shared s)
      ∧ ∀ k, woken s' k → woken s k ∧ k ≠ key).
  { intros t Ht Hm1 Hm2 s1. assert (Hs1 : same_shape s s1).
    { destruct Ht as [Ht|(e' & Ht & Hs)]; [|by eapply same_shape_update].
      split; [|done]. intros i. simpl. by rewrite Ht. }
    split_and!; [done|done|]. intros k. by eapply woken_stored. }
  destruct (negb _); [intros [= <- <-]; apply Hsh; auto|].
  destruct (waiter e (direction key)) as [w|] eqn:Hw; [|intros [= <- <-]; apply Hsh; auto].
  pose proof (waiter_count_pos _ _ _ _ _ _ Hwf He Hw). simpl. rewrite checked_sub_Some by done.
  destruct (direction key) eqn:Hd; simpl; intros [= <- <-]; apply Hsh; simpl; try done; right;
    eexists; split; try done.
Qed.

Lemma remember_sent_shape i d w s :
  table_wf s →
  wp (remember_sent i d w) (λ _ s', op_post s [] [] s' ∧ same_shape s s' ∧ shared s' = shared s)
    (λ _ _, False) s.
Proof.
  intros Hwf. pose proof (remember_sent_spec i d w s Hwf) as Hop. unfold op_spec in Hop.
  unfold wp in *. destruct (remember_sent i d w s) as [[[]|e|] s'] eqn:Hr; [split; [done|]| |done].
  all: revert Hr; cbv [remember_sent put_entry mbind M_bind gets mret M_ret modify].
  all: destruct (table_entries (table s) !! id i) as [[g e']|] eqn:He; [|by intros [= <-]].
  all: destruct (N.eqb_spec g (generation i)); intros [= <-]; try done.
  split; [|done]. eapply same_shape_update; [done|done| |done]. by destruct d.
Qed.

(** *** Waiters that are to be told *)

(** The waiter is installed on an open socket whose flag is set. *)
Definition due (s : TableState) (k : ReadyKey) (w : Waiter) : Prop := armed_at s k w ∧ woken s k.

(** Of the waiters due in [s], those not in [outs] are still due in [s']. *)
Definition told (s : TableState) (outs : list held) (s' : TableState) : Prop :=
  ∀ k w, due s k w → (k, w) ∈ outs ∨ due s' k w.

Lemma told_same s s' :
  table_entries (table s') = table_entries (table s) → flags (shared s') = flags (shared s) → told s [] s'.
Proof. intros He Hf k w Hk. right. revert Hk. unfold due, armed_at, woken. by rewrite He, Hf. Qed.

Lemma told_trans s s1 s2 outs outs' : told s outs s1 → told s1 outs' s2 → told s (outs ++ outs') s2.
Proof. intros H1 H2 k w [?|[?|?]%H2]%H1; [left|left|by right]; set_solver. Qed.

Lemma due_flag s k w :
  table_wf s → due s k w ↔ armed_at s k w ∧ load k (flags (shared s)) = true.
Proof.
  intros Hwf. unfold due, woken. split.
  - intros [Ha (e & He & _ & Hf)]. split; [done|].
    rewrite (wf_entry_ready_flag _ _ _ _ (direction k) Hwf He) in Hf. by destruct k as [[] ?].
  - intros [(e & He & Hl & Hw) Hf]. split; [by exists e|]. exists e. split_and!; [done|done|].
    rewrite (wf_entry_ready_flag _ _ _ _ (direction k) Hwf He). by destruct k as [[] ?].
Qed.

Lemma take_ready_told key s :
  table_wf s →
  wp (take_ready_waiter key) (λ res s', told s (match res with Notify w => [(key, w)] | _ => [] end) s')
    (λ _ _, False) s.
Proof.
  intros Hwf. pose proof (take_ready_run key s Hwf) as Hrun. pose proof (take_ready_waiter_spec key s Hwf) as Hop.
  unfold op_spec, wp in *. destruct (take_ready_waiter key s) as [[res|e|] s'] eqn:Hr; [|done|done].
  intros k w Hk. apply due_flag in Hk as [Ha Hf]; [|done]. destruct (decide (k = key)) as [->|Hne].
  { left. destruct res as [w'| | |]; [|exfalso; naive_solver congruence..].
    destruct Hrun as [(e1 & He1 & _ & Hw1) _], Ha as (e2 & He2 & _ & Hw2).
    rewrite He1 in He2. simplify_eq. set_solver. }
  right. apply due_flag; [apply Hop|]. clear Hrun Hop. revert Hr.
  cbv [take_ready_waiter put_entry store_flag waiter_count_sub mbind M_bind gets mret M_ret modify expect panic].
  destruct (table_entries (table s) !! id (identity key)) as [[g e]|] eqn:He; [|by intros [= _ <-]].
  destruct (negb (g =? generation (identity key))%N || _) eqn:Hst; [by intros [= _ <-]|].
  apply orb_false_iff in Hst as [Hg _]. rewrite negb_false_iff, N.eqb_eq in Hg. subst g.
  rewrite (wf_entry_ready_flag _ _ _ _ (direction key) Hwf He).
  replace (ready_key _ _) with key by (by destruct key as [[] ?]).
  assert (Hf' : load k (store key false (flags (shared s))) = true) by (by rewrite load_store, decide_False).
  destruct (negb _); [by intros [= _ <-]|].
  destruct (waiter e (direction key)) as [w'|] eqn:Hw; [|by intros [= _ <-]].
  pose proof (waiter_count_pos _ _ _ _ _ _ Hwf He Hw). simpl. rewrite checked_sub_Some by done.
  destruct key as [ki kd]; destruct kd; simpl in *; intros [= _ <-]; (split; [|done]);
    (eapply armed_update; [exact He|done|done| |exact Ha]);
    intros Hi; destruct k as [k []]; simpl in *; subst k; try done; destruct ki; simpl in *; congruence.
Qed.

Lemma remember_sent_told i d w s :
  table_wf s → wp (remember_sent i d w) (λ _ s', told s [] s') (λ _ _, False) s.
Proof.
  intros Hwf. pose proof (remember_sent_spec i d w s Hwf) as Hop. revert Hop.
  cbv [op_spec wp remember_sent put_entry mbind M_bind gets mret M_ret modify].
  destruct (table_entries (table s) !! id i) as [[g e]|] eqn:He; [|intros _; by apply told_same].
  destruct (N.eqb_spec g (generation i)); [|intros _; by apply told_same]. intros [Hwf' _] k w' Hk. right.
  apply due_flag in Hk as [Ha Hf]; [|done]. apply due_flag; [done|]. split; [|done].
  eapply armed_update; [exact He|done| | |exact Ha]; by destruct d, (direction k).
Qed.

(** ** Proof rules for the small methods *)
Section rules.
Context `{Beam, Mailbox, Engine} {E : Type}.
Implicit Types (s : Sys) (Q : unit → Sys → Prop) (R : E → Sys → Prop).

Lemma put_get_budget s : put_budget (get_budget s) s = s.
Proof. by destruct s as [[] ? ? ?]. Qed.

Lemma wp_within_budget (Q : bool → Sys → Prop) R s :
  (∀ ok b, Q ok (put_budget b s)) → wp within_budget Q R s.
Proof.
  unfold wp, within_budget. destruct (checkpoint _ _) as [[ok b] c]. intros HQ. apply (HQ ok (b, c)).
Qed.

Lemma wp_charge_chunk n force (Q : usize → Sys → Prop) R s :
  (∀ m b, Q m (put_budget b s)) → wp (charge_chunk n force) Q R s.
Proof.
  unfold wp, charge_chunk. intros HQ. destruct (negb force && _).
  - rewrite <-(put_get_budget s). apply HQ.
  - destruct (charge _ _) as [[? b] c]. apply HQ.
Qed.

Lemma wp_gs {A} (f : NativeStack → A) (Q : A → Sys → Prop) R s :
  Q (f (stack s)) s → wp (gs f) Q R s.
Proof. done. Qed.

Lemma wp_ms (f : NativeStack → NativeStack) Q R s :
  Q tt (s <| stack ::= f |>) → wp (ms f) Q R s.
Proof. done. Qed.

Lemma wp_send m p (Q : bool → Sys → Prop) R s :
  (∀ d, Q d (s <| outbox ::= λ q, q ++ [(m, d)] |>)) → wp (send m p) Q R s.
Proof. intros HQ. apply HQ. Qed.

Lemma wp_observe_notification d Q R s :
  (∀ f, Q tt (s <| stack ::= λ st, st <| counters ::= f |> |>)) →
  wp (observe_notification d) Q R s.
Proof. intros HQ. destruct d; apply HQ. Qed.
End rules.

Ltac st_step :=
  first
    [ wp_step
    | lazymatch goal with
      | |- wp within_budget _ _ _ => apply wp_within_budget; intros ? ?
      | |- wp (charge_chunk _ _) _ _ _ => apply wp_charge_chunk; intros ? ?
      | |- wp (gs _) _ _ _ => apply wp_gs
      | |- wp (ms _) _ _ _ => apply wp_ms
      | |- wp (bump _) _ _ _ => apply wp_ms
      | |- wp (send _ _) _ _ _ => apply wp_send; intros ?
      | |- wp (observe_notification _) _ _ _ => apply wp_observe_notification; intros ?
      end ].
Ltac st_steps := cbn beta iota; repeat (st_step; cbn beta iota).

(** ** The messages and the sweep *)
Section messages.
Context `{SmolTypes}.

Definition messages (s : Sys) : list Message := (outbox s).*1.

Definition select_of (h : held) : Message := Select (pid h.2) (identity h.1) (reference h.2).

Definition abort_reason (st : NativeStack) : AbortReason :=
  match lifecycle st with Running => ReasonClosed | ShuttingDown | Shutdown => shutdown_reason st end.
Definition abort_of (st : NativeStack) (n : PendingNotification) : Message :=
  Abort (pid (pn_waiter n)) (pn_identity n) (reference (pn_waiter n)) (abort_reason st).

(** The sweep has yet to visit the key. *)
Definition sweep_reaches (st : NativeStack) (k : ReadyKey) : Prop :=
  ready_sweep st = true ∧
  (ready_sweep_resweep st = true ∨ after_cursor (ready_sweep_cursor st) k = true).

Definition sweep_state (st : NativeStack) := (ready_sweep st, ready_sweep_cursor st, ready_sweep_resweep st).

(** Every woken key is queued, or is in [l], or an overflow is marked, or the
    key satisfies [P]. *)
Definition accounted (P : ReadyKey → Prop) (l : list ReadyKey) (s : Sys) : Prop :=
  ∀ k, woken (get_table s) k →
    k ∈ entries (ready (shd s)) ∨ overflow (ready (shd s)) = true
    ∨ k ∈ ready_sweep_pending (stack s) ∨ k ∈ l ∨ P k.

(** No woken socket is forgotten: the invariant of the readiness machinery. *)
Definition wakeups_kept (s : Sys) : Prop := accounted (sweep_reaches (stack s)) [] s.

(** The state [s] after messages that released the waiters [outs]. *)
Record delivered (s0 : Sys) (outs : list held) (s : Sys) : Prop := {
  dl_core : core (stack s) = core (stack s0);
  dl_table : op_post (get_table s0) [] outs (get_table s);
  dl_shape : same_shape (get_table s0) (get_table s);
  dl_out : messages s = messages s0 ++ (select_of <$> outs);
  dl_pending : pending_notifications (stack s) = pending_notifications (stack s0);
  dl_running : outs = [] ∨ lifecycle (stack s0) = Running;
  dl_told : told (get_table s0) outs (get_table s)
}.

(** What the delivery loops keep: at most [w] messages have been sent, and if
    [C] then every woken key is accounted for. *)
Definition delivering (s0 : Sys) (C : Prop) (P : ReadyKey → Prop) (l : list ReadyKey) (w : N)
    (s : Sys) : Prop :=
  ∃ outs, delivered s0 outs s ∧ sweep_state (stack s) = sweep_state (stack s0)
    ∧ (llen outs <= w)%N ∧ (C → accounted P l s).
End messages.

Section delivery.
Context `{Beam, Mailbox, Engine} {E : Type}.
Implicit Types (s : Sys).
Context (s0 : Sys) (C : Prop) (P : ReadyKey → Prop).
Context (Crun : C → lifecycle (stack s0) = Running).

Lemma delivering_budget l w b s : delivering s0 C P l w s → delivering s0 C P l w (put_budget b s).
Proof. intros (outs & [] & ? & ? & ?). exists outs. split_and!; [by constructor|done|done|done]. Qed.

Lemma delivering_counters l w f s :
  delivering s0 C P l w s →
  delivering s0 C P l w (s <| stack ::= λ st, st <| counters ::= f |> |>).
Proof. intros (outs & [] & ? & ? & ?). exists outs. split_and!; [by constructor|done|done|done]. Qed.

Lemma delivering_push k l w s :
  delivering s0 C P (k :: l) w s →
  delivering s0 C P l w (s <| stack ::= λ st, st <| ready_sweep_pending ::= λ q, q ++ [k] |> |>).
Proof.
  intros (outs & [] & ? & ? & Hc). exists outs. split_and!; [by constructor|done|done|].
  intros HC k' Hk'. specialize (Hc HC k' Hk'). simpl in *.
  rewrite elem_of_cons in Hc. rewrite elem_of_app, list_elem_of_singleton. tauto.
Qed.

Lemma delivering_pop k q w s :
  ready_sweep_pending (stack s) = k :: q → delivering s0 C P [] w s →
  delivering s0 C P [k] w (s <| stack ::= λ st, st <| ready_sweep_pending := q |> |>).
Proof.
  intros Hq (outs & [] & ? & ? & Hc). exists outs. split_and!; [by constructor|done|done|].
  intros HC k' Hk'. specialize (Hc HC k' Hk'). simpl in *. rewrite Hq, elem_of_cons, elem_of_nil in Hc.
  rewrite list_elem_of_singleton. tauto.
Qed.

Lemma delivering_lifecycle l w s :
  delivering s0 C P l w s → lifecycle (stack s) = lifecycle (stack s0).
Proof. intros (outs & [Hc] & _). by apply (f_equal lifecycle) in Hc. Qed.

Lemma deliver_ready_wp k l w s :
  lifecycle (stack s0) = Running → delivering s0 C P (k :: l) w s →
  wp (deliver_ready (E:=E) k) (λ _, delivering s0 C P l (w + 1)) (λ _ _, False) s.
Proof.
  intros Hrun (outs & Hd & Hsw & Hw & Hc). pose proof (dl_table _ _ _ Hd) as Hop. unfold deliver_ready.
  apply wp_bind, wp_expect_ok, wp_zoom.
  eapply wp_mono; [apply wp_conj; [apply take_ready_shape|apply take_ready_told]; apply Hop| |by intros ? ? []].
  intros res [tb sh] [(Hop1 & Hsh1 & Hr1 & Hwk1) Htold1]. set (t := {| table := tb; shared := sh |}) in *.
  pose proof (op_post_trans _ _ _ _ _ _ _ Hop Hop1) as Hop2. simpl in Hop2.
  assert (Hacc : C → ∀ s1, get_table s1 = t → ready_sweep_pending (stack s1) = ready_sweep_pending (stack s) →
    accounted P l s1).
  { intros HC s1 Ht Hp k' Hk'. rewrite Ht in Hk'. destruct (Hwk1 k' Hk') as [Hk Hne].
    assert (ready (shd s1) = ready (shd s)) as Hrs by (rewrite <-Ht in Hr1; exact Hr1).
    specialize (Hc HC k' Hk). rewrite Hrs, Hp. rewrite elem_of_cons in Hc. tauto. }
  pose proof (told_trans _ _ _ _ _ (dl_told _ _ _ Hd) Htold1) as Htold2.
  destruct res as [wt| | |]; st_steps.
  all: try (exists outs; rewrite app_nil_r in Hop2, Htold2; split_and!;
    [destruct Hd; constructor; try done; by trans (get_table s)|done|lia|intros HC; by apply Hacc]).
  apply wp_expect_ok, wp_zoom. eapply wp_mono; [apply wp_conj; [apply remember_sent_shape|apply remember_sent_told]; apply Hop1| |by intros ? ? []].
  intros [] [tb' sh'] [(Hop3 & Hsh3 & Hr3) Htold3]. simpl in Hr3.
  exists (outs ++ [(k, wt)]). split_and!; [|done| |].
  - pose proof (op_post_trans _ _ _ _ _ _ _ Hop2 Hop3) as Hop4. rewrite !app_nil_r in Hop4.
    pose proof (told_trans _ _ _ _ _ Htold2 Htold3) as Htold4. rewrite app_nil_r in Htold4.
    destruct Hd; constructor; [done|exact Hop4| | |done|by right|exact Htold4].
    + trans (get_table s); [done|]. by trans t.
    + unfold messages in *. simpl. rewrite !fmap_app. simpl. by rewrite app_assoc, <-dl_out0.
  - rewrite llen_app. unfold llen at 2. simpl. lia.
  - intros HC k' Hk'. assert (woken t k') as Hk.
    { eapply woken_shape; [exact Hsh3| |exact Hk']. intros c. simpl in *. by rewrite Hr3. }
    destruct (Hwk1 k' Hk) as [Hk2 Hne]. specialize (Hc HC k' Hk2). simpl in *.
    rewrite Hr3, Hr1. rewrite elem_of_cons in Hc. tauto.
Qed.

Lemma deliver_or_discard_wp k l w s :
  delivering s0 C P (k :: l) w s →
  wp (deliver_or_discard_ready (E:=E) k) (λ _, delivering s0 C P l (w + 1)) (λ _ _, False) s.
Proof.
  intros Hd. unfold deliver_or_discard_ready. st_steps.
  pose proof (delivering_lifecycle _ _ _ Hd) as Hl.
  destruct (lifecycle (stack s)) eqn:Hls; [apply deliver_ready_wp; congruence|..]; st_steps;
    destruct Hd as (outs & [] & ? & ? & ?); exists outs;
    (split_and!; [by constructor|done|lia|intros HC; by rewrite Crun in Hl]).
Qed.
End delivery.

(** ** The phases of [finish_call] *)
Section phases.
Context `{Beam, Mailbox, Engine} {E : Type}.
Implicit Types (s : Sys).

(** The state [s'] after the aborts [done]. *)
Record aborting (s : Sys) (done : list PendingNotification) (s' : Sys) : Prop := {
  ab_core : core (stack s') = core (stack s);
  ab_table : get_table s' = get_table s;
  ab_out : messages s' = messages s ++ (abort_of (stack s) <$> done);
  ab_pending : pending_notifications (stack s) = done ++ pending_notifications (stack s');
  ab_sweep : sweep_state (stack s') = sweep_state (stack s);
  ab_keys : ready_sweep_pending (stack s') = ready_sweep_pending (stack s)
}.

Lemma aborting_limits s done s' : aborting s done s' → limits (stack s') = limits (stack s).
Proof. intros [Hc]. by apply (f_equal limits) in Hc. Qed.

Lemma abort_turn_wp s done acc s1 :
  aborting s done s1 → acc.1 = llen done →
  wp (abort_turn (E:=E) acc) (λ '(acc', go) s2, ∃ done', aborting s done' s2 ∧ acc'.1 = llen done'
    ∧ if (go : bool) then (acc.1 < l_ready_events (limits (stack s)) ∧ acc'.1 = acc.1 + 1)%N
      else acc' = acc) (λ _ _, False) s1.
Proof.
  intros Hab Hacc. pose proof (aborting_limits _ _ _ Hab) as Hlim.
  destruct acc as [w u]. unfold abort_turn. st_steps.
  - apply andb_true_iff in Heqb as [Hlt Hne]. rewrite bool_decide_eq_true in Hne. rewrite Hlim in Hlt.
    unfold pop_pending_notification. st_steps. simpl.
    destruct (pending_notifications (stack s1)) as [|n q] eqn:Hp; [done|].
    apply wp_expect. exists n. split; [done|]. unfold send_abort. st_steps.
    exists (done ++ [n]). split_and!; [|simpl in *; rewrite llen_app, Hacc; done|lia|done].
    destruct Hab. constructor; try done.
    + unfold messages in *. simpl in *. rewrite !fmap_app, ab_out0, <-app_assoc. simpl. do 3 f_equal.
      unfold abort_of, abort_reason. apply (f_equal lifecycle) in ab_core0 as Hl.
      apply (f_equal shutdown_reason) in ab_core0 as Hr. simpl in Hl, Hr. by rewrite Hl, Hr.
    + simpl. by rewrite ab_pending0, Hp, <-app_assoc.
  - exists done. split_and!; [|done|done]. by destruct Hab.
  - by exists done.
Qed.

Lemma abort_loop_wp s :
  let lim := l_ready_events (limits (stack s)) in
  wp (while_loop (E:=E) (S (N.to_nat lim)) abort_turn (0, 0)%N)
    (λ acc s', ∃ done, aborting s done s' ∧ acc.1 = llen done ∧ (acc.1 <= lim)%N) (λ _ _, False) s.
Proof.
  intros lim. subst lim. set (lim := l_ready_events (limits (stack s))).
  eapply (wp_while_loop _ _ (λ n acc s', ∃ done,
    aborting s done s' ∧ acc.1 = llen done ∧ (acc.1 + N.of_nat n = lim)%N) _ _ (N.to_nat lim)); [|lia|].
  - exists []. split_and!; [|done|simpl; lia]. constructor; try done. by rewrite app_nil_r.
  - intros n acc s1 (done & Hab & Hacc & Hn).
    eapply wp_mono; [by eapply abort_turn_wp| |done].
    intros [acc' []] s2 (done' & Hab' & Hacc' & Hgo); fold lim in Hgo.
    + exists (n - 1). split; [lia|]. exists done'. split_and!; [done|done|lia].
    + subst acc'. exists done'. split_and!; [done|done|lia].
Qed.

(** A step that moves keys between the queue and the sweep and sends nothing. *)
Record quiet (s s' : Sys) : Prop := {
  qt_core : core (stack s') = core (stack s);
  qt_table : socket_table (stack s') = socket_table (stack s);
  qt_flags : flags (shd s') = flags (shd s);
  qt_ids : next_socket_id (shd s') = next_socket_id (shd s);
  qt_generations : next_generation (shd s') = next_generation (shd s);
  qt_out : outbox s' = outbox s;
  qt_pending : pending_notifications (stack s') = pending_notifications (stack s)
}.

Lemma quiet_woken s s' k : quiet s s' → woken (get_table s') k → woken (get_table s) k.
Proof. intros [] (e & He & Hl & Hf). exists e. simpl in *. by rewrite <-qt_table0, <-qt_flags0. Qed.

Lemma quiet_table s s' :
  quiet s s' → table_wf (get_table s) →
  op_post (get_table s) [] [] (get_table s') ∧ same_shape (get_table s) (get_table s').
Proof.
  intros [] Hwf. pose proof (wf_next _ Hwf) as [? ?]. split.
  - apply op_post_shared; simpl in *; [done|done|lia|lia].
  - unfold same_shape, same_frame. simpl. rewrite qt_table0, qt_ids0, qt_generations0. done.
Qed.

Lemma note_overflow_wp s :
  wp (note_overflow (E:=E)) (λ _ s', quiet s s'
    ∧ (lifecycle (stack s) = Running → wakeups_kept s → wakeups_kept s')) (λ _ _, False) s.
Proof.
  unfold note_overflow. st_steps. simpl. st_steps. unfold wakeups_kept, request_sweep. split.
  - destruct (overflow (ready (shd s))), (bool_decide (lifecycle (stack s) = Running)) eqn:Hl,
      (ready_sweep (stack s)) eqn:Hs; constructor; simpl; rewrite ?Hl, ?Hs; done.
  - intros Hrun Hk k Hw. specialize (Hk k). rewrite elem_of_nil in *. unfold sweep_reaches in *.
    assert (woken (get_table s) k) as Hw'.
    { simpl in Hw. destruct (overflow (ready (shd s))), (bool_decide (lifecycle (stack s) = Running)) eqn:Hl,
        (ready_sweep (stack s)) eqn:Hs; simpl in Hw; rewrite ?Hl, ?Hs in Hw; done. }
    specialize (Hk Hw'). simpl. rewrite (bool_decide_true _ Hrun), andb_true_r.
    destruct (overflow (ready (shd s))), (ready_sweep (stack s)) eqn:Hs; simpl; rewrite ?Hs; tauto || naive_solver.
Qed.

Lemma drain_ready_wp limit s :
  wp (drain_ready (E:=E) limit) (λ keys s', quiet s s' ∧ (llen keys <= limit)%N
    ∧ sweep_state (stack s') = sweep_state (stack s)
    ∧ ∀ P, accounted P [] s → accounted P keys s') (λ _ _, False) s.
Proof.
  unfold wp, drain_ready. destruct (drain_while _ _ _ _) as [[keys q] [b c]] eqn:Hd.
  apply drain_while_spec in Hd as (Hel & Hlen & Hov & _). split_and!; [by constructor|done|done|].
  intros P Hacc k Hk. specialize (Hacc k Hk). rewrite elem_of_nil, <-elem_of_bset_elems, Hel in Hacc.
  rewrite elem_of_app, elem_of_bset_elems in Hacc. simpl. tauto.
Qed.

Section loops.
Context (s0 : Sys) (C : Prop) (P : ReadyKey → Prop) (a : N).
Context (Crun : C → lifecycle (stack s0) = Running).
Let lim : N := l_ready_events (limits (stack s0)).

(** The loops have done [w] units of work, [a] of them aborts. *)
Definition tallied (l : list ReadyKey) (w : N) (s : Sys) : Prop :=
  delivering s0 C P l (w - a) s ∧ (a <= w)%N ∧ (w + llen l <= lim)%N.

Lemma delivering_mono l w w' s : (w <= w')%N → delivering s0 C P l w s → delivering s0 C P l w' s.
Proof. intros ? (outs & ? & ? & ? & ?). exists outs. split_and!; [done|done|lia|done]. Qed.

Lemma tallied_limits l w s : tallied l w s → limits (stack s) = limits (stack s0).
Proof. intros [(outs & [Hc] & _) _]. by apply (f_equal limits) in Hc. Qed.

Lemma tallied_deliver k l w s :
  tallied (k :: l) w s →
  wp (deliver_or_discard_ready (E:=E) k) (λ _ s', ∀ b, tallied l (w + 1) (put_budget b s')) (λ _ _, False) s.
Proof.
  intros (Hd & Ha & Hw). eapply wp_mono; [eapply deliver_or_discard_wp; [exact Crun|exact Hd]| |done].
  intros [] s' Hd' b. split_and!; [|lia|unfold llen in *; simpl in *; lia].
  apply delivering_budget. eapply delivering_mono; [|exact Hd']. lia.
Qed.

Lemma queued_turn_wp k l acc s :
  tallied (k :: l) acc.1 s →
  wp (queued_turn (E:=E) k acc) (λ acc', tallied l acc'.1) (λ _ _, False) s.
Proof.
  intros Ht. destruct acc as [w u]. unfold queued_turn. st_steps.
  - eapply wp_mono; [apply (tallied_deliver k l w)| |done].
    + destruct Ht as (? & ? & ?). split_and!; [by apply delivering_budget|done|done].
    + intros [] s' Hs'. st_steps. apply Hs'.
  - destruct Ht as (? & ? & ?). split_and!; [by apply delivering_push, delivering_budget|done|].
    unfold llen in *; simpl in *; lia.
Qed.

Lemma pending_turn_wp acc s :
  tallied [] acc.1 s →
  wp (pending_turn (E:=E) acc) (λ '(acc', go) s', tallied [] acc'.1 s'
    ∧ if (go : bool) then (acc'.1 = acc.1 + 1)%N else acc' = acc) (λ _ _, False) s.
Proof.
  intros Ht. pose proof (tallied_limits _ _ _ Ht) as Hlim. destruct acc as [w u].
  unfold pending_turn. st_steps; [| |done].
  - apply andb_true_iff in Heqb as [Hlt Hne]. rewrite bool_decide_eq_true in Hne. rewrite Hlim in Hlt.
    fold lim in Hlt. destruct Ht as (Hd & Ha & Hw). unfold pop_sweep_pending. st_steps. simpl.
    destruct (ready_sweep_pending (stack s)) as [|k q] eqn:Hq; [done|].
    apply wp_expect. exists k. split; [done|]. st_steps.
    eapply wp_mono; [apply (tallied_deliver k [] w)| |done].
    + split_and!; [|done|unfold llen; simpl; lia].
      eapply delivering_pop; [exact Crun|done|]. by apply delivering_budget.
    + intros [] s' Hs'. st_steps. split; [apply Hs'|done].
  - split; [|done]. destruct Ht as (? & ? & ?). split_and!; [by apply delivering_budget|done|done].
Qed.

Lemma pending_loop_wp acc s :
  tallied [] acc.1 s →
  wp (while_loop (E:=E) (S (N.to_nat lim)) pending_turn acc) (λ acc', tallied [] acc'.1) (λ _ _, False) s.
Proof.
  intros Ht. eapply (wp_while_loop _ _ (λ n acc s, tallied [] acc.1 s ∧ (acc.1 + N.of_nat n = lim)%N)
    _ _ (N.to_nat (lim - acc.1))).
  - split; [done|]. destruct Ht as (_ & _ & Hw). unfold llen in Hw. simpl in Hw. lia.
  - lia.
  - intros n acc1 s1 [Ht1 Hn]. eapply wp_mono; [by apply pending_turn_wp| |done].
    intros [acc2 []] s2 [Ht2 Hgo]; [|done]. destruct Ht2 as (? & ? & Hw2).
    exists (n - 1). unfold llen in Hw2. simpl in Hw2. split; [lia|]. split; [done|lia].
Qed.
End loops.

(** ** The sweep *)
Lemma woken_ready_after (t : TableState) k c :
  woken t k → table_wf t → after_cursor c k = true →
  k ∈ ready_after (table t) (flags (shared t)) c.
Proof.
  intros (e & He & _ & Hf) Hwf Hc. unfold ready_after.
  apply list_elem_of_In, filter_In. split; [|done].
  unfold ready_of. rewrite in_concat. exists (entry_ready_keys (flags (shared t)) (id (identity k))
    (generation (identity k), e)). rewrite <-!list_elem_of_In. split.
  - apply list_elem_of_fmap. exists (id (identity k), (generation (identity k), e)).
    split; [done|]. by apply elem_of_bmap_list.
  - unfold entry_ready_keys. destruct k as [[i g] []]; simpl in *; rewrite Hf; set_solver.
Qed.

Lemma ready_after_cursor t h c k : k ∈ ready_after t h c → after_cursor c k = true.
Proof. unfold ready_after. rewrite list_elem_of_In, filter_In. by intros [_ ?]. Qed.

(** After a scan, a key is among those found or still ahead of the cursor. *)
Definition scan_left (resweep : bool) (r : ReadyScan) (k : ReadyKey) : Prop :=
  resweep = true ∨ (scan_complete r = false ∧ after_cursor (scan_cursor r) k = true).

Lemma scan_table_wp limit s :
  (0 < limit)%N → table_wf (get_table s) →
  wp (scan_table (E:=E) (ready_sweep_cursor (stack s)) limit)
    (λ r s', (∃ b, s' = put_budget b s) ∧ (llen (scan_keys r) <= limit)%N
      ∧ (entries_scanned r <= limit)%N
      ∧ (accounted (sweep_reaches (stack s)) [] s →
         accounted (scan_left (ready_sweep_resweep (stack s)) r) (scan_keys r) s'))
    (λ _ _, False) s.
Proof.
  intros Hlim Hwf. unfold wp, scan_table. destruct (scan_ready _ _ _ _ _ _ _) as [r b] eqn:Hr.
  apply scan_ready_spec in Hr as (Hk & Hl & He & Hc); [|done|done].
  split_and!; [by exists b|done|done|]. intros Hacc k Hw. specialize (Hacc k Hw).
  rewrite elem_of_nil in Hacc. simpl in *.
  destruct Hacc as [?|[?|[?|[?|[_ [?|Hcur]]]]]]; try tauto.
  - do 4 right. by left.
  - pose proof (woken_ready_after _ _ _ Hw Hwf Hcur) as Hin. simpl in Hin. rewrite <-Hk in Hin.
    apply elem_of_app in Hin as [Hin|Hin]; [tauto|]. do 4 right. right.
    split; [|by eapply ready_after_cursor].
    apply not_true_iff_false. intros Hcomp. rewrite Hc in Hin by done. by apply elem_of_nil in Hin.
Qed.

Section sweep_loop.
Context (s0 : Sys) (C : Prop) (P : ReadyKey → Prop).
Context (Crun : C → lifecycle (stack s0) = Running).

Lemma scanned_turn_wp k l w u s :
  delivering s0 C P (k :: l) w s →
  wp (scanned_turn (E:=E) k u) (λ _, delivering s0 C P l (w + 1)) (λ _ _, False) s.
Proof.
  intros Hd. unfold scanned_turn. st_steps.
  - eapply wp_mono; [eapply deliver_or_discard_wp; [exact Crun|by apply delivering_budget]| |done].
    intros [] s' Hs'. st_steps. by apply delivering_budget.
  - eapply delivering_mono; [|by apply delivering_push, delivering_budget]. lia.
Qed.
End sweep_loop.

(** The sweep's bookkeeping after a scan. *)
Lemma sweep_update_kept (s : Sys) (scan : ReadyScan) :
  ready_sweep (stack s) = true →
  accounted (scan_left (ready_sweep_resweep (stack s)) scan) [] s →
  wakeups_kept (s <| stack ::= sweep_scanned scan |>).
Proof.
  intros Hs Hacc k Hw.
  assert (Hw' : woken (get_table s) k).
  { revert Hw. simpl. unfold sweep_scanned. by destruct (scan_complete scan && _). }
  specialize (Hacc k Hw'). rewrite elem_of_nil in *. unfold sweep_scanned, sweep_reaches, scan_left in *.
  simpl. destruct (scan_complete scan) eqn:Hc, (ready_sweep_resweep (stack s)) eqn:Hr; simpl;
    rewrite ?Hs, ?Hc, ?Hr; simpl; intuition congruence.
Qed.

Lemma delivered_scanned s0 outs scan s :
  delivered s0 outs s → delivered s0 outs (s <| stack ::= sweep_scanned scan |>).
Proof.
  intros []. unfold sweep_scanned.
  destruct (scan_complete scan) eqn:Hc, (ready_sweep_resweep (stack s)) eqn:Hr;
    constructor; simpl; rewrite ?Hc, ?Hr; done.
Qed.

Lemma sweep_wp s0 (C : Prop) a acc s :
  (C → lifecycle (stack s0) = Running) →
  tallied s0 C (sweep_reaches (stack s0)) a [] acc.1 s →
  wp (sweep (E:=E) acc) (λ acc' s', ∃ outs, delivered s0 outs s'
    ∧ (a + llen outs <= acc'.1 <= l_ready_events (limits (stack s0)))%N ∧ (C → wakeups_kept s'))
    (λ _ _, False) s.
Proof.
  intros Crun Ht. pose proof (tallied_limits _ _ _ _ _ _ _ Ht) as Hlim.
  destruct acc as [w u], Ht as ((outs & Hd & Hsw & Hn & Hacc) & Ha & Hw). simpl in Hn, Ha, Hw.
  unfold llen in Hw at 1; simpl in Hw.
  assert (Hreach : sweep_reaches (stack s0) = sweep_reaches (stack s)).
  { unfold sweep_state in Hsw. unfold sweep_reaches. by simplify_eq; rewrite H3, H4, H5. }
  rewrite Hreach in Hacc. unfold sweep. st_steps; cycle 1.
  { exists outs. split_and!; [done|simpl; lia|simpl; lia|exact Hacc]. }
  rewrite !andb_true_iff in Heqb. destruct Heqb as [[Hs Hp] Hlt]. rewrite Hlim in *.
  set (lim := l_ready_events (limits (stack s0))) in *.
  apply wp_expect. exists (lim - w)%N. split; [apply checked_sub_Some; lia|].
  apply wp_bind. eapply wp_mono; [apply scan_table_wp; [lia|apply Hd]| |done].
  intros scan s1 ([b ->] & Hk & He & Hacc1). st_steps.
  set (P := scan_left (ready_sweep_resweep (stack s)) scan) in *.
  eapply wp_mono; [apply (wp_for_acc _ _ (λ l (_ : usize) s',
    delivering s0 C P l (w - a + llen (scan_keys scan) - llen l) s'
    ∧ (llen l <= llen (scan_keys scan))%N) (λ _ _, False))| |done].
  - split; [|done]. exists outs. split_and!; [by destruct Hd|done|lia|intros HC; by apply Hacc1, Hacc].
  - intros k l u' s' [Hd' Hl]. unfold llen in Hl; simpl in Hl. eapply wp_mono; [eapply scanned_turn_wp; [exact Crun|exact Hd']| |done].
    intros u2 s2 Hd2. split; [|unfold llen; lia].
    eapply delivering_mono; [|exact Hd2]. unfold llen; simpl. lia.
  - intros u' s' [(outs' & Hd' & Hsw' & Hn' & Hacc') _]. st_steps. exists outs'.
    assert (Hst : sweep_state (stack s') = sweep_state (stack s)) by congruence.
    unfold sweep_state in Hst. injection Hst as Hs1 Hs2 Hs3.
    split_and!; [|simpl; unfold llen in Hn' at 3; simpl in Hn'; lia|simpl; lia|].
    + by apply delivered_scanned.
    + intros HC. apply sweep_update_kept; [congruence|]. rewrite Hs3. by apply Hacc'.
Qed.

(** ** The whole of [finish_call] *)
Record finished (s : Sys) (aborts done : list PendingNotification) (outs : list held) (s' : Sys) :
    Prop := {
  fn_core : core (stack s') = core (stack s);
  fn_table : op_post (get_table s) [] outs (get_table s');
  fn_shape : same_shape (get_table s) (get_table s');
  fn_out : messages s' = messages s ++ (abort_of (stack s) <$> done) ++ (select_of <$> outs);
  fn_pending : pending_notifications (stack s) ++ aborts = done ++ pending_notifications (stack s');
  fn_running : outs = [] ∨ lifecycle (stack s) = Running;
  fn_bound : (llen done + llen outs <= l_ready_events (limits (stack s)))%N;
  fn_kept : lifecycle (stack s) = Running → wakeups_kept s → wakeups_kept s';
  fn_told : told (get_table s) outs (get_table s')
}.

Lemma aborting_lifecycle s done s' : aborting s done s' → lifecycle (stack s') = lifecycle (stack s).
Proof. intros [Hc]. by apply (f_equal lifecycle) in Hc. Qed.
Lemma quiet_lifecycle s s' : quiet s s' → lifecycle (stack s') = lifecycle (stack s).
Proof. intros [Hc]. by apply (f_equal lifecycle) in Hc. Qed.
Lemma quiet_limits s s' : quiet s s' → limits (stack s') = limits (stack s).
Proof. intros [Hc]. by apply (f_equal limits) in Hc. Qed.

Lemma quiet_trans s s1 s2 : quiet s s1 → quiet s1 s2 → quiet s s2.
Proof. intros [] []. constructor; congruence. Qed.

Lemma aborting_kept s done s' : aborting s done s' → wakeups_kept s → wakeups_kept s'.
Proof.
  intros [] Hk k. rewrite ab_table0. intros Hw. specialize (Hk k Hw).
  unfold sweep_state in *. unfold sweep_reaches in *. injection ab_sweep0 as -> -> ->.
  assert (shd s' = shd s) as -> by (by apply (f_equal shared) in ab_table0). by rewrite ab_keys0.
Qed.

(** The deliveries made after the aborts and after the queue was drained. *)
Lemma finished_intro s aborts s1 done s2 outs s3 :
  let s0 := s <| stack ::= λ st, st <| pending_notifications ::= λ q, q ++ aborts |> |> in
  table_wf (get_table s) → aborting s0 done s1 → quiet s1 s2 → delivered s2 outs s3 →
  (llen done + llen outs <= l_ready_events (limits (stack s)))%N →
  (lifecycle (stack s) = Running → wakeups_kept s → wakeups_kept s3) →
  finished s aborts done outs s3.
Proof.
  intros s0 Hwf Hab Hq Hd Hb Hk.
  assert (Ht1 : get_table s1 = get_table s) by (by rewrite (ab_table _ _ _ Hab)).
  destruct (quiet_table _ _ Hq) as [Hop Hsh]; [by rewrite Ht1|]. rewrite Ht1 in Hop, Hsh.
  pose proof (dl_table _ _ _ Hd) as Hop'. pose proof (op_post_trans _ _ _ _ _ _ _ Hop Hop') as Hop''.
  destruct Hd. pose proof Hab as Hab'. pose proof Hq as Hq'. destruct Hab', Hq'. constructor; try done.
  - transitivity (core (stack s2)); [done|]. by rewrite qt_core0, ab_core0.
  - by trans (get_table s2).
  - rewrite dl_out0. unfold messages in *. by rewrite qt_out0, ab_out0, <-app_assoc.
  - rewrite dl_pending0, qt_pending0. exact ab_pending0.
  - rewrite (quiet_lifecycle _ _ Hq), (aborting_lifecycle _ _ _ Hab) in dl_running0. exact dl_running0.
  - rewrite <-Ht1. eapply (told_trans _ (get_table s2) _ []); [apply told_same; simpl; congruence|done].
Qed.

Lemma finish_call_wp {A} (res : A) effects aborts s :
  table_wf (get_table s) →
  wp (finish_call (E:=E) res effects aborts)
    (λ env s', (∃ done outs, finished s aborts done outs s')
      ∧ env = {| result := res; output := eff_output effects; poll_at := eff_poll_at effects;
                 more := eff_more effects || readiness_left (stack s') (ready (shd s')) |})
    (λ _ _, False) s.
Proof.
  intros Hwf. unfold finish_call. st_steps.
  set (s0 := s <| stack ::= λ st, st <| pending_notifications ::= λ q, q ++ aborts |> |>).
  set (lim := l_ready_events (limits (stack s))).
  change ((l_ready_events ∘ limits) (stack s0)) with lim.
  eapply wp_mono; [apply (abort_loop_wp s0)| |done].
  intros acc s1 (done & Hab & Hacc & Hle). change (acc.1 <= lim)%N in Hle. st_steps.
  eapply wp_mono; [apply note_overflow_wp| |done]. intros [] s2 [Hq2 Hk2]. st_steps.
  apply wp_expect. exists (lim - acc.1)%N. split; [apply checked_sub_Some; exact Hle|].
  st_steps. eapply wp_mono; [apply drain_ready_wp| |done]. intros keys s3 (Hq3 & Hkeys & Hsw & Hacc3).
  st_steps. pose proof (quiet_trans _ _ _ Hq2 Hq3) as Hq.
  set (C := lifecycle (stack s) = Running ∧ wakeups_kept s).
  assert (Hrun1 : lifecycle (stack s1) = lifecycle (stack s)) by (by rewrite (aborting_lifecycle _ _ _ Hab)).
  assert (Crun : C → lifecycle (stack s3) = Running) by (intros [? _]; by rewrite (quiet_lifecycle _ _ Hq), Hrun1).
  assert (Hlim : l_ready_events (limits (stack s3)) = lim).
  { by rewrite (quiet_limits _ _ Hq), (aborting_limits _ _ _ Hab). }
  assert (Hop3 : op_post (get_table s3) [] [] (get_table s3)).
  { apply op_post_same. destruct (quiet_table _ _ Hq) as [[]]; [by rewrite (ab_table _ _ _ Hab)|done]. }
  set (P := sweep_reaches (stack s3)).
  assert (HP : sweep_reaches (stack s2) = P).
  { unfold P, sweep_state in *. unfold sweep_reaches. by injection Hsw as -> -> ->. }
  eapply wp_mono; [apply (wp_for_acc _ _ (λ l acc s', tallied s3 C P (llen done) l acc.1 s') (λ _ _, False))| |done].
  - split_and!; [|lia|rewrite Hlim; lia]. exists []. split_and!; [|done|unfold llen; simpl; lia|].
    + constructor; try done; [by rewrite app_nil_r|by left|by apply told_same].
    + intros [Hr Hk]. rewrite <-HP. apply Hacc3, Hk2; [by rewrite Hrun1|]. by eapply aborting_kept.
  - intros k l acc' s' Ht. eapply queued_turn_wp; [exact Crun|exact Ht].
  - intros acc4 s4 Ht4. st_steps. rewrite <-Hlim.
    eapply wp_mono; [eapply pending_loop_wp; [exact Crun|exact Ht4]| |done]. intros acc5 s5 Ht5. st_steps.
    eapply wp_mono; [eapply sweep_wp; [exact Crun|exact Ht5]| |done].
    intros [w6 u6] s6 (outs & Hd6 & Hb6 & Hk6). simpl in Hb6. rewrite Hlim in Hb6.
    assert (Hfin : finished s aborts done outs s6).
    { eapply finished_intro; [done|exact Hab|exact Hq|done|unfold lim in *; lia|].
      intros Hr Hk. by apply Hk6. }
    st_steps; (split; [|done]; exists done, outs; destruct Hfin; by constructor).
Qed.

(** ** Wakers *)
Lemma mark_ready_effect w h q :
  wk_flag w = wk_key w →
  let '(h', q') := mark_ready w h q in
  (∀ c, c ≠ wk_key w → load c h' = load c h)
  ∧ (∀ k, k ∈ entries q → k ∈ entries q') ∧ (overflow q = true → overflow q' = true)
  ∧ (load (wk_key w) h = true ∨ wk_key w ∈ entries q' ∨ overflow q' = true).
Proof.
  intros Hw. unfold mark_ready. rewrite Hw.
  assert (Hl : ∀ c, c ≠ wk_key w → load c (store (wk_key w) true h) = load c h).
  { intros c Hc. by rewrite load_store, decide_False. }
  destruct (load (wk_key w) h); [by auto|].
  destruct (lock q), (entries_len q <? capacity q)%N; simpl; split_and!; auto; set_solver.
Qed.

Lemma wake_kept s w :
  table_wf (get_table s) → wk_flag w = wk_key w → wakeups_kept s →
  wakeups_kept (after (wake (E:=E) w) s).
Proof.
  intros Hwf Hw Hk k (e & He & Ho & Hf). unfold after, wake in *. simpl in *.
  pose proof (mark_ready_effect w (flags (shd s)) (ready (shd s)) Hw) as Hm.
  destruct (mark_ready w (flags (shd s)) (ready (shd s))) as [h' q'].
  destruct Hm as (Hother & Hin & Hov & Hself). simpl in *.
  pose proof (wf_entry_ready_flag (get_table s) _ _ _ (direction k) Hwf He) as Hfl.
  replace (ready_key _ _) with k in Hfl by (by destruct k as [[] ?]).
  destruct (decide (k = wk_key w)) as [->|Hne].
  - destruct Hself as [Hself|Hself]; [|tauto].
    assert (woken (get_table s) (wk_key w)) as Hwk by (exists e; by rewrite Hfl).
    specialize (Hk _ Hwk). simpl in Hk. naive_solver.
  - assert (woken (get_table s) k) as Hwk by (exists e; rewrite Hfl in *; by rewrite <-Hother).
    specialize (Hk _ Hwk). simpl in Hk. naive_solver.
Qed.

(** A call that asks for no further one left nothing pending. *)
Lemma readiness_settled s' :
  readiness_left (stack s') (ready (shd s')) = false →
  pending_notifications (stack s') = [] ∧ (wakeups_kept s' → ∀ k, ¬ woken (get_table s') k).
Proof.
  unfold readiness_left, has_pending. rewrite !orb_false_iff. intros [[[Hp [Hov Hen]] Hsp] Hsw].
  apply bool_decide_eq_false, dec_stable in Hp. apply bool_decide_eq_false, dec_stable in Hsp. split; [done|]. intros Hk k Hwk.
  destruct (Hk k Hwk) as [Hin|[Ho|[Hin|[Hin|[Hs _]]]]]; [|congruence| | |congruence].
  - unfold try_entries in Hen. destruct (lock (ready (shd s'))); try done;
      rewrite bool_decide_neq_false in Hen; set_solver.
  - rewrite Hsp in Hin. by apply elem_of_nil in Hin.
  - by apply elem_of_nil in Hin.
Qed.

(** C11. finish_call sends, in order, aborts for a prefix of the notifications it owes and then
    one select message for each waiter it takes out of the table; the rest of the
    notifications stay pending, at most ready_events messages are sent, nothing outside the
    readiness state changes, and result, output and poll time are passed on. *)
Theorem finish_call_settles_what_it_owes {A} (res : A) effects aborts s :
  table_wf (get_table s) →
  let owed := pending_notifications (stack s) ++ aborts in
  ∃ n outs env s',
    finish_call (E:=E) res effects aborts s = (Ok env, s')
    ∧ messages s' = messages s ++ (abort_of (stack s) <$> take n owed) ++ (select_of <$> outs)
    ∧ pending_notifications (stack s') = drop n owed
    ∧ table_held (socket_table (stack s)) ≡ₚ table_held (socket_table (stack s')) ++ outs
    ∧ (N.of_nat n + llen outs <= l_ready_events (limits (stack s)))%N
    ∧ table_wf (get_table s') ∧ core (stack s') = core (stack s)
    ∧ result env = res ∧ output env = eff_output effects ∧ poll_at env = eff_poll_at effects.
Proof.
  intros Hwf owed. pose proof (finish_call_wp res effects aborts s Hwf) as Hw. unfold wp in Hw.
  destruct (finish_call res effects aborts s) as [[env|e|] s']; [|done|done].
  destruct Hw as [(done & outs & []) ->]. exists (length done), outs. do 2 eexists.
  split; [done|]. unfold owed. rewrite fn_pending0, take_app_length, drop_app_length.
  destruct fn_table0 as (? & _ & Hp). rewrite app_nil_r in Hp. done.
Qed.

(** C5. On a running stack that keeps track of every woken socket, finish_call returns without
    panic and still keeps track of every woken socket (each is queued, retained, covered by
    an overflow, or ahead of the sweep). A waiter installed on a woken socket is sent its
    select message by the call, unless the call reports more work and the waiter is still
    installed and its socket still woken; when the call reports no more work, no socket is
    left woken. *)
Theorem finish_call_never_strands_a_wakeup {A} (res : A) effects aborts s :
  table_wf (get_table s) → lifecycle (stack s) = Running → wakeups_kept s →
  ∃ env s',
    finish_call (E:=E) res effects aborts s = (Ok env, s')
    ∧ wakeups_kept s'
    ∧ (more env = false → ∀ k, ¬ woken (get_table s') k)
    ∧ ∀ k w, due (get_table s) k w →
        select_of (k, w) ∈ drop (length (messages s)) (messages s')
        ∨ (more env = true ∧ due (get_table s') k w).
Proof.
  intros Hwf Hrun Hk. pose proof (finish_call_wp res effects aborts s Hwf) as Hw. unfold wp in Hw.
  destruct (finish_call res effects aborts s) as [[env|e|] s']; [|done|done].
  destruct Hw as [(done & outs & []) ->]. do 2 eexists. split; [done|].
  specialize (fn_kept0 Hrun Hk). split; [done|]. simpl.
  assert (Hrest : eff_more effects || readiness_left (stack s') (ready (shd s')) = false →
    ∀ k, ¬ woken (get_table s') k).
  { intros [_ Hm]%orb_false_iff. by apply (readiness_settled s'). }
  split; [exact Hrest|]. intros k w [Hin|Hd]%fn_told0.
  - left. rewrite fn_out0, drop_app_length. apply elem_of_app. right. by apply list_elem_of_fmap_2.
  - right. split; [|done]. apply not_false_iff_true. intros Hm. by destruct (Hrest Hm k); destruct Hd.
Qed.
End phases.

(** ** Concrete runs *)
Section sample.
#[local] Existing Instances idle_types idle_engine idle_beam idle_mailbox.

(** A socket with a waiter, before and after it is woken. *)
Definition sample_key1 : ReadyKey := ready_key {| id := 1; generation := 1 |} Read.
Definition sample_ops : list TableOp :=
  [OpInsert Synthetic 7;
   OpInstall {| reg_identity := {| id := 1; generation := 1 |}; reg_expected_kind := Synthetic;
     reg_direction := Read; reg_pid := 5; reg_operation := Recv; reg_reference := 9 |}].
Definition sample_waiting : Sys :=
  put_table (foldl (λ t op, (run_op op t).2) (get_table sample_sys) sample_ops) sample_sys.
Definition sample_woken : Sys :=
  after (wake (E:=unit) (waker sample_key1 sample_key1)) sample_waiting.

Lemma sample_waiting_wf : table_wf (get_table sample_waiting).
Proof.
  assert (get_table sample_waiting = foldl (λ t op, (run_op op t).2) (get_table sample_sys) sample_ops)
    as -> by reflexivity.
  do 2 apply run_op_wf. constructor; try (vm_compute; (done || discriminate || intuition discriminate)).
Qed.

Lemma sample_woken_wf : table_wf (get_table sample_woken).
Proof. pose proof sample_waiting_wf as []. by constructor. Qed.

Lemma sample_woken_kept : wakeups_kept sample_woken.
Proof.
  apply wake_kept; [apply sample_waiting_wf|done|]. intros k (e & He & _ & Hf). exfalso.
  assert (∃ e0, table_entries (table (get_table sample_waiting)) = <[1%N := (1%N, e0)]> ∅
    ∧ ∀ d, load (entry_ready_flag e0 d) (flags (shared (get_table sample_waiting))) = false)
    as (e0 & Hes & Hno) by (eexists; split; [vm_compute; reflexivity|by intros []]).
  rewrite Hes in He. apply lookup_insert_Some in He as [[_ ?]|[_ He]]; [|done]. simplify_eq.
  by rewrite Hno in Hf.
Qed.

Lemma finish_call_settles_what_it_owes_witness :
  table_wf (get_table sample_woken) ∧
  let owed := pending_notifications (stack sample_woken)
    ++ [{| pn_identity := {| id := 3; generation := 3 |}; pn_direction := Write;
           pn_waiter := waiter_new 6 Send 8 |}] in
  ∃ n outs env s',
    finish_call (E:=unit) tt effects_empty
      [{| pn_identity := {| id := 3; generation := 3 |}; pn_direction := Write;
          pn_waiter := waiter_new 6 Send 8 |}] sample_woken = (Ok env, s')
    ∧ messages s' = messages sample_woken
        ++ (abort_of (stack sample_woken) <$> take n owed) ++ (select_of <$> outs).
Proof.
  split; [apply sample_woken_wf|]. intros owed.
  destruct (finish_call_settles_what_it_owes (E:=unit) tt effects_empty
    [{| pn_identity := {| id := 3; generation := 3 |}; pn_direction := Write;
        pn_waiter := waiter_new 6 Send 8 |}] sample_woken sample_woken_wf)
    as (n & outs & env & s' & Hf & Hm & _).
  exists n, outs, env, s'. split; [exact Hf|exact Hm].
Defined.

Lemma finish_call_never_strands_a_wakeup_witness :
  due (get_table sample_woken) sample_key1 (waiter_new 5 Recv 9) ∧ wakeups_kept sample_woken ∧
  ∃ env s', finish_call (E:=unit) tt effects_empty [] sample_woken = (Ok env, s')
    ∧ (select_of (sample_key1, waiter_new 5 Recv 9)
         ∈ drop (length (messages sample_woken)) (messages s')
       ∨ (more env = true ∧ due (get_table s') sample_key1 (waiter_new 5 Recv 9))).
Proof.
  assert (Hd : due (get_table sample_woken) sample_key1 (waiter_new 5 Recv 9)).
  { split; eexists; split_and!; vm_compute; reflexivity. }
  split_and!; [exact Hd|apply sample_woken_kept|].
  destruct (finish_call_never_strands_a_wakeup (E:=unit) tt effects_empty [] sample_woken
    sample_woken_wf eq_refl sample_woken_kept) as (env & s' & Hf & _ & _ & Ht).
  exists env, s'. split; [exact Hf|exact (Ht _ _ Hd)].
Defined.
End sample.
