(* ===== verification/Invariant.v ===== *)
(** * The invariant of a stack

    What holds of a [NativeStack] between two calls: every native socket is
    owned by exactly one record, the records and the socket table agree, the
    bounds on sockets and buffer bytes hold, and no wakeup is forgotten. In the
    middle of a call a method holds sockets that are in no record yet, and has
    room it has checked for; [Held] is that difference. *)
From S2P Require Import Prelude Budget Waiter SocketTable Wire TcpSupport Device Packet Smol.
From S2P Require Import Stack Create Readiness.

(** ** The socket set *)
Section socket_set.
Context `{SmolTypes}.
Implicit Types (ss : SocketSet) (h : SocketHandle).

Definition socket_kind (s : Socket) : SocketKind := match s with STcp _ => Tcp | SUdp _ => Udp end.
Definition kind_at ss h : option SocketKind := socket_kind <$> set_get ss h.

(** The list names the live sockets of a kind, each once. *)
Definition owns (k : SocketKind) (l : list SocketHandle) ss : Prop :=
  NoDup l ∧ ∀ h, h ∈ l ↔ kind_at ss h = Some k.

Definition waker_ok (w : Waker) : Prop := wk_flag w = wk_key w.
Definition socket_wakers (s : Socket) : list Waker :=
  match s with
  | STcp t => wakers (rx_waker t) (tx_waker t)
  | SUdp u => wakers (udp_rx_waker u) (udp_tx_waker u)
  end.
(** A socket's queue fits its buffer, and its wakers raise the flag of the key
    they queue. *)
Definition socket_wf (s : Socket) : Prop :=
  Forall waker_ok (socket_wakers s)
  ∧ match s with STcp t => (llen (tx_buffer t) <= tx_capacity t)%N | SUdp _ => True end.
Definition sockets_wf ss : Prop := ∀ h s, set_get ss h = Some s → socket_wf s.

Lemma add_at_spec index s ss h ss' :
  add_at index s ss = (h, ss') →
  ∃ n, h = (index + N.of_nat n)%N ∧ mjoin (ss !! n) = None
    ∧ (∀ m, mjoin (ss' !! m) = if decide (m = n) then Some s else mjoin (ss !! m))
    ∧ set_count ss' = (set_count ss + 1)%N.
Proof.
  revert index h ss'. induction ss as [|[s'|] ss IH]; intros index h ss' Ha; simpl in Ha.
  - simplify_eq. exists 0. split_and!; [lia|done| |done]. by intros [|[|m]].
  - destruct (add_at (index + 1) s ss) as [h1 ss1] eqn:E. simplify_eq.
    destruct (IH _ _ _ E) as (n & -> & Hn & Hm & Hc). exists (S n). split_and!; [lia|done| |].
    + intros [|m]; [done|]. simpl. rewrite Hm. repeat case_decide; lia || done.
    + unfold set_count in *. simpl. lia.
  - simplify_eq. exists 0. split_and!; [lia|done| |].
    + by intros [|m].
    + unfold set_count. simpl. lia.
Qed.

Lemma set_add_spec s ss h ss' :
  set_add s ss = (h, ss') →
  set_get ss h = None
  ∧ (∀ h', set_get ss' h' = if decide (h' = h) then Some s else set_get ss h')
  ∧ set_count ss' = (set_count ss + 1)%N.
Proof.
  intros (n & -> & Hn & Hm & Hc)%add_at_spec. unfold set_get.
  replace (0 + N.of_nat n)%N with (N.of_nat n) by lia. rewrite Nat2N.id. split_and!; [done| |done].
  intros h'. rewrite Hm. repeat case_decide; lia || done.
Qed.

Lemma set_put_spec h s s' ss :
  set_get ss h = Some s →
  (∀ h', set_get (set_put h s' ss) h' = if decide (h' = h) then s' else set_get ss h')
  ∧ (set_count (set_put h s' ss) + 1 = set_count ss + match s' with Some _ => 1 | None => 0 end)%N.
Proof.
  unfold set_get, set_put, set_count, SocketSet in *. intros Hs.
  destruct (ss !! N.to_nat h) as [o|] eqn:Ho; simplify_eq/=. split.
  - intros h'. case_decide as Hd.
    + subst. by rewrite list_lookup_insert_eq by (by eapply lookup_lt_Some).
    + rewrite list_lookup_insert_ne; [done|lia].
  - revert ss Ho. induction (N.to_nat h) as [|n IH]; intros [|o ss] Ho; simplify_eq/=.
    + destruct s'; simpl; lia.
    + specialize (IH ss Ho). destruct o; simpl; lia.
Qed.

#[export] Instance owns_perm k : Proper ((≡ₚ) ==> (=) ==> iff) (owns k).
Proof. intros l l' Hl ss ? <-. unfold owns. by setoid_rewrite Hl. Qed.

(** Two sets with the same slots are owned alike. *)
Lemma owns_slots k l ss ss' :
  (∀ h, kind_at ss' h = kind_at ss h) → owns k l ss → owns k l ss'.
Proof. intros Hs [Hn Hl]. split; [done|]. intros h. by rewrite Hs. Qed.

Lemma kind_at_put h s s' ss h' :
  set_get ss h = Some s → socket_kind s' = socket_kind s →
  kind_at (set_put h (Some s') ss) h' = kind_at ss h'.
Proof.
  intros Hs Hk. destruct (set_put_spec h s (Some s') ss Hs) as [Hg _]. unfold kind_at. rewrite Hg.
  case_decide; [|done]. subst. by rewrite Hs; simpl; f_equal.
Qed.

Lemma owns_add k s ss h ss' l :
  set_add s ss = (h, ss') → owns k l ss →
  owns k ((if decide (socket_kind s = k) then [h] else []) ++ l) ss'.
Proof.
  intros (Hn & Hg & _)%set_add_spec [Hnd Hl].
  assert (Hh : h ∉ l) by (rewrite Hl; unfold kind_at; by rewrite Hn).
  assert (Hk : ∀ h', kind_at ss' h' = if decide (h' = h) then Some (socket_kind s) else kind_at ss h').
  { intros h'. unfold kind_at. rewrite Hg. by case_decide. }
  split.
  - case_decide; [|done]. by apply list.NoDup_cons.
  - intros h'. rewrite elem_of_app, Hl, Hk. destruct (decide (socket_kind s = k)) as [<-|].
    + rewrite list_elem_of_singleton. case_decide; [by split; [|left]|]. by split; [intros [?|?]|right].
    + rewrite elem_of_nil. case_decide; [|tauto]. subst. unfold kind_at. rewrite Hn. naive_solver.
Qed.

Lemma owns_remove k s ss h l :
  set_get ss h = Some s → owns k ((if decide (socket_kind s = k) then [h] else []) ++ l) ss →
  owns k l (set_put h None ss).
Proof.
  intros Hs [Hnd Hl]. destruct (set_put_spec h s None ss Hs) as [Hg _].
  assert (Hk : ∀ h', kind_at (set_put h None ss) h' = if decide (h' = h) then None else kind_at ss h').
  { intros h'. unfold kind_at. rewrite Hg. by destruct (decide (h' = h)). }
  assert (Hkh : kind_at ss h = Some (socket_kind s)) by (unfold kind_at; by rewrite Hs).
  split; [by apply list.NoDup_app in Hnd as (_ & _ & ?)|]. intros h'. rewrite Hk.
  specialize (Hl h'). rewrite elem_of_app in Hl.
  destruct (decide (socket_kind s = k)) as [<-|Hne].
  - rewrite list_elem_of_singleton in Hl. apply list.NoDup_cons in Hnd as [Hh _].
    case_decide; [by subst|]. tauto.
  - rewrite elem_of_nil in Hl. case_decide; [|tauto]. subst. rewrite Hkh in Hl.
    split; [|done]. intros Hh. assert (Some (socket_kind s) = Some k) by tauto. naive_solver.
Qed.

Lemma owns_nothing k ss : owns k [] ss → ∀ h, kind_at ss h ≠ Some k.
Proof. intros [_ Hl] h Hh. apply Hl in Hh. by apply elem_of_nil in Hh. Qed.

Lemma set_count_zero ss : (∀ h, kind_at ss h = None) → set_count ss = 0%N.
Proof.
  unfold kind_at, set_get, set_count. intros Hk. induction ss as [|o ss IH]; [done|].
  assert (o = None) as ->.
  { specialize (Hk 0%N). simpl in Hk. by destruct o. }
  simpl. apply IH. intros h. specialize (Hk (h + 1)%N). rewrite N2Nat.inj_add, Nat.add_1_r in Hk. exact Hk.
Qed.

Lemma owns_get_tcp l ss h : owns Tcp l ss → h ∈ l → ∃ t, get_tcp ss h = Some t ∧ set_get ss h = Some (STcp t).
Proof.
  intros [_ Hl] Hh. apply Hl in Hh. unfold kind_at, get_tcp in *.
  destruct (set_get ss h) as [[t|u]|]; simplify_eq/=. eauto.
Qed.
Lemma owns_get_udp l ss h : owns Udp l ss → h ∈ l → ∃ u, get_udp ss h = Some u ∧ set_get ss h = Some (SUdp u).
Proof.
  intros [_ Hl] Hh. apply Hl in Hh. unfold kind_at, get_udp in *.
  destruct (set_get ss h) as [[t|u]|]; simplify_eq/=. eauto.
Qed.
Lemma get_tcp_set_get ss h t : get_tcp ss h = Some t ↔ set_get ss h = Some (STcp t).
Proof. unfold get_tcp. destruct (set_get ss h) as [[]|]; naive_solver. Qed.
Lemma get_udp_set_get ss h u : get_udp ss h = Some u ↔ set_get ss h = Some (SUdp u).
Proof. unfold get_udp. destruct (set_get ss h) as [[]|]; naive_solver. Qed.

(** A socket that is replaced, added or removed keeps the rest as it was. *)
Lemma sockets_wf_put h s s' ss :
  set_get ss h = Some s → socket_wf s' → sockets_wf ss → sockets_wf (set_put h (Some s') ss).
Proof.
  intros Hs Hwf Hss h' s1. destruct (set_put_spec h s (Some s') ss Hs) as [-> _].
  case_decide; [by intros [= <-]|by apply Hss].
Qed.
Lemma sockets_wf_remove h s ss :
  set_get ss h = Some s → sockets_wf ss → sockets_wf (set_put h None ss).
Proof.
  intros Hs Hss h' s1. destruct (set_put_spec h s None ss Hs) as [-> _].
  case_decide; [done|by apply Hss].
Qed.
Lemma sockets_wf_add s ss h ss' :
  set_add s ss = (h, ss') → socket_wf s → sockets_wf ss → sockets_wf ss'.
Proof.
  intros (_ & Hg & _)%set_add_spec Hwf Hss h' s1. rewrite Hg.
  case_decide; [by intros [= <-]|by apply Hss].
Qed.
End socket_set.

(** ** The records *)
Section records.
Context `{SmolTypes}.
Implicit Types (rs : gmap u64 TcpRecord) (ls : gmap u64 ListenerRecord) (us : gmap u64 UdpRecord).

(** What a running method has in hand: sockets that are in no record, room
    that it has checked for, and sockets whose record it is changing. *)
Record Held := {
  held_tcp : list SocketHandle;
  held_udp : list SocketHandle;
  free_slots : N;
  free_bytes : N;
  exempt : gset u64
}.
#[export] Instance eta_Held : Eta Held := λ x,
  {| held_tcp := held_tcp x; held_udp := held_udp x; free_slots := free_slots x;
     free_bytes := free_bytes x; exempt := exempt x |}.
Definition held_none : Held :=
  {| held_tcp := []; held_udp := []; free_slots := 0; free_bytes := 0; exempt := ∅ |}.

Definition tcp_handles rs ls : list SocketHandle :=
  bmap_flat (λ _ r, [tr_handle r]) rs ++ bmap_flat (λ _ l, bset_elems (pool l)) ls.
Definition udp_handles us : list SocketHandle := bmap_flat (λ _ r, handles r) us.

Definition record_wf (i : u64) (r : TcpRecord) : Prop :=
  id (tr_identity r) = i
  ∧ valid_buffer_bytes (tr_rcvbuf r) = true ∧ valid_buffer_bytes (tr_sndbuf r) = true
  ∧ (phase r = PhaseBound → ∃ l, local r = Some l ∧ port l ≠ 0%N).
Definition listener_wf (i : u64) (l : ListenerRecord) : Prop :=
  id (lr_identity l) = i
  ∧ valid_buffer_bytes (lr_rcvbuf l) = true ∧ valid_buffer_bytes (lr_sndbuf l) = true
  ∧ listen_port (lr_listen_endpoint l) ≠ 0%N ∧ port (lr_local l) ≠ 0%N
  ∧ (1 <= backlog l <= LISTENER_BACKLOG_MAX)%N
  ∧ N.of_nat (size (pool l)) = N.min (backlog l) LISTENER_POOL_MAX
  ∧ (llen (accepted_queue l) <= backlog l)%N.
Definition udp_record_wf (i : u64) (r : UdpRecord) : Prop :=
  id (ur_identity r) = i ∧ handles r ≠ [] ∧ (udp_local r = None → length (handles r) = 1).

Definition record_bytes (r : TcpRecord) : N := (tr_rcvbuf r + tr_sndbuf r)%N.
Definition listener_bytes (l : ListenerRecord) : N :=
  (N.of_nat (size (pool l)) * (lr_rcvbuf l + lr_sndbuf l))%N.
Definition udp_bytes (r : UdpRecord) : N := (llen (handles r) * BUFFER_BYTES)%N.
Definition buffer_bytes rs ls us : N :=
  (bmap_sum record_bytes rs + bmap_sum listener_bytes ls + bmap_sum udp_bytes us)%N.

(** A socket that has not been connected is closed. *)
Definition idle (p : ConnectPhase) : bool :=
  match p with PhaseOpen | PhaseBound => true | _ => false end.

(** Two UDP sockets of a family are never bound to one port. *)
Definition port_of (r : UdpRecord) : option (AddressFamily * u16) := (λ e, (ur_family r, v_port e)) <$> udp_local r.
Definition port_free (us : gmap u64 UdpRecord) (i : u64) (r : UdpRecord) : Prop :=
  ∀ j r' p, us !! j = Some r' → port_of r = Some p → port_of r' = Some p → j = i.
Definition ports_apart (us : gmap u64 UdpRecord) : Prop := ∀ i r, us !! i = Some r → port_free us i r.

Record sock_inv (x : Held) (cap : usize) (ss : SocketSet) rs ls us : Prop := {
  so_tcp : owns Tcp (tcp_handles rs ls ++ held_tcp x) ss;
  so_udp : owns Udp (udp_handles us ++ held_udp x) ss;
  so_wf : sockets_wf ss;
  so_count : (set_count ss + free_slots x <= cap)%N;
  so_bytes : (buffer_bytes rs ls us + free_bytes x <= MAX_SOCKET_BUFFER_BYTES)%N;
  so_idle : ∀ i r t, rs !! i = Some r → i ∉ exempt x → idle (phase r) = true →
    get_tcp ss (tr_handle r) = Some t → tcp_state t = StClosed;
  so_records : ∀ i r, rs !! i = Some r → record_wf i r;
  so_listeners : ∀ i l, ls !! i = Some l → listener_wf i l;
  so_udps : ∀ i r, us !! i = Some r → udp_record_wf i r;
  so_ports : ports_apart us
}.

(** A socket of the table, and what the stack keeps for a socket. *)
Definition registered (t : SocketTable) (i : SocketIdentity) (k : SocketKind) : Prop :=
  ∃ e, table_entries t !! id i = Some (generation i, e) ∧ entry_kind e = k.
Definition recorded rs ls us (closing : gset u64) (i : SocketIdentity) (k : SocketKind) : Prop :=
  match k with
  | Tcp =>
      (∃ r, rs !! id i = Some r ∧ tr_identity r = i ∧ id i ∉ closing)
      ∨ ∃ l, ls !! id i = Some l ∧ lr_identity l = i
  | Udp => ∃ r, us !! id i = Some r ∧ ur_identity r = i
  | Synthetic => False
  end.

Record reg_inv (x : Held) (t : SocketTable) (next : u64) (life : Lifecycle) rs ls us
    (closing : gset u64) (deadlines : gset (Time.Instant * u64)) : Prop := {
  re_ids : ∀ i, is_Some (rs !! i) ∨ is_Some (ls !! i) ∨ is_Some (us !! i) ∨ i ∈ closing →
    (i < next)%N;
  re_open : ∀ i g e, table_entries t !! i = Some (g, e) → entry_lifecycle e = SlOpen;
  re_recorded : ∀ i k, id i ∉ exempt x → registered t i k → recorded rs ls us closing i k;
  re_registered : life = Running → ∀ i k, id i ∉ exempt x →
    recorded rs ls us closing i k → registered t i k;
  re_disjoint : ∀ i, is_Some (ls !! i) → rs !! i = None;
  re_closing : ∀ i, i ∈ closing → table_entries t !! i = None;
  re_deadline : ∀ i r d, rs !! i = Some r → close_deadline r = Some d →
    i ∈ closing ∧ (d, i) ∈ deadlines
}.

(** A socket waiting to be accepted is that of no listener and of no UDP
    socket, and has been connected. *)
Definition queue_inv (x : Held) (next : u64) rs ls us : Prop :=
  ∀ j l c, ls !! j = Some l → c ∈ accepted_queue l →
    (id c < next)%N
    ∧ (j ∉ exempt x → id c ∉ exempt x →
       ls !! id c = None ∧ us !! id c = None ∧ ∀ r, rs !! id c = Some r → idle (phase r) = false).
End records.

Section invariant.
Context `{SmolTypes}.

Record inv (x : Held) (s : Sys) : Prop := {
  inv_sock : sock_inv x (l_sockets (limits (stack s))) (sockets (stack s)) (tcp_records (stack s))
    (tcp_listeners (stack s)) (udp_records (stack s));
  inv_reg : reg_inv x (socket_table (stack s)) (next_socket_id (shd s)) (lifecycle (stack s))
    (tcp_records (stack s)) (tcp_listeners (stack s)) (udp_records (stack s))
    (closing_tcp (stack s)) (closing_deadlines (stack s));
  inv_table : table_wf (get_table s);
  inv_room : max_entries (socket_table (stack s)) = l_sockets (limits (stack s))
    ∧ max_waiters (socket_table (stack s)) = (l_sockets (limits (stack s)) * 2)%N;
  inv_device : device_wf (device (stack s));
  inv_kept : lifecycle (stack s) = Running → wakeups_kept s;
  inv_limits : limits_valid (limits (stack s)) = true;
  inv_queue : queue_inv x (next_socket_id (shd s)) (tcp_records (stack s)) (tcp_listeners (stack s))
    (udp_records (stack s))
}.

(** The invariant between calls. *)
Definition stack_wf (s : Sys) : Prop := inv held_none s.

(** What the link sees of a device: the packets it is owed and the credit it gave. *)
Definition link_of (d : BeamDevice) := (receive d, receive_limit d, credit d).

(** What a step of a drive leaves alone. *)
Record driven (s s' : Sys) : Prop := {
  dr_link : link_of (device (stack s')) = link_of (device (stack s));
  dr_limits : limits (stack s') = limits (stack s);
  dr_lifecycle : lifecycle (stack s') = lifecycle (stack s);
  dr_pending : pending_notifications (stack s') = pending_notifications (stack s);
  dr_reason : shutdown_reason (stack s') = shutdown_reason (stack s);
  dr_outbox : outbox s' = outbox s;
  dr_held : table_held (socket_table (stack s')) ≡ₚ table_held (socket_table (stack s));
  dr_udp : udp_records (stack s') = udp_records (stack s);
  dr_next : (next_socket_id (shd s) <= next_socket_id (shd s'))%N;
  dr_absent : ∀ i, (i < next_socket_id (shd s))%N →
    table_entries (socket_table (stack s)) !! i = None →
    table_entries (socket_table (stack s')) !! i = None;
  dr_closing : closing_tcp (stack s') ⊆ closing_tcp (stack s);
  dr_records : ∀ i r, tcp_records (stack s) !! i = Some r → i ∉ closing_tcp (stack s) →
    ∃ p, tcp_records (stack s') !! i = Some (r <| phase := p |>)
}.

#[export] Instance driven_refl : Reflexive driven.
Proof. intros s. constructor; try done. intros i r Hr _. exists (phase r). by destruct r. Qed.
#[export] Instance driven_trans : Transitive driven.
Proof.
  intros s1 s2 s3 [] []. constructor; try congruence; [by etrans|by etrans| |set_solver|].
  { intros i Hi He. apply dr_absent1; [lia|by apply dr_absent0]. }
  intros i r Hr Hc. destruct (dr_records0 i r Hr Hc) as [p Hp].
  destruct (dr_records1 i _ Hp) as [p' Hp']; [set_solver|]. by exists p'.
Qed.

(** [J s0 x s]: [s] was reached from [s0], and holds [x]. *)
Definition J (s0 : Sys) (x : Held) (s : Sys) : Prop := inv x s ∧ driven s0 s.
End invariant.

(** ** How the parts of the invariant change *)
Section sock_changes.
Context `{SmolTypes}.
Implicit Types (rs : gmap u64 TcpRecord) (ls : gmap u64 ListenerRecord) (us : gmap u64 UdpRecord).
Implicit Types (x : Held) (cap : usize) (ss : SocketSet).

(** Holding the same sockets with less room, or with more records exempt. *)
Lemma sock_weaken x x' cap ss rs ls us :
  held_tcp x' ≡ₚ held_tcp x → held_udp x' ≡ₚ held_udp x → (free_slots x' <= free_slots x)%N →
  (free_bytes x' <= free_bytes x)%N → exempt x ⊆ exempt x' →
  sock_inv x cap ss rs ls us → sock_inv x' cap ss rs ls us.
Proof.
  intros Ht Hu Hs Hb He []. constructor; try done; [by rewrite Ht|by rewrite Hu|lia|lia|].
  intros i r t Hr Hi. apply (so_idle0 i r t Hr). set_solver.
Qed.

Lemma sock_tcp_handle x cap ss rs ls us i r :
  sock_inv x cap ss rs ls us → rs !! i = Some r →
  ∃ t, get_tcp ss (tr_handle r) = Some t ∧ set_get ss (tr_handle r) = Some (STcp t).
Proof.
  intros [] Hr. eapply owns_get_tcp; [done|]. unfold tcp_handles. rewrite !elem_of_app. left; left.
  apply elem_of_bmap_flat. exists i, r. split; [done|]. by apply list_elem_of_singleton.
Qed.
Lemma sock_pool_handle x cap ss rs ls us i l h :
  sock_inv x cap ss rs ls us → ls !! i = Some l → h ∈ pool l →
  ∃ t, get_tcp ss h = Some t ∧ set_get ss h = Some (STcp t).
Proof.
  intros [] Hl Hh. eapply owns_get_tcp; [done|]. unfold tcp_handles. rewrite !elem_of_app. left; right.
  apply elem_of_bmap_flat. exists i, l. split; [done|]. by apply elem_of_bset_elems.
Qed.
Lemma sock_held_handle x cap ss rs ls us h :
  sock_inv x cap ss rs ls us → h ∈ held_tcp x →
  ∃ t, get_tcp ss h = Some t ∧ set_get ss h = Some (STcp t).
Proof. intros [] Hh. eapply owns_get_tcp; [done|]. rewrite elem_of_app. by right. Qed.
Lemma sock_udp_handle x cap ss rs ls us i r h :
  sock_inv x cap ss rs ls us → us !! i = Some r → h ∈ handles r →
  ∃ u, get_udp ss h = Some u ∧ set_get ss h = Some (SUdp u).
Proof.
  intros [] Hr Hh. eapply owns_get_udp; [done|]. rewrite elem_of_app. left.
  apply elem_of_bmap_flat. by exists i, r.
Qed.

Lemma sock_put x cap ss rs ls us h s s' :
  set_get ss h = Some s → socket_kind s' = socket_kind s → socket_wf s' →
  (∀ i r t, rs !! i = Some r → i ∉ exempt x → idle (phase r) = true → tr_handle r = h →
    s' = STcp t → tcp_state t = StClosed) →
  sock_inv x cap ss rs ls us → sock_inv x cap (set_put h (Some s') ss) rs ls us.
Proof.
  intros Hs Hk Hwf Hi []. pose proof (λ h', kind_at_put h s s' ss h' Hs Hk) as Hkind.
  destruct (set_put_spec h s (Some s') ss Hs) as [Hg Hc].
  constructor; try done.
  - by apply (owns_slots _ _ ss).
  - by apply (owns_slots _ _ ss).
  - by eapply sockets_wf_put.
  - lia.
  - intros i r t Hr Hx Hp Ht. rewrite get_tcp_set_get, Hg in Ht. case_decide as Hd.
    + by simplify_eq; eapply Hi.
    + eapply so_idle0; [done|done|done|]. by rewrite get_tcp_set_get.
Qed.

Lemma sock_add x cap ss rs ls us s h ss' :
  set_add s ss = (h, ss') → socket_wf s → (0 < free_slots x)%N →
  sock_inv x cap ss rs ls us →
  sock_inv (x <| held_tcp ::= λ l, (if decide (socket_kind s = Tcp) then [h] else []) ++ l |>
              <| held_udp ::= λ l, (if decide (socket_kind s = Udp) then [h] else []) ++ l |>
              <| free_slots ::= N.pred |>) cap ss' rs ls us.
Proof.
  intros Ha Hwf Hf Hso. pose proof Hso as []. pose proof Ha as (Hn & Hg & Hc)%set_add_spec.
  constructor; simpl; try done.
  - rewrite Permutation_app_swap_app. by apply (owns_add Tcp _ ss).
  - rewrite Permutation_app_swap_app. by apply (owns_add Udp _ ss).
  - by eapply sockets_wf_add.
  - lia.
  - intros i r t Hr Hx Hp Ht. eapply so_idle0; [done|done|done|].
    destruct (sock_tcp_handle _ _ _ _ _ _ _ _ Hso Hr) as (t0 & Ht0 & Hs0).
    rewrite get_tcp_set_get, Hg in Ht. case_decide; [congruence|]. by rewrite get_tcp_set_get.
Qed.

Lemma sock_remove x x' cap ss rs ls us s h :
  set_get ss h = Some s →
  held_tcp x ≡ₚ (if decide (socket_kind s = Tcp) then [h] else []) ++ held_tcp x' →
  held_udp x ≡ₚ (if decide (socket_kind s = Udp) then [h] else []) ++ held_udp x' →
  free_slots x' = (free_slots x + 1)%N → free_bytes x' = free_bytes x → exempt x' = exempt x →
  sock_inv x cap ss rs ls us → sock_inv x' cap (set_put h None ss) rs ls us.
Proof.
  intros Hs Ht Hu Hf Hb He Hso. pose proof Hso as []. destruct (set_put_spec h s None ss Hs) as [Hg Hc].
  assert (Htcp : owns Tcp (tcp_handles rs ls ++ held_tcp x') (set_put h None ss)).
  { apply (owns_remove Tcp s); [done|]. by rewrite Permutation_app_swap_app, <-Ht. }
  constructor; simpl; try done.
  - apply (owns_remove Udp s); [done|]. by rewrite Permutation_app_swap_app, <-Hu.
  - by eapply sockets_wf_remove.
  - rewrite Hf. lia.
  - by rewrite Hb.
  - rewrite He. intros i r t Hr Hx Hp Htc. eapply so_idle0; [done|done|done|].
    rewrite get_tcp_set_get, Hg in Htc. case_decide; [done|]. by rewrite get_tcp_set_get.
Qed.
End sock_changes.

Section sock_records.
Context `{SmolTypes}.
Implicit Types (rs : gmap u64 TcpRecord) (ls : gmap u64 ListenerRecord) (us : gmap u64 UdpRecord).
Implicit Types (x : Held) (cap : usize) (ss : SocketSet).

(** Sockets pass between the records and the hands of the method. *)
Lemma sock_rebook x x' cap ss rs ls us rs' ls' us' :
  tcp_handles rs' ls' ++ held_tcp x' ≡ₚ tcp_handles rs ls ++ held_tcp x →
  udp_handles us' ++ held_udp x' ≡ₚ udp_handles us ++ held_udp x →
  (free_slots x' <= free_slots x)%N →
  (buffer_bytes rs' ls' us' + free_bytes x' <= buffer_bytes rs ls us + free_bytes x)%N →
  (∀ i r t, rs' !! i = Some r → i ∉ exempt x' → idle (phase r) = true →
    get_tcp ss (tr_handle r) = Some t → tcp_state t = StClosed) →
  (∀ i r, rs' !! i = Some r → record_wf i r) → (∀ i l, ls' !! i = Some l → listener_wf i l) →
  (∀ i r, us' !! i = Some r → udp_record_wf i r) → ports_apart us' →
  sock_inv x cap ss rs ls us → sock_inv x' cap ss rs' ls' us'.
Proof.
  intros Ht Hu Hs Hb Hi Hr Hl Hus Hpo []. constructor; try done; [by rewrite Ht|by rewrite Hu|lia|lia].
Qed.

Lemma tcp_handles_record rs ls i r o :
  rs !! i = o →
  tcp_handles (<[i := r]> rs) ls ++ match o with Some r0 => [tr_handle r0] | None => [] end
    ≡ₚ tr_handle r :: tcp_handles rs ls.
Proof.
  intros Ho. unfold tcp_handles. destruct o as [r0|].
  - rewrite bmap_flat_update, (bmap_flat_delete _ _ _ _ Ho). simpl. constructor.
    by rewrite Permutation_app_comm.
  - by rewrite bmap_flat_insert, app_nil_r.
Qed.
Lemma tcp_handles_delete rs ls i r :
  rs !! i = Some r → tcp_handles rs ls ≡ₚ tr_handle r :: tcp_handles (delete i rs) ls.
Proof. intros Hr. unfold tcp_handles. by rewrite (bmap_flat_delete _ _ _ _ Hr). Qed.
Lemma tcp_handles_listener rs ls i l o :
  ls !! i = o →
  tcp_handles rs (<[i := l]> ls) ++ match o with Some l0 => bset_elems (pool l0) | None => [] end
    ≡ₚ bset_elems (pool l) ++ tcp_handles rs ls.
Proof.
  intros Ho. unfold tcp_handles. destruct o as [l0|].
  - rewrite bmap_flat_update, (bmap_flat_delete _ _ _ _ Ho).
    rewrite (Permutation_app_comm (bset_elems (pool l0))), !app_assoc. f_equiv. f_equiv.
    by rewrite Permutation_app_comm.
  - rewrite bmap_flat_insert, app_nil_r by done. apply Permutation_app_swap_app.
Qed.
Lemma tcp_handles_unlisten rs ls i l :
  ls !! i = Some l → tcp_handles rs ls ≡ₚ bset_elems (pool l) ++ tcp_handles rs (delete i ls).
Proof.
  intros Hl. unfold tcp_handles. rewrite (bmap_flat_delete _ _ _ _ Hl). apply Permutation_app_swap_app.
Qed.
Lemma udp_handles_record us i r o :
  us !! i = o →
  udp_handles (<[i := r]> us) ++ match o with Some r0 => handles r0 | None => [] end
    ≡ₚ handles r ++ udp_handles us.
Proof.
  intros Ho. unfold udp_handles. destruct o as [r0|].
  - rewrite bmap_flat_update, (bmap_flat_delete _ _ _ _ Ho), <-app_assoc. f_equiv.
    by rewrite Permutation_app_comm.
  - by rewrite bmap_flat_insert, app_nil_r.
Qed.
Lemma udp_handles_delete us i r :
  us !! i = Some r → udp_handles us ≡ₚ handles r ++ udp_handles (delete i us).
Proof. intros Hr. unfold udp_handles. by rewrite (bmap_flat_delete _ _ _ _ Hr). Qed.

Lemma bytes_sum {V} (f : V → N) (m : gmap u64 V) i v o :
  m !! i = o →
  (bmap_sum f (<[i := v]> m) + match o with Some v0 => f v0 | None => 0 end
   = f v + bmap_sum f m)%N.
Proof.
  intros Ho. destruct o as [v0|]; [rewrite (bmap_sum_update f m i v0 v Ho)|rewrite bmap_sum_insert by done];
    lia.
Qed.

(** A record is changed, its socket kept. *)
Lemma sock_record_update x cap ss rs ls us i r r' :
  rs !! i = Some r → tr_handle r' = tr_handle r → record_bytes r' = record_bytes r → record_wf i r' →
  (∀ t, i ∉ exempt x → idle (phase r') = true → get_tcp ss (tr_handle r) = Some t →
    tcp_state t = StClosed) →
  sock_inv x cap ss rs ls us → sock_inv x cap ss (<[i := r']> rs) ls us.
Proof.
  intros Hr Hh Hb Hwf Hi Hso. pose proof Hso as [].
  eapply sock_rebook; [| | | | | | | | |done]; try done; try lia.
  - pose proof (tcp_handles_record rs ls i r' _ Hr) as Hp. rewrite Hh in Hp.
    rewrite <-Permutation_cons_append in Hp. apply Permutation_cons_inv in Hp. by rewrite Hp.
  - pose proof (bytes_sum record_bytes rs i r' _ Hr). unfold buffer_bytes. simpl in *. lia.
  - intros j r1 t. rewrite lookup_insert_Some. intros [[<- <-]|[? Hj]]; [rewrite Hh; eauto|by apply so_idle0].
  - intros j r1. rewrite lookup_insert_Some. intros [[<- <-]|[? Hj]]; [done|by apply so_records0].
Qed.

(** A held socket gets a record. *)
Lemma sock_record_insert x cap ss rs ls us i r hs :
  rs !! i = None → held_tcp x ≡ₚ tr_handle r :: hs → record_wf i r →
  (record_bytes r <= free_bytes x)%N →
  (∀ t, i ∉ exempt x → idle (phase r) = true → get_tcp ss (tr_handle r) = Some t →
    tcp_state t = StClosed) →
  sock_inv x cap ss rs ls us →
  sock_inv (x <| held_tcp := hs |> <| free_bytes ::= λ n, (n - record_bytes r)%N |>) cap ss
    (<[i := r]> rs) ls us.
Proof.
  intros Hr Hh Hwf Hb Hi Hso. pose proof Hso as [].
  eapply sock_rebook; [| | | | | | | | |done]; simpl; try done; try lia.
  - pose proof (tcp_handles_record rs ls i r _ Hr) as Hp. rewrite app_nil_r in Hp.
    rewrite Hp, Hh. simpl. by rewrite Permutation_middle.
  - pose proof (bytes_sum record_bytes rs i r _ Hr). unfold buffer_bytes. simpl in *. lia.
  - intros j r1 t. rewrite lookup_insert_Some. intros [[<- <-]|[? Hj]]; [eauto|by apply so_idle0].
  - intros j r1. rewrite lookup_insert_Some. intros [[<- <-]|[? Hj]]; [done|by apply so_records0].
Qed.

(** A record goes, its socket is held. *)
Lemma sock_record_delete x cap ss rs ls us i r :
  rs !! i = Some r → sock_inv x cap ss rs ls us →
  sock_inv (x <| held_tcp ::= λ l, tr_handle r :: l |> <| free_bytes ::= λ n, (n + record_bytes r)%N |>)
    cap ss (delete i rs) ls us.
Proof.
  intros Hr Hso. pose proof Hso as []. eapply sock_rebook; [| | | | | | | | |done]; simpl; try done; try lia.
  - rewrite (tcp_handles_delete rs ls i r Hr). simpl. by rewrite Permutation_middle.
  - pose proof (bmap_sum_delete record_bytes rs i r Hr). unfold buffer_bytes. lia.
  - intros j r1 t [_ Hj]%lookup_delete_Some. by apply so_idle0.
  - intros j r1 [_ Hj]%lookup_delete_Some. by apply so_records0.
Qed.

(** Listeners, likewise. *)
Lemma sock_listener_insert x cap ss rs ls us i l hs :
  ls !! i = None → held_tcp x ≡ₚ bset_elems (pool l) ++ hs → listener_wf i l →
  (listener_bytes l <= free_bytes x)%N → sock_inv x cap ss rs ls us →
  sock_inv (x <| held_tcp := hs |> <| free_bytes ::= λ n, (n - listener_bytes l)%N |>) cap ss rs
    (<[i := l]> ls) us.
Proof.
  intros Hl Hh Hwf Hb Hso. pose proof Hso as [].
  eapply sock_rebook; [| | | | | | | | |done]; simpl; try done; try lia.
  - pose proof (tcp_handles_listener rs ls i l _ Hl) as Hp. rewrite app_nil_r in Hp.
    rewrite Hp, Hh. by rewrite <-app_assoc, Permutation_app_swap_app.
  - pose proof (bytes_sum listener_bytes ls i l _ Hl). unfold buffer_bytes. simpl in *. lia.
  - intros j l1. rewrite lookup_insert_Some. intros [[<- <-]|[? Hj]]; [done|by apply so_listeners0].
Qed.
Lemma sock_listener_delete x cap ss rs ls us i l :
  ls !! i = Some l → sock_inv x cap ss rs ls us →
  sock_inv (x <| held_tcp ::= λ hs, bset_elems (pool l) ++ hs |>
              <| free_bytes ::= λ n, (n + listener_bytes l)%N |>) cap ss rs (delete i ls) us.
Proof.
  intros Hl Hso. pose proof Hso as []. eapply sock_rebook; [| | | | | | | | |done]; simpl; try done; try lia.
  - rewrite (tcp_handles_unlisten rs ls i l Hl). by rewrite <-app_assoc, Permutation_app_swap_app.
  - pose proof (bmap_sum_delete listener_bytes ls i l Hl). unfold buffer_bytes. lia.
  - intros j l1 [_ Hj]%lookup_delete_Some. by apply so_listeners0.
Qed.
Lemma sock_listener_update x cap ss rs ls us i l l' :
  ls !! i = Some l → pool l' = pool l → listener_bytes l' = listener_bytes l → listener_wf i l' →
  sock_inv x cap ss rs ls us → sock_inv x cap ss rs (<[i := l']> ls) us.
Proof.
  intros Hl Hp Hb Hwf Hso. pose proof Hso as [].
  eapply sock_rebook; [| | | | | | | | |done]; try done; try lia.
  - pose proof (tcp_handles_listener rs ls i l' _ Hl) as Hpm. rewrite Hp, Permutation_app_comm in Hpm.
    apply Permutation_app_inv_l in Hpm. by rewrite Hpm.
  - pose proof (bytes_sum listener_bytes ls i l' _ Hl). unfold buffer_bytes. simpl in *. lia.
  - intros j l1. rewrite lookup_insert_Some. intros [[<- <-]|[? Hj]]; [done|by apply so_listeners0].
Qed.

Lemma port_free_same us i r r' : ports_apart us → us !! i = Some r → port_of r' = port_of r → port_free us i r'.
Proof. intros Hp Hr He j r1 q Hj. rewrite He. by apply Hp. Qed.
Lemma port_free_unbound us i r : udp_local r = None → port_free us i r.
Proof. intros Hl j r' p _. unfold port_of. by rewrite Hl. Qed.
Lemma ports_apart_insert us i r : ports_apart us → port_free us i r → ports_apart (<[i := r]> us).
Proof.
  intros Hp Hf j r1 Hj k r2 q Hk Hq1 Hq2. apply lookup_insert_Some in Hj as [[<- <-]|[Hj Hr1]];
    apply lookup_insert_Some in Hk as [[<- <-]|[Hk Hr2]]; [done| | |by eapply Hp].
  - by eapply Hf.
  - symmetry. by eapply Hf.
Qed.
Lemma ports_apart_delete us i : ports_apart us → ports_apart (delete i us).
Proof.
  intros Hp j r [_ Hj]%lookup_delete_Some k r' q [_ Hk]%lookup_delete_Some. by apply (Hp _ _ Hj).
Qed.

(** UDP records: [hs] are the held sockets a record takes over. *)
Lemma sock_udp_put x cap ss rs ls us i r o hs :
  us !! i = o →
  match o with Some r0 => handles r0 | None => [] end ++ held_udp x ≡ₚ handles r ++ hs →
  udp_record_wf i r → port_free us i r →
  (udp_bytes r <= match o with Some r0 => udp_bytes r0 | None => 0 end + free_bytes x)%N →
  sock_inv x cap ss rs ls us →
  sock_inv (x <| held_udp := hs |> <| free_bytes := 0%N |>) cap ss rs ls (<[i := r]> us).
Proof.
  intros Ho Hh Hwf Hpf Hb Hso. pose proof Hso as [].
  eapply sock_rebook; [| | | | | | | | |done]; simpl; try done; try lia.
  - pose proof (udp_handles_record us i r o Ho) as Hp.
    set (old := match o with Some r0 => handles r0 | None => [] end) in *.
    apply (Permutation_app_inv_l old).
    rewrite (Permutation_app_swap_app old _ hs), app_assoc, Hp.
    rewrite (Permutation_app_swap_app old), Hh, <-app_assoc. apply Permutation_app_swap_app.
  - pose proof (bytes_sum udp_bytes us i r _ Ho). unfold buffer_bytes. lia.
  - intros j r1. rewrite lookup_insert_Some. intros [[<- <-]|[? Hj]]; [done|by apply so_udps0].
  - by apply ports_apart_insert.
Qed.
Lemma sock_udp_delete x cap ss rs ls us i r :
  us !! i = Some r → sock_inv x cap ss rs ls us →
  sock_inv (x <| held_udp ::= λ hs, handles r ++ hs |> <| free_bytes ::= λ n, (n + udp_bytes r)%N |>)
    cap ss rs ls (delete i us).
Proof.
  intros Hr Hso. pose proof Hso as []. eapply sock_rebook; [| | | | | | | | |done]; simpl; try done; try lia.
  - rewrite (udp_handles_delete us i r Hr). by rewrite <-app_assoc, Permutation_app_swap_app.
  - pose proof (bmap_sum_delete udp_bytes us i r Hr). unfold buffer_bytes. lia.
  - intros j r1 [_ Hj]%lookup_delete_Some. by apply so_udps0.
  - by apply ports_apart_delete.
Qed.
End sock_records.

Section reg_changes.
Implicit Types (rs : gmap u64 TcpRecord) (ls : gmap u64 ListenerRecord) (us : gmap u64 UdpRecord).
Implicit Types (x : Held) (t : SocketTable) (cl : gset u64) (ds : gset (Time.Instant * u64)).

Lemma recorded_other rs ls us cl rs' ls' us' cl' i k :
  rs' !! id i = rs !! id i → ls' !! id i = ls !! id i → us' !! id i = us !! id i →
  (id i ∈ cl' ↔ id i ∈ cl) →
  recorded rs' ls' us' cl' i k ↔ recorded rs ls us cl i k.
Proof. intros Hr Hl Hu Hc. unfold recorded. rewrite Hr, Hl, Hu. destruct k; naive_solver. Qed.

Lemma registered_other t t' i k :
  table_entries t' !! id i = table_entries t !! id i → registered t' i k ↔ registered t i k.
Proof. intros He. unfold registered. by rewrite He. Qed.

(** More sockets exempt, and one that need be no longer. *)
Lemma reg_weaken x x' t next next' life rs ls us cl ds :
  exempt x ⊆ exempt x' → (next <= next')%N →
  reg_inv x t next life rs ls us cl ds → reg_inv x' t next' life rs ls us cl ds.
Proof.
  intros He Hn []. constructor; try done.
  - intros i Hi. specialize (re_ids0 i Hi). lia.
  - intros i k Hi. apply re_recorded0. set_solver.
  - intros Hl i k Hi. apply re_registered0; [done|set_solver].
Qed.

Lemma queue_weaken x x' next next' rs ls us :
  exempt x ⊆ exempt x' → (next <= next')%N → queue_inv x next rs ls us → queue_inv x' next' rs ls us.
Proof.
  intros He Hn Hq j l c Hl Hc. destruct (Hq j l c Hl Hc) as [Hi Hx]. split; [lia|].
  intros Hj Hid. apply Hx; set_solver.
Qed.

(** Anything may change about an exempt socket. *)
Lemma queue_change x i next next' rs ls us rs' ls' us' :
  i ∈ exempt x → (next <= next')%N →
  (∀ j, j ≠ i → rs' !! j = rs !! j ∧ ls' !! j = ls !! j ∧ us' !! j = us !! j) →
  (∀ l c, ls' !! i = Some l → c ∈ accepted_queue l → (id c < next')%N) →
  queue_inv x next rs ls us → queue_inv x next' rs' ls' us'.
Proof.
  intros Hi Hn Hoth Hids Hq j l c Hl Hc. destruct (decide (j = i)) as [->|Hj].
  { split; [by eapply Hids|done]. }
  destruct (Hoth j Hj) as (_ & Hlj & _). rewrite Hlj in Hl. destruct (Hq j l c Hl Hc) as [Hc' Hx].
  split; [lia|]. intros Hj' Hid. destruct (Hoth (id c)) as (-> & -> & ->); [by intros <-|]. by apply Hx.
Qed.

Lemma reg_unexempt x x' i t next life rs ls us cl ds :
  exempt x ⊆ {[i]} ∪ exempt x' →
  (∀ g k, registered t {| id := i; generation := g |} k →
    recorded rs ls us cl {| id := i; generation := g |} k) →
  (life = Running → ∀ g k, recorded rs ls us cl {| id := i; generation := g |} k →
    registered t {| id := i; generation := g |} k) →
  reg_inv x t next life rs ls us cl ds → reg_inv x' t next life rs ls us cl ds.
Proof.
  intros He H1 H2 []. constructor; try done.
  - intros [j g] k Hj Hk. simpl in *. destruct (decide (j = i)) as [->|]; [by apply H1|].
    apply re_recorded0; [simpl; set_solver|done].
  - intros Hl [j g] k Hj Hk. simpl in *. destruct (decide (j = i)) as [->|]; [by apply H2|].
    apply re_registered0; [done|simpl; set_solver|done].
Qed.

(** Anything may change about an exempt socket. *)
Lemma reg_change x i t next life rs ls us cl ds t' next' rs' ls' us' cl' ds' :
  i ∈ exempt x → (next <= next')%N →
  (∀ j, j ≠ i → table_entries t' !! j = table_entries t !! j ∧ rs' !! j = rs !! j
    ∧ ls' !! j = ls !! j ∧ us' !! j = us !! j ∧ (j ∈ cl' ↔ j ∈ cl)
    ∧ (∀ d, (d, j) ∈ ds → (d, j) ∈ ds')) →
  (is_Some (rs' !! i) ∨ is_Some (ls' !! i) ∨ is_Some (us' !! i) ∨ i ∈ cl' → (i < next')%N) →
  (∀ g e, table_entries t' !! i = Some (g, e) → entry_lifecycle e = SlOpen) →
  (is_Some (ls' !! i) → rs' !! i = None) → (i ∈ cl' → table_entries t' !! i = None) →
  (∀ r d, rs' !! i = Some r → close_deadline r = Some d → i ∈ cl' ∧ (d, i) ∈ ds') →
  reg_inv x t next life rs ls us cl ds → reg_inv x t' next' life rs' ls' us' cl' ds'.
Proof.
  intros Hi Hn Hoth Hids Hopen Hdisj Hcl Hdl []. constructor.
  - intros j Hj. destruct (decide (j = i)) as [->|Hne]; [by apply Hids|].
    destruct (Hoth j Hne) as (_ & Hr & Hl & Hu & Hc & _). rewrite Hr, Hl, Hu, Hc in Hj.
    specialize (re_ids0 j Hj). lia.
  - intros j g e Hj. destruct (decide (j = i)) as [->|Hne]; [by eapply Hopen|].
    destruct (Hoth j Hne) as (He & _). rewrite He in Hj. by eapply re_open0.
  - intros j k Hj. destruct (decide (id j = i)) as [<-|Hne]; [done|].
    destruct (Hoth _ Hne) as (He & Hr & Hl & Hu & Hc & _).
    rewrite (registered_other t) by done. rewrite (recorded_other rs ls us cl) by done. by apply re_recorded0.
  - intros Hlf j k Hj. destruct (decide (id j = i)) as [<-|Hne]; [done|].
    destruct (Hoth _ Hne) as (He & Hr & Hl & Hu & Hc & _).
    rewrite (registered_other t) by done. rewrite (recorded_other rs ls us cl) by done. by apply re_registered0.
  - intros j Hj. destruct (decide (j = i)) as [->|Hne]; [by apply Hdisj|].
    destruct (Hoth j Hne) as (_ & Hr & Hl & _). rewrite Hl in Hj. rewrite Hr. by apply re_disjoint0.
  - intros j Hj. destruct (decide (j = i)) as [->|Hne]; [by apply Hcl|].
    destruct (Hoth j Hne) as (He & _ & _ & _ & Hc & _). rewrite He. by apply re_closing0, Hc.
  - intros j r d Hr Hd. destruct (decide (j = i)) as [->|Hne]; [by eapply Hdl|].
    destruct (Hoth j Hne) as (_ & Hr' & _ & _ & Hc & Hds). rewrite Hr' in Hr.
    destruct (re_deadline0 j r d Hr Hd). split; [by apply Hc|by apply Hds].
Qed.

(** The table changes its waiters only. *)
Lemma reg_shape x t next life rs ls us cl ds t' next' :
  (∀ i, entry_shape <$> table_entries t' !! i = entry_shape <$> table_entries t !! i) →
  (next <= next')%N →
  reg_inv x t next life rs ls us cl ds → reg_inv x t' next' life rs ls us cl ds.
Proof.
  intros Hsh Hn [].
  assert (Hreg : ∀ i k, registered t' i k ↔ registered t i k).
  { intros i k. unfold registered. specialize (Hsh (id i)).
    destruct (table_entries t' !! id i) as [[g' e']|], (table_entries t !! id i) as [[g e]|];
      simplify_eq/=; [|naive_solver]. unfold entry_shape in *. simplify_eq/=.
    split; intros (e0 & [= ? ?] & <-); subst; eauto with congruence. }
  constructor; try done.
  - intros i Hi. specialize (re_ids0 i Hi). lia.
  - intros i g e He. specialize (Hsh i). rewrite He in Hsh.
    destruct (table_entries t !! i) as [[g0 e0]|] eqn:He0; [|done]. unfold entry_shape in Hsh. simplify_eq/=.
    rewrite (re_open0 _ _ _ He0) in *. congruence.
  - intros i k Hi. rewrite Hreg. by apply re_recorded0.
  - intros Hl i k Hi. rewrite Hreg. by apply re_registered0.
  - intros i Hi. specialize (Hsh i). rewrite (re_closing0 i Hi) in Hsh. by destruct (table_entries t' !! i).
Qed.

(** A record is changed, and is still that of its socket. *)
Lemma reg_record_update x t next life rs ls us cl ds i r r' :
  rs !! i = Some r → tr_identity r' = tr_identity r →
  (∀ d, close_deadline r' = Some d → i ∈ cl ∧ (d, i) ∈ ds) →
  reg_inv x t next life rs ls us cl ds → reg_inv x t next life (<[i := r']> rs) ls us cl ds.
Proof.
  intros Hr Hid Hd [].
  assert (Hrec : ∀ j k, recorded (<[i := r']> rs) ls us cl j k ↔ recorded rs ls us cl j k).
  { intros j k. unfold recorded. destruct k; try done. destruct (decide (i = id j)) as [->|Hne].
    - rewrite lookup_insert_eq, Hr. split; (intros [(r0 & [= <-] & ? & ?)|?]; [left|by right]);
        eexists; (split_and!; [done|congruence|done]).
    - by rewrite lookup_insert_ne. }
  constructor; try done.
  - intros j [Hj|Hj]; apply re_ids0; [|by right]. destruct (decide (i = j)) as [->|Hne]; [by left|].
    left. by rewrite lookup_insert_ne in Hj.
  - intros j k Hj. rewrite Hrec. by apply re_recorded0.
  - intros Hl j k Hj. rewrite Hrec. by apply re_registered0.
  - intros j Hj. rewrite lookup_insert_ne; [by apply re_disjoint0|]. intros ->.
    by rewrite (re_disjoint0 _ Hj) in Hr.
  - intros j r0 d. rewrite lookup_insert_Some. intros [[<- <-]|[? Hj]]; [apply Hd|by apply re_deadline0].
Qed.

Lemma reg_listener_update x t next life rs ls us cl ds i l l' :
  ls !! i = Some l → lr_identity l' = lr_identity l →
  reg_inv x t next life rs ls us cl ds → reg_inv x t next life rs (<[i := l']> ls) us cl ds.
Proof.
  intros Hl Hid [].
  assert (Hrec : ∀ j k, recorded rs (<[i := l']> ls) us cl j k ↔ recorded rs ls us cl j k).
  { intros j k. unfold recorded. destruct k; try done. destruct (decide (i = id j)) as [->|Hne].
    - rewrite lookup_insert_eq, Hl. split; (intros [?|(l0 & [= <-] & ?)]; [by left|right]);
        eexists; (split_and!; [done|congruence]).
    - by rewrite lookup_insert_ne. }
  constructor; try done.
  - intros j Hj. apply re_ids0. destruct (decide (i = j)) as [->|Hne]; [right; left; by eexists|].
    by rewrite lookup_insert_ne in Hj.
  - intros j k Hj. rewrite Hrec. by apply re_recorded0.
  - intros Hlf j k Hj. rewrite Hrec. by apply re_registered0.
  - intros j Hj. apply re_disjoint0. destruct (decide (i = j)) as [->|Hne]; [by eexists|].
    by rewrite lookup_insert_ne in Hj.
Qed.

Lemma reg_udp_update x t next life rs ls us cl ds i r r' :
  us !! i = Some r → ur_identity r' = ur_identity r →
  reg_inv x t next life rs ls us cl ds → reg_inv x t next life rs ls (<[i := r']> us) cl ds.
Proof.
  intros Hr Hid [].
  assert (Hrec : ∀ j k, recorded rs ls (<[i := r']> us) cl j k ↔ recorded rs ls us cl j k).
  { intros j k. unfold recorded. destruct k; try done. destruct (decide (i = id j)) as [->|Hne].
    - rewrite lookup_insert_eq, Hr. split; intros (r0 & [= <-] & ?); eexists; (split; [done|congruence]).
    - by rewrite lookup_insert_ne. }
  constructor; try done.
  - intros j Hj. apply re_ids0. destruct (decide (i = j)) as [->|Hne]; [right; right; left; by eexists|].
    by rewrite lookup_insert_ne in Hj.
  - intros j k Hj. rewrite Hrec. by apply re_recorded0.
  - intros Hlf j k Hj. rewrite Hrec. by apply re_registered0.
Qed.

Lemma queue_udp_update x next rs ls us i r r' :
  us !! i = Some r → queue_inv x next rs ls us → queue_inv x next rs ls (<[i := r']> us).
Proof.
  intros Hr Hq j l c Hl Hc. destruct (Hq j l c Hl Hc) as [Hlt Hx]. split; [done|]. intros Hj Hid.
  destruct (Hx Hj Hid) as (Hn & Hu & Hrs). split_and!; [done| |done].
  rewrite lookup_insert_ne; [done|]. intros ->. congruence.
Qed.

Lemma reg_lifecycle x t next life life' rs ls us cl ds :
  life' ≠ Running → reg_inv x t next life rs ls us cl ds → reg_inv x t next life' rs ls us cl ds.
Proof. by intros Hl []. Qed.
End reg_changes.
(** ** The table's methods *)
(** No wakeup appears, and the queue is as it was. *)
Record calm (t t' : TableState) : Prop := {
  calm_ready : ready (shared t') = ready (shared t);
  calm_woken : ∀ k, woken t' k → woken t k
}.

#[export] Instance calm_refl : Reflexive calm.
Proof. by constructor. Qed.

(** An entry changes its waiters, and its flag may be lowered. *)
Lemma calm_update t t' i g e e' c :
  table_entries (table t) !! i = Some (g, e) →
  table_entries (table t') = <[i := (g, e')]> (table_entries (table t)) →
  entry_shape (g, e') = entry_shape (g, e) → same_frame t t' →
  ready (shared t') = ready (shared t) →
  flags (shared t') = flags (shared t) ∨ flags (shared t') = store c false (flags (shared t)) →
  same_shape t t' ∧ calm t t'.
Proof.
  intros He Hes Hsh Hf Hr Hfl. assert (Hs : same_shape t t') by (by eapply same_shape_update).
  split; [done|]. constructor; [done|]. intros k. apply woken_shape; [done|]. intros c'.
  destruct Hfl as [->| ->]; [done|]. rewrite load_store. by case_decide.
Qed.

Lemma install_waiter_calm r t :
  table_wf t → wp (install_waiter r) (λ _ t', same_shape t t' ∧ calm t t') (λ _ t', t' = t) t.
Proof.
  intros Hwf. unfold install_waiter, put_entry. wp_steps; try done; [|apply validate_no_panic].
  match goal with Hv : validate _ _ _ = Ok ?e |- _ => apply validate_Ok in Hv as (He & _ & _) end.
  apply wp_expect. eexists. split; [exact He|]. wp_steps.
  eapply (calm_update _ _ _ _ _ _ (ready_key (reg_identity r) Read) He); [done| |done|done|by left].
  by destruct (reg_direction r).
Qed.

Lemma take_waiter_calm i kind d t :
  table_wf t → wp (take_waiter i kind d) (λ _ t', same_shape t t' ∧ calm t t') (λ _ t', t' = t) t.
Proof.
  intros Hwf. unfold take_waiter, put_entry, store_flag. wp_steps; [|done|apply validate_no_panic].
  match goal with Hv : validate _ _ _ = Ok ?e |- _ => apply validate_Ok in Hv as (He & _ & _) end.
  apply wp_expect. eexists. split; [exact He|]. wp_steps.
  - apply waiter_count_sub_wp; [simpl; by eapply waiter_count_pos|]. wp_steps.
    eapply (calm_update _ _ _ _ _ _ (entry_ready_flag a d) He); [done|by destruct d|done|done|by right].
  - eapply (calm_update _ _ _ _ _ _ (entry_ready_flag a d) He); [done|by destruct d|done|done|by left].
Qed.

Lemma table_cancel_calm i o r t :
  table_wf t → wp (table_cancel i o r) (λ _ t', same_shape t t' ∧ calm t t') (λ _ t', t' = t) t.
Proof.
  intros Hwf. unfold table_cancel, put_entry, store_flag. wp_steps; try done.
  destruct a as [g e]. assert (table_entries (table t) !! id i = Some (generation i, e) ∧ g = generation i) as [He ->].
  { destruct (table_entries (table t) !! id i) as [[g' e']|]; simplify_eq/=. case_match; [|done].
    simplify_eq. assert (g = generation i) as -> by lia. done. }
  wp_steps; try done. destruct (waiter e (operation_direction o)) as [w|] eqn:Hw; [|done].
  apply waiter_count_sub_wp; [simpl; by eapply waiter_count_pos|]. wp_steps.
  eapply (calm_update _ _ _ _ _ _ (entry_ready_flag e (operation_direction o)) He);
    [done|by destruct (operation_direction o)|done|done|by right].
Qed.

Lemma table_close_calm i t :
  table_wf t →
  wp (table_close i)
    (λ _ t', table_entries (table t') = delete (id i) (table_entries (table t))
      ∧ same_frame t t' ∧ calm t t')
    (λ _ t', t' = t ∧ ∀ e, table_entries (table t) !! id i ≠ Some (generation i, e)) t.
Proof.
  intros Hwf. unfold table_close, put_entry. wp_steps; [|split; [done|congruence]].
  destruct a as [g e]. wp_steps.
  - split; [|intros e' ?; simplify_eq; lia]. destruct t as [[es ? ? ?] ?]. simpl in *. 
    unfold set_field. simpl. by rewrite insert_delete_id.
  - assert (g = generation i) as -> by lia.
    pose proof (entry_held_le t (id i) (generation i) e Hwf ltac:(done)) as Hle.
    pose proof (given_entry_held (id i) (generation i) e) as Hg. set (ws := _ ++ _) in *.
    assert (llen ws = llen (entry_held (id i) (generation i, e))) as Hlen.
    { rewrite <-Hg. unfold llen, given. by rewrite length_fmap. }
    apply waiter_count_sub_wp; [simpl; lia|]. wp_steps. split_and!; [done|done|].
    constructor; [done|]. intros k (e0 & He0 & ? & ?). simpl in *.
    apply lookup_delete_Some in He0 as [_ He0]. by exists e0.
Qed.

Lemma table_insert_calm kind handle t :
  table_wf t →
  wp (table_insert kind handle) (λ _ t', calm t t')
    (λ _ t', table t' = table t ∧ calm t t') t.
Proof.
  intros Hwf. unfold table_insert, fetch_next_socket_id, fetch_next_generation, next_identity, put_entry, store_flag.
  wp_steps; try done; repeat case_match; simplify_eq/=; try done.
  constructor; [done|]. intros k (e0 & He0 & Hl & Hf). simpl in *.
  apply lookup_insert_Some in He0 as [[Hi [= Hg He]]|[Hi He0]].
  - subst e0. exfalso. destruct k as [[] []]; simpl in *; subst; unfold ready_key in *; 
      rewrite !load_store in Hf; repeat case_decide; simplify_eq/=; done.
  - exists e0. split_and!; [done|done|]. rewrite !load_store in Hf. by repeat case_decide.
Qed.
(** ** Steps of a method *)
Section steps.
Context `{Beam, Mailbox, Engine} {E : Type}.
Implicit Types (s : Sys) (x : Held) (R : E → Sys → Prop).

Lemma J_intro x s : inv x s → J s x s.
Proof. by split. Qed.

(** Fields that the invariant does not mention. *)
Lemma kept_calm s t' : calm (get_table s) t' → wakeups_kept s → wakeups_kept (put_table t' s).
Proof.
  intros [Hr Hw] Hk k Hk'. destruct (Hk k) as [Hin|[Ho|Hrest]]; [apply Hw; by destruct t'| | |].
  - left. simpl in *. congruence.
  - right; left. simpl in *. congruence.
  - by do 2 right.
Qed.

Lemma inv_table_step x s ins outs t' :
  inv x s → op_post (get_table s) ins outs t' → same_shape (get_table s) t' →
  calm (get_table s) t' → inv x (put_table t' s).
Proof.
  intros [Hso Hre Hta Hro Hde Hke Hli] (Hwf & _) [Hsh (Hm & Hw & Hn & _)] Hc.
  simpl in *. constructor; simpl; try done.
  - eapply reg_shape; [exact Hsh|rewrite Hn; reflexivity|exact Hre].
  - destruct t'. exact Hwf.
  - rewrite Hm, Hw. exact Hro.
  - intros Hr. apply kept_calm; [done|]. by apply Hke.
  - by rewrite Hn.
Qed.

(** The table's methods that only touch waiters; a failure changes nothing. *)
Lemma wp_table_step {A} x (m : T A) ins outs (Q : A → Sys → Prop) (R : SocketError → Sys → Prop) s :
  inv x s → op_spec m ins outs (get_table s) →
  wp m (λ _ t', same_shape (get_table s) t' ∧ calm (get_table s) t')
    (λ _ t', t' = get_table s) (get_table s) →
  (∀ a t', same_shape (get_table s) t' → op_post (get_table s) (ins a) (outs a) t' →
    inv x (put_table t' s) → Q a (put_table t' s)) →
  (∀ e, R e s) → wp (on_table m) Q R s.
Proof.
  intros Hi Hop Hm HQ HR. apply wp_zoom.
  eapply wp_mono; [exact (wp_conj _ _ _ _ _ _ Hop Hm)| |].
  - intros a t' (Hp & Hsh & Hc). apply HQ; [done|done|]. by eapply inv_table_step.
  - intros e t' [_ ->]. assert (put_table (get_table s) s = s) as -> by (by destruct s as [[] ? ? ?]). apply HR.
Qed.

(** ** Wakers and sockets *)
Lemma J_wake s0 x w s : J s0 x s → waker_ok w → J s0 x (after (wake (E:=E) w) s).
Proof.
  intros [[Hso Hre Hta Hro Hde Hke Hli] []] Hw.
  assert (Hk : lifecycle (stack s) = Running → wakeups_kept (after (wake (E:=E) w) s))
    by (intros Hr; apply wake_kept; auto).
  unfold after, wake in *. simpl in *. destruct (mark_ready w (flags (shd s)) (ready (shd s))) as [f q].
  split; [|by constructor]. constructor; simpl; try done. by destruct Hta.
Qed.

(** Waking only touches the flags and the ready queue. *)
Definition only_woke s s' : Prop :=
  stack s' = stack s ∧ next_socket_id (shd s') = next_socket_id (shd s).

Lemma wp_wake_all s0 x ws (Q : unit → Sys → Prop) R s :
  J s0 x s → Forall waker_ok ws → (∀ s', J s0 x s' → only_woke s s' → Q tt s') → wp (wake_all ws) Q R s.
Proof.
  intros HJ Hws HQ. eapply (wp_mono _ (λ _ s', J s0 x s' ∧ only_woke s s') _ R);
    [|by intros [] s' []; apply HQ|done].
  apply (wp_for_each ws (wake (E:=E)) (λ s', J s0 x s' ∧ only_woke s s')); [done|].
  intros w s' Hw [HJ' [Hst Hnx]]. rewrite list.Forall_forall in Hws.
  split; [by apply (J_wake s0 x w s'); auto|].
  unfold only_woke, wake. simpl. by destruct (mark_ready w (flags (shd s')) (ready (shd s'))).
Qed.

Definition with_sockets (ss : SocketSet) (s : Sys) : Sys := s <| stack ::= λ st, st <| sockets := ss |> |>.

Lemma J_sockets s0 x x' ss s :
  J s0 x s → exempt x' = exempt x →
  (sock_inv x (l_sockets (limits (stack s))) (sockets (stack s)) (tcp_records (stack s))
     (tcp_listeners (stack s)) (udp_records (stack s)) →
   sock_inv x' (l_sockets (limits (stack s))) ss (tcp_records (stack s))
     (tcp_listeners (stack s)) (udp_records (stack s))) →
  J s0 x' (with_sockets ss s).
Proof.
  intros [[Hso Hre Hta Hro Hde Hke Hli] []] Hx Hss.
  split; [|by constructor]. constructor; simpl; try done; [by apply Hss| |].
  - eapply (reg_weaken x); [by rewrite Hx|reflexivity|exact Hre].
  - eapply (queue_weaken x); [by rewrite Hx|reflexivity|done].
Qed.

(** A record's socket that has not been connected must stay closed. *)
Definition closed_ok (x : Held) (s : Sys) (h : SocketHandle) (t' : TcpSocket) : Prop :=
  ∀ i r, tcp_records (stack s) !! i = Some r → i ∉ exempt x → idle (phase r) = true →
    tr_handle r = h → tcp_state t' = StClosed.

Lemma closed_ok_same s0 x s h t t' :
  J s0 x s → get_tcp (sockets (stack s)) h = Some t →
  (tcp_state t = StClosed → tcp_state t' = StClosed) → closed_ok x s h t'.
Proof. intros [[Hso] _] Ht Hc i r Hr Hi Hp <-. apply Hc. by eapply (so_idle _ _ _ _ _ _ Hso). Qed.

Lemma J_put_tcp s0 x s h t t' :
  J s0 x s → get_tcp (sockets (stack s)) h = Some t → socket_wf (STcp t') → closed_ok x s h t' →
  J s0 x (with_sockets (set_put h (Some (STcp t')) (sockets (stack s))) s).
Proof.
  intros HJ Ht Hwf Hc. eapply J_sockets; [done|done|]. apply get_tcp_set_get in Ht.
  eapply sock_put; [done|done|done|]. intros i r t1 Hr Hi Hp Hh [= <-]. by eapply Hc.
Qed.
Lemma J_put_udp s0 x s h u u' :
  J s0 x s → get_udp (sockets (stack s)) h = Some u → socket_wf (SUdp u') →
  J s0 x (with_sockets (set_put h (Some (SUdp u')) (sockets (stack s))) s).
Proof.
  intros HJ Hu Hwf. eapply J_sockets; [done|done|]. apply get_udp_set_get in Hu. by eapply sock_put.
Qed.

Lemma wp_get_tcp h t (Q : TcpSocket → Sys → Prop) R s :
  get_tcp (sockets (stack s)) h = Some t → Q t s → wp (get_tcp_socket h) Q R s.
Proof. intros Ht HQ. unfold get_tcp_socket. st_steps. apply wp_expect. by exists t. Qed.
Lemma wp_get_udp h u (Q : UdpSocket → Sys → Prop) R s :
  get_udp (sockets (stack s)) h = Some u → Q u s → wp (get_udp_socket h) Q R s.
Proof. intros Hu HQ. unfold get_udp_socket. st_steps. apply wp_expect. by exists u. Qed.

Lemma J_tcp_wf s0 x s h t : J s0 x s → get_tcp (sockets (stack s)) h = Some t → socket_wf (STcp t).
Proof. intros [[Hso] _] Ht. by eapply (so_wf _ _ _ _ _ _ Hso), get_tcp_set_get. Qed.
Lemma J_udp_wf s0 x s h u : J s0 x s → get_udp (sockets (stack s)) h = Some u → socket_wf (SUdp u).
Proof. intros [[Hso] _] Ht. by eapply (so_wf _ _ _ _ _ _ Hso), get_udp_set_get. Qed.

Lemma wp_tcp_update s0 x h t f (Q : unit → Sys → Prop) R s :
  J s0 x s → get_tcp (sockets (stack s)) h = Some t → socket_wf (STcp (f t)) →
  closed_ok x s h (f t) →
  (∀ ss, J s0 x (with_sockets ss s) → ss = set_put h (Some (STcp (f t))) (sockets (stack s)) →
    Q tt (with_sockets ss s)) →
  wp (tcp_update h f) Q R s.
Proof.
  intros HJ Ht Hwf Hc HQ. unfold tcp_update. st_steps. eapply wp_get_tcp; [done|].
  apply HQ; [|done]. by eapply J_put_tcp.
Qed.

(** A method of a socket that may wake: it empties the wakers it calls. *)
Lemma wp_tcp_call s0 x h t f (Q : unit → Sys → Prop) R s :
  J s0 x s → get_tcp (sockets (stack s)) h = Some t →
  Forall waker_ok (f t).1 → socket_wf (STcp (f t).2) → closed_ok x s h (f t).2 →
  (∀ s' ss, J s0 x s' → ss = set_put h (Some (STcp (f t).2)) (sockets (stack s)) →
    only_woke (with_sockets ss s) s' → Q tt s') →
  wp (tcp_call h f) Q R s.
Proof.
  intros HJ Ht Hw Hwf Hc HQ. unfold tcp_call. st_steps. eapply wp_get_tcp; [done|].
  destruct (f t) as [ws t'] eqn:Hf. simpl in *. st_steps.
  eapply (wp_wake_all s0 x); [by eapply (J_put_tcp s0 x s h t t')|done|].
  intros s' HJ' Hst. by eapply HQ.
Qed.

(** ** Sockets added and removed *)
Definition hold_tcp (h : SocketHandle) (x : Held) : Held :=
  x <| held_tcp ::= λ l, h :: l |> <| free_slots ::= N.pred |>.
Definition hold_udp (h : SocketHandle) (x : Held) : Held :=
  x <| held_udp ::= λ l, h :: l |> <| free_slots ::= N.pred |>.

Lemma wp_add_tcp s0 x t (Q : SocketHandle → Sys → Prop) R s :
  J s0 x s → socket_wf (STcp t) → (0 < free_slots x)%N →
  (∀ h ss, J s0 (hold_tcp h x) (with_sockets ss s) → set_get (sockets (stack s)) h = None →
    (∀ h', set_get ss h' = if decide (h' = h) then Some (STcp t) else set_get (sockets (stack s)) h') →
    Q h (with_sockets ss s)) →
  wp (add_socket (STcp t)) Q R s.
Proof.
  intros HJ Hwf Hf HQ. unfold add_socket. st_steps. destruct (set_add _ _) as [h ss] eqn:Ha. st_steps.
  destruct (set_add_spec _ _ _ _ Ha) as (Hn & Hg & _).
  apply (HQ h ss); [|done|done]. eapply J_sockets; [exact HJ|done|].
  intros Hs. exact (sock_add x _ _ _ _ _ (STcp t) h ss Ha Hwf Hf Hs).
Qed.
Lemma wp_add_udp s0 x u (Q : SocketHandle → Sys → Prop) R s :
  J s0 x s → socket_wf (SUdp u) → (0 < free_slots x)%N →
  (∀ h ss, J s0 (hold_udp h x) (with_sockets ss s) → Q h (with_sockets ss s)) →
  wp (add_socket (SUdp u)) Q R s.
Proof.
  intros HJ Hwf Hf HQ. unfold add_socket. st_steps. destruct (set_add _ _) as [h ss] eqn:Ha. st_steps.
  apply (HQ h ss). eapply J_sockets; [exact HJ|done|].
  intros Hs. exact (sock_add x _ _ _ _ _ (SUdp u) h ss Ha Hwf Hf Hs).
Qed.

Lemma wp_remove_tcp s0 x h hs (Q : unit → Sys → Prop) R s :
  J s0 x s → held_tcp x ≡ₚ h :: hs →
  (∀ ss, J s0 (x <| held_tcp := hs |> <| free_slots ::= N.succ |>) (with_sockets ss s) →
    Q tt (with_sockets ss s)) →
  wp (remove_socket h) Q R s.
Proof.
  intros HJ Hh HQ.
  destruct (sock_held_handle _ _ _ _ _ _ h (inv_sock _ _ (proj1 HJ))) as (t & _ & Ht).
  { rewrite Hh. by left. }
  unfold remove_socket. st_steps. apply wp_expect. exists (STcp t). split; [done|]. st_steps.
  apply (HQ (set_put h None (sockets (stack s)))). eapply J_sockets; [exact HJ|done|].
  apply sock_remove with (s := STcp t); simpl; try done. lia.
Qed.
Lemma wp_remove_udp s0 x h hs (Q : unit → Sys → Prop) R s :
  J s0 x s → held_udp x ≡ₚ h :: hs →
  (∀ ss, J s0 (x <| held_udp := hs |> <| free_slots ::= N.succ |>) (with_sockets ss s) →
    Q tt (with_sockets ss s)) →
  wp (remove_socket h) Q R s.
Proof.
  intros HJ Hh HQ.
  destruct (owns_get_udp (udp_handles (udp_records (stack s)) ++ held_udp x) (sockets (stack s)) h)
    as (u & _ & Hu).
  { apply (inv_sock _ _ (proj1 HJ)). }
  { rewrite Hh, elem_of_app. right. by left. }
  unfold remove_socket. st_steps. apply wp_expect. exists (SUdp u). split; [done|]. st_steps.
  apply (HQ (set_put h None (sockets (stack s)))). eapply J_sockets; [exact HJ|done|].
  apply sock_remove with (s := SUdp u); simpl; try done. lia.
Qed.
End steps.

(** ** The checks for room, and new sockets of the table *)
Section room.
Context `{Beam, Mailbox, Engine}.
Implicit Types (s : Sys) (x : Held).

Lemma J_weaken s0 x x' s :
  held_tcp x' ≡ₚ held_tcp x → held_udp x' ≡ₚ held_udp x → (free_slots x' <= free_slots x)%N →
  (free_bytes x' <= free_bytes x)%N → exempt x ⊆ exempt x' → J s0 x s → J s0 x' s.
Proof.
  intros Ht Hu Hs Hb He [[Hso Hre Hta Hro Hde Hke Hli] []]. split; [|by constructor].
  constructor; try done; [by eapply sock_weaken| |].
  - eapply (reg_weaken x); [done|reflexivity|done].
  - eapply (queue_weaken x); [done|reflexivity|done].
Qed.

Lemma wp_ensure_native s0 x n (Q : unit → Sys → Prop) (R : SocketError → Sys → Prop) s :
  J s0 x s → (J s0 (x <| free_slots := n |>) s → Q tt s) → R SystemLimit s →
  wp (ensure_native_socket_capacity n 0) Q R s.
Proof.
  intros [[Hso Hre Hta Hro Hde Hke Hli] []] HQ HR. unfold ensure_native_socket_capacity.
  st_steps; try done. apply HQ. split; [|by constructor]. constructor; try done.
  - destruct Hso. constructor; try done. simpl.
    unfold mbind, option_bind, checked_sub, checked_add in *. repeat case_match; simplify_eq/=; lia.
  - eapply (reg_weaken x); [done|reflexivity|done].
Qed.

Lemma wp_ensure_bytes s0 x n (Q : unit → Sys → Prop) (R : SocketError → Sys → Prop) s :
  J s0 x s → (J s0 (x <| free_bytes := n |>) s → Q tt s) → R SystemLimit s →
  wp (ensure_socket_buffer_capacity n) Q R s.
Proof.
  intros [[Hso Hre Hta Hro Hde Hke Hli] []] HQ HR. unfold ensure_socket_buffer_capacity.
  st_steps; try done. apply HQ. split; [|by constructor]. constructor; try done.
  - destruct Hso. constructor; try done. simpl.
    match goal with Hc : checked_add _ _ = Some ?n |- _ => unfold checked_add in Hc;
      change (socket_buffer_bytes (stack s))
        with (buffer_bytes (tcp_records (stack s)) (tcp_listeners (stack s)) (udp_records (stack s))) in Hc end.
    repeat case_match; simplify_eq/=. lia.
  - eapply (reg_weaken x); [done|reflexivity|done].
Qed.

Lemma wp_ensure_logical (Q : unit → Sys → Prop) (R : SocketError → Sys → Prop) s :
  Q tt s → R SystemLimit s → wp ensure_logical_socket_capacity Q R s.
Proof. intros HQ HR. unfold ensure_logical_socket_capacity. by st_steps. Qed.

(** What a step leaves alone of the socket [i], and of the rest. *)
Record beside (i : u64) s s' : Prop := {
  be_table : table_entries (socket_table (stack s')) !! i = table_entries (socket_table (stack s)) !! i;
  be_next : (next_socket_id (shd s) <= next_socket_id (shd s'))%N;
  be_records : tcp_records (stack s') !! i = tcp_records (stack s) !! i;
  be_listeners : tcp_listeners (stack s') = tcp_listeners (stack s);
  be_udp : udp_records (stack s') = udp_records (stack s);
  be_closing : closing_tcp (stack s') = closing_tcp (stack s);
  be_lifecycle : lifecycle (stack s') = lifecycle (stack s)
}.
Lemma beside_trans i s1 s2 s3 : beside i s1 s2 → beside i s2 s3 → beside i s1 s3.
Proof. intros [] []. constructor; congruence || lia. Qed.

(** A socket that is new in the table: nothing else uses its number. *)
Record inserted (i : SocketIdentity) (kind : SocketKind) s : Prop := {
  in_record : tcp_records (stack s) !! id i = None;
  in_listener : tcp_listeners (stack s) !! id i = None;
  in_udp : udp_records (stack s) !! id i = None;
  in_closing : id i ∉ closing_tcp (stack s);
  in_next : (id i < next_socket_id (shd s))%N;
  in_registered : registered (socket_table (stack s)) i kind;
  in_queue : ∀ j l c, tcp_listeners (stack s) !! j = Some l → c ∈ accepted_queue l → id c ≠ id i;
  in_unique : ∀ g k, registered (socket_table (stack s)) {| id := id i; generation := g |} k →
    g = generation i ∧ k = kind
}.

(** An insertion that fails has used up identifiers and nothing else. *)
Lemma J_insert_failed s0 x t' s :
  J s0 x s → table_wf t' → table t' = socket_table (stack s) →
  (next_socket_id (shd s) <= next_socket_id (shared t'))%N →
  calm (get_table s) t' → J s0 x (put_table t' s).
Proof.
  intros [[Hso Hre Hta Hro Hde Hke Hli Hqu] []] Hwf Ht Hn Hc.
  split; [|by constructor; simpl; rewrite ?Ht; try done; lia]. constructor; simpl; try done.
  - rewrite Ht. eapply (reg_weaken x); [done|exact Hn|done].
  - by destruct t'.
  - by rewrite Ht.
  - intros Hr. apply kept_calm; [done|]. by apply Hke.
  - eapply (queue_weaken x); [done|exact Hn|exact Hqu].
Qed.

Lemma wp_table_insert s0 x kind handle (Q : SocketIdentity → Sys → Prop) (R : SocketError → Sys → Prop) s :
  J s0 x s →
  (∀ i t', J s0 (x <| exempt ::= λ X, {[id i]} ∪ X |>) (put_table t' s) →
    inserted i kind (put_table t' s) → id i = next_socket_id (shd s) →
    (∀ j, j ≠ id i → beside j s (put_table t' s)) → Q i (put_table t' s)) →
  (∀ t', J s0 x (put_table t' s) → (∀ j, beside j s (put_table t' s)) → R SystemLimit (put_table t' s)) →
  wp (on_table (table_insert kind handle)) Q R s.
Proof.
  intros HJ HQ HR. pose proof HJ as [[Hso Hre Hta Hro Hde Hke Hli Hqu] []]. apply wp_zoom.
  eapply wp_mono;
    [exact (wp_conj _ _ _ _ _ _ (table_insert_spec kind handle _ Hta)
      (wp_conj _ _ _ _ _ _ (table_insert_ok kind handle _) (table_insert_calm kind handle _ Hta)))| |].
  - intros i t' ((Hwf & (Hn & Hm & Hw & _) & Hp) & (Hi & Hb & Hes) & Hc). simpl in Hes, Hn, Hm, Hw.
    rewrite !app_nil_r in Hp.
    assert (Hid : id i = next_socket_id (shd s)) by (by rewrite Hi).
    assert (Hfresh : ¬ (is_Some (tcp_records (stack s) !! id i) ∨ is_Some (tcp_listeners (stack s) !! id i)
      ∨ is_Some (udp_records (stack s) !! id i) ∨ id i ∈ closing_tcp (stack s))).
    { intros Hx. pose proof (re_ids _ _ _ _ _ _ _ _ _ Hre _ Hx). lia. }
    assert (Hnew : table_entries (table t') !! id i = Some (generation i, entry_new kind handle i))
      by (by rewrite Hes, lookup_insert_eq).
    assert (Hlt : (id i < next_socket_id (shared t'))%N) by (by destruct (wf_entry _ Hwf _ _ _ Hnew) as [[? _] _]).
    assert (Hoth : ∀ j, j ≠ id i → table_entries (table t') !! j = table_entries (socket_table (stack s)) !! j)
      by (intros j Hj; by rewrite Hes, lookup_insert_ne).
    apply HQ; [| |done|intros j Hj; by constructor; auto].
    + split; cycle 1.
      { constructor; simpl; try done; [by rewrite <-Hp|lia|]. intros j Hj. rewrite Hoth by lia. by apply dr_absent0. }
      constructor; simpl; try done.
      * eapply sock_weaken; [..|exact Hso]; simpl; try done. set_solver.
      * eapply (reg_change _ (id i)); [| | | | | | | |eapply (reg_weaken x); [|reflexivity|exact Hre]];
          simpl; try done; try (clear; set_solver).
        -- intros j Hj. by rewrite Hoth.
        -- intros g e. rewrite Hnew. by intros [= <- <-].
        -- intros Hx. exfalso; apply Hfresh; auto.
        -- intros Hx. exfalso; apply Hfresh; auto.
        -- intros r d Hr. exfalso; apply Hfresh; left; by eexists.
      * by destruct t'.
      * by rewrite Hm, Hw.
      * intros Hr. apply kept_calm; [done|]. by apply Hke.
      * eapply (queue_weaken x); [simpl; clear; set_solver|exact Hn|exact Hqu].
    + constructor; try (apply eq_None_not_Some); try tauto; try done; [by eexists| |].
      { intros j l c Hl Hcq. destruct (Hqu j l c Hl Hcq) as [Hlt' _]. rewrite Hid. lia. }
      intros g k (e & He & <-). simpl in He. rewrite Hnew in He. by simplify_eq.
  - intros e t' ((Hwf & (Hn & _) & _) & -> & (Ht & Hc)). simpl in Hn.
    apply HR; [by apply J_insert_failed|]. intros j. constructor; simpl; by rewrite ?Ht.
Qed.
End room.

(** ** What the methods of a socket keep *)
Section methods_wf.
Context `{SmolTypes}.
Implicit Types (t : TcpSocket) (u : UdpSocket).

(** The outcome of a method that may wake. *)
Definition woke_ok (r : list Waker * TcpSocket) : Prop :=
  Forall waker_ok r.1 ∧ socket_wf (STcp r.2).

Lemma wake_both_ok t : socket_wf (STcp t) → woke_ok (wake_both t).
Proof. intros [Hw Ht]. by split. Qed.
Lemma set_state_ok st t : socket_wf (STcp t) → woke_ok (set_state st t).
Proof. intros Ht. by apply wake_both_ok. Qed.
Lemma tcp_reset_ok t : socket_wf (STcp t) → woke_ok (tcp_reset t).
Proof. intros [Hw Ht]. apply wake_both_ok. split; [done|]. simpl. unfold llen. simpl. lia. Qed.
Lemma tcp_abort_ok t : socket_wf (STcp t) → woke_ok (tcp_abort t).
Proof. apply set_state_ok. Qed.
Lemma restart_timeout_ok t : socket_wf (STcp t) → socket_wf (STcp (restart_timeout_if_idle t)).
Proof. unfold restart_timeout_if_idle. intros Ht. by destruct (tx_buffer t). Qed.
Lemma tcp_socket_close_ok t : socket_wf (STcp t) → woke_ok (tcp_socket_close t).
Proof.
  intros Ht. unfold tcp_socket_close.
  destruct (tcp_state t); try (by apply set_state_ok); try (by apply set_state_ok, restart_timeout_ok); done.
Qed.
Lemma tcp_socket_close_closed t : tcp_state t = StClosed → tcp_state (tcp_socket_close t).2 = StClosed.
Proof. intros Ht. unfold tcp_socket_close. by rewrite Ht. Qed.

Lemma tcp_listen_on_ok e t :
  socket_wf (STcp t) → woke_ok ((tcp_listen_on e t).1.2, (tcp_listen_on e t).2).
Proof.
  intros Ht. unfold tcp_listen_on. destruct (_ =? 0)%N; [done|].
  destruct (is_open t); [by destruct (_ && _)|].
  destruct (tcp_reset_ok t Ht) as [H1 H2]. destruct (tcp_reset t) as [w1 t1]. simpl in *.
  destruct (set_state_ok StListen (t1 <| tcp_listen_endpoint := e |> <| tuple := None |>)) as [H3 H4]; [done|].
  split; [by apply Forall_app|done].
Qed.
(** A closed socket listens on any endpoint with a port. *)
Lemma tcp_listen_on_closed e t :
  listen_port e ≠ 0%N → tcp_state t = StClosed → (tcp_listen_on e t).1.1 = Ok tt.
Proof.
  intros He Ht. unfold tcp_listen_on, is_open. rewrite Ht.
  by destruct (N.eqb_spec (listen_port e) 0).
Qed.

Lemma tcp_connect_to_ok src rand r e t :
  socket_wf (STcp t) → woke_ok ((tcp_connect_to src rand r e t).1.2, (tcp_connect_to src rand r e t).2).
Proof.
  intros Ht. unfold tcp_connect_to. destruct (is_open t); [done|].
  destruct (_ || _); [done|]. destruct (_ =? 0)%N; [done|].
  destruct (connect_local src e) as [l|err|]; [|done|done]. destruct (negb _); [done|].
  destruct (tcp_reset_ok t Ht) as [H1 H2]. destruct (tcp_reset t) as [w1 t1]. simpl in *.
  destruct (set_state_ok StSynSent (t1 <| tuple := Some (l, r) |>)) as [H3 H4]; [done|].
  split; [by apply Forall_app|done].
Qed.
(** A connect that succeeds chooses a local endpoint with the port it was
    given; one that fails leaves the socket as it was. *)
Lemma tcp_connect_to_outcome src rand r e t :
  (is_unspecified (addr r) = false → is_Some src) →
  match (tcp_connect_to src rand r e t).1.1 with
  | Ok _ => ∃ l, local_endpoint (tcp_connect_to src rand r e t).2 = Some l ∧ port l = listen_port e
      ∧ port l ≠ 0%N
  | Err _ => (tcp_connect_to src rand r e t).2 = t
  | Panic => False
  end.
Proof.
  intros Hsrc. unfold tcp_connect_to. destruct (is_open t); [done|].
  destruct (_ || _) eqn:Hun; [done|]. destruct (N.eqb_spec (listen_port e) 0); [done|].
  apply orb_false_iff in Hun as [_ Hun]. destruct (Hsrc Hun) as [o ->].
  destruct (connect_local (Some o) e) as [l|err|] eqn:Hl; [|done|].
  - destruct (negb _); [done|]. destruct (tcp_reset t) as [w1 t1]. simpl.
    exists l. split_and!; [done| |].
    all: unfold connect_local in Hl; repeat case_match; by simplify_eq/=.
  - unfold connect_local in Hl. repeat case_match; by simplify_eq/=.
Qed.

Lemma tcp_socket_new_ok {E} r n t : tcp_socket_new (E:=E) r n = Ok t → socket_wf (STcp t) ∧ tcp_state t = StClosed.
Proof.
  unfold tcp_socket_new. case_match; [done|]. intros [= <-]. split; [|done].
  split; [by constructor|]. simpl. unfold llen. simpl. lia.
Qed.
Lemma send_slice_ok data t : socket_wf (STcp t) → socket_wf (STcp (send_slice data t).2).
Proof.
  intros [Hw Ht]. unfold send_slice. destruct (negb _); [done|]. split; [done|]. simpl in *.
  unfold llen in *. rewrite length_app, length_take. lia.
Qed.
Lemma recv_slice_ok n t : socket_wf (STcp t) → socket_wf (STcp (recv_slice n t).2).
Proof. intros [Hw Ht]. unfold recv_slice. by destruct (recv_error_check t). Qed.

Lemma udp_bind_to_ok e u :
  socket_wf (SUdp u) →
  Forall waker_ok (udp_bind_to e u).1.2 ∧ socket_wf (SUdp (udp_bind_to e u).2).
Proof.
  intros [Hw _]. unfold udp_bind_to. destruct (_ =? 0)%N; [by split|].
  destruct (udp_is_open u); [by split|]. by split.
Qed.
Lemma udp_recv_ok u : socket_wf (SUdp u) → socket_wf (SUdp (udp_recv u).2).
Proof. unfold udp_recv. by destruct (udp_rx u). Qed.
End methods_wf.

(** A change of fields that the invariant does not mention. *)
Ltac j_same := match goal with HJ : J _ _ _ |- _ => destruct HJ as [[] []]; split; constructor; assumption end.

(** ** Changing a record of the stack *)
Section bookkeeping.
Context `{Beam, Mailbox, Engine}.
Implicit Types (s : Sys) (x : Held).

(** What steps on sockets, wakers and counters leave alone. *)
Record books (s s' : Sys) : Prop := {
  bk_table : socket_table (stack s') = socket_table (stack s);
  bk_next : next_socket_id (shd s') = next_socket_id (shd s);
  bk_records : tcp_records (stack s') = tcp_records (stack s);
  bk_listeners : tcp_listeners (stack s') = tcp_listeners (stack s);
  bk_udp : udp_records (stack s') = udp_records (stack s);
  bk_closing : closing_tcp (stack s') = closing_tcp (stack s);
  bk_deadlines : closing_deadlines (stack s') = closing_deadlines (stack s);
  bk_lifecycle : lifecycle (stack s') = lifecycle (stack s);
  bk_limits : limits (stack s') = limits (stack s);
  bk_timers : tcp_timers (stack s') = tcp_timers (stack s)
}.
#[export] Instance books_refl : Reflexive books.
Proof. by constructor. Qed.
#[export] Instance books_trans : Transitive books.
Proof. intros s1 s2 s3 [] []. constructor; congruence. Qed.
Lemma beside_books i s s' : books s s' → beside i s s'.
Proof. intros []. constructor; congruence || lia. Qed.
Lemma inserted_books i k s s' : books s s' → inserted i k s → inserted i k s'.
Proof. intros [Ht Hn Hr Hl Hu Hc _ _ _ _] []. constructor; by rewrite ?Ht, ?Hn, ?Hr, ?Hl, ?Hu, ?Hc. Qed.
Lemma books_sockets ss s : books s (with_sockets ss s).
Proof. by constructor. Qed.
Lemma books_woke s s' : only_woke s s' → books s s'.
Proof. intros [Hs Hn]. by constructor; rewrite ?Hs. Qed.
Lemma books_counters f s : books s (s <| stack ::= λ st, st <| counters ::= f |> |>).
Proof. by constructor. Qed.

(** The flag of a valid socket is the one its waker is named after. *)
Lemma ready_flag_key t i k d f : table_wf t → ready_flag (table t) i k d = Ok f → f = ready_key i d.
Proof.
  unfold ready_flag. intros Hwf. destruct (validate (table t) i k) as [e|e|] eqn:Hv; simpl; [|done|done].
  intros [= <-]. apply validate_Ok in Hv as (He & _ & _).
  rewrite (wf_entry_ready_flag _ _ _ _ d Hwf He). by destruct i.
Qed.
Lemma ready_flag_no_panic t i k d : ready_flag t i k d ≠ Panic.
Proof.
  unfold ready_flag. pose proof (validate_no_panic t i k).
  by destruct (validate t i k); simpl.
Qed.

(** No record that has not been connected has a held socket or a member of a
    listener's pool. *)
Lemma tcp_handles_unique rs ls hs ss i r h :
  owns Tcp (tcp_handles rs ls ++ hs) ss → rs !! i = Some r →
  h ∈ bmap_flat (λ _ l, bset_elems (pool l)) ls ++ hs → tr_handle r ≠ h.
Proof.
  intros [Hnd _] Hr Hh <-. unfold tcp_handles in Hnd. rewrite <-app_assoc in Hnd.
  rewrite (bmap_flat_delete _ _ _ _ Hr) in Hnd. simpl in Hnd.
  apply list.NoDup_cons in Hnd as [Hn _]. apply Hn. rewrite elem_of_app. by right.
Qed.
Lemma closed_ok_held s0 x s h t : J s0 x s → h ∈ held_tcp x → closed_ok x s h t.
Proof.
  intros [[Hso] _] Hh i r Hr _ _ He. exfalso. revert He.
  eapply tcp_handles_unique; [apply Hso|done|]. rewrite elem_of_app. by right.
Qed.
Lemma closed_ok_pool s0 x s h t i l :
  J s0 x s → tcp_listeners (stack s) !! i = Some l → h ∈ pool l → closed_ok x s h t.
Proof.
  intros [[Hso] _] Hl Hh j r Hr _ _ He. exfalso. revert He.
  eapply tcp_handles_unique; [apply Hso|done|]. rewrite elem_of_app. left.
  apply elem_of_bmap_flat. exists i, l. split; [done|]. by apply elem_of_bset_elems.
Qed.

(** Counters, cursors and budgets. *)
Lemma J_counters s0 x s f : J s0 x s → J s0 x (s <| stack ::= λ st, st <| counters ::= f |> |>).
Proof. intros. j_same. Qed.
Lemma J_budget s0 x s b : J s0 x s → J s0 x (put_budget b s).
Proof. intros. j_same. Qed.
Lemma J_connections s0 x s f : J s0 x s → J s0 x (s <| stack ::= λ st, st <| tcp_connections ::= f |> |>).
Proof. intros. j_same. Qed.

Lemma J_request_listener_scan {E} s0 x s :
  J s0 x s → J s0 x (after (request_listener_scan (E:=E)) s).
Proof.
  intros HJ. unfold after, request_listener_scan. simpl.
  destruct (bool_decide _); [by destruct s|]. destruct (listener_scan_pending _); j_same.
Qed.
Lemma J_request_closing_cleanup {E} s0 x s :
  J s0 x s → J s0 x (after (request_closing_cleanup (E:=E)) s).
Proof.
  intros HJ. unfold after, request_closing_cleanup. simpl.
  destruct (bool_decide _); [by destruct s|]. destruct (closing_cleanup_pending _); j_same.
Qed.
End bookkeeping.

Section record_steps.
Context `{Beam, Mailbox, Engine}.
Implicit Types (s : Sys) (x : Held).

Definition with_records (rs : gmap u64 TcpRecord) (s : Sys) : Sys :=
  s <| stack ::= λ st, st <| tcp_records := rs |> |>.
Definition with_listeners (ls : gmap u64 ListenerRecord) (s : Sys) : Sys :=
  s <| stack ::= λ st, st <| tcp_listeners := ls |> |>.
Definition with_udp (us : gmap u64 UdpRecord) (s : Sys) : Sys :=
  s <| stack ::= λ st, st <| udp_records := us |> |>.

Lemma inv_weaken x x' s :
  held_tcp x' ≡ₚ held_tcp x → held_udp x' ≡ₚ held_udp x → (free_slots x' <= free_slots x)%N →
  (free_bytes x' <= free_bytes x)%N → exempt x ⊆ exempt x' → inv x s → inv x' s.
Proof. intros ????? Hi. by apply (J_weaken s x x' s), J_intro. Qed.

(** Nothing is held any more. *)
Lemma inv_done x s :
  held_tcp x = [] → held_udp x = [] → exempt x = ∅ → inv x s → stack_wf s.
Proof.
  intros Ht Hu He. apply inv_weaken; simpl; try lia; [by rewrite Ht|by rewrite Hu|by rewrite He].
Qed.

(** Exempting a socket, and putting it back under the invariant. *)
Lemma inv_exempt i x s : inv x s → inv (x <| exempt ::= λ X, {[i]} ∪ X |>) s.
Proof. apply inv_weaken; simpl; try done. set_solver. Qed.

Lemma inv_unexempt i x x' s :
  held_tcp x' ≡ₚ held_tcp x → held_udp x' ≡ₚ held_udp x → (free_slots x' <= free_slots x)%N →
  (free_bytes x' <= free_bytes x)%N → exempt x ⊆ {[i]} ∪ exempt x' →
  (∀ r t, tcp_records (stack s) !! i = Some r → idle (phase r) = true →
    get_tcp (sockets (stack s)) (tr_handle r) = Some t → tcp_state t = StClosed) →
  (∀ g k, registered (socket_table (stack s)) {| id := i; generation := g |} k →
    recorded (tcp_records (stack s)) (tcp_listeners (stack s)) (udp_records (stack s))
      (closing_tcp (stack s)) {| id := i; generation := g |} k) →
  (lifecycle (stack s) = Running → ∀ g k,
    recorded (tcp_records (stack s)) (tcp_listeners (stack s)) (udp_records (stack s))
      (closing_tcp (stack s)) {| id := i; generation := g |} k →
    registered (socket_table (stack s)) {| id := i; generation := g |} k) →
  (∀ j l c, tcp_listeners (stack s) !! j = Some l → c ∈ accepted_queue l → j = i ∨ id c = i →
    j ∉ exempt x' → id c ∉ exempt x' →
    tcp_listeners (stack s) !! id c = None ∧ udp_records (stack s) !! id c = None
    ∧ ∀ r, tcp_records (stack s) !! id c = Some r → idle (phase r) = false) →
  inv x s → inv x' s.
Proof.
  intros Ht Hu Hs Hb He Hidle Hin Hout Hq [Hso Hre Hta Hro Hde Hke Hli Hqu]. constructor; try done.
  - destruct Hso. constructor; try done; [by rewrite Ht|by rewrite Hu|lia|lia|].
    intros j r t Hr Hj. destruct (decide (j = i)) as [->|]; [by apply Hidle|].
    apply (so_idle0 j r t Hr). set_solver.
  - by eapply (reg_unexempt x x' i).
  - intros j l c Hl Hc. destruct (Hqu j l c Hl Hc) as [Hlt Hx]. split; [done|]. intros Hj Hid.
    destruct (decide (j = i)) as [->|]; [by eapply Hq; eauto|].
    destruct (decide (id c = i)) as [Hci|]; [by eapply Hq; eauto|]. apply Hx; set_solver.
Qed.

Lemma inv_record_insert i r hs x s :
  inv x s → i ∈ exempt x → tcp_records (stack s) !! i = None →
  tcp_listeners (stack s) !! i = None → (i < next_socket_id (shd s))%N →
  held_tcp x ≡ₚ tr_handle r :: hs → record_wf i r → (record_bytes r <= free_bytes x)%N →
  close_deadline r = None →
  inv (x <| held_tcp := hs |> <| free_bytes ::= λ n, (n - record_bytes r)%N |>)
    (with_records (<[i := r]> (tcp_records (stack s))) s).
Proof.
  intros [Hso Hre Hta Hro Hde Hke Hli Hqu] Hi Hr Hl Hn Hh Hwf Hb Hd. constructor; simpl; try done.
  - by apply sock_record_insert.
  - eapply (reg_change _ i); [| | | | | | | |eapply (reg_weaken x); [|reflexivity|exact Hre]];
      simpl; try done.
    + intros j Hj. by rewrite lookup_insert_ne.
    + apply Hre.
    + rewrite Hl. by intros [].
    + apply Hre.
    + rewrite lookup_insert_eq. intros r0 d [= <-]. congruence.
  - eapply (queue_change _ i); [done|reflexivity| | |exact Hqu]; [|intros l c Hl'; congruence].
    intros j Hj. by rewrite lookup_insert_ne.
Qed.
Lemma inv_record_delete i r x s :
  inv x s → i ∈ exempt x → tcp_records (stack s) !! i = Some r →
  inv (x <| held_tcp ::= λ l, tr_handle r :: l |> <| free_bytes ::= λ n, (n + record_bytes r)%N |>)
    (with_records (delete i (tcp_records (stack s))) s).
Proof.
  intros [Hso Hre Hta Hro Hde Hke Hli Hqu] Hi Hr. constructor; simpl; try done.
  - by apply sock_record_delete.
  - eapply (reg_change _ i); [| | | | | | | |eapply (reg_weaken x); [|reflexivity|exact Hre]];
      simpl; try done.
    + intros j Hj. by rewrite lookup_delete_ne.
    + rewrite lookup_delete_eq. intros Hx. apply (re_ids _ _ _ _ _ _ _ _ _ Hre). destruct Hx as [[]|]; [done|tauto].
    + apply Hre.
    + by rewrite lookup_delete_eq.
    + apply Hre.
    + by rewrite lookup_delete_eq.
  - eapply (queue_change _ i); [done|reflexivity| | |exact Hqu].
    + intros j Hj. by rewrite lookup_delete_ne.
    + intros l c Hl Hc. by apply (Hqu i l c Hl Hc).
Qed.

Lemma inv_listener_insert i l hs x s :
  inv x s → i ∈ exempt x → tcp_records (stack s) !! i = None →
  tcp_listeners (stack s) !! i = None → (i < next_socket_id (shd s))%N →
  held_tcp x ≡ₚ bset_elems (pool l) ++ hs → listener_wf i l → (listener_bytes l <= free_bytes x)%N →
  (∀ c, c ∈ accepted_queue l → (id c < next_socket_id (shd s))%N) →
  inv (x <| held_tcp := hs |> <| free_bytes ::= λ n, (n - listener_bytes l)%N |>)
    (with_listeners (<[i := l]> (tcp_listeners (stack s))) s).
Proof.
  intros [Hso Hre Hta Hro Hde Hke Hli Hqu] Hi Hr Hl Hn Hh Hwf Hb Hids. constructor; simpl; try done.
  - by apply sock_listener_insert.
  - eapply (reg_change _ i); [| | | | | | | |eapply (reg_weaken x); [|reflexivity|exact Hre]];
      simpl; try done.
    + intros j Hj. by rewrite lookup_insert_ne.
    + apply Hre.
    + apply Hre.
    + congruence.
  - eapply (queue_change _ i); [done|reflexivity| | |exact Hqu].
    + intros j Hj. by rewrite lookup_insert_ne.
    + rewrite lookup_insert_eq. intros l0 c [= <-]. apply Hids.
Qed.
Lemma inv_listener_delete i l x s :
  inv x s → i ∈ exempt x → tcp_listeners (stack s) !! i = Some l →
  inv (x <| held_tcp ::= λ hs, bset_elems (pool l) ++ hs |>
         <| free_bytes ::= λ n, (n + listener_bytes l)%N |>)
    (with_listeners (delete i (tcp_listeners (stack s))) s).
Proof.
  intros [Hso Hre Hta Hro Hde Hke Hli Hqu] Hi Hl. constructor; simpl; try done.
  - by apply sock_listener_delete.
  - eapply (reg_change _ i); [| | | | | | | |eapply (reg_weaken x); [|reflexivity|exact Hre]];
      simpl; try done.
    + intros j Hj. by rewrite lookup_delete_ne.
    + intros _. apply (re_ids _ _ _ _ _ _ _ _ _ Hre). right; left. by eexists.
    + apply Hre.
    + rewrite lookup_delete_eq. by intros [].
    + apply Hre.
    + rewrite (re_disjoint _ _ _ _ _ _ _ _ _ Hre i) by (by eexists). done.
  - eapply (queue_change _ i); [done|reflexivity| | |exact Hqu].
    + intros j Hj. by rewrite lookup_delete_ne.
    + intros l0 c. by rewrite lookup_delete_eq.
Qed.
Lemma inv_listener_update i l l' x s :
  inv x s → tcp_listeners (stack s) !! i = Some l → lr_identity l' = lr_identity l →
  pool l' = pool l → listener_bytes l' = listener_bytes l → listener_wf i l' →
  (∀ c, c ∈ accepted_queue l' → c ∈ accepted_queue l) →
  inv x (with_listeners (<[i := l']> (tcp_listeners (stack s))) s).
Proof.
  intros [Hso Hre Hta Hro Hde Hke Hli Hqu] Hl Hid Hp Hb Hwf Hsub. constructor; simpl; try done.
  - by eapply sock_listener_update.
  - by eapply reg_listener_update.
  - intros j l0 c. rewrite lookup_insert_Some. intros Hj Hc.
    destruct (Hqu j (if decide (j = i) then l else l0) c) as [Hlt Hx].
    { case_decide; [by subst|]. by destruct Hj as [[]|[]]. }
    { case_decide; destruct Hj as [[? <-]|[]]; subst; auto; done. }
    split; [done|]. intros Hj' Hid'. destruct (Hx Hj' Hid') as (Hn & Hrest). split; [|done].
    rewrite lookup_insert_ne; [done|]. intros ->. congruence.
Qed.

Lemma inv_record_update i r r' x s :
  inv x s → tcp_records (stack s) !! i = Some r → tr_identity r' = tr_identity r →
  tr_handle r' = tr_handle r → record_bytes r' = record_bytes r → record_wf i r' →
  (∀ d, close_deadline r' = Some d →
    i ∈ closing_tcp (stack s) ∧ (d, i) ∈ closing_deadlines (stack s)) →
  (∀ t, i ∉ exempt x → idle (phase r') = true → get_tcp (sockets (stack s)) (tr_handle r) = Some t →
    tcp_state t = StClosed) →
  (idle (phase r') = true → idle (phase r) = true) →
  inv x (with_records (<[i := r']> (tcp_records (stack s))) s).
Proof.
  intros [Hso Hre Hta Hro Hde Hke Hli Hqu] Hr Hid Hh Hb Hwf Hd Hidle Hph. constructor; simpl; try done.
  - by eapply sock_record_update.
  - by eapply reg_record_update.
  - intros j l c Hl Hc. destruct (Hqu j l c Hl Hc) as [Hlt Hx]. split; [done|]. intros Hj Hid'.
    destruct (Hx Hj Hid') as (Hn & Hu & Hrs). split_and!; [done|done|]. intros r0.
    rewrite lookup_insert_Some. intros [[Hi' <-]|[_ Hr0]]; [|by apply Hrs]. subst i.
    specialize (Hrs r Hr). destruct (idle (phase r')); [|done]. by rewrite Hph in Hrs.
Qed.

(** UDP records. *)
Lemma inv_udp_put i r o hs x s :
  inv x s → i ∈ exempt x → udp_records (stack s) !! i = o → (i < next_socket_id (shd s))%N →
  match o with Some r0 => handles r0 | None => [] end ++ held_udp x ≡ₚ handles r ++ hs →
  udp_record_wf i r → port_free (udp_records (stack s)) i r →
  (udp_bytes r <= match o with Some r0 => udp_bytes r0 | None => 0 end + free_bytes x)%N →
  inv (x <| held_udp := hs |> <| free_bytes := 0%N |>)
    (with_udp (<[i := r]> (udp_records (stack s))) s).
Proof.
  intros [Hso Hre Hta Hro Hde Hke Hli Hqu] Hi Ho Hn Hh Hwf Hpf Hb. constructor; simpl; try done.
  - by eapply sock_udp_put.
  - eapply (reg_change _ i); [| | | | | | | |eapply (reg_weaken x); [|reflexivity|exact Hre]];
      simpl; try done.
    + intros j Hj. by rewrite lookup_insert_ne.
    + apply Hre.
    + apply Hre.
    + apply Hre.
    + intros r0 d Hr. by apply (re_deadline _ _ _ _ _ _ _ _ _ Hre).
  - eapply (queue_change _ i); [done|reflexivity| | |exact Hqu].
    + intros j Hj. by rewrite lookup_insert_ne.
    + intros l c Hl Hc. by apply (Hqu i l c Hl Hc).
Qed.
Lemma inv_udp_delete i r x s :
  inv x s → i ∈ exempt x → udp_records (stack s) !! i = Some r →
  inv (x <| held_udp ::= λ hs, handles r ++ hs |> <| free_bytes ::= λ n, (n + udp_bytes r)%N |>)
    (with_udp (delete i (udp_records (stack s))) s).
Proof.
  intros [Hso Hre Hta Hro Hde Hke Hli Hqu] Hi Hr. constructor; simpl; try done.
  - by apply sock_udp_delete.
  - eapply (reg_change _ i); [| | | | | | | |eapply (reg_weaken x); [|reflexivity|exact Hre]];
      simpl; try done.
    + intros j Hj. by rewrite lookup_delete_ne.
    + intros _. apply (re_ids _ _ _ _ _ _ _ _ _ Hre). right; right; left. by eexists.
    + apply Hre.
    + apply Hre.
    + apply Hre.
    + intros r0 d Hr0. by apply (re_deadline _ _ _ _ _ _ _ _ _ Hre).
  - eapply (queue_change _ i); [done|reflexivity| | |exact Hqu].
    + intros j Hj. by rewrite lookup_delete_ne.
    + intros l c Hl Hc. by apply (Hqu i l c Hl Hc).
Qed.
Lemma inv_udp_update i r r' x s :
  inv x s → udp_records (stack s) !! i = Some r → ur_identity r' = ur_identity r →
  handles r' = handles r → port_of r' = port_of r → udp_record_wf i r' →
  inv x (with_udp (<[i := r']> (udp_records (stack s))) s).
Proof.
  intros [Hso Hre Hta Hro Hde Hke Hli Hqu] Hr Hid Hh Hpo Hwf. constructor; simpl; try done.
  - pose proof Hso as []. eapply sock_rebook; [| | | | | | | | |done]; try done.
    + pose proof (udp_handles_record (udp_records (stack s)) i r' _ Hr) as Hp.
      rewrite Hh, Permutation_app_comm in Hp. apply Permutation_app_inv_l in Hp. by rewrite Hp.
    + pose proof (bytes_sum udp_bytes (udp_records (stack s)) i r' _ Hr) as Hb. unfold udp_bytes in Hb at 2 3.
      unfold buffer_bytes. rewrite Hh in Hb. lia.
    + intros j r1. rewrite lookup_insert_Some. intros [[<- <-]|[? Hj]]; [done|by apply so_udps0].
    + apply ports_apart_insert; [done|]. by eapply port_free_same.
  - by eapply reg_udp_update.
  - by eapply queue_udp_update.
Qed.

(** A record for a socket that is new in the table. *)
Lemma inv_new_tcp i r hs x s :
  inv (x <| exempt ::= λ X, {[id i]} ∪ X |>) s → inserted i Tcp s → tr_identity r = i →
  held_tcp x ≡ₚ tr_handle r :: hs → record_wf (id i) r → (record_bytes r <= free_bytes x)%N →
  close_deadline r = None →
  (∀ t, idle (phase r) = true → get_tcp (sockets (stack s)) (tr_handle r) = Some t → tcp_state t = StClosed) →
  inv (x <| held_tcp := hs |> <| free_bytes ::= λ n, (n - record_bytes r)%N |>)
    (with_records (<[id i := r]> (tcp_records (stack s))) s).
Proof.
  intros Hi [Hr Hl Hu Hc Hn Hreg Hq Huniq] Hid Hh Hwf Hb Hd Hidle.
  eapply (inv_unexempt (id i));
    [| | | | | | | | |apply (inv_record_insert (id i) r hs _ _ Hi)]; simpl; try done; try (clear; set_solver).
  - rewrite lookup_insert_eq. intros r0 t [= <-]. apply Hidle.
  - intros g k (-> & ->)%Huniq. left. exists r. rewrite lookup_insert_eq. by destruct i.
  - intros _ g k. unfold recorded. simpl. rewrite lookup_insert_eq, Hl, Hu.
    intros Hrec. destruct k; [|by destruct Hrec as [? [? _]]|done].
    destruct Hrec as [(r0 & [= <-] & Hid' & _)|(l & ? & _)]; [|done]. by rewrite <-Hid', Hid.
  - intros j l c Hj Hcq [->|Hci]; [congruence|]. by destruct (Hq j l c Hj Hcq).
Qed.
End record_steps.

(** ** A new stack *)
Section fresh.
Context `{Beam, Mailbox, Engine}.

Lemma stack_new_wf lim config now stack_id ids generations c s :
  stack_new lim config now stack_id ids generations c = Ok s →
  (ids <= MAX_SOCKET_ID + 1)%N → (generations <= MAX_SOCKET_ID + 1)%N → stack_wf s.
Proof.
  unfold stack_new. destruct (limits_valid lim) eqn:Hv; [simpl|done].
  destruct (config_validate config lim) as [[]|e|]; simpl; [|done|done].
  destruct (collect route_to_cidr (routes config)) as [ps|e|]; simpl; [|done|done].
  destruct (configured_interface config) as [[cs rs]|e|]; simpl; [|done|done].
  intros [= <-] Hi Hg. constructor; simpl; try done.
  - constructor; simpl; try done; unfold tcp_handles, udp_handles, buffer_bytes.
    + split; [constructor|]. intros h. unfold kind_at, set_get. simpl. rewrite elem_of_nil. naive_solver.
    + split; [constructor|]. intros h. unfold kind_at, set_get. simpl. rewrite elem_of_nil. naive_solver.
    + unfold set_count. simpl. lia.
  - constructor; simpl; try done.
    + intros i. rewrite !lookup_empty. set_solver.
    + intros i k _ (e & He & _). simpl in He. by rewrite lookup_empty in He.
    + intros _ i k _. unfold recorded. rewrite !lookup_empty. destruct k; naive_solver.
  - constructor; simpl; try done; try lia. unfold table_len. simpl. rewrite map_size_empty. lia.
  - intros _ k (e & He & _). simpl in He. by rewrite lookup_empty in He.
Qed.
End fresh.

Section fresh_sample.
#[local] Existing Instances idle_types idle_engine idle_beam idle_mailbox.
Lemma sample_sys_wf : stack_wf sample_sys.
Proof.
  apply (stack_new_wf sample_limits sample_config 0%Z 1 1 1 clock_new);
    [by vm_compute|done|done].
Qed.
End fresh_sample.
