(* ===== verification/Maintenance.v ===== *)
(** * Maintenance: listeners and closing sockets

    Models the parts of [stack.rs] a drive runs a bounded slice of: the scan
    that promotes established members of a listener's pool and refills it, and
    the sweep that removes closed TCP sockets and aborts those past their
    close deadline. *)
From S2P Require Import Prelude Budget Waiter SocketTable Wire TcpSupport Device Packet Smol Stack.
From S2P Require Import Readiness Invariant.

Section maintenance.
Context `{Beam, Mailbox, Engine}.
Context {E : Type}.
Abbreviation St := (M Sys E).

(** ** Listeners *)
Definition mark_listener_ready (i : SocketIdentity) : St unit :=
  t ← gs socket_table;
  match ready_flag t i Tcp Read with
  | Ok flag => wake (waker (ready_key i Read) flag)
  | Err _ => mret tt
  | Panic => panic
  end.

(** [listen], where the endpoint is known to be listenable. *)
Definition expect_listen (h : SocketHandle) (e : IpListenEndpoint) : St unit :=
  t ← get_tcp_socket h;
  let '(r, ws, t) := tcp_listen_on e t in
  put_tcp_socket h t ;;
  wake_all ws ;;
  match r with Ok _ => mret tt | Err _ | Panic => panic end.

(** A method with a [&mut ListenerRecord] returns the listener it leaves. *)
Definition add_listener_member (l : ListenerRecord) : St ListenerRecord :=
  (* [debug_assert!] *)
  room ← attempt (ensure_native_socket_capacity 1 0);
  assert_true (match room with inl _ => true | inr _ => false end) ;;
  t ← expect_ok (lift_outcome (tcp_socket (lr_rcvbuf l) (lr_sndbuf l)));
  h ← add_socket (STcp t);
  tcp_update h (set_timeout (Some (Time.duration_from_millis CONNECT_TIMEOUT_MILLIS))) ;;
  expect_listen h (lr_listen_endpoint l) ;;
  bump (λ c, c <| listener_refills ::= incr |>) ;;
  mret (l <| pool ::= λ p, {[h]} ∪ p |>).

Definition recycle_listener_member (l : ListenerRecord) (h : SocketHandle) : St ListenerRecord :=
  remove_socket h ;;
  add_listener_member (l <| pool ::= λ p, p ∖ {[h]} |>).

(** The identity of the child a member becomes; [None] if the backlog is full. *)
Definition listener_child (l : ListenerRecord) : St (option SocketIdentity + SocketError) :=
  if (llen (accepted_queue l) <? backlog l)%N then
    attempt (ensure_logical_socket_capacity ;;
             ensure_native_socket_capacity 1 0 ;;
             ensure_socket_buffer_capacity
               ((N.of_nat (size (pool l)) + 1) * (lr_rcvbuf l + lr_sndbuf l)) ;;
             child ← on_table (table_insert Tcp 0);
             mret (Some child))
  else mret (inl None).

Definition promote_listener_member (l : ListenerRecord) (h : SocketHandle) (lo re : IpEndpoint) :
    St ListenerRecord :=
  child ← listener_child l;
  match child with
  | inl (Some child) =>
      timers ← gs tcp_timers;
      tcp_update h (set_timeout (Some (user_timeout timers))) ;;
      let record := tcp_record_accepted child h lo re (v_scope_id (lr_endpoint l))
                      (lr_rcvbuf l) (lr_sndbuf l) in
      ms (λ st, st <| tcp_connections ::= <[connection_key lo re := child]> |>) ;;
      ms (λ st, st <| tcp_records ::= <[id child := record]> |>) ;;
      l ← add_listener_member
            (l <| accepted_queue ::= λ q, q ++ [child] |> <| pool ::= λ p, p ∖ {[h]} |>);
      bump (λ c, c <| listener_promotions ::= incr |>) ;;
      mark_listener_ready (lr_identity l) ;;
      mret l
  | inl None | inr SystemLimit =>
      l ← recycle_listener_member l h;
      bump (λ c, c <| listener_overflow_drops ::= incr |>) ;;
      mret l
  | inr _ => panic
  end.

Definition refresh_listener_member (key : ListenerMemberKey) : St unit :=
  ls ← gs tcp_listeners;
  let put l := ms (λ st, st <| tcp_listeners ::= <[listener_id key := l]> |>) in
  match ls !! listener_id key with
  | None => mret tt
  | Some l =>
      ms (λ st, st <| tcp_listeners ::= delete (listener_id key) |>) ;;
      if bool_decide (member_handle key ∉ pool l) then put l
      else
        t ← get_tcp_socket (member_handle key);
        l ← match tcp_state t, tuple t with
            | (StEstablished | StCloseWait), Some (lo, re) =>
                promote_listener_member l (member_handle key) lo re
            | (StListen | StSynReceived), _ => mret l
            | _, _ => recycle_listener_member l (member_handle key)
            end;
        put l
  end.

(** The members the scan has yet to visit, in its order. *)
Definition members_from (cursor : option ListenerMemberKey) (ls : gmap u64 ListenerRecord) :
    list ListenerMemberKey :=
  let listener_start :=
    match cursor with Some k => Included (listener_id k) | None => Unbounded end in
  concat ((λ '(i, l),
    let member_start :=
      match cursor with
      | Some k => if (listener_id k =? i)%N then Excluded (member_handle k) else Unbounded
      | None => Unbounded
      end in
    (λ h, {| listener_id := i; member_handle := h |}) <$> bset_range member_start (pool l))
    <$> bmap_range listener_start ls).

(** A turn of the scan; the variables are [more], [work] and
    [last_processed]. *)
Definition refresh_turn (key : ListenerMemberKey)
    (acc : bool * usize * option ListenerMemberKey) :
    St (bool * usize * option ListenerMemberKey * bool) :=
  let '(more, work, last) := acc in
  ok ← within_budget;
  if (ok : bool) then
    refresh_listener_member key ;;
    mret (more, (work + 1)%N, Some key, true)
  else mret (true, work, last, false).

Definition or_else {A} (o o' : option A) : option A := match o with Some _ => o | None => o' end.

Definition refresh_listeners (limit : usize) : St (usize * bool) :=
  st ← gs (λ st, st);
  if bool_decide (tcp_listeners st = ∅) then
    ms (λ st, st <| listener_scan_cursor := None |> <| listener_scan_pending := false |>
                 <| listener_scan_resweep := false |>) ;;
    mret (0%N, false)
  else if (limit =? 0)%N || negb (listener_scan_pending st) then
    mret (0%N, listener_scan_pending st)
  else
    let cursor := listener_scan_cursor st in
    let keys := take (S (N.to_nat limit)) (members_from cursor (tcp_listeners st)) in
    '(more, work, last) ←
      for_break (take (N.to_nat limit) keys) refresh_turn ((limit <? llen keys)%N, 0%N, None);
    resweep ← gs listener_scan_resweep;
    if (more : bool) then
      ms (λ st, st <| listener_scan_cursor := or_else last cursor |>) ;; mret (work, true)
    else if (resweep : bool) then
      ms (λ st, st <| listener_scan_cursor := None |> <| listener_scan_resweep := false |>) ;;
      mret (work, true)
    else
      ms (λ st, st <| listener_scan_cursor := None |> <| listener_scan_pending := false |>) ;;
      mret (work, false).

(** ** Closing sockets *)
Definition reap_one (now : Time.Instant) (i : u64) : St unit :=
  rs ← gs tcp_records;
  match rs !! i with
  | None => ms (λ st, st <| closing_tcp ::= λ ids, ids ∖ {[i]} |>)
  | Some r =>
      t ← get_tcp_socket (tr_handle r);
      let reset_dispatched := bool_decide (local_endpoint t = None) in
      if bool_decide (tcp_state t = StClosed) && reset_dispatched then remove_tcp_socket r
      else
        match close_deadline r with
        | Some deadline =>
            when (deadline <=? now)%Z
              (when (bool_decide (tcp_state t ≠ StClosed)) (tcp_call (tr_handle r) tcp_abort) ;;
               ms (λ st, st <| closing_deadlines ::= λ ds, ds ∖ {[(deadline, i)]} |>) ;;
               ms (λ st, st <| tcp_records ::= <[i := r <| close_deadline := None |>]> |>))
        | None => mret tt
        end
  end.

Definition reap_turn (now : Time.Instant) (i : u64) (acc : bool * usize * option u64) :
    St (bool * usize * option u64 * bool) :=
  let '(more, work, last) := acc in
  ok ← within_budget;
  if (ok : bool) then reap_one now i ;; mret (more, (work + 1)%N, Some i, true)
  else mret (true, work, last, false).

Definition closing_idle (st : NativeStack) : NativeStack :=
  st <| closing_sweep_cursor := None |> <| closing_cleanup_pending := false |>
     <| closing_cleanup_resweep := false |>.

Definition reap_closing_tcp (now : Time.Instant) (limit : usize) : St (usize * bool) :=
  st ← gs (λ st, st);
  if bool_decide (closing_tcp st = ∅) then ms closing_idle ;; mret (0%N, false)
  else if (limit =? 0)%N || negb (closing_cleanup_pending st) then
    mret (0%N, closing_cleanup_pending st)
  else
    let start := match closing_sweep_cursor st with Some i => Excluded i | None => Unbounded end in
    let ids := take (S (N.to_nat limit)) (bset_range start (closing_tcp st)) in
    '(more, work, last) ←
      for_break (take (N.to_nat limit) ids) (reap_turn now) ((limit <? llen ids)%N, 0%N, None);
    st ← gs (λ st, st);
    if bool_decide (closing_tcp st = ∅) then ms closing_idle ;; mret (work, false)
    else if (more : bool) then
      ms (λ st, st <| closing_sweep_cursor ::= or_else last |>) ;; mret (work, true)
    else if closing_cleanup_resweep st then
      ms (λ st, st <| closing_sweep_cursor := None |> <| closing_cleanup_resweep := false |>) ;;
      mret (work, true)
    else
      ms (λ st, st <| closing_sweep_cursor := None |> <| closing_cleanup_pending := false |>) ;;
      mret (work, false).
End maintenance.

(** ** Listener members *)
Section listener_wp.
Context `{Beam, Mailbox, Engine} {E : Type}.
Implicit Types (s : Sys) (x : Held) (l : ListenerRecord) (R : E → Sys → Prop).

Lemma driven_records s0 s rs :
  driven s0 s →
  (∀ i r, tcp_records (stack s) !! i = Some r → i ∉ closing_tcp (stack s0) →
    ∃ p, rs !! i = Some (r <| phase := p |>)) →
  driven s0 (with_records rs s).
Proof.
  intros [] Hrs. constructor; try done. intros i r Hr Hc. destruct (dr_records i r Hr Hc) as [p Hp].
  by destruct (Hrs i _ Hp Hc) as [p' Hp']; exists p'.
Qed.

Lemma mark_listener_ready_wp s0 x i R s :
  J s0 x s → wp (mark_listener_ready i) (λ _ s', J s0 x s' ∧ books s s') R s.
Proof.
  intros HJ. unfold mark_listener_ready. st_steps.
  pose proof (ready_flag_no_panic (socket_table (stack s)) i Tcp Read).
  destruct (ready_flag _ i Tcp Read) as [f|e|] eqn:Hf; [|by split|done].
  pose proof (ready_flag_key (get_table s) i Tcp Read f (inv_table _ _ (proj1 HJ)) Hf) as ->.
  split; [by apply (J_wake (E:=E) s0 x (waker (ready_key i Read) (ready_key i Read)) s)|].
  unfold wake. simpl. by destruct (mark_ready _ _ _).
Qed.

Lemma ensure_native_room n s :
  (set_count (sockets (stack s)) + n <= l_sockets (limits (stack s)))%N →
  limits_valid (limits (stack s)) = true →
  ensure_native_socket_capacity n 0 s = (Ok tt, s).
Proof.
  intros Hn Hv. unfold limits_valid, contains in Hv.
  assert (l_sockets (limits (stack s)) <= MAX_SOCKETS)%N as Hm by lia. unfold MAX_SOCKETS in Hm.
  unfold ensure_native_socket_capacity, mbind, M_bind, gs, gets, option_bind, checked_sub, checked_add.
  rewrite N.sub_0_r. replace (0 <=? _)%N with true by lia. replace (_ <=? usize_max)%N with true by (unfold usize_max; lia).
  simpl. unfold fail_if. replace (_ <? _)%N with false by lia. done.
Qed.

Lemma expect_listen_wp s0 x h t e (Q : unit → Sys → Prop) R s :
  J s0 x s → get_tcp (sockets (stack s)) h = Some t → tcp_state t = StClosed →
  listen_port e ≠ 0%N → (∀ t', closed_ok x s h t') →
  (∀ s', J s0 x s' → books s s' → Q tt s') → wp (expect_listen h e) Q R s.
Proof.
  intros HJ Ht Hc He Hh HQ. unfold expect_listen. st_steps. eapply wp_get_tcp; [done|].
  pose proof (tcp_listen_on_ok e t (J_tcp_wf _ _ _ _ _ HJ Ht)) as [Hw Hwf].
  pose proof (tcp_listen_on_closed e t He Hc) as Hr.
  destruct (tcp_listen_on e t) as [[r ws] t']. simpl in Hw, Hwf, Hr. subst r. unfold put_tcp_socket. st_steps.
  eapply (wp_wake_all s0 x); [exact (J_put_tcp _ _ _ _ _ _ HJ Ht Hwf (Hh _))|done|].
  intros s' HJ' Hs'. apply HQ; [done|]. etrans; [|exact (books_woke _ _ Hs')]. by constructor.
Qed.

Lemma tcp_socket_valid r n :
  valid_buffer_bytes r = true → valid_buffer_bytes n = true →
  ∃ t, tcp_socket r n = Ok t ∧ socket_wf (STcp t) ∧ tcp_state t = StClosed.
Proof.
  intros Hr Hn. unfold tcp_socket. rewrite Hr, Hn. simpl. unfold tcp_socket_new.
  unfold valid_buffer_bytes, contains, MAX_BUFFER_BYTES in Hr.
  replace (2 ^ 30 <? r)%N with false by lia. eexists. split; [done|].
  by apply (tcp_socket_new_ok (E:=SocketError) r n); unfold tcp_socket_new; replace (2 ^ 30 <? r)%N with false by lia.
Qed.

Lemma held_fresh s0 h x s : J s0 (hold_tcp h x) s → h ∉ held_tcp x.
Proof.
  intros [[Hso] _] Hh. destruct (so_tcp _ _ _ _ _ _ Hso) as [Hnd _]. simpl in Hnd.
  apply list.NoDup_app in Hnd as (_ & _ & Hnd). by apply list.NoDup_cons in Hnd as [? _].
Qed.

(** A listener whose pool is in hand. *)
Definition member_ok l : Prop :=
  valid_buffer_bytes (lr_rcvbuf l) = true ∧ valid_buffer_bytes (lr_sndbuf l) = true
  ∧ listen_port (lr_listen_endpoint l) ≠ 0%N.

Lemma add_listener_member_wp s0 x l (Q : ListenerRecord → Sys → Prop) R s :
  J s0 x s → (0 < free_slots x)%N → member_ok l →
  (∀ h s', h ∉ held_tcp x → J s0 (hold_tcp h x) s' → books s s' →
    Q (l <| pool ::= λ p, {[h]} ∪ p |>) s') →
  wp (add_listener_member l) Q R s.
Proof.
  intros HJ Hf (Hr & Hn & He) HQ. unfold add_listener_member.
  pose proof (proj1 HJ) as Hinv. pose proof (so_count _ _ _ _ _ _ (inv_sock _ _ Hinv)) as Hc.
  st_steps. unfold wp at 1. rewrite ensure_native_room by (lia || apply Hinv).
  st_steps. apply wp_assert; [done|]. st_steps. apply wp_expect_ok.
  destruct (tcp_socket_valid _ _ Hr Hn) as (t & -> & Hwf & Hst).
  apply wp_lift_outcome; [intros ? [= <-]|done|done]. st_steps.
  eapply wp_add_tcp; [done|done|lia|]. intros h ss HJ1 Hnone Hget. pose proof (held_fresh _ _ _ _ HJ1).
  assert (Hh : h ∈ held_tcp (hold_tcp h x)) by (by left).
  st_steps. eapply (wp_tcp_update s0 _ h t); [done| |by destruct Hwf|by eapply closed_ok_held|].
  { apply get_tcp_set_get. simpl. by rewrite Hget, decide_True. }
  intros ss' HJ2 ->. st_steps.
  eapply (expect_listen_wp s0 (hold_tcp h x) h (set_timeout _ t));
    [done| |exact Hst|done|intros t'; by eapply closed_ok_held|].
  { apply get_tcp_set_get. simpl. rewrite (proj1 (set_put_spec h (STcp t) _ ss ltac:(by rewrite Hget, decide_True))).
    by rewrite decide_True. }
  intros s' HJ3 Hb. st_steps. apply HQ; [done|by apply J_counters|].
  etrans; [|apply books_counters]. etrans; [|exact Hb]. by constructor.
Qed.

Lemma recycle_listener_member_wp s0 x l h hs (Q : ListenerRecord → Sys → Prop) R s :
  J s0 x s → held_tcp x ≡ₚ bset_elems (pool l) ++ hs → h ∈ pool l → member_ok l →
  (∀ p s', size p = size (pool l) → J s0 (x <| held_tcp := bset_elems p ++ hs |>) s' → books s s' →
    Q (l <| pool := p |>) s') →
  wp (recycle_listener_member l h) Q R s.
Proof.
  intros HJ Hx Hh Hl HQ. unfold recycle_listener_member. st_steps.
  eapply (wp_remove_tcp s0 x h (bset_elems (pool l ∖ {[h]}) ++ hs)); [done|by rewrite Hx, (bset_elems_remove _ _ Hh)|].
  intros ss HJ1. eapply add_listener_member_wp; [done|simpl; lia|done|].
  intros h' s' Hf HJ2 Hb. simpl in Hf. rewrite elem_of_app, elem_of_bset_elems in Hf.
  apply HQ.
  - rewrite <-!length_bset_elems, bset_elems_add by set_solver.
    by rewrite (bset_elems_remove _ _ Hh).
  - eapply J_weaken; [..|exact HJ2]; simpl; try done; [|lia].
    by rewrite bset_elems_add by set_solver.
  - by etrans; [|exact Hb].
Qed.

Lemma listener_child_wp s0 x l (Q : option SocketIdentity + SocketError → Sys → Prop) R s :
  let n := ((N.of_nat (size (pool l)) + 1) * (lr_rcvbuf l + lr_sndbuf l))%N in
  J s0 x s → (free_slots x <= 1)%N → (free_bytes x <= n)%N →
  (∀ s', J s0 x s' → (∀ j, beside j s s') → Q (inl None) s' ∧ Q (inr SystemLimit) s') →
  (∀ i s', (llen (accepted_queue l) < backlog l)%N →
    J s0 (x <| free_slots := 1%N |> <| free_bytes := n |> <| exempt ::= λ X, {[id i]} ∪ X |>) s' →
    inserted i Tcp s' → id i = next_socket_id (shd s) → (∀ j, j ≠ id i → beside j s s') →
    Q (inl (Some i)) s') →
  wp (listener_child l) Q R s.
Proof.
  intros n HJ Hs Hb Hno Hyes. destruct (Hno s HJ) as [Hnone Hlim]; [intros j; by apply beside_books|].
  unfold listener_child. st_steps; [|done].
  apply wp_ensure_logical; [|done]. st_steps.
  apply (wp_ensure_native s0 x); [done| |done]. intros HJ1. st_steps.
  apply (wp_ensure_bytes s0 (x <| free_slots := 1%N |>)); [done| |done]. intros HJ2. st_steps.
  eapply wp_table_insert; [exact HJ2| |].
  - intros i t' HJ3 Hin Hid Hbe. st_steps. apply Hyes; [lia|done|done|done|done].
  - intros t' HJ3 Hbe. apply Hno; [|done]. by eapply J_weaken; [..|exact HJ3].
Qed.

(** The sockets of a queue whose listener [lid] is in hand. *)
Definition queue_ok (X : gset u64) (lid : u64) s (q : list SocketIdentity) : Prop :=
  ∀ c, c ∈ q → (id c < next_socket_id (shd s))%N
    ∧ (lid ∉ X → id c ∉ X → id c ≠ lid ∧ tcp_listeners (stack s) !! id c = None
       ∧ udp_records (stack s) !! id c = None
       ∧ ∀ r, tcp_records (stack s) !! id c = Some r → idle (phase r) = false).
Lemma queue_ok_beside X lid s s' q :
  (∀ c, c ∈ q → beside (id c) s s') → queue_ok X lid s q → queue_ok X lid s' q.
Proof.
  intros Hb Hq c Hc. destruct (Hb c Hc) as [_ Hn Hr Hl Hu _ _], (Hq c Hc) as [Hlt Hx]. split; [lia|].
  by rewrite Hr, Hl, Hu.
Qed.

Lemma promote_accept_wp s0 x l h hs child lo re (Q : ListenerRecord → Sys → Prop) R s :
  let n := ((N.of_nat (size (pool l)) + 1) * (lr_rcvbuf l + lr_sndbuf l))%N in
  let record := tcp_record_accepted child h lo re (v_scope_id (lr_endpoint l)) (lr_rcvbuf l) (lr_sndbuf l) in
  J s0 (x <| free_slots := 1%N |> <| free_bytes := n |> <| exempt ::= λ X, {[id child]} ∪ X |>) s →
  inserted child Tcp s → held_tcp x ≡ₚ bset_elems (pool l) ++ hs → h ∈ pool l →
  member_ok l → free_slots x = 0%N → free_bytes x = listener_bytes l →
  (∀ p s', size p = size (pool l) → J s0 (x <| held_tcp := bset_elems p ++ hs |>) s' →
    (∀ j, j ≠ id child → beside j s s') → books (with_records (<[id child := record]> (tcp_records (stack s))) s) s' →
    Q (l <| accepted_queue ::= λ q, q ++ [child] |> <| pool := p |>) s') →
  wp (add_listener_member (l <| accepted_queue ::= λ q, q ++ [child] |> <| pool ::= λ p, p ∖ {[h]} |>)) Q R
    (with_records (<[id child := record]> (tcp_records (stack s))) s).
Proof.
  intros n record [Hi Hdr] Hin Hx Hh Hl Hfs Hfb HQ. rewrite (bset_elems_remove _ _ Hh) in Hx.
  assert (Hrb : record_bytes record = (lr_rcvbuf l + lr_sndbuf l)%N) by done.
  assert (HJ : J s0 (x <| free_slots := 1%N |> <| free_bytes := n |>
      <| held_tcp := bset_elems (pool l ∖ {[h]}) ++ hs |> <| free_bytes ::= λ n, (n - record_bytes record)%N |>)
    (with_records (<[id child := record]> (tcp_records (stack s))) s)).
  { split.
    - apply (inv_new_tcp child record (bset_elems (pool l ∖ {[h]}) ++ hs)
        (x <| free_slots := 1%N |> <| free_bytes := n |>) s); simpl; try done; [|lia].
      destruct Hl as (? & ? & ?). by split_and!.
    - apply driven_records; [done|]. intros i r Hr _. exists (phase r).
      destruct Hin. rewrite lookup_insert_ne by congruence. by destruct r. }
  eapply add_listener_member_wp; [exact HJ|simpl; lia|by destruct Hl as (? & ? & ?)|].
  intros h' s' Hf HJ' Hb. simpl in Hf. rewrite elem_of_app, elem_of_bset_elems in Hf. apply HQ.
  - rewrite <-!length_bset_elems, bset_elems_add by set_solver. by rewrite (bset_elems_remove _ _ Hh).
  - eapply J_weaken; [..|exact HJ']; simpl; try done; [|lia|].
    + by rewrite bset_elems_add by set_solver.
    + rewrite Hfb, Hrb. unfold listener_bytes. lia.
  - intros j Hj. eapply beside_trans; [|by apply beside_books]. constructor; simpl; try done. by apply lookup_insert_ne.
  - done.
Qed.

Lemma promote_listener_member_wp s0 x X l h hs lo re lid (Q : ListenerRecord → Sys → Prop) R s :
  J s0 x s → held_tcp x ≡ₚ bset_elems (pool l) ++ hs → h ∈ pool l → member_ok l →
  free_slots x = 0%N → free_bytes x = listener_bytes l → (lid < next_socket_id (shd s))%N →
  (llen (accepted_queue l) <= backlog l)%N → queue_ok X lid s (accepted_queue l) →
  (∀ p q s', size p = size (pool l) → (llen q <= backlog l)%N →
    J s0 (x <| held_tcp := bset_elems p ++ hs |>) s' → beside lid s s' → queue_ok X lid s' q →
    Q (l <| accepted_queue := q |> <| pool := p |>) s') →
  wp (promote_listener_member l h lo re) Q R s.
Proof.
  intros HJ Hx Hh Hl Hfs Hfb Hlid Hq Hqok HQ. unfold promote_listener_member. st_steps.
  assert (Hdrop : ∀ s', J s0 x s' → (∀ j, beside j s s') →
    wp (l ← recycle_listener_member l h; bump (λ c, c <| listener_overflow_drops ::= incr |>) ;; mret l) Q R s').
  { intros s' HJ' Hbe. st_steps. eapply recycle_listener_member_wp; [done|done|done|done|].
    intros p s2 Hp HJ2 Hb2. st_steps. 
    assert (Hbe2 : ∀ j, beside j s (s2 <| stack ::= λ st, st <| counters ::= λ c, c <| listener_overflow_drops ::= incr |> |> |>)).
    { intros j. eapply beside_trans; [apply Hbe|]. apply beside_books. etrans; [exact Hb2|apply books_counters]. }
    apply (HQ p (accepted_queue l)); [done|done|by apply J_counters|apply Hbe2|].
    eapply queue_ok_beside; [|exact Hqok]. intros c _. apply Hbe2. }
  eapply (listener_child_wp s0 x); [done|lia|rewrite Hfb; unfold listener_bytes; lia| |].
  { intros s' HJ' Hbe. split; by apply Hdrop. }
  intros child s1 Hlt HJ1 Hin Hid Hbe. st_steps.
  assert (Hheld : h ∈ held_tcp x) by (rewrite Hx, elem_of_app, elem_of_bset_elems; by left).
  destruct (sock_held_handle _ _ _ _ _ _ h (inv_sock _ _ (proj1 HJ1))) as (t & Ht & _); [done|].
  eapply (wp_tcp_update s0 _ h t); [exact HJ1|done|exact (J_tcp_wf _ _ _ _ _ HJ1 Ht)|by eapply closed_ok_held|].
  intros ss HJ2 _. st_steps.
  pose proof (J_connections _ _ _ (<[connection_key lo re := child]>) HJ2) as HJ3.
  eapply (promote_accept_wp s0 x l h hs child lo re); [exact HJ3| |done|done|done|done|done|].
  { eapply inserted_books; [|exact Hin]. by constructor. }
  intros p s' Hp HJ' Hb' Hrec. st_steps.
  eapply wp_mono; [eapply mark_listener_ready_wp, J_counters, HJ'| |done].
  intros [] s2 [HJ4 Hb4]. st_steps.
  assert (Hbe2 : ∀ j, j ≠ id child → beside j s s2).
  { intros j Hj. eapply beside_trans; [by apply Hbe|]. eapply beside_trans; [|by eapply beside_books].
    eapply beside_trans; [|apply beside_books, books_counters].
    eapply beside_trans; [|by apply Hb']. by apply beside_books. }
  apply HQ; [done| |done|apply Hbe2; lia|].
  - unfold llen in *. rewrite length_app. simpl. lia.
  - pose proof (books_trans _ _ _ Hrec (books_trans _ _ _ (books_counters _ _) Hb4)) as [_ Hn Hr Hls Hu _ _ _ _ _].
    simpl in *. intros c [Hc| ->%list_elem_of_singleton]%elem_of_app.
    + refine (queue_ok_beside X lid s s2 _ _ Hqok c Hc). intros c' Hc'. apply Hbe2.
      destruct (Hqok c' Hc'). lia.
    + destruct Hin. rewrite Hn. split; [done|]. intros _ _. split_and!; [lia|by rewrite Hls|by rewrite Hu|].
      rewrite Hr, lookup_insert_eq. by intros r [= <-].
Qed.

(** A listener that was taken out is put back. *)
Lemma J_listener_back s0 x lid l p q s s' :
  J s0 x s → tcp_listeners (stack s) !! lid = Some l → size p = size (pool l) →
  (llen q <= backlog l)%N → queue_ok (exempt x) lid s' q →
  J s0 (x <| exempt ::= λ X, {[lid]} ∪ X |> <| free_bytes ::= λ n, (n + listener_bytes l)%N |>
          <| held_tcp := bset_elems p ++ held_tcp x |>) s' →
  beside lid (with_listeners (delete lid (tcp_listeners (stack s))) s) s' →
  J s0 x (with_listeners (<[lid := l <| accepted_queue := q |> <| pool := p |>]>
            (tcp_listeners (stack s'))) s').
Proof.
  intros [Hi _] Hl Hp Hq Hqok [Hi' Hdr'] [Ht Hn Hr Hls Hu Hc Hlife]. simpl in *.
  pose proof (inv_sock _ _ Hi) as Hso. pose proof (inv_reg _ _ Hi) as Hre.
  destruct (so_listeners _ _ _ _ _ _ Hso _ _ Hl) as (Hid & Hrb & Hsb & Hpt & Hpl & Hbl & Hpool & _).
  assert (Hnone : tcp_records (stack s) !! lid = None) by (eapply (re_disjoint _ _ _ _ _ _ _ _ _ Hre); by eexists).
  set (l' := l <| accepted_queue := q |> <| pool := p |>).
  assert (Hsame : ∀ g k, recorded (tcp_records (stack s')) (<[lid := l']> (tcp_listeners (stack s')))
    (udp_records (stack s')) (closing_tcp (stack s')) {| id := lid; generation := g |} k ↔
    recorded (tcp_records (stack s)) (tcp_listeners (stack s)) (udp_records (stack s)) (closing_tcp (stack s))
      {| id := lid; generation := g |} k).
  { intros g k. unfold recorded. simpl. rewrite Hr, Hu, Hc, lookup_insert_eq, Hl, Hnone. destruct k; [|done|done].
    split; (intros [(r & ? & _)|(l0 & [= <-] & Hg)]; [done|right; by eexists]). }
  pose proof (inv_listener_insert lid l' (held_tcp x) _ _ Hi') as Hins.
  split; [|by destruct Hdr'; constructor].
  assert (Hi2 := Hins ltac:(simpl; set_solver) ltac:(by rewrite Hr) ltac:(by rewrite Hls, lookup_delete_eq)).
  assert (lid < next_socket_id (shd s))%N as Hlt.
  { apply (re_ids _ _ _ _ _ _ _ _ _ Hre). right; left. by eexists. }
  specialize (Hi2 ltac:(lia) ltac:(done)).
  assert (Hlb : listener_bytes l' = listener_bytes l) by (unfold listener_bytes; simpl; by rewrite Hp).
  assert (listener_wf lid l') as Hwf by (split_and!; simpl; try done; [lia|lia|by rewrite Hp]).
  specialize (Hi2 Hwf ltac:(simpl; rewrite Hlb; lia) (λ c Hcq, proj1 (Hqok c Hcq))). clear Hins.
  destruct (decide (lid ∈ exempt x)) as [Hex|Hex].
  { eapply inv_weaken; [..|exact Hi2]; simpl; try done; [lia|set_solver]. }
  eapply (inv_unexempt lid); [| | | | | | | | |exact Hi2]; simpl; try done; [lia| | | |].
  - rewrite Hr. congruence.
  - intros g k (e & He & Hk). apply Hsame. apply (re_recorded _ _ _ _ _ _ _ _ _ Hre); [done|].
    exists e. simpl in *. by rewrite <-Ht.
  - intros Hrun g k Hrec%Hsame. destruct (re_registered _ _ _ _ _ _ _ _ _ Hre) with (i := {| id := lid; generation := g |}) (k := k)
      as (e & He & Hk); [congruence|done|done|]. exists e. simpl in *. by rewrite Ht.
  - intros j l0 c. rewrite lookup_insert_Some. intros [[<- <-]|[Hj Hl0]] Hcq Hor Hjx Hcx.
    + destruct (Hqok c Hcq) as [_ Hx]. destruct (Hx Hjx Hcx) as (Hne & ? & ? & ?). by rewrite lookup_insert_ne.
    + rewrite Hls, lookup_delete_ne in Hl0 by done.
      destruct (inv_queue _ _ Hi j l0 c Hl0 Hcq) as [_ Hx]. destruct (Hx Hjx Hcx) as (Hn0 & _).
      destruct Hor; congruence.
Qed.

(** The accept queue of a listener taken out of its map. *)
Lemma queue_ok_taken x lid l s :
  inv x s → tcp_listeners (stack s) !! lid = Some l →
  queue_ok (exempt x) lid (with_listeners (delete lid (tcp_listeners (stack s))) s) (accepted_queue l).
Proof.
  intros Hi Hl c Hc. destruct (inv_queue _ _ Hi lid l c Hl Hc) as [Hlt Hx]. split; [done|].
  intros Hlx Hcx. destruct (Hx Hlx Hcx) as (Hn & Hu & Hrs). assert (id c ≠ lid) by congruence.
  split_and!; try done. simpl. by rewrite lookup_delete_ne.
Qed.

Lemma refresh_listener_member_wp s0 x key R s :
  J s0 x s → free_slots x = 0%N → free_bytes x = 0%N →
  wp (refresh_listener_member key) (λ _, J s0 x) R s.
Proof.
  intros HJ Hfs Hfb. unfold refresh_listener_member. apply wp_bind, wp_gs. cbv zeta.
  destruct (tcp_listeners (stack s) !! listener_id key) as [l|] eqn:Hl; [|done].
  set (lid := listener_id key) in *. set (h := member_handle key).
  pose proof (so_listeners _ _ _ _ _ _ (inv_sock _ _ (proj1 HJ)) _ _ Hl) as (Hid & Hrb & Hsb & Hpt & Hpl & Hbl & Hpool & Hq).
  assert (HJ1 : J s0 (x <| exempt ::= λ X, {[lid]} ∪ X |> <| held_tcp ::= λ hs, bset_elems (pool l) ++ hs |>
      <| free_bytes ::= λ n, (n + listener_bytes l)%N |>) (with_listeners (delete lid (tcp_listeners (stack s))) s)).
  { destruct HJ as [Hi []]. split; [|by constructor].
    apply inv_listener_delete; [by apply inv_exempt|simpl; set_solver|done]. }
  apply wp_bind, wp_ms. set (s1 := with_listeners _ s) in HJ1. change (s <| stack ::= _ |>) with s1.
  assert (lid < next_socket_id (shd s1))%N as Hlt.
  { apply (re_ids _ _ _ _ _ _ _ _ _ (inv_reg _ _ (proj1 HJ))). right; left. by eexists. }
  assert (Hqok : queue_ok (exempt x) lid s1 (accepted_queue l)) by (apply queue_ok_taken; [apply HJ|done]).
  assert (Hput : ∀ p q s', size p = size (pool l) → (llen q <= backlog l)%N →
    queue_ok (exempt x) lid s' q → J s0 (x <| exempt ::= λ X, {[lid]} ∪ X |> <| free_bytes ::= λ n, (n + listener_bytes l)%N |>
        <| held_tcp := bset_elems p ++ held_tcp x |>) s' → beside lid s1 s' →
    wp (E:=E) (ms (λ st, st <| tcp_listeners ::= <[lid := l <| accepted_queue := q |> <| pool := p |>]> |>))
      (λ _, J s0 x) R s').
  { intros p q s' Hp Hq' Hqok' HJ' Hb. by apply (J_listener_back s0 x lid l p q s). }
  assert (Hkeep : wp (E:=E) (ms (λ st, st <| tcp_listeners ::= <[lid := l]> |>)) (λ _, J s0 x) R s1).
  { assert (Heta : l <| accepted_queue := accepted_queue l |> <| pool := pool l |> = l) by (by destruct l).
    pose proof (Hput (pool l) (accepted_queue l) s1 eq_refl Hq Hqok HJ1) as Hk. rewrite Heta in Hk.
    by apply Hk, beside_books. }
  destruct (bool_decide (h ∉ pool l)) eqn:Hin; [exact Hkeep|].
  apply bool_decide_eq_false in Hin. apply dec_stable in Hin.
  destruct (sock_held_handle _ _ _ _ _ _ h (inv_sock _ _ (proj1 HJ1))) as (t & Ht & _).
  { simpl. rewrite elem_of_app, elem_of_bset_elems. by left. }
  apply wp_bind. eapply wp_get_tcp; [exact Ht|]. apply wp_bind.
  assert (Hrec : wp (recycle_listener_member l h)
    (λ l, wp (ms (λ st, st <| tcp_listeners ::= <[lid := l]> |>)) (λ _, J s0 x) R) R s1).
  { eapply recycle_listener_member_wp; [exact HJ1|simpl; reflexivity|done|done|].
    intros p s2 Hp HJ2 Hb. apply (Hput p (accepted_queue l) s2 Hp Hq); [|exact HJ2|by apply beside_books].
    eapply queue_ok_beside; [|exact Hqok]. intros c _. by apply beside_books. }
  assert (Hpro : ∀ lo re, wp (promote_listener_member l h lo re)
    (λ l, wp (ms (λ st, st <| tcp_listeners ::= <[lid := l]> |>)) (λ _, J s0 x) R) R s1).
  { intros lo re. eapply (promote_listener_member_wp s0 _ (exempt x));
      [exact HJ1|simpl; reflexivity|done|done|done|simpl; rewrite Hfb; lia|exact Hlt|done|exact Hqok|].
    intros p q s2 Hp Hq' HJ2 Hb Hqok2. by apply (Hput p q s2 Hp Hq'). }
  destruct (tcp_state t), (tuple t) as [[lo re]|]; try exact Hrec; try exact Hkeep; apply Hpro.
Qed.
End listener_wp.

(** ** Removing a TCP socket *)
Section removal_wp.
Context `{Beam, Mailbox, Engine} {E : Type}.
Implicit Types (s : Sys) (x : Held) (R : E → Sys → Prop).

(** What is left of the stack once the socket [i] is gone. *)
Record forgotten (i : u64) s s' : Prop := {
  fo_table : socket_table (stack s') = socket_table (stack s);
  fo_shared : shd s' = shd s;
  fo_records : tcp_records (stack s') = delete i (tcp_records (stack s));
  fo_listeners : tcp_listeners (stack s') = tcp_listeners (stack s);
  fo_udp : udp_records (stack s') = udp_records (stack s);
  fo_closing : closing_tcp (stack s') = closing_tcp (stack s) ∖ {[i]};
  fo_lifecycle : lifecycle (stack s') = lifecycle (stack s);
  fo_limits : limits (stack s') = limits (stack s);
  fo_pending : pending_notifications (stack s') = pending_notifications (stack s);
  fo_reason : shutdown_reason (stack s') = shutdown_reason (stack s);
  fo_outbox : outbox s' = outbox s;
  fo_device : device (stack s') = device (stack s)
}.

Lemma forgotten_driven s0 i s s' :
  i ∈ closing_tcp (stack s) → forgotten i s s' → driven s0 s → driven s0 s'.
Proof.
  intros Hi [] []. constructor; try congruence; [by rewrite fo_table0|set_solver|].
  intros j r Hr Hc. rewrite fo_records0, lookup_delete_ne by set_solver. by apply dr_records.
Qed.

Definition with_closing (cl : gset u64) (ds : gset (Time.Instant * u64)) s : Sys :=
  s <| stack ::= λ st, st <| closing_tcp := cl |> <| closing_deadlines := ds |> |>.

(** A socket without a record leaves the closing set. *)
Lemma inv_closing i cl' ds' x s :
  inv x s → tcp_records (stack s) !! i = None → closing_tcp (stack s) ∖ {[i]} ⊆ cl' →
  cl' ⊆ closing_tcp (stack s) → (∀ d j, j ≠ i → (d, j) ∈ closing_deadlines (stack s) → (d, j) ∈ ds') →
  inv x (with_closing cl' ds' s).
Proof.
  intros [Hso Hre Hta Hro Hde Hke Hli] Hi Hc Hc' Hd. constructor; try done. simpl. destruct Hre as [Hids Hopen Hrecd Hregd Hdisj Hclos Hdl].
  assert (Hrec : ∀ j k, recorded (tcp_records (stack s)) (tcp_listeners (stack s)) (udp_records (stack s)) cl' j k
    ↔ recorded (tcp_records (stack s)) (tcp_listeners (stack s)) (udp_records (stack s)) (closing_tcp (stack s)) j k).
  { intros j [| |]; [|done|done]. unfold recorded. destruct (decide (id j = i)) as [<-|]; [by rewrite Hi; naive_solver|].
    assert (Hj : id j ∈ cl' ↔ id j ∈ closing_tcp (stack s)) by set_solver. by setoid_rewrite Hj. }
  constructor; try done.
  - intros j Hj. apply Hids. naive_solver.
  - intros j k Hj Hr. by apply Hrec, Hrecd.
  - intros Hl j k Hj Hr%Hrec. by apply Hregd.
  - intros j Hj. by apply Hclos, Hc'.
  - intros j r d Hr Hcd. destruct (Hdl _ _ _ Hr Hcd) as [? ?].
    assert (j ≠ i) by congruence. split; [set_solver|by apply Hd].
Qed.

(** The socket leaves the stack, whatever the order of the removals. *)
Lemma inv_remove_tcp i r cl' ds' cs x s :
  inv x s → tcp_records (stack s) !! i = Some r → i ∈ exempt x →
  closing_tcp (stack s) ∖ {[i]} ⊆ cl' → cl' ⊆ closing_tcp (stack s) →
  (∀ d j, j ≠ i → (d, j) ∈ closing_deadlines (stack s) → (d, j) ∈ ds') →
  inv x (with_sockets (set_put (tr_handle r) None (sockets (stack s)))
    (with_closing cl' ds'
      (with_records (delete i (tcp_records (stack s)))
        (s <| stack ::= λ st, st <| tcp_connections := cs |> |>)))).
Proof.
  intros Hi Hr Hex Hc1 Hc2 Hd. set (s1 := s <| stack ::= _ |>).
  assert (Hi1 : inv x s1) by (by destruct Hi; constructor).
  pose proof (inv_record_delete i r x s1 Hi1 Hex Hr) as Hi2.
  pose proof (inv_closing i cl' ds' _ _ Hi2) as Hi3. simpl in Hi3.
  specialize (Hi3 ltac:(apply lookup_delete_eq) Hc1 Hc2 Hd).
  pose proof (wp_remove_tcp (E:=E) _ _ (tr_handle r) (held_tcp x)
    (λ _ s', inv x s') (λ _ _, True) _ (J_intro _ _ Hi3) ltac:(done)) as Hw.
  unfold remove_socket in Hw. revert Hw.
  destruct (sock_tcp_handle _ _ _ _ _ _ _ _ (inv_sock _ _ Hi) Hr) as (t & _ & Ht).
  unfold wp, mbind, M_bind, gs, gets, expect. simpl. rewrite Ht. simpl. intros Hw. apply Hw.
  intros ss [Hj _]. eapply inv_weaken; [..|exact Hj]; simpl; try done; lia.
Qed.

(** A request for a scan is a change of fields that nothing here mentions. *)
Lemma request_listener_scan_wp x i (Q : unit → Sys → Prop) R s s1 :
  inv x s1 → forgotten i s s1 → (∀ s', inv x s' → forgotten i s s' → Q tt s') →
  wp request_listener_scan Q R s1.
Proof.
  intros Hi Hf HQ. change (Q tt (after (request_listener_scan (E:=E)) s1)). apply HQ.
  - apply (J_request_listener_scan s1 x s1). by apply J_intro.
  - unfold after, request_listener_scan. simpl. destruct (bool_decide _); [by destruct s1|].
    destruct Hf. by destruct (listener_scan_pending _); constructor.
Qed.

Lemma remove_tcp_socket_wp i r x (Q : unit → Sys → Prop) R s :
  inv x s → tcp_records (stack s) !! i = Some r → i ∈ exempt x →
  (∀ s', inv x s' → forgotten i s s' → Q tt s') → wp (remove_tcp_socket r) Q R s.
Proof.
  intros Hi Hr Hex HQ.
  destruct (so_records _ _ _ _ _ _ (inv_sock _ _ Hi) _ _ Hr) as [Hid _].
  destruct (sock_tcp_handle _ _ _ _ _ _ _ _ (inv_sock _ _ Hi) Hr) as (t & _ & Ht).
  unfold remove_tcp_socket, remove_socket, remove_tcp_record. rewrite Hid. st_steps. apply wp_expect.
  exists (STcp t). split; [done|]. st_steps.
  all: try destruct (remote r) as [p|] eqn:Hp; st_steps.
  all: eapply (request_listener_scan_wp x i _ R s); [|by constructor|exact HQ].
  all: match goal with |- inv _ ?s2 =>
    replace s2 with (with_sockets (set_put (tr_handle r) None (sockets (stack s)))
      (with_closing (closing_tcp (stack s) ∖ {[i]}) (closing_deadlines (stack s2))
        (with_records (delete i (tcp_records (stack s)))
          (s <| stack ::= λ st, st <| tcp_connections := tcp_connections (stack s2) |> |>))))
      by (clear; by destruct s as [[] ? ? ?]) end.
  all: apply (inv_remove_tcp i r); [done|done|done|done|set_solver|].
  all: simpl; intros; try done.
  all: apply elem_of_difference; split; [done|]; rewrite elem_of_singleton; congruence.
Qed.

Lemma inv_deadlines ds' x s :
  inv x s →
  (∀ j r d, tcp_records (stack s) !! j = Some r → close_deadline r = Some d → (d, j) ∈ ds') →
  inv x (with_closing (closing_tcp (stack s)) ds' s).
Proof.
  intros [Hso [] Hta Hro Hde Hke Hli] Hd. constructor; try done. constructor; try done.
  intros j r d Hr Hc. split; [by eapply re_deadline|by eapply Hd].
Qed.

(** The deadline of a closing socket has passed. *)
Lemma inv_deadline_passed i r d x s :
  inv x s → tcp_records (stack s) !! i = Some r → close_deadline r = Some d →
  inv x (with_records (<[i := r <| close_deadline := None |>]> (tcp_records (stack s)))
    (with_closing (closing_tcp (stack s)) (closing_deadlines (stack s) ∖ {[(d, i)]}) s)).
Proof.
  intros Hi Hr Hd.
  assert (Hi1 : inv x (with_records (<[i := r <| close_deadline := None |>]> (tcp_records (stack s))) s)).
  { apply (inv_record_update i r); try done.
    - exact (so_records _ _ _ _ _ _ (inv_sock _ _ Hi) _ _ Hr).
    - intros t. exact (so_idle _ _ _ _ _ _ (inv_sock _ _ Hi) i r t Hr). }
  refine (inv_deadlines _ x _ Hi1 _). simpl. intros j r0 d0.
  rewrite lookup_insert_Some. intros [[<- <-]|[Hne Hj]] Hd0; [done|].
  apply elem_of_difference. split; [by eapply (re_deadline _ _ _ _ _ _ _ _ _ (inv_reg _ _ Hi))|set_solver].
Qed.

Lemma J_deadline_passed s0 i r d x s :
  J s0 x s → tcp_records (stack s) !! i = Some r → close_deadline r = Some d →
  i ∈ closing_tcp (stack s) →
  J s0 x (with_records (<[i := r <| close_deadline := None |>]> (tcp_records (stack s)))
    (with_closing (closing_tcp (stack s)) (closing_deadlines (stack s) ∖ {[(d, i)]}) s)).
Proof.
  intros [Hi Hdr] Hr Hd Hc. split; [by apply inv_deadline_passed|].
  apply driven_records; [by destruct Hdr; constructor|].
  intros j r0 Hj Hnc. exists (phase r0). rewrite lookup_insert_ne; [by destruct r0|].
  intros ->. by apply Hnc, (dr_closing _ _ Hdr).
Qed.

(** A closing socket is no longer in the table, so that nothing is owed for
    its number once its record is gone. *)
Lemma inv_forgotten i x s s' :
  inv x s → is_Some (tcp_records (stack s) !! i) → i ∈ closing_tcp (stack s) →
  inv (x <| exempt ::= λ X, {[i]} ∪ X |>) s' → forgotten i s s' → inv x s'.
Proof.
  intros Hi Hr Hc Hi' []. pose proof (inv_reg _ _ Hi) as Hre.
  assert (Hno : ∀ g k, ¬ registered (socket_table (stack s)) {| id := i; generation := g |} k).
  { intros g k (e & He & _). simpl in He. rewrite (re_closing _ _ _ _ _ _ _ _ _ Hre _ Hc) in He. done. }
  destruct (decide (i ∈ exempt x)).
  { eapply inv_weaken; [..|exact Hi']; simpl; try done. set_solver. }
  eapply (inv_unexempt i); [| | | | | | | | |exact Hi']; try done.
  - rewrite fo_records0, lookup_delete_eq. done.
  - intros g k. rewrite fo_table0. by intros ?%Hno.
  - rewrite fo_table0, fo_lifecycle0, fo_records0, fo_listeners0, fo_udp0. intros Hrun g k Hrec.
    exfalso. apply (Hno g k), (re_registered _ _ _ _ _ _ _ _ _ Hre); [done|done|]. revert Hrec.
    unfold recorded. simpl. rewrite lookup_delete_eq. destruct k; [|done|done].
    intros [(? & ? & _)|?]; [done|by right].
  - rewrite fo_records0, fo_listeners0, fo_udp0. intros j l c Hl Hq _ Hj Hid.
    destruct (inv_queue _ _ Hi j l c Hl Hq) as [_ Hx]. destruct (Hx Hj Hid) as (Hn & Hu & Hrs).
    split_and!; [done|done|]. intros r0 [_ Hr0]%lookup_delete_Some. by apply Hrs.
Qed.

Lemma reap_one_wp s0 x now i R s :
  J s0 x s → i ∈ closing_tcp (stack s) →
  wp (reap_one now i)
    (λ _ s', J s0 x s' ∧ ∀ j, j ≠ i → j ∈ closing_tcp (stack s) → j ∈ closing_tcp (stack s')) R s.
Proof.
  intros HJ Hc. pose proof HJ as [Hi Hdr]. unfold reap_one. apply wp_bind, wp_gs.
  destruct (tcp_records (stack s) !! i) as [r|] eqn:Hr; cycle 1.
  { st_steps. split; [|set_solver]. split.
    - apply (inv_closing i (closing_tcp (stack s) ∖ {[i]}) (closing_deadlines (stack s)) x s); try done. set_solver.
    - destruct Hdr. constructor; try done. simpl. set_solver. }
  destruct (sock_tcp_handle _ _ _ _ _ _ _ _ (inv_sock _ _ Hi) Hr) as (t & Ht & _).
  apply wp_bind. eapply wp_get_tcp; [done|]. st_steps; try done.
  - eapply (remove_tcp_socket_wp i r (x <| exempt ::= λ X, {[i]} ∪ X |>));
      [by apply inv_exempt|done|simpl; set_solver|].
    intros s' Hi' Hf. split; [split; [by eapply inv_forgotten|by eapply forgotten_driven]|].
    destruct Hf. rewrite fo_closing0. set_solver.
  - pose proof (tcp_abort_ok t (J_tcp_wf _ _ _ _ _ HJ Ht)) as [Hw Hwf].
    eapply (wp_tcp_call s0 x _ t); [done|done|done|done|done|].
    intros s1 ss HJ1 -> [Hst _]. st_steps. split; [|simpl; by rewrite Hst].
    exact (J_deadline_passed s0 i r _ x s1 HJ1 ltac:(by rewrite Hst) Heqo ltac:(by rewrite Hst)).
  - by split; [exact (J_deadline_passed s0 i r _ x s HJ Hr Heqo Hc)|].
Qed.
End removal_wp.

(** ** The sweeps *)
Section sweeps_wp.
Context `{Beam, Mailbox, Engine} {E : Type}.
Implicit Types (s : Sys) (x : Held) (R : E → Sys → Prop).

(** A sweep keeps the invariant and does no more than [limit] turns. *)
Definition swept s0 x (limit : usize) (r : usize * bool) s' : Prop := J s0 x s' ∧ (r.1 <= limit)%N.

Lemma refresh_listeners_wp s0 x limit R s :
  J s0 x s → free_slots x = 0%N → free_bytes x = 0%N →
  wp (refresh_listeners limit) (swept s0 x limit) R s.
Proof.
  intros HJ Hfs Hfb. unfold refresh_listeners. st_steps; try (split; [done|simpl; lia]).
  { split; [j_same|simpl; lia]. }
  set (keys := take (S (N.to_nat limit)) _).
  eapply (wp_mono _ (λ acc s', J s0 x s' ∧ (acc.1.2 <= limit)%N) _ R); [| |done].
  { eapply (wp_for_break _ _ (λ l acc s', J s0 x s' ∧ (acc.1.2 + llen l <= limit)%N)).
    - split; [done|]. unfold llen. rewrite length_take. simpl. lia.
    - intros acc s' [HJ' Hl]. split; [done|lia].
    - intros key l [[more work] last] s1 [HJ1 Hl]. unfold llen in Hl. simpl in Hl. unfold refresh_turn. st_steps.
      + eapply wp_mono; [eapply (refresh_listener_member_wp s0 x); [by apply J_budget|done|done]| |done].
        intros [] s2 HJ2. st_steps. split; [done|]. unfold llen. simpl. lia.
      + split; [by apply J_budget|simpl; lia]. }
  intros [[more work] last] s1 [HJ1 Hl]. simpl in Hl. st_steps; (split; [j_same|simpl; lia]).
Qed.

Lemma reap_closing_tcp_wp s0 x now limit R s :
  J s0 x s → wp (reap_closing_tcp now limit) (swept s0 x limit) R s.
Proof.
  intros HJ. unfold reap_closing_tcp. st_steps; try (split; [done|simpl; lia]).
  { split; [j_same|simpl; lia]. }
  set (ids := take (S (N.to_nat limit)) _).
  assert (Hids : NoDup (take (N.to_nat limit) ids) ∧ ∀ i, i ∈ take (N.to_nat limit) ids → i ∈ closing_tcp (stack s)).
  { split.
    - apply (sublist_NoDup _ (bset_elems (closing_tcp (stack s)))); [apply NoDup_bset_elems|].
      etrans; [apply sublist_take|]. etrans; [apply sublist_take|]. apply sublist_List_filter.
    - intros i Hi. apply elem_of_take in Hi as (n & Hi & _). apply list_elem_of_lookup_2 in Hi.
      apply elem_of_take in Hi as (m & Hi & _). apply list_elem_of_lookup_2 in Hi.
      by apply elem_of_bset_range in Hi as [Hi _]. }
  eapply (wp_mono _ (λ acc s', J s0 x s' ∧ (acc.1.2 <= limit)%N) _ R); [| |done].
  { eapply (wp_for_break _ _ (λ l acc s', J s0 x s' ∧ (acc.1.2 + llen l <= limit)%N ∧ NoDup l
      ∧ ∀ i, i ∈ l → i ∈ closing_tcp (stack s'))).
    - split; [done|]. split; [|done]. unfold llen. rewrite length_take. simpl. lia.
    - intros acc s' (HJ' & Hl & _). split; [done|lia].
    - intros i l [[more work] last] s1 (HJ1 & Hl & Hnd & Hin). unfold llen in Hl. simpl in Hl.
      apply list.NoDup_cons in Hnd as [Hi Hnd]. unfold reap_turn. st_steps.
      + eapply wp_mono; [eapply (reap_one_wp s0 x); [by apply J_budget|apply Hin; by left]| |done].
        intros [] s2 [HJ2 Hc]. st_steps. unfold llen. simpl. split; [done|]. split; [lia|]. split; [done|].
        intros j Hj. apply Hc; [by intros ->|]. apply Hin. by right.
      + split; [by apply J_budget|simpl; lia]. }
  intros [[more work] last] s1 [HJ1 Hl]. simpl in Hl. st_steps; (split; [j_same|simpl; lia]).
Qed.
End sweeps_wp.
