(* ===== verification/Drive.v ===== *)
(** * Driving the stack

    Models [drive_batch] of [stack.rs] and what it calls to read a packet
    before the engine does: the retargeting of wildcard listeners and the
    recording of resets. A drive offers packets to the engine, runs a slice of
    maintenance and of egress, and takes the frames the link may have. *)
From S2P Require Import Prelude Budget Waiter SocketTable Wire TcpSupport Device Packet Smol.
From S2P Require Import Stack Create Readiness Invariant Maintenance.

Section drive.
Context `{Beam, Mailbox, Engine}.
Context {E : Type}.
Abbreviation St := (M Sys E).

(** ** Reading a packet *)
(** The members of the wildcard listeners of a port. *)
Definition wildcard_handles (st : NativeStack) (dst : IpAddress) (p : u16) : list SocketHandle :=
  concat ((λ l,
    if is_unspecified (v_address (lr_endpoint l))
       && family_matches (family_of dst) (v_address (lr_endpoint l))
       && (port (lr_local l) =? p)%N
    then bset_elems (pool l) else []) <$> bmap_values (tcp_listeners st)).

Definition retarget_member (e : IpListenEndpoint) (h : SocketHandle) : St unit :=
  t ← get_tcp_socket h;
  when (bool_decide (tcp_state t = StListen) && bool_decide (tcp_listen_endpoint t ≠ e))
    (tcp_call h tcp_abort ;;
     tcp_update h (set_timeout (Some (Time.duration_from_millis CONNECT_TIMEOUT_MILLIS))) ;;
     expect_listen h e).

Definition retarget_wildcard_listener (packet : bytes) : St unit :=
  match tcp_listener_target packet with
  | Err _ => mret tt
  | Panic => panic
  | Ok (dst, p) =>
      hs ← gs (λ st, wildcard_handles st dst p);
      for_each hs (retarget_member {| listen_addr := Some dst; listen_port := p |})
  end.

Definition inbound_reset (packet : bytes) : St (option (SocketIdentity * ConnectFailure)) :=
  match reset_endpoints packet with
  | Err _ => mret None
  | Panic => panic
  | Ok (l, r) =>
      conns ← gs tcp_connections;
      match conns !! connection_key l r with
      | None => mret None
      | Some i =>
          record ← attempt (tcp_record i);
          match record with
          | inr _ => mret None
          | inl record =>
              t ← get_tcp_socket (tr_handle record);
              mret (match tcp_state t with
                    | StEstablished => Some (i, Reset)
                    | StSynSent | StSynReceived => Some (i, Refused)
                    | _ => None
                    end)
          end
      end
  end.

Definition record_inbound_reset (reset : option (SocketIdentity * ConnectFailure)) : St unit :=
  match reset with
  | None => mret tt
  | Some (i, failure) =>
      record ← attempt (tcp_record i);
      match record with
      | inr _ => mret tt
      | inl record =>
          t ← get_tcp_socket (tr_handle record);
          if bool_decide (tcp_state t = StClosed) then
            attempt (tcp_record_mut i (λ r, r <| phase := PhaseFailed failure |>)) ;; mret tt
          else mret tt
      end
  end.

(** ** Calling the engine *)
(** [poll_ingress_single] on one packet; returns [device.received()]. *)
Definition poll_ingress (now : Time.Instant) (packet : bytes) : St bool := λ s,
  let st := stack s in
  let '(res, w) :=
    run_prog (poll_ingress_single now (interface st) (sockets st))
      (Build_DevWorld (receive_one_new (device st) packet) (flags (shd s)) (ready (shd s))) in
  let s := s <| stack ::= λ st, st <| device := one_device (dw_device w) |> |>
             <| shd ::= λ h, h <| flags := dw_flags w |> <| ready := dw_ready w |> |> in
  match res with
  | Some (i, ss) =>
      (Ok (received (dw_device w)), s <| stack ::= λ st, st <| interface := i |> <| sockets := ss |> |>)
  | None => (Panic, s)
  end.

Definition poll_egress_once (now : Time.Instant) : St PollResult := λ s,
  let st := stack s in
  let '(res, w) :=
    run_prog (poll_egress now (interface st) (sockets st))
      (Build_DevWorld (device st) (flags (shd s)) (ready (shd s))) in
  let s := s <| stack ::= λ st, st <| device := dw_device w |> |>
             <| shd ::= λ h, h <| flags := dw_flags w |> <| ready := dw_ready w |> |> in
  match res with
  | Some (i, ss, r) => (Ok r, s <| stack ::= λ st, st <| interface := i |> <| sockets := ss |> |>)
  | None => (Panic, s)
  end.

(** [Interface::poll_maintenance]. *)
Definition maintain (now : Time.Instant) : St unit :=
  i ← gs interface;
  i ← expect (poll_maintenance now i);
  ms (λ st, st <| interface := i |>).

Definition take_output (packet_limit byte_limit : usize) : St (list bytes) :=
  zoom (λ s, (device (stack s), get_budget s))
    (λ '(d, b) s, put_budget b (s <| stack ::= λ st, st <| device := d |> |>))
    (take_transmit budget_checkpoint packet_limit byte_limit).

Definition total_len (ps : list bytes) : usize := sum_N (llen <$> ps).

(** ** The loops *)
(** The variables are [ingress_work], [batch_taken] and
    [deadline_work_deferred]. *)
Definition ingress_turn (now : Time.Instant) (batch : list bytes)
    (acc : usize * usize * bool) : St (usize * usize * bool * bool) :=
  let '(work, taken, deferred) := acc in
  st ← gs (λ st, st);
  if (work <? l_input_packets (limits st))%N
     && (has_receive (device st) || (taken <? llen batch)%N) && can_receive (device st) then
    ok ← within_budget;
    if negb ok then mret (work, taken, true, false)
    else
      held ← gs (λ st, (take_receive (device st)).1);
      ms (λ st, st <| device ::= λ d, (take_receive d).2 |>) ;;
      packet ← match held with Some p => mret p | None => expect (batch !! N.to_nat taken) end;
      retarget_wildcard_listener packet ;;
      reset ← inbound_reset packet;
      received ← poll_ingress now packet;
      if negb received then
        match held with
        | Some p => ms (λ st, st <| device ::= return_receive p |>)
        | None => mret tt
        end ;;
        mret (work, taken, deferred, false)
      else
        record_inbound_reset reset ;;
        request_closing_cleanup ;;
        request_listener_scan ;;
        mret ((work + 1)%N, match held with Some _ => taken | None => (taken + 1)%N end,
              deferred, true)
  else mret (work, taken, deferred, false).

(** The variables are [maintenance_work], [egress_attempted],
    [egress_may_remain] and [deadline_work_deferred]. *)
Definition egress_turn (now : Time.Instant) (acc : usize * bool * bool * bool) :
    St (usize * bool * bool * bool * bool) :=
  let '(work, attempted, remain, deferred) := acc in
  st ← gs (λ st, st);
  if (work <? l_maintenance_work (limits st))%N
     && ((queued_packets (device st)).2 <? l_output_packets (limits st))%N
     && transmit_credit_available (device st) then
    ok ← within_budget;
    if negb ok then mret (work, attempted, remain, true, false)
    else
      r ← poll_egress_once now;
      match r with
      | PollNone => mret ((work + 1)%N, true, false, deferred, false)
      | PollSocketStateChanged =>
          request_closing_cleanup ;;
          request_listener_scan ;;
          mret ((work + 1)%N, true, true, deferred, true)
      end
  else mret (work, attempted, remain, deferred, false).

(** The cleanup and the scan each have a turn before egress and one after;
    [ran] and [more] are kept from the first to the second. *)
Definition cleanup_before (now : Time.Instant) : St (usize * bool * bool) :=
  st ← gs (λ st, st);
  if maintenance_cleanup_turn st && closing_cleanup_pending st then
    '(work, more) ← reap_closing_tcp now (N.min (l_maintenance_work (limits st)) 1);
    mret (work, more, (0 <? work)%N)
  else mret (0%N, false, false).

Definition listeners_before (work : usize) : St (usize * bool * bool) :=
  st ← gs (λ st, st);
  let remaining := saturating_sub (l_maintenance_work (limits st)) work in
  if listener_scan_pending st && (0 <? remaining)%N
     && ((1 <? remaining)%N || listener_maintenance_turn st) then
    let limit := if (remaining =? 1)%N then 1%N else N.max (remaining / 2) 1 in
    '(done, more) ← refresh_listeners limit;
    mret ((work + done)%N, more, (0 <? done)%N)
  else mret (work, false, false).

Definition cleanup_after (now : Time.Instant) (work : usize) (more ran : bool) :
    St (usize * bool * bool) :=
  st ← gs (λ st, st);
  if negb ran && closing_cleanup_pending st then
    '(done, more') ← reap_closing_tcp now (saturating_sub (l_maintenance_work (limits st)) work);
    mret ((work + done)%N, more || more', (0 <? done)%N)
  else mret (work, more, ran).

Definition listeners_after (work : usize) (more ran : bool) : St (usize * bool * bool) :=
  st ← gs (λ st, st);
  if negb ran && listener_scan_pending st then
    '(done, more') ← refresh_listeners (saturating_sub (l_maintenance_work (limits st)) work);
    mret ((work + done)%N, more || more', (0 <? done)%N)
  else mret (work, more, ran).

(** [Iterator::min] of the engine's deadline and the first close deadline. *)
Definition earliest (a b : option Time.Instant) : option Time.Instant :=
  match a, b with
  | Some a, Some b => Some (Z.min a b)
  | Some a, None => Some a
  | None, b => b
  end.

Definition next_poll (now : Time.Instant) (more egress_open : bool) (st : NativeStack) : option i64 :=
  if more then Some (Time.total_millis now)
  else
    let engine_at :=
      match iface_poll_at now (interface st) (sockets st) with
      | Some instant => if egress_open || (now <? instant)%Z then Some instant else None
      | None => None
      end in
    Time.total_millis <$> earliest engine_at (next_close_deadline st).

(** Everything after ingress; [output] is what was taken before it. *)
Definition drive_rest (now : Time.Instant) (input_bytes ingress_work : usize)
    (out : list bytes) (deferred : bool) : St Effects :=
  ok ← within_budget;
  when ok (maintain now) ;;
  st ← gs (λ st, st);
  when (match next_close_deadline st with Some d => (d <=? now)%Z | None => false end)
    request_closing_cleanup ;;
  let scheduled_deadline_reached :=
    bool_decide (closing_tcp st ≠ ∅)
    && match scheduled_poll_at st with Some d => (d <=? now)%Z | None => false end in
  '(work, cleanup_more, cleanup_ran) ← cleanup_before now;
  '(work, listener_more, listener_ran) ← listeners_before work;
  '(work, attempted, remain, deferred) ←
    while_loop (S (N.to_nat (l_maintenance_work (limits st)))) (egress_turn now)
      (work, false, false, deferred || negb ok);
  let remain := remain || (negb attempted && (work =? l_maintenance_work (limits st))%N) in
  when (scheduled_deadline_reached && attempted)
    (request_closing_cleanup ;;
     when (negb remain) (ms (λ st, st <| scheduled_poll_at := None |>))) ;;
  additional ← take_output (saturating_sub (l_output_packets (limits st)) (llen out))
                 (saturating_sub (l_bytes_copied (limits st)) (total_len out));
  let out := out ++ additional in
  '(work, cleanup_more, cleanup_ran) ← cleanup_after now work cleanup_more cleanup_ran;
  '(work, listener_more, listener_ran) ← listeners_after work listener_more listener_ran;
  ms (λ st, st <| maintenance_cleanup_turn := negb cleanup_ran && closing_cleanup_pending st |>
               <| listener_maintenance_turn := negb listener_ran && listener_scan_pending st |>) ;;
  st ← gs (λ st, st);
  let egress_open := transmit_credit_available (device st) in
  let more :=
    transmit_ready (device st)
    || (has_receive (device st) && can_receive (device st))
    || (remain && egress_open)
    || cleanup_more || closing_cleanup_pending st
    || listener_more || listener_scan_pending st || deferred in
  bump (observe {| w_bytes_copied := N.max input_bytes (total_len out);
                   w_input_packets := ingress_work; w_output_packets := llen out;
                   w_ready_events := 0; w_maintenance_work := work |}) ;;
  bump (λ c, c <| emitted_packets ::= λ n, wrapping_add n (llen out) |>) ;;
  mret {| eff_output := out; eff_poll_at := next_poll now more egress_open st;
          eff_more := more; eff_maintenance_work := work |}.
End drive.

Section drive_batch.
Context `{Beam, Mailbox, Engine}.
Abbreviation St := (M Sys StackError).

Definition drive_batch (now : Time.Instant) (batch : list bytes) (copied_bytes : option usize) :
    St Effects :=
  lim ← gs limits;
  ms (λ st, st <| device ::= device_begin_call (l_output_packets lim) |>) ;;
  out ← take_output (l_output_packets lim) (l_bytes_copied lim);
  '(ingress_work, taken, deferred) ←
    while_loop (S (N.to_nat (l_input_packets lim))) (ingress_turn now batch) (0%N, 0%N, false);
  let unprocessed := drop (N.to_nat taken) batch in
  (if bool_decide (unprocessed ≠ []) then
     d ← gs device;
     let '(r, d) := enqueue_receive_batch unprocessed d in
     ms (λ st, st <| device := d |>) ;;
     match r with
     | Ok _ => mret tt
     | Err _ => fail OwnershipInvariantViolation
     | Panic => panic
     end
   else mret tt) ;;
  drive_rest now (default 0%N copied_bytes) ingress_work out deferred.

Definition drive (now : Time.Instant) (copied_bytes : option usize) : St Effects :=
  drive_batch now [] copied_bytes.

Definition validate_packet (packet : bytes) : St unit :=
  st ← gs (λ st, st);
  let reject := bump (λ c, c <| rejected_packets ::= incr |>) in
  if bool_decide (packet = []) then reject ;; fail InvalidPacket
  else
    match validate_raw_packet packet (stack_mtu st) (l_bytes_copied (limits st)) with
    | Ok _ => mret tt
    | Err e => reject ;; fail e
    | Panic => panic
    end.

Definition ingress_batch (packets : list bytes) (now : Time.Instant) : St Effects :=
  st ← gs (λ st, st);
  fail_if (bool_decide (lifecycle st ≠ Running)) SClosed ;;
  fail_if (l_input_packets (limits st) <? llen packets)%N BatchTooLarge ;;
  copied ← for_acc packets (λ packet copied,
    validate_packet packet ;;
    match checked_add copied (llen packet) with
    | Some n => if (n <=? l_bytes_copied (limits st))%N then mret n else fail BatchTooLarge
    | None => fail BatchTooLarge
    end) 0%N;
  d ← gs device;
  fail_if (negb (receive_fits (llen packets) d)) OwnershipInvariantViolation ;;
  bump (λ c, c <| ingress_packets ::= λ n, wrapping_add n (llen packets) |>) ;;
  drive_batch now packets (Some copied).

Definition ingress (packet : bytes) (now : Time.Instant) : St Effects := ingress_batch [packet] now.
End drive_batch.

Section calls.
Context `{Beam, Mailbox, Engine}.

(** A drive that is known not to fail. *)
Definition expect_drive {E} (now : Time.Instant) (copied_bytes : option usize) : M Sys E Effects :=
  expect_ok (drive now copied_bytes).

Definition poll {E} (now : Time.Instant) : M Sys E Effects :=
  bump (λ c, c <| poll_calls ::= incr |>) ;;
  expect_drive now None.

Definition grant_egress_call (ps bs : usize) (now : Time.Instant) : M Sys StackError (Envelope unit) :=
  st ← gs (λ st, st);
  fail_if (bool_decide (lifecycle st ≠ Running)) SClosed ;;
  let '(granted, d) := grant_egress ps bs (device st) in
  ms (λ st, st <| device := d |>) ;;
  fail_if (negb granted) EgressCreditDisabled ;;
  effects ← expect_drive now None;
  finish_call tt effects [].
End calls.

(** ** What the engine promises

    A poll may do anything to the state of a connection, but it keeps every
    socket in its slot with its kind and its transmit buffer, does not reopen a
    closed socket, and only calls wakers that were registered. *)
Section laws.
Context `{SmolTypes}.
Implicit Types (ss : SocketSet).

Definition socket_evolves (s s' : Socket) : Prop :=
  match s, s' with
  | STcp t, STcp t' =>
      tx_capacity t' = tx_capacity t ∧ (llen (tx_buffer t') <= llen (tx_buffer t))%N
      ∧ (tcp_state t = StClosed → tcp_state t' = StClosed)
      ∧ socket_wakers (STcp t') ⊆ socket_wakers (STcp t)
  | SUdp u, SUdp u' => socket_wakers (SUdp u') ⊆ socket_wakers (SUdp u)
  | _, _ => False
  end.
Definition evolves ss ss' : Prop := Forall2 (option_Forall2 socket_evolves) ss ss'.
Definition set_wakers ss : list Waker := concat (from_option socket_wakers [] <$> ss).

(** The program does not panic, every waker that it calls satisfies [W], and
    every result [P]. *)
Fixpoint polls {A} (W : Waker → Prop) (P : A → Prop) (p : DevProg A) : Prop :=
  match p with
  | DRet a => P a
  | DReceive none _ some => polls W P none ∧ ∀ packet, polls W P (some packet)
  | DTransmit none _ some => polls W P none ∧ polls W P some
  | DWake w next => W w ∧ polls W P next
  | DPanic => False
  end.
End laws.

Class EngineLaws `{Engine} : Prop := {
  ingress_law : ∀ now i ss,
    polls (.∈ set_wakers ss) (λ r, evolves ss r.2) (poll_ingress_single now i ss);
  egress_law : ∀ now i ss,
    polls (.∈ set_wakers ss) (λ r, evolves ss r.1.2) (poll_egress now i ss);
  egress_sends : ∀ now i ss, sends_only (poll_egress now i ss);
  maintenance_law : ∀ now i, is_Some (poll_maintenance now i);
  source_law : ∀ i a, is_unspecified a = false → is_Some (get_source_address i a)
}.

Section evolves_lemmas.
Context `{SmolTypes}.
Implicit Types (ss : SocketSet).

Lemma evolves_slots ss ss' n :
  evolves ss ss' → option_Forall2 socket_evolves (mjoin (ss !! n)) (mjoin (ss' !! n)).
Proof.
  unfold evolves, SocketSet in *. intros Hev. destruct (ss !! n) as [o|] eqn:Ho.
  - destruct (Forall2_lookup_l _ _ _ _ _ Hev Ho) as (o' & -> & Ho'). done.
  - rewrite lookup_ge_None_2; [simpl; constructor|]. rewrite <-(Forall2_length Hev). by apply lookup_ge_None_1.
Qed.
Lemma evolves_get ss ss' h :
  evolves ss ss' → option_Forall2 socket_evolves (set_get ss h) (set_get ss' h).
Proof. apply evolves_slots. Qed.
Lemma evolves_count ss ss' : evolves ss ss' → set_count ss' = set_count ss.
Proof. unfold set_count. induction 1 as [|o o' ss ss' Ho Hev IH]; [done|]. destruct Ho; simpl; lia. Qed.
Lemma evolves_kind ss ss' h : evolves ss ss' → kind_at ss' h = kind_at ss h.
Proof.
  intros Hev%(evolves_get _ _ h). unfold kind_at. destruct Hev as [s s' Hs|]; [|done].
  by destruct s, s'.
Qed.
Lemma elem_of_set_wakers ss h s w : set_get ss h = Some s → w ∈ socket_wakers s → w ∈ set_wakers ss.
Proof.
  unfold set_get, set_wakers. intros Hs Hw. destruct (ss !! N.to_nat h) as [o|] eqn:Ho; simplify_eq/=. subst.
  apply list_elem_of_In, in_concat. exists (socket_wakers s). split; [|by apply list_elem_of_In].
  apply list_elem_of_In, list_elem_of_fmap. exists (Some s). split; [done|]. by eapply list_elem_of_lookup_2.
Qed.
Lemma set_wakers_ok ss w : sockets_wf ss → w ∈ set_wakers ss → waker_ok w.
Proof.
  intros Hwf Hw. unfold set_wakers in Hw. apply list_elem_of_In, in_concat in Hw as (l & Hl & Hw).
  apply list_elem_of_In, list_elem_of_fmap in Hl as (o & -> & Ho). apply list_elem_of_In in Hw.
  destruct o as [s|]; [|by apply elem_of_nil in Hw]. simpl in Hw.
  apply list_elem_of_lookup_1 in Ho as [n Hn].
  destruct (Hwf (N.of_nat n) s) as [Hf _]; [unfold set_get; rewrite Nat2N.id; unfold SocketSet in *; by rewrite Hn|].
  rewrite list.Forall_forall in Hf. by apply Hf.
Qed.
Lemma socket_evolves_wf s s' : socket_evolves s s' → socket_wf s → socket_wf s'.
Proof.
  unfold socket_wf. rewrite !list.Forall_forall. intros Hev [Hw Hs].
  destruct s as [t|u], s' as [t'|u']; simpl in Hev; try done.
  - destruct Hev as (Hc & Hl & _ & Hsub). split; [|rewrite Hc; lia]. intros w Hw'. apply Hw, Hsub, Hw'.
  - split; [|done]. intros w Hw'. apply Hw, Hev, Hw'.
Qed.

Lemma sock_evolves x cap ss ss' rs ls us :
  evolves ss ss' → sock_inv x cap ss rs ls us → sock_inv x cap ss' rs ls us.
Proof.
  intros Hev [Htcp Hudp Hwf Hcount Hbytes Hidle Hrs Hls Hus].
  pose proof (λ h, evolves_kind ss ss' h Hev) as Hk. constructor; try done.
  - by apply (owns_slots _ _ ss).
  - by apply (owns_slots _ _ ss).
  - intros h s' Hs'. pose proof (evolves_get _ _ h Hev) as Hg. rewrite Hs' in Hg.
    inversion Hg as [s0 ? Hs0 E1|]; subst. symmetry in E1. by eapply socket_evolves_wf, Hwf.
  - by rewrite (evolves_count _ _ Hev).
  - intros i r t' Hr Hi Hp Ht'. apply get_tcp_set_get in Ht'.
    pose proof (evolves_get _ _ (tr_handle r) Hev) as Hg. rewrite Ht' in Hg.
    inversion Hg as [s0 ? Hs0 E1|]; subst. symmetry in E1. destruct s0 as [t|]; [|done].
    destruct Hs0 as (_ & _ & Hc & _). apply Hc. eapply Hidle; [done|done|done|]. by apply get_tcp_set_get.
Qed.
End evolves_lemmas.

(** A poll keeps what each of its wakers keeps. *)
Lemma run_prog_polls {A D} `{Device D} (p : DevProg A) W P (I : Flags → ReadyState → Prop) (w : DevWorld D) :
  polls W P p →
  (∀ wk h q, W wk → I h q → I (mark_ready wk h q).1 (mark_ready wk h q).2) →
  I (dw_flags w) (dw_ready w) →
  (∃ a, (run_prog p w).1 = Some a ∧ P a) ∧ I (dw_flags (run_prog p w).2) (dw_ready (run_prog p w).2).
Proof.
  intros Hp HI. revert w. induction p as [a|none IH1 reply some IH2|none IH1 frame some IH2|wk next IH|];
    intros w Hw; simpl in *.
  - split; [by exists a|done].
  - destruct Hp as [Hn Hs]. destruct (dev_receive (dw_device w)) as [[packet d]|]; [by apply IH2|by apply IH1].
  - destruct Hp as [Hn Hs]. destruct (dev_transmit (dw_device w)); [by apply IH2|by apply IH1].
  - destruct Hp as [Hwk Hn]. pose proof (HI _ _ _ Hwk Hw) as Hw'.
    destruct (mark_ready wk (dw_flags w) (dw_ready w)) as [h q]. by apply IH.
  - done.
Qed.

(** A poll on a borrowed packet, and one that only transmits, leave the link's
    side of the device alone. *)
Lemma run_one_link {A} (p : DevProg A) w :
  link_of (one_device (dw_device (run_prog p w).2)) = link_of (one_device (dw_device w)).
Proof.
  revert w. induction p as [a|none IH1 reply some IH2|none IH1 frame some IH2|wk next IH|]; intros w; simpl.
  - done.
  - destruct (negb _); [apply IH1|]. destruct (one_packet (dw_device w)); [|apply IH1].
    rewrite IH2. simpl. by destruct (reply _).
  - destruct (_ && _); [|apply IH1]. rewrite IH2. simpl. by destruct frame.
  - destruct (mark_ready _ _ _) as [h q]. apply (IH (Build_DevWorld (dw_device w) h q)).
  - done.
Qed.
Lemma run_sends_link {A} (p : DevProg A) (w : DevWorld BeamDevice) :
  sends_only p → link_of (dw_device (run_prog p w).2) = link_of (dw_device w).
Proof.
  revert w. induction p as [a|none IH1 reply some IH2|none IH1 frame some IH2|wk next IH|]; intros w Hs; simpl in *.
  - done.
  - done.
  - destruct Hs as [Hn Hs]. destruct (_ && _); [|by apply IH1]. rewrite IH2 by done. simpl. by destruct frame.
  - destruct (mark_ready _ _ _) as [h q]. by apply (IH (Build_DevWorld (dw_device w) h q)).
  - done.
Qed.

(** ** Driving keeps the invariant *)
Section drive_wp.
Context `{Beam, Mailbox, Engine, !EngineLaws} {E : Type}.
Implicit Types (s : Sys) (x : Held) (R : E → Sys → Prop).

Definition with_device (d : BeamDevice) s : Sys := s <| stack ::= λ st, st <| device := d |> |>.

(** A change of the device; the link's side moves with it. *)
Lemma J_device s0 x d s :
  J s0 x s → device_wf d → J (with_device d s0) x (with_device d s).
Proof. intros [[Hso Hre Hta Hro Hde Hke Hli] []] Hd. by split; constructor. Qed.
Lemma J_device_same s0 x d s :
  J s0 x s → device_wf d → link_of d = link_of (device (stack s)) → J s0 x (with_device d s).
Proof. intros [[Hso Hre Hta Hro Hde Hke Hli] []] Hd Hl. split; constructor; try done. simpl; by rewrite Hl. Qed.
Lemma J_base s0 d d' x s :
  J (with_device d s0) x s → link_of d = link_of d' → J (with_device d' s0) x s.
Proof. intros [Hi []] Hl. split; [done|]. constructor; try done. by rewrite dr_link. Qed.
Lemma J_link s0 x s : J s0 x s → link_of (device (stack s)) = link_of (device (stack s0)).
Proof. by intros [_ []]. Qed.
Lemma J_device_wf s0 x s : J s0 x s → device_wf (device (stack s)).
Proof. by intros [[] _]. Qed.

(** The flags and the queue after a poll that calls registered wakers. *)
Definition with_ready (h : Flags) (q : ReadyState) s : Sys :=
  s <| shd ::= λ sh, sh <| flags := h |> <| ready := q |> |>.

Lemma J_poll {A D} `{Device D} s0 x (p : DevProg A) P (d : D) s :
  J s0 x s → polls (.∈ set_wakers (sockets (stack s))) P p →
  let r := run_prog p (Build_DevWorld d (flags (shd s)) (ready (shd s))) in
  (∃ a, r.1 = Some a ∧ P a) ∧ J s0 x (with_ready (dw_flags r.2) (dw_ready r.2) s).
Proof.
  intros HJ Hp. simpl.
  apply (run_prog_polls p _ P (λ h q, J s0 x (with_ready h q s)) _ Hp); simpl.
  - intros wk h q Hwk HJ'. assert (Hok : waker_ok wk).
    { eapply set_wakers_ok; [|exact Hwk]. apply (inv_sock _ _ (proj1 HJ)). }
    pose proof (J_wake (E:=E) s0 x wk _ HJ' Hok) as Hw. unfold after, wake in Hw. simpl in Hw.
    by destruct (mark_ready wk h q).
  - by destruct s as [st [] c o].
Qed.

Lemma J_evolves s0 x ss s : J s0 x s → evolves (sockets (stack s)) ss → J s0 x (with_sockets ss s).
Proof. intros HJ Hev. eapply J_sockets; [exact HJ|done|]. by apply sock_evolves. Qed.

Lemma poll_ingress_wp s0 x now packet (Q : bool → Sys → Prop) R s :
  J s0 x s → (∀ b s', J s0 x s' → Q b s') → wp (poll_ingress now packet) Q R s.
Proof.
  intros HJ HQ. unfold poll_ingress, wp.
  pose proof (J_poll s0 x (poll_ingress_single now (interface (stack s)) (sockets (stack s))) _
    (receive_one_new (device (stack s)) packet) s HJ (ingress_law now _ _)) as [([i ss] & Hi & Hev) HJ1].
  set (w := Build_DevWorld _ _ _) in *.
  pose proof (run_prog_effect (poll_ingress_single now (interface (stack s)) (sockets (stack s))) w) as He.
  pose proof (run_one_link (poll_ingress_single now (interface (stack s)) (sockets (stack s))) w) as Hl.
  destruct (run_prog _ w) as [res w']. simpl in *. subst res. apply HQ.
  pose proof (J_evolves _ _ ss _ HJ1 Hev) as HJ2.
  pose proof (J_device_same _ _ (one_device (dw_device w')) _ HJ2) as HJ3.
  specialize (HJ3 ltac:(apply (pe_wf _ _ He), (J_device_wf _ _ _ HJ)) Hl).
  destruct s as [st [] c o]. destruct HJ3 as [[] []]. by split; constructor.
Qed.

Lemma poll_egress_wp s0 x now (Q : PollResult → Sys → Prop) R s :
  J s0 x s → (∀ r s', J s0 x s' → Q r s') → wp (poll_egress_once now) Q R s.
Proof.
  intros HJ HQ. unfold poll_egress_once, wp.
  pose proof (J_poll s0 x (poll_egress now (interface (stack s)) (sockets (stack s))) _
    (device (stack s)) s HJ (egress_law now _ _)) as [([[i ss] r] & Hi & Hev) HJ1].
  set (w := Build_DevWorld _ _ _) in *.
  pose proof (run_prog_effect (poll_egress now (interface (stack s)) (sockets (stack s))) w) as He.
  pose proof (run_sends_link (poll_egress now (interface (stack s)) (sockets (stack s))) w (egress_sends now _ _)) as Hl.
  destruct (run_prog _ w) as [res w']. simpl in *. subst res. apply HQ.
  pose proof (J_evolves _ _ ss _ HJ1 Hev) as HJ2.
  pose proof (J_device_same _ _ (dw_device w') _ HJ2) as HJ3.
  specialize (HJ3 ltac:(apply (pe_wf _ _ He), (J_device_wf _ _ _ HJ)) Hl).
  destruct s as [st [] c o]. destruct HJ3 as [[] []]. by split; constructor.
Qed.

(** ** Reading packets *)
Lemma retarget_member_wp s0 x e h i l (Q : unit → Sys → Prop) R s :
  J s0 x s → tcp_listeners (stack s) !! i = Some l → h ∈ pool l → listen_port e ≠ 0%N →
  (∀ s', J s0 x s' → books s s' → Q tt s') → wp (retarget_member e h) Q R s.
Proof.
  intros HJ Hl Hh He HQ. destruct (sock_pool_handle _ _ _ _ _ _ _ _ _ (inv_sock _ _ (proj1 HJ)) Hl Hh) as (t & Ht & _).
  unfold retarget_member. st_steps. eapply wp_get_tcp; [done|]. st_steps; [|by apply HQ].
  pose proof (tcp_abort_ok t (J_tcp_wf _ _ _ _ _ HJ Ht)) as [Hw Hwf].
  eapply (wp_tcp_call s0 x h t); [done|done|done|done|by eapply closed_ok_pool|].
  intros s1 ss HJ1 -> Hwoke. pose proof (books_woke _ _ Hwoke) as Hb1. destruct Hwoke as [Hst _]. st_steps.
  apply get_tcp_set_get in Ht. destruct (set_put_spec h _ (Some (STcp (tcp_abort t).2)) _ Ht) as [Hg _].
  assert (Ht1 : get_tcp (sockets (stack s1)) h = Some (tcp_abort t).2).
  { apply get_tcp_set_get. rewrite Hst. simpl. by rewrite Hg, decide_True. }
  assert (Hpool : tcp_listeners (stack s1) !! i = Some l) by (by rewrite (bk_listeners _ _ Hb1)).
  eapply (wp_tcp_update s0 x h _); [exact HJ1|exact Ht1| |by eapply closed_ok_pool|].
  { exact (J_tcp_wf _ _ _ _ _ HJ1 Ht1). }
  intros ss2 HJ2 ->. st_steps. apply get_tcp_set_get in Ht1.
  destruct (set_put_spec h _ (Some (STcp (set_timeout (Some (Time.duration_from_millis CONNECT_TIMEOUT_MILLIS))
    (tcp_abort t).2))) _ Ht1) as [Hg1 _].
  eapply (expect_listen_wp s0 x h); [exact HJ2| | |done|intros t'; by eapply closed_ok_pool|].
  { apply get_tcp_set_get. simpl. by rewrite Hg1, decide_True. }
  { done. }
  intros s' HJ' Hb'. apply HQ; [done|]. etrans; [|exact Hb']. etrans; [|by apply books_sockets].
  etrans; [|exact Hb1]. by apply books_sockets.
Qed.

Lemma retarget_wildcard_listener_wp s0 x packet R s :
  J s0 x s → wp (retarget_wildcard_listener packet) (λ _, J s0 x) R s.
Proof.
  intros HJ. unfold retarget_wildcard_listener. pose proof (tcp_listener_target_safe packet) as Hsafe.
  destruct (tcp_listener_target packet) as [[dst p]|[]|]; [|done|done]. st_steps.
  eapply wp_mono; [apply (wp_for_each _ _ (λ s', J s0 x s' ∧ books s s'))| |done]; [done| |by intros [] ? []].
  intros h s1 Hh [HJ1 Hb]. unfold wildcard_handles in Hh.
  apply list_elem_of_In, in_concat in Hh as (hs & Hhs & Hh). apply list_elem_of_In in Hh.
  apply list_elem_of_In, list_elem_of_fmap in Hhs as (l & -> & Hl).
  unfold bmap_values in Hl. apply list_elem_of_fmap in Hl as ([i l'] & -> & Hl). apply elem_of_bmap_list in Hl. simpl in *.
  destruct (_ && _) eqn:Hc; [|by apply elem_of_nil in Hh].
  rewrite !andb_true_iff, N.eqb_eq in Hc. destruct Hc as [_ <-]. apply elem_of_bset_elems in Hh.
  eapply (retarget_member_wp s0 x _ h i l'); [done|by rewrite (bk_listeners _ _ Hb)|done| |].
  - simpl. apply (so_listeners _ _ _ _ _ _ (inv_sock _ _ (proj1 HJ)) _ _ Hl).
  - intros s2 HJ2 Hb2. split; [done|by etrans].
Qed.
End drive_wp.

Section resets_wp.
Context `{Beam, Mailbox, Engine, !EngineLaws} {E : Type}.
Implicit Types (s : Sys) (x : Held) (R : E → Sys → Prop).

Lemma wp_tcp_record i (Q : TcpRecord → Sys → Prop) (R : SocketError → Sys → Prop) s :
  (∀ r, tcp_records (stack s) !! id i = Some r → tr_identity r = i →
    is_listener (stack s) i = false → Q r s) →
  (∀ e, R e s) → wp (tcp_record i) Q R s.
Proof.
  intros HQ HR. unfold tcp_record. st_steps; try apply HR. apply HQ; [done| |done].
  by eapply bool_decide_eq_true_1.
Qed.

Lemma inbound_reset_wp s0 x packet (Q : option (SocketIdentity * ConnectFailure) → Sys → Prop) R s :
  J s0 x s → (∀ o, Q o s) → wp (inbound_reset packet) Q R s.
Proof.
  intros HJ HQ. unfold inbound_reset. pose proof (reset_endpoints_safe packet) as Hsafe.
  destruct (reset_endpoints packet) as [[l r]|[]|]; [|apply HQ|done]. st_steps; [|apply HQ].
  apply wp_tcp_record; [|intros e; apply HQ]. intros r0 Hr _ _.
  destruct (sock_tcp_handle _ _ _ _ _ _ _ _ (inv_sock _ _ (proj1 HJ)) Hr) as (t & Ht & _).
  st_steps. eapply wp_get_tcp; [exact Ht|]. apply HQ.
Qed.

(** The phase of a record moves to one in which its socket may be open. *)
Lemma J_phase s0 x i r p s :
  J s0 x s → tcp_records (stack s) !! i = Some r → idle p = false →
  J s0 x (with_records (<[i := r <| phase := p |>]> (tcp_records (stack s))) s).
Proof.
  intros [Hi Hdr] Hr Hp. split.
  - eapply (inv_record_update i r); try done.
    + destruct (so_records _ _ _ _ _ _ (inv_sock _ _ Hi) _ _ Hr) as (? & ? & ? & _).
      split_and!; try done. by destruct p.
    + intros d. exact (re_deadline _ _ _ _ _ _ _ _ _ (inv_reg _ _ Hi) i r d Hr).
    + intros t _. simpl. congruence.
    + simpl. congruence.
  - apply driven_records; [done|]. intros j r0 Hj _. destruct (decide (j = i)) as [->|Hne].
    + exists p. rewrite lookup_insert_eq. by simplify_eq.
    + exists (phase r0). rewrite lookup_insert_ne by done. rewrite Hj. by destruct r0.
Qed.

Lemma record_inbound_reset_wp s0 x reset R s :
  J s0 x s → wp (record_inbound_reset reset) (λ _, J s0 x) R s.
Proof.
  intros HJ. unfold record_inbound_reset. destruct reset as [[i failure]|]; [|done]. st_steps.
  apply wp_tcp_record; [|done]. intros r Hr Hid Hl.
  destruct (sock_tcp_handle _ _ _ _ _ _ _ _ (inv_sock _ _ (proj1 HJ)) Hr) as (t & Ht & _).
  st_steps. eapply wp_get_tcp; [exact Ht|]. st_steps; [|done].
  unfold tcp_record_mut. st_steps. apply wp_tcp_record; [|done]. intros r' Hr' _ _. simplify_eq.
  st_steps. by apply (J_phase s0 x (id (tr_identity r)) r).
Qed.
End resets_wp.

(** ** The loops of a drive *)
Section loops_wp.
Context `{Beam, Mailbox, Engine, !EngineLaws} {E : Type}.
Implicit Types (s : Sys) (x : Held) (R : E → Sys → Prop) (q : list bytes) (c : option EgressCredit).

(** Driven from [s0], with the packets [q] still to be read and the credit [c]. *)
Definition linked s0 x q c s : Prop :=
  J (with_device ((device (stack s0)) <| receive := q |> <| credit := c |>) s0) x s.

Lemma linked_intro s0 x s :
  J s0 x s → linked s0 x (receive (device (stack s0))) (credit (device (stack s0))) s.
Proof. intros [Hi []]. by split; [|constructor]. Qed.
Lemma linked_link s0 x q c s :
  linked s0 x q c s →
  receive (device (stack s)) = q ∧ credit (device (stack s)) = c
  ∧ receive_limit (device (stack s)) = receive_limit (device (stack s0)).
Proof. intros Hl%J_link. unfold link_of in Hl. simpl in Hl. by simplify_eq. Qed.
Lemma linked_move s0 x q c q' c' d s :
  linked s0 x q c s → device_wf d → receive d = q' → credit d = c' →
  receive_limit d = receive_limit (device (stack s)) → linked s0 x q' c' (with_device d s).
Proof.
  intros Hl Hd <- <- Hr. pose proof (linked_link _ _ _ _ _ Hl) as (_ & _ & Hr').
  pose proof (J_device _ _ d _ Hl Hd) as [Hi []]. split; [done|].
  constructor; try done. simpl. unfold link_of. simpl. congruence.
Qed.

(** What handing [out] to the link costs. *)
Definition spent c (out : list bytes) c' : Prop :=
  match c with
  | None => c' = None
  | Some k => ∃ k', c' = Some k' ∧ (packets k = packets k' + llen out)%N
      ∧ (credit_bytes k = credit_bytes k' + total_len out)%N
  end.
Lemma total_len_app out1 out2 : total_len (out1 ++ out2) = (total_len out1 + total_len out2)%N.
Proof. unfold total_len. by rewrite fmap_app, sum_N_app. Qed.
Lemma spent_app c out1 c1 out2 c2 : spent c out1 c1 → spent c1 out2 c2 → spent c (out1 ++ out2) c2.
Proof.
  destruct c as [k|]; simpl; [|by intros ->]. intros (k1 & -> & Hp1 & Hb1) (k2 & -> & Hp2 & Hb2).
  exists k2. split; [done|]. rewrite total_len_app. unfold llen in *. rewrite length_app. lia.
Qed.

Lemma take_output_wp s0 x q c pl bl (Q : list bytes → Sys → Prop) R s :
  linked s0 x q c s →
  (∀ out c' s', linked s0 x q c' s' → spent c out c' → (llen out <= pl ∧ total_len out <= bl)%N →
    Q out s') →
  wp (take_output pl bl) Q R s.
Proof.
  intros Hl HQ. pose proof (linked_link _ _ _ _ _ Hl) as (Hq & Hc & Hr).
  unfold take_output. apply wp_zoom.
  eapply wp_mono; [apply (take_transmit_wp budget_checkpoint pl bl); by eapply J_device_wf| |done].
  intros out [d b] (Htx & Hwf & Hlim & Hd & Hcr & _).
  apply (HQ out (credit d)); [|by rewrite Hc in Hcr|done].
  apply J_budget. eapply linked_move; [exact Hl|exact Hwf|by rewrite Hd|done|by rewrite Hd].
Qed.

(** The packets of a batch that the loop has yet to offer to the engine. *)
Definition to_read (q0 batch : list bytes) (acc : usize * usize * bool) q : Prop :=
  let '(work, taken, _) := acc in
  q ++ drop (N.to_nat taken) batch = drop (N.to_nat work) (q0 ++ batch).

Lemma to_read_next q0 batch work taken d p q :
  to_read q0 batch (work, taken, d) (p :: q) → to_read q0 batch ((work + 1)%N, taken, d) q.
Proof.
  unfold to_read. intros Hr. replace (N.to_nat (work + 1)) with (1 + N.to_nat work) by lia.
  rewrite Nat.add_comm, <-drop_drop, <-Hr. done.
Qed.
Lemma to_read_batch q0 batch work taken d p :
  to_read q0 batch (work, taken, d) [] → batch !! N.to_nat taken = Some p →
  to_read q0 batch ((work + 1)%N, (taken + 1)%N, d) [].
Proof.
  unfold to_read. simpl. intros Hr Hp. replace (N.to_nat (work + 1)) with (1 + N.to_nat work) by lia.
  replace (N.to_nat (taken + 1)) with (S (N.to_nat taken)) by lia.
  rewrite Nat.add_comm, <-drop_drop, <-Hr. by rewrite (drop_S batch p _ Hp).
Qed.

Lemma linked_request_closing s0 x q c s :
  linked s0 x q c s → linked s0 x q c (after (request_closing_cleanup (E:=E)) s).
Proof. apply J_request_closing_cleanup. Qed.
Lemma linked_request_listener s0 x q c s :
  linked s0 x q c s → linked s0 x q c (after (request_listener_scan (E:=E)) s).
Proof. apply J_request_listener_scan. Qed.

(** The ingress loop after [acc.1.1] packets. *)
Definition reading s0 x q0 c (batch : list bytes) (acc : usize * usize * bool) s : Prop :=
  ∃ q, linked s0 x q c s ∧ to_read q0 batch acc q ∧ (acc.1.1 <= l_input_packets (limits (stack s0)))%N.

Lemma linked_limits s0 x q c s : linked s0 x q c s → limits (stack s) = limits (stack s0).
Proof. intros [_ Hdr]. exact (dr_limits _ _ Hdr). Qed.
Lemma linked_take s0 x q c s :
  linked s0 x q c s → linked s0 x (tail q) c (with_device (take_receive (device (stack s))).2 s).
Proof.
  intros Hl. pose proof (linked_link _ _ _ _ _ Hl) as (Hq & Hc & _).
  unfold take_receive. rewrite Hq. pose proof (J_device_wf _ _ _ Hl) as Hwf.
  destruct q as [|p q]; eapply linked_move; try exact Hl; try done.
Qed.
Lemma linked_return s0 x q c p s :
  linked s0 x q c s → linked s0 x (p :: q) c (with_device (return_receive p (device (stack s))) s).
Proof.
  intros Hl. pose proof (linked_link _ _ _ _ _ Hl) as (Hq & Hc & _).
  pose proof (J_device_wf _ _ _ Hl) as Hwf.
  eapply linked_move; [exact Hl|done| |done|done]. simpl. by rewrite Hq.
Qed.

(** A packet is offered to the engine, which takes it or leaves it. *)
Lemma offer_wp {A} s0 x q c now packet (give keep : M Sys E A) (Q : A → Sys → Prop) R s :
  linked s0 x q c s → (∀ s', linked s0 x q c s' → wp give Q R s') →
  (∀ s', linked s0 x q c s' → wp keep Q R s') →
  wp (retarget_wildcard_listener packet) (λ _, wp (
      reset ← inbound_reset packet;
      received ← poll_ingress now packet;
      if negb received then give
      else record_inbound_reset reset ;; request_closing_cleanup ;; request_listener_scan ;; keep) Q R) R s.
Proof.
  intros Hl Hgive Hkeep. eapply wp_mono; [by eapply retarget_wildcard_listener_wp| |done].
  intros [] s1 Hl1. apply wp_bind. eapply inbound_reset_wp; [exact Hl1|]. intros reset.
  apply wp_bind. eapply poll_ingress_wp; [exact Hl1|]. intros [] s2 Hl2; [|by apply Hgive].
  apply wp_bind. eapply wp_mono; [by eapply record_inbound_reset_wp| |done].
  intros [] s3 Hl3. apply wp_bind. apply linked_request_closing in Hl3. apply wp_bind.
  apply linked_request_listener in Hl3. by apply Hkeep.
Qed.

Lemma ingress_turn_wp s0 x q0 c now batch acc R s :
  reading s0 x q0 c batch acc s →
  wp (ingress_turn now batch acc)
    (λ r s', reading s0 x q0 c batch r.1 s'
      ∧ (r.2 = true → r.1.1.1 = acc.1.1 + 1)%N) R s.
Proof.
  destruct acc as [[work taken] deferred]. intros (q & Hl & Hr & Hw). simpl in Hw.
  unfold ingress_turn. st_steps; try (split; [by exists q|done]).
  { split; [|done]. exists q. split; [by apply J_budget|done]. }
  all: match goal with Hb : _ && _ && _ = true |- _ => rewrite !andb_true_iff, orb_true_iff, !N.ltb_lt in Hb;
    destruct Hb as [[Hlt Hsome] _] end.
  all: rewrite (linked_limits _ _ _ _ _ Hl) in Hlt.
  all: pose proof (linked_link _ _ _ _ _ Hl) as (Hq & Hc & _).
  all: match goal with b : budget_state |- _ => pose proof (linked_take _ _ _ _ _ (J_budget _ _ _ b Hl)) as Hl1 end.
  all: match goal with Ht : (take_receive _).1 = _ |- _ => rename Ht into Hheld;
    change (device (stack (put_budget _ s))) with (device (stack s)) in Hheld;
    unfold take_receive in Hheld; rewrite Hq in Hheld end.
  - destruct q as [|p q]; simpl in Hheld; [done|]. injection Hheld as <-. eapply offer_wp; [exact Hl1| |].
    + intros s' Hl'. st_steps. split; [|done]. exists (p :: q). split; [|done]. by apply linked_return.
    + intros s' Hl'. st_steps. split; [|done]. exists q. split; [done|]. split; [by eapply to_read_next|simpl; lia].
  - destruct q as [|p q]; simpl in Hheld; [|done]. destruct Hsome as [Hsome|Hsome].
    { unfold has_receive in Hsome. by rewrite Hq in Hsome. }
    destruct (lookup_lt_is_Some_2 batch (N.to_nat taken)) as [p Hp]; [unfold llen in Hsome; lia|].
    apply wp_expect. exists p. split; [done|]. apply wp_bind. eapply offer_wp; [exact Hl1| |].
    + intros s' Hl'. st_steps. split; [|done]. by exists [].
    + intros s' Hl'. st_steps. split; [|done]. exists []. split; [done|].
      split; [by eapply to_read_batch|simpl; lia].
Qed.

Lemma ingress_loop_wp s0 x q0 c now batch R s :
  linked s0 x q0 c s →
  wp (while_loop (S (N.to_nat (l_input_packets (limits (stack s0))))) (ingress_turn now batch) (0%N, 0%N, false))
    (reading s0 x q0 c batch) R s.
Proof.
  intros Hl. set (lim := l_input_packets (limits (stack s0))).
  eapply (wp_while_loop _ _ (λ n acc s', reading s0 x q0 c batch acc s' ∧ (N.of_nat n + acc.1.1 = lim)%N) _ _
    (N.to_nat lim)).
  - split; [|simpl; lia]. exists q0. split; [done|]. split; [|simpl; lia]. by unfold to_read; simpl; rewrite !drop_0.
  - lia.
  - intros n acc s1 [Hr Hn]. eapply wp_mono; [by apply ingress_turn_wp| |done].
    intros [acc' []] s2 [Hr2 Hgo]; [|done]. specialize (Hgo eq_refl). simpl in Hgo.
    pose proof Hr2 as (_ & _ & _ & Hle). exists (n - 1). simpl in *. fold lim in Hle.
    split; [lia|]. split; [done|lia].
Qed.

Lemma egress_turn_wp s0 x q c now acc R s :
  let lim := l_maintenance_work (limits (stack s0)) in
  linked s0 x q c s → (acc.1.1.1 <= lim)%N →
  wp (egress_turn now acc)
    (λ r s', linked s0 x q c s' ∧ (r.1.1.1.1 <= lim)%N ∧ (r.2 = true → r.1.1.1.1 = acc.1.1.1 + 1)%N) R s.
Proof.
  destruct acc as [[[work attempted] remain] deferred]. simpl. intros Hl Hw.
  unfold egress_turn. st_steps; try done.
  { split; [by apply J_budget|done]. }
  match goal with Hb : _ && _ && _ = true |- _ => rewrite !andb_true_iff, !N.ltb_lt in Hb;
    destruct Hb as [[Hlt _] _] end.
  rewrite (linked_limits _ _ _ _ _ Hl) in Hlt.
  eapply poll_egress_wp; [by apply J_budget|]. intros [] s1 Hl1; simpl.
  - split; [done|]. split; [simpl; lia|done].
  - split; [by apply linked_request_listener, linked_request_closing|]. simpl. split; [lia|done].
Qed.

Lemma egress_loop_wp s0 x q c now work deferred R s :
  let lim := l_maintenance_work (limits (stack s0)) in
  linked s0 x q c s → (work <= lim)%N →
  wp (while_loop (S (N.to_nat lim)) (egress_turn now) (work, false, false, deferred))
    (λ acc s', linked s0 x q c s' ∧ (acc.1.1.1 <= lim)%N) R s.
Proof.
  intros lim Hl Hw.
  eapply (wp_while_loop _ _ (λ n acc s', linked s0 x q c s' ∧ (N.of_nat n + acc.1.1.1 = lim)%N) _ _
    (N.to_nat (lim - work))).
  - split; [done|simpl; lia].
  - lia.
  - intros n acc s1 [Hl1 Hn]. eapply wp_mono; [apply egress_turn_wp; [exact Hl1|fold lim; lia]| |done].
    intros [acc' []] s2 (Hl2 & Hle & Hgo); [|done]. specialize (Hgo eq_refl). simpl in *.
    exists (n - 1). fold lim in Hle. split; [lia|]. split; [done|lia].
Qed.

Lemma cleanup_before_wp s0 x q c now R s :
  linked s0 x q c s →
  wp (cleanup_before now)
    (λ r s', linked s0 x q c s' ∧ (r.1.1 <= l_maintenance_work (limits (stack s0)))%N) R s.
Proof.
  intros Hl. unfold cleanup_before. st_steps; [|split; [done|simpl; lia]].
  eapply wp_mono; [by eapply reap_closing_tcp_wp| |done]. intros [work more] s1 [Hl1 Hw]. st_steps.
  split; [done|]. simpl in *. rewrite (linked_limits _ _ _ _ _ Hl) in Hw. lia.
Qed.
Lemma cleanup_after_wp s0 x q c now work more ran R s :
  linked s0 x q c s → (work <= l_maintenance_work (limits (stack s0)))%N →
  wp (cleanup_after now work more ran)
    (λ r s', linked s0 x q c s' ∧ (r.1.1 <= l_maintenance_work (limits (stack s0)))%N) R s.
Proof.
  intros Hl Hw. unfold cleanup_after. st_steps; [|done].
  eapply wp_mono; [by eapply reap_closing_tcp_wp| |done]. intros [done more'] s1 [Hl1 Hd]. st_steps.
  split; [done|]. simpl in *. rewrite (linked_limits _ _ _ _ _ Hl) in Hd. unfold saturating_sub in Hd. lia.
Qed.

Section no_room.
Context (s0 : Sys) (x : Held) (Hfs : free_slots x = 0%N) (Hfb : free_bytes x = 0%N).

Lemma listeners_before_wp q c work R s :
  linked s0 x q c s → (work <= l_maintenance_work (limits (stack s0)))%N →
  wp (listeners_before work)
    (λ r s', linked s0 x q c s' ∧ (r.1.1 <= l_maintenance_work (limits (stack s0)))%N) R s.
Proof.
  intros Hl Hw. unfold listeners_before. st_steps; [|done].
  rewrite (linked_limits _ _ _ _ _ Hl) in *. set (rem := saturating_sub _ _) in *.
  eapply wp_mono; [by eapply refresh_listeners_wp| |done]. intros [done more] s1 [Hl1 Hd]. st_steps.
  split; [done|]. simpl in *. match goal with Hb : _ && _ && _ = true |- _ => rewrite !andb_true_iff, !N.ltb_lt in Hb end.
  assert (done <= rem)%N; [|unfold rem, saturating_sub in *; lia].
  assert (rem / 2 <= rem)%N by (apply N.Div0.div_le_upper_bound; lia).
  destruct (N.eqb_spec rem 1); lia.
Qed.
Lemma listeners_after_wp q c work more ran R s :
  linked s0 x q c s → (work <= l_maintenance_work (limits (stack s0)))%N →
  wp (listeners_after work more ran)
    (λ r s', linked s0 x q c s' ∧ (r.1.1 <= l_maintenance_work (limits (stack s0)))%N) R s.
Proof.
  intros Hl Hw. unfold listeners_after. st_steps; [|done].
  eapply wp_mono; [by eapply refresh_listeners_wp| |done]. intros [done more'] s1 [Hl1 Hd]. st_steps.
  split; [done|]. simpl in *. rewrite (linked_limits _ _ _ _ _ Hl) in Hd. unfold saturating_sub in Hd. lia.
Qed.

(** No work that a further call could do at once. *)
Definition nothing_left (st : NativeStack) : Prop :=
  transmit_ready (device st) = false ∧ has_receive (device st) && can_receive (device st) = false
  ∧ closing_cleanup_pending st = false ∧ listener_scan_pending st = false.

(** A drive that took [out] before its maintenance. *)
Record rested q c now (out : list bytes) (eff : Effects) s' : Prop := {
  re_output : ∃ more c', eff_output eff = out ++ more ∧ spent c more c' ∧ linked s0 x q c' s';
  re_packets : (llen (eff_output eff) <= l_output_packets (limits (stack s0)))%N;
  re_bytes : (total_len (eff_output eff) <= l_bytes_copied (limits (stack s0)))%N;
  re_work : (eff_maintenance_work eff <= l_maintenance_work (limits (stack s0)))%N;
  re_more : if eff_more eff then eff_poll_at eff = Some (Time.total_millis now)
            else nothing_left (stack s')
}.

(** The last part of a drive: nothing is changed any more but counters. *)
Lemma drive_end_wp q c c' now input_bytes ingress_work out add remain deferred work cm cr lm lr
    (Q : Effects → Sys → Prop) R s :
  linked s0 x q c' s → spent c add c' → (work <= l_maintenance_work (limits (stack s0)))%N →
  (llen (out ++ add) <= l_output_packets (limits (stack s0)))%N →
  (total_len (out ++ add) <= l_bytes_copied (limits (stack s0)))%N →
  (∀ eff s', rested q c now out eff s' → Q eff s') →
  wp (ms (λ st, st <| maintenance_cleanup_turn := negb cr && closing_cleanup_pending st |>
               <| listener_maintenance_turn := negb lr && listener_scan_pending st |>) ;;
  st ← gs (λ st, st);
  let egress_open := transmit_credit_available (device st) in
  let more :=
    transmit_ready (device st)
    || (has_receive (device st) && can_receive (device st))
    || (remain && egress_open)
    || cm || closing_cleanup_pending st
    || lm || listener_scan_pending st || deferred in
  bump (observe {| w_bytes_copied := N.max input_bytes (total_len (out ++ add));
                   w_input_packets := ingress_work; w_output_packets := llen (out ++ add);
                   w_ready_events := 0; w_maintenance_work := work |}) ;;
  bump (λ k, k <| emitted_packets ::= λ n, wrapping_add n (llen (out ++ add)) |>) ;;
  mret {| eff_output := out ++ add; eff_poll_at := next_poll now more egress_open st;
          eff_more := more; eff_maintenance_work := work |}) Q R s.
Proof.
  intros Hl Hs Hw Hop Hbc HQ. st_steps. apply HQ. constructor; try done.
  - exists add, c'. split; [done|]. split; [done|]. unfold linked in *. j_same.
  - cbn [eff_more eff_poll_at]. unfold nothing_left. simpl.
    destruct (_ || deferred) eqn:Hm; [done|]. repeat rewrite orb_false_iff in Hm. tauto.
Qed.

Lemma maintain_wp q c now R s :
  linked s0 x q c s → wp (maintain now) (λ _, linked s0 x q c) R s.
Proof.
  intros Hl. unfold maintain. apply wp_bind, wp_gs. destruct (maintenance_law now (interface (stack s))) as [i Hi].
  apply wp_bind, wp_expect. exists i. split; [done|]. apply wp_ms. unfold linked in *. j_same.
Qed.

Lemma drive_rest_wp q c now input_bytes ingress_work out deferred R s :
  linked s0 x q c s → (llen out <= l_output_packets (limits (stack s0)))%N →
  (total_len out <= l_bytes_copied (limits (stack s0)))%N →
  wp (drive_rest now input_bytes ingress_work out deferred) (rested q c now out) R s.
Proof.
  intros Hl Hop Hbc. unfold drive_rest. apply wp_bind, wp_within_budget. intros ok b.
  apply (J_budget _ _ _ b) in Hl. apply wp_bind.
  apply (wp_mono _ (λ _, linked s0 x q c) _ R); [apply wp_when; [intros _; by apply maintain_wp|done]| |done].
  intros [] s1 Hl1. apply wp_bind, wp_gs. apply wp_bind.
  pose proof (linked_limits _ _ _ _ _ Hl1) as Hlim.
  apply (wp_mono _ (λ _, linked s0 x q c) _ R); [apply wp_when; [intros _; by apply linked_request_closing|done]| |done].
  intros [] s2 Hl2. cbv zeta. apply wp_bind. eapply wp_mono; [by eapply cleanup_before_wp| |done].
  intros [[work cm] cr] s3 [Hl3 Hw3]. apply wp_bind. eapply wp_mono; [by eapply listeners_before_wp| |done].
  intros [[work4 lm] lr] s4 [Hl4 Hw4]. simpl in Hw4. apply wp_bind. rewrite Hlim.
  eapply wp_mono; [by eapply egress_loop_wp| |done].
  intros [[[work5 attempted] remain] deferred5] s5 [Hl5 Hw5]. simpl in Hw5. apply wp_bind.
  apply (wp_mono _ (λ _, linked s0 x q c) _ R); [| |done].
  { apply wp_when; [intros _|done]. apply wp_bind. apply linked_request_closing in Hl5.
    apply wp_when; [intros _; st_steps; unfold linked in *; j_same|done]. }
  intros [] s6 Hl6. apply wp_bind. eapply take_output_wp; [exact Hl6|].
  intros add c' s7 Hl7 Hs Hadd. apply wp_bind. eapply wp_mono; [by eapply cleanup_after_wp| |done].
  intros [[work8 cm8] cr8] s8 [Hl8 Hw8]. apply wp_bind. eapply wp_mono; [by eapply listeners_after_wp| |done].
  intros [[work9 lm9] lr9] s9 [Hl9 Hw9]. eapply drive_end_wp; try done; unfold saturating_sub in Hadd.
  - unfold llen in *. rewrite length_app. lia.
  - rewrite total_len_app. lia.
Qed.
End no_room.
End loops_wp.

(** ** A whole drive *)
Section drive_batch_wp.
Context `{Beam, Mailbox, Engine, !EngineLaws}.
Implicit Types (s : Sys) (x : Held).

(** What a drive of [batch] did: it read a prefix of the packets owed to the
    engine, in order and within the limit of the call; what it hands to the
    link is within the call's limits and paid for by the credit; and it does
    not go idle with work left. *)
Record drove s0 x now (batch : list bytes) (eff : Effects) s' : Prop := {
  dv_read : ∃ n c', (n <= l_input_packets (limits (stack s0)))%N
    ∧ spent (credit (device (stack s0))) (eff_output eff) c'
    ∧ linked s0 x (drop (N.to_nat n) (receive (device (stack s0)) ++ batch)) c' s';
  dv_packets : (llen (eff_output eff) <= l_output_packets (limits (stack s0)))%N;
  dv_bytes : (total_len (eff_output eff) <= l_bytes_copied (limits (stack s0)))%N;
  dv_work : (eff_maintenance_work eff <= l_maintenance_work (limits (stack s0)))%N;
  dv_more : if eff_more eff then eff_poll_at eff = Some (Time.total_millis now)
            else nothing_left (stack s')
}.

(** What is left of a batch fits the queue it is put in. *)
Lemma unread_fits q0 batch q work taken deferred lim :
  to_read q0 batch (work, taken, deferred) q →
  (llen q0 + llen batch <= lim)%N → (llen q + llen (drop (N.to_nat taken) batch) <= lim)%N.
Proof.
  unfold to_read, llen. intros Hr%(f_equal length). rewrite !length_app, !length_drop, !length_app in Hr. rewrite length_drop. lia.
Qed.

Lemma drive_batch_wp s0 x now batch copied s :
  J s0 x s → free_slots x = 0%N → free_bytes x = 0%N →
  batch = [] ∨ receive_fits (llen batch) (device (stack s0)) = true →
  wp (drive_batch now batch copied) (drove s0 x now batch) (λ _ _, False) s.
Proof.
  intros HJ Hfs Hfb Hfit. unfold drive_batch. apply linked_intro in HJ. pose proof (linked_limits _ _ _ _ _ HJ) as Hlim.
  apply wp_bind, wp_gs. apply wp_bind, wp_ms. rewrite Hlim.
  pose proof (linked_link _ _ _ _ _ HJ) as (Hq & Hc & Hrl).
  pose proof (linked_move _ _ _ _ _ _ (device_begin_call (l_output_packets (limits (stack s0))) (device (stack s)))
    s HJ (J_device_wf _ _ _ HJ) Hq Hc eq_refl) as Hl0.
  apply wp_bind. eapply take_output_wp; [exact Hl0|]. intros out c' s1 Hl1 Hs1 [Hop Hbc].
  apply wp_bind. eapply (wp_mono _ _ _ (λ _ _, False)); [by eapply ingress_loop_wp| |done].
  intros [[work taken] deferred] s2 (q & Hl2 & Hr & Hw). simpl in Hw. apply wp_bind.
  pose proof (linked_link _ _ _ _ _ Hl2) as (Hq2 & Hc2 & Hrl2).
  apply (wp_mono _ (λ _, linked s0 x (q ++ drop (N.to_nat taken) batch) c') _ (λ _ _, False)); [| |done].
  { case_bool_decide as Hun; cycle 1.
    { st_steps. by rewrite Hun, app_nil_r. }
    destruct Hfit as [->|Hfit]; [by rewrite drop_nil in Hun|]. unfold receive_fits, checked_add in Hfit.
    destruct (_ + _ <=? usize_max)%N eqn:Hmax; [|done].
    pose proof (unread_fits _ _ _ _ _ _ (receive_limit (device (stack s0))) Hr ltac:(lia)) as Hle.
    pose proof (unread_fits _ _ _ _ _ _ usize_max Hr ltac:(lia)) as Hle'.
    st_steps. unfold enqueue_receive_batch, receive_fits, checked_add.
    rewrite Hq2, Hrl2, (proj2 (N.leb_le _ usize_max)), (proj2 (N.leb_le _ _)) by lia. cbn [negb]. st_steps.
    eapply (linked_move _ _ _ _ _ _ ((device (stack s2)) <| receive ::= λ p, p ++ drop (N.to_nat taken) batch |>));
      [exact Hl2|exact (J_device_wf _ _ _ Hl2)|simpl; by rewrite Hq2|done|done]. }
  intros [] s3 Hl3. rewrite Hr in Hl3.
  eapply (wp_mono _ _ _ (λ _ _, False)); [by eapply (drive_rest_wp s0 x Hfs Hfb)| |done].
  intros eff s' [(add & c2 & Hout & Hs2 & Hl) Hp Hb Hwk Hmore]. constructor; try done.
  exists work, c2. split; [done|]. split; [|done]. rewrite Hout. by eapply spent_app.
Qed.
End drive_batch_wp.

(** ** Theorems about a drive *)
Section drive_theorems.
Context `{Beam, Mailbox, Engine, !EngineLaws}.
Implicit Types (s : Sys).

Definition counted (f : Counters → Counters) s : Sys := s <| stack ::= λ st, st <| counters ::= f |> |>.

Lemma drove_wf s0 x now batch eff s : drove s0 x now batch eff s → inv x s.
Proof. intros [(n & c & _ & _ & [Hi _])]. exact Hi. Qed.


(** What the packets of a batch are checked for. *)
Definition batch_ok (st : NativeStack) (packets : list bytes) : Prop :=
  (llen packets <= l_input_packets (limits st))%N
  ∧ Forall (λ p, raw_packet_ok p = true ∧ (llen p <= N.min (stack_mtu st) (l_bytes_copied (limits st)))%N) packets
  ∧ (total_len packets <= l_bytes_copied (limits st))%N
  ∧ receive_fits (llen packets) (device st) = true.

Lemma validate_packet_wp p s :
  wp (validate_packet p)
    (λ _ s', s' = s ∧ raw_packet_ok p = true ∧ (llen p <= N.min (stack_mtu (stack s)) (l_bytes_copied (limits (stack s))))%N)
    (λ e s', (∃ f, s' = counted f s) ∧ e ≠ OwnershipInvariantViolation) s.
Proof.
  unfold validate_packet. st_steps; [split; [by eexists|done]|]. rewrite validate_raw_packet_cases.
  destruct (raw_packet_ok p); simpl; [|split; [by eexists|done]].
  destruct (N.ltb_spec (N.min (stack_mtu (stack s)) (l_bytes_copied (limits (stack s)))) (llen p)); simpl; [split; [by eexists|done]|].
  by split_and!.
Qed.

(** A batch that is not accepted leaves only counters behind. *)
Definition unaccepted s (packets : list bytes) (e : StackError) s' : Prop :=
  (∃ f, s' = counted f s)
  ∧ (e = OwnershipInvariantViolation → receive_fits (llen packets) (device (stack s)) = false).

Lemma ingress_batch_wp packets now s :
  stack_wf s →
  wp (ingress_batch packets now)
    (λ eff s', lifecycle (stack s) = Running ∧ batch_ok (stack s) packets
      ∧ ∃ f, drove (counted f s) held_none now packets eff s')
    (unaccepted s packets) s.
Proof.
  intros Hwf. unfold ingress_batch.
  assert (Hs : ∀ e, e ≠ OwnershipInvariantViolation → unaccepted s packets e s)
    by (intros e He; split; [exists (λ c, c); by destruct s as [[] ? ? ?]|done]).
  apply wp_bind, wp_gs. apply wp_bind, wp_fail_if; [intros _; by apply Hs|]. intros Hrun.
  rewrite bool_decide_neq_false in Hrun. apply wp_bind, wp_fail_if; [intros _; by apply Hs|]. intros Hlen%N.ltb_ge. apply wp_bind.
  eapply (wp_mono _ (λ n s', s' = s ∧ n = total_len packets ∧ (n <= l_bytes_copied (limits (stack s)))%N
    ∧ Forall (λ p, raw_packet_ok p = true ∧ (llen p <= N.min (stack_mtu (stack s)) (l_bytes_copied (limits (stack s))))%N) packets) _
    (unaccepted s packets)); [| |done].
  { eapply wp_mono; [apply (wp_for_acc _ _ (λ l n s', s' = s ∧ (n + total_len l = total_len packets)%N
      ∧ (n <= l_bytes_copied (limits (stack s)))%N
      ∧ ∃ seen, packets = seen ++ l ∧ Forall (λ p, raw_packet_ok p = true
          ∧ (llen p <= N.min (stack_mtu (stack s)) (l_bytes_copied (limits (stack s))))%N) seen)
        (unaccepted s packets))| |done].
    - split_and!; [done|lia|lia|]. by exists [].
    - intros p l n s1 (-> & Htot & Hle & seen & Hpk & Hall). apply wp_bind.
      eapply wp_mono; [apply validate_packet_wp| |by intros e s1 [Hf He]; split]. intros [] s1 (-> & Hok & Hp).
      change (total_len (p :: l)) with (llen p + total_len l)%N in Htot.
      unfold checked_add. destruct (_ <=? usize_max)%N; [|by apply Hs].
      destruct (N.leb_spec (n + llen p) (l_bytes_copied (limits (stack s)))); [|by apply Hs]. st_steps.
      split_and!; [done|lia|lia|]. exists (seen ++ [p]). rewrite <-app_assoc. split; [done|].
      apply Forall_app. split; [done|]. by constructor.
    - intros n s1 (-> & Htot & Hle & seen & Hpk & Hall). rewrite app_nil_r in Hpk. subst seen.
      unfold total_len at 1 in Htot. simpl in Htot. split_and!; [done|lia|lia|done]. }
  intros n s1 (-> & -> & Hle & Hall). apply wp_bind, wp_gs. apply wp_bind, wp_fail_if.
  { intros Hn%negb_true_iff. split; [exists (λ c, c); by destruct s as [[] ? ? ?]|done]. }
  intros Hfit%negb_false_iff. apply wp_bind, wp_ms.
  set (s1 := s <| stack ::= _ |>). assert (Hi : stack_wf s1) by (by destruct Hwf; constructor).
  eapply (wp_mono _ _ _ (λ _ _, False));
    [apply (drive_batch_wp s1 held_none now packets); [by apply J_intro|done|done|by right]| |done].
  intros eff s' Hd. split; [done|]. split; [by split_and!|]. by eexists.
Qed.

End drive_theorems.

Section drive_sample.
#[local] Existing Instances idle_types idle_engine idle_beam idle_mailbox.

Lemma evolves_refl (ss : SocketSet) : evolves ss ss.
Proof.
  unfold evolves. apply Forall2_same_length_lookup_2; [done|]. intros i o o' H1 H2. simplify_eq.
  destruct o as [[t|u]|]; constructor; unfold socket_evolves; [split_and!|]; (done || lia || by intros ?).
Qed.
#[export] Instance idle_laws : EngineLaws.
Proof. constructor; intros; simpl; [split; [|intros packet]|..]; try done; apply evolves_refl. Qed.

(** A packet of an experimental protocol from 10.0.0.2 to 10.0.0.1. *)
Definition sample_packet : bytes :=
  [Byte.x45; Byte.x00; Byte.x00; Byte.x14; Byte.x00; Byte.x00; Byte.x00; Byte.x00; Byte.x40; Byte.xfd;
   Byte.x65; Byte.xeb; Byte.x0a; Byte.x00; Byte.x00; Byte.x02; Byte.x0a; Byte.x00; Byte.x00; Byte.x01].


End drive_sample.
