(* ===== verification/Settle.v ===== *)
(** * What a call settles

    Every call of the stack ends with [finish_call]. This file states what a
    call owes and pays: the waiters it was asked to notify, the messages it
    sends, the packets it hands to the link and the credit they cost. The
    files of the calls prove that each of them settles its account. *)
From S2P Require Import Prelude Budget Waiter SocketTable Wire TcpSupport Device Packet Smol.
From S2P Require Import Stack Create Readiness Invariant Maintenance Drive.

Section ledger.
Context `{SmolTypes}.
Implicit Types (s : Sys).

(** The waiters the stack owes a message: those of the table, and those whose
    abort is pending. *)
Definition note_held (n : PendingNotification) : held :=
  (ready_key (pn_identity n) (pn_direction n), pn_waiter n).
Definition owed s : list held :=
  table_held (socket_table (stack s)) ++ (note_held <$> pending_notifications (stack s)).

(** The link's side of a device: untouched, or driven with this output. *)
Definition handed (o : option (list bytes)) (d d' : BeamDevice) : Prop :=
  match o with
  | None => link_of d' = link_of d
  | Some out => (∃ n, receive d' = drop n (receive d)) ∧ spent (credit d) out (credit d')
  end.

(** A call that began in [s0] has reached [s]: it took the waiters [ins] into
    the table and [taken] out of it, and has not sent a message yet. *)
Record during s0 (ins taken : list held) (o : option (list bytes)) s : Prop := {
  du_limits : limits (stack s) = limits (stack s0);
  du_lifecycle : lifecycle (stack s) = lifecycle (stack s0);
  du_reason : shutdown_reason (stack s) = shutdown_reason (stack s0);
  du_pending : pending_notifications (stack s) = pending_notifications (stack s0);
  du_outbox : outbox s = outbox s0;
  du_held : table_held (socket_table (stack s0)) ++ ins ≡ₚ table_held (socket_table (stack s)) ++ taken;
  du_link : handed o (device (stack s0)) (device (stack s))
}.

(** A refused call leaves what is owed, and the link, as they were. *)
Definition refused s0 s : Prop := during s0 [] [] None s.

(** The waiter a call promised to notify is new, or was already there. *)
Definition arms (promise : option held) s0 (ins : list held) : Prop :=
  match promise with
  | None => ins = []
  | Some w => ins = [w] ∨ (ins = [] ∧ w ∈ table_held (socket_table (stack s0)))
  end.

(** A call that returned [env]: what was owed and what it armed is what is
    still owed, what it cancelled, and one message each for the rest. *)
Record settled s0 (promise : option held) (gone : list held) {A} (env : Envelope A) s' : Prop := {
  se_limits : limits (stack s') = limits (stack s0);
  se_lifecycle : lifecycle (stack s') = lifecycle (stack s0);
  se_reason : shutdown_reason (stack s') = shutdown_reason (stack s0);
  se_ledger : ∃ ins done outs, arms promise s0 ins
    ∧ messages s' = messages s0 ++ (abort_of (stack s0) <$> done) ++ (select_of <$> outs)
    ∧ owed s0 ++ ins ≡ₚ owed s' ++ gone ++ (note_held <$> done) ++ outs
    ∧ (outs = [] ∨ lifecycle (stack s0) = Running)
    ∧ (llen done + llen outs <= l_ready_events (limits (stack s0)))%N;
  se_link : handed (Some (output env)) (device (stack s0)) (device (stack s'));
  se_rest : more env = false → pending_notifications (stack s') = []
    ∧ (lifecycle (stack s0) = Running → ∀ k, ¬ woken (get_table s') k)
}.

Lemma handed_out d d' : handed None d d' → handed (Some []) d d'.
Proof.
  unfold handed, link_of. intros [= Hr _ Hc]. split; [by exists 0; rewrite Hr|].
  rewrite Hc. unfold spent. destruct (credit d) as [k|]; [|done]. exists k.
  unfold total_len, llen. simpl. split_and!; [done|lia|lia].
Qed.
Lemma handed_link o d d1 d2 : link_of d2 = link_of d1 → handed o d d1 → handed o d d2.
Proof.
  intros Hl. destruct o as [out|]; simpl; [|congruence].
  unfold link_of in Hl. injection Hl as -> _ ->. done.
Qed.

Lemma during_refl s : during s [] [] None s.
Proof. by constructor. Qed.
Lemma during_driven s0 ins taken o s s' :
  driven s s' → during s0 ins taken o s → during s0 ins taken o s'.
Proof.
  intros [] []. constructor; try congruence; [by rewrite dr_held|]. by eapply handed_link.
Qed.
Lemma during_end s0 ins taken s : during s0 ins taken None s → during s0 ins taken (Some []) s.
Proof. intros []. constructor; try done. by apply handed_out. Qed.
Lemma J_during s0 x s : J s0 x s → during s0 [] [] None s.
Proof. intros [_ Hd]. eapply during_driven; [exact Hd|apply during_refl]. Qed.
Lemma refused_driven s0 s s' : refused s0 s → driven s s' → refused s0 s'.
Proof. intros Hr Hd. by eapply during_driven. Qed.
End ledger.

(** A change of fields that [during] does not mention. *)
Ltac du_same := match goal with Hd : during _ _ _ _ _ |- during _ _ _ _ _ => destruct Hd; constructor; assumption end.

(** ** Ending a call *)
Section finish.
Context `{Beam, Mailbox, Engine} {E : Type}.
Implicit Types (s : Sys) (x : Held) (R : E → Sys → Prop).

Lemma inv_finished x s aborts done outs s' : inv x s → finished s aborts done outs s' → inv x s'.
Proof.
  intros [Hso Hre Hta Hro Hde Hke Hli] [Hc (Hwf & _) [Hsh (Hm & Hw & Hn & _)] _ _ _ _ Hk].
  pose proof (λ A (f : NativeStack → A), f_equal f Hc) as Hf.
  pose proof (Hf _ limits) as E1. pose proof (Hf _ sockets) as E2. pose proof (Hf _ tcp_records) as E3.
  pose proof (Hf _ tcp_listeners) as E4. pose proof (Hf _ udp_records) as E5.
  pose proof (Hf _ lifecycle) as E6. pose proof (Hf _ closing_tcp) as E7.
  pose proof (Hf _ closing_deadlines) as E8. pose proof (Hf _ device) as E9.
  simpl in *. constructor.
  - by rewrite E1, E2, E3, E4, E5.
  - rewrite E3, E4, E5, E6, E7, E8. eapply reg_shape; [exact Hsh|rewrite Hn; reflexivity|exact Hre].
  - done.
  - by rewrite E1, Hm, Hw.
  - by rewrite E9.
  - rewrite E6. intros Hr. by apply Hk, Hke.
  - by rewrite E1.
  - by rewrite E3, E4, E5, Hn.
Qed.

Lemma finish_wp {A} s0 promise gone ins taken x (res : A) eff aborts (Q : Envelope A → Sys → Prop) R s :
  inv x s → during s0 ins taken (Some (eff_output eff)) s → arms promise s0 ins →
  taken ≡ₚ gone ++ (note_held <$> aborts) →
  (∀ env s', inv x s' → settled s0 promise gone env s' → result env = res →
    core (stack s') = core (stack s) → Q env s') →
  wp (finish_call res eff aborts) Q R s.
Proof.
  intros Hi Hdu Har Htk HQ. eapply wp_mono; [apply finish_call_wp, Hi| |done].
  intros env s' [(done & outs & Hf) ->]. pose proof (inv_finished _ _ _ _ _ _ Hi Hf) as Hi'.
  destruct Hf as [Hc (Hwf & _ & Hheld) Hsh Hout Hpend Hro Hb Hk]. destruct Hdu as [E1 E2 E3 E4 E5 Hh Hl].
  apply HQ; [done| |done|done]. constructor; simpl.
  - by rewrite <-E1; apply (f_equal limits) in Hc.
  - by rewrite <-E2; apply (f_equal lifecycle) in Hc.
  - by rewrite <-E3; apply (f_equal shutdown_reason) in Hc.
  - exists ins, done, outs. split; [done|]. split_and!; [| |by rewrite <-E2|by rewrite <-E1].
    + unfold messages in *. rewrite Hout, E5. f_equal. f_equal. unfold abort_of, abort_reason. by rewrite E2, E3.
    + unfold owed. rewrite app_nil_r in Hheld. simpl in Hheld.
      assert (Hp : (note_held <$> pending_notifications (stack s0)) ++ (note_held <$> aborts)
        = (note_held <$> done) ++ (note_held <$> pending_notifications (stack s')))
        by (rewrite <-!fmap_app; f_equal; congruence).
      rewrite <-app_assoc, (Permutation_app_comm _ ins), app_assoc, Hh, Htk, Hheld.
      transitivity (table_held (socket_table (stack s')) ++ outs ++ gone ++
        ((note_held <$> pending_notifications (stack s0)) ++ (note_held <$> aborts))); [solve_Permutation|].
      rewrite Hp. solve_Permutation.
  - apply (f_equal device) in Hc. simpl in Hc. by rewrite Hc.
  - intros [_ Hm]%orb_false_iff. destruct (readiness_settled _ Hm) as [Hp Hw]. split; [done|].
    intros Hr. apply Hw, Hk; [by rewrite E2|]. apply Hi. by rewrite E2.
Qed.
End finish.

(** ** Steps that calls share *)
Section steps_wp.
Context `{Beam, Mailbox, Engine, !EngineLaws} {E : Type}.
Implicit Types (s : Sys) (x : Held) (R : E → Sys → Prop).

Lemma during_drove s0 ins taken x now batch eff s s' :
  during s0 ins taken None s → receive (device (stack s)) ++ batch = receive (device (stack s)) →
  drove s x now batch eff s' → during s0 ins taken (Some (eff_output eff)) s'.
Proof.
  intros [E1 E2 E3 E4 E5 Hh Hl] Hb [(n & c & _ & Hs & Hlk) _ _ _ _]. rewrite Hb in Hlk.
  pose proof (linked_link _ _ _ _ _ Hlk) as (Hq & Hc & _). destruct Hlk as [_ []]. simpl in *.
  unfold link_of in Hl. injection Hl as Hr _ Hcr.
  constructor; try congruence; [by rewrite dr_held|]. simpl. rewrite Hq, Hc, <-Hr, <-Hcr.
  split; [by eexists|done].
Qed.

Lemma expect_drive_wp s0 ins taken x now copied (Q : Effects → Sys → Prop) R s :
  inv x s → during s0 ins taken None s → free_slots x = 0%N → free_bytes x = 0%N →
  (∀ eff s', inv x s' → during s0 ins taken (Some (eff_output eff)) s' →
    (∃ d, driven (with_device d s) s') → Q eff s') →
  wp (expect_drive now copied) Q R s.
Proof.
  intros Hi Hdu Hfs Hfb HQ. unfold expect_drive, drive. apply wp_expect_ok.
  eapply (wp_mono _ _ _ (λ _ _, False));
    [apply (drive_batch_wp s x now [] copied); [by apply J_intro|done|done|by left]| |done].
  intros eff s' Hd. apply HQ; [by eapply drove_wf| |].
  - eapply during_drove; [exact Hdu|by rewrite app_nil_r|exact Hd].
  - destruct Hd as [(n & c & _ & _ & [_ Hd]) _ _ _ _]. by eexists.
Qed.
(** Removing every socket a call holds. *)
Lemma remove_all_tcp_wp s0 x hs (Q : unit → Sys → Prop) R s :
  J s0 x s → held_tcp x ≡ₚ hs →
  (∀ ss n, J s0 (x <| held_tcp := [] |> <| free_slots := n |>) (with_sockets ss s) → Q tt (with_sockets ss s)) →
  wp (for_each hs remove_socket) Q R s.
Proof.
  revert x s. induction hs as [|h hs IH]; intros x s HJ Hh HQ; simpl.
  - apply wp_ret. replace s with (with_sockets (sockets (stack s)) s) by (by destruct s as [[] ? ? ?]).
    apply (HQ _ 0%N). replace (with_sockets _ s) with s by (by destruct s as [[] ? ? ?]).
    eapply J_weaken; [..|exact HJ]; simpl; try done; first [by rewrite Hh|lia].
  - apply wp_bind. eapply wp_remove_tcp; [exact HJ|exact Hh|]. intros ss HJ1.
    eapply IH; [exact HJ1|done|]. intros ss' n HJ'. exact (HQ ss' n HJ').
Qed.
Lemma remove_all_udp_wp s0 x hs (Q : unit → Sys → Prop) R s :
  J s0 x s → held_udp x ≡ₚ hs →
  (∀ ss n, J s0 (x <| held_udp := [] |> <| free_slots := n |>) (with_sockets ss s) → Q tt (with_sockets ss s)) →
  wp (for_each hs remove_socket) Q R s.
Proof.
  revert x s. induction hs as [|h hs IH]; intros x s HJ Hh HQ; simpl.
  - apply wp_ret. replace s with (with_sockets (sockets (stack s)) s) by (by destruct s as [[] ? ? ?]).
    apply (HQ _ 0%N). replace (with_sockets _ s) with s by (by destruct s as [[] ? ? ?]).
    eapply J_weaken; [..|exact HJ]; simpl; try done; first [by rewrite Hh|lia].
  - apply wp_bind. eapply wp_remove_udp; [exact HJ|exact Hh|]. intros ss HJ1.
    eapply IH; [exact HJ1|done|]. intros ss' n HJ'. exact (HQ ss' n HJ').
Qed.

(** The same sockets are removed whatever the records are. *)
Lemma wp_remove_socket h (Q : unit → Sys → Prop) R s :
  wp (remove_socket h) Q R s ↔
  is_Some (set_get (sockets (stack s)) h) ∧ Q tt (with_sockets (set_put h None (sockets (stack s))) s).
Proof.
  unfold wp, remove_socket, gs, ms, gets, modify, expect, mbind, M_bind.
  destruct (set_get (sockets (stack s)) h) as [t|]; simpl.
  - split; [intros HQ; split; [by eexists|exact HQ]|by intros [_ HQ]].
  - split; [done|by intros [[] _]].
Qed.
Lemma remove_all_other hs (Q : unit → Sys → Prop) R s s1 :
  sockets (stack s1) = sockets (stack s) →
  wp (for_each hs remove_socket) (λ _ s1', Q tt (with_sockets (sockets (stack s1')) s)) R s1 →
  wp (for_each hs remove_socket) Q R s.
Proof.
  revert s s1. induction hs as [|h hs IH]; intros s s1 Hs Hw; simpl in *.
  - unfold wp in *. simpl in *. rewrite Hs in Hw. by destruct s as [[] ? ? ?].
  - apply wp_bind. apply wp_bind, wp_remove_socket in Hw as [Hh Hw]. apply wp_remove_socket.
    rewrite Hs in Hh, Hw. split; [exact Hh|]. exact (IH (with_sockets _ s) (with_sockets _ s1) eq_refl Hw).
Qed.
End steps_wp.

Section table_wp.
Context `{Beam, Mailbox, Engine}.
Implicit Types (s : Sys) (x : Held) (R : SocketError → Sys → Prop).

Lemma during_table s0 ins taken ins' taken' o t' s :
  during s0 ins taken o s → op_post (get_table s) ins' taken' t' →
  during s0 (ins ++ ins') (taken ++ taken') o (put_table t' s).
Proof.
  intros [] (_ & _ & Hp). constructor; try done. simpl in *.
  rewrite app_assoc, du_held0, <-app_assoc, (Permutation_app_comm taken ins'), app_assoc, Hp.
  by rewrite <-app_assoc, (Permutation_app_comm taken' taken).
Qed.

Definition reg_held (r : WaiterRegistration) : held :=
  (ready_key (reg_identity r) (reg_direction r),
   waiter_new (reg_pid r) (reg_operation r) (reg_reference r)).

Lemma install_waiter_already r t :
  wp (install_waiter r) (λ res _, res = AlreadyArmed → reg_held r ∈ table_held (table t)) (λ _ _, True) t.
Proof.
  unfold install_waiter, put_entry. wp_steps; try done; [| |apply validate_no_panic].
  - intros _. match goal with Hv : validate _ _ _ = Ok ?e |- _ => apply validate_Ok in Hv as (He & _ & _) end.
    match goal with Hm : _ && _ = true |- _ => rewrite waiter_same, bool_decide_eq_true in Hm; subst end.
    unfold table_held. apply elem_of_bmap_flat. do 2 eexists. split; [exact He|].
    unfold reg_held, entry_held. simpl.
    destruct (reg_identity r), (reg_direction r); simpl in *;
      match goal with Hw : _ = Some _ |- _ => rewrite Hw end; set_solver.
  - match goal with Hv : validate _ _ _ = Ok ?e |- _ => apply validate_Ok in Hv as (He & _ & _) end.
    apply wp_expect. eexists. split; [exact He|]. by wp_steps.
Qed.

(** Registering the waiter of a call. *)
Lemma wp_install s0 o x reg (Q : InstallResult → Sys → Prop) R s :
  inv x s → during s0 [] [] o s →
  (∀ res ins t', inv x (put_table t' s) → during s0 ins [] o (put_table t' s) →
    arms (Some (reg_held reg)) s0 ins → same_shape (get_table s) t' → Q res (put_table t' s)) →
  (∀ e, R e s) → wp (on_table (install_waiter reg)) Q R s.
Proof.
  intros Hi Hdu HQ HR. pose proof (inv_table _ _ Hi) as Hwf. apply wp_zoom.
  eapply wp_mono;
    [exact (wp_conj _ _ _ _ _ _ (install_waiter_spec reg _ Hwf)
      (wp_conj _ _ _ _ _ _ (install_waiter_calm reg _ Hwf) (install_waiter_already reg _)))| |].
  - intros res t' (Hp & [Hsh Hc] & Hal). pose proof (during_table _ _ _ _ _ _ _ _ Hdu Hp) as Hdu'.
    eapply HQ; [by eapply inv_table_step|exact Hdu'| |done]. simpl. destruct res; [by left|right].
    split; [done|]. specialize (Hal eq_refl). pose proof (du_held _ _ _ _ _ Hdu) as Hh. rewrite !app_nil_r in Hh.
    by rewrite Hh.
  - intros e t' (_ & -> & _). assert (put_table (get_table s) s = s) as -> by (by destruct s as [[] ? ? ?]). apply HR.
Qed.

(** Closing a socket of the table; its record is dealt with next. *)
Lemma wp_close s0 ins taken o x i (Q : list (Direction * Waiter) → Sys → Prop) R s :
  inv x s → during s0 ins taken o s →
  (∀ ws t', inv (x <| exempt ::= λ X, {[id i]} ∪ X |>) (put_table t' s) →
    during s0 ins (taken ++ given i ws) o (put_table t' s) →
    table_entries (table t') = delete (id i) (table_entries (socket_table (stack s))) →
    next_socket_id (shared t') = next_socket_id (shd s) →
    (∃ e, table_entries (socket_table (stack s)) !! id i = Some (generation i, e)) → Q ws (put_table t' s)) →
  (∀ e, (∀ e', table_entries (socket_table (stack s)) !! id i ≠ Some (generation i, e')) → R e s) →
  wp (on_table (table_close i)) Q R s.
Proof.
  intros Hi Hdu HQ HR. pose proof (inv_table _ _ Hi) as Hwf. apply wp_zoom.
  eapply wp_mono;
    [exact (wp_conj _ _ _ _ _ _ (table_close_spec i _ Hwf) (table_close_calm i _ Hwf))| |].
  - intros ws t' ((Hp & (e & He & _) & _) & Hes & (Hm & Hw & Hn & _) & Hc).
    pose proof (during_table _ _ _ _ _ _ _ _ Hdu Hp) as Hdu'. rewrite app_nil_r in Hdu'.
    apply HQ; [|done|done|done|by exists e]. destruct Hi as [Hso Hre Hta Hro Hde Hke Hli]. simpl in *.
    constructor; simpl; try done.
    + eapply sock_weaken; [..|exact Hso]; simpl; try done. set_solver.
    + eapply (reg_change _ (id i)); [| | | | | | | |eapply (reg_weaken x); [|reflexivity|exact Hre]];
        simpl; try done; try (clear; set_solver).
      * rewrite Hn. reflexivity.
      * intros j Hj. by rewrite Hes, lookup_delete_ne.
      * rewrite Hn. apply Hre.
      * intros g e0. by rewrite Hes, lookup_delete_eq.
      * apply Hre.
      * by rewrite Hes, lookup_delete_eq.
      * intros r d. apply Hre.
    + destruct Hp as (Hwf' & _). by destruct t'.
    + by rewrite Hm, Hw.
    + intros Hr. apply kept_calm; [done|]. by apply Hke.
    + rewrite Hn. eapply (queue_weaken x); [simpl; clear; set_solver|reflexivity|done].
  - intros e t' (_ & -> & Hne). assert (put_table (get_table s) s = s) as -> by (by destruct s as [[] ? ? ?]).
    by apply HR.
Qed.

(** The records of a registered socket are those of its kind. *)
Lemma registered_unique t i k j k' : registered t i k → registered t j k' → id j = id i → j = i ∧ k' = k.
Proof.
  intros (e & He & <-) (e' & He' & <-) Hid. rewrite Hid, He in He'. destruct i, j. by simplify_eq/=.
Qed.
Lemma registered_udp s i :
  stack_wf s → lifecycle (stack s) = Running → registered (socket_table (stack s)) i Udp →
  tcp_records (stack s) !! id i = None ∧ tcp_listeners (stack s) !! id i = None.
Proof.
  intros [Hso Hre _ _ _ _ _] Hrun Hreg.
  assert (Hu : ∀ j k, recorded (tcp_records (stack s)) (tcp_listeners (stack s)) (udp_records (stack s))
    (closing_tcp (stack s)) j k → id j = id i → k = Udp).
  { intros j k Hrec Hid. apply (re_registered _ _ _ _ _ _ _ _ _ Hre Hrun) in Hrec; [|set_solver].
    by destruct (registered_unique _ _ _ _ _ Hreg Hrec Hid). }
  split; apply eq_None_not_Some.
  - intros [r Hr]. destruct (so_records _ _ _ _ _ _ Hso _ _ Hr) as (Hid & _).
    discriminate (Hu (tr_identity r) Tcp); [|done]. left. exists r. rewrite Hid. split_and!; [done|done|].
    intros Hc%(re_closing _ _ _ _ _ _ _ _ _ Hre). destruct Hreg as (e & He & _). congruence.
  - intros [l Hl]. destruct (so_listeners _ _ _ _ _ _ Hso _ _ Hl) as (Hid & _).
    discriminate (Hu (lr_identity l) Tcp); [|done]. right. exists l. by rewrite Hid.
Qed.

(** A socket of which nothing is left. *)
Lemma inv_gone i x s :
  inv (x <| exempt ::= λ X, {[i]} ∪ X |>) s →
  table_entries (socket_table (stack s)) !! i = None → tcp_records (stack s) !! i = None →
  tcp_listeners (stack s) !! i = None → udp_records (stack s) !! i = None → inv x s.
Proof.
  intros Hi Ht Hr Hl Hu. eapply (inv_unexempt i); [..|exact Hi]; simpl; try done.
  - by rewrite Hr.
  - intros g k (e & He & _). simpl in He. congruence.
  - intros _ g k. unfold recorded. simpl. rewrite Hr, Hl, Hu. destruct k; naive_solver.
  - intros j l c Hj _ [Hji|Hci]; [congruence|]. intros _ _. by rewrite Hci, Hl, Hu, Hr.
Qed.
End table_wp.

(** ** What a call must show

    The hints [calls] are the results of the methods, one [call_ok] each. *)
Create HintDb calls.
Section calls_ok.
Context `{Beam, Mailbox, Engine} {E : Type}.
Implicit Types (s : Sys) (x : Held) (R : E → Sys → Prop).

Definition answers {A} (promise : A → option held) s0 (env : Envelope A) s' : Prop :=
  stack_wf s' ∧ settled s0 (promise (result env)) [] env s'.
Definition refuses s0 (e : E) s' : Prop := stack_wf s' ∧ refused s0 s'.

(** The call never panics, keeps the invariant, settles its account when it
    answers and changes nothing that is owed when it refuses. *)
Definition call_ok {A} (m : M Sys E (Envelope A)) (promise : A → option held) s : Prop :=
  wp m (answers promise s) (refuses s) s.

Definition nothing {A} (_ : A) : option held := None.

Lemma refuses_same s e : stack_wf s → refuses s e s.
Proof. intros Hi. split; [done|]. apply during_refl. Qed.
Lemma refuses_J s x e s' :
  J s x s' → held_tcp x = [] → held_udp x = [] → exempt x = ∅ → refuses s e s'.
Proof. intros [Hi Hd] Ht Hu He. split; [by eapply inv_done|]. eapply refused_driven; [apply during_refl|done]. Qed.

Lemma finish_says {A} s0 promise ins aborts x (res : A) eff R s :
  inv x s → held_tcp x = [] → held_udp x = [] → exempt x = ∅ →
  during s0 ins (note_held <$> aborts) (Some (eff_output eff)) s → arms (promise res) s0 ins →
  wp (finish_call res eff aborts) (λ env s', answers promise s0 env s' ∧ result env = res) R s.
Proof.
  intros Hi Ht Hu He Hdu Har. eapply (finish_wp s0 (promise res) []); [exact Hi|exact Hdu|exact Har|done|].
  intros env s' Hi' Hs Hr _. split; [|done]. split; [by eapply inv_done|]. by rewrite Hr.
Qed.
Lemma finish_answers {A} s0 promise ins aborts x (res : A) eff R s :
  inv x s → held_tcp x = [] → held_udp x = [] → exempt x = ∅ →
  during s0 ins (note_held <$> aborts) (Some (eff_output eff)) s → arms (promise res) s0 ins →
  wp (finish_call res eff aborts) (answers promise s0) R s.
Proof.
  intros Hi Ht Hu He Hdu Har. eapply wp_mono; [by eapply finish_says| |done]. by intros env s' [].
Qed.

(** A call that changed nothing but what [driven] allows, and does not drive. *)
Lemma finish_plain {A} promise x (res : A) at_ more work R s0 s :
  J s0 x s → held_tcp x = [] → held_udp x = [] → exempt x = ∅ → promise res = None →
  wp (finish_call res {| eff_output := []; eff_poll_at := at_; eff_more := more; eff_maintenance_work := work |} [])
    (answers promise s0) R s.
Proof.
  intros [Hi Hd] Ht Hu He Hp. eapply finish_answers; [exact Hi|done|done|done| |by rewrite Hp].
  eapply during_driven; [exact Hd|]. constructor; try done. by apply handed_out.
Qed.
End calls_ok.

Section guards.
Context `{Beam, Mailbox, Engine}.
Implicit Types (s : Sys) (x : Held) (R : SocketError → Sys → Prop).

Lemma wp_ensure_running (Q : unit → Sys → Prop) R s :
  (lifecycle (stack s) = Running → Q tt s) → (∀ e, R e s) → wp ensure_running Q R s.
Proof. intros HQ HR. unfold ensure_running. st_steps. destruct (lifecycle (stack s)); [by apply HQ|apply HR..]. Qed.

Lemma wp_validate i kind (Q : SocketEntry → Sys → Prop) R s :
  (∀ e, registered (socket_table (stack s)) i kind → Q e s) → (∀ e, R e s) →
  wp (lift_outcome (validate (socket_table (stack s)) i kind)) Q R s.
Proof.
  intros HQ HR. pose proof (validate_no_panic (socket_table (stack s)) i kind).
  destruct (validate (socket_table (stack s)) i kind) as [e|e|] eqn:Hv; [|apply HR|done].
  apply HQ. apply validate_Ok in Hv as (He & Hk & _). by exists e.
Qed.

Lemma wp_udp_record i (Q : UdpRecord → Sys → Prop) R s :
  (∀ r, udp_records (stack s) !! id i = Some r → ur_identity r = i → Q r s) →
  (∀ e, R e s) → wp (udp_record i) Q R s.
Proof. intros HQ HR. unfold udp_record. st_steps; try apply HR. apply HQ; [done|]. by eapply bool_decide_eq_true_1. Qed.

Lemma wp_allocate_ephemeral used start (Q : u16 → Sys → Prop) R s :
  (∀ p, p ≠ 0%N → p ∉ used → Q p s) → (∀ e, R e s) →
  wp (lift_outcome (allocate_ephemeral used start EPHEMERAL_PORT_FIRST EPHEMERAL_PORT_LAST)) Q R s.
Proof.
  intros HQ HR.
  assert (Hl : match allocate_ephemeral used start EPHEMERAL_PORT_FIRST EPHEMERAL_PORT_LAST with
    | Ok p => p ≠ 0%N ∧ p ∉ used | Err _ => True | Panic => False end).
  { unfold allocate_ephemeral, checked_sub. rewrite (proj2 (N.leb_le _ _)) by done.
    match goal with |- context [ephemeral_loop ?a ?b ?c ?d ?e ?f] =>
      pose proof (ephemeral_loop_spec a b c d e f) as Hl; destruct (ephemeral_loop a b c d e f) as [p|e0|] end; [|done|done].
    destruct Hl as (k & _ & Hk & Hu & _). split; [|exact Hu]. clear Hu. subst p. unfold EPHEMERAL_PORT_FIRST. lia. }
  apply wp_lift_outcome; [intros p Hp|intros e _; apply HR|intros Hp]; rewrite Hp in Hl; [destruct Hl; by apply HQ|done].
Qed.

(** A port is chosen; only the place the next search starts at changes. *)
Definition chose_port s s' : Prop :=
  books s s' ∧ sockets (stack s') = sockets (stack s) ∧ interface (stack s') = interface (stack s).

Lemma wp_allocate_tcp s0 x f (Q : u16 → Sys → Prop) R s :
  J s0 x s → (∀ p s', J s0 x s' → chose_port s s' → p ≠ 0%N → Q p s') → (∀ e, R e s) →
  wp (allocate_ephemeral_port f) Q R s.
Proof.
  intros HJ HQ HR. unfold allocate_ephemeral_port. apply wp_bind, wp_gs.
  apply wp_bind, wp_allocate_ephemeral; [|exact HR]. intros p Hp _. st_steps.
  apply HQ; [j_same|by repeat constructor|done].
Qed.
Lemma wp_allocate_udp s0 x f (Q : u16 → Sys → Prop) R s :
  J s0 x s → (∀ p s', J s0 x s' → chose_port s s' → p ∉ used_udp_ports (stack s) f → Q p s') → (∀ e, R e s) →
  wp (allocate_udp_ephemeral_port f) Q R s.
Proof.
  intros HJ HQ HR. unfold allocate_udp_ephemeral_port. apply wp_bind, wp_gs.
  apply wp_bind, wp_allocate_ephemeral; [|exact HR]. intros p _ Hp. st_steps.
  apply HQ; [j_same|by repeat constructor|done].
Qed.

Lemma endpoint_validate_cases e bind :
  match endpoint_validate e bind with Ok v => bind = false → v_port v ≠ 0%N | Err _ => True | Panic => False end.
Proof.
  unfold endpoint_validate. destruct (endpoint_address (ep_address e)) as [a|err|] eqn:Ha; simpl; [|done|].
  - destruct (_ || _ || _); [done|]. destruct (_ || _ || _) eqn:Hp; [done|].
    destruct (endpoint_scope a (ep_scope_id e)) as [[]|err|] eqn:Hs; simpl; [|done|].
    + intros ->. rewrite !orb_false_iff in Hp. simpl in Hp. rewrite Z.mod_small by lia. lia.
    + unfold endpoint_scope in Hs. by repeat case_match.
  - unfold endpoint_address in Ha. by repeat case_match.
Qed.
End guards.

Section endpoints_wp.
Context `{Beam, Mailbox, Engine}.
Implicit Types (s : Sys) (R : SocketError → Sys → Prop).

Lemma wp_bind_endpoint e (Q : ValidatedEndpoint → Sys → Prop) R s :
  (∀ v, Q v s) → (∀ e, R e s) → wp (lift_outcome (bind_endpoint e)) Q R s.
Proof.
  intros HQ HR. pose proof (endpoint_validate_cases e true) as Hc. unfold bind_endpoint.
  apply wp_lift_outcome; [intros v _; apply HQ|intros e' _; apply HR|intros Hp; by rewrite Hp in Hc].
Qed.
Lemma wp_remote_endpoint e (Q : ValidatedEndpoint → Sys → Prop) R s :
  (∀ v, v_port v ≠ 0%N → is_unspecified (v_address v) = false → Q v s) → (∀ e, R e s) →
  wp (lift_outcome (remote_endpoint e)) Q R s.
Proof.
  intros HQ HR. pose proof (endpoint_validate_cases e false) as Hc.
  apply wp_lift_outcome; [intros v Hv|intros e' _; apply HR|intros Hp; unfold remote_endpoint in Hp; by rewrite Hp in Hc].
  apply HQ; [|by eapply remote_endpoint_specified]. unfold remote_endpoint in Hv. rewrite Hv in Hc. by apply Hc.
Qed.
Lemma wp_has_waiter t i kind d (Q : bool → Sys → Prop) R s :
  (∀ b, Q b s) → (∀ e, R e s) → wp (lift_outcome (has_waiter t i kind d)) Q R s.
Proof.
  intros HQ HR. apply wp_lift_outcome; [intros b _; apply HQ|intros e _; apply HR|].
  unfold has_waiter. pose proof (validate_no_panic t i kind). by destruct (validate t i kind).
Qed.
End endpoints_wp.

(** The state of a goal, written in another way. *)
Ltac at_state s := lazymatch goal with |- wp ?m ?Q ?R _ => change (wp m Q R s) end.

(** The guards of a call: [Hrf] says that the call may refuse here. *)
Ltac refuse := lazymatch goal with Hrf : ∀ _, refuses _ _ _ |- _ => intros; apply Hrf end.
Ltac guard_step :=
  lazymatch goal with
  | |- wp (_ ≫= _) _ _ _ => apply wp_bind
  | |- wp (gs _) _ _ _ => apply wp_gs
  | |- wp (mret _) _ _ _ => apply wp_ret
  | |- wp (fail _) _ _ _ => apply wp_fail; refuse
  | |- wp ensure_running _ _ _ =>
      let Hrun := fresh "Hrun" in apply wp_ensure_running; [intros Hrun|refuse]
  | |- wp (fail_if _ _) _ _ _ => let Hg := fresh "Hg" in apply wp_fail_if; [refuse|intros Hg]
  | |- wp (ok_or _ _) _ _ _ =>
      let a := fresh "a" in let Ha := fresh "Ha" in apply wp_ok_or; [intros a Ha|refuse]
  | |- wp (tcp_record _) _ _ _ =>
      let r := fresh "r" in let Hr := fresh "Hr" in let Hid := fresh "Hid" in let Hnl := fresh "Hnl" in
      apply wp_tcp_record; [intros r Hr Hid Hnl|refuse]
  | |- wp (udp_record _) _ _ _ =>
      let r := fresh "r" in let Hr := fresh "Hr" in let Hid := fresh "Hid" in
      apply wp_udp_record; [intros r Hr Hid|refuse]
  | |- wp (lift_outcome (bind_endpoint _)) _ _ _ =>
      let v := fresh "v" in apply wp_bind_endpoint; [intros v|refuse]
  | |- wp (lift_outcome (remote_endpoint _)) _ _ _ =>
      let v := fresh "v" in let Hport := fresh "Hport" in let Hspec := fresh "Hspec" in
      apply wp_remote_endpoint; [intros v Hport Hspec|refuse]
  | |- wp (lift_outcome (has_waiter _ _ _ _)) _ _ _ =>
      let busy := fresh "busy" in apply wp_has_waiter; [intros busy|refuse]
  end.
Ltac guards := cbn beta iota; repeat (guard_step; cbn beta iota).

(** ** The bracket around a call

    [with_stack] starts the budget before a call and counts the call after it;
    neither touches what a call is about. *)
Section bracket.
Context `{Beam, Mailbox, Engine} {E : Type}.
Implicit Types (s : Sys).

Definition bracketed s s' : Prop :=
  ∃ b c k f g, s' = s <| stack ::= λ st, st <| call_budget := b |> <| counters := k |>
    <| next_forced_budget_checkpoints := f |> <| next_forced_slice_exhaustion := g |> |> <| clk := c |>.

Lemma begin_bracketed s : bracketed s (after (begin_call (E:=E)) s).
Proof.
  unfold after, begin_call. destruct (budget_start _ _) as [b c]. by do 5 eexists.
Qed.
Lemma observe_bracketed s : bracketed s (after (observe_call (E:=E)) s).
Proof.
  unfold after, observe_call. destruct (elapsed_nanoseconds _ _) as [n c]. exists (call_budget (stack s)), c. eexists.
  exists (next_forced_budget_checkpoints (stack s)), (next_forced_slice_exhaustion (stack s)). reflexivity.
Qed.

#[export] Instance bracketed_trans : Transitive bracketed.
Proof. intros s1 s2 s3 (b & c & k & f & g & ->) (b' & c' & k' & f' & g' & ->). by exists b', c', k', f', g'. Qed.
Lemma bracketed_inv x s s' : bracketed s s' → inv x s → inv x s'.
Proof. intros (b & c & k & f & g & ->) []. by constructor. Qed.
Lemma bracketed_settled s s0 promise gone {A} (env : Envelope A) s1 s2 :
  bracketed s s0 → settled s0 promise gone env s1 → bracketed s1 s2 → settled s promise gone env s2.
Proof. intros (? & ? & ? & ? & ? & ->) [] (? & ? & ? & ? & ? & ->). by constructor. Qed.
Lemma bracketed_during s s0 ins taken o s1 : bracketed s s0 → during s0 ins taken o s1 → during s ins taken o s1.
Proof. intros (? & ? & ? & ? & ? & ->) []. by constructor. Qed.
Lemma bracketed_refused s s0 s1 s2 : bracketed s s0 → refused s0 s1 → bracketed s1 s2 → refused s s2.
Proof. intros (? & ? & ? & ? & ? & ->) [] (? & ? & ? & ? & ? & ->). by constructor. Qed.

Lemma wp_with_stack {A} (m : M Sys E A) (Q : A → Sys → Prop) (R : E → Sys → Prop) s :
  wp m (λ a s', Q a (after (observe_call (E:=E)) s')) (λ e s', R e (after (observe_call (E:=E)) s'))
    (after (begin_call (E:=E)) s) → wp (with_stack m) Q R s.
Proof.
  unfold wp, with_stack, after, mbind, M_bind, begin_call. destruct (budget_start _ _) as [b c]. simpl.
  destruct (m _) as [[a|e|] s1]; try done; unfold observe_call; by destruct (elapsed_nanoseconds _ _).
Qed.
End bracket.
