(* ===== verification/Shutdown.v ===== *)
(** * Shutting a stack down

    Models [shutdown], [continue_shutdown] and [poll_call] of [stack.rs]. A
    shutdown is a sequence of bounded calls: the first marks the stack, and
    polls then remove its structures and abort its waiters until nothing is
    left. *)
From S2P Require Import Prelude Budget Waiter SocketTable Wire TcpSupport Device Packet Smol.
From S2P Require Import Stack Create Readiness Invariant Maintenance Drive Settle.

Section shutdown.
Context `{Beam, Mailbox, Engine}.
Context {E : Type}.
Abbreviation St := (M Sys E).

Definition structures_pending (st : NativeStack) : bool :=
  (0 <? table_len (socket_table st))%N
  || bool_decide (tcp_records st ≠ ∅)
  || bool_decide (tcp_listeners st ≠ ∅)
  || bool_decide (udp_records st ≠ ∅)
  || bool_decide (tcp_connections st ≠ ∅)
  || bool_decide (closing_tcp st ≠ ∅)
  || bool_decide (closing_deadlines st ≠ ∅)
  || bool_decide (queued_packets (device st) ≠ (0%N, 0%N)).

Definition shutdown_pending (s : Sys) : bool :=
  structures_pending (stack s)
  || bool_decide (pending_notifications (stack s) ≠ [])
  || has_pending (ready (shd s))
  || bool_decide (ready_sweep_pending (stack s) ≠ [])
  || ready_sweep (stack s).

Definition notifications (i : SocketIdentity) (ws : list (Direction * Waiter)) :
    list PendingNotification :=
  (λ dw, {| pn_identity := i; pn_direction := dw.1; pn_waiter := dw.2 |}) <$> ws.

(** The last branch of a turn: one retained index or packet. *)
Definition discard_retained : St bool :=
  st ← gs (λ st, st);
  match bmap_first (tcp_connections st) with
  | Some (key, _) => ms (λ st, st <| tcp_connections ::= delete key |>) ;; mret true
  | None =>
      match bset_first (closing_tcp st) with
      | Some i => ms (λ st, st <| closing_tcp ::= λ ids, ids ∖ {[i]} |>) ;; mret true
      | None =>
          match bset_first (closing_deadlines st) with
          | Some d => ms (λ st, st <| closing_deadlines ::= λ ds, ds ∖ {[d]} |>) ;; mret true
          | None =>
              zoom (λ s, device (stack s)) (λ d s, s <| stack ::= λ st, st <| device := d |> |>)
                discard_one
          end
      end
  end.

(** Removes one structure; [false] if there was none. *)
Definition shutdown_step : St bool :=
  closed ← expect_ok (zoom get_table put_table table_close_next);
  match closed with
  | Some (i, ws) =>
      ms (λ st, st <| pending_notifications ::= λ q, q ++ notifications i ws |>) ;; mret true
  | None =>
      st ← gs (λ st, st);
      match bmap_first (tcp_records st) with
      | Some (i, r) =>
          ms (λ st, st <| tcp_records ::= delete i |>) ;;
          remove_socket (tr_handle r) ;;
          ms (λ st, st <| closing_tcp ::= λ ids, ids ∖ {[i]} |>) ;;
          match close_deadline r with
          | Some d => ms (λ st, st <| closing_deadlines ::= λ ds, ds ∖ {[(d, i)]} |>)
          | None => mret tt
          end ;;
          match local r, remote r with
          | Some l, Some p => ms (λ st, st <| tcp_connections ::= delete (connection_key l p) |>)
          | _, _ => mret tt
          end ;;
          mret true
      | None =>
          match bmap_first (tcp_listeners st) with
          | Some (i, l) =>
              ms (λ st, st <| tcp_listeners ::= delete i |>) ;;
              for_each (bset_elems (pool l)) remove_socket ;;
              mret true
          | None =>
              match bmap_first (udp_records st) with
              | Some (i, r) =>
                  ms (λ st, st <| udp_records ::= delete i |>) ;;
                  for_each (handles r) remove_socket ;;
                  mret true
              | None => discard_retained
              end
          end
      end
  end.

(** The variables are [maintenance_work] and [uncharged]. *)
Definition shutdown_turn (acc : usize * usize) : St (usize * usize * bool) :=
  let '(work, uncharged) := acc in
  lim ← gs limits;
  if (work <? l_maintenance_work lim)%N then
    ok ← within_budget;
    if negb ok then mret (acc, false)
    else
      removed ← shutdown_step;
      if negb removed then mret (acc, false)
      else
        uncharged ← charge_chunk (uncharged + 1) false;
        mret ((work + 1)%N, uncharged, true)
  else mret (acc, false).

Definition shutdown_work : St Effects :=
  lim ← gs limits;
  '(work, _) ← while_loop (S (N.to_nat (l_maintenance_work lim))) shutdown_turn (0, 0)%N;
  bump (observe {| w_bytes_copied := 0; w_input_packets := 0; w_output_packets := 0;
                   w_ready_events := 0; w_maintenance_work := work |}) ;;
  more ← gs structures_pending;
  mret {| eff_output := []; eff_poll_at := None; eff_more := more; eff_maintenance_work := work |}.

Definition continue_shutdown : St (Envelope unit) :=
  q ← gs pending_notifications;
  effects ← (if bool_decide (q = []) then shutdown_work else mret effects_empty);
  env ← finish_call tt effects [];
  pending ← gets shutdown_pending;
  if (pending : bool) then
    mret {| result := tt; output := output env; poll_at := None; more := true |}
  else
    ms (λ st, st
      <| lifecycle := Shutdown |>
      <| closing_sweep_cursor := None |>
      <| closing_cleanup_pending := false |> <| closing_cleanup_resweep := false |>
      <| listener_scan_cursor := None |>
      <| listener_scan_pending := false |> <| listener_scan_resweep := false |>
      <| ready_sweep := false |> <| ready_sweep_cursor := None |>
      <| ready_sweep_resweep := false |> <| ready_sweep_pending := [] |>) ;;
    mret {| result := tt; output := output env; poll_at := poll_at env; more := false |}.

Definition shutdown (reason : AbortReason) : St (Envelope unit) :=
  l ← gs lifecycle;
  match l with
  | Shutdown => mret (envelope_empty tt)
  | Running | ShuttingDown =>
      ms (λ st, st
        <| shutdown_reason := reason |> <| lifecycle := ShuttingDown |>
        <| ready_sweep := false |> <| ready_sweep_cursor := None |>
        <| ready_sweep_resweep := false |> <| ready_sweep_pending := [] |>) ;;
      continue_shutdown
  end.

Definition poll_call (now : Time.Instant) : St (Envelope unit) :=
  l ← gs lifecycle;
  match l with
  | Running => effects ← poll now; finish_call tt effects []
  | ShuttingDown => continue_shutdown
  | Shutdown => mret (envelope_empty tt)
  end.
End shutdown.

(** ** Taking a stack apart *)
Section apart.
Context `{SmolTypes}.
Implicit Types (s : Sys) (x : Held).
Implicit Types (rs : gmap u64 TcpRecord) (ls : gmap u64 ListenerRecord) (us : gmap u64 UdpRecord).

(** Once the stack is not running, a socket of the table may go before its record. *)
Lemma inv_unregister x s i ins outs t' :
  inv x s → lifecycle (stack s) ≠ Running → op_post (get_table s) ins outs t' →
  table_entries (table t') = delete i (table_entries (socket_table (stack s))) →
  same_frame (get_table s) t' → inv x (put_table t' s).
Proof.
  intros [Hso [] Hta Hro Hde Hke Hli Hqu] Hl (Hwf & _) Hes (Hm & Hw & Hn & _). simpl in *.
  constructor; simpl; try done; [|by destruct t'|by rewrite Hm, Hw|by rewrite Hn].
  constructor; rewrite ?Hes, ?Hn; try done.
  - intros j g e [_ He]%lookup_delete_Some. by eapply re_open.
  - intros j k Hj (e & He & Hk). rewrite Hes in He. apply lookup_delete_Some in He as [_ He].
    apply re_recorded; [done|]. by exists e.
  - intros j Hj. apply lookup_delete_None. right. by apply re_closing.
Qed.

(** With the table empty, the records and the indexes may go in any order. *)
Record apart s s' : Prop := {
  ap_limits : limits (stack s') = limits (stack s);
  ap_lifecycle : lifecycle (stack s') = lifecycle (stack s);
  ap_table : get_table s' = get_table s;
  ap_records : tcp_records (stack s') ⊆ tcp_records (stack s);
  ap_listeners : tcp_listeners (stack s') ⊆ tcp_listeners (stack s);
  ap_udp : udp_records (stack s') ⊆ udp_records (stack s);
  ap_closing : closing_tcp (stack s') ⊆ closing_tcp (stack s);
  ap_deadlines : ∀ i r d, tcp_records (stack s') !! i = Some r → close_deadline r = Some d →
    i ∈ closing_tcp (stack s) → (d, i) ∈ closing_deadlines (stack s) →
    i ∈ closing_tcp (stack s') ∧ (d, i) ∈ closing_deadlines (stack s')
}.

Lemma inv_apart x x' s s' :
  inv x s → lifecycle (stack s) ≠ Running → table_entries (socket_table (stack s)) = ∅ →
  apart s s' → device_wf (device (stack s')) → exempt x' = exempt x →
  sock_inv x' (l_sockets (limits (stack s))) (sockets (stack s')) (tcp_records (stack s'))
    (tcp_listeners (stack s')) (udp_records (stack s')) → inv x' s'.
Proof.
  intros [Hso [] Hta Hro Hde Hke Hli Hqu] Hl Ht [E1 E2 E3 Hrs Hls Hus Hcl Hds] Hd Hx Hs.
  pose proof (f_equal table E3) as Et. pose proof (f_equal shared E3) as Eh. simpl in Et, Eh.
  constructor; rewrite ?E1, ?E2, ?E3, ?Et, ?Eh; try done.
  - constructor; rewrite ?Ht; try done.
    + intros i Hi. apply re_ids. destruct Hi as [[r Hr]|[[r Hr]|[[r Hr]|Hi]]].
      * left. exists r. by eapply lookup_weaken.
      * right; left. exists r. by eapply lookup_weaken.
      * right; right; left. exists r. by eapply lookup_weaken.
      * do 3 right. set_solver.
    + intros i k _ (e & He & _). by rewrite Ht in He.
    + intros i [l Hi]. eapply lookup_weaken_None; [|exact Hrs]. apply re_disjoint. exists l. by eapply lookup_weaken.
    + intros i r d Hr Hdl. destruct (re_deadline i r d) as [Hc Hd']; [by eapply lookup_weaken|done|]. by eapply Hds.
  - intros j l c Hj Hc. destruct (Hqu j l c) as [Hlt Hq]; [by eapply lookup_weaken|done|]. split; [done|].
    rewrite Hx. intros Hxj Hxc. destruct (Hq Hxj Hxc) as (H1 & H2 & H3).
    split_and!; [by eapply lookup_weaken_None|by eapply lookup_weaken_None|].
    intros r Hr. apply H3. by eapply lookup_weaken.
Qed.
End apart.

(** ** What is left to take apart *)
Section burden.
Context `{SmolTypes}.
Implicit Types (s : Sys) (st : NativeStack).

(** A socket of the table leaves up to two notifications behind. *)
Definition structures st : nat :=
  3 * size (table_entries (socket_table st)) + size (tcp_records st) + size (tcp_listeners st)
  + size (udp_records st) + size (tcp_connections st) + size (closing_tcp st)
  + size (closing_deadlines st) + length (receive (device st)) + length (transmit (device st)).
(** A key of the queue may move to the keys retained for the next call. *)
Definition load s : nat :=
  length (pending_notifications (stack s)) + 2 * size (entries (ready (shd s)))
  + (if overflow (ready (shd s)) then 1 else 0) + length (ready_sweep_pending (stack s)).
Definition burden s : nat := structures (stack s) + load s.

Lemma structures_pending_spec st : structures_pending st = false ↔ structures st = 0.
Proof.
  unfold structures_pending, structures, table_len, queued_packets, llen. rewrite !orb_false_iff, N.ltb_ge.
  rewrite !bool_decide_not_false by apply _.
  rewrite <-!(map_size_empty_iff (M:=gmap _)), <-!(leibniz_equiv_iff (A:=gset _)), <-!(size_empty_iff (C:=gset _)).
  rewrite pair_equal_spec. lia.
Qed.

Lemma shutdown_pending_spec s :
  lock (ready (shd s)) ≠ Locked → ready_sweep (stack s) = false →
  shutdown_pending s = false ↔ burden s = 0.
Proof.
  intros Hlk Hsw. unfold shutdown_pending, burden, load, has_pending, try_entries.
  rewrite !orb_false_iff, structures_pending_spec, Hsw.
  rewrite !bool_decide_not_false, <-!length_zero_iff_nil by apply _.
  assert (∀ (es : gset ReadyKey), bool_decide (es ≠ ∅) = false ↔ size es = 0) as He.
  { intros es. rewrite bool_decide_not_false, size_empty_iff by apply _. by rewrite leibniz_equiv_iff. }
  destruct (lock (ready (shd s))), (overflow (ready (shd s))); rewrite ?He; try done; lia.
Qed.

(** The state [s] of a shutdown that began its slice in [s0]. *)
Record winding s0 s : Prop := {
  wi_wf : stack_wf s;
  wi_limits : limits (stack s) = limits (stack s0);
  wi_lifecycle : lifecycle (stack s) = lifecycle (stack s0);
  wi_reason : shutdown_reason (stack s) = shutdown_reason (stack s0);
  wi_forced : next_forced_budget_checkpoints (stack s) = next_forced_budget_checkpoints (stack s0);
  wi_outbox : outbox s = outbox s0;
  wi_owed : owed s ≡ₚ owed s0;
  wi_link : handed (Some []) (device (stack s0)) (device (stack s));
  wi_ready : ready (shd s) = ready (shd s0);
  wi_sweep : ready_sweep (stack s) = ready_sweep (stack s0);
  wi_keys : ready_sweep_pending (stack s) = ready_sweep_pending (stack s0)
}.

(** One structure of [s] is gone in [s']. *)
Definition lighter s s' : Prop := burden s' < burden s.
End burden.

(** ** One slice *)
Section slice.
Context `{Beam, Mailbox, Engine} {E : Type}.
Implicit Types (s : Sys) (R : E → Sys → Prop).

Lemma winding_refl s : stack_wf s → winding s s.
Proof. intros Hwf. constructor; try done; by apply handed_out. Qed.
Lemma winding_budget s0 b s : winding s0 s → winding s0 (put_budget b s).
Proof. intros [[]]. constructor; try done; by constructor. Qed.
Lemma winding_counters s0 f s :
  winding s0 s → winding s0 (s <| stack ::= λ st, st <| counters ::= f |> |>).
Proof. intros [[]]. constructor; try done; by constructor. Qed.

(** The link loses what was queued for the stack and is handed nothing. *)
Lemma handed_less d0 d d' :
  (∃ n, receive d' = drop n (receive d)) → credit d' = credit d →
  handed (Some []) d0 d → handed (Some []) d0 d'.
Proof. intros [n Hn] Hc [[m Hm] Hs]. split; [|by rewrite Hc]. exists (m + n). by rewrite Hn, Hm, drop_drop. Qed.

(** What a step leaves as it was, when it touches neither the table nor the
    notifications. *)
Lemma winding_apart s0 s s' :
  winding s0 s → lifecycle (stack s0) ≠ Running → table_entries (socket_table (stack s)) = ∅ →
  apart s s' → device_wf (device (stack s')) →
  (∃ n, receive (device (stack s')) = drop n (receive (device (stack s)))) →
  credit (device (stack s')) = credit (device (stack s)) →
  shutdown_reason (stack s') = shutdown_reason (stack s) →
  next_forced_budget_checkpoints (stack s') = next_forced_budget_checkpoints (stack s) →
  pending_notifications (stack s') = pending_notifications (stack s) →
  ready_sweep (stack s') = ready_sweep (stack s) →
  ready_sweep_pending (stack s') = ready_sweep_pending (stack s) → outbox s' = outbox s →
  (∃ x', exempt x' = ∅ ∧ held_tcp x' = [] ∧ held_udp x' = [] ∧
    sock_inv x' (l_sockets (limits (stack s))) (sockets (stack s')) (tcp_records (stack s'))
      (tcp_listeners (stack s')) (udp_records (stack s'))) → winding s0 s'.
Proof.
  intros [Hwf E1 E2 E3 Ef E4 Ho Hl E5 E6 E7] Hlf Ht Hap Hd Hrc Hcr Hr Hf Hp Hsw Hk Hob (x & Hx & Hxt & Hxu & Hs).
  pose proof Hap as []. pose proof (f_equal table ap_table0) as Et. pose proof (f_equal shared ap_table0) as Eh.
  simpl in Et, Eh. constructor; try congruence.
  - apply (inv_done x); [done..|]. eapply inv_apart; [exact Hwf|congruence|done|done|done|done|done].
  - unfold owed. rewrite Et, Hp. exact Ho.
  - by eapply handed_less.
Qed.

Lemma first_entry_gone {K V} `{Ordered K, Countable K} (m : gmap K V) k v : bmap_first m = Some (k, v) → S (size (delete k m)) = size m.
Proof.
  intros Hf%bmap_first_Some. rewrite map_size_delete, Hf. assert (size m ≠ 0); [|lia].
  by eapply (map_size_ne_0_lookup_2 m k).
Qed.
Lemma element_gone {K} `{Countable K} (X : gset K) k : k ∈ X → S (size (X ∖ {[k]})) = size X.
Proof.
  intros Hk. rewrite size_difference by set_solver. rewrite size_singleton.
  assert (size X ≠ 0); [|lia]. intros Hz%size_empty_inv. set_solver.
Qed.
Lemma size_minus {K} `{Countable K} (X Y : gset K) : size (X ∖ Y) ≤ size X.
Proof. apply subseteq_size. set_solver. Qed.
Lemma map_size_delete_le {K V} `{Countable K} (m : gmap K V) k : size (delete k m) ≤ size m.
Proof. rewrite map_size_delete. destruct (m !! k); [apply Nat.le_pred_l|done]. Qed.

Lemma table_close_next_wp s0 s (Q : option (SocketIdentity * list (Direction * Waiter)) → Sys → Prop) R :
  winding s0 s → lifecycle (stack s0) ≠ Running →
  (∀ i ws t', let s' := put_table t' s <| stack ::= λ st, st <| pending_notifications ::= λ q, q ++ notifications i ws |> |> in
    winding s0 s' → lighter s s' → Q (Some (i, ws)) (put_table t' s)) →
  (table_entries (socket_table (stack s)) = ∅ → Q None s) →
  wp (expect_ok (zoom get_table put_table table_close_next)) Q R s.
Proof.
  intros Hwi Hlf HQ HN. apply wp_expect_ok, wp_zoom. unfold table_close_next. wp_steps; cycle 1.
  { assert (put_table (get_table s) s = s) as -> by (by destruct s as [[] ? ? ?]).
    apply HN. by apply bmap_first_None. }
  destruct p as [i [g e]]. pose proof (first_entry_gone _ _ _ Heqo) as Hsz.
  pose proof Hwi as [Hwf E1 E2 E3 Ef E4 Ho Hl E5 E6 E7]. pose proof (inv_table _ _ Hwf) as Hta.
  set (k := {| id := i; generation := g |}).
  wp_steps. apply wp_expect_ok.
  eapply wp_mono; [exact (wp_conj _ _ _ _ _ _ (table_close_spec k _ Hta) (table_close_calm k _ Hta))| |].
  - intros ws t' ((Hp & (e' & He & Hg) & _) & Hes & Hfr & [Hrd _]). wp_steps. apply HQ.
    + assert (Hi : stack_wf (put_table t' s)) by (eapply inv_unregister; [exact Hwf|congruence|done|done|done]).
      constructor; try done; [by destruct Hi; constructor| |by rewrite <-E5].
      destruct Hp as (_ & _ & Hp). unfold owed in *. simpl in *. rewrite fmap_app.
      assert (note_held <$> notifications k ws = given k ws) as Hn
        by (unfold notifications, given; by rewrite <-list_fmap_compose).
      rewrite app_nil_r in Hp. rewrite <-Ho, Hp, Hn. solve_Permutation.
    + unfold lighter, burden, load, structures. simpl in *. rewrite Hes, Hrd, length_app.
      assert (length (notifications k ws) ≤ 2); [|lia].
      unfold notifications. rewrite length_fmap.
      assert (length ws = length (given k ws)) as -> by (unfold given; by rewrite length_fmap).
      rewrite Hg. unfold entry_held. rewrite length_app. destruct (read_waiter _), (write_waiter _); simpl; lia.
  - intros err t' [[_ Hn] _]. by apply bmap_first_Some, Hn in Heqo.
Qed.

(** What a step of the slice gives: something is gone, or there was nothing. *)
Definition stepped s0 s (removed : bool) s' : Prop :=
  if removed then winding s0 s' ∧ lighter s s' else s' = s ∧ structures (stack s) = 0.

Section without_table.
Context (s0 s : Sys) (Hwi : winding s0 s) (Hlf : lifecycle (stack s0) ≠ Running)
  (Ht : table_entries (socket_table (stack s)) = ∅).

Lemma sock_now : sock_inv held_none (l_sockets (limits (stack s))) (sockets (stack s)) (tcp_records (stack s))
  (tcp_listeners (stack s)) (udp_records (stack s)).
Proof. apply (wi_wf _ _ Hwi). Qed.

(** Only an index shrinks. *)
Lemma winding_index s' :
  apart s s' → device (stack s') = device (stack s) → sockets (stack s') = sockets (stack s) →
  tcp_records (stack s') = tcp_records (stack s) → tcp_listeners (stack s') = tcp_listeners (stack s) →
  udp_records (stack s') = udp_records (stack s) →
  shutdown_reason (stack s') = shutdown_reason (stack s) →
  next_forced_budget_checkpoints (stack s') = next_forced_budget_checkpoints (stack s) →
  pending_notifications (stack s') = pending_notifications (stack s) →
  ready_sweep (stack s') = ready_sweep (stack s) →
  ready_sweep_pending (stack s') = ready_sweep_pending (stack s) → outbox s' = outbox s →
  winding s0 s'.
Proof.
  intros Hap Ed Es Er El Eu ??????. eapply winding_apart; try done; rewrite ?Ed, ?Es, ?Er, ?El, ?Eu; try done.
  - apply (wi_wf _ _ Hwi).
  - by exists 0.
  - exists held_none. split_and!; [done..|]. apply sock_now.
Qed.

Lemma discard_retained_wp R :
  tcp_records (stack s) = ∅ → tcp_listeners (stack s) = ∅ → udp_records (stack s) = ∅ →
  wp discard_retained (stepped s0 s) R s.
Proof.
  intros Er El Eu. unfold discard_retained. st_steps.
  - destruct p as [key i]. st_steps. split.
    + apply winding_index; try done; by constructor.
    + unfold lighter, burden, structures, load. simpl.
      pose proof (first_entry_gone _ _ _ Heqo). lia.
  - apply bset_first_elem in Heqo0 as Hk. split.
    + apply winding_index; try done. constructor; simpl; try done; [set_solver|].
      intros i r d. by rewrite Er, lookup_empty.
    + unfold lighter, burden, structures, load. simpl. pose proof (element_gone _ _ Hk). lia.
  - apply bset_first_elem in Heqo1 as Hk. split.
    + apply winding_index; try done. constructor; simpl; try done.
      intros i r d. by rewrite Er, lookup_empty.
    + unfold lighter, burden, structures, load. simpl. pose proof (element_gone _ _ Hk). lia.
  - apply bmap_first_None in Heqo. apply bset_first_None in Heqo0, Heqo1.
    pose proof (inv_device _ _ (wi_wf _ _ Hwi)) as Hd. 
    eapply wp_mono; [exact (discard_one_wp _ Hd)| |done].
    intros [] d' (Hd' & Hc & Hm & Hf & Hr).
    + specialize (Hm eq_refl). split.
      * eapply winding_apart; try done. exists held_none. split_and!; [done..|]. apply sock_now.
      * unfold lighter, burden, structures, load. simpl. unfold llen in Hm. lia.
    + destruct (Hf eq_refl) as (Hq1 & Hq2 & ->). split; [by destruct s as [[] ? ? ?]|].
      unfold structures. rewrite Ht, Er, El, Eu, Heqo, Heqo0, Heqo1, Hq1, Hq2.
      by rewrite !map_size_empty, !size_empty.
Qed.

Lemma step_record_wp i r R :
  bmap_first (tcp_records (stack s)) = Some (i, r) →
  wp (ms (λ st, st <| tcp_records ::= delete i |>) ;;
      remove_socket (tr_handle r) ;;
      ms (λ st, st <| closing_tcp ::= λ ids, ids ∖ {[i]} |>) ;;
      match close_deadline r with
      | Some d => ms (λ st, st <| closing_deadlines ::= λ ds, ds ∖ {[(d, i)]} |>)
      | None => mret tt
      end ;;
      match local r, remote r with
      | Some l, Some p => ms (λ st, st <| tcp_connections ::= delete (connection_key l p) |>)
      | _, _ => mret tt
      end ;;
      mret true) (stepped s0 s) R s.
Proof.
  intros Hf. pose proof (bmap_first_Some _ _ _ Hf) as Hr. pose proof (first_entry_gone _ _ _ Hf) as Hsz.
  pose proof sock_now as Hso. destruct (sock_tcp_handle _ _ _ _ _ _ _ _ Hso Hr) as (t & _ & Hg).
  pose proof (sock_record_delete _ _ _ _ _ _ i r Hr Hso) as Hso1.
  assert (Hso2 : sock_inv (held_none <| free_slots := 1%N |> <| free_bytes := record_bytes r |>)
    (l_sockets (limits (stack s))) (set_put (tr_handle r) None (sockets (stack s)))
    (delete i (tcp_records (stack s))) (tcp_listeners (stack s)) (udp_records (stack s)))
    by (eapply sock_remove; [exact Hg|..|exact Hso1]; done). clear Hso1.
  pose proof (size_minus (closing_tcp (stack s)) {[i]}) as Hc.
  pose proof (size_minus (closing_deadlines (stack s))) as Hm.
  pose proof (map_size_delete_le (tcp_connections (stack s))) as Hmd.
  pose proof (delete_subseteq (tcp_records (stack s)) i) as Hsub.
  assert (Hdl : ∀ ds : gset (Time.Instant * u64), (∀ d j, j ≠ i → (d, j) ∈ closing_deadlines (stack s) → (d, j) ∈ ds) →
    ∀ j r1 d, delete i (tcp_records (stack s)) !! j = Some r1 → close_deadline r1 = Some d →
      j ∈ closing_tcp (stack s) → (d, j) ∈ closing_deadlines (stack s) →
      j ∈ closing_tcp (stack s) ∖ {[i]} ∧ (d, j) ∈ ds).
  { intros ds Hds j r1 d [Hj Hr1]%lookup_delete_Some Hd Hcl Hdl. split; [set_solver|by apply Hds]. }
  apply wp_bind, wp_ms, wp_bind, wp_remove_socket. split; [by eexists|].
  apply wp_bind, wp_ms, wp_bind.
  destruct (close_deadline r) as [d|]; [apply wp_ms|apply wp_ret]; apply wp_bind;
    destruct (local r) as [l|], (remote r) as [q|]; st_step; apply wp_ret.
  all: split;
    [eapply winding_apart; simpl; try done;
     [constructor; simpl; try done; [set_solver|apply Hdl; set_solver]|apply (wi_wf _ _ Hwi)|by exists 0
     |eexists; split_and!; [| | |exact Hso2]; done]
    |unfold lighter, burden, structures, load; simpl].
  all: try specialize (Hm {[(d, i)]}); try specialize (Hmd (connection_key l q)); lia.
Qed.

Lemma step_listener_wp i l R :
  bmap_first (tcp_listeners (stack s)) = Some (i, l) →
  wp (ms (λ st, st <| tcp_listeners ::= delete i |>) ;;
      for_each (bset_elems (pool l)) remove_socket ;; mret true) (stepped s0 s) R s.
Proof.
  intros Hf. pose proof (bmap_first_Some _ _ _ Hf) as Hl. pose proof (first_entry_gone _ _ _ Hf) as Hsz.
  pose proof sock_now as Hso. pose proof (sock_listener_delete _ _ _ _ _ _ i l Hl Hso) as Hso1.
  apply wp_bind, wp_ms, wp_bind. set (s1 := s <| stack ::= _ |>).
  assert (Hap : apart s s1) by (constructor; simpl; try done; apply delete_subseteq).
  eapply (remove_all_tcp_wp s1); [apply J_intro; eapply inv_apart;
    [exact (wi_wf _ _ Hwi)|rewrite (wi_lifecycle _ _ Hwi); exact Hlf|exact Ht|exact Hap|exact (inv_device _ _ (wi_wf _ _ Hwi))| |exact Hso1]; done| |].
  { simpl. by rewrite app_nil_r. }
  intros ss n [Hi _]. apply wp_ret. split.
  - eapply winding_apart; simpl; try done; [by destruct Hap; constructor|apply (wi_wf _ _ Hwi)|by exists 0|].
    eexists; split_and!; [| | |exact (inv_sock _ _ Hi)]; done.
  - unfold lighter, burden, structures, load. simpl. lia.
Qed.

Lemma step_udp_wp i r R :
  bmap_first (udp_records (stack s)) = Some (i, r) →
  wp (ms (λ st, st <| udp_records ::= delete i |>) ;;
      for_each (handles r) remove_socket ;; mret true) (stepped s0 s) R s.
Proof.
  intros Hf. pose proof (bmap_first_Some _ _ _ Hf) as Hl. pose proof (first_entry_gone _ _ _ Hf) as Hsz.
  pose proof sock_now as Hso. pose proof (sock_udp_delete _ _ _ _ _ _ i r Hl Hso) as Hso1.
  apply wp_bind, wp_ms, wp_bind. set (s1 := s <| stack ::= _ |>).
  assert (Hap : apart s s1) by (constructor; simpl; try done; apply delete_subseteq).
  eapply (remove_all_udp_wp s1); [apply J_intro; eapply inv_apart;
    [exact (wi_wf _ _ Hwi)|rewrite (wi_lifecycle _ _ Hwi); exact Hlf|exact Ht|exact Hap|exact (inv_device _ _ (wi_wf _ _ Hwi))| |exact Hso1]; done| |].
  { simpl. by rewrite app_nil_r. }
  intros ss n [Hi _]. apply wp_ret. split.
  - eapply winding_apart; simpl; try done; [by destruct Hap; constructor|apply (wi_wf _ _ Hwi)|by exists 0|].
    eexists; split_and!; [| | |exact (inv_sock _ _ Hi)]; done.
  - unfold lighter, burden, structures, load. simpl. lia.
Qed.
End without_table.

Lemma shutdown_step_wp s0 s R :
  winding s0 s → lifecycle (stack s0) ≠ Running → wp shutdown_step (stepped s0 s) R s.
Proof.
  intros Hwi Hlf. unfold shutdown_step. apply wp_bind. apply (table_close_next_wp s0); [done|done| |].
  - intros i ws t' s' Hw Hli. apply wp_bind, wp_ms, wp_ret. by split.
  - intros Ht. apply wp_bind, wp_gs.
    destruct (bmap_first (tcp_records (stack s))) as [[i r]|] eqn:Er; [by apply step_record_wp|].
    destruct (bmap_first (tcp_listeners (stack s))) as [[i l]|] eqn:El; [by apply step_listener_wp|].
    destruct (bmap_first (udp_records (stack s))) as [[i u]|] eqn:Eu; [by apply step_udp_wp|].
    apply bmap_first_None in Er, El, Eu. by apply discard_retained_wp.
Qed.

(** The next [n] checkpoints answer yes. *)
Definition prompt (n : nat) s : Prop :=
  let b := call_budget (stack s) in
  forced_checkpoints b = None ∧ slice_exhausted b = false
  ∧ ∀ j, (j < N.of_nat n)%N → (clock_at (clk_reads (clk s) + j) < deadline b)%Z.

Lemma prompt_checkpoint n s :
  prompt (S n) s → ∃ b c, checkpoint (call_budget (stack s)) (clk s) = (true, b, c)
    ∧ ∀ s', get_budget s' = (b, c) → prompt n s'.
Proof.
  intros (Hf & Hs & Hn). unfold checkpoint. rewrite Hf, Hs. simpl.
  pose proof (Hn 0%N ltac:(lia)) as Hz. rewrite N.add_0_r in Hz.
  rewrite (proj2 (Z.ltb_lt _ _) Hz). do 2 eexists. split; [done|].
  intros s' [= Hb Hc]. unfold prompt. rewrite Hb, Hc. simpl. split_and!; [done|done|].
  intros j Hj. specialize (Hn (j + 1)%N ltac:(lia)). by replace (N.succ (clk_reads (clk s)) + j)%N
    with (clk_reads (clk s) + (j + 1))%N by lia.
Qed.

Lemma wp_within_prompt n (Q : bool → Sys → Prop) R s :
  prompt (S n) s → (∀ b, prompt n (put_budget b s) → Q true (put_budget b s)) → wp within_budget Q R s.
Proof.
  intros (b & c & Hb & Hp)%prompt_checkpoint HQ. unfold wp, within_budget. rewrite Hb.
  apply (HQ (b, c)). by apply Hp.
Qed.

(** The loop of the slice from [s1], with [w] units of work done. *)
Lemma shutdown_turn_wp s0 s acc R :
  winding s0 s → lifecycle (stack s0) ≠ Running →
  wp (shutdown_turn acc) (λ '(acc', go) s', winding s0 s' ∧ (burden s' <= burden s)
    ∧ if (go : bool) then (acc.1 < l_maintenance_work (limits (stack s0)) ∧ acc'.1 = acc.1 + 1)%N
      else acc' = acc) R s.
Proof.
  intros Hwi Hlf. destruct acc as [w u]. unfold shutdown_turn. st_steps; simpl; try done.
  - split_and!; [by apply winding_budget|done|done].
  - eapply wp_mono; [apply (shutdown_step_wp s0); [by apply winding_budget|done]| |done].
    intros [] s' Hst; cbn [negb]; st_steps.
    + destruct Hst as [Hw Hl]. pose proof (wi_limits _ _ Hwi) as Hlim. rewrite Hlim in Heqb.
      split_and!; [by apply winding_budget| |lia|done]. unfold lighter in Hl. apply Nat.lt_le_incl. exact Hl.
    + destruct Hst as [-> _]. split_and!; [by apply winding_budget|done|done].
Qed.

Lemma shutdown_loop_wp s0 s n acc R :
  winding s0 s → lifecycle (stack s0) ≠ Running →
  (acc.1 + N.of_nat n = l_maintenance_work (limits (stack s0)))%N →
  wp (while_loop (S n) shutdown_turn acc)
    (λ acc' s', winding s0 s' ∧ burden s' <= burden s) R s.
Proof.
  intros Hwi Hlf Hn. eapply (wp_while_loop _ _ (λ m acc s', winding s0 s' ∧ burden s' <= burden s
    ∧ (acc.1 + N.of_nat m = l_maintenance_work (limits (stack s0)))%N) _ _ n); [done|lia|].
  intros m acc1 s1 (Hw1 & Hb1 & Hm). eapply wp_mono; [by apply (shutdown_turn_wp s0)| |done].
  intros [acc2 []] s2 (Hw2 & Hb2 & Hgo).
  - exists (m - 1). split; [lia|]. split_and!; [done|lia|lia].
  - split; [done|lia].
Qed.

(** The slice makes progress if its first checkpoint allows it. *)
Lemma shutdown_first_wp s n R :
  stack_wf s → lifecycle (stack s) ≠ Running → prompt (S n) s →
  wp (shutdown_turn (0, 0)%N) (λ '(acc, go) s', winding s s'
    ∧ if (go : bool) then (acc.1 = 1)%N ∧ lighter s s' else structures (stack s') = 0 ∧ prompt n s') R s.
Proof.
  intros Hwf Hlf Hp. pose proof (winding_refl s Hwf) as Hwi.
  assert (Hlim : (0 < l_maintenance_work (limits (stack s)))%N) by (by apply limits_positive, Hwf).
  unfold shutdown_turn. apply wp_bind, wp_gs. rewrite (proj2 (N.ltb_lt _ _) Hlim).
  apply wp_bind. apply (wp_within_prompt n); [done|]. intros b Hb. cbn [negb]. apply wp_bind.
  eapply wp_mono; [apply (shutdown_step_wp s); [by apply winding_budget|done]| |done].
  intros [] s' Hst; cbn [negb]; st_steps.
  - destruct Hst as [Hw Hl]. split_and!; [by apply winding_budget|done|exact Hl].
  - destruct Hst as [-> Hz]. split_and!; [by apply winding_budget|exact Hz|done].
Qed.

Lemma shutdown_slice_wp s n R :
  stack_wf s → lifecycle (stack s) ≠ Running → prompt (S n) s →
  wp (while_loop (S (N.to_nat (l_maintenance_work (limits (stack s))))) shutdown_turn (0, 0)%N)
    (λ _ s', lighter s s' ∨ (structures (stack s') = 0 ∧ prompt n s')) R s.
Proof.
  intros Hwf Hlf Hp. assert (Hlim : (0 < l_maintenance_work (limits (stack s)))%N) by (by apply limits_positive, Hwf).
  simpl. apply wp_bind. eapply wp_mono; [by apply (shutdown_first_wp s n)| |done].
  intros [acc []] s1 [Hw1 Hgo]; [|apply wp_ret; by right]. destruct Hgo as [Ha Hl].
  destruct (N.to_nat (l_maintenance_work (limits (stack s)))) as [|m] eqn:Hm; [lia|].
  eapply wp_mono; [apply (shutdown_loop_wp s); [done|done|lia]| |done].
  intros acc' s' [_ Hb]. left. unfold lighter in *. lia.
Qed.

Lemma shutdown_work_wp s n R :
  stack_wf s → lifecycle (stack s) ≠ Running →
  wp shutdown_work (λ eff s', (winding s s' ∧ burden s' <= burden s)
    ∧ (eff_output eff = [] ∧ eff_poll_at eff = None ∧ eff_more eff = structures_pending (stack s'))
    ∧ (prompt (S n) s → lighter s s' ∨ (structures (stack s') = 0 ∧ prompt n s'))) R s.
Proof.
  intros Hwf Hlf. unfold shutdown_work. st_steps.
  eapply wp_mono; [eapply (wp_impl (prompt (S n) s)); [apply (shutdown_loop_wp s)|intros Hp; exact (shutdown_slice_wp s n R Hwf Hlf Hp)]| |done].
  - by apply winding_refl.
  - done.
  - simpl. lia.
  - intros [w u] s' [[Hw Hb] Hp]. st_steps. split_and!; try done. by apply winding_counters.
Qed.
End slice.
