(* ===== verification/TcpOps.v ===== *)
(** * The TCP calls

    Models the methods of [NativeStack] behind the TCP functions: open, bind,
    listen, accept, connect, send, recv, shutdown, close, the options and the
    names. Each ends with [finish_call]. *)
From S2P Require Import Prelude Budget Waiter SocketTable Wire TcpSupport Device Packet Smol.
From S2P Require Import Stack Create Readiness Invariant Maintenance Drive Settle Shutdown.

(** The terms the calls encode their results as. *)
Inductive Reply :=
| ReplyOk
| ReplyData (data : bytes)
| ReplyAccepted (child : SocketIdentity) (f : AddressFamily)
| ReplySelect (o : Operation) (r : Reference)
| ReplySelectSent (o : Operation) (r : Reference) (accepted : usize)
| ReplySelectData (o : Operation) (r : Reference) (data : bytes)
| ReplyDatagram (source destination : EncodedEndpoint) (data : bytes) (truncated : bool).

(** The waiter that a reply promises to notify. *)
Definition promise_of (i : SocketIdentity) (p : LocalPid) (reply : Reply) : option held :=
  match reply with
  | ReplySelect o r | ReplySelectSent o r _ | ReplySelectData o r _ =>
      Some (ready_key i (operation_direction o), waiter_new p o r)
  | ReplyOk | ReplyData _ | ReplyAccepted _ _ | ReplyDatagram _ _ _ _ => None
  end.

Section tcp_ops.
Context `{Beam, Mailbox, Engine}.
Abbreviation St := (M Sys SocketError).

Definition validate_tcp (i : SocketIdentity) : St unit :=
  t ← gs socket_table; lift_outcome (validate t i Tcp) ;; mret tt.

(** The listener of an identity: the [get] and [filter] of the source. *)
Definition listener_of (st : NativeStack) (i : SocketIdentity) : option ListenerRecord :=
  match tcp_listeners st !! id i with
  | Some l => if bool_decide (lr_identity l = i) then Some l else None
  | None => None
  end.

(** [insert], taking the socket back out if the table is full. *)
Definition insert_or_remove (kind : SocketKind) (h : SocketHandle) : St SocketIdentity :=
  r ← attempt (on_table (table_insert kind 0));
  match r with
  | inl i => mret i
  | inr e => remove_socket h ;; fail e
  end.

Definition tcp_open (f : AddressFamily) (rcvbuf sndbuf : usize) : St (Envelope SocketIdentity) :=
  ensure_running ;;
  ensure_logical_socket_capacity ;;
  ensure_native_socket_capacity 1 0 ;;
  fail_if (negb (valid_buffer_bytes rcvbuf) || negb (valid_buffer_bytes sndbuf)) InvalidOptions ;;
  ensure_socket_buffer_capacity (rcvbuf + sndbuf) ;;
  t ← lift_outcome (tcp_socket rcvbuf sndbuf);
  h ← add_socket (STcp t);
  i ← insert_or_remove Tcp h;
  ms (λ st, st <| tcp_records ::= <[id i := tcp_record_new i h f rcvbuf sndbuf]> |>) ;;
  finish_call i effects_empty [].

Definition socket_validate (i : SocketIdentity) : St (Envelope SocketKind) :=
  ensure_running ;;
  t ← gs socket_table;
  e ← lift_outcome (validate_any t i);
  finish_call (entry_kind e) effects_empty [].

Definition tcp_bind (i : SocketIdentity) (endpoint : TcpEndpoint) : St (Envelope unit) :=
  ensure_running ;;
  validate_tcp i ;;
  e ← lift_outcome (bind_endpoint endpoint);
  r ← tcp_record i;
  fail_if (bool_decide (phase r ≠ PhaseOpen)) InvalidState ;;
  fail_if (negb (family_matches (tr_family r) (v_address e))) InvalidAddress ;;
  st ← gs (λ st, st);
  fail_if (negb (is_unspecified (v_address e)) && negb (has_ip_address st (v_address e)))
    AddressNotAvailable ;;
  p ← (if (v_port e =? 0)%N then allocate_ephemeral_port (tr_family r)
       else fail_if (port_in_use st (v_port e) (tr_family r) (Some i)) AddressInUse ;;
            mret (v_port e));
  tcp_record_mut i (λ r, r <| phase := PhaseBound |>
                           <| local := Some {| addr := v_address e; port := p |} |>
                           <| local_scope_id := v_scope_id e |>) ;;
  finish_call tt effects_empty [].

(** One member of a new listener's pool is put to listening. *)
Definition listen_member (e : IpListenEndpoint) (h : SocketHandle) : St unit :=
  t ← get_tcp_socket h;
  let t := set_timeout (Some (Time.duration_from_millis CONNECT_TIMEOUT_MILLIS)) t in
  let '(r, ws, t) := tcp_listen_on e t in
  put_tcp_socket h t ;;
  wake_all ws ;;
  match r with
  | Ok _ => mret tt
  | Err ListenInvalidState => fail InvalidState
  | Err ListenUnaddressable => fail InvalidAddress
  | Panic => panic
  end.

(** [for _ in 1..pool_target { handles.push(...) }]. *)
Definition add_pool_socket (r : TcpRecord) (handles : list SocketHandle) : St (list SocketHandle) :=
  t ← lift_outcome (tcp_socket (tr_rcvbuf r) (tr_sndbuf r));
  h ← add_socket (STcp t);
  mret (handles ++ [h]).

Definition tcp_listen (i : SocketIdentity) (backlog : usize) (now : Time.Instant) :
    St (Envelope unit) :=
  ensure_running ;;
  validate_tcp i ;;
  fail_if (negb (contains 1 LISTENER_BACKLOG_MAX backlog)) InvalidBacklog ;;
  st ← gs (λ st, st);
  fail_if (bool_decide (is_Some (tcp_listeners st !! id i))) InvalidState ;;
  r ← tcp_record i;
  fail_if (bool_decide (phase r ≠ PhaseBound)) NotBound ;;
  l ← ok_or (local r) NotBound;
  let endpoint := {| v_address := addr l; v_port := port l; v_scope_id := local_scope_id r |} in
  le ← concrete_listener_endpoint endpoint;
  let pool_target := N.min backlog LISTENER_POOL_MAX in
  ensure_native_socket_capacity (saturating_sub pool_target 1) 0 ;;
  ensure_socket_buffer_capacity
    (saturating_mul (saturating_sub pool_target 1) (tr_rcvbuf r + tr_sndbuf r)) ;;
  handles ← for_acc (seq 1 (N.to_nat pool_target - 1)) (λ _, add_pool_socket r) [tr_handle r];
  for_each handles (listen_member le) ;;
  t ← get_tcp_socket (tr_handle r);
  let listener :=
    (listener_record_new i endpoint le l backlog (list_to_set handles) (tr_rcvbuf r) (tr_sndbuf r))
      <| lr_nodelay := negb (nagle t) |>
      <| lr_keepalive := bool_decide (is_Some (tcp_keep_alive t)) |> in
  remove_tcp_record r ;;
  ms (λ st, st <| tcp_listeners ::= <[id i := listener]> |>) ;;
  request_listener_scan ;;
  effects ← expect_drive now None;
  finish_call tt effects [].

(** ** Arming waiters *)
Definition register_waker (d : Direction) (w : Waker) (t : TcpSocket) : TcpSocket :=
  match d with Read => t <| rx_waker := Some w |> | Write => t <| tx_waker := Some w |> end.

Definition arm_tcp_waiter (i : SocketIdentity) (h : SocketHandle) (d : Direction) (o : Operation)
    (p : LocalPid) (r : Reference) (immediately_ready : bool) : St unit :=
  t ← gs socket_table;
  flag ← lift_outcome (ready_flag t i Tcp d);
  on_table (install_waiter {| reg_identity := i; reg_expected_kind := Tcp; reg_direction := d;
                              reg_pid := p; reg_operation := o; reg_reference := r |}) ;;
  let w := waker (ready_key i d) flag in
  tcp_update h (register_waker d w) ;;
  when immediately_ready (wake w).

Definition arm_connect (i : SocketIdentity) (h : SocketHandle) (p : LocalPid) (r : Reference) :
    St unit :=
  arm_tcp_waiter i h Write Connect p r false.

(** [handles.iter().any(...)]. *)
Fixpoint any_established (hs : list SocketHandle) : St bool :=
  match hs with
  | [] => mret false
  | h :: hs =>
      t ← get_tcp_socket h;
      match tcp_state t with
      | StEstablished | StCloseWait => mret true
      | _ => any_established hs
      end
  end.

Definition arm_listener_waiter (i : SocketIdentity) (p : LocalPid) (r : Reference) : St unit :=
  st ← gs (λ st, st);
  l ← ok_or (listener_of st i) InvalidSocket;
  let hs := bset_elems (pool l) in
  immediately_ready ←
    (if bool_decide (accepted_queue l ≠ []) then mret true else any_established hs);
  flag ← lift_outcome (ready_flag (socket_table st) i Tcp Read);
  on_table (install_waiter {| reg_identity := i; reg_expected_kind := Tcp; reg_direction := Read;
                              reg_pid := p; reg_operation := Accept; reg_reference := r |}) ;;
  let w := waker (ready_key i Read) flag in
  for_each hs (λ h, tcp_update h (register_waker Read w)) ;;
  when immediately_ready (wake w).

(** ** Accepting and connecting *)
Definition pop_accepted (i : SocketIdentity) : St (option SocketIdentity) :=
  ls ← gs tcp_listeners;
  match ls !! id i with
  | None => mret None
  | Some l =>
      match accepted_queue l with
      | [] => mret None
      | child :: q =>
          ms (λ st, st <| tcp_listeners ::= <[id i := l <| accepted_queue := q |>]> |>) ;;
          mret (Some child)
      end
  end.

Definition tcp_accept (i : SocketIdentity) (p : LocalPid) (ref : Reference) (now : Time.Instant) :
    St (Envelope Reply) :=
  ensure_running ;;
  validate_tcp i ;;
  st ← gs (λ st, st);
  match listener_of st i with
  | None =>
      if bool_decide (is_Some (tcp_records st !! id i)) then fail InvalidState
      else fail InvalidSocket
  | Some _ =>
      busy ← lift_outcome (has_waiter (socket_table st) i Tcp Read);
      fail_if busy Busy ;;
      request_listener_scan ;;
      '(scan_work, scan_more) ← refresh_listeners (l_maintenance_work (limits st));
      child ← pop_accepted i;
      reply ←
        match child with
        | Some child =>
            r ← tcp_record child;
            st ← gs (λ st, st);
            let '(nodelay, keepalive) :=
              match tcp_listeners st !! id i with
              | Some l => (lr_nodelay l, lr_keepalive l)
              | None => (false, false)
              end in
            tcp_update (tr_handle r) (λ t,
              set_keep_alive_config (keep_alive (tcp_timers st) keepalive)
                (set_nagle_enabled (negb nodelay) t)) ;;
            mret (ReplyAccepted child (tr_family r))
        | None =>
            arm_listener_waiter i p ref ;;
            mret (ReplySelect Accept ref)
        end;
      effects ← current_effects now;
      finish_call reply
        {| eff_output := eff_output effects; eff_poll_at := eff_poll_at effects;
           eff_more := eff_more effects || scan_more; eff_maintenance_work := scan_work |} []
  end.

Definition finalize_or_arm_connect (i : SocketIdentity) (p : LocalPid) (ref : Reference)
    (now : Time.Instant) : St (Envelope Reply) :=
  r ← tcp_record i;
  t ← get_tcp_socket (tr_handle r);
  match tcp_state t with
  | StEstablished =>
      timers ← gs tcp_timers;
      tcp_update (tr_handle r) (set_timeout (Some (user_timeout timers))) ;;
      tcp_record_mut i (λ r, r <| phase := PhaseConnected |>) ;;
      effects ← current_effects now;
      finish_call ReplyOk effects []
  | StSynSent | StSynReceived =>
      arm_connect i (tr_handle r) p ref ;;
      effects ← expect_drive now None;
      finish_call (ReplySelect Connect ref) effects []
  | StClosed =>
      let failure := match phase r with PhaseFailed f => f | _ => TimedOut end in
      tcp_record_mut i (λ r, r <| phase := PhaseFailed failure |>) ;;
      fail (socket_error failure)
  | _ => fail InvalidState
  end.

(** The engine's [connect], with the interface it draws from. *)
Definition connect_socket (h : SocketHandle) (re : IpEndpoint) (le : IpListenEndpoint) :
    St unit :=
  t ← get_tcp_socket h;
  iface ← gs interface;
  let t := set_timeout (Some (Time.duration_from_millis CONNECT_TIMEOUT_MILLIS)) t in
  let '(r, ws, t) :=
    tcp_connect_to (get_source_address iface (addr re)) (iface_rest iface) re le t in
  put_tcp_socket h t ;;
  wake_all ws ;;
  match r with
  | Ok _ => ms (λ st, st <| interface ::= λ i, i <| iface_rest ::= iface_after_connect |> |>)
  | Err ConnectInvalidState => fail InvalidState
  | Err ConnectUnaddressable => fail NetworkUnreachable
  | Panic => panic
  end.

(** The connect of a socket that is open or bound. *)
Definition connect_start (i : SocketIdentity) (r : TcpRecord) (re : ValidatedEndpoint)
    (p : LocalPid) (ref : Reference) (now : Time.Instant) : St (Envelope Reply) :=
  st ← gs (λ st, st);
  fail_if (negb (reachable st (v_address re))) NetworkUnreachable ;;
  l ← match local r with
      | Some l => mret l
      | None =>
          port ← allocate_ephemeral_port (tr_family r);
          mret {| addr := family_unspecified (tr_family r); port := port |}
      end;
  st ← gs (λ st, st);
  fail_if (port_in_use st (port l) (tr_family r) (Some i)) AddressInUse ;;
  let le := listen_endpoint {| v_address := addr l; v_port := port l;
                               v_scope_id := local_scope_id r |} in
  connect_socket (tr_handle r) (ip_endpoint re) le ;;
  t ← get_tcp_socket (tr_handle r);
  selected ← expect (local_endpoint t);
  tcp_record_mut i (λ r, r <| phase := PhaseConnecting |> <| local := Some selected |>
                           <| remote := Some (ip_endpoint re) |>
                           <| remote_scope_id := v_scope_id re |>) ;;
  ms (λ st, st <| tcp_connections ::= <[connection_key selected (ip_endpoint re) := i]> |>) ;;
  arm_connect i (tr_handle r) p ref ;;
  effects ← expect_drive now None;
  finish_call (ReplySelect Connect ref) effects [].

Definition tcp_connect (i : SocketIdentity) (endpoint : TcpEndpoint) (p : LocalPid)
    (ref : Reference) (now : Time.Instant) : St (Envelope Reply) :=
  ensure_running ;;
  validate_tcp i ;;
  re ← lift_outcome (remote_endpoint endpoint);
  r ← tcp_record i;
  fail_if (negb (family_matches (tr_family r) (v_address re))) InvalidAddress ;;
  match phase r with
  | PhaseConnected => fail AlreadyConnected
  | PhaseFailed failure => fail (socket_error failure)
  | PhaseConnecting =>
      fail_if (bool_decide (remote r ≠ Some (ip_endpoint re))
               || negb (remote_scope_id r =? v_scope_id re)%N) InvalidState ;;
      finalize_or_arm_connect i p ref now
  | PhaseOpen | PhaseBound => connect_start i r re p ref now
  end.

(** ** Names and options *)
Definition tcp_sockname (i : SocketIdentity) : St (Envelope EncodedEndpoint) :=
  ensure_running ;;
  validate_tcp i ;;
  st ← gs (λ st, st);
  match listener_of st i with
  | Some l =>
      finish_call (encoded_endpoint (lr_local l) (v_scope_id (lr_endpoint l))) effects_empty []
  | None =>
      r ← tcp_record i;
      l ← ok_or (local r) NotBound;
      finish_call (encoded_endpoint l (local_scope_id r)) effects_empty []
  end.

Definition tcp_peername (i : SocketIdentity) : St (Envelope EncodedEndpoint) :=
  ensure_running ;;
  validate_tcp i ;;
  st ← gs (λ st, st);
  match listener_of st i with
  | Some _ => fail NotConnected
  | None =>
      r ← tcp_record i;
      fail_if (negb (bool_decide (phase r = PhaseConnecting) || bool_decide (phase r = PhaseConnected)))
        NotConnected ;;
      p ← ok_or (remote r) NotConnected;
      finish_call (encoded_endpoint p (remote_scope_id r)) effects_empty []
  end.

Definition tcp_set_nodelay (i : SocketIdentity) (nodelay : bool) (now : Time.Instant) :
    St (Envelope unit) :=
  ensure_running ;;
  validate_tcp i ;;
  st ← gs (λ st, st);
  match listener_of st i with
  | Some l => ms (λ st, st <| tcp_listeners ::= <[id i := l <| lr_nodelay := nodelay |>]> |>)
  | None =>
      r ← tcp_record i;
      tcp_update (tr_handle r) (set_nagle_enabled (negb nodelay))
  end ;;
  effects ← expect_drive now None;
  finish_call tt effects [].

Definition tcp_nodelay (i : SocketIdentity) : St (Envelope bool) :=
  ensure_running ;;
  validate_tcp i ;;
  st ← gs (λ st, st);
  nodelay ← match listener_of st i with
            | Some l => mret (lr_nodelay l)
            | None =>
                r ← tcp_record i;
                t ← get_tcp_socket (tr_handle r);
                mret (negb (nagle t))
            end;
  finish_call nodelay effects_empty [].

Definition tcp_set_keepalive (i : SocketIdentity) (keepalive : bool) (now : Time.Instant) :
    St (Envelope unit) :=
  ensure_running ;;
  validate_tcp i ;;
  st ← gs (λ st, st);
  match listener_of st i with
  | Some l => ms (λ st, st <| tcp_listeners ::= <[id i := l <| lr_keepalive := keepalive |>]> |>)
  | None =>
      r ← tcp_record i;
      t ← get_tcp_socket (tr_handle r);
      when (negb (eqb (bool_decide (is_Some (tcp_keep_alive t))) keepalive))
        (tcp_update (tr_handle r) (set_keep_alive_config (keep_alive (tcp_timers st) keepalive)))
  end ;;
  effects ← expect_drive now None;
  finish_call tt effects [].

Definition tcp_keepalive (i : SocketIdentity) : St (Envelope bool) :=
  ensure_running ;;
  validate_tcp i ;;
  st ← gs (λ st, st);
  keepalive ← match listener_of st i with
              | Some l => mret (lr_keepalive l)
              | None =>
                  r ← tcp_record i;
                  t ← get_tcp_socket (tr_handle r);
                  mret (bool_decide (is_Some (tcp_keep_alive t)))
              end;
  finish_call keepalive effects_empty [].

(** ** Data *)
(** The checks shared by [tcp_send] and [tcp_recv]. *)
Definition transfer_record (i : SocketIdentity) (d : Direction) : St TcpRecord :=
  ensure_running ;;
  validate_tcp i ;;
  r ← tcp_record i;
  t ← gs socket_table;
  busy ← lift_outcome (has_waiter t i Tcp d);
  fail_if busy Busy ;;
  ensure_connected r ;;
  fail_if (match d with Read => read_shutdown r | Write => write_shutdown r end) Closed ;;
  mret r.

Definition ensure_waiter_room (needs_waiter : bool) : St unit :=
  when needs_waiter (t ← gs socket_table; lift_outcome (ensure_waiter_capacity t)).

Definition tcp_send (i : SocketIdentity) (data : bytes) (p : LocalPid) (ref : Reference)
    (now : Time.Instant) : St (Envelope Reply) :=
  r ← transfer_record i Write;
  lim ← gs limits;
  let copy_limit := N.min (llen data) (l_bytes_copied lim) in
  t ← get_tcp_socket (tr_handle r);
  fail_if (negb (may_send t)) Closed ;;
  room ← expect (checked_sub (tx_capacity t) (send_queue t));
  ensure_waiter_room (N.min copy_limit room <? llen data)%N ;;
  let '(sent, t) := send_slice (take (N.to_nat copy_limit) data) t in
  put_tcp_socket (tr_handle r) t ;;
  accepted ← match sent with Ok n => mret n | Err _ => fail Closed | Panic => panic end;
  let immediately_writable := can_send t in
  reply ←
    (if (accepted =? llen data)%N then mret ReplyOk
     else arm_tcp_waiter i (tr_handle r) Write Send p ref immediately_writable ;;
          mret (ReplySelectSent Send ref accepted));
  effects ← expect_drive now (Some accepted);
  finish_call reply effects [].

(** Whether a receive of [copied] bytes is done. *)
Definition recv_complete (length copied : usize) (receive_open : bool) : bool :=
  if (length =? 0)%N then (0 <? copied)%N
  else (copied =? length)%N || (negb receive_open && (0 <? copied)%N).

(** The prediction made before any byte is taken. *)
Definition recv_needs_waiter (length requested : usize) (t : TcpSocket) : bool :=
  let read_length := N.min requested (recv_queue t) in
  let remaining_queue := (recv_queue t - read_length)%N in
  let receive_open :=
    match tcp_state t with StEstablished | StFinWait1 | StFinWait2 => true | _ => false end
    || (0 <? remaining_queue)%N in
  negb (recv_complete length read_length receive_open) && receive_open.

Definition tcp_recv (i : SocketIdentity) (length : usize) (p : LocalPid) (ref : Reference)
    (now : Time.Instant) : St (Envelope Reply) :=
  r ← transfer_record i Read;
  lim ← gs limits;
  let requested := if (length =? 0)%N then l_bytes_copied lim else N.min length (l_bytes_copied lim) in
  t ← get_tcp_socket (tr_handle r);
  ensure_waiter_room (recv_needs_waiter length requested t) ;;
  let read_length := N.min requested (recv_queue t) in
  let '(got, t) := if (0 <? read_length)%N then recv_slice read_length t else (Ok [], t) in
  put_tcp_socket (tr_handle r) t ;;
  data ← match got with Ok d => mret d | Err _ => fail Closed | Panic => panic end;
  let receive_open := may_recv t in
  let immediately_readable := can_recv t in
  let copied := llen data in
  reply ←
    (if recv_complete length copied receive_open then mret (ReplyData data)
     else if negb receive_open then fail EndOfStream
     else
       arm_tcp_waiter i (tr_handle r) Read Recv p ref immediately_readable ;;
       mret (match data with [] => ReplySelect Recv ref | _ => ReplySelectData Recv ref data end));
  effects ← expect_drive now (Some copied);
  finish_call reply effects [].

(** ** Shutdown and close *)
Definition shutdown_waiter (i : SocketIdentity) (d : Direction) (selected : bool)
    (aborts : list PendingNotification) : St (list PendingNotification) :=
  if selected then
    w ← on_table (take_waiter i Tcp d);
    mret (match w with
          | Some w => aborts ++ [{| pn_identity := i; pn_direction := d; pn_waiter := w |}]
          | None => aborts
          end)
  else mret aborts.

Definition tcp_shutdown (i : SocketIdentity) (how : ShutdownHow) (now : Time.Instant) :
    St (Envelope unit) :=
  ensure_running ;;
  validate_tcp i ;;
  r ← tcp_record i;
  ensure_connected r ;;
  let read := match how with ShutRead | ShutReadWrite => true | ShutWrite => false end in
  let write := match how with ShutWrite | ShutReadWrite => true | ShutRead => false end in
  aborts ← shutdown_waiter i Read read [];
  aborts ← shutdown_waiter i Write write aborts;
  when (write && negb (write_shutdown r)) (tcp_call (tr_handle r) tcp_socket_close) ;;
  tcp_record_mut i (λ r, r <| read_shutdown ::= λ b, b || read |>
                           <| write_shutdown ::= λ b, b || write |>) ;;
  effects ← expect_drive now None;
  finish_call tt effects aborts.

(** A child still queued when its listener closes. *)
Definition close_queued_child (child : SocketIdentity) (aborts : list PendingNotification) :
    St (list PendingNotification) :=
  closed ← attempt (on_table (table_close child));
  let aborts := match closed with
                | inl ws => aborts ++ notifications child ws
                | inr _ => aborts
                end in
  record ← attempt (tcp_record child);
  match record with
  | inl r => remove_socket (tr_handle r) ;; remove_tcp_record r
  | inr _ => mret tt
  end ;;
  mret aborts.

Definition tcp_listener_close (i : SocketIdentity) (now : Time.Instant) : St (Envelope unit) :=
  st ← gs (λ st, st);
  ms (λ st, st <| tcp_listeners ::= delete (id i) |>) ;;
  l ← ok_or (listener_of st i) InvalidSocket;
  ws ← on_table (table_close i);
  for_each (bset_elems (pool l)) remove_socket ;;
  aborts ← for_acc (accepted_queue l) close_queued_child (notifications i ws);
  ms (λ st, st <| listener_scan_cursor := None |>
               <| listener_scan_pending := bool_decide (tcp_listeners st ≠ ∅) |>
               <| listener_scan_resweep := false |>) ;;
  effects ← expect_drive now None;
  finish_call tt effects aborts.

Definition tcp_close (i : SocketIdentity) (now : Time.Instant) : St (Envelope unit) :=
  ensure_running ;;
  validate_tcp i ;;
  st ← gs (λ st, st);
  if is_listener st i then tcp_listener_close i now
  else
    r ← tcp_record i;
    ws ← on_table (table_close i);
    let graceful := bool_decide (phase r = PhaseConnected) in
    (if graceful then
       tcp_call (tr_handle r) tcp_socket_close ;;
       record ← tcp_record i;
       deadline ← lift_outcome (Time.instant_add overflow_checks now
                                  (Time.duration_from_millis CLOSE_TIMEOUT_MILLIS));
       ms (λ st, st <| tcp_records ::= <[id i := record <| close_deadline := Some deadline |>]> |>) ;;
       ms (λ st, st <| closing_tcp ::= λ ids, {[id i]} ∪ ids |>
                    <| closing_deadlines ::= λ ds, {[(deadline, id i)]} ∪ ds |>
                    <| closing_sweep_cursor := None |>) ;;
       request_closing_cleanup ;;
       ms (λ st, st <| maintenance_cleanup_turn := false |>)
     else tcp_call (tr_handle r) tcp_abort) ;;
    effects ← expect_drive now None;
    when (negb graceful) (remove_tcp_socket r) ;;
    finish_call tt effects (notifications i ws).

Definition cancel (i : SocketIdentity) (o : Operation) (ref : Reference) :
    St (Envelope CancelResult) :=
  ensure_running ;;
  r ← on_table (table_cancel i o ref);
  finish_call r effects_empty [].
End tcp_ops.

(** ** Every call settles its account *)
Section tcp_steps.
Context `{Beam, Mailbox, Engine}.
Implicit Types (s : Sys) (x : Held) (R : SocketError → Sys → Prop).

Lemma validate_tcp_wp i (Q : unit → Sys → Prop) R s :
  (registered (socket_table (stack s)) i Tcp → Q tt s) → (∀ e, R e s) → wp (validate_tcp i) Q R s.
Proof. intros HQ HR. unfold validate_tcp. apply wp_bind, wp_gs. apply wp_bind, wp_validate; [|done]. intros e Hr. by apply HQ. Qed.

(** A new socket enters the table, or is taken back out of the set. *)
Lemma insert_or_remove_wp s0 x kind h (Q : SocketIdentity → Sys → Prop) R s :
  J s0 x s →
  (∀ i t', J s0 (x <| exempt ::= λ X, {[id i]} ∪ X |>) (put_table t' s) →
    inserted i kind (put_table t' s) → Q i (put_table t' s)) →
  (∀ e t', J s0 x (put_table t' s) → wp (remove_socket h) (λ _, R e) R (put_table t' s)) →
  wp (insert_or_remove kind h) Q R s.
Proof.
  intros HJ HQ HR. unfold insert_or_remove. apply wp_bind, wp_attempt.
  eapply wp_table_insert; [exact HJ| |].
  - intros i t' HJ' Hin _ _. by apply HQ.
  - intros t' HJ' _. st_steps. by apply HR.
Qed.

Lemma notifications_held i ws : note_held <$> notifications i ws = given i ws.
Proof. unfold notifications, given. by rewrite <-list_fmap_compose. Qed.

(** The socket of a record, and what the invariant says of a record. *)
Lemma tcp_socket_of x i r s :
  inv x s → tcp_records (stack s) !! i = Some r → ∃ t, get_tcp (sockets (stack s)) (tr_handle r) = Some t.
Proof. intros [Hso] Hr. destruct (sock_tcp_handle _ _ _ _ _ _ _ _ Hso Hr) as (t & Ht & _). by exists t. Qed.
Lemma tcp_record_ok x i r s : inv x s → tcp_records (stack s) !! i = Some r → record_wf i r.
Proof. intros [Hso] Hr. by eapply (so_records _ _ _ _ _ _ Hso). Qed.
Lemma tcp_not_closing i r s :
  stack_wf s → registered (socket_table (stack s)) i Tcp → is_listener (stack s) i = false →
  tcp_records (stack s) !! id i = Some r → (id i ∉ closing_tcp (stack s)) ∧ close_deadline r = None.
Proof.
  intros [_ Hre _ _ _ _ _] Hreg Hnl Hr.
  destruct (re_recorded _ _ _ _ _ _ _ _ _ Hre i Tcp ltac:(set_solver) Hreg) as [(r' & _ & _ & Hc)|(l & Hl & Hid)].
  - split; [done|]. destruct (close_deadline r) as [d|] eqn:Hd; [|done].
    by destruct (re_deadline _ _ _ _ _ _ _ _ _ Hre _ _ _ Hr Hd).
  - unfold is_listener in Hnl. rewrite Hl in Hnl. by rewrite bool_decide_eq_false in Hnl.
Qed.

Lemma wp_tcp_record_is i r (Q : TcpRecord → Sys → Prop) R s :
  tcp_records (stack s) !! id i = Some r → tr_identity r = i → is_listener (stack s) i = false →
  Q r s → wp (tcp_record i) Q R s.
Proof.
  intros Hr Hid Hnl HQ. unfold tcp_record. apply wp_bind, wp_gs. rewrite Hnl, Hr.
  by rewrite bool_decide_eq_true_2.
Qed.
Lemma wp_tcp_record_mut i f r (Q : unit → Sys → Prop) R s :
  tcp_records (stack s) !! id i = Some r → tr_identity r = i → is_listener (stack s) i = false →
  Q tt (with_records (<[id i := f r]> (tcp_records (stack s))) s) → wp (tcp_record_mut i f) Q R s.
Proof.
  intros Hr Hid Hnl HQ. unfold tcp_record_mut. apply wp_bind. by eapply wp_tcp_record_is.
Qed.
Lemma listener_of_Some st i l : listener_of st i = Some l → tcp_listeners st !! id i = Some l ∧ lr_identity l = i.
Proof. unfold listener_of. intros Hl. repeat case_match; simplify_eq. by rewrite bool_decide_eq_true in *. Qed.
Lemma listener_of_None st i : listener_of st i = None → is_listener st i = false.
Proof. unfold listener_of, is_listener. intros Hl. repeat case_match; done. Qed.

(** Two records have two sockets. *)
Lemma tcp_handles_distinct rs ls hs ss i j r r' :
  owns Tcp (tcp_handles rs ls ++ hs) ss → rs !! i = Some r → rs !! j = Some r' → j ≠ i → tr_handle r' ≠ tr_handle r.
Proof.
  intros [Hnd _] Hr Hr' Hne He. unfold tcp_handles in Hnd. rewrite <-app_assoc in Hnd.
  rewrite (bmap_flat_delete _ _ _ _ Hr) in Hnd. simpl in Hnd.
  apply list.NoDup_cons in Hnd as [Hn _]. apply Hn. rewrite elem_of_app. left.
  apply elem_of_bmap_flat. exists j, r'. rewrite lookup_delete_ne by done. split; [done|]. simpl. rewrite He. by left.
Qed.
End tcp_steps.

Section tcp_ok.
Context `{Beam, Mailbox, Engine, !EngineLaws}.
Implicit Types (s : Sys) (x : Held) (R : SocketError → Sys → Prop).

Lemma tcp_open_ok f rcvbuf sndbuf s : stack_wf s → call_ok (tcp_open f rcvbuf sndbuf) nothing s.
Proof.
  intros Hwf. unfold call_ok, tcp_open. pose proof (λ e : SocketError, refuses_same s e Hwf) as Hrf. guards.
  apply wp_ensure_logical; [|apply Hrf]. guards.
  eapply wp_ensure_native; [by apply J_intro| |apply Hrf]. intros HJ1. guards.
  apply orb_false_iff in Hg as [Hrv%negb_false_iff Hsv%negb_false_iff].
  eapply wp_ensure_bytes; [exact HJ1| |apply Hrf]. intros HJ2. guards.
  destruct (tcp_socket_valid rcvbuf sndbuf Hrv Hsv) as (t & -> & Ht & Hcl). apply wp_bind.
  eapply wp_add_tcp; [exact HJ2|exact Ht|done|]. intros h ss HJ3 _ Hss. apply wp_bind.
  eapply insert_or_remove_wp; [exact HJ3| |].
  - intros i t' HJ4 Hin. apply wp_bind, wp_ms. pose proof (J_during _ _ _ HJ4) as Hdu.
    pose proof (inv_new_tcp i (tcp_record_new i h f rcvbuf sndbuf) [] _ _ (proj1 HJ4) Hin eq_refl) as Hi5.
    eapply (finish_answers s nothing [] []); [apply Hi5|done|done|done| |done]; try done.
    + intros t0 _ Ht0%get_tcp_set_get. simpl in Ht0. rewrite Hss, decide_True in Ht0 by done. by simplify_eq.
    + apply during_end. du_same.
  - intros e t' HJ4. eapply wp_remove_tcp; [exact HJ4|simpl; reflexivity|]. intros ss' HJ5. by eapply refuses_J.
Qed.

Lemma socket_validate_ok i s : stack_wf s → call_ok (socket_validate i) nothing s.
Proof.
  intros Hwf. unfold call_ok, socket_validate. pose proof (λ e : SocketError, refuses_same s e Hwf) as Hrf. guards.
  apply wp_lift_outcome; [intros e _|intros; apply Hrf|].
  - by eapply finish_plain; [apply J_intro, Hwf|..].
  - unfold validate_any. repeat case_match; done.
Qed.

(** ** Names and options *)
Ltac tcp_start Hwf :=
  lazymatch goal with |- context [call_ok _ _ ?s] =>
    pose proof (λ e : SocketError, refuses_same s e Hwf) as Hrf end;
  unfold call_ok; guards; apply validate_tcp_wp; [intros Hreg; guards|refuse].

Lemma tcp_sockname_ok i s : stack_wf s → call_ok (tcp_sockname i) nothing s.
Proof.
  intros Hwf. unfold tcp_sockname. tcp_start Hwf.
  destruct (listener_of (stack s) i); guards; by eapply finish_plain; [apply J_intro, Hwf|..].
Qed.
Lemma tcp_peername_ok i s : stack_wf s → call_ok (tcp_peername i) nothing s.
Proof.
  intros Hwf. unfold tcp_peername. tcp_start Hwf.
  destruct (listener_of (stack s) i); guards. by eapply finish_plain; [apply J_intro, Hwf|..].
Qed.
Lemma tcp_nodelay_ok i s : stack_wf s → call_ok (tcp_nodelay i) nothing s.
Proof.
  intros Hwf. unfold tcp_nodelay. tcp_start Hwf.
  destruct (listener_of (stack s) i); guards; [by eapply finish_plain; [apply J_intro, Hwf|..]|].
  destruct (tcp_socket_of _ _ _ _ Hwf Hr) as [t Ht]. eapply wp_get_tcp; [exact Ht|]. guards.
  by eapply finish_plain; [apply J_intro, Hwf|..].
Qed.
Lemma tcp_keepalive_ok i s : stack_wf s → call_ok (tcp_keepalive i) nothing s.
Proof.
  intros Hwf. unfold tcp_keepalive. tcp_start Hwf.
  destruct (listener_of (stack s) i); guards; [by eapply finish_plain; [apply J_intro, Hwf|..]|].
  destruct (tcp_socket_of _ _ _ _ Hwf Hr) as [t Ht]. eapply wp_get_tcp; [exact Ht|]. guards.
  by eapply finish_plain; [apply J_intro, Hwf|..].
Qed.

(** The end shared by the calls that drive. *)
Lemma drive_says {A} (promise : A → option held) res now copied ins aborts x R s0 s :
  inv x s → held_tcp x = [] → held_udp x = [] → free_slots x = 0%N → free_bytes x = 0%N → exempt x = ∅ →
  during s0 ins (note_held <$> aborts) None s → arms (promise res) s0 ins →
  wp (effects ← expect_drive now copied; finish_call res effects aborts)
    (λ env s', answers promise s0 env s' ∧ result env = res) R s.
Proof.
  intros Hi Ht Hu Hs Hb He Hdu Har. apply wp_bind. eapply expect_drive_wp; [exact Hi|exact Hdu|done|done|].
  intros eff s' Hi' Hdu' _. by eapply finish_says.
Qed.
Lemma drive_finish_wp {A} (promise : A → option held) res now copied ins aborts x R s0 s :
  inv x s → held_tcp x = [] → held_udp x = [] → free_slots x = 0%N → free_bytes x = 0%N → exempt x = ∅ →
  during s0 ins (note_held <$> aborts) None s → arms (promise res) s0 ins →
  wp (effects ← expect_drive now copied; finish_call res effects aborts) (answers promise s0) R s.
Proof.
  intros Hi Ht Hu Hs Hb He Hdu Har. eapply wp_mono; [by eapply drive_says| |done]. by intros env s' [].
Qed.

(** An option that a listener keeps for the sockets it accepts. *)
Lemma listener_option_wf i l l' s :
  stack_wf s → tcp_listeners (stack s) !! i = Some l → lr_identity l' = lr_identity l → pool l' = pool l →
  listener_bytes l' = listener_bytes l → (listener_wf i l → listener_wf i l') →
  accepted_queue l' = accepted_queue l →
  stack_wf (with_listeners (<[i := l']> (tcp_listeners (stack s))) s)
  ∧ during s [] [] None (with_listeners (<[i := l']> (tcp_listeners (stack s))) s).
Proof.
  intros Hwf Hl Hid Hp Hb Hw Hq. split; [|pose proof (during_refl s); du_same].
  eapply inv_listener_update; try done; [|by rewrite Hq].
  apply Hw. by apply (so_listeners _ _ _ _ _ _ (inv_sock _ _ Hwf)).
Qed.

Lemma tcp_set_nodelay_ok i b now s : stack_wf s → call_ok (tcp_set_nodelay i b now) nothing s.
Proof.
  intros Hwf. unfold tcp_set_nodelay. tcp_start Hwf. destruct (listener_of (stack s) i) as [l|] eqn:Hl.
  - apply listener_of_Some in Hl as [Hl Hid]. apply wp_ms.
    destruct (listener_option_wf (id i) l (l <| lr_nodelay := b |>) s) as [Hi Hdu]; try done.
    by eapply (drive_finish_wp nothing tt now None [] []).
  - guards. destruct (tcp_socket_of _ _ _ _ Hwf Hr) as [t Ht]. pose proof (J_intro _ _ Hwf) as HJ.
    eapply wp_tcp_update; [exact HJ|exact Ht|exact (J_tcp_wf _ _ _ _ _ HJ Ht)|by eapply closed_ok_same|].
    intros ss HJ1 _. eapply (drive_finish_wp nothing tt now None [] []); [apply HJ1|done..|by eapply J_during|done].
Qed.
Lemma tcp_set_keepalive_ok i b now s : stack_wf s → call_ok (tcp_set_keepalive i b now) nothing s.
Proof.
  intros Hwf. unfold tcp_set_keepalive. tcp_start Hwf. destruct (listener_of (stack s) i) as [l|] eqn:Hl.
  - apply listener_of_Some in Hl as [Hl Hid]. apply wp_ms.
    destruct (listener_option_wf (id i) l (l <| lr_keepalive := b |>) s) as [Hi Hdu]; try done.
    by eapply (drive_finish_wp nothing tt now None [] []).
  - guards. destruct (tcp_socket_of _ _ _ _ Hwf Hr) as [t Ht]. pose proof (J_intro _ _ Hwf) as HJ.
    eapply wp_get_tcp; [exact Ht|]. apply wp_when; intros _.
    + eapply wp_tcp_update; [exact HJ|exact Ht| |by eapply closed_ok_same|].
      { pose proof (J_tcp_wf _ _ _ _ _ HJ Ht) as [Hw Hb]. by split. }
      intros ss HJ1 _. eapply (drive_finish_wp nothing tt now None [] []); [apply HJ1|done..|by eapply J_during|done].
    + eapply (drive_finish_wp nothing tt now None [] []); [exact Hwf|done..|apply during_refl|done].
Qed.

(** ** Binding *)
Lemma tcp_bind_ok i e s : stack_wf s → call_ok (tcp_bind i e) nothing s.
Proof.
  intros Hwf. unfold tcp_bind. tcp_start Hwf.
  eapply (wp_mono _ (λ p s', J s held_none s' ∧ chose_port s s' ∧ p ≠ 0%N) _ (refuses s));
    [|intros p s1 (HJ1 & [Hb _] & Hp)|done].
  { destruct (N.eqb_spec (v_port v) 0); guards.
    - eapply wp_allocate_tcp; [by apply J_intro| |exact Hrf]. intros p s1 HJ1 Hc Hp. done.
    - split; [by apply J_intro|]. by repeat constructor. }
  apply wp_bind. pose proof (bk_records _ _ Hb) as Hrs. pose proof (bk_listeners _ _ Hb) as Hls.
  eapply (wp_tcp_record_mut _ _ r); [by rewrite Hrs|done|unfold is_listener in *; by rewrite Hls|].
  pose proof (J_during _ _ _ HJ1) as Hdu. rewrite bool_decide_neq_false in Hg.
  pose proof (tcp_record_ok _ _ _ _ Hwf Hr) as (Hri & Hrv & Hsv & _).
  eapply (finish_answers s nothing [] [] held_none); [|done|done|done|apply during_end; du_same|done].
  eapply (inv_record_update (id i) r); [apply HJ1|by rewrite Hrs|done|done|done| | | |by rewrite Hg].
  - split_and!; try done. intros _. by eexists.
  - simpl. intros d Hd. destruct (tcp_not_closing i r s); try done. congruence.
  - intros t _ _ Ht. assert (Hr1 : tcp_records (stack s1) !! id i = Some r) by (by rewrite Hrs).
    eapply (so_idle _ _ _ _ _ _ (inv_sock _ _ (proj1 HJ1))); [exact Hr1|set_solver|by rewrite Hg|exact Ht].
Qed.

(** ** Arming *)
Lemma register_waker_ok d w t : waker_ok w → socket_wf (STcp t) → socket_wf (STcp (register_waker d w t)).
Proof.
  intros Hw [Hf Hb]. split; [|by destruct d]. simpl in *. unfold wakers in *.
  destruct t, d; simpl in *; repeat case_match; simpl in *; rewrite ?list.Forall_cons in *;
    destruct_and?; split_and?; (done || by constructor).
Qed.

(** A waiter that there is room for is registered. *)
Definition waiter_free s i d (o : Operation) : Prop :=
  has_waiter (socket_table (stack s)) i Tcp d = Ok false
  ∧ ensure_waiter_capacity (socket_table (stack s)) = Ok tt ∧ operation_direction o = d.

Lemma install_free s i d o p ref :
  waiter_free s i d o →
  wp (on_table (install_waiter {| reg_identity := i; reg_expected_kind := Tcp; reg_direction := d;
    reg_pid := p; reg_operation := o; reg_reference := ref |})) (λ _ _, True) (λ _ _, False) s.
Proof.
  intros (Hh & Hc & Ho). unfold has_waiter in Hh. unfold ensure_waiter_capacity in Hc.
  destruct (validate (socket_table (stack s)) i Tcp) as [e|e|] eqn:Hv; simplify_eq/=.
  destruct (max_waiters (socket_table (stack s)) <=? waiter_count (socket_table (stack s)))%N eqn:Hm; [done|].
  apply wp_zoom. unfold install_waiter, put_entry. apply wp_bind. simpl.
  rewrite bool_decide_eq_false_2 by naive_solver. apply wp_ret, wp_bind, wp_gets. simpl. rewrite Hv.
  apply wp_bind, wp_ret. cbn beta. destruct (waiter e (operation_direction o)); [by rewrite bool_decide_eq_true_2 in Hh|].
  rewrite Hm. apply wp_bind, wp_ret, wp_bind, wp_expect.
  apply validate_Ok in Hv as (He & _). eexists. split; [exact He|]. by wp_steps.
Qed.

Lemma arm_tcp_waiter_wp s0 x i h t d o p ref imm (Q : unit → Sys → Prop) R s :
  inv x s → during s0 [] [] None s → get_tcp (sockets (stack s)) h = Some t →
  (∀ ins s', inv x s' → during s0 ins [] None s' →
    arms (Some (ready_key i d, waiter_new p o ref)) s0 ins → Q tt s') →
  (∀ e, R e s) ∨ waiter_free s i d o → wp (arm_tcp_waiter i h d o p ref imm) Q R s.
Proof.
  intros Hi Hdu Ht HQ HR. unfold arm_tcp_waiter. apply wp_bind, wp_gs.
  apply wp_bind, wp_lift_outcome; [intros flag Hfl|intros e He|apply ready_flag_no_panic]; cycle 1.
  { destruct HR as [HR|(Hh & _)]; [apply HR|]. unfold ready_flag in He. unfold has_waiter in Hh.
    by destruct (validate _ _ _). }
  apply (ready_flag_key (get_table s)) in Hfl as ->; [|apply Hi].
  apply wp_bind. set (R' := λ (_ : SocketError) (s' : Sys), s' = s).
  set (reg := {| reg_identity := i; reg_expected_kind := Tcp; reg_direction := d;
    reg_pid := p; reg_operation := o; reg_reference := ref |}).
  eapply (wp_mono _ (λ res s1, ∃ ins, inv x s1 ∧ during s0 ins [] None s1 ∧ arms (Some (reg_held reg)) s0 ins
    ∧ get_tcp (sockets (stack s1)) h = Some t) _ R).
  { assert (Hw : wp (on_table (install_waiter reg)) (λ res s1, ∃ ins, inv x s1 ∧ during s0 ins [] None s1
      ∧ arms (Some (reg_held reg)) s0 ins ∧ get_tcp (sockets (stack s1)) h = Some t) R' s).
    { eapply wp_install; [exact Hi|exact Hdu| |done]. intros res ins t' Hi1 Hdu1 Har _. by exists ins. }
    destruct HR as [HR|Hfree]; [eapply wp_mono; [exact Hw|done|intros e ? ->; apply HR]|].
    eapply wp_mono; [exact (wp_conj _ _ _ _ _ _ Hw (install_free s i d o p ref Hfree))|by intros ? ? []|by intros ? ? []]. }
  2: done.
  intros res s1 (ins & Hi1 & Hdu1 & Har & Ht1). set (w := waker _ _). assert (Hw : waker_ok w) by done.
  apply wp_bind. pose proof (J_intro _ _ Hi1) as HJ1.
  eapply (wp_tcp_update s1 x h t); [exact HJ1|exact Ht1| | |].
  - apply register_waker_ok; [done|]. by eapply J_tcp_wf.
  - eapply closed_ok_same; [exact HJ1|exact Ht1|]. by destruct d.
  - intros ss HJ2 _. apply wp_when; intros _.
    + apply (J_wake (E:=SocketError) _ _ w) in HJ2; [|done]. unfold after, wake in HJ2. unfold wake. apply wp_modify.
      eapply HQ; [apply HJ2|eapply during_driven; [apply HJ2|exact Hdu1]|exact Har].
    + eapply HQ; [apply HJ2|eapply during_driven; [apply HJ2|exact Hdu1]|exact Har].
Qed.

(** What arming leaves: the waiter in the table, its waker on the socket. *)
Lemma arm_tcp_waiter_armed i h t d o p ref imm s :
  get_tcp (sockets (stack s)) h = Some t →
  wp (arm_tcp_waiter i h d o p ref imm)
    (λ _ s', armed_at (get_table s') (ready_key i d) (waiter_new p o ref)
      ∧ (∃ w, sockets (stack s') = set_put h (Some (STcp (register_waker d w t))) (sockets (stack s)))
      ∧ tcp_records (stack s') = tcp_records (stack s) ∧ messages s' = messages s) (λ _ _, True) s.
Proof.
  intros Ht. unfold arm_tcp_waiter. apply wp_bind, wp_gs.
  apply wp_bind, wp_lift_outcome; [intros flag _|done|apply ready_flag_no_panic].
  apply wp_bind, wp_zoom. eapply wp_mono; [apply install_waiter_arms| |done]. intros res t' Ha. cbv beta in *.
  apply wp_bind. unfold tcp_update. apply wp_bind. eapply wp_get_tcp; [exact Ht|]. apply wp_ms.
  apply wp_when; intros _; [|split_and!; [exact Ha|by eexists|done|done]].
  unfold wake. apply wp_modify. simpl. destruct (mark_ready _ _ _). split_and!; [exact Ha|by eexists|done|done].
Qed.

(** ** Data *)
Lemma ensure_connected_wp i r (Q : unit → Sys → Prop) R s :
  stack_wf s → tcp_records (stack s) !! i = Some r →
  (phase r = PhaseConnected → Q tt s) → (∀ e, R e s) → wp (ensure_connected r) Q R s.
Proof.
  intros Hwf Hr HQ HR. unfold ensure_connected. destruct (phase r); try apply HR.
  destruct (tcp_socket_of _ _ _ _ Hwf Hr) as [t Ht]. apply wp_bind. eapply wp_get_tcp; [exact Ht|].
  apply wp_fail_if; [intros _; apply HR|]. intros _. by apply HQ.
Qed.

Lemma transfer_record_wp i d (Q : TcpRecord → Sys → Prop) R s :
  stack_wf s →
  (∀ r, tcp_records (stack s) !! id i = Some r → has_waiter (socket_table (stack s)) i Tcp d = Ok false → Q r s) →
  (∀ e, R e s) → wp (transfer_record i d) Q R s.
Proof.
  intros Hwf HQ HR. unfold transfer_record.
  apply wp_bind, wp_ensure_running; [intros _|done]. apply wp_bind, validate_tcp_wp; [intros Hreg|done].
  apply wp_bind, wp_tcp_record; [intros r Hr Hid Hnl|done]. apply wp_bind, wp_gs.
  apply wp_bind, wp_lift_outcome; [intros busy Hb|intros; apply HR|].
  - apply wp_bind, wp_fail_if; [intros _; apply HR|intros ->].
    apply wp_bind. eapply ensure_connected_wp; [done|done|intros Hph|done].
    apply wp_bind, wp_fail_if; [intros _; apply HR|intros _]. by apply wp_ret, HQ.
  - unfold has_waiter. pose proof (validate_no_panic (socket_table (stack s)) i Tcp).
    by destruct (validate (socket_table (stack s)) i Tcp).
Qed.

Lemma ensure_waiter_room_wp b (Q : unit → Sys → Prop) R s :
  ((b = true → ensure_waiter_capacity (socket_table (stack s)) = Ok tt) → Q tt s) → (∀ e, R e s) →
  wp (ensure_waiter_room b) Q R s.
Proof.
  intros HQ HR. unfold ensure_waiter_room. apply wp_when; [intros ->|by intros ->; apply HQ].
  apply wp_bind, wp_gs. apply wp_lift_outcome; [intros [] He|intros; apply HR|].
  - apply HQ. by intros _.
  - unfold ensure_waiter_capacity. by destruct (_ <=? _)%N.
Qed.

(** A failed transfer leaves every socket, and so its buffers, as it was. *)
Definition untouched s (e : SocketError) s' : Prop := refuses s e s' ∧ sockets (stack s') = sockets (stack s).

(** The connection of a socket. *)
Definition tcp_of s (i : SocketIdentity) (t : TcpSocket) : Prop :=
  ∃ r, tcp_records (stack s) !! id i = Some r ∧ get_tcp (sockets (stack s)) (tr_handle r) = Some t.

(** The state [s1] in which a transfer leaves the stack to be driven: only the
    socket has changed, to [t1], and a promised waiter is in the table. *)
Definition handover s (i : SocketIdentity) (d : Direction) (promise : option Waiter) (t1 : TcpSocket) s1 : Prop :=
  ∃ r, tcp_records (stack s) !! id i = Some r
    ∧ sockets (stack s1) = set_put (tr_handle r) (Some (STcp t1)) (sockets (stack s))
    ∧ tcp_records (stack s1) = tcp_records (stack s) ∧ messages s1 = messages s
    ∧ match promise with
      | None => get_table s1 = get_table s
      | Some w => armed_at (get_table s1) (ready_key i d) w
      end.
Definition driven_on {A} (now : Time.Instant) (copied : usize) (s1 : Sys) (env : Envelope A) s' : Prop :=
  (effects ← expect_drive now (Some copied); finish_call (E:=SocketError) (result env) effects []) s1 = (Ok env, s').

(** The end shared by both directions, with and without a waiter. *)
Lemma transfer_done_wp i d p r t t1 reply now n s :
  stack_wf s → tcp_records (stack s) !! id i = Some r → promise_of i p reply = None →
  let s1 := with_sockets (set_put (tr_handle r) (Some (STcp t1)) (sockets (stack s))) s in
  get_tcp (sockets (stack s)) (tr_handle r) = Some t → J s held_none s1 →
  wp (effects ← expect_drive now (Some n); finish_call reply effects [])
    (λ env s', answers (promise_of i p) s env s' ∧ result env = reply
      ∧ ∃ s1, handover s i d None t1 s1 ∧ driven_on now n s1 env s') (untouched s) s1.
Proof.
  intros Hwf Hr Hpr s1 Ht HJ1. pose proof (J_during _ _ _ HJ1) as Hdu1.
  eapply wp_mono; [apply wp_self; by eapply (drive_says (promise_of i p) reply _ _ [] []); [apply HJ1|..|rewrite Hpr]| |done].
  intros env s' [[Ha Hres] Hrun]. split_and!; [done|done|]. exists s1. split; [by exists r|].
  unfold driven_on. by rewrite Hres.
Qed.

Lemma transfer_armed_wp i d o p ref r t t1 reply now n imm s :
  stack_wf s → tcp_records (stack s) !! id i = Some r →
  promise_of i p reply = Some (ready_key i d, waiter_new p o ref) →
  let s1 := with_sockets (set_put (tr_handle r) (Some (STcp t1)) (sockets (stack s))) s in
  get_tcp (sockets (stack s)) (tr_handle r) = Some t → J s held_none s1 → waiter_free s1 i d o →
  wp (arm_tcp_waiter i (tr_handle r) d o p ref imm ;; effects ← expect_drive now (Some n); finish_call reply effects [])
    (λ env s', answers (promise_of i p) s env s' ∧ result env = reply
      ∧ ∃ w s1, handover s i d (Some (waiter_new p o ref)) (register_waker d w t1) s1 ∧ driven_on now n s1 env s')
    (untouched s) s1.
Proof.
  intros Hwf Hr Hpr s1 Ht HJ1 Hfree. pose proof (J_during _ _ _ HJ1) as Hdu1.
  assert (Ht1 : get_tcp (sockets (stack s1)) (tr_handle r) = Some t1).
  { apply get_tcp_set_get in Ht. apply get_tcp_set_get. simpl.
    destruct (set_put_spec (tr_handle r) _ (Some (STcp t1)) _ Ht) as [Hg _]. by rewrite Hg, decide_True. }
  apply wp_bind. eapply wp_mono; [apply wp_conj; [|by apply arm_tcp_waiter_armed]| |by intros ? ? []].
  - eapply (arm_tcp_waiter_wp s held_none i _ t1 d o p ref imm (λ _ s', ∃ ins, stack_wf s' ∧ during s ins [] None s'
      ∧ arms (Some (ready_key i d, waiter_new p o ref)) s ins)); [apply HJ1|exact Hdu1|exact Ht1| |by right].
    intros ins s2 Hi2 Hdu2 Har. by exists ins.
  - intros [] s2 [(ins & Hi2 & Hdu2 & Har) (Harm & (w & Hss) & Hrs & Hms)].
    eapply wp_mono; [apply wp_self; by eapply (drive_says (promise_of i p) reply _ _ ins []); [..|rewrite Hpr]| |done].
    intros env s' [[Ha Hres] Hrun]. split_and!; [done|done|]. exists w, s2. split; [|unfold driven_on; by rewrite Hres].
    exists r. split_and!; [done| |exact Hrs|exact Hms|exact Harm]. rewrite Hss. unfold s1, set_put. simpl.
    unfold SocketSet in *. by rewrite list_insert_insert_eq.
Qed.

(** A send takes as much as the call may copy and the buffer has room for,
    appends it to the buffer, and arms a waiter exactly when that is not all. *)
Definition accepted_of s (i : SocketIdentity) (data : bytes) (p : LocalPid) (ref : Reference)
    (now : Time.Instant) (env : Envelope Reply) s' : Prop :=
  ∃ t t1 s1, tcp_of s i t ∧ may_send t = true
    ∧ let n := N.min (N.min (llen data) (l_bytes_copied (limits (stack s)))) (tx_capacity t - send_queue t) in
      tx_buffer t1 = tx_buffer t ++ take (N.to_nat n) data
      ∧ rx_buffer t1 = rx_buffer t ∧ tcp_state t1 = tcp_state t
      ∧ ((n = llen data ∧ result env = ReplyOk ∧ handover s i Write None t1 s1)
         ∨ ((n < llen data)%N ∧ result env = ReplySelectSent Send ref n
            ∧ handover s i Write (Some (waiter_new p Send ref)) t1 s1))
      ∧ driven_on now n s1 env s'.

Lemma tcp_send_wp i data p ref now s :
  stack_wf s → wp (tcp_send i data p ref now)
    (λ env s', answers (promise_of i p) s env s' ∧ accepted_of s i data p ref now env s') (untouched s) s.
Proof.
  intros Hwf. assert (Hrf : ∀ e, untouched s e s) by (intros; split; [by apply refuses_same|done]).
  unfold tcp_send. apply wp_bind. eapply transfer_record_wp; [exact Hwf| |exact Hrf]. intros r Hr Hfree.
  apply wp_bind, wp_gs. destruct (tcp_socket_of _ _ _ _ Hwf Hr) as [t Ht].
  pose proof (J_intro _ _ Hwf) as HJ. pose proof (J_tcp_wf _ _ _ _ _ HJ Ht) as Htw.
  set (copy := N.min (llen data) (l_bytes_copied (limits (stack s)))).
  apply wp_bind. eapply wp_get_tcp; [exact Ht|]. apply wp_bind, wp_fail_if; [intros _; apply Hrf|].
  intros Hms%negb_false_iff. apply wp_bind, wp_expect. exists (tx_capacity t - send_queue t)%N.
  split; [apply checked_sub_Some, Htw|]. apply wp_bind, ensure_waiter_room_wp; [|exact Hrf]. intros Hroom.
  pose proof (send_slice_ok (take (N.to_nat copy) data) t Htw) as Htw'. unfold send_slice in *. rewrite Hms in *.
  cbn [negb] in *. set (size := N.min (_ - _) _) in *. set (t' := _ <| tcp_rest ::= _ |>) in *.
  assert (Hsize : size = N.min copy (tx_capacity t - send_queue t)).
  { unfold size, send_queue, llen. rewrite length_take. unfold copy, llen. lia. }
  assert (Hbuf : tx_buffer t' = tx_buffer t ++ take (N.to_nat size) data).
  { simpl. rewrite take_take. do 2 f_equal. lia. }
  assert (Hle : (size <= llen data)%N) by (rewrite Hsize; unfold copy; lia).
  apply wp_bind, wp_ms. assert (HJ1 : J s held_none (with_sockets (set_put (tr_handle r) (Some (STcp t')) (sockets (stack s))) s)).
  { eapply J_put_tcp; [exact HJ|exact Ht|exact Htw'|]. by eapply closed_ok_same. }
  at_state (with_sockets (set_put (tr_handle r) (Some (STcp t')) (sockets (stack s))) s). apply wp_bind, wp_ret. cbv zeta.
  destruct (N.eqb_spec size (llen data)) as [Heq|Hne].
  - apply wp_bind, wp_ret. eapply wp_mono; [by eapply (transfer_done_wp i Write)| |done].
    intros env s' (Ha & Hres & s1 & Hh & Hd). split; [done|]. exists t, t', s1. cbv zeta. fold copy. rewrite <-Hsize.
    split_and!; try done; [by exists r|by left].
  - apply wp_then. eapply wp_mono; [eapply (transfer_armed_wp i Write Send p ref); try done| |done].
    + split_and!; [exact Hfree|apply Hroom|done]. apply N.ltb_lt. rewrite <-Hsize. lia.
    + intros env s' (Ha & Hres & w & s1 & Hh & Hd). split; [done|]. exists t, (register_waker Write w t'), s1.
      cbv zeta. fold copy. rewrite <-Hsize. split_and!; try done; [by exists r|right; split_and!; [lia|done|done]].
Qed.

(** What a receive takes: a prefix of the buffer, and then it is as predicted. *)
Lemma recv_taken requested t got t' :
  (let read_length := N.min requested (recv_queue t) in
   if (0 <? read_length)%N then recv_slice read_length t else (Ok [], t)) = (got, t') →
  match got with
  | Ok d => llen d = N.min requested (recv_queue t) ∧ (d = [] → t' = t)
      ∧ tcp_state t' = tcp_state t ∧ tx_buffer t' = tx_buffer t ∧ rx_buffer t = d ++ rx_buffer t'
      ∧ (socket_wf (STcp t) → socket_wf (STcp t'))
  | Err _ => t' = t
  | Panic => False
  end.
Proof.
  simpl. destruct (N.ltb_spec 0 (N.min requested (recv_queue t))) as [Hpos|Hz].
  - unfold recv_slice, recv_error_check, recv_queue, llen in *.
    destruct (negb (may_recv t)); [by destruct (rx_fin_received t); intros [= <- <-]|].
    intros [= <- <-]. rewrite length_take. split_and!; [lia| |done|done|simpl; by rewrite take_drop|done].
    intros Hn%(f_equal length). rewrite length_take in Hn. simpl in Hn. lia.
  - intros [= <- <-]. split_and!; try done. unfold llen. simpl. lia.
Qed.

Lemma recv_predicted length requested t d t' :
  llen d = N.min requested (recv_queue t) → tcp_state t' = tcp_state t → rx_buffer t = d ++ rx_buffer t' →
  recv_complete length (llen d) (may_recv t') = false → may_recv t' = true →
  recv_needs_waiter length requested t = true.
Proof.
  intros Hd Hst Hb Hc Hm. unfold recv_needs_waiter. rewrite <-Hd.
  assert (Hopen : match tcp_state t with StEstablished | StFinWait1 | StFinWait2 => true | _ => false end
    || (0 <? recv_queue t - llen d)%N = may_recv t').
  { unfold may_recv, can_recv. rewrite Hst.
    assert ((0 <? recv_queue t - llen d)%N = bool_decide (rx_buffer t' ≠ [])) as ->.
    { unfold recv_queue. rewrite Hb, llen_app. destruct (rx_buffer t') as [|b l]; simpl.
      - apply N.ltb_ge. unfold llen. simpl. lia.
      - apply N.ltb_lt. unfold llen. simpl. lia. }
    by destruct (tcp_state t). }
  rewrite Hopen, Hc, Hm. done.
Qed.

(** When a receive of [data] is done: it has bytes, and those asked for, or the
    caller takes what there is, or no more can come. *)
Definition satisfied (length : usize) (data : bytes) (t1 : TcpSocket) : Prop :=
  data ≠ [] ∧ (length = 0%N ∨ llen data = length ∨ may_recv t1 = false).
Lemma recv_complete_satisfied length data t1 :
  recv_complete length (llen data) (may_recv t1) = true ↔ satisfied length data t1.
Proof.
  unfold recv_complete, satisfied. destruct data as [|b data].
  - change (@llen Byte.byte []) with 0%N. rewrite andb_false_r, orb_false_r.
    split; [|by intros []]. intros Hc. exfalso. destruct (N.eqb_spec length 0); [done|]. apply N.eqb_eq in Hc. lia.
  - assert (0 < llen (b :: data))%N by (unfold llen; simpl; lia).
    rewrite (proj2 (N.ltb_lt 0 _)), andb_true_r by done.
    destruct (N.eqb_spec length 0); [naive_solver|].
    rewrite orb_true_iff, N.eqb_eq, negb_true_iff. naive_solver.
Qed.

Lemma set_put_same h t ss : get_tcp ss h = Some t → set_put h (Some (STcp t)) ss = ss.
Proof.
  intros Ht%get_tcp_set_get. unfold set_get, set_put in *. unfold SocketSet in *. apply list_insert_id.
  by destruct (ss !! N.to_nat h) as [o|]; simplify_eq/=.
Qed.

(** A receive returns the front of the buffer and leaves the rest; it arms a
    waiter exactly when it is not done. *)
Definition recv_requested s (length : usize) : usize :=
  let limit := l_bytes_copied (limits (stack s)) in if (length =? 0)%N then limit else N.min length limit.
Definition returned s (i : SocketIdentity) (length : usize) (p : LocalPid) (ref : Reference)
    (now : Time.Instant) (env : Envelope Reply) s' : Prop :=
  ∃ t t1 s1 data, tcp_of s i t
    ∧ rx_buffer t = data ++ rx_buffer t1 ∧ tx_buffer t1 = tx_buffer t ∧ tcp_state t1 = tcp_state t
    ∧ llen data = N.min (recv_requested s length) (recv_queue t)
    ∧ ((satisfied length data t1 ∧ result env = ReplyData data ∧ handover s i Read None t1 s1)
       ∨ (¬ satisfied length data t1 ∧ may_recv t1 = true
          ∧ result env = (match data with [] => ReplySelect Recv ref | _ => ReplySelectData Recv ref data end)
          ∧ handover s i Read (Some (waiter_new p Recv ref)) t1 s1))
    ∧ driven_on now (llen data) s1 env s'.

Lemma tcp_recv_wp i length p ref now s :
  stack_wf s → wp (tcp_recv i length p ref now)
    (λ env s', answers (promise_of i p) s env s' ∧ returned s i length p ref now env s') (untouched s) s.
Proof.
  intros Hwf. assert (Hrf : ∀ e, untouched s e s) by (intros; split; [by apply refuses_same|done]).
  unfold tcp_recv. apply wp_bind. eapply transfer_record_wp; [exact Hwf| |exact Hrf]. intros r Hr Hfree.
  apply wp_bind, wp_gs. destruct (tcp_socket_of _ _ _ _ Hwf Hr) as [t Ht].
  pose proof (J_intro _ _ Hwf) as HJ. pose proof (J_tcp_wf _ _ _ _ _ HJ Ht) as Htw. cbv zeta.
  change (if (length =? 0)%N then _ else _) with (recv_requested s length). set (requested := recv_requested s length).
  apply wp_bind. eapply wp_get_tcp; [exact Ht|]. apply wp_bind, ensure_waiter_room_wp; [|exact Hrf]. intros Hroom.
  set (m := if (0 <? _)%N then _ else _). destruct m as [got t'] eqn:Hm. subst m. apply recv_taken in Hm.
  apply wp_bind, wp_ms.
  assert (Hsame : t' = t → s <| stack ::= λ st, st <| sockets ::= set_put (tr_handle r) (Some (STcp t')) |> |> = s).
  { intros ->. destruct s as [[] ? ? ?]. unfold set_field. simpl in *. by rewrite set_put_same. }
  destruct got as [d|e|]; [|apply wp_fail; by rewrite Hsame|done]. destruct Hm as (Hd & Hnil & Hst & Htx & Hb & Htw').
  specialize (Htw' Htw). apply wp_bind, wp_ret.
  at_state (with_sockets (set_put (tr_handle r) (Some (STcp t')) (sockets (stack s))) s).
  assert (HJ1 : J s held_none (with_sockets (set_put (tr_handle r) (Some (STcp t')) (sockets (stack s))) s)).
  { eapply J_put_tcp; [exact HJ|exact Ht|exact Htw'|]. eapply closed_ok_same; [exact HJ|exact Ht|]. by rewrite Hst. }
  destruct (recv_complete length (llen d) (may_recv t')) eqn:Hc.
  - apply wp_bind, wp_ret. eapply wp_mono; [by eapply (transfer_done_wp i Read)| |done].
    intros env s' (Ha & Hres & s1 & Hh & Hdr). split; [done|]. exists t, t', s1, d.
    split_and!; try done; [by exists r|]. left. split; [|done]. by apply recv_complete_satisfied.
  - assert (Hns : ¬ satisfied length d t') by (rewrite <-recv_complete_satisfied; congruence).
    destruct (may_recv t') eqn:Hopen; cycle 1.
    { assert (Hd0 : d = []) by (apply dec_stable; intros Hne; apply Hns; split; auto).
      apply wp_bind, wp_fail. specialize (Hsame (Hnil Hd0)).
      change (untouched s EndOfStream (s <| stack ::= λ st, st <| sockets ::= set_put (tr_handle r) (Some (STcp t')) |> |>)).
      by rewrite Hsame. }
    apply wp_then. eapply wp_mono; [eapply (transfer_armed_wp i Read Recv p ref); try done; [by destruct d|]| |done].
    + split_and!; [exact Hfree|apply Hroom|done]. eapply (recv_predicted length requested t d t'); try done. by rewrite Hopen.
    + intros env s' (Ha & Hres & w & s1 & Hh & Hdr). split; [done|]. exists t, (register_waker Read w t'), s1, d.
      split_and!; try done; [by exists r|]. right. by split_and!.
Qed.

(** ** Shutdown *)
Lemma registered_valid x i k s :
  inv x s → registered (socket_table (stack s)) i k → ∃ e, validate (socket_table (stack s)) i k = Ok e.
Proof.
  intros Hi (e & He & Hk). exists e. apply validate_Ok. split_and!; try done.
  by eapply (re_open _ _ _ _ _ _ _ _ _ (inv_reg _ _ Hi)).
Qed.
Lemma registered_shape t t' i k :
  same_shape t t' → registered (table t) i k → registered (table t') i k.
Proof.
  intros [Hsh _] (e & He & Hk). specialize (Hsh (id i)). rewrite He in Hsh.
  destruct (table_entries (table t') !! id i) as [[g' e']|] eqn:He'; [|done].
  unfold entry_shape in Hsh. simplify_eq/=. by exists e'.
Qed.

Lemma take_waiter_runs i k d t e :
  table_wf t → validate (table t) i k = Ok e → wp (take_waiter i k d) (λ _ _, True) (λ _ _, False) t.
Proof.
  intros Hwf Hv. unfold take_waiter, put_entry, store_flag. apply wp_bind, wp_gets. rewrite Hv.
  apply wp_bind, wp_ret, wp_bind, wp_expect. apply validate_Ok in Hv as (He & _ & _).
  eexists. split; [exact He|]. wp_steps; [|done].
  apply waiter_count_sub_wp; [simpl; by eapply waiter_count_pos|]. by wp_steps.
Qed.

(** Waiters of a registered socket are taken; none is lost on the way. *)
Lemma shutdown_waiter_wp s0 ins aborts x i d sel (Q : list PendingNotification → Sys → Prop) R s :
  inv x s → registered (socket_table (stack s)) i Tcp → during s0 ins (note_held <$> aborts) None s →
  (∀ aborts' t', inv x (put_table t' s) → registered (table t') i Tcp →
    during s0 ins (note_held <$> aborts') None (put_table t' s) → Q aborts' (put_table t' s)) →
  wp (shutdown_waiter i d sel aborts) Q R s.
Proof.
  intros Hi Hreg Hdu HQ. unfold shutdown_waiter. destruct sel; cycle 1.
  { apply wp_ret. replace s with (put_table (get_table s) s) by (by destruct s as [[] ? ? ?]).
    by apply HQ; destruct s as [[] ? ? ?]. }
  apply wp_bind. destruct (registered_valid _ _ _ _ Hi Hreg) as [e He]. pose proof (inv_table _ _ Hi) as Hwf.
  apply wp_zoom. eapply wp_mono; [exact (wp_conj _ _ _ _ _ _ (take_waiter_spec i Tcp d _ Hwf)
    (wp_conj _ _ _ _ _ _ (take_waiter_calm i Tcp d _ Hwf) (take_waiter_runs i Tcp d _ _ Hwf He)))| |by intros ? ? (_ & _ & [])].
  intros w t' (Hp & [Hsh Hc] & _). apply wp_ret. apply HQ; [by eapply inv_table_step|by eapply registered_shape|].
  pose proof (during_table _ _ _ _ _ _ _ _ Hdu Hp) as Hdu'. rewrite app_nil_r in Hdu'.
  destruct w as [w|]; [by rewrite fmap_app|by rewrite app_nil_r in Hdu'].
Qed.

Lemma tcp_shutdown_ok i how now s : stack_wf s → call_ok (tcp_shutdown i how now) nothing s.
Proof.
  intros Hwf. unfold tcp_shutdown. tcp_start Hwf. eapply ensure_connected_wp; [done|done|intros Hph|exact Hrf].
  cbv zeta. set (rd := match how with ShutRead | ShutReadWrite => _ | _ => _ end).
  set (wr := match how with ShutWrite | ShutReadWrite => _ | _ => _ end). apply wp_bind.
  eapply (shutdown_waiter_wp s [] []); [exact Hwf|exact Hreg|apply during_refl|]. intros aborts1 t1 Hi1 Hreg1 Hdu1.
  apply wp_bind. eapply (shutdown_waiter_wp s [] aborts1); [exact Hi1|exact Hreg1|exact Hdu1|].
  intros aborts2 t2 Hi2 Hreg2 Hdu2. set (s2 := put_table t2 _) in *. pose proof (J_intro _ _ Hi2) as HJ2.
  assert (Hr2 : tcp_records (stack s2) !! id i = Some r) by exact Hr.
  destruct (tcp_socket_of _ _ _ _ Hi2 Hr2) as [t Ht]. apply wp_bind.
  eapply (wp_mono _ (λ _ s', J s2 held_none s' ∧ books s2 s') _ (refuses s)); [|intros [] s3 [HJ3 Hb3]|done].
  { apply wp_when; intros _; [|done]. pose proof (tcp_socket_close_ok t (J_tcp_wf _ _ _ _ _ HJ2 Ht)) as [Hws Hwf'].
    eapply (wp_tcp_call s2); [exact HJ2|exact Ht|exact Hws|exact Hwf'| |].
    - eapply closed_ok_same; [exact HJ2|exact Ht|apply tcp_socket_close_closed].
    - intros s3 ss HJ3 -> Hwoke. split; [done|]. etrans; [apply books_sockets|by apply books_woke]. }
  assert (Hr3 : tcp_records (stack s3) !! id i = Some r) by (by rewrite (bk_records _ _ Hb3)).
  apply wp_bind. eapply (wp_tcp_record_mut _ _ r); [exact Hr3|done| |].
  { unfold is_listener in *. by rewrite (bk_listeners _ _ Hb3). }
  assert (Hdu3 : during s [] (note_held <$> aborts2) None s3) by (eapply during_driven; [apply HJ3|exact Hdu2]).
  eapply (drive_finish_wp nothing tt _ _ [] aborts2 held_none); [|done..| |done]; [|clear Hdu2; clear Hdu1; du_same].
  eapply (inv_record_update (id i) r); [apply HJ3|exact Hr3|done|done|done| | | |done].
  - exact (tcp_record_ok _ _ _ _ Hwf Hr).
  - exact (λ d, re_deadline _ _ _ _ _ _ _ _ _ (inv_reg _ _ (proj1 HJ3)) (id i) r d Hr3).
  - intros t0 _ Hidle. simpl in Hidle. by rewrite Hph in Hidle.
Qed.

(** ** Cancelling *)
Lemma table_cancel_gone i o ref t :
  table_wf t →
  wp (table_cancel i o ref)
    (λ res t', ∃ gone, op_post t [] gone t'
      ∧ match res with
        | Cancelled => ∃ w, gone = [(ready_key i (operation_direction o), w)] ∧ waiter_matches w o ref = true
        | AlreadySent | NotFound => gone = []
        end)
    (λ _ t', op_post t [] [] t') t.
Proof.
  intros Hwf. unfold table_cancel, put_entry, store_flag. wp_steps; try (by apply op_post_same).
  destruct a as [g e]. assert (table_entries (table t) !! id i = Some (generation i, e) ∧ g = generation i) as [He ->].
  { destruct (table_entries (table t) !! id i) as [[g' e']|]; simplify_eq/=. case_match; [|done].
    simplify_eq. assert (g = generation i) as -> by lia. done. }
  wp_steps; try (by apply op_post_same); [|exists []; by split; [apply op_post_same|]..].
  destruct (waiter e (operation_direction o)) as [w|] eqn:Hw; [|done].
  apply waiter_count_sub_wp; [simpl; by eapply waiter_count_pos|]. wp_steps. exists [(ready_key i (operation_direction o), w)].
  split; [|by exists w].
  by apply (op_post_take t _ i e (waiter_mut (operation_direction o) None e) (operation_direction o) w); auto.
Qed.

(** A cancelled waiter is gone from what is owed, and gets no message. *)
Lemma cancel_wp i o ref s :
  stack_wf s →
  wp (cancel i o ref)
    (λ env s', stack_wf s' ∧ ∃ gone, settled s None gone env s'
      ∧ match result env with
        | Cancelled => ∃ w, gone = [(ready_key i (operation_direction o), w)] ∧ waiter_matches w o ref = true
        | AlreadySent | NotFound => gone = []
        end) (refuses s) s.
Proof.
  intros Hwf. pose proof (λ e : SocketError, refuses_same s e Hwf) as Hrf. unfold cancel. guards.
  pose proof (inv_table _ _ Hwf) as Htw. apply wp_zoom.
  eapply wp_mono; [exact (wp_conj _ _ _ _ _ _ (table_cancel_gone i o ref _ Htw) (table_cancel_calm i o ref _ Htw))| |].
  - intros res t' ((gone & Hp & Hg) & Hsh & Hc). pose proof (inv_table_step _ _ _ _ _ Hwf Hp Hsh Hc) as Hi1.
    pose proof (during_table _ _ _ _ _ _ _ _ (during_refl s) Hp) as Hdu1.
    eapply (finish_wp s None gone [] gone held_none); [exact Hi1|by apply during_end|done|by rewrite app_nil_r|].
    intros env s' Hi' Hs -> _. split; [done|]. by exists gone.
  - intros e t' [_ ->]. assert (put_table (get_table s) s = s) as -> by (by destruct s as [[] ? ? ?]). apply Hrf.
Qed.

(** ** Closing *)
Lemma registered_tcp s i :
  stack_wf s → lifecycle (stack s) = Running → registered (socket_table (stack s)) i Tcp →
  udp_records (stack s) !! id i = None
  ∧ (is_listener (stack s) i = false → tcp_listeners (stack s) !! id i = None).
Proof.
  intros [Hso Hre _ _ _ _ _] Hrun Hreg.
  assert (Hu : ∀ j k, recorded (tcp_records (stack s)) (tcp_listeners (stack s)) (udp_records (stack s))
    (closing_tcp (stack s)) j k → id j = id i → j = i ∧ k = Tcp).
  { intros j k Hrec Hid. apply (re_registered _ _ _ _ _ _ _ _ _ Hre Hrun) in Hrec; [|set_solver].
    by destruct (registered_unique _ _ _ _ _ Hreg Hrec Hid). }
  split; [|intros Hnl]; apply eq_None_not_Some.
  - intros [r Hr]. destruct (so_udps _ _ _ _ _ _ Hso _ _ Hr) as (Hid & _).
    destruct (Hu (ur_identity r) Udp); [|done|done]. exists r. by rewrite Hid.
  - intros [l Hl]. destruct (so_listeners _ _ _ _ _ _ Hso _ _ Hl) as (Hid & _).
    destruct (Hu (lr_identity l) Tcp) as [Hi _]; [|done|]; [right; exists l; by rewrite Hid|].
    unfold is_listener in Hnl. rewrite Hl in Hnl. by rewrite bool_decide_eq_false in Hnl.
Qed.

(** A connected socket that left the table starts to close. *)
Lemma inv_start_closing i r d x s :
  inv (x <| exempt ::= λ X, {[i]} ∪ X |>) s → table_entries (socket_table (stack s)) !! i = None →
  tcp_records (stack s) !! i = Some r → idle (phase r) = false →
  tcp_listeners (stack s) !! i = None → udp_records (stack s) !! i = None →
  inv x (with_records (<[i := r <| close_deadline := Some d |>]> (tcp_records (stack s)))
    (with_closing ({[i]} ∪ closing_tcp (stack s)) ({[(d, i)]} ∪ closing_deadlines (stack s)) s)).
Proof.
  intros Hi Ht Hr Hp Hl Hu.
  assert (Hi1 : inv (x <| exempt ::= λ X, {[i]} ∪ X |>)
    (with_closing ({[i]} ∪ closing_tcp (stack s)) ({[(d, i)]} ∪ closing_deadlines (stack s)) s)).
  { destruct Hi as [Hso Hre Hta Hro Hde Hke Hli]. constructor; try done. simpl.
    eapply (reg_change _ i); [| | | | | | | |exact Hre]; simpl; try done; try (clear; set_solver).
    - intros _. apply (re_ids _ _ _ _ _ _ _ _ _ Hre). left. by eexists.
    - congruence.
    - rewrite Hl. by intros [].
    - intros r0 d0 Hr0 Hd0. destruct (re_deadline _ _ _ _ _ _ _ _ _ Hre _ _ _ Hr0 Hd0). set_solver. }
  eapply (inv_record_update i r (r <| close_deadline := Some d |>)) in Hi1; try done.
  - eapply (inv_unexempt i); [..|exact Hi1]; simpl; try done.
    + intros r0 t. rewrite lookup_insert_eq. intros [= <-]. simpl. congruence.
    + intros g k (e & He & _). simpl in He. congruence.
    + intros _ g k. unfold recorded. simpl. rewrite Hl, Hu. destruct k; [|naive_solver|done].
      intros [(r0 & _ & _ & Hnc)|(l & ? & _)]; [|done]. exfalso. apply Hnc. set_solver.
    + intros j l c Hj _ [Hji|Hci]; [congruence|]. intros _ _. rewrite Hci, Hl, Hu, lookup_insert_eq.
      split_and!; [done|done|]. by intros r0 [= <-].
  - exact (tcp_record_ok _ _ _ _ Hi Hr).
  - intros d0 [= <-]. simpl. set_solver.
  - intros t Hne. exfalso. apply Hne. simpl. set_solver.
Qed.

(** The deadline of a close can be computed: [now] is not within the timeout
    of the end of 64-bit time, or the build does not check. *)
Definition close_in_time (now : Time.Instant) : Prop :=
  overflow_checks = true → i64_in_range (now + 30000000)%Z = true.
#[export] Instance close_in_time_dec now : Decision (close_in_time now).
Proof. unfold close_in_time. apply _. Defined.
Lemma close_timeout : wrap_i64 (Z.of_N (Time.duration_from_millis CLOSE_TIMEOUT_MILLIS)) = 30000000%Z.
Proof. done. Qed.
Lemma close_in_time_ok {E} now :
  close_in_time now → ∃ deadline,
    Time.instant_add (E:=E) overflow_checks now (Time.duration_from_millis CLOSE_TIMEOUT_MILLIS) = Ok deadline.
Proof.
  unfold close_in_time, Time.instant_add. rewrite close_timeout. cbv zeta.
  intros Hnow. destruct (i64_in_range _); [by eexists|]. destruct overflow_checks; [by specialize (Hnow eq_refl)|by eexists].
Qed.
Lemma close_late {E} now :
  ¬ close_in_time now →
  Time.instant_add (E:=E) overflow_checks now (Time.duration_from_millis CLOSE_TIMEOUT_MILLIS) = Panic.
Proof.
  unfold close_in_time, Time.instant_add. rewrite close_timeout. cbv zeta.
  destruct (i64_in_range _), overflow_checks; tauto.
Qed.

(** Closing a connected socket: it goes on closing without its identity. *)
Lemma close_graceful_wp s0 taken i r now (Q : unit → Sys → Prop) R s :
  inv (held_none <| exempt ::= λ X, {[id i]} ∪ X |>) s → during s0 [] taken None s →
  table_entries (socket_table (stack s)) !! id i = None → tcp_records (stack s) !! id i = Some r →
  tr_identity r = i → phase r = PhaseConnected →
  tcp_listeners (stack s) !! id i = None → udp_records (stack s) !! id i = None → close_in_time now →
  (∀ s', stack_wf s' → during s0 [] taken None s' → Q tt s') →
  wp (tcp_call (tr_handle r) tcp_socket_close ;;
      record ← tcp_record i;
      deadline ← lift_outcome (Time.instant_add overflow_checks now
                                 (Time.duration_from_millis CLOSE_TIMEOUT_MILLIS));
      ms (λ st, st <| tcp_records ::= <[id i := record <| close_deadline := Some deadline |>]> |>) ;;
      ms (λ st, st <| closing_tcp ::= λ ids, {[id i]} ∪ ids |>
                   <| closing_deadlines ::= λ ds, {[(deadline, id i)]} ∪ ds |>
                   <| closing_sweep_cursor := None |>) ;;
      request_closing_cleanup ;;
      ms (λ st, st <| maintenance_cleanup_turn := false |>)) Q R s.
Proof.
  intros Hi Hdu Ht Hr Hid Hph Hl Hu Hnow HQ. pose proof (J_intro _ _ Hi) as HJ.
  destruct (tcp_socket_of _ _ _ _ Hi Hr) as [t Hg]. apply wp_bind.
  pose proof (tcp_socket_close_ok t (J_tcp_wf _ _ _ _ _ HJ Hg)) as [Hws Hwf'].
  eapply (wp_tcp_call s); [exact HJ|exact Hg|exact Hws|exact Hwf'| |].
  { eapply closed_ok_same; [exact HJ|exact Hg|apply tcp_socket_close_closed]. }
  intros s1 ss HJ1 -> Hwoke. pose proof (during_driven _ _ _ _ _ _ (proj2 HJ1) Hdu) as Hdu1. clear Hdu.
  assert (Hb1 : books s s1) by (etrans; [apply books_sockets|by apply books_woke]).
  apply wp_bind. eapply (wp_tcp_record_is _ r); [by rewrite (bk_records _ _ Hb1)|done| |].
  { unfold is_listener. by rewrite (bk_listeners _ _ Hb1), Hl. }
  apply wp_bind. destruct (close_in_time_ok (E:=SocketError) now Hnow) as [deadline ->]. apply wp_ret.
  pose proof (inv_start_closing (id i) r deadline held_none s1 (proj1 HJ1)) as Hi2.
  rewrite (bk_table _ _ Hb1), (bk_records _ _ Hb1), (bk_listeners _ _ Hb1), (bk_udp _ _ Hb1) in Hi2.
  specialize (Hi2 Ht Hr ltac:(by rewrite Hph) Hl Hu). rewrite <-(bk_records _ _ Hb1) in Hi2.
  apply wp_bind, wp_ms, wp_bind, wp_ms, wp_bind, wp_ms, wp_ms.
  set (s2 := with_records _ (with_closing _ _ s1)) in Hi2. pose proof (J_intro _ _ Hi2) as HJ2.
  assert (Hdu2 : during s0 [] taken None s2) by du_same. clear Hdu1.
  assert (HJ3 : J s2 held_none (s2 <| stack ::= λ st, st <| closing_sweep_cursor := None |> |>)) by j_same.
  apply (J_request_closing_cleanup (E:=SocketError)) in HJ3. set (s3 := after _ _) in HJ3.
  assert (HJ4 : J s2 held_none (s3 <| stack ::= λ st, st <| maintenance_cleanup_turn := false |> |>)) by j_same.
  apply HQ; [exact (proj1 HJ4)|]. exact (during_driven _ _ _ _ _ _ (proj2 HJ4) Hdu2).
Qed.

Lemma during_forgotten s0 ins taken o i s s' :
  forgotten i s s' → during s0 ins taken o s → during s0 ins taken o s'.
Proof. intros [] []. constructor; congruence. Qed.

(** Closing a socket that is not connected: it is aborted, driven once more and
    then removed. *)
Lemma close_abort_wp s0 ws i r now s :
  inv (held_none <| exempt ::= λ X, {[id i]} ∪ X |>) s → during s0 [] (given i ws) None s →
  table_entries (socket_table (stack s)) !! id i = None → tcp_records (stack s) !! id i = Some r →
  tr_identity r = i → (id i ∉ closing_tcp (stack s)) →
  tcp_listeners (stack s) !! id i = None → udp_records (stack s) !! id i = None →
  wp (tcp_call (tr_handle r) tcp_abort ;;
      effects ← expect_drive now None;
      remove_tcp_socket r ;;
      finish_call tt effects (notifications i ws)) (answers nothing s0) (refuses (E:=SocketError) s0) s.
Proof.
  intros Hi Hdu Ht Hr Hid Hnc Hl Hu. pose proof (J_intro _ _ Hi) as HJ.
  destruct (tcp_socket_of _ _ _ _ Hi Hr) as [t Hg]. apply wp_bind.
  pose proof (tcp_abort_ok t (J_tcp_wf _ _ _ _ _ HJ Hg)) as [Hws Hwf'].
  eapply (wp_tcp_call s); [exact HJ|exact Hg|exact Hws|exact Hwf'|by eapply closed_ok_same|].
  intros s1 ss HJ1 -> Hwoke. pose proof (during_driven _ _ _ _ _ _ (proj2 HJ1) Hdu) as Hdu1. clear Hdu.
  assert (Hb1 : books s s1) by (etrans; [apply books_sockets|by apply books_woke]).
  apply wp_bind. eapply expect_drive_wp; [apply HJ1|exact Hdu1|done|done|].
  intros eff s2 Hi2 Hdu2 [d Hd]. destruct (dr_records _ _ Hd (id i) r) as [p Hr2].
  { simpl. by rewrite (bk_records _ _ Hb1). }
  { simpl. by rewrite (bk_closing _ _ Hb1). }
  apply wp_bind. change (remove_tcp_socket r) with (remove_tcp_socket (E:=SocketError) (r <| phase := p |>)).
  eapply remove_tcp_socket_wp; [exact Hi2|exact Hr2|simpl; clear; set_solver|]. intros s3 Hi3 Hf.
  eapply (finish_answers s0 nothing [] (notifications i ws) held_none); [|done|done|done| |done].
  - apply (inv_gone (id i)); [exact Hi3|..].
    + rewrite (fo_table _ _ _ Hf). apply (dr_absent _ _ Hd); simpl.
      * rewrite (bk_next _ _ Hb1). apply (re_ids _ _ _ _ _ _ _ _ _ (inv_reg _ _ Hi)). left. by eexists.
      * by rewrite (bk_table _ _ Hb1).
    + rewrite (fo_records _ _ _ Hf). apply lookup_delete_eq.
    + rewrite (fo_listeners _ _ _ Hf). apply eq_None_not_Some. intros Hs.
      pose proof (re_disjoint _ _ _ _ _ _ _ _ _ (inv_reg _ _ Hi2) _ Hs). congruence.
    + rewrite (fo_udp _ _ _ Hf), (dr_udp _ _ Hd). simpl. by rewrite (bk_udp _ _ Hb1).
  - rewrite notifications_held. by eapply during_forgotten.
Qed.

Lemma tcp_close_socket_wp i r now s :
  stack_wf s → lifecycle (stack s) = Running → registered (socket_table (stack s)) i Tcp →
  tcp_records (stack s) !! id i = Some r → tr_identity r = i → is_listener (stack s) i = false →
  (phase r = PhaseConnected → close_in_time now) →
  wp (ws ← on_table (table_close i);
      let graceful := bool_decide (phase r = PhaseConnected) in
      (if graceful then
         tcp_call (tr_handle r) tcp_socket_close ;;
         record ← tcp_record i;
         deadline ← lift_outcome (Time.instant_add overflow_checks now
                                    (Time.duration_from_millis CLOSE_TIMEOUT_MILLIS));
         ms (λ st, st <| tcp_records ::= <[id i := record <| close_deadline := Some deadline |>]> |>) ;;
         ms (λ st, st <| closing_tcp ::= λ ids, {[id i]} ∪ ids |>
                      <| closing_deadlines ::= λ ds, {[(deadline, id i)]} ∪ ds |>
                      <| closing_sweep_cursor := None |>) ;;
         request_closing_cleanup ;;
         ms (λ st, st <| maintenance_cleanup_turn := false |>)
       else tcp_call (tr_handle r) tcp_abort) ;;
      effects ← expect_drive now None;
      when (negb graceful) (remove_tcp_socket r) ;;
      finish_call tt effects (notifications i ws)) (answers nothing s) (refuses s) s.
Proof.
  intros Hwf Hrun Hreg Hr Hid Hnl Hnow. destruct (registered_tcp s i Hwf Hrun Hreg) as [Hu Hl]. specialize (Hl Hnl).
  destruct (tcp_not_closing i r s Hwf Hreg Hnl Hr) as [Hnc _]. apply wp_bind.
  eapply (wp_close s [] [] None); [exact Hwf|apply during_refl| |intros; by apply refuses_same].
  intros ws t' Hi1 Hdu1 Hes _ _. assert (Ht : table_entries (table t') !! id i = None) by (by rewrite Hes, lookup_delete_eq).
  cbv zeta. case_bool_decide as Hph; simpl.
  - apply wp_bind. eapply (close_graceful_wp s); try done; [by apply Hnow|]. intros s2 Hi2 Hdu2. apply wp_bind.
    eapply expect_drive_wp; [exact Hi2|exact Hdu2|done|done|]. intros eff s3 Hi3 Hdu3 _. apply wp_bind, wp_ret.
    eapply (finish_answers s nothing [] (notifications i ws) held_none); try done. by rewrite notifications_held.
  - by apply close_abort_wp.
Qed.

(** ** Closing a listener *)

(** The record of a socket that is in no table is removed with its socket. *)
Lemma remove_record_wp s0 taken i r (Q : unit → Sys → Prop) R s :
  inv (held_none <| exempt ::= λ X, {[i]} ∪ X |>) s → during s0 [] taken None s →
  table_entries (socket_table (stack s)) !! i = None → tcp_records (stack s) !! i = Some r →
  tcp_listeners (stack s) !! i = None → udp_records (stack s) !! i = None →
  (∀ s', stack_wf s' → during s0 [] taken None s' → tcp_records (stack s') = delete i (tcp_records (stack s)) →
    tcp_listeners (stack s') = tcp_listeners (stack s) → udp_records (stack s') = udp_records (stack s) → Q tt s') →
  wp (remove_socket (tr_handle r) ;; remove_tcp_record r) Q R s.
Proof.
  intros Hi Hdu Ht Hr Hl Hu HQ. pose proof (tcp_record_ok _ _ _ _ Hi Hr) as (Hid & _).
  destruct (sock_tcp_handle _ _ _ _ _ _ _ _ (inv_sock _ _ Hi) Hr) as (t & _ & Hg).
  assert (Hdone : ∀ cs, let s' := with_sockets (set_put (tr_handle r) None (sockets (stack s)))
      (with_closing (closing_tcp (stack s)) (closing_deadlines (stack s))
        (with_records (delete i (tcp_records (stack s)))
          (s <| stack ::= λ st, st <| tcp_connections := cs |> |>))) in Q tt s').
  { intros cs s'. apply HQ; [|by du_same|done|done|done]. apply (inv_gone i); [|done|apply lookup_delete_eq|done|done].
    apply (inv_remove_tcp (E:=SocketError)); [done|done|simpl; clear; set_solver|clear; set_solver|done|done]. }
  apply wp_bind. unfold remove_socket. apply wp_bind, wp_gs. apply wp_bind, wp_expect.
  exists (STcp t). split; [exact Hg|]. apply wp_ms. unfold remove_tcp_record. rewrite Hid.
  destruct (local r) as [l|], (remote r) as [p|]; apply wp_bind; try apply wp_ret; try apply wp_ms;
    try apply wp_ms; first [exact (Hdone _)|exact (Hdone (tcp_connections (stack s)))].
Qed.

(** What is known of a queued child while its listener is being closed. *)
Definition orphan s (c : SocketIdentity) : Prop :=
  tcp_listeners (stack s) !! id c = None ∧ udp_records (stack s) !! id c = None.

Lemma orphan_cases c s :
  stack_wf s → lifecycle (stack s) = Running → orphan s c →
  (∀ e, table_entries (socket_table (stack s)) !! id c = Some (generation c, e) →
    ∃ r, tcp_records (stack s) !! id c = Some r ∧ tr_identity r = c)
  ∧ (∀ r, tcp_records (stack s) !! id c = Some r → tr_identity r = c →
    (∀ e, table_entries (socket_table (stack s)) !! id c ≠ Some (generation c, e)) →
    table_entries (socket_table (stack s)) !! id c = None).
Proof.
  intros Hwf Hrun [Hl Hu]. pose proof (inv_reg _ _ Hwf) as Hre. split.
  - intros e He. pose proof (re_recorded _ _ _ _ _ _ _ _ _ Hre c (entry_kind e) ltac:(set_solver)
      ltac:(by eexists)) as Hrec. unfold recorded in Hrec. rewrite Hl, Hu in Hrec.
    destruct (entry_kind e); [|by destruct Hrec as (? & ? & _)|done].
    destruct Hrec as [(r & Hr & Hid & _)|(? & ? & _)]; [|done]. by exists r.
  - intros r Hr Hid Hno. apply (re_closing _ _ _ _ _ _ _ _ _ Hre). apply dec_stable. intros Hnc.
    destruct (re_registered _ _ _ _ _ _ _ _ _ Hre Hrun c Tcp) as (e & He & _); [set_solver| |by apply (Hno e)].
    left. by exists r.
Qed.

Lemma close_queued_child_wp s0 c aborts (Q : list PendingNotification → Sys → Prop) R s :
  stack_wf s → lifecycle (stack s) = Running → orphan s c → during s0 [] (note_held <$> aborts) None s →
  (∀ aborts' s', stack_wf s' → during s0 [] (note_held <$> aborts') None s' →
    tcp_listeners (stack s') = tcp_listeners (stack s) → udp_records (stack s') = udp_records (stack s) →
    Q aborts' s') →
  wp (close_queued_child c aborts) Q R s.
Proof.
  intros Hwf Hrun Ho Hdu HQ. destruct (orphan_cases c s Hwf Hrun Ho) as [Hin Hout]. destruct Ho as [Hl Hu].
  assert (Hnl : ∀ s', tcp_listeners (stack s') = tcp_listeners (stack s) → is_listener (stack s') c = false).
  { intros s' Hs'. unfold is_listener. by rewrite Hs', Hl. }
  unfold close_queued_child. apply wp_bind, wp_attempt.
  eapply (wp_close s0 [] (note_held <$> aborts) None); [exact Hwf|exact Hdu| |].
  - intros ws t' Hi1 Hdu1 Hes _ [e He]. set (s1 := put_table t' s) in *. destruct (Hin e He) as (r & Hr & Hid).
    assert (Ht1 : table_entries (socket_table (stack s1)) !! id c = None) by (simpl; by rewrite Hes, lookup_delete_eq).
    rewrite <-notifications_held, <-fmap_app in Hdu1. apply wp_bind, wp_attempt.
    apply (wp_tcp_record_is c r); [done|done|by apply Hnl|].
    apply wp_bind. eapply (remove_record_wp s0 _ (id c)); [exact Hi1|exact Hdu1|exact Ht1|exact Hr|done|done|].
    intros s2 Hwf2 Hdu2 _ Hl2 Hu2. apply wp_ret. by apply HQ.
  - intros e Hno. apply wp_bind, wp_attempt. apply wp_tcp_record; [intros r Hr Hid _|intros e'].
    + apply wp_bind. eapply (remove_record_wp s0 _ (id c)); [by apply inv_exempt|exact Hdu|by eapply Hout|exact Hr|done|done|].
      intros s2 Hwf2 Hdu2 _ Hl2 Hu2. apply wp_ret. by apply HQ.
    + apply wp_bind, wp_ret, wp_ret. by apply HQ.
Qed.

Lemma tcp_listener_close_wp i l now s :
  stack_wf s → lifecycle (stack s) = Running → registered (socket_table (stack s)) i Tcp →
  tcp_listeners (stack s) !! id i = Some l → lr_identity l = i →
  wp (tcp_listener_close i now) (answers nothing s) (refuses s) s.
Proof.
  intros Hwf Hrun Hreg Hl Hid. unfold tcp_listener_close. apply wp_bind, wp_gs, wp_bind, wp_ms.
  unfold listener_of. rewrite Hl, bool_decide_eq_true_2 by done. apply wp_bind, wp_ret.
  pose proof (inv_listener_delete (id i) l _ s (inv_exempt (id i) _ _ Hwf) ltac:(simpl; clear; set_solver) Hl) as Hi1.
  set (s1 := with_listeners _ s) in Hi1. at_state s1. apply wp_bind.
  pose proof (during_refl s) as Hdu0. assert (Hdu1 : during s [] [] None s1) by du_same. clear Hdu0.
  eapply (wp_close s [] [] None); [exact Hi1|exact Hdu1| |].
  2: { intros e Hno. destruct Hreg as (e' & He' & _). by destruct (Hno e'). }
  intros ws t' Hi2 Hdu2 Hes _ _. set (s2 := put_table t' s1) in *. apply wp_bind.
  eapply remove_all_tcp_wp; [by apply J_intro|simpl; by rewrite app_nil_r|]. intros ss n HJ3.
  set (s3 := with_sockets ss s2) in *. pose proof (during_driven _ _ _ _ _ _ (proj2 HJ3) Hdu2) as Hdu3.
  assert (Hi3 : stack_wf s3).
  { apply (inv_gone (id i)); [eapply inv_weaken; [..|apply HJ3]; simpl; try done; try lia; clear; set_solver|..]; simpl.
    - by rewrite Hes, lookup_delete_eq.
    - apply (re_disjoint _ _ _ _ _ _ _ _ _ (inv_reg _ _ Hwf)). by eexists.
    - apply lookup_delete_eq.
    - by apply registered_tcp. }
  clear HJ3 Hdu2 Hdu1 Hi2 Hi1. simpl in Hdu3. rewrite <-notifications_held in Hdu3.
  apply wp_bind. eapply (wp_mono _ (λ aborts s', stack_wf s' ∧ during s [] (note_held <$> aborts) None s') _ (λ _ _, False));
    [|intros aborts s4 [Hi4 Hdu4]|done].
  { eapply wp_mono; [apply (wp_for_acc _ _ (λ q aborts s', Forall (orphan s3) q ∧ stack_wf s'
      ∧ during s [] (note_held <$> aborts) None s' ∧ tcp_listeners (stack s') = tcp_listeners (stack s3)
      ∧ udp_records (stack s') = udp_records (stack s3)) (λ _ _, False))| |done].
    - split_and!; try done. apply list.Forall_forall. intros c Hc.
      destruct (inv_queue _ _ Hwf (id i) l c Hl Hc) as [_ Hx].
      destruct (Hx ltac:(set_solver) ltac:(set_solver)) as (Hn & Hu & _).
      split; [|exact Hu]. simpl. by rewrite lookup_delete_None; right.
    - intros c q aborts s' (Hall & Hi' & Hdu' & Hls & Hus). apply list.Forall_cons in Hall as [[Ho1 Ho2] Hall].
      eapply (close_queued_child_wp s); [exact Hi'|by rewrite (du_lifecycle _ _ _ _ _ Hdu')| |exact Hdu'|].
      + by split; [rewrite Hls|rewrite Hus].
      + intros aborts' s'' Hi'' Hdu'' Hls' Hus'. split_and!; try done; congruence.
    - by intros aborts s' (_ & ? & ? & _). }
  apply wp_bind, wp_ms. eapply (drive_finish_wp nothing tt now None [] aborts held_none); try done; [|du_same].
  by destruct Hi4; constructor.
Qed.

(** The close of a connected socket, which is given time to finish. *)
Definition closes_gracefully s (i : SocketIdentity) : Prop :=
  lifecycle (stack s) = Running ∧ registered (socket_table (stack s)) i Tcp ∧ is_listener (stack s) i = false
  ∧ ∃ r, tcp_records (stack s) !! id i = Some r ∧ tr_identity r = i ∧ phase r = PhaseConnected.

#[export] Instance closes_gracefully_dec s i : Decision (closes_gracefully s i).
Proof.
  unfold closes_gracefully, registered. repeat apply and_dec; try apply _.
  - destruct (table_entries (socket_table (stack s)) !! id i) as [[g e]|]; [|right; naive_solver].
    destruct (decide (g = generation i ∧ entry_kind e = Tcp)); [left|right]; naive_solver.
  - destruct (tcp_records (stack s) !! id i) as [r|]; [|right; naive_solver].
    destruct (decide (tr_identity r = i ∧ phase r = PhaseConnected)); [left|right]; naive_solver.
Defined.

Lemma tcp_close_ok i now s :
  stack_wf s → (closes_gracefully s i → close_in_time now) → call_ok (tcp_close i now) nothing s.
Proof.
  intros Hwf Hnow. unfold tcp_close. tcp_start Hwf. destruct (is_listener (stack s) i) eqn:Hnl.
  - unfold is_listener in Hnl. destruct (tcp_listeners (stack s) !! id i) as [l|] eqn:Hl; [|done].
    apply bool_decide_eq_true in Hnl. by eapply tcp_listener_close_wp.
  - apply wp_bind, wp_tcp_record; [|exact Hrf]. intros r Hr Hid _. apply tcp_close_socket_wp; try done.
    intros Hph. apply Hnow. split_and!; try done. by exists r.
Qed.

(** A late close panics when the waiters of the socket are out of the table
    and not yet owed an abort. *)
Lemma tcp_close_panics i now s :
  stack_wf s → closes_gracefully s i → ¬ close_in_time now →
  panics (tcp_close i now) (λ s', ∃ ws, during s [] (given i ws) None s'
    ∧ table_entries (socket_table (stack s')) !! id i = None) s.
Proof.
  intros Hwf (Hrun & Hreg & Hnl & r & Hr & Hid & Hph) Hlate. unfold tcp_close.
  apply (panics_bind _ _ (λ _ s', s' = s)); [unfold ensure_running; apply wp_bind, wp_gs; by rewrite Hrun|intros [] ? ->].
  apply (panics_bind _ _ (λ _ s', s' = s)).
  { unfold validate_tcp. apply wp_bind, wp_gs. destruct (registered_valid _ _ _ _ Hwf Hreg) as [e ->]. done. }
  intros [] ? ->. apply (panics_bind _ _ (λ st s', st = stack s ∧ s' = s)); [done|intros ? ? [-> ->]]. rewrite Hnl.
  apply (panics_bind _ _ (λ r' s', r' = r ∧ s' = s)); [by eapply wp_tcp_record_is|intros ? ? [-> ->]].
  eapply panics_bind.
  { eapply (wp_close s [] [] None _ _ (λ ws s', ∃ t', s' = put_table t' s
      ∧ inv (held_none <| exempt ::= λ X, {[id i]} ∪ X |>) s' ∧ during s [] (given i ws) None s'
      ∧ table_entries (socket_table (stack s')) !! id i = None)); [exact Hwf|apply during_refl| |].
    - intros ws t' Hi1 Hdu1 Hes _ _. exists t'. split_and!; [done|done|done|]. simpl. by rewrite Hes, lookup_delete_eq.
    - intros e He. destruct Hreg as (e' & He' & _). by destruct (He e'). }
  intros ws s1 (t' & -> & Hi1 & Hdu1 & Hno). cbv zeta. rewrite bool_decide_true by done. apply panics_bind_now.
  pose proof (J_intro _ _ Hi1) as HJ1. destruct (tcp_socket_of _ _ _ _ Hi1 Hr) as [t Hg].
  pose proof (tcp_socket_close_ok t (J_tcp_wf _ _ _ _ _ HJ1 Hg)) as [Hws Hwf'].
  eapply panics_bind.
  { eapply (wp_tcp_call _ _ _ _ _ (λ _ s', during s [] (given i ws) None s' ∧ books (put_table t' s) s'));
      [exact HJ1|exact Hg|exact Hws|exact Hwf'| |].
    - eapply closed_ok_same; [exact HJ1|exact Hg|apply tcp_socket_close_closed].
    - intros s2 ss HJ2 -> Hwoke. split; [exact (during_driven _ _ _ _ _ _ (proj2 HJ2) Hdu1)|].
      etrans; [apply books_sockets|by apply books_woke]. }
  intros [] s2 [Hdu2 Hb]. apply (panics_bind _ _ (λ r' s', s' = s2)).
  { eapply wp_tcp_record_is; [rewrite (bk_records _ _ Hb); exact Hr|done| |done].
    unfold is_listener in *. by rewrite (bk_listeners _ _ Hb). }
  intros ? ? ->. apply panics_bind_now. rewrite close_late by done. exists ws. split; [done|]. by rewrite (bk_table _ _ Hb).
Qed.

(** ** Accepting *)
Lemma pool_socket_of x i l h s :
  inv x s → tcp_listeners (stack s) !! i = Some l → h ∈ pool l →
  ∃ t, get_tcp (sockets (stack s)) h = Some t.
Proof. intros [Hso] Hl Hh. destruct (sock_pool_handle _ _ _ _ _ _ _ _ _ Hso Hl Hh) as (t & Ht & _). by exists t. Qed.

Lemma any_established_wp i l hs R s :
  stack_wf s → tcp_listeners (stack s) !! i = Some l → (∀ h, h ∈ hs → h ∈ pool l) →
  wp (any_established hs) (λ _ s', s' = s) R s.
Proof.
  intros Hi Hl. induction hs as [|h hs IH]; intros Hhs; [by apply wp_ret|]. simpl.
  destruct (pool_socket_of held_none i l h s Hi Hl) as [t Ht]; [apply Hhs; by left|].
  apply wp_bind. eapply wp_get_tcp; [exact Ht|].
  assert (Hrest : wp (any_established hs) (λ _ s', s' = s) R s) by (apply IH; intros h' Hh'; apply Hhs; by right).
  destruct (tcp_state t); try exact Hrest; by apply wp_ret.
Qed.

Lemma arm_listener_waiter_wp s0 i p ref (Q : unit → Sys → Prop) R s :
  stack_wf s → during s0 [] [] None s →
  (∀ ins s', stack_wf s' → during s0 ins [] None s' →
    arms (Some (ready_key i Read, waiter_new p Accept ref)) s0 ins → Q tt s') →
  (∀ e, R e s) → wp (arm_listener_waiter i p ref) Q R s.
Proof.
  intros Hi Hdu HQ HR. unfold arm_listener_waiter. apply wp_bind, wp_gs.
  apply wp_bind, wp_ok_or; [intros l [Hl Hid]%listener_of_Some|intros _; apply HR]. cbv zeta.
  assert (Hpool : ∀ h, h ∈ bset_elems (pool l) → h ∈ pool l) by (intros h; by rewrite elem_of_bset_elems).
  apply wp_bind. eapply (wp_mono _ (λ _ s', s' = s) _ R); [|intros imm ? ->|done].
  { case_bool_decide; [by apply wp_ret|]. by eapply any_established_wp. }
  apply wp_bind, wp_lift_outcome; [intros flag Hfl|intros e _; apply HR|apply ready_flag_no_panic].
  apply (ready_flag_key (get_table s)) in Hfl as ->; [|apply Hi].
  apply wp_bind. eapply wp_install; [exact Hi|exact Hdu| |exact HR].
  intros res ins t' Hi1 Hdu1 Har _. set (w := waker _ _). assert (Hw : waker_ok w) by done.
  apply wp_bind. set (s1 := put_table t' s) in *.
  eapply (wp_mono _ (λ _ s', J s1 held_none s' ∧ books s1 s') _ R);
    [apply (wp_for_each _ _ (λ s', J s1 held_none s' ∧ books s1 s'))| |done].
  - by split; [apply J_intro|].
  - intros h s2 Hh [HJ Hb]. assert (Hl2 : tcp_listeners (stack s2) !! id i = Some l) by (by rewrite (bk_listeners _ _ Hb)).
    destruct (pool_socket_of _ _ _ _ _ (proj1 HJ) Hl2 (Hpool h Hh)) as [t Ht].
    eapply (wp_tcp_update s1 _ h t); [exact HJ|exact Ht| |by eapply closed_ok_pool, Hpool|].
    + apply register_waker_ok; [done|]. by eapply J_tcp_wf.
    + intros ss HJ2 _. split; [done|]. etrans; [exact Hb|apply books_sockets].
  - intros [] s2 [HJ _]. apply wp_when; intros _.
    + apply (J_wake (E:=SocketError) _ _ w) in HJ; [|done]. unfold after, wake in HJ. unfold wake. apply wp_modify.
      eapply HQ; [apply HJ|eapply during_driven; [apply HJ|exact Hdu1]|exact Har].
    + eapply HQ; [apply HJ|eapply during_driven; [apply HJ|exact Hdu1]|exact Har].
Qed.

Lemma pop_accepted_wp s0 i (Q : option SocketIdentity → Sys → Prop) R s :
  stack_wf s → during s0 [] [] None s →
  (∀ o s', stack_wf s' → during s0 [] [] None s' → Q o s') → wp (pop_accepted i) Q R s.
Proof.
  intros Hi Hdu HQ. unfold pop_accepted. apply wp_bind, wp_gs.
  destruct (tcp_listeners (stack s) !! id i) as [l|] eqn:Hl; [|apply wp_ret; by apply HQ].
  destruct (accepted_queue l) as [|c q] eqn:Hq; [apply wp_ret; by apply HQ|].
  apply wp_bind, wp_ms, wp_ret. apply HQ; [|du_same].
  eapply (inv_listener_update (id i) l); [exact Hi|exact Hl|done|done|done| |].
  - destruct (so_listeners _ _ _ _ _ _ (inv_sock _ _ Hi) _ _ Hl) as (? & ? & ? & ? & ? & ? & ? & Hb).
    split_and!; try done; simpl; try lia. rewrite Hq in Hb. unfold llen in *. simpl in Hb. lia.
  - simpl. rewrite Hq. intros c' Hc'. by right.
Qed.

Lemma tcp_accept_ok i p ref now s : stack_wf s → call_ok (tcp_accept i p ref now) (promise_of i p) s.
Proof.
  intros Hwf. unfold tcp_accept. tcp_start Hwf. destruct (listener_of (stack s) i) as [l|] eqn:Hl; cycle 1.
  { destruct (bool_decide _); guards. }
  guards. apply wp_ms. pose proof (J_request_listener_scan (E:=SocketError) _ _ _ (J_intro _ _ Hwf)) as HJ1.
  set (s1 := after _ s) in HJ1. at_state s1. apply wp_bind.
  eapply wp_mono; [eapply refresh_listeners_wp; [exact HJ1|done|done]| |done].
  intros [work more] s2 [HJ2 _]. pose proof (J_during _ _ _ HJ2) as Hdu2. apply wp_bind.
  eapply (pop_accepted_wp s); [apply HJ2|exact Hdu2|]. intros o s3 Hi3 Hdu3. clear Hdu2 HJ2 HJ1.
  assert (Hrf3 : ∀ e : SocketError, refuses s e s3) by (by split). clear Hrf. apply wp_bind. destruct o as [c|].
  - guards. destruct (tcp_socket_of _ _ _ _ Hi3 Hr) as [t Ht]. pose proof (J_intro _ _ Hi3) as HJ3.
    destruct (match tcp_listeners (stack s3) !! id i with Some _ => _ | None => _ end) as [nodelay keepalive].
    apply wp_bind. eapply wp_tcp_update; [exact HJ3|exact Ht| |by eapply closed_ok_same|].
    { pose proof (J_tcp_wf _ _ _ _ _ HJ3 Ht) as [Hw Hb]. by split. }
    intros ss HJ4 _. apply wp_ret. apply wp_bind, wp_bind, wp_gs, wp_ret.
    eapply (finish_answers s (promise_of i p) [] [] held_none); [apply HJ4|done..| |done].
    apply during_end. eapply during_driven; [apply HJ4|exact Hdu3].
  - apply wp_bind. eapply (arm_listener_waiter_wp s); [exact Hi3|exact Hdu3| |exact Hrf3].
    intros ins s4 Hi4 Hdu4 Har. apply wp_ret. apply wp_bind, wp_bind, wp_gs, wp_ret.
    by eapply (finish_answers s (promise_of i p) ins [] held_none); [..|apply during_end|].
Qed.

(** ** Connecting *)
(** A record that was exempt while it changed is that of its socket again. *)
Lemma inv_reconnected i r r' x s s' :
  inv x s → books s s' → tcp_records (stack s) !! i = Some r →
  inv (x <| exempt ::= λ X, {[i]} ∪ X |>) (with_records (<[i := r']> (tcp_records (stack s'))) s') →
  tr_identity r' = tr_identity r → idle (phase r') = false →
  inv x (with_records (<[i := r']> (tcp_records (stack s'))) s').
Proof.
  intros Hi [Ht _ Hrs Hls Hus Hcl _ Hlf _ _] Hr Hi' Hid Hph.
  destruct (decide (i ∈ exempt x)) as [Hex|Hex]; [eapply inv_weaken; [..|exact Hi']; simpl; try done; set_solver|].
  assert (Hsame : ∀ g k, recorded (<[i := r']> (tcp_records (stack s'))) (tcp_listeners (stack s'))
    (udp_records (stack s')) (closing_tcp (stack s')) {| id := i; generation := g |} k ↔
    recorded (tcp_records (stack s)) (tcp_listeners (stack s)) (udp_records (stack s)) (closing_tcp (stack s))
      {| id := i; generation := g |} k).
  { intros g k. unfold recorded. simpl. rewrite Hus, Hcl, Hls, lookup_insert_eq, Hr. destruct k; [|done|done].
    split; (intros [(r0 & [= <-] & ? & ?)|?]; [left; eexists; split_and!; [done|congruence|done]|by right]). }
  eapply (inv_unexempt i); [..|exact Hi']; simpl; try done.
  - rewrite lookup_insert_eq. intros r0 t [= <-]. congruence.
  - intros g k Hreg. apply Hsame, (re_recorded _ _ _ _ _ _ _ _ _ (inv_reg _ _ Hi)); [done|]. by rewrite <-Ht.
  - intros Hrun g k Hrec%Hsame. rewrite Ht. apply (re_registered _ _ _ _ _ _ _ _ _ (inv_reg _ _ Hi)); [congruence|done|done].
  - rewrite Hls, Hus, Hrs. intros j l c Hl Hc _ Hj Hc'. destruct (inv_queue _ _ Hi j l c Hl Hc) as [_ Hx].
    destruct (Hx Hj Hc') as (Hn & Hu & Hq). split_and!; [done|done|]. intros r0.
    rewrite lookup_insert_Some. intros [[_ <-]|[_ Hr0]]; [done|by apply Hq].
Qed.

Lemma connect_socket_wp i r re le (Q : unit → Sys → Prop) R s0 s :
  J s0 held_none s → tcp_records (stack s) !! i = Some r →
  (∀ t l s', J s0 (held_none <| exempt ::= λ X, {[i]} ∪ X |>) s' → books s s' →
    get_tcp (sockets (stack s')) (tr_handle r) = Some t → local_endpoint t = Some l → Q tt s') →
  (∀ e s', J s0 held_none s' → R e s') →
  wp (connect_socket (tr_handle r) re le) Q R s.
Proof.
  intros HJ Hr HQ HR. destruct (tcp_socket_of _ _ _ _ (proj1 HJ) Hr) as [t Ht].
  unfold connect_socket. apply wp_bind. eapply wp_get_tcp; [exact Ht|]. apply wp_bind, wp_gs. cbv zeta.
  set (t1 := set_timeout _ t). assert (Ht1 : socket_wf (STcp t1)) by exact (J_tcp_wf _ _ _ _ _ HJ Ht).
  set (src := get_source_address _ _). set (rand := iface_rest _).
  pose proof (tcp_connect_to_ok src rand re le t1 Ht1) as [Hws Hwf'].
  pose proof (tcp_connect_to_outcome src rand re le t1 (source_law _ _)) as Ho.
  destruct (tcp_connect_to src rand re le t1) as [[res ws] t'] eqn:Hc. simpl in *. apply wp_bind, wp_ms.
  assert (Hfail : t' = t1 → ∀ e, wp (wake_all ws ;; fail e) Q R
    (with_sockets (set_put (tr_handle r) (Some (STcp t')) (sockets (stack s))) s)).
  { intros -> e. apply wp_bind. eapply wp_wake_all; [|exact Hws|intros s2 HJ2 _; by apply wp_fail, HR].
    eapply J_put_tcp; [exact HJ|exact Ht|exact Hwf'|by eapply closed_ok_same]. }
  destruct res as [[]|[]|]; [|by apply Hfail|by apply Hfail|done]. destruct Ho as (l & Hl & _ & _).
  set (x := held_none <| exempt ::= λ X, {[i]} ∪ X |>).
  assert (HJx : J s0 x s) by (eapply J_weaken; [..|exact HJ]; simpl; try done; set_solver).
  apply wp_bind. eapply (wp_wake_all s0 x); [|exact Hws|].
  - eapply J_put_tcp; [exact HJx|exact Ht|exact Hwf'|]. intros j r' Hr' Hj Hidle Hh.
    destruct (decide (j = i)) as [->|Hne]; [exfalso; apply Hj; simpl; set_solver|].
    exfalso. eapply (tcp_handles_distinct _ _ _ _ i j r r'); [apply HJ|done..].
  - intros s2 HJ2 Hwoke. apply wp_ms. eapply (HQ t' l); [j_same| | |exact Hl].
    + etrans; [apply books_sockets|]. etrans; [apply books_woke; exact Hwoke|]. by constructor.
    + destruct Hwoke as [Hst _]. simpl. rewrite Hst. simpl. apply get_tcp_set_get.
      apply get_tcp_set_get in Ht. destruct (set_put_spec (tr_handle r) _ (Some (STcp t')) _ Ht) as [Hg _].
      by rewrite Hg, decide_True.
Qed.

Lemma connect_start_wp i r re p ref now s :
  stack_wf s → registered (socket_table (stack s)) i Tcp → tcp_records (stack s) !! id i = Some r →
  tr_identity r = i → is_listener (stack s) i = false →
  wp (connect_start i r re p ref now) (answers (promise_of i p) s) (refuses s) s.
Proof.
  intros Hwf Hreg Hr Hid Hnl. pose proof (λ e : SocketError, refuses_same s e Hwf) as Hrf.
  unfold connect_start. guards.
  eapply (wp_mono _ (λ _ s', J s held_none s' ∧ books s s') _ (refuses s)); [|intros l s1 [HJ1 Hb1]|done].
  { destruct (local r); guards; [by split; [apply J_intro|]|].
    eapply wp_allocate_tcp; [by apply J_intro| |exact Hrf]. intros q s1 HJ1 [Hb _] _. by apply wp_ret. }
  clear Hrf. assert (Hrf : ∀ e : SocketError, refuses s e s1) by (intros; by eapply refuses_J). guards.
  assert (Hr1 : tcp_records (stack s1) !! id i = Some r) by (by rewrite (bk_records _ _ Hb1)).
  eapply (connect_socket_wp (id i) r); [exact HJ1|exact Hr1| |intros e s' HJ'; by eapply refuses_J].
  intros t sel s2 HJ2 Hb2 Ht Hsel. apply wp_bind. eapply wp_get_tcp; [exact Ht|].
  apply wp_bind, wp_expect. exists sel. split; [done|]. apply wp_bind.
  assert (Hb : books s s2) by (by etrans).
  assert (Hr2 : tcp_records (stack s2) !! id i = Some r) by (by rewrite (bk_records _ _ Hb)).
  eapply (wp_tcp_record_mut _ _ r); [exact Hr2|done|unfold is_listener in *; by rewrite (bk_listeners _ _ Hb)|].
  set (r' := _ <| remote_scope_id := _ |>). pose proof (tcp_record_ok _ _ _ _ Hwf Hr) as (Hri & Hrv & Hsv & _).
  assert (Hi3 : stack_wf (with_records (<[id i := r']> (tcp_records (stack s2))) s2)).
  { eapply (inv_reconnected (id i) r r' held_none s); [exact Hwf|exact Hb|exact Hr| |done|done].
    eapply (inv_record_update (id i) r); [apply HJ2|exact Hr2|done|done|done|by split_and!| |by intros|done].
    simpl. intros d Hd. destruct (tcp_not_closing i r s); try done. congruence. }
  apply wp_bind, wp_ms. pose proof (J_during _ _ _ HJ2) as Hdu2.
  set (s3 := with_records _ s2) in *. assert (HJ4 : J s3 held_none (s3 <| stack ::= λ st, st <| tcp_connections ::=
    <[connection_key sel (ip_endpoint re) := i]> |> |>)) by apply J_connections, J_intro, Hi3.
  assert (Hdu4 : during s [] [] None (s3 <| stack ::= λ st, st <| tcp_connections ::=
    <[connection_key sel (ip_endpoint re) := i]> |> |>)) by du_same.
  apply wp_bind. unfold arm_connect. eapply (arm_tcp_waiter_wp s); [apply HJ4|exact Hdu4|exact Ht| |].
  - intros ins s5 Hi5 Hdu5 Har. by eapply (drive_finish_wp (promise_of i p) (ReplySelect Connect ref) _ _ ins []).
  - left. intros e. split; [apply HJ4|exact Hdu4].
Qed.

Lemma finalize_or_arm_connect_wp i p ref now s :
  stack_wf s → wp (finalize_or_arm_connect i p ref now) (answers (promise_of i p) s) (refuses s) s.
Proof.
  intros Hwf. pose proof (λ e : SocketError, refuses_same s e Hwf) as Hrf.
  unfold finalize_or_arm_connect. guards. destruct (tcp_socket_of _ _ _ _ Hwf Hr) as [t Ht].
  pose proof (J_intro _ _ Hwf) as HJ. eapply wp_get_tcp; [exact Ht|].
  assert (Harm : wp (arm_connect i (tr_handle r) p ref ;; effects ← expect_drive now None;
    finish_call (ReplySelect Connect ref) effects []) (answers (promise_of i p) s) (refuses s) s).
  { apply wp_bind. eapply (arm_tcp_waiter_wp s); [exact Hwf|apply during_refl|exact Ht| |by left].
    intros ins s5 Hi5 Hdu5 Har. by eapply (drive_finish_wp (promise_of i p) (ReplySelect Connect ref) _ _ ins []). }
  destruct (tcp_state t); try exact Harm; try (apply wp_fail, Hrf).
  - cbv zeta. apply wp_bind. set (f := match phase r with PhaseFailed f => f | _ => TimedOut end).
    eapply (wp_tcp_record_mut _ _ r); [done|done|done|]. apply wp_fail.
    eapply (refuses_J s held_none); [|done..]. by apply (J_phase s held_none (id i) r).
  - guards. eapply (wp_tcp_update s); [exact HJ|exact Ht|exact (J_tcp_wf _ _ _ _ _ HJ Ht)|by eapply closed_ok_same|].
    intros ss HJ1 _. apply wp_bind. eapply (wp_tcp_record_mut _ _ r); [done|done|done|].
    apply wp_bind, wp_bind, wp_gs, wp_ret. eapply (finish_plain _ held_none); [|done..].
    by apply (J_phase s held_none (id i) r).
Qed.

Lemma tcp_connect_ok i e p ref now s : stack_wf s → call_ok (tcp_connect i e p ref now) (promise_of i p) s.
Proof.
  intros Hwf. unfold tcp_connect. tcp_start Hwf. destruct (phase r); try (apply wp_fail, Hrf).
  - by apply connect_start_wp.
  - by apply connect_start_wp.
  - guards. by apply finalize_or_arm_connect_wp.
Qed.

(** ** Listening *)
Lemma concrete_listener_endpoint_wp v (Q : IpListenEndpoint → Sys → Prop) R s :
  (∀ le, listen_port le = v_port v → Q le s) → (∀ e, R e s) → wp (concrete_listener_endpoint v) Q R s.
Proof.
  intros HQ HR. unfold concrete_listener_endpoint. apply wp_bind, wp_gs. destruct (negb _).
  - by apply wp_ret, HQ.
  - apply wp_bind, wp_ok_or; [|intros; apply HR]. intros a _. by apply wp_ret, HQ.
Qed.

(** Sockets are added to the pool, and held until the listener takes them. *)
Lemma add_pool_wp s0 x r n (Q : list SocketHandle → Sys → Prop) R s :
  J s0 x s → held_tcp x = [] → free_slots x = N.of_nat n →
  valid_buffer_bytes (tr_rcvbuf r) = true → valid_buffer_bytes (tr_sndbuf r) = true →
  (∀ hs ss, length hs = n → J s0 (x <| held_tcp := hs |> <| free_slots := 0%N |>) (with_sockets ss s) →
    (∀ h, h ∈ hs → ∃ t, get_tcp ss h = Some t ∧ tcp_state t = StClosed) →
    (∀ h t, set_get (sockets (stack s)) h = Some t → set_get ss h = Some t) →
    Q (tr_handle r :: hs) (with_sockets ss s)) →
  wp (for_acc (seq 1 n) (λ _, add_pool_socket r) [tr_handle r]) Q R s.
Proof.
  intros HJ Hh Hs Hrv Hsv HQ.
  eapply wp_mono; [apply (wp_for_acc _ _ (λ l hs s', ∃ hs' ss, hs = tr_handle r :: hs'
    ∧ length hs' + length l = n ∧ s' = with_sockets ss s
    ∧ J s0 (x <| held_tcp := hs' |> <| free_slots := N.of_nat (length l) |>) s'
    ∧ (∀ h, h ∈ hs' → ∃ t, get_tcp ss h = Some t ∧ tcp_state t = StClosed)
    ∧ (∀ h t, set_get (sockets (stack s)) h = Some t → set_get ss h = Some t)) R)| |done].
  - exists [], (sockets (stack s)). rewrite length_seq. split_and!; [done|done|by destruct s as [[] ? ? ?]| |set_solver|done].
    eapply J_weaken; [..|exact HJ]; simpl; try done; [by rewrite Hh|lia].
  - intros a l hs s1 (hs' & ss & -> & Hlen & -> & HJ1 & Hcl & Hold). unfold add_pool_socket.
    destruct (tcp_socket_valid _ _ Hrv Hsv) as (t & -> & Ht & Hst). apply wp_bind, wp_ret.
    apply wp_bind. eapply wp_add_tcp; [exact HJ1|exact Ht|simpl; lia|]. intros h ss' HJ2 Hnone Hget. apply wp_ret.
    simpl in Hnone, Hget. exists (hs' ++ [h]), ss'. rewrite length_app. simpl in *. split_and!; [done|lia|done| | |].
    + eapply J_weaken; [..|exact HJ2]; simpl; try done; [by rewrite Permutation_app_comm|lia].
    + intros h' [Hh'| ->%list_elem_of_singleton]%elem_of_app.
      * destruct (Hcl h' Hh') as (t0 & Ht0 & Hst0). exists t0. split; [|done]. apply get_tcp_set_get in Ht0.
        apply get_tcp_set_get. rewrite Hget, decide_False; [done|]. intros ->. congruence.
      * exists t. split; [|done]. apply get_tcp_set_get. by rewrite Hget, decide_True.
    + intros h' t' Ht'. apply Hold in Ht'. rewrite Hget, decide_False; [done|]. intros ->. congruence.
  - intros hs s1 (hs' & ss & -> & Hlen & -> & HJ1 & Hcl & Hold). simpl in *. apply HQ; [lia|done..].
Qed.

(** The members of a new pool are closed, and can all listen. *)
Lemma listen_members_wp s0 x le hs (Q : unit → Sys → Prop) R s :
  J s0 x s → NoDup hs → listen_port le ≠ 0%N →
  (∀ h, h ∈ hs → (∃ t, get_tcp (sockets (stack s)) h = Some t ∧ tcp_state t = StClosed)
    ∧ ∀ t', closed_ok x s h t') →
  (∀ s', J s0 x s' → books s s' → Q tt s') → wp (for_each hs (listen_member le)) Q R s.
Proof.
  intros HJ Hnd Hle. revert s HJ. induction Hnd as [|h hs Hn Hnd IH]; intros s HJ Hhs HQ; simpl.
  { apply wp_ret. by apply HQ. }
  destruct (Hhs h) as [(t & Ht & Hst) Hcl]; [by left|]. apply wp_bind. unfold listen_member at 1.
  apply wp_bind. eapply wp_get_tcp; [exact Ht|]. cbv zeta. set (t1 := set_timeout _ t).
  pose proof (tcp_listen_on_ok le t1 (J_tcp_wf _ _ _ _ _ HJ Ht)) as [Hws Hwf'].
  pose proof (tcp_listen_on_closed le t1 Hle Hst) as Hok.
  destruct (tcp_listen_on le t1) as [[res ws] t']. simpl in *. subst res. apply wp_bind, wp_ms. apply wp_bind.
  eapply wp_wake_all; [exact (J_put_tcp _ _ _ _ _ _ HJ Ht Hwf' (Hcl _))|exact Hws|]. intros s1 HJ1 Hwoke.
  assert (Hb1 : books s s1) by (destruct (books_woke _ _ Hwoke); by constructor). destruct Hwoke as [Hst1 _].
  apply wp_ret. apply IH; [exact HJ1| |intros s' HJ' Hb'; apply HQ; [done|by etrans]].
  intros h' Hh'. destruct (Hhs h') as [(t2 & Ht2 & Hst2) Hcl2]; [by right|]. split.
  - exists t2. split; [|done]. rewrite Hst1. simpl. apply get_tcp_set_get in Ht, Ht2. apply get_tcp_set_get.
    destruct (set_put_spec h _ (Some (STcp t')) _ Ht) as [Hg _]. rewrite Hg, decide_False; [done|]. intros ->. done.
  - intros t3 j r. rewrite (bk_records _ _ Hb1). apply Hcl2.
Qed.

(** The record of a bound socket is replaced by that of its listener. *)
Lemma inv_new_listener i r l hs n x s0 s :
  stack_wf s0 → lifecycle (stack s0) = Running → registered (socket_table (stack s0)) i Tcp → books s0 s →
  tcp_records (stack s0) !! id i = Some r → is_listener (stack s0) i = false → idle (phase r) = true →
  x = held_none <| held_tcp := hs |> <| free_bytes := n |> <| exempt := {[id i]} |> → inv x s →
  lr_identity l = i → bset_elems (pool l) ≡ₚ tr_handle r :: hs → listener_wf (id i) l →
  (listener_bytes l <= n + record_bytes r)%N → accepted_queue l = [] →
  stack_wf (with_listeners (<[id i := l]> (tcp_listeners (stack s)))
    (with_records (delete (id i) (tcp_records (stack s))) s)).
Proof.
  intros Hwf Hrun Hreg Hb Hr Hnl Hidle -> Hi Hid Hp Hlw Hbytes Hq.
  destruct (registered_tcp s0 i Hwf Hrun Hreg) as [Hu Hl]. specialize (Hl Hnl).
  destruct Hb as [Ht Hn Hrs Hls Hus Hcl _ Hlf _ _]. rewrite <-Hrs in Hr. rewrite <-Hls in Hl. rewrite <-Hus in Hu.
  pose proof (inv_record_delete (id i) r _ s Hi ltac:(simpl; clear; set_solver) Hr) as Hi1.
  set (s1 := with_records _ s) in *.
  assert (id i < next_socket_id (shd s))%N as Hlt by (apply (re_ids _ _ _ _ _ _ _ _ _ (inv_reg _ _ Hi)); left; by eexists).
  pose proof (inv_listener_insert (id i) l [] _ s1 Hi1 ltac:(simpl; clear; set_solver) ltac:(apply lookup_delete_eq)
    Hl Hlt ltac:(simpl; by rewrite Hp, app_nil_r) Hlw ltac:(simpl; lia)
    ltac:(rewrite Hq; intros c Hc; by apply elem_of_nil in Hc)) as Hi2.
  eapply (inv_unexempt (id i)); [..|exact Hi2]; simpl; try done; try lia; try (clear; set_solver).
  - by rewrite lookup_delete_eq.
  - intros g k Hg. rewrite Ht in Hg. destruct (registered_unique _ _ _ _ _ Hreg Hg eq_refl) as [Heq ->].
    rewrite Heq. right. exists l. by rewrite lookup_insert_eq.
  - intros _ g k. unfold recorded. simpl. rewrite lookup_delete_eq, lookup_insert_eq, Hu.
    destruct k; [|by intros (? & ? & _)|done]. intros [(? & ? & _)|(l0 & [= <-] & Hg)]; [done|]. by rewrite <-Hg, Hid, Ht.
  - intros j l0 c. rewrite lookup_insert_Some. intros [[_ <-]|[Hj Hl0]] Hc.
    { rewrite Hq in Hc. by apply elem_of_nil in Hc. }
    intros [?|Hci] _ _; [congruence|]. exfalso. rewrite Hls in Hl0.
    destruct (inv_queue _ _ Hwf j l0 c Hl0 Hc) as [_ Hx].
    destruct (Hx ltac:(set_solver) ltac:(set_solver)) as (_ & _ & Hph). rewrite Hci, <-Hrs in Hph.
    by rewrite (Hph r Hr) in Hidle.
Qed.

Lemma pool_elems (hs : list SocketHandle) :
  NoDup hs → bset_elems (list_to_set hs : gset SocketHandle) ≡ₚ hs
    ∧ size (list_to_set hs : gset SocketHandle) = length hs.
Proof.
  intros Hnd. split; [|by apply size_list_to_set].
  apply NoDup_Permutation; [apply NoDup_bset_elems|done|]. intros h. by rewrite elem_of_bset_elems, elem_of_list_to_set.
Qed.

(** The end of a listen, once the whole pool is listening. *)
Lemma listen_done_wp i r l le bl hs n now s0 s :
  stack_wf s0 → lifecycle (stack s0) = Running → registered (socket_table (stack s0)) i Tcp →
  books s0 s → driven s0 s → tcp_records (stack s0) !! id i = Some r → is_listener (stack s0) i = false →
  tr_identity r = i → phase r = PhaseBound → local r = Some l → listen_port le = port l →
  (1 <= bl <= LISTENER_BACKLOG_MAX)%N → NoDup (tr_handle r :: hs) →
  N.of_nat (S (length hs)) = N.min bl LISTENER_POOL_MAX →
  ((N.min bl LISTENER_POOL_MAX - 1) * record_bytes r <= n)%N →
  inv (held_none <| held_tcp := hs |> <| free_bytes := n |> <| exempt := {[id i]} |>) s →
  wp (t ← get_tcp_socket (tr_handle r);
      let endpoint := {| v_address := addr l; v_port := port l; v_scope_id := local_scope_id r |} in
      let listener :=
        (listener_record_new i endpoint le l bl (list_to_set (tr_handle r :: hs)) (tr_rcvbuf r) (tr_sndbuf r))
          <| lr_nodelay := negb (nagle t) |>
          <| lr_keepalive := bool_decide (is_Some (tcp_keep_alive t)) |> in
      remove_tcp_record r ;;
      ms (λ st, st <| tcp_listeners ::= <[id i := listener]> |>) ;;
      request_listener_scan ;;
      effects ← expect_drive now None;
      finish_call tt effects []) (answers nothing s0) (refuses (E:=SocketError) s0) s.
Proof.
  intros Hwf Hrun Hreg Hb Hd Hr Hnl Hid Hph Hl Hle Hbl Hnd Hlen Hn Hi.
  destruct (tcp_record_ok _ _ _ _ Hwf Hr) as (Hri & Hrv & Hsv & Hport).
  destruct (Hport Hph) as (l' & Hl' & Hp). rewrite Hl in Hl'. injection Hl' as <-.
  assert (Hr1 : tcp_records (stack s) !! id i = Some r) by (by rewrite (bk_records _ _ Hb)).
  destruct (tcp_socket_of _ _ _ _ Hi Hr1) as [t Ht]. apply wp_bind. eapply wp_get_tcp; [exact Ht|]. cbv zeta.
  destruct (pool_elems _ Hnd) as [Hpe Hsz]. set (P := list_to_set (tr_handle r :: hs)) in *.
  set (lis := _ <| lr_keepalive := _ |>).
  assert (Hlb : listener_bytes lis = (N.of_nat (S (length hs)) * record_bytes r)%N) by (unfold listener_bytes; simpl; by rewrite Hsz).
  assert (Hlw : listener_wf (id i) lis).
  { split_and!; simpl; first [done|lia|by rewrite Hle|by rewrite Hsz|unfold llen; simpl; lia]. }
  assert (Hdone : ∀ cs, let s1 := with_listeners (<[id i := lis]> (tcp_listeners (stack s)))
      (with_records (delete (id i) (tcp_records (stack s))) (s <| stack ::= λ st, st <| tcp_connections := cs |> |>)) in
    wp (request_listener_scan ;; effects ← expect_drive now None; finish_call tt effects [])
      (answers nothing s0) (refuses (E:=SocketError) s0) s1).
  { intros cs s1. assert (Hi1 : stack_wf s1).
    { set (s2 := s <| stack ::= _ |>) in s1. assert (Hb2 : books s0 s2) by (by destruct Hb; constructor).
      assert (Hi2 : inv (held_none <| held_tcp := hs |> <| free_bytes := n |> <| exempt := {[id i]} |>) s2)
        by (by destruct Hi; constructor).
      apply (inv_new_listener i r lis hs n _ s0 s2 Hwf Hrun Hreg Hb2 Hr Hnl ltac:(by rewrite Hph) eq_refl Hi2); try done.
      rewrite Hlb, Hlen. assert (1 <= N.min bl LISTENER_POOL_MAX)%N by (unfold LISTENER_POOL_MAX; lia). nia. }
    pose proof (during_driven _ _ _ _ _ _ Hd (during_refl s0)) as Hdu.
    assert (Hdu1 : during s0 [] [] None s1) by du_same. clear Hdu. apply wp_bind, wp_ms.
    pose proof (J_request_listener_scan (E:=SocketError) _ _ _ (J_intro _ _ Hi1)) as HJ2.
    eapply (drive_finish_wp nothing tt now None [] [] held_none); [apply HJ2|done..| |done].
    eapply during_driven; [apply HJ2|exact Hdu1]. }
  unfold remove_tcp_record. rewrite Hri, Hl. destruct (remote r) as [p|]; apply wp_bind, wp_bind.
  - apply wp_ms, wp_ms. apply wp_bind, wp_ms. exact (Hdone _).
  - apply wp_ret, wp_ms. apply wp_bind, wp_ms. exact (Hdone (tcp_connections (stack s))).
Qed.

Lemma tcp_listen_ok i bl now s : stack_wf s → call_ok (tcp_listen i bl now) nothing s.
Proof.
  intros Hwf. unfold tcp_listen. tcp_start Hwf. rewrite bool_decide_neq_false in Hg1.
  apply negb_false_iff in Hg. unfold contains in Hg. apply andb_true_iff in Hg as [Hb1%N.leb_le Hb2%N.leb_le].
  destruct (tcp_record_ok _ _ _ _ Hwf Hr) as (Hri & Hrv & Hsv & Hport).
  destruct (Hport Hg1) as (l' & Hl' & Hp'). rewrite Ha in Hl'. injection Hl' as <-.
  apply concrete_listener_endpoint_wp; [intros le Hle; simpl in Hle|exact Hrf].
  cbv zeta. set (pt := N.min bl LISTENER_POOL_MAX). apply wp_bind.
  eapply wp_ensure_native; [by apply J_intro| |apply Hrf]. intros HJ1.
  set (n := saturating_mul (saturating_sub pt 1) (tr_rcvbuf r + tr_sndbuf r)).
  apply wp_bind. eapply wp_ensure_bytes; [exact HJ1| |apply Hrf]. intros HJ2. clear HJ1.
  apply wp_bind. eapply (add_pool_wp s); [exact HJ2|done| |done|done|].
  { simpl. unfold saturating_sub. lia. }
  intros hs ss Hlen HJ3 Hcl Hold. set (s3 := with_sockets ss s) in *.
  set (x := held_none <| held_tcp := hs |> <| free_bytes := n |> <| exempt := {[id i]} |>).
  assert (HJ4 : J s x s3) by (eapply J_weaken; [..|exact HJ3]; simpl; try done; set_solver).
  destruct (tcp_socket_of _ _ _ _ Hwf Hr) as [t Ht].
  assert (Hstate : tcp_state t = StClosed).
  { eapply (so_idle _ _ _ _ _ _ (inv_sock _ _ Hwf)); [exact Hr|set_solver|by rewrite Hg1|exact Ht]. }
  assert (Hnd : NoDup (tr_handle r :: hs)).
  { destruct (so_tcp _ _ _ _ _ _ (inv_sock _ _ (proj1 HJ3))) as [Hnd _]. unfold tcp_handles in Hnd. simpl in Hnd.
    rewrite (bmap_flat_delete _ _ _ _ Hr) in Hnd. simpl in Hnd. apply list.NoDup_cons in Hnd as [Hn Hnd].
    apply list.NoDup_cons. split; [set_solver|]. by apply list.NoDup_app in Hnd as (_ & _ & ?). }
  apply wp_bind. eapply (listen_members_wp s x le); [exact HJ4|exact Hnd|by rewrite Hle| |].
  { intros h [->|Hh]%elem_of_cons; split; [| |by apply Hcl|intros t'; by eapply closed_ok_held].
    - exists t. split; [|done]. apply get_tcp_set_get. simpl. by apply Hold, get_tcp_set_get.
    - intros t' j r' Hr' Hj _ Hh. destruct (decide (j = id i)) as [->|Hne]; [exfalso; apply Hj; simpl; set_solver|].
      exfalso. eapply (tcp_handles_distinct _ _ _ _ (id i) j r r'); [apply HJ3|done..]. }
  intros s5 HJ5 Hb5. apply (listen_done_wp i r a le bl hs n now s); try done; [|apply HJ5| | |apply HJ5].
  - etrans; [|exact Hb5]. apply books_sockets.
  - unfold pt, LISTENER_POOL_MAX in *. lia.
  - unfold n, saturating_mul, saturating_sub, record_bytes, valid_buffer_bytes, contains in *.
    unfold MAX_BUFFER_BYTES, usize_max, LISTENER_POOL_MAX in *. subst pt. nia.
Qed.

(** C15. A send that answers takes the least of the data, the copy limit of the call and the
    room of the buffer, appends exactly these bytes of the front of the data to the transmit
    buffer, leaves the receive buffer, the state and every other socket, and then drives the
    stack. It answers done and leaves the table as it was when that is all of the data, and
    otherwise answers how much it took, and the waiter for the caller, this operation and
    this reference is armed in the table. A send that fails leaves every socket as it was,
    and none panics. *)
Theorem tcp_send_accepts_what_fits i data p ref now s :
  stack_wf s →
  match tcp_send i data p ref now s with
  | (Ok env, s') => stack_wf s' ∧ accepted_of s i data p ref now env s'
  | (Err _, s') => stack_wf s' ∧ sockets (stack s') = sockets (stack s)
  | (Panic, _) => False
  end.
Proof.
  intros Hwf. pose proof (tcp_send_wp i data p ref now s Hwf) as Hw. unfold wp in Hw.
  destruct (tcp_send i data p ref now s) as [[env|e|] s']; [|by destruct Hw as [[]]|done].
  by destruct Hw as [[]].
Qed.

(** C14. A receive that answers takes the front of the connection's buffer, as many bytes as
    asked for, allowed and there, leaves the rest of the buffer, the transmit buffer, the
    state and every other socket, and then drives the stack. It answers with the bytes and
    leaves the table as it was exactly when it is satisfied: it has bytes, and these are all
    that was asked for, or any number will do, or no more can come. Otherwise more may come,
    it answers the promise of a message with the bytes it has, and the waiter for the
    caller, this operation and this reference is armed in the table. A receive that fails
    takes no byte from any socket, and none panics. *)
Theorem tcp_recv_returns_the_front i length p ref now s :
  stack_wf s →
  match tcp_recv i length p ref now s with
  | (Ok env, s') => stack_wf s' ∧ returned s i length p ref now env s'
  | (Err _, s') => stack_wf s' ∧ sockets (stack s') = sockets (stack s)
  | (Panic, _) => False
  end.
Proof.
  intros Hwf. pose proof (tcp_recv_wp i length p ref now s Hwf) as Hw. unfold wp in Hw.
  destruct (tcp_recv i length p ref now s) as [[env|e|] s']; [|by destruct Hw as [[]]|done].
  by destruct Hw as [[]].
Qed.

(** ** A connection whose peer closes first *)
(** The peer has closed its side before the connect was completed. *)
Definition half_closed s (i : SocketIdentity) (r : TcpRecord) : Prop :=
  lifecycle (stack s) = Running ∧ registered (socket_table (stack s)) i Tcp ∧ is_listener (stack s) i = false
  ∧ tcp_records (stack s) !! id i = Some r ∧ tr_identity r = i ∧ phase r = PhaseConnecting
  ∧ ∃ t, get_tcp (sockets (stack s)) (tr_handle r) = Some t ∧ tcp_state t = StCloseWait.

Lemma half_closed_runs s i r :
  stack_wf s → half_closed s i r →
  ensure_running s = (Ok tt, s) ∧ validate_tcp i s = (Ok tt, s) ∧ tcp_record i s = (Ok r, s).
Proof.
  intros Hwf (Hrun & Hreg & Hnl & Hr & Hid & _). split_and!.
  - cbv [ensure_running mbind M_bind gs gets]. by rewrite Hrun.
  - destruct (registered_valid _ _ _ _ Hwf Hreg) as [e He].
    cbv [validate_tcp mbind M_bind gs gets lift_outcome]. by rewrite He.
  - cbv [tcp_record mbind M_bind gs gets]. by rewrite Hnl, Hr, bool_decide_true.
Qed.

End tcp_ok.

#[export] Hint Resolve socket_validate_ok tcp_open_ok tcp_bind_ok tcp_listen_ok tcp_accept_ok tcp_connect_ok
  tcp_shutdown_ok tcp_sockname_ok tcp_peername_ok tcp_set_nodelay_ok tcp_nodelay_ok tcp_set_keepalive_ok
  tcp_keepalive_ok : calls.
