(* ===== verification/UdpOps.v ===== *)
(** * The UDP calls

    Models the methods of [NativeStack] behind the UDP functions. A socket
    bound to a wildcard address is backed by one native socket per interface
    address, and receives from them in turn. *)
From S2P Require Import Prelude Budget Waiter SocketTable Wire TcpSupport Device Packet Smol.
From S2P Require Import Stack Create Readiness Invariant Maintenance Drive Settle Shutdown TcpOps.

Section udp_ops.
Context `{Beam, Mailbox, Engine}.
Abbreviation St := (M Sys SocketError).

Definition validate_udp (i : SocketIdentity) : St unit :=
  t ← gs socket_table; lift_outcome (validate t i Udp) ;; mret tt.

Definition udp_open (f : AddressFamily) : St (Envelope SocketIdentity) :=
  ensure_running ;;
  ensure_logical_socket_capacity ;;
  ensure_native_socket_capacity 1 0 ;;
  ensure_socket_buffer_capacity BUFFER_BYTES ;;
  h ← add_socket (SUdp udp_socket_new);
  i ← insert_or_remove Udp h;
  ms (λ st, st <| udp_records ::= <[id i := udp_record_new i h f]> |>) ;;
  finish_call i effects_empty [].

Definition bind_error (r : outcome UdpBindError unit) : St unit :=
  match r with
  | Ok _ => mret tt
  | Err UdpBindInvalidState => fail InvalidState
  | Err UdpBindUnaddressable => fail InvalidAddress
  | Panic => panic
  end.

(** A new backing socket, bound; its wakers are not set yet. *)
Definition bound_socket (p : u16) (a : IpAddress) (bound : list UdpSocket) : St (list UdpSocket) :=
  let '(r, _, u) := udp_bind_to {| listen_addr := Some a; listen_port := p |} udp_socket_new in
  bind_error r ;; mret (bound ++ [u]).

Definition add_bound (u : UdpSocket) (hs : list SocketHandle) : St (list SocketHandle) :=
  h ← add_socket (SUdp u); mret (hs ++ [h]).

(** The interface addresses a bind covers. *)
Definition bind_addresses (st : NativeStack) (f : AddressFamily) (a : IpAddress) : list IpAddress :=
  if is_unspecified a then
    List.filter (λ a, family_matches f a && negb (is_unspecified a))
      (cidr_address <$> ip_addrs (interface st))
  else [a].

Definition udp_bind (i : SocketIdentity) (endpoint : TcpEndpoint) : St (Envelope unit) :=
  ensure_running ;;
  validate_udp i ;;
  e ← lift_outcome (bind_endpoint endpoint);
  r ← udp_record i;
  fail_if (bool_decide (is_Some (udp_local r))) InvalidState ;;
  fail_if (negb (family_matches (ur_family r) (v_address e))) InvalidAddress ;;
  st ← gs (λ st, st);
  fail_if (negb (is_unspecified (v_address e)) && negb (has_ip_address st (v_address e)))
    AddressNotAvailable ;;
  p ← (if (v_port e =? 0)%N then allocate_udp_ephemeral_port (ur_family r)
       else fail_if (udp_port_in_use st (v_port e) (ur_family r) (Some i)) AddressInUse ;;
            mret (v_port e));
  let e := {| v_address := v_address e; v_port := p; v_scope_id := v_scope_id e |} in
  match bind_addresses st (ur_family r) (v_address e) with
  | [] => fail AddressNotAvailable
  | primary_address :: additional =>
      assert_true (length (handles r) =? 1)%nat ;;
      primary ← lift_outcome (primary_handle r);
      ensure_native_socket_capacity (llen additional) 0 ;;
      ensure_socket_buffer_capacity (llen additional * BUFFER_BYTES) ;;
      sockets ← for_acc additional (bound_socket p) [];
      u ← get_udp_socket primary;
      let '(r, ws, u) := udp_bind_to {| listen_addr := Some primary_address; listen_port := p |} u in
      put_udp_socket primary u ;;
      wake_all ws ;;
      bind_error r ;;
      hs ← for_acc sockets add_bound [primary];
      st ← gs (λ st, st);
      assert_true (set_count (Stack.sockets st) <=? l_sockets (limits st))%N ;;
      udp_record_mut i (λ r, r <| handles := hs |> <| udp_local := Some e |>
                               <| receive_cursor := 0%N |>) ;;
      finish_call tt effects_empty []
  end.

Definition udp_connect (i : SocketIdentity) (endpoint : TcpEndpoint) : St (Envelope unit) :=
  ensure_running ;;
  validate_udp i ;;
  re ← lift_outcome (remote_endpoint endpoint);
  r ← udp_record i;
  fail_if (bool_decide (udp_local r = None)) NotBound ;;
  fail_if (negb (family_matches (ur_family r) (v_address re))) InvalidAddress ;;
  st ← gs (λ st, st);
  fail_if (negb (reachable st (v_address re))) NetworkUnreachable ;;
  udp_record_mut i (λ r, r <| peer := Some re |>) ;;
  finish_call tt effects_empty [].

Definition register_udp_waker (d : Direction) (w : Waker) (u : UdpSocket) : UdpSocket :=
  match d with Read => u <| udp_rx_waker := Some w |> | Write => u <| udp_tx_waker := Some w |> end.

Definition arm_udp_waiter (i : SocketIdentity) (hs : list SocketHandle) (d : Direction)
    (o : Operation) (p : LocalPid) (r : Reference) (immediately_ready : bool) : St unit :=
  t ← gs socket_table;
  flag ← lift_outcome (ready_flag t i Udp d);
  on_table (install_waiter {| reg_identity := i; reg_expected_kind := Udp; reg_direction := d;
                              reg_pid := p; reg_operation := o; reg_reference := r |}) ;;
  let w := waker (ready_key i d) flag in
  for_each hs (λ h, u ← get_udp_socket h; put_udp_socket h (register_udp_waker d w u)) ;;
  when immediately_ready (wake w).

Definition udp_sendto (i : SocketIdentity) (endpoint : TcpEndpoint) (data : bytes) (p : LocalPid)
    (ref : Reference) (now : Time.Instant) : St (Envelope Reply) :=
  ensure_running ;;
  validate_udp i ;;
  t ← gs socket_table;
  busy ← lift_outcome (has_waiter t i Udp Write);
  fail_if busy Busy ;;
  re ← lift_outcome (remote_endpoint endpoint);
  r ← udp_record i;
  l ← ok_or (udp_local r) NotBound;
  fail_if (negb (family_matches (ur_family r) (v_address re))) InvalidAddress ;;
  fail_if (match peer r with Some peer => bool_decide (peer ≠ re) | None => false end) InvalidState ;;
  st ← gs (λ st, st);
  fail_if (negb (reachable st (v_address re))) NetworkUnreachable ;;
  fail_if (max_datagram_bytes (stack_mtu st) (ur_family r) <? llen data)%N MessageTooLarge ;;
  source ← (if is_unspecified (v_address l) then
              choice ← expect (get_source_address (interface st) (v_address re));
              ok_or (a ← choice; if family_matches (ur_family r) a then Some a else None) NetworkUnreachable
            else mret (v_address l));
  primary ← lift_outcome (primary_handle r);
  u ← get_udp_socket primary;
  let '(sent, u) :=
    udp_send_slice data {| meta_endpoint := ip_endpoint re; meta_local_address := Some source |} u in
  put_udp_socket primary u ;;
  match sent with
  | Ok _ =>
      effects ← expect_drive now (Some (llen data));
      finish_call ReplyOk effects []
  | Err UdpBufferFull =>
      arm_udp_waiter i [primary] Write Sendto p ref false ;;
      effects ← expect_drive now None;
      finish_call (ReplySelect Sendto ref) effects []
  | Err UdpUnaddressable => fail InvalidAddress
  | Panic => panic
  end.

(** ** Receiving *)
(** Whether the socket takes a datagram, and the address it came to. *)
Definition datagram_matches (r : UdpRecord) (l : ValidatedEndpoint) (m : UdpMetadata) : bool :=
  let destination := default (v_address l) (meta_local_address m) in
  family_matches (ur_family r) (addr (meta_endpoint m))
  && family_matches (ur_family r) destination
  && match peer r with Some p => bool_decide (ip_endpoint p = meta_endpoint m) | None => true end.

(** [length] of zero asks for the whole datagram. *)
Definition datagram_copied (length : usize) (payload : bytes) : usize :=
  if (length =? 0)%N then llen payload else N.min length (llen payload).

Definition datagram_reply (l : ValidatedEndpoint) (length : usize) (d : bytes * UdpMetadata) :
    Reply * usize :=
  let '(payload, m) := d in
  let copied := datagram_copied length payload in
  (ReplyDatagram (encoded_endpoint (meta_endpoint m) (v_scope_id l))
     (encoded_endpoint {| addr := default (v_address l) (meta_local_address m); port := v_port l |}
        (v_scope_id l))
     (take (N.to_nat copied) payload) (copied <? llen payload)%N, copied).

(** The [while] over one backing socket: [inspected] and what was received. *)
Definition recv_turn (r : UdpRecord) (l : ValidatedEndpoint) (h : SocketHandle)
    (acc : usize * option (bytes * UdpMetadata)) :
    St (usize * option (bytes * UdpMetadata) * bool) :=
  let '(inspected, got) := acc in
  if (inspected <? PACKET_CAPACITY)%N then
    u ← get_udp_socket h;
    let '(next, u) := udp_recv u in
    put_udp_socket h u ;;
    match next with
    | None => mret (inspected, got, false)
    | Some (payload, m) =>
        if datagram_matches r l m then mret ((inspected + 1)%N, Some (payload, m), false)
        else mret ((inspected + 1)%N, got, true)
    end
  else mret (inspected, got, false).

(** The [for] over the backing sockets; the variables are [inspected],
    [received] and [next_receive_cursor]. *)
Definition recv_handle (r : UdpRecord) (l : ValidatedEndpoint) (start : usize) (offset : nat)
    (acc : usize * option (bytes * UdpMetadata) * usize) :
    St (usize * option (bytes * UdpMetadata) * usize * bool) :=
  let '(inspected, got, cursor) := acc in
  let count := llen (handles r) in
  let index := ((start + N.of_nat offset) mod count)%N in
  h ← expect (handles r !! N.to_nat index);
  '(inspected, got) ←
    while_loop (S (N.to_nat PACKET_CAPACITY)) (recv_turn r l h) (inspected, got);
  if bool_decide (is_Some got) || (inspected =? PACKET_CAPACITY)%N
  then mret (inspected, got, ((index + 1) mod count)%N, false)
  else mret (inspected, got, cursor, true).

Fixpoint any_can_recv (hs : list SocketHandle) : St bool :=
  match hs with
  | [] => mret false
  | h :: hs => u ← get_udp_socket h; if udp_can_recv u then mret true else any_can_recv hs
  end.

Definition udp_recvfrom (i : SocketIdentity) (length : usize) (p : LocalPid) (ref : Reference)
    (now : Time.Instant) : St (Envelope Reply) :=
  ensure_running ;;
  validate_udp i ;;
  t ← gs socket_table;
  busy ← lift_outcome (has_waiter t i Udp Read);
  fail_if busy Busy ;;
  r ← udp_record i;
  l ← ok_or (udp_local r) NotBound;
  (* a remainder by zero panics *)
  assert_true (bool_decide (handles r ≠ [])) ;;
  let count := llen (handles r) in
  let start := (receive_cursor r mod count)%N in
  '(_, got, cursor) ←
    for_break (seq 0 (N.to_nat count)) (recv_handle r l start) (0%N, None, start);
  udp_record_mut i (λ r, r <| receive_cursor := cursor |>) ;;
  match got with
  | Some d =>
      let '(reply, copied) := datagram_reply l length d in
      effects ← expect_drive now (Some copied);
      finish_call reply effects []
  | None =>
      immediately_ready ← any_can_recv (handles r);
      arm_udp_waiter i (handles r) Read Recvfrom p ref immediately_ready ;;
      effects ← expect_drive now None;
      finish_call (ReplySelect Recvfrom ref) effects []
  end.

(** ** Names and close *)
Definition udp_sockname (i : SocketIdentity) : St (Envelope EncodedEndpoint) :=
  ensure_running ;;
  validate_udp i ;;
  r ← udp_record i;
  l ← ok_or (udp_local r) NotBound;
  finish_call (encoded_endpoint (ip_endpoint l) (v_scope_id l)) effects_empty [].

Definition udp_peername (i : SocketIdentity) : St (Envelope EncodedEndpoint) :=
  ensure_running ;;
  validate_udp i ;;
  r ← udp_record i;
  p ← ok_or (peer r) NotConnected;
  finish_call (encoded_endpoint (ip_endpoint p) (v_scope_id p)) effects_empty [].

Definition udp_close (i : SocketIdentity) (now : Time.Instant) : St (Envelope unit) :=
  ensure_running ;;
  validate_udp i ;;
  r ← udp_record i;
  ws ← on_table (table_close i);
  for_each (handles r) remove_socket ;;
  ms (λ st, st <| udp_records ::= delete (id i) |>) ;;
  effects ← expect_drive now None;
  finish_call tt effects (notifications i ws).
End udp_ops.

(** ** Records of UDP sockets *)
Section udp_records.
Context `{Beam, Mailbox, Engine}.
Implicit Types (s : Sys) (x : Held).

(** A record for a socket that is new in the table. *)
Lemma inv_new_udp i r hs x s :
  inv (x <| exempt ::= λ X, {[id i]} ∪ X |>) s → inserted i Udp s → ur_identity r = i →
  held_udp x ≡ₚ handles r ++ hs → udp_record_wf (id i) r → port_free (udp_records (stack s)) (id i) r →
  (udp_bytes r <= free_bytes x)%N →
  inv (x <| held_udp := hs |> <| free_bytes := 0%N |>)
    (with_udp (<[id i := r]> (udp_records (stack s))) s).
Proof.
  intros Hi [Hr Hl Hu Hc Hn Hreg Hq Huniq] Hid Hh Hwf Hpf Hb.
  eapply (inv_unexempt (id i));
    [| | | | | | | | |apply (inv_udp_put (id i) r None hs _ _ Hi)]; simpl; try done; try (clear; set_solver).
  - by rewrite Hr.
  - intros g k (-> & ->)%Huniq. exists r. simpl. rewrite lookup_insert_eq. by destruct i.
  - intros _ g k. unfold recorded. simpl. rewrite lookup_insert_eq, Hl, Hr.
    intros Hrec. destruct k; [by destruct Hrec as [(? & ? & _)|(? & ? & _)]| |done].
    destruct Hrec as (r0 & [= <-] & Hid'). by rewrite <-Hid', Hid.
  - intros j l c Hj Hcq [->|Hci]; [congruence|]. by destruct (Hq j l c Hj Hcq).
Qed.

(** A record takes over the held sockets. *)
Lemma inv_udp_replace i r r' hs x s :
  inv x s → udp_records (stack s) !! i = Some r → ur_identity r' = ur_identity r →
  handles r ++ held_udp x ≡ₚ handles r' ++ hs → udp_record_wf i r' → port_free (udp_records (stack s)) i r' →
  (udp_bytes r' <= udp_bytes r + free_bytes x)%N →
  inv (x <| held_udp := hs |> <| free_bytes := 0%N |>)
    (with_udp (<[i := r']> (udp_records (stack s))) s).
Proof.
  intros [Hso Hre Hta Hro Hde Hke Hli] Hr Hid Hh Hwf Hpf Hb. constructor; simpl; try done.
  - by eapply (sock_udp_put _ _ _ _ _ _ i r' (Some r) hs).
  - eapply (reg_weaken x); [done|reflexivity|]. by eapply reg_udp_update.
  - eapply (queue_weaken x); [done|reflexivity|]. by eapply queue_udp_update.
Qed.

Lemma udp_record_ok x i r s : inv x s → udp_records (stack s) !! i = Some r → udp_record_wf i r.
Proof. intros [Hso] Hr. by eapply (so_udps _ _ _ _ _ _ Hso). Qed.
Lemma udp_socket_of x i r h s :
  inv x s → udp_records (stack s) !! i = Some r → h ∈ handles r →
  ∃ u, get_udp (sockets (stack s)) h = Some u ∧ set_get (sockets (stack s)) h = Some (SUdp u).
Proof. intros [Hso] Hr Hh. by eapply sock_udp_handle. Qed.
Lemma udp_primary r i : udp_record_wf i r → ∃ h hs, handles r = h :: hs ∧ primary_handle (E:=SocketError) r = Ok h.
Proof. intros (_ & Hne & _). unfold primary_handle. destruct (handles r) as [|h hs]; [done|]. by exists h, hs. Qed.
End udp_records.

Section udp_ok.
Context `{Beam, Mailbox, Engine, !EngineLaws}.
Implicit Types (s : Sys) (x : Held) (R : SocketError → Sys → Prop).

Lemma validate_udp_wp i (Q : unit → Sys → Prop) R s :
  (registered (socket_table (stack s)) i Udp → Q tt s) → (∀ e, R e s) → wp (validate_udp i) Q R s.
Proof. intros HQ HR. unfold validate_udp. apply wp_bind, wp_gs. apply wp_bind, wp_validate; [|done]. intros e Hr. by apply HQ. Qed.

Lemma udp_open_ok f s : stack_wf s → call_ok (udp_open f) nothing s.
Proof.
  intros Hwf. unfold call_ok, udp_open. pose proof (λ e : SocketError, refuses_same s e Hwf) as Hrf.
  apply wp_bind, wp_ensure_running; [|exact Hrf]. intros _. apply wp_bind, wp_ensure_logical; [|apply Hrf].
  apply wp_bind. eapply wp_ensure_native; [by apply J_intro| |apply Hrf]. intros HJ1.
  apply wp_bind. eapply wp_ensure_bytes; [exact HJ1| |apply Hrf]. intros HJ2.
  apply wp_bind. eapply wp_add_udp; [exact HJ2|done|done|]. intros h ss HJ3.
  apply wp_bind. eapply insert_or_remove_wp; [exact HJ3| |].
  - intros i t' HJ4 Hin. apply wp_bind, wp_ms. pose proof (J_during _ _ _ HJ4) as Hdu.
    pose proof (inv_new_udp i (udp_record_new i h f) [] _ _ (proj1 HJ4) Hin eq_refl) as Hi5.
    eapply finish_answers; [apply Hi5; done|done|done|done| |done]. apply during_end. du_same.
  - intros e t' HJ4. eapply wp_remove_udp; [exact HJ4|simpl; reflexivity|]. intros ss' HJ5. by eapply refuses_J.
Qed.

Lemma udp_sockname_ok i s : stack_wf s → call_ok (udp_sockname i) nothing s.
Proof.
  intros Hwf. unfold call_ok, udp_sockname. pose proof (λ e : SocketError, refuses_same s e Hwf) as Hrf. guards.
  apply validate_udp_wp; [intros _; guards|exact Hrf].
  by eapply finish_plain; [apply J_intro, Hwf|..].
Qed.
Lemma udp_peername_ok i s : stack_wf s → call_ok (udp_peername i) nothing s.
Proof.
  intros Hwf. unfold call_ok, udp_peername. pose proof (λ e : SocketError, refuses_same s e Hwf) as Hrf. guards.
  apply validate_udp_wp; [intros _; guards|exact Hrf].
  by eapply finish_plain; [apply J_intro, Hwf|..].
Qed.

Lemma wp_udp_record_mut i f r (Q : unit → Sys → Prop) R s :
  udp_records (stack s) !! id i = Some r → ur_identity r = i →
  Q tt (with_udp (<[id i := f r]> (udp_records (stack s))) s) → wp (udp_record_mut i f) Q R s.
Proof.
  intros Hr Hid HQ. unfold udp_record_mut, udp_record. st_steps. 
  all: rewrite Hr in *; simplify_eq. 
  - done.
  - match goal with Hb : bool_decide _ = false |- _ => by apply bool_decide_eq_false in Hb end.
Qed.

Lemma udp_connect_ok i e s : stack_wf s → call_ok (udp_connect i e) nothing s.
Proof.
  intros Hwf. unfold call_ok, udp_connect. pose proof (λ e : SocketError, refuses_same s e Hwf) as Hrf. guards.
  apply validate_udp_wp; [intros _; guards|exact Hrf].
  eapply wp_udp_record_mut; [done|done|]. eapply (finish_answers _ _ _ _ held_none); [|done|done|done| |done].
  - eapply (inv_udp_update (id i) r); [exact Hwf|done|done|done|done|]. exact (udp_record_ok _ _ _ _ Hwf Hr).
  - apply during_end. pose proof (during_refl s). du_same.
Qed.

(** ** Arming *)
Lemma register_udp_ok d w u : waker_ok w → socket_wf (SUdp u) → socket_wf (SUdp (register_udp_waker d w u)).
Proof.
  intros Hw [Hf _]. split; [|done]. simpl in *. unfold wakers in *.
  destruct u, d; simpl in *; repeat case_match; simpl in *; rewrite ?list.Forall_cons in *; destruct_and?; split_and?; (done || by constructor).
Qed.

Lemma arm_udp_waiter_wp s0 x i r hs d o p ref imm (Q : unit → Sys → Prop) R s :
  inv x s → during s0 [] [] None s → udp_records (stack s) !! id i = Some r →
  (∀ h, h ∈ hs → h ∈ handles r) →
  (∀ ins s', inv x s' → during s0 ins [] None s' →
    arms (Some (ready_key i d, waiter_new p o ref)) s0 ins → Q tt s') →
  (∀ e, R e s) → wp (arm_udp_waiter i hs d o p ref imm) Q R s.
Proof.
  intros Hi Hdu Hr Hhs HQ HR. unfold arm_udp_waiter. apply wp_bind, wp_gs.
  apply wp_bind, wp_lift_outcome; [intros flag Hfl|intros e _; apply HR|apply ready_flag_no_panic].
  apply (ready_flag_key (get_table s)) in Hfl as ->; [|apply Hi].
  apply wp_bind. eapply wp_install; [exact Hi|exact Hdu| |exact HR].
  intros res ins t' Hi1 Hdu1 Har _. set (w := waker _ _). assert (Hw : waker_ok w) by done.
  apply wp_bind. set (s1 := put_table t' s) in *.
  eapply (wp_mono _ (λ _, J s1 x) _ R); [apply (wp_for_each _ _ (J s1 x))| |done].
  - by apply J_intro.
  - intros h s2 Hh HJ. destruct (udp_socket_of x (id i) r h s2) as (u & Hu & _); [apply HJ| |by apply Hhs|].
    { destruct HJ as [_ []]. by rewrite dr_udp. }
    apply wp_bind. eapply wp_get_udp; [exact Hu|]. apply wp_ms.
    eapply J_put_udp; [exact HJ|exact Hu|]. apply register_udp_ok; [done|]. by eapply J_udp_wf.
  - intros [] s2 HJ. apply wp_when; intros _.
    + apply (J_wake (E:=SocketError) _ _ w) in HJ; [|done]. unfold after, wake in HJ. unfold wake. apply wp_modify.
      eapply HQ; [apply HJ|eapply during_driven; [apply HJ|exact Hdu1]|exact Har].
    + eapply HQ; [apply HJ|eapply during_driven; [apply HJ|exact Hdu1]|exact Har].
Qed.

(** ** Sending *)
Lemma udp_send_slice_ok data m u : socket_wf (SUdp u) → socket_wf (SUdp (udp_send_slice data m u).2).
Proof. intros [Hf _]. unfold udp_send_slice. repeat case_match; done. Qed.
Lemma udp_send_slice_no_panic data m u : (udp_send_slice data m u).1 ≠ Panic.
Proof. unfold udp_send_slice. repeat case_match; done. Qed.

Lemma wp_primary x i r (Q : SocketHandle → Sys → Prop) R s :
  inv x s → udp_records (stack s) !! i = Some r →
  (∀ h u, h ∈ handles r → get_udp (sockets (stack s)) h = Some u → Q h s) →
  wp (lift_outcome (primary_handle r)) Q R s.
Proof.
  intros Hi Hr HQ. destruct (udp_primary r i) as (h & hs & Hhs & Hp); [by eapply udp_record_ok|]. rewrite Hp.
  assert (Hin : h ∈ handles r) by (rewrite Hhs; by left).
  destruct (udp_socket_of x i r h s Hi Hr Hin) as (u & Hu & _). by apply (HQ h u).
Qed.

Lemma udp_sendto_ok i e data p ref now s :
  stack_wf s → call_ok (udp_sendto i e data p ref now) (promise_of i p) s.
Proof.
  intros Hwf. unfold call_ok, udp_sendto. pose proof (λ e : SocketError, refuses_same s e Hwf) as Hrf. guards.
  apply validate_udp_wp; [intros _; guards|exact Hrf].
  eapply (wp_mono _ (λ _ s', s' = s) _ (refuses s)); [|intros source ? ->|done].
  { destruct (is_unspecified (v_address a)); guards; [|done].
    destruct (source_law (interface (stack s)) (v_address v) Hspec) as [choice Hch].
    apply wp_expect. exists choice. split; [done|]. guards; done. }
  apply wp_bind. eapply wp_primary; [exact Hwf|exact Hr|]. intros h u Hin Hu.
  apply wp_bind. eapply wp_get_udp; [exact Hu|]. set (m := {| meta_endpoint := _; meta_local_address := _ |}).
  pose proof (udp_send_slice_ok data m u (J_udp_wf _ _ _ _ _ (J_intro _ _ Hwf) Hu)) as Hu'.
  pose proof (udp_send_slice_no_panic data m u) as Hnp.
  destruct (udp_send_slice data m u) as [sent u']. simpl in Hu', Hnp. apply wp_bind, wp_ms.
  pose proof (J_put_udp s _ _ _ _ _ (J_intro _ _ Hwf) Hu Hu') as HJ1. pose proof (J_during _ _ _ HJ1) as Hdu1.
  destruct sent as [[]|[]|]; [| | |done].
  - apply wp_bind. eapply expect_drive_wp; [apply HJ1|exact Hdu1|done|done|]. intros eff s2 Hi2 Hdu2 _.
    by eapply finish_answers.
  - apply wp_fail. by eapply refuses_J.
  - apply wp_bind. eapply (arm_udp_waiter_wp s _ i r [h]); [apply HJ1|exact Hdu1|exact Hr|set_solver| |].
    + intros ins s2 Hi2 Hdu2 Har. apply wp_bind. eapply expect_drive_wp; [exact Hi2|exact Hdu2|done|done|].
      intros eff s3 Hi3 Hdu3 _. by eapply finish_answers.
    + intros e'. by eapply refuses_J.
Qed.

(** ** Receiving *)
(** What the loops over the backing sockets keep: the records are those of
    [s0], and a datagram that was taken is one the socket accepts. *)
Definition received s0 (r : UdpRecord) (l : ValidatedEndpoint) (got : option (bytes * UdpMetadata)) s : Prop :=
  J s0 held_none s ∧ match got with Some (_, m) => datagram_matches r l m = true | None => True end.

Lemma recv_turn_wp s0 i r l h inspected R s :
  udp_records (stack s0) !! i = Some r → h ∈ handles r → received s0 r l None s →
  wp (recv_turn r l h (inspected, None))
    (λ '((n, got), go) s', received s0 r l got s' ∧ if (go : bool) then got = None ∧ n = (inspected + 1)%N
      ∧ (inspected < PACKET_CAPACITY)%N else True) R s.
Proof.
  intros Hr Hh [HJ _]. unfold recv_turn. destruct (N.ltb_spec inspected PACKET_CAPACITY); [|by apply wp_ret].
  destruct (udp_socket_of held_none i r h s) as (u & Hu & _); [apply HJ| |done|].
  { destruct HJ as [_ []]. by rewrite dr_udp. }
  apply wp_bind. eapply wp_get_udp; [exact Hu|]. pose proof (udp_recv_ok u (J_udp_wf _ _ _ _ _ HJ Hu)) as Hu'.
  destruct (udp_recv u) as [next u']. apply wp_bind, wp_ms. pose proof (J_put_udp _ _ _ _ _ _ HJ Hu Hu') as HJ1.
  destruct next as [[payload m]|]; [|by apply wp_ret]. destruct (datagram_matches r l m) eqn:Hm; by apply wp_ret.
Qed.

Lemma recv_handle_wp s0 i r l start offset inspected cursor R s :
  udp_records (stack s0) !! i = Some r → handles r ≠ [] → received s0 r l None s →
  wp (recv_handle r l start offset (inspected, None, cursor))
    (λ '((n, got, c), go) s', received s0 r l got s' ∧ if (go : bool) then got = None else True) R s.
Proof.
  intros Hr Hne Hrc. unfold recv_handle. cbv zeta. set (count := llen (handles r)). set (index := ((start + N.of_nat offset) mod count)%N).
  assert (Hc : (index < count)%N).
  { apply N.mod_lt. unfold count, llen. destruct (handles r); [done|]. simpl. lia. }
  destruct (lookup_lt_is_Some_2 (handles r) (N.to_nat index)) as [h Hh]; [unfold count, llen in Hc; lia|].
  apply wp_bind, wp_expect. exists h. split; [done|]. apply list_elem_of_lookup_2 in Hh. apply wp_bind.
  eapply (wp_mono _ (λ acc, received s0 r l acc.2) _ R); [|intros [n got] s1 Hrc1|done].
  - eapply (wp_while_loop _ _ (λ k acc s', acc.2 = None ∧ received s0 r l None s'
      ∧ k = N.to_nat (PACKET_CAPACITY - acc.1)) _ _ (N.to_nat (PACKET_CAPACITY - inspected))).
    + done.
    + lia.
    + intros k [n got] s1 (Hg & Hrc1 & ->). simpl in Hg. subst got. eapply wp_mono; [by eapply recv_turn_wp| |done].
      intros [[n' got'] []] s2 [Hrc2 Hgo]; [|done]. destruct Hgo as (-> & -> & Hlt). simpl.
      eexists. split; [|done]. simpl. lia.
  - destruct (bool_decide (is_Some got)) eqn:Hg; simpl; [by apply wp_ret|]. apply bool_decide_eq_false in Hg.
    destruct got; [by exfalso; apply Hg|]. destruct (n =? PACKET_CAPACITY)%N; by apply wp_ret.
Qed.

Lemma any_can_recv_wp i r hs R s :
  stack_wf s → udp_records (stack s) !! i = Some r → (∀ h, h ∈ hs → h ∈ handles r) →
  wp (any_can_recv hs) (λ _ s', s' = s) R s.
Proof.
  intros Hi Hr. induction hs as [|h hs IH]; intros Hhs; [by apply wp_ret|]. simpl.
  destruct (udp_socket_of held_none i r h s Hi Hr) as (u & Hu & _); [apply Hhs; by left|].
  apply wp_bind. eapply wp_get_udp; [exact Hu|]. destruct (udp_can_recv u); [by apply wp_ret|].
  apply IH. intros h' Hh'. apply Hhs. by right.
Qed.

(** The scan over the backing sockets. *)
Lemma recv_scan_wp i r l start (Q : usize * option (bytes * UdpMetadata) * usize → Sys → Prop) R s :
  stack_wf s → udp_records (stack s) !! i = Some r →
  (∀ n got cursor s', received s r l got s' → Q (n, got, cursor) s') →
  wp (for_break (seq 0 (N.to_nat (llen (handles r)))) (recv_handle r l start) (0%N, None, start)) Q R s.
Proof.
  intros Hwf Hr HQ. apply (wp_for_break _ _ (λ _ acc s', acc.1.2 = None ∧ received s r l None s')).
  - split; [done|]. by split; [apply J_intro|].
  - intros [[n got] cursor] s' [Hg Hrc]. simpl in Hg. subst got. by apply HQ.
  - intros offset _ [[n got] cursor] s' [Hg Hrc]. simpl in Hg. subst got.
    eapply wp_mono; [eapply recv_handle_wp; [exact Hr| |exact Hrc]| |done].
    + by apply (udp_record_ok _ _ _ _ Hwf Hr).
    + intros [[[n' got'] c'] []] s'' [Hrc' Hgo]; [by subst|by apply HQ].
Qed.

Lemma udp_recvfrom_ok i length p ref now s :
  stack_wf s → call_ok (udp_recvfrom i length p ref now) (promise_of i p) s.
Proof.
  intros Hwf. unfold call_ok, udp_recvfrom. pose proof (λ e : SocketError, refuses_same s e Hwf) as Hrf. guards.
  apply validate_udp_wp; [intros _; guards|exact Hrf].
  pose proof (udp_record_ok _ _ _ _ Hwf Hr) as Hok.
  apply wp_assert; [apply bool_decide_eq_true, Hok|]. cbv zeta. apply wp_bind.
  eapply recv_scan_wp; [exact Hwf|exact Hr|]. intros n got cursor s1 [HJ1 _].
  assert (Hr1 : udp_records (stack s1) !! id i = Some r) by (destruct HJ1 as [_ []]; by rewrite dr_udp).
  apply wp_bind. eapply wp_udp_record_mut; [exact Hr1|exact Hid|]. set (r' := r <| receive_cursor := cursor |>).
  assert (Hi2 : stack_wf (with_udp (<[id i := r']> (udp_records (stack s1))) s1)).
  { eapply (inv_udp_update (id i) r r'); [apply HJ1|exact Hr1|done|done|done|exact Hok]. }
  pose proof (J_during _ _ _ HJ1) as Hdu1.
  assert (Hdu2 : during s [] [] None (with_udp (<[id i := r']> (udp_records (stack s1))) s1)) by du_same.
  clear Hdu1. set (s2 := with_udp _ _) in *.
  assert (Hr2 : udp_records (stack s2) !! id i = Some r') by apply lookup_insert_eq.
  destruct got as [d|].
  - destruct (datagram_reply a length d) as [reply copied] eqn:Hd. apply wp_bind.
    eapply expect_drive_wp; [exact Hi2|exact Hdu2|done|done|]. intros eff s3 Hi3 Hdu3 _.
    eapply finish_answers; [exact Hi3|done|done|done|exact Hdu3|].
    destruct d as [payload m]. unfold datagram_reply in Hd. by simplify_eq.
  - apply wp_bind. eapply wp_mono; [by eapply (any_can_recv_wp (id i) r')| |done]. intros ready s3 ->.
    apply wp_bind. eapply (arm_udp_waiter_wp s held_none i r'); [exact Hi2|exact Hdu2|exact Hr2|done| |].
    + intros ins s4 Hi4 Hdu4 Har. apply wp_bind. eapply expect_drive_wp; [exact Hi4|exact Hdu4|done|done|].
      intros eff s5 Hi5 Hdu5 _. by eapply finish_answers.
    + intros e. by split.
Qed.

(** ** Closing *)


Lemma udp_close_ok i now s : stack_wf s → call_ok (udp_close i now) nothing s.
Proof.
  intros Hwf. unfold call_ok, udp_close. pose proof (λ e : SocketError, refuses_same s e Hwf) as Hrf. guards.
  apply validate_udp_wp; [intros Hreg; guards|exact Hrf].
  eapply (wp_close s [] [] None); [exact Hwf|apply during_refl| |intros; apply Hrf].
  intros ws t' Hi1 Hdu1 Hes _ _. set (s1 := put_table t' s) in *. apply wp_bind.
  pose proof (inv_udp_delete (id i) r _ s1 Hi1 ltac:(simpl; clear; set_solver) Hr) as Hi2.
  set (s2 := with_udp _ s1) in *. apply (remove_all_other _ _ _ s1 s2 eq_refl).
  eapply remove_all_udp_wp; [by apply J_intro|simpl; by rewrite app_nil_r|].
  intros ss n HJ3. apply wp_bind, wp_ms. at_state (with_sockets ss s2).
  destruct HJ3 as [Hi3 _]. eapply (inv_weaken _ (held_none <| exempt ::= λ X, {[id i]} ∪ X |>)) in Hi3;
    simpl; try done; try lia.
  apply (inv_gone (id i) held_none) in Hi3.
  - apply wp_bind. eapply (expect_drive_wp s [] (given i ws)); [exact Hi3| |done|done|].
    + du_same.
    + intros eff s4 Hi4 Hdu4 _. eapply finish_answers; [exact Hi4|done|done|done| |done].
      by rewrite notifications_held.
  - simpl. by rewrite Hes, lookup_delete_eq.
  - apply (registered_udp s i Hwf Hrun Hreg).
  - apply (registered_udp s i Hwf Hrun Hreg).
  - simpl. apply lookup_delete_eq.
Qed.

(** ** Binding *)
Lemma bind_error_wp (r : outcome UdpBindError unit) (Q : unit → Sys → Prop) R s :
  r ≠ Panic → (r = Ok tt → Q tt s) → (∀ e, R e s) → wp (bind_error r) Q R s.
Proof. intros Hnp HQ HR. destruct r as [[]|[]|]; simpl; [by apply HQ|apply HR..|done]. Qed.
Lemma udp_bind_to_no_panic e u : (udp_bind_to e u).1.1 ≠ Panic.
Proof. unfold udp_bind_to. repeat case_match; done. Qed.

Lemma bound_sockets_wp p addrs R s :
  (∀ e, R e s) →
  wp (for_acc addrs (bound_socket p) [])
    (λ us s', s' = s ∧ length us = length addrs ∧ Forall (λ u, socket_wf (SUdp u)) us) R s.
Proof.
  intros HR. eapply wp_mono; [apply (wp_for_acc _ _ (λ l us s', s' = s ∧ length us + length l = length addrs
    ∧ Forall (λ u, socket_wf (SUdp u)) us) R)| |done]; [done| |].
  - intros a l us s1 (-> & Hlen & Hus). unfold bound_socket.
    pose proof (udp_bind_to_ok {| listen_addr := Some a; listen_port := p |} udp_socket_new ltac:(done)) as [_ Hu].
    pose proof (udp_bind_to_no_panic {| listen_addr := Some a; listen_port := p |} udp_socket_new) as Hnp.
    destruct (udp_bind_to _ _) as [[r ws] u]. simpl in Hu, Hnp. apply wp_bind, bind_error_wp; [done| |done].
    intros _. apply wp_ret. simpl in Hlen. rewrite length_app, Forall_app. simpl.
    split_and!; [done|lia|done|by constructor].
  - intros us s1 (-> & Hlen & Hus). simpl in Hlen. split_and!; [done|lia|done].
Qed.

(** The new sockets are held until the record takes them over. *)
Lemma add_bounds_wp s0 x us hs0 n (Q : list SocketHandle → Sys → Prop) R s :
  J s0 x s → held_udp x = [] → free_slots x = N.of_nat (length us) → free_bytes x = n →
  Forall (λ u, socket_wf (SUdp u)) us →
  (∀ hs ss, length hs = length us →
    J s0 (x <| held_udp := hs |> <| free_slots := 0%N |>) (with_sockets ss s) →
    Q (hs0 ++ hs) (with_sockets ss s)) →
  wp (for_acc us add_bound hs0) Q R s.
Proof.
  intros HJ Hh Hs Hb Hus HQ.
  eapply (wp_mono _ (λ hs s', ∃ hs' ss, hs = hs0 ++ hs' ∧ length hs' = length us ∧ s' = with_sockets ss s
    ∧ J s0 (x <| held_udp := hs' |> <| free_slots := 0%N |>) s') _ R);
    [|intros ? ? (hs & ss & -> & Hlen & -> & HJ'); by apply HQ|done].
  eapply wp_mono; [apply (wp_for_acc _ _ (λ l hs s', ∃ hs' ss, hs = hs0 ++ hs'
    ∧ length hs' + length l = length us ∧ s' = with_sockets ss s ∧ Forall (λ u, socket_wf (SUdp u)) l
    ∧ J s0 (x <| held_udp := hs' |> <| free_slots := N.of_nat (length l) |>) s') R)| |done].
  - exists [], (sockets (stack s)). rewrite app_nil_r. split_and!; [done|done|by destruct s as [[] ? ? ?]|done|].
    eapply J_weaken; [..|exact HJ]; simpl; try done; [by rewrite Hh|lia].
  - intros u l hs s1 (hs' & ss & -> & Hlen & -> & Hall & HJ1). apply list.Forall_cons in Hall as [Hu Hall].
    unfold add_bound. apply wp_bind. eapply wp_add_udp; [exact HJ1|exact Hu|simpl; lia|]. intros h ss' HJ2.
    apply wp_ret. exists (hs' ++ [h]), ss'. rewrite length_app. simpl in *.
    split_and!; [by rewrite app_assoc|lia|done|done|].
    eapply J_weaken; [..|exact HJ2]; simpl; try done; [by rewrite Permutation_app_comm|lia].
  - intros hs s1 (hs' & ss & -> & Hlen & -> & _ & HJ1). simpl in *. exists hs', ss. split_and!; [done|lia|done|done].
Qed.

(** Binding to the addresses found, on the port chosen. *)
(** A port that the search found, or that no other socket has, is free. *)
Lemma unused_port_free st i r e :
  v_port e ∉ used_udp_ports st (ur_family r) → port_free (udp_records st) i (r <| udp_local := Some e |>).
Proof.
  intros Hu j r' p Hj [= <-] Hp. destruct Hu. unfold used_udp_ports. apply elem_of_list_to_set, list_elem_of_omap.
  exists r'. split; [apply elem_of_bmap_values; by exists j|]. unfold port_of in Hp. destruct (udp_local r'); [|done].
  simpl in Hp. injection Hp as Hf Hv. rewrite bool_decide_true by done. simpl. by rewrite Hv.
Qed.
Lemma port_not_in_use_free st i r e :
  (∀ j r', udp_records st !! j = Some r' → udp_record_wf j r') →
  udp_port_in_use st (v_port e) (ur_family r) (Some i) = false →
  port_free (udp_records st) (id i) (r <| udp_local := Some e |>).
Proof.
  intros Hwf Hu j r' p Hj [= <-] Hp. destruct (Hwf j r' Hj) as [Hid _].
  destruct (decide (ur_identity r' = i)) as [He|Hne]; [by rewrite <-He|].
  assert (udp_port_in_use st (v_port e) (ur_family r) (Some i) = true) as Ht; [|by rewrite Ht in Hu].
  apply existsb_exists. exists r'. split; [apply list_elem_of_In, elem_of_bmap_values; by exists j|].
  unfold port_of in Hp. destruct (udp_local r') as [l|]; [|done]. simpl in Hp. injection Hp as Hf Hv.
  rewrite !bool_decide_true by congruence. simpl. by apply N.eqb_eq.
Qed.

Lemma udp_bind_at_wp i r e p primary_address additional s0 s :
  J s0 held_none s → udp_records (stack s) !! id i = Some r → ur_identity r = i → udp_local r = None →
  port_free (udp_records (stack s)) (id i) (r <| udp_local := Some e |>) →
  wp (assert_true (length (handles r) =? 1)%nat ;;
      primary ← lift_outcome (primary_handle r);
      ensure_native_socket_capacity (llen additional) 0 ;;
      ensure_socket_buffer_capacity (llen additional * BUFFER_BYTES) ;;
      sockets ← for_acc additional (bound_socket p) [];
      u ← get_udp_socket primary;
      let '(r, ws, u) := udp_bind_to {| listen_addr := Some primary_address; listen_port := p |} u in
      put_udp_socket primary u ;;
      wake_all ws ;;
      bind_error r ;;
      hs ← for_acc sockets add_bound [primary];
      st ← gs (λ st, st);
      assert_true (set_count (Stack.sockets st) <=? l_sockets (limits st))%N ;;
      udp_record_mut i (λ r, r <| handles := hs |> <| udp_local := Some e |>
                               <| receive_cursor := 0%N |>) ;;
      finish_call tt effects_empty []) (answers nothing s0) (refuses s0) s.
Proof.
  intros HJ Hr Hid Hl Hpf. pose proof (udp_record_ok _ _ _ _ (proj1 HJ) Hr) as (_ & _ & Hone). specialize (Hone Hl).
  assert (Hrf : ∀ e : SocketError, refuses s0 e s) by (intros; by eapply refuses_J).
  apply wp_bind, wp_assert; [by rewrite Hone|]. apply wp_bind.
  eapply wp_primary; [apply HJ|exact Hr|]. intros h u Hh Hu.
  apply wp_bind. eapply wp_ensure_native; [exact HJ| |apply Hrf]. intros HJ1.
  apply wp_bind. eapply wp_ensure_bytes; [exact HJ1| |apply Hrf]. intros HJ2.
  apply wp_bind. eapply wp_mono; [by apply (bound_sockets_wp _ _ (refuses s0))| |done].
  intros us s1 (-> & Hlen & Hus). apply wp_bind. eapply wp_get_udp; [exact Hu|].
  set (le := {| listen_addr := _; listen_port := _ |}).
  pose proof (udp_bind_to_ok le u (J_udp_wf _ _ _ _ _ HJ Hu)) as [Hws Hu'].
  pose proof (udp_bind_to_no_panic le u) as Hnp. destruct (udp_bind_to le u) as [[br ws] u'].
  simpl in Hws, Hu', Hnp. apply wp_bind, wp_ms. pose proof (J_put_udp _ _ _ _ _ _ HJ2 Hu Hu') as HJ3.
  apply wp_bind. eapply wp_wake_all; [exact HJ3|exact Hws|]. intros s4 HJ4 Hwoke.
  apply wp_bind, bind_error_wp; [done| |intros e'; by eapply refuses_J]. intros _.
  apply wp_bind. eapply add_bounds_wp; [exact HJ4|done|simpl; unfold llen; by rewrite Hlen|done|exact Hus|].
  intros hs ss Hlhs HJ5. apply wp_bind, wp_gs. apply wp_bind, wp_assert.
  { destruct HJ5 as [[[]] _]. simpl in *. apply N.leb_le. lia. }
  apply wp_bind. assert (Hu5 : udp_records (stack (with_sockets ss s4)) = udp_records (stack s)).
  { destruct HJ5 as [_ []], HJ as [_ []]. by rewrite dr_udp, <-dr_udp0. }
  assert (Hr5 : udp_records (stack (with_sockets ss s4)) !! id i = Some r) by (by rewrite Hu5).
  eapply wp_udp_record_mut; [exact Hr5|exact Hid|]. pose proof (J_during _ _ _ HJ5) as Hdu5.
  eapply (finish_answers s0 nothing [] []); [eapply (inv_udp_replace (id i) r _ []); [apply HJ5|exact Hr5|done| | |rewrite Hu5; exact Hpf|]
    |done|done|done|apply during_end; du_same|done].
  - simpl. destruct (handles r) as [|h' [|]]; try done. apply list_elem_of_singleton in Hh as ->. by rewrite app_nil_r.
  - split_and!; [simpl; by rewrite Hid|done|done].
  - simpl. unfold udp_bytes, llen. simpl. rewrite Hone, Hlhs, Hlen. unfold llen. lia.
Qed.

Lemma udp_bind_ok i e s : stack_wf s → call_ok (udp_bind i e) nothing s.
Proof.
  intros Hwf. unfold call_ok, udp_bind. pose proof (λ e : SocketError, refuses_same s e Hwf) as Hrf. guards.
  apply validate_udp_wp; [intros _; guards|exact Hrf].
  eapply (wp_mono _ (λ p s', J s held_none s' ∧ udp_records (stack s') = udp_records (stack s)
      ∧ port_free (udp_records (stack s)) (id i)
          (r <| udp_local := Some {| v_address := v_address v; v_port := p; v_scope_id := v_scope_id v |} |>)) _ (refuses s));
    [|intros p s1 (HJ1 & Hus & Hpf)|done].
  { destruct (v_port v =? 0)%N.
    - eapply wp_allocate_udp; [by apply J_intro| |exact Hrf]. intros p s1 HJ1 [Hb _] Hp.
      split_and!; [done|apply Hb|by apply unused_port_free].
    - guards. split_and!; [by apply J_intro|done|]. apply port_not_in_use_free; [|done].
      intros j r'. by apply (udp_record_ok held_none). }
  cbv zeta. destruct (bind_addresses _ _ _) as [|a l]; [apply wp_fail; by eapply refuses_J|].
  apply udp_bind_at_wp; [done|by rewrite Hus|done| |by rewrite Hus].
  apply bool_decide_eq_false in Hg. destruct (udp_local r); [by destruct Hg|done].
Qed.
End udp_ok.

#[export] Hint Resolve udp_open_ok udp_bind_ok udp_connect_ok udp_sendto_ok udp_recvfrom_ok udp_sockname_ok
  udp_peername_ok udp_close_ok : calls.
