(* ===== verification/Closedown.v ===== *)
(** * Shutting down comes to an end

    A shutdown is spread over calls, each within its budget. This file shows
    what one call of it does (it aborts and removes, and delivers nothing
    else), that no call adds to what is left, and that a call which the clock
    leaves time for its first checkpoints removes something, so that polling
    ends with nothing left and every waiter told. *)
From S2P Require Import Prelude Budget Waiter SocketTable Wire TcpSupport Device Packet Smol.
From S2P Require Import Stack Create Readiness Invariant Maintenance Drive Settle Shutdown.

(** ** The end of a call that is not running

    Aborts go out and keys are discarded, so what the readiness machinery
    still holds shrinks. *)
Section easing.
Context `{Beam, Mailbox, Engine} {E : Type}.
Implicit Types (s : Sys) (R : E → Sys → Prop).
Context (s0 : Sys) (Hlf : lifecycle (stack s0) ≠ Running).
Let lim : N := l_ready_events (limits (stack s0)).

Record easing s : Prop := {
  ea_lifecycle : lifecycle (stack s) = lifecycle (stack s0);
  ea_limits : limits (stack s) = limits (stack s0);
  ea_forced : next_forced_budget_checkpoints (stack s) = next_forced_budget_checkpoints (stack s0);
  ea_sweep : ready_sweep (stack s) = false;
  ea_lock : lock (ready (shd s)) = lock (ready (shd s0))
}.

(** A turn of a loop either ends it or makes the load lighter. *)
Definition eases (turn : usize * usize → M Sys E (usize * usize * bool)) : Prop :=
  ∀ acc s, easing s → wp (turn acc) (λ '(acc', go) s', easing s' ∧
    if (go : bool) then (acc.1 < lim ∧ acc'.1 = acc.1 + 1)%N ∧ load s' < load s
    else acc' = acc ∧ load s' <= load s) (λ _ _, False) s.

Lemma turns_ease turn turns acc s :
  eases turn → easing s → (acc.1 <= lim)%N → (lim < acc.1 + N.of_nat turns)%N →
  wp (while_loop turns turn acc) (λ acc' s', easing s' ∧ load s' <= load s ∧ (acc'.1 <= lim)%N) (λ _ _, False) s.
Proof.
  intros Hturn Hs Hle Hlt. eapply (wp_while_loop _ _ (λ n acc1 s1, easing s1 ∧ load s1 <= load s
    ∧ (acc1.1 + N.of_nat n = lim)%N) _ _ (N.to_nat (lim - acc.1))); [split_and!; [done|done|lia]|lia|].
  intros n acc1 s1 (Hs1 & Hl1 & Hn). eapply wp_mono; [by apply Hturn| |done].
  intros [acc2 []] s2 [Hs2 Hgo].
  - destruct Hgo as [[Ha1 Ha2] Hl]. exists (n - 1). split; [lia|]. split_and!; [done|lia|lia].
  - destruct Hgo as [-> Hl]. split_and!; [done|lia|lia].
Qed.

Lemma turns_progress turn turns acc s :
  eases turn → easing s → (lim < acc.1 + N.of_nat turns)%N → turns ≠ 0 →
  wp (turn acc) (λ '(_, go) _, go = true) (λ _ _, False) s →
  wp (while_loop turns turn acc) (λ acc' s', easing s' ∧ load s' < load s ∧ (acc'.1 <= lim)%N) (λ _ _, False) s.
Proof.
  intros Hturn Hs Hlt Hz Hgo. destruct turns as [|turns]; [done|]. simpl. apply wp_bind.
  eapply wp_mono; [exact (wp_conj _ _ _ _ _ _ Hgo (Hturn acc s Hs))| |by intros ?? []].
  intros [acc1 go] s1 [-> [Hs1 [[Ha1 Ha2] Hl1]]].
  eapply wp_mono; [apply turns_ease; [done|done|lia|lia]| |done].
  intros acc2 s2 (Hs2 & Hl2 & Ha3). split_and!; [done|lia|done].
Qed.

Lemma abort_turn_eases : eases abort_turn.
Proof.
  intros [w u] s Hs. pose proof Hs as [E1 E2 Ef E3 E4]. unfold abort_turn. st_steps; try done.
  - apply andb_true_iff in Heqb as [Hlt Hne]. rewrite bool_decide_eq_true in Hne.
    unfold pop_pending_notification. st_steps. simpl.
    destruct (pending_notifications (stack s)) as [|n q] eqn:Hp; [done|].
    apply wp_expect. exists n. split; [done|]. unfold send_abort. st_steps.
    split; [by constructor|]. rewrite E2 in Hlt. fold lim in Hlt. split; [simpl; lia|].
    unfold load. simpl. rewrite Hp. simpl. lia.
Qed.

Lemma abort_turn_goes n s :
  easing s → prompt (S n) s → pending_notifications (stack s) ≠ [] → (0 < lim)%N →
  wp (abort_turn (0, 0)%N) (λ '(_, go) _, go = true) (λ (_ : E) _, False) s.
Proof.
  intros Hs Hp Hne Hlim. unfold abort_turn. apply wp_bind, wp_gs.
  rewrite (ea_limits _ Hs). fold lim. rewrite (proj2 (N.ltb_lt _ _) Hlim), bool_decide_true by done. cbn [andb].
  apply wp_bind. apply (wp_within_prompt n); [done|]. intros b _.
  unfold pop_pending_notification. st_steps. simpl.
  destruct (pending_notifications (stack s)) as [|m q]; [done|].
  apply wp_expect. exists m. split; [done|]. unfold send_abort. by st_steps.
Qed.

Lemma deliver_or_discard_eases k s (Q : unit → Sys → Prop) R :
  easing s → (∀ f, Q tt (s <| stack ::= λ st, st <| counters ::= f |> |>)) →
  wp (deliver_or_discard_ready k) Q R s.
Proof.
  intros [E1 _ _ _ _] HQ. unfold deliver_or_discard_ready. apply wp_bind, wp_gs. rewrite E1.
  destruct (lifecycle (stack s0)); [done|apply HQ|apply HQ].
Qed.

Lemma pending_turn_eases : eases pending_turn.
Proof.
  intros [w u] s Hs. pose proof Hs as [E1 E2 Ef E3 E4]. unfold pending_turn. st_steps; try done.
  - apply andb_true_iff in Heqb as [Hlt Hne]. rewrite bool_decide_eq_true in Hne.
    unfold pop_sweep_pending. st_steps. simpl.
    destruct (ready_sweep_pending (stack s)) as [|n q] eqn:Hp; [done|].
    apply wp_expect. exists n. split; [done|]. st_steps.
    apply deliver_or_discard_eases; [by constructor|]. intros f. st_steps.
    split; [by constructor|]. rewrite E2 in Hlt. fold lim in Hlt. split; [simpl; lia|].
    unfold load. simpl. rewrite Hp. simpl. lia.
Qed.

Lemma pending_turn_goes n u s :
  easing s → prompt (S n) s → ready_sweep_pending (stack s) ≠ [] → (0 < lim)%N →
  wp (pending_turn (0%N, u)) (λ '(_, go) _, go = true) (λ (_ : E) _, False) s.
Proof.
  intros Hs Hp Hne Hlim. unfold pending_turn. apply wp_bind, wp_gs.
  rewrite (ea_limits _ Hs). fold lim. rewrite (proj2 (N.ltb_lt _ _) Hlim), bool_decide_true by done. cbn [andb].
  apply wp_bind. apply (wp_within_prompt n); [done|]. intros b _.
  unfold pop_sweep_pending. st_steps. simpl.
  destruct (ready_sweep_pending (stack s)) as [|m q]; [done|].
  apply wp_expect. exists m. split; [done|]. st_steps.
  apply deliver_or_discard_eases; [by destruct Hs; constructor|]. intros f. by st_steps.
Qed.

(** Taking the overflow mark starts no sweep. *)
Lemma note_overflow_eases s (Q : unit → Sys → Prop) R :
  easing s →
  (∀ s', easing s' → get_budget s' = get_budget s → entries (ready (shd s')) = entries (ready (shd s)) →
    ready_sweep_pending (stack s') = ready_sweep_pending (stack s) →
    (load s' + (if overflow (ready (shd s)) then 1 else 0) = load s) → Q tt s') →
  wp note_overflow Q R s.
Proof.
  intros Hs HQ. unfold note_overflow. st_steps. simpl. st_steps.
  unfold request_sweep. simpl. rewrite (ea_lifecycle _ Hs), (bool_decide_false _ Hlf), andb_false_r.
  apply HQ; try done; [by destruct Hs; constructor|]. unfold load. simpl. lia.
Qed.

Lemma queued_loop_eases keys acc s :
  easing s → (acc.1 + llen keys <= lim)%N →
  wp (for_acc keys queued_turn acc) (λ acc' s', easing s' ∧ load s' <= load s + length keys
    ∧ (acc'.1 <= lim)%N) (λ (_ : E) _, False) s.
Proof.
  intros Hs Hle.
  eapply wp_mono; [apply (wp_for_acc _ _ (λ l acc1 s1, easing s1 ∧ load s1 + length l <= load s + length keys
    ∧ (acc1.1 + llen l <= lim)%N) (λ _ _, False))| |done].
  - done.
  - intros k l [w u] s1 (Hs1 & Hl1 & Ha1). unfold llen in Ha1. simpl in Hl1, Ha1. unfold queued_turn. st_steps.
    + apply deliver_or_discard_eases; [by destruct Hs1; constructor|]. intros f. st_steps.
      split_and!; [by destruct Hs1; constructor| |unfold llen; simpl; lia].
      unfold load in *. simpl in *. lia.
    + split_and!; [by destruct Hs1; constructor| |unfold llen; simpl; lia].
      unfold load in *. simpl in *. rewrite length_app. simpl. lia.
  - intros acc1 s1 (Hs1 & Hl1 & Ha1). unfold llen in Ha1. simpl in *. split_and!; [done|lia|lia].
Qed.

Lemma drain_ready_eases limit s (Q : list ReadyKey → Sys → Prop) R :
  easing s → lock (ready (shd s)) ≠ Locked →
  (∀ keys s', easing s' → (llen keys <= limit)%N → load s' + 2 * length keys = load s →
    (entries (ready (shd s)) = ∅ → keys = []) →
    ready_sweep_pending (stack s') = ready_sweep_pending (stack s) →
    (∀ n, prompt (S n) s → (0 < limit)%N → (entries (ready (shd s)) ≠ ∅ → keys ≠ []) ∧ (keys = [] → prompt n s')) →
    Q keys s') →
  wp (drain_ready limit) Q R s.
Proof.
  intros Hs Hlk HQ. unfold wp, drain_ready. destruct (drain_while _ _ _ _) as [[keys q] [b c]] eqn:Hd.
  pose proof Hd as (Hel & Hlen & _ & Hl & _)%drain_while_spec.
  assert (Hov : overflow q = overflow (ready (shd s))).
  { revert Hd. unfold drain_while, try_entries. destruct (limit =? 0)%N; [intros; by simplify_eq|].
    destruct (budget_checkpoint _) as [[] ?]; [|intros; by simplify_eq/=]. simpl.
    destruct (lock (ready (shd s))); [|done|]; destruct (drain_loop _ _ _ _ _) as [[]]; intros; by simplify_eq/=. }
  pose proof (f_equal length Hel) as Hlenel. rewrite length_app, !length_bset_elems in Hlenel.
  apply HQ; simpl; try done.
  - destruct Hs. constructor; simpl; try done. congruence.
  - unfold load. simpl. rewrite Hov. lia.
  - intros Hz. apply length_zero_iff_nil. rewrite Hz, size_empty in Hlenel. lia.
  - intros n (b' & c' & Hb & Hp)%prompt_checkpoint Hlim. revert Hd. unfold drain_while.
    rewrite (proj2 (N.eqb_neq _ _)) by lia. unfold budget_checkpoint at 1. simpl. rewrite Hb. simpl.
    assert (try_entries (ready (shd s)) = Some (entries (ready (shd s)))) as ->
      by (unfold try_entries; by destruct (lock (ready (shd s)))).
    destruct (size (entries (ready (shd s)))) as [|m] eqn:Hsz; simpl.
    + intros [= <- <- <- <-]. split; [|intros _; by apply Hp]. intros Hne. apply size_empty_inv in Hsz. set_solver.
    + destruct (bset_first (entries (ready (shd s)))) as [k|] eqn:Hf; simpl; cycle 1.
      { apply bset_first_None in Hf. rewrite Hf, size_empty in Hsz. done. }
      intros Hd. enough (keys ≠ []) by done. intros ->. revert Hd.
      match goal with |- context [if ?c then _ else _] => change c with (1 =? limit)%N; destruct (1 =? limit)%N eqn:He end;
        [intros; by simplify_eq/=|].
      destruct (budget_checkpoint _) as [[] ?]; [|intros; by simplify_eq/=].
      destruct (drain_loop _ _ _ _ _ _) as [[keys' es'] b''] eqn:Hloop. intros [= -> _ _].
      apply drain_loop_spec in Hloop as (n' & Hk & _); [done| |].
      * rewrite size_difference, size_singleton; [lia|]. apply bset_first_elem in Hf. set_solver.
      * clear - Hlim He. unfold llen. cbn [length]. lia.
Qed.

Lemma finish_tail_eases {A} (res : A) eff acc s :
  easing s → (acc.1 <= lim)%N →
  wp (acc ← while_loop (S (N.to_nat lim)) pending_turn acc;
      acc ← sweep acc;
      let '(work, uncharged) := acc in
      s ← gets (λ s, s);
      let more := eff_more eff || readiness_left (stack s) (ready (shd s)) in
      bump (observe {| w_bytes_copied := 0; w_input_packets := 0; w_output_packets := 0;
                       w_ready_events := work; w_maintenance_work := eff_maintenance_work eff |}) ;;
      charge_chunk uncharged true ;;
      match eff_poll_at eff with
      | Some millis => when (negb more) (ms (λ st, st <| scheduled_poll_at := Some (Time.from_millis millis) |>))
      | None => mret tt
      end ;;
      mret {| result := res; output := eff_output eff; poll_at := eff_poll_at eff; more := more |})
    (λ _ s', easing s' ∧ load s' <= load s
      ∧ ∀ n, prompt (S n) s → acc.1 = 0%N → ready_sweep_pending (stack s) ≠ [] → (0 < lim)%N → load s' < load s)
    (λ (_ : E) _, False) s.
Proof.
  intros Hs Ha. set (P := ∃ n, prompt (S n) s ∧ acc.1 = 0%N ∧ ready_sweep_pending (stack s) ≠ [] ∧ (0 < lim)%N).
  apply wp_bind. eapply (wp_mono _ _ _ (λ _ _, False)); [eapply (wp_impl P)| |done].
  - apply turns_ease; [apply pending_turn_eases|done|done|lia].
  - intros (n & Hp & Hz & Hne & Hlim). destruct acc as [w u]. simpl in Hz. subst w.
    apply turns_progress; [apply pending_turn_eases|done|simpl; lia|done|by eapply pending_turn_goes].
  - intros [w u] s1 [(Hs1 & Hl1 & _) HP]. unfold sweep. apply wp_bind, wp_bind, wp_gs. rewrite (ea_sweep _ Hs1).
    apply wp_ret. cbn beta iota.
    assert (Hend : ∀ s', easing s' → load s' = load s1 → easing s' ∧ load s' <= load s
      ∧ ∀ n, prompt (S n) s → acc.1 = 0%N → ready_sweep_pending (stack s) ≠ [] → (0 < lim)%N → load s' < load s).
    { intros s' He Heq. rewrite Heq. split_and!; [done|done|]. intros n Hp Hz Hne Hlim.
      by destruct HP as (_ & ? & _); [exists n|]. }
    st_steps; (apply Hend; [by destruct Hs1; constructor|done]).
Qed.

Lemma abort_loop_idle turns acc s :
  pending_notifications (stack s) = [] →
  wp (while_loop (S turns) abort_turn acc) (λ acc' s', acc' = acc ∧ s' = s) (λ (_ : E) _, False) s.
Proof.
  intros Hp. simpl. apply wp_bind. destruct acc as [w u]. unfold abort_turn. apply wp_bind, wp_gs.
  rewrite Hp, bool_decide_false, andb_false_r by auto. by apply wp_ret, wp_ret.
Qed.

(** What remains to be shown of a state after the aborts, [s1]: the keys go next. *)
Lemma finish_keys_ease {A} (res : A) eff acc s :
  easing s → lock (ready (shd s)) ≠ Locked → (0 < lim)%N → (acc.1 <= lim)%N →
  wp (note_overflow ;;
      remaining ← expect (checked_sub lim acc.1);
      queued ← drain_ready remaining;
      acc ← for_acc queued queued_turn acc;
      acc ← while_loop (S (N.to_nat lim)) pending_turn acc;
      acc ← sweep acc;
      let '(work, uncharged) := acc in
      s ← gets (λ s, s);
      let more := eff_more eff || readiness_left (stack s) (ready (shd s)) in
      bump (observe {| w_bytes_copied := 0; w_input_packets := 0; w_output_packets := 0;
                       w_ready_events := work; w_maintenance_work := eff_maintenance_work eff |}) ;;
      charge_chunk uncharged true ;;
      match eff_poll_at eff with
      | Some millis => when (negb more) (ms (λ st, st <| scheduled_poll_at := Some (Time.from_millis millis) |>))
      | None => mret tt
      end ;;
      mret {| result := res; output := eff_output eff; poll_at := eff_poll_at eff; more := more |})
    (λ _ s', easing s' ∧ load s' <= load s
      ∧ (prompt 2 s → acc.1 = 0%N → pending_notifications (stack s) = [] → load s' < load s ∨ load s = 0))
    (λ (_ : E) _, False) s.
Proof.
  intros Hs Hlk Hlim Ha. apply wp_bind, note_overflow_eases; [done|]. intros s2 Hs2 Hb2 He2 Hk2 Hl2.
  apply wp_bind, wp_expect. exists (lim - acc.1)%N. split; [by apply checked_sub_Some|].
  apply wp_bind, drain_ready_eases; [done|by rewrite (ea_lock _ Hs2), <-(ea_lock _ Hs)|].
  intros keys s3 Hs3 Hlen Hl3 Hnil Hk3 Hpr.
  assert (Hp2 : prompt 2 s → prompt 2 s2).
  { unfold prompt, get_budget in *. injection Hb2 as -> ->. done. }
  apply wp_bind. destruct keys as [|k keys].
  - apply wp_ret. eapply wp_mono; [by apply finish_tail_eases| |done].
    intros env s' (Hs' & Hl' & Hst). simpl in Hl3. split_and!; [done|lia|]. intros Hp Hz Hpe.
    destruct (Hpr 1 (Hp2 Hp) ltac:(lia)) as [Hne Hp3].
    destruct (overflow (ready (shd s))) eqn:Hov; [left; lia|].
    destruct (decide (ready_sweep_pending (stack s) = [])) as [Hke|Hke].
    + right. unfold load. rewrite Hpe, Hov, Hke.
      destruct (decide (entries (ready (shd s)) = ∅)) as [->|Hen]; [by rewrite size_empty|].
      rewrite <-He2 in Hen. by destruct (Hne Hen).
    + left. pose proof (Hst 0 (Hp3 eq_refl) Hz ltac:(congruence) Hlim). lia.
  - eapply wp_mono; [apply queued_loop_eases; [done|lia]| |done]. intros acc4 s4 (Hs4 & Hl4 & Ha4).
    eapply wp_mono; [by apply finish_tail_eases| |done]. intros env s' (Hs' & Hl' & _).
    simpl in *. split_and!; [done|lia|]. intros _ _ _. left. lia.
Qed.

Lemma finish_eases {A} (res : A) eff s :
  easing s → lock (ready (shd s)) ≠ Locked → (0 < lim)%N →
  wp (finish_call res eff []) (λ _ s', easing s' ∧ load s' <= load s
    ∧ (prompt 2 s → load s' < load s ∨ load s = 0)) (λ (_ : E) _, False) s.
Proof.
  intros Hs Hlk Hlim. unfold finish_call. apply wp_bind, wp_ms.
  replace (s <| stack ::= _ |>) with s
    by (destruct s as [[] ? ? ?]; unfold set_field; simpl; by rewrite app_nil_r).
  apply wp_bind, wp_gs. change ((l_ready_events ∘ limits) (stack s)) with (l_ready_events (limits (stack s))).
  rewrite (ea_limits _ Hs). fold lim. cbn zeta. apply wp_bind.
  destruct (pending_notifications (stack s)) as [|n q] eqn:Hpe.
  - eapply wp_mono; [by apply abort_loop_idle| |done]. intros acc s1 [-> ->].
    eapply wp_mono; [apply finish_keys_ease; [done|done|done|simpl; lia]| |done].
    intros env s' (Hs' & Hl' & Hp). split_and!; auto.
  - eapply (wp_mono _ _ _ (λ _ _, False)); [eapply (wp_impl (prompt 2 s))| |done].
    + apply turns_ease; [apply abort_turn_eases|done|simpl; lia|simpl; lia].
    + intros Hp. apply turns_progress; [apply abort_turn_eases|done|simpl; lia|done|].
      eapply abort_turn_goes; [done|done|by rewrite Hpe|done].
    + intros acc s1 [(Hs1 & Hl1 & Ha1) Hp1].
      eapply wp_mono; [apply finish_keys_ease; [done|by rewrite (ea_lock _ Hs1), <-(ea_lock _ Hs)|done|done]| |done].
      intros env s' (Hs' & Hl' & _). split_and!; [done|lia|]. intros Hp. destruct (Hp1 Hp) as (_ & ? & _). left. lia.
Qed.
End easing.

(** ** A call of a shutdown *)
Section slices.
Context `{SmolTypes}.
Implicit Types (s : Sys).

(** Nothing is left of the stack, and nobody waits for it. *)
Record vacated s : Prop := {
  va_table : table_entries (socket_table (stack s)) = ∅;
  va_records : tcp_records (stack s) = ∅;
  va_listeners : tcp_listeners (stack s) = ∅;
  va_udp : udp_records (stack s) = ∅;
  va_sockets : set_count (sockets (stack s)) = 0%N;
  va_packets : receive (device (stack s)) = [] ∧ transmit (device (stack s)) = [];
  va_owed : owed s = []
}.

(** A call that continues a shutdown only aborts, for the reason given. *)
Record abated s0 {A} (env : Envelope A) s' : Prop := {
  ab_wf : stack_wf s';
  ab_limits : limits (stack s') = limits (stack s0);
  ab_reason : shutdown_reason (stack s') = shutdown_reason (stack s0);
  ab_ledger : ∃ done, messages s' = messages s0 ++ (abort_of (stack s0) <$> done)
    ∧ owed s0 ≡ₚ owed s' ++ (note_held <$> done)
    ∧ (llen done <= l_ready_events (limits (stack s0)))%N;
  ab_link : handed (Some (output env)) (device (stack s0)) (device (stack s'));
  ab_output : output env = [];
  ab_end : if more env then lifecycle (stack s') = ShuttingDown
    else lifecycle (stack s') = Shutdown ∧ vacated s'
}.

(** The state between the calls of a shutdown. *)
Record closing_down s : Prop := {
  cd_lifecycle : lifecycle (stack s) = ShuttingDown;
  cd_sweep : ready_sweep (stack s) = false;
  cd_lock : lock (ready (shd s)) ≠ Locked;
  cd_forced : next_forced_budget_checkpoints (stack s) = None
}.

Lemma vacated_intro s : stack_wf s → structures (stack s) = 0 → pending_notifications (stack s) = [] → vacated s.
Proof.
  intros Hwf Hz Hp. unfold structures in Hz.
  assert (Ht : table_entries (socket_table (stack s)) = ∅) by (apply map_size_empty_inv; lia).
  assert (Hr : tcp_records (stack s) = ∅) by (apply map_size_empty_inv; lia).
  assert (Hl : tcp_listeners (stack s) = ∅) by (apply map_size_empty_inv; lia).
  assert (Hu : udp_records (stack s) = ∅) by (apply map_size_empty_inv; lia).
  constructor; try done.
  - destruct (inv_sock _ _ Hwf) as [Ho1 Ho2 _ _ _ _ _ _ _]. rewrite Hr, Hl in Ho1. rewrite Hu in Ho2.
    apply set_count_zero. intros h. pose proof (owns_nothing _ _ Ho1 h). pose proof (owns_nothing _ _ Ho2 h).
    unfold kind_at in *. by destruct (set_get (sockets (stack s)) h) as [[]|].
  - split; apply length_zero_iff_nil; lia.
  - unfold owed, table_held. by rewrite Ht, Hp.
Qed.

Lemma shape_size t t' : same_shape t t' → size (table_entries (table t')) = size (table_entries (table t)).
Proof.
  intros [Hs _]. rewrite <-!size_dom. f_equal. apply set_eq. intros i. rewrite !elem_of_dom.
  specialize (Hs i). destruct (table_entries (table t') !! i), (table_entries (table t) !! i); naive_solver.
Qed.

Lemma finished_structures s aborts done outs s' :
  finished s aborts done outs s' → structures (stack s') = structures (stack s).
Proof.
  intros [Hc _ Hsh _ _ _ _ _]. apply shape_size in Hsh. simpl in Hsh.
  pose proof (λ A (f : NativeStack → A), f_equal f Hc) as Hf.
  pose proof (Hf _ tcp_records) as E1. pose proof (Hf _ tcp_listeners) as E2. pose proof (Hf _ udp_records) as E3.
  pose proof (Hf _ tcp_connections) as E4. pose proof (Hf _ closing_tcp) as E5.
  pose proof (Hf _ closing_deadlines) as E6. pose proof (Hf _ device) as E7.
  simpl in *. unfold structures. by rewrite Hsh, E1, E2, E3, E4, E5, E6, E7.
Qed.
End slices.

Section call.
Context `{Beam, Mailbox, Engine} {E : Type}.
Implicit Types (s : Sys) (R : E → Sys → Prop).

Lemma prompt_less n m s : m ≤ n → prompt n s → prompt m s.
Proof. intros Hle (Hf & Hs & Hp). split_and!; [done|done|]. intros j Hj. apply Hp. lia. Qed.

(** What [finish_call] does at the end of a slice. *)
Lemma finish_shutdown_wp s0 s eff (Q : Envelope unit → Sys → Prop) R :
  winding s0 s → lifecycle (stack s0) = ShuttingDown → eff_output eff = [] →
  (∀ env s', stack_wf s' → core (stack s') = core (stack s) → structures (stack s') = structures (stack s) →
    output env = [] →
    (∃ done, messages s' = messages s0 ++ (abort_of (stack s0) <$> done)
      ∧ owed s0 ≡ₚ owed s' ++ (note_held <$> done) ∧ (llen done <= l_ready_events (limits (stack s0)))%N) →
    (ready_sweep (stack s0) = false → lock (ready (shd s0)) ≠ Locked →
      ready_sweep (stack s') = false ∧ lock (ready (shd s')) = lock (ready (shd s0)) ∧ load s' <= load s
      ∧ (prompt 2 s → load s' < load s ∨ load s = 0)) → Q env s') →
  wp (finish_call tt eff []) Q R s.
Proof.
  intros [Hwf E1 E2 E3 Ef E4 Ho Hl E5 E6 E7] Hlf Hout HQ.
  eapply (wp_mono _ _ _ (λ _ _, False)); [eapply (wp_impl (ready_sweep (stack s) = false ∧ lock (ready (shd s)) ≠ Locked))| |done].
  - eapply wp_mono; [exact (wp_conj _ _ _ _ _ _ (finish_call_wp tt eff [] s (inv_table _ _ Hwf))
      (finish_wp s None [] [] [] held_none tt eff [] (λ env s', settled s None [] env s' ∧ stack_wf s') (λ _ _, False) s
        Hwf ltac:(rewrite Hout; apply during_end, during_refl) eq_refl (Permutation_refl _)
        (λ env s' Hi Hs _ _, conj Hs Hi)))|intros ?? Hp; exact Hp|by intros ?? []].
  - intros [Hsw Hlk]. apply (finish_eases s); [congruence|by constructor|done|by apply limits_positive, Hwf].
  - intros env s' [[[(done & outs & Hf) ->] [Hse Hwf']] Hea]. apply HQ; [done|apply Hf|by eapply finished_structures|done| |].
    + destruct Hse as [_ _ _ (ins & dn & os & Hins & Hm & How & Hro & Hb) _ _]. simpl in Hins. subst ins.
      assert (os = []) as -> by (destruct Hro; [done|congruence]). exists dn.
      rewrite fmap_nil, app_nil_r in Hm. rewrite !app_nil_r in How. simpl in How. unfold llen in Hb at 2. simpl in Hb. split_and!.
      * rewrite Hm. unfold messages, abort_of, abort_reason. by rewrite E4, E2, E3.
      * by rewrite <-Ho, How.
      * rewrite <-E1. lia.
    + rewrite <-E6, <-E5. intros Hsw Hlk. destruct Hea as (Hea & Hle & Hp); [done|]. split_and!; [apply Hea|apply Hea|done|done].
Qed.

Lemma core_eq s s' : core (stack s') = core (stack s) →
  limits (stack s') = limits (stack s) ∧ lifecycle (stack s') = lifecycle (stack s)
  ∧ shutdown_reason (stack s') = shutdown_reason (stack s) ∧ device (stack s') = device (stack s)
  ∧ next_forced_budget_checkpoints (stack s') = next_forced_budget_checkpoints (stack s).
Proof.
  intros Hc. pose proof (λ A (f : NativeStack → A), f_equal f Hc) as Hf.
  split_and!; [exact (Hf _ limits)|exact (Hf _ lifecycle)|exact (Hf _ shutdown_reason)|exact (Hf _ device)
    |exact (Hf _ next_forced_budget_checkpoints)].
Qed.

(** A call makes progress unless it is the last, given time for three checkpoints. *)
Definition progresses s (env : Envelope unit) s' : Prop :=
  closing_down s → more env = true →
  closing_down s' ∧ 0 < burden s' ≤ burden s ∧ (prompt 3 s → burden s' < burden s).

(** The last part of a call: all is done, or a further call is asked for. *)
Lemma shutdown_verdict_wp s0 s1 (env : Envelope unit) s2 (Q : Envelope unit → Sys → Prop) R :
  winding s0 s1 → lifecycle (stack s0) = ShuttingDown → burden s1 <= burden s0 →
  (prompt 3 s0 → burden s1 < burden s0 ∨ (prompt 2 s1 ∧ (structures (stack s1) = 0 ∨ load s1 ≠ 0))) →
  stack_wf s2 → core (stack s2) = core (stack s1) → structures (stack s2) = structures (stack s1) →
  output env = [] →
  (∃ done, messages s2 = messages s0 ++ (abort_of (stack s0) <$> done)
    ∧ owed s0 ≡ₚ owed s2 ++ (note_held <$> done) ∧ (llen done <= l_ready_events (limits (stack s0)))%N) →
  (ready_sweep (stack s0) = false → lock (ready (shd s0)) ≠ Locked →
    ready_sweep (stack s2) = false ∧ lock (ready (shd s2)) = lock (ready (shd s0)) ∧ load s2 <= load s1
    ∧ (prompt 2 s1 → load s2 < load s1 ∨ load s1 = 0)) →
  (∀ env' s', abated s0 env' s' → progresses s0 env' s' → Q env' s') →
  wp (pending ← gets shutdown_pending;
      if (pending : bool) then mret {| result := tt; output := output env; poll_at := None; more := true |}
      else
        ms (λ st, st
          <| lifecycle := Shutdown |>
          <| closing_sweep_cursor := None |>
          <| closing_cleanup_pending := false |> <| closing_cleanup_resweep := false |>
          <| listener_scan_cursor := None |>
          <| listener_scan_pending := false |> <| listener_scan_resweep := false |>
          <| ready_sweep := false |> <| ready_sweep_cursor := None |>
          <| ready_sweep_resweep := false |> <| ready_sweep_pending := [] |>) ;;
        mret {| result := tt; output := output env; poll_at := poll_at env; more := false |}) Q R s2.
Proof.
  intros Hwi Hlf Hb01 Hpr Hwf Hc Hst Hout Hled Heas HQ. destruct (core_eq _ _ Hc) as (C1 & C2 & C3 & C4 & C5).
  pose proof Hwi as [_ E1 E2 E3 Ef _ _ Hl _ _ _].
  assert (Hlink : handed (Some []) (device (stack s0)) (device (stack s2))) by (by rewrite C4).
  apply wp_bind, wp_gets. destruct (shutdown_pending s2) eqn:Hpe.
  - apply wp_ret, HQ.
    + constructor; simpl; rewrite ?Hout; try congruence; done.
    + intros [Hcl Hsw Hlk Hfo] _. destruct (Heas Hsw Hlk) as (Hsw2 & Hlk2 & Hload & Hp2). split.
      { constructor; [congruence|done|congruence|congruence]. }
      split.
      { split; [|unfold burden in *; rewrite Hst; lia]. apply Nat.neq_0_lt_0. intros Hz.
        assert (shutdown_pending s2 = false); [|congruence]. by apply shutdown_pending_spec; [congruence|..]. }
      intros Hp. unfold burden in *. rewrite Hst. destruct (Hpr Hp) as [Hlt|[Hp1 Hz]]; [lia|].
      destruct (Hp2 Hp1) as [?|Hl0]; [lia|]. destruct Hz as [Hz|?]; [|lia].
      assert (shutdown_pending s2 = false); [|congruence].
      apply shutdown_pending_spec; [congruence|done|]. unfold burden. lia.
  - apply wp_bind, wp_ms, wp_ret, HQ; [|by intros _ [=]].
    unfold shutdown_pending in Hpe. rewrite !orb_false_iff in Hpe. destruct Hpe as [[[[Hz Hp] _] _] _].
    apply structures_pending_spec in Hz. apply bool_decide_not_false in Hp; [|apply _].
    set (s3 := s2 <| stack ::= _ |>).
    assert (Hwf3 : stack_wf s3).
    { destruct Hwf. constructor; simpl; try done. by eapply reg_lifecycle. }
    constructor; simpl; rewrite ?Hout; try congruence; try done. split; [done|]. by apply vacated_intro.
Qed.

Lemma continue_shutdown_wp s R :
  stack_wf s → lifecycle (stack s) = ShuttingDown →
  wp continue_shutdown (λ env s', abated s env s' ∧ progresses s env s') R s.
Proof.
  intros Hwf Hlf. unfold continue_shutdown. apply wp_bind, wp_gs. case_bool_decide as Hq.
  - apply wp_bind. eapply wp_mono; [apply (shutdown_work_wp s 2); [done|by rewrite Hlf]| |done].
    intros eff s1 ([Hw Hb] & (Ho & _ & _) & Hp). apply wp_bind.
    eapply (finish_shutdown_wp s); [done|done|done|]. intros env s2 Hwf2 Hc Hst Hout Hled Hea.
    eapply (shutdown_verdict_wp s s1); try done. intros Hp3. destruct (Hp Hp3) as [?|[??]]; auto.
  - apply wp_bind, wp_ret, wp_bind. eapply (finish_shutdown_wp s); [by apply winding_refl|done|done|].
    intros env s2 Hwf2 Hc Hst Hout Hled Hea.
    eapply (shutdown_verdict_wp s s); try done; [by apply winding_refl|]. intros Hp3. right.
    split; [by eapply prompt_less; [|exact Hp3]; lia|]. right. unfold load.
    destruct (pending_notifications (stack s)); [done|simpl; lia].
Qed.

(** A stack that has been told to shut down. *)
Definition marked (reason : AbortReason) s : Sys :=
  s <| stack ::= λ st, st
    <| shutdown_reason := reason |> <| lifecycle := ShuttingDown |>
    <| ready_sweep := false |> <| ready_sweep_cursor := None |>
    <| ready_sweep_resweep := false |> <| ready_sweep_pending := [] |> |>.

Lemma marked_wf reason s : stack_wf s → stack_wf (marked reason s).
Proof. intros []. constructor; simpl; try done. by eapply reg_lifecycle. Qed.

Lemma shutdown_wp reason s R :
  stack_wf s → lifecycle (stack s) ≠ Shutdown →
  wp (shutdown reason) (λ env s', abated (marked reason s) env s' ∧ progresses (marked reason s) env s') R s.
Proof.
  intros Hwf Hl. unfold shutdown. apply wp_bind, wp_gs.
  destruct (lifecycle (stack s)) eqn:Hlf; [| |done]; apply wp_bind, wp_ms;
    (apply continue_shutdown_wp; [by apply (marked_wf reason s)|done]).
Qed.

Lemma poll_shutting_wp now s R :
  stack_wf s → lifecycle (stack s) = ShuttingDown →
  wp (poll_call now) (λ env s', abated s env s' ∧ progresses s env s') R s.
Proof.
  intros Hwf Hl. unfold poll_call. apply wp_bind, wp_gs. rewrite Hl. by apply continue_shutdown_wp.
Qed.

Lemma poll_shut now s (Q : Envelope unit → Sys → Prop) R :
  lifecycle (stack s) = Shutdown → Q (envelope_empty tt) s → wp (poll_call now) Q R s.
Proof. intros Hl HQ. unfold poll_call. apply wp_bind, wp_gs. rewrite Hl. by apply wp_ret. Qed.
End call.

(** ** A shutdown ends *)
Section ends.
Context `{Beam, Mailbox, Engine}.
Implicit Types (s : Sys).
Abbreviation call := (with_stack (E:=Empty_set)).

(** The clock leaves the call that starts now time for its first three
    checkpoints. *)
Definition in_good_time s : bool :=
  let n := clk_reads (clk s) in
  forallb (λ j, (clock_at (n + j) <? clock_at n + Z.of_N WORK_BUDGET)%Z) [1; 2; 3]%N.
Definition credit_for s : nat := if in_good_time s then 1 else 0.

(** The owner of a stack polls it, at these times, while it asks for more. The
    result counts the calls that started in good time. *)
Fixpoint poll_until (nows : list Time.Instant) s : nat * Sys :=
  match nows with
  | [] => (0, s)
  | now :: nows =>
      match call (poll_call now) s with
      | (Ok env, s') =>
          if more env then let '(good, s'') := poll_until nows s' in (credit_for s + good, s'')
          else (credit_for s, s')
      | (_, s') => (0, s')
      end
  end.

Definition aborted (reason : AbortReason) (h : held) : Message :=
  Abort (pid h.2) (identity h.1) (reference h.2) reason.

(** Since [s0] only the waiters of [l] were released, each by one abort. *)
Definition released (reason : AbortReason) s0 (l : list held) s : Prop :=
  messages s = messages s0 ++ (aborted reason <$> l) ∧ owed s0 ≡ₚ owed s ++ l.

Lemma begin_prompt s :
  in_good_time s = true → next_forced_budget_checkpoints (stack s) = None →
  prompt 3 (after (begin_call (E:=Empty_set)) s).
Proof.
  unfold in_good_time. rewrite forallb_forall. intros Hb Hf.
  unfold after, begin_call, budget_start, prompt. rewrite Hf. simpl.
  destruct (next_forced_slice_exhaustion (stack s)); simpl; (split_and!; [done|done|]);
    intros j Hj; replace (N.succ (clk_reads (clk s)) + j)%N with (clk_reads (clk s) + (j + 1))%N by lia;
    apply Z.ltb_lt, Hb; assert (j = 0 ∨ j = 1 ∨ j = 2)%N as [->|[->| ->]] by lia; simpl; auto.
Qed.

Lemma bracketed_burden s s' : bracketed s s' → burden s' = burden s.
Proof. by intros (? & ? & ? & ? & ? & ->). Qed.
Lemma bracketed_vacated s s' : bracketed s s' → vacated s → vacated s'.
Proof. intros (? & ? & ? & ? & ? & ->) []. by constructor. Qed.
Lemma bracketed_lifecycle s s' : bracketed s s' → lifecycle (stack s') = lifecycle (stack s).
Proof. by intros (? & ? & ? & ? & ? & ->). Qed.
Lemma bracketed_abated s s0 (env : Envelope unit) s1 s2 :
  bracketed s s0 → abated s0 env s1 → bracketed s1 s2 → abated s env s2.
Proof.
  intros Hb [Hwf ? ? Hled ? ? Hend] Hb'. pose proof (bracketed_inv _ _ _ Hb' Hwf) as Hwf2.
  pose proof (bracketed_vacated _ _ Hb'). destruct Hb as (? & ? & ? & ? & ? & ->), Hb' as (? & ? & ? & ? & ? & ->).
  constructor; try done. destruct (more env); [done|]. by destruct Hend; auto.
Qed.

Lemma begin_closing_down s : closing_down s → closing_down (after (begin_call (E:=Empty_set)) s).
Proof. intros []. unfold after, begin_call. destruct (budget_start _ _). by constructor. Qed.
Lemma observe_closing_down s : closing_down s → closing_down (after (observe_call (E:=Empty_set)) s).
Proof. intros []. unfold after, observe_call. destruct (elapsed_nanoseconds _ _). by constructor. Qed.

Lemma abated_released s (env : Envelope unit) s' :
  lifecycle (stack s) = ShuttingDown → abated s env s' →
  ∃ l, released (shutdown_reason (stack s)) s l s'.
Proof.
  intros Hl [_ _ _ (dn & Hm & Ho & _) _ _ _]. exists (note_held <$> dn). split; [|done].
  rewrite Hm, <-list_fmap_compose. f_equal. apply list_fmap_ext. intros i [[] d w] _.
  unfold abort_of, abort_reason, aborted. by rewrite Hl.
Qed.

Lemma released_trans reason s0 l s1 l' s2 :
  released reason s0 l s1 → released reason s1 l' s2 → released reason s0 (l ++ l') s2.
Proof.
  intros [Hm Ho] [Hm' Ho']. split.
  - by rewrite Hm', Hm, fmap_app, app_assoc.
  - rewrite Ho, Ho'. solve_Permutation.
Qed.

Definition ended reason s0 s : Prop :=
  stack_wf s ∧ lifecycle (stack s) = Shutdown ∧ vacated s ∧ ∃ l, released reason s0 l s.

Lemma poll_until_shut nows s :
  stack_wf s → lifecycle (stack s) = Shutdown → vacated s →
  ended (shutdown_reason (stack s)) s (poll_until nows s).2.
Proof.
  intros Hwf Hl Hv. destruct nows as [|now nows]; simpl.
  { split_and!; try done. exists []. split; by rewrite app_nil_r. }
  assert (Hw : wp (call (poll_call now)) (λ env s', more env = false ∧ bracketed s s') (λ _ _, False) s).
  { apply wp_with_stack. pose proof (begin_bracketed (E:=Empty_set) s) as Hb.
    apply poll_shut; [by rewrite (bracketed_lifecycle _ _ Hb)|]. split; [done|].
    etrans; [exact Hb|apply observe_bracketed]. }
  unfold wp in Hw. destruct (call (poll_call now) s) as [[env|[]|] s']; [|done]. destruct Hw as [-> Hb]. simpl.
  split_and!; [by eapply bracketed_inv|by rewrite (bracketed_lifecycle _ _ Hb)|by eapply bracketed_vacated|].
  exists []. destruct Hb as (? & ? & ? & ? & ? & ->). split; by rewrite app_nil_r.
Qed.

(** One more call of a shutdown. *)
Definition one_more s (good : nat) (env : Envelope unit) s' : Prop :=
  abated s env s' ∧ (more env = true → closing_down s' ∧ 0 < burden s' ∧ good + burden s' <= burden s).

Lemma poll_shutting_call now s :
  stack_wf s → closing_down s →
  wp (call (poll_call now)) (one_more s (credit_for s)) (λ _ _, False) s.
Proof.
  intros Hwf Hcd. apply wp_with_stack. pose proof (begin_bracketed (E:=Empty_set) s) as Hb.
  eapply (wp_mono _ _ _ (λ _ _, False)); [apply poll_shutting_wp; [by eapply bracketed_inv|]| |done].
  { rewrite (bracketed_lifecycle _ _ Hb). apply Hcd. }
  intros env s' [Hab Hpr]. pose proof (observe_bracketed (E:=Empty_set) s') as Hb'. split; [by eapply bracketed_abated|].
  intros Hm. destruct (Hpr (begin_closing_down _ Hcd) Hm) as (Hcd' & Hbu & Hlt). split; [by apply observe_closing_down|].
  rewrite (bracketed_burden _ _ Hb'), <-(bracketed_burden _ _ Hb). unfold credit_for.
  destruct (in_good_time s) eqn:Hg; [|lia]. specialize (Hlt (begin_prompt s Hg (cd_forced _ Hcd))). lia.
Qed.

Lemma poll_until_ends nows s :
  stack_wf s → closing_down s → 0 < burden s → let '(good, s') := poll_until nows s in
  ended (shutdown_reason (stack s)) s s'
  ∨ (good < burden s ∧ ∃ l, released (shutdown_reason (stack s)) s l s').
Proof.
  revert s. induction nows as [|now nows IH]; intros s Hwf Hcd Hz; simpl.
  { right. split; [lia|]. exists []. split; by rewrite app_nil_r. }
  pose proof (poll_shutting_call now s Hwf Hcd) as Hw. unfold wp in Hw.
  destruct (call (poll_call now) s) as [[env|[]|] s']; [|done]. destruct Hw as [Hab Hmore].
  destruct (abated_released s env s' (cd_lifecycle _ Hcd) Hab) as [l Hl].
  pose proof (ab_end _ _ _ Hab) as Hend. destruct (more env).
  - destruct (Hmore eq_refl) as (Hcd' & Hz' & Hle). specialize (IH s' (ab_wf _ _ _ Hab) Hcd' Hz').
    destruct (poll_until nows s') as [good s'']. rewrite (ab_reason _ _ _ Hab) in IH.
    destruct IH as [(Hwf' & Hlf & Hv & l' & Hl')|[Hlt [l' Hl']]]; [left|right].
    + split_and!; [done|done|done|]. exists (l ++ l'). by eapply released_trans.
    + split; [lia|]. exists (l ++ l'). by eapply released_trans.
  - destruct Hend as [Hlf Hv]. left. split_and!; [apply Hab|done|done|]. by exists l.
Qed.

Lemma marked_burden reason s : burden (marked reason s) <= burden s.
Proof. unfold burden, load, structures. simpl. lia. Qed.
Lemma begin_marked reason s :
  lock (ready (shd s)) ≠ Locked → closing_down (marked reason (after (begin_call (E:=Empty_set)) s)).
Proof. intros Hlk. unfold after, begin_call. destruct (budget_start _ _). by constructor. Qed.

Lemma shutdown_call reason s :
  stack_wf s → lifecycle (stack s) ≠ Shutdown → lock (ready (shd s)) ≠ Locked →
  next_forced_budget_checkpoints (stack s) = None →
  wp (call (shutdown reason)) (one_more (marked reason s) (credit_for s)) (λ _ _, False) s.
Proof.
  intros Hwf Hl Hlk Hf. apply wp_with_stack. pose proof (begin_bracketed (E:=Empty_set) s) as Hb.
  pose proof (begin_prompt s) as Hp. set (s0 := after _ s) in *.
  assert (Hb' : bracketed (marked reason s) (marked reason s0)).
  { destruct Hb as (b & c & k & f & g & ->). by exists b, c, k, f, g. }
  eapply (wp_mono _ _ _ (λ _ _, False)); [apply (shutdown_wp reason s0); [by eapply bracketed_inv|by rewrite (bracketed_lifecycle _ _ Hb)]| |done].
  intros env s' [Hab Hpr]. pose proof (observe_bracketed (E:=Empty_set) s') as Hbo. split; [by eapply bracketed_abated|].
  intros Hm. destruct (Hpr (begin_marked reason s Hlk) Hm) as (Hcd' & Hbu & Hlt). split; [by apply observe_closing_down|].
  rewrite (bracketed_burden _ _ Hbo), <-(bracketed_burden _ _ Hb'). unfold credit_for.
  destruct (in_good_time s) eqn:Hg; [|lia]. specialize (Hlt (Hp eq_refl Hf)). lia.
Qed.

End ends.
