(* ===== verification/Snapshot.v ===== *)
(** * The snapshot of a stack

    Models [snapshot] of [stack.rs]: the counts an operator can read of a
    stack. The theorems say that the counts of a well-formed stack add up and
    stay within the capacities it reports beside them. *)
From S2P Require Import Prelude Budget Waiter SocketTable Wire TcpSupport Device Packet Smol.
From S2P Require Import Stack Create Readiness Invariant Drive Settle.

Record TcpSocketBufferBytes := {
  sb_id : u64; sb_generation : u64; sb_rcvbuf : usize; sb_sndbuf : usize
}.
Record TcpBufferBytes := {
  default_rcvbuf : usize; default_sndbuf : usize; sb_sockets : list TcpSocketBufferBytes
}.

(** What the engine counts of ICMP errors about packets that were too big. *)
Record PathMtuStats := { mtu_received : u64; mtu_rejected : u64; mtu_reductions : u64 }.

Record Snapshot := {
  sn_id : u64;
  sn_limits : Limits;
  sn_socket_count : usize;
  sn_native_socket_count : usize;
  sn_native_socket_capacity : usize;
  sn_socket_buffer_bytes : usize;
  sn_socket_buffer_capacity : usize;
  sn_tcp_socket_count : usize;
  sn_tcp_listener_count : usize;
  sn_udp_socket_count : usize;
  sn_listener_pool_socket_count : usize;
  sn_listener_pool_target_count : usize;
  sn_accepted_queue_count : usize;
  sn_listener_backlog_capacity : usize;
  sn_closing_tcp_socket_count : usize;
  sn_tcp_buffer_bytes : TcpBufferBytes;
  sn_udp_packet_capacity : usize;
  sn_udp_payload_bytes : usize;
  sn_udp_max_datagram_bytes : usize;
  sn_udp_ipv4_max_datagram_bytes : usize;
  sn_waiter_count : usize;
  sn_read_waiter_count : usize;
  sn_write_waiter_count : usize;
  sn_sent_waiter_count : usize;
  sn_read_sent_waiter_count : usize;
  sn_write_sent_waiter_count : usize;
  sn_ready_count : usize;
  sn_ready_overflow_pending : bool;
  sn_readiness : ReadinessCounters;
  sn_receive_packets : usize;
  sn_transmit_packets : usize;
  sn_egress_credit : option EgressCredit;
  sn_mtu : usize;
  sn_ip_address_count : usize;
  sn_lifecycle : Lifecycle;
  sn_call_target_nanoseconds : u64;
  sn_work_budget_nanoseconds : u64;
  sn_encoding_headroom_nanoseconds : u64;
  sn_counters : Counters
}.

Definition buffer_of_record (r : TcpRecord) : TcpSocketBufferBytes :=
  {| sb_id := id (tr_identity r); sb_generation := generation (tr_identity r);
     sb_rcvbuf := tr_rcvbuf r; sb_sndbuf := tr_sndbuf r |}.
Definition buffer_of_listener (l : ListenerRecord) : TcpSocketBufferBytes :=
  {| sb_id := id (lr_identity l); sb_generation := generation (lr_identity l);
     sb_rcvbuf := lr_rcvbuf l; sb_sndbuf := lr_sndbuf l |}.
(** The engine keeps these counts, not the stack. *)
Definition with_path_mtu (stats : PathMtuStats) (c : Counters) : Counters :=
  c <| icmp_too_big_received := mtu_received stats |> <| icmp_too_big_rejected := mtu_rejected stats |>
    <| path_mtu_reductions := mtu_reductions stats |>.
(** [sort_by_key(|buffer| buffer.id)]. *)
Definition buffer_le (a b : TcpSocketBufferBytes) : Prop := (sb_id a <= sb_id b)%N.
#[export] Instance buffer_le_dec a b : Decision (buffer_le a b) := decide ((sb_id a <= sb_id b)%N).

Section snapshot.
Context `{SmolTypes}.
Context (path_mtu_stats : Interface → PathMtuStats).

Definition snapshot (s : Sys) : Snapshot :=
  let st := stack s in
  let q := ready (shd s) in
  let '(receive_packets, transmit_packets) := queued_packets (device st) in
  let '(read_waiters, write_waiters) := waiter_counts (socket_table st) in
  let '(read_sent, write_sent) := sent_waiter_counts (socket_table st) in
  {| sn_id := stack_id st;
     sn_limits := limits st;
     sn_socket_count := table_len (socket_table st);
     sn_native_socket_count := set_count (sockets st);
     sn_native_socket_capacity := l_sockets (limits st);
     sn_socket_buffer_bytes := socket_buffer_bytes st;
     sn_socket_buffer_capacity := MAX_SOCKET_BUFFER_BYTES;
     sn_tcp_socket_count := N.of_nat (size (tcp_records st));
     sn_tcp_listener_count := N.of_nat (size (tcp_listeners st));
     sn_udp_socket_count := N.of_nat (size (udp_records st));
     sn_listener_pool_socket_count := bmap_sum (λ l, N.of_nat (size (pool l))) (tcp_listeners st);
     sn_listener_pool_target_count := bmap_sum pool_target (tcp_listeners st);
     sn_accepted_queue_count := bmap_sum (λ l, llen (accepted_queue l)) (tcp_listeners st);
     sn_listener_backlog_capacity := bmap_sum backlog (tcp_listeners st);
     sn_closing_tcp_socket_count := N.of_nat (size (closing_tcp st));
     sn_tcp_buffer_bytes :=
       {| default_rcvbuf := DEFAULT_BUFFER_BYTES; default_sndbuf := DEFAULT_BUFFER_BYTES;
          sb_sockets := merge_sort buffer_le
            ((buffer_of_record <$> bmap_values (tcp_records st))
             ++ (buffer_of_listener <$> bmap_values (tcp_listeners st))) |};
     sn_udp_packet_capacity := PACKET_CAPACITY;
     sn_udp_payload_bytes := PAYLOAD_BYTES;
     sn_udp_max_datagram_bytes := max_datagram_bytes (stack_mtu st) Inet6;
     sn_udp_ipv4_max_datagram_bytes := max_datagram_bytes (stack_mtu st) Inet;
     sn_waiter_count := waiter_count (socket_table st);
     sn_read_waiter_count := read_waiters;
     sn_write_waiter_count := write_waiters;
     sn_sent_waiter_count := (read_sent + write_sent)%N;
     sn_read_sent_waiter_count := read_sent;
     sn_write_sent_waiter_count := write_sent;
     sn_ready_count := (queue_len q + llen (ready_sweep_pending st))%N;
     sn_ready_overflow_pending :=
       ready_sweep st || bool_decide (ready_sweep_pending st ≠ []) || has_pending q;
     sn_readiness := queue_counters q;
     sn_receive_packets := receive_packets;
     sn_transmit_packets := transmit_packets;
     sn_egress_credit := credit (device st);
     sn_mtu := stack_mtu st;
     sn_ip_address_count := llen (ip_addrs (interface st));
     sn_lifecycle := lifecycle st;
     sn_call_target_nanoseconds := CALL_TARGET;
     sn_work_budget_nanoseconds := WORK_BUDGET;
     sn_encoding_headroom_nanoseconds := ENCODING_HEADROOM;
     sn_counters := with_path_mtu (path_mtu_stats (interface st)) (counters st) |}.
End snapshot.

(** ** The counts add up *)
Section counts.
Context `{SmolTypes}.
Implicit Types (s : Sys) (ss : SocketSet).

Lemma entry_held_count i g e :
  (llen (entry_held i (g, e)) = bool_usize (bool_decide (is_Some (read_waiter e)))
    + bool_usize (bool_decide (is_Some (write_waiter e))))%N.
Proof.
  assert (Hd : ∀ o : option Waiter, bool_usize (bool_decide (is_Some o)) = match o with Some _ => 1%N | None => 0%N end)
    by (intros [o|]; [rewrite bool_decide_true; [done|by eexists]|rewrite bool_decide_false; [done|by intros []]]).
  rewrite !Hd. unfold entry_held. simpl. by destruct (read_waiter e), (write_waiter e).
Qed.

Lemma waiter_counts_held l r w :
  let c := foldl (λ '(read, write) '(_, e),
    (read + bool_usize (bool_decide (is_Some (read_waiter e))),
     write + bool_usize (bool_decide (is_Some (write_waiter e))))%N)
    (r, w) (l.*2 : list (u64 * SocketEntry)) in
  (c.1 + c.2 = r + w + llen (concat ((λ kv, entry_held kv.1 kv.2) <$> l)))%N.
Proof.
  cbv zeta. revert r w. induction l as [|[i [g e]] l IH]; intros r w; [unfold llen; simpl; lia|].
  rewrite !fmap_cons, concat_cons, llen_app. cbn [foldl fst snd]. rewrite IH, entry_held_count. lia.
Qed.

Lemma waiter_counts_sum t : ((waiter_counts t).1 + (waiter_counts t).2 = llen (table_held t))%N.
Proof. exact (waiter_counts_held (bmap_list (table_entries t)) 0 0). Qed.

(** Two lists that name the live sockets of each kind count them together. *)
Lemma live_handles ss lt lu :
  owns Tcp lt ss → owns Udp lu ss → NoDup (lt ++ lu) ∧ ∀ h, h ∈ lt ++ lu ↔ is_Some (set_get ss h).
Proof.
  intros [Hnt Ht] [Hnu Hu]. split.
  - apply list.NoDup_app. split_and!; [done| |done]. intros h Hh%Ht Hh'%Hu. congruence.
  - intros h. rewrite elem_of_app, Ht, Hu. unfold kind_at.
    destruct (set_get ss h) as [[]|]; simpl; split; naive_solver.
Qed.

Lemma count_live l ss :
  NoDup l → (∀ h, h ∈ l ↔ is_Some (set_get ss h)) → set_count ss = llen l.
Proof.
  revert ss. induction l as [|h l IH]; intros ss Hn Hl.
  - apply set_count_zero. intros h. unfold kind_at. destruct (set_get ss h) eqn:Hg; [|done].
    assert (h ∈ []) as Hh by (apply Hl; eauto). by apply elem_of_nil in Hh.
  - apply list.NoDup_cons in Hn as [Hh Hn]. destruct (proj1 (Hl h) ltac:(left)) as [x Hx].
    destruct (set_put_spec h x None ss Hx) as [Hg Hc].
    rewrite (IH (set_put h None ss)) in Hc; [unfold llen in *; simpl; lia|done|].
    intros h'. rewrite Hg. case_decide as Hd; [subst; split; [done|by intros []]|].
    rewrite <-Hl, elem_of_cons. tauto.
Qed.

Lemma bmap_flat_count {V A} (f : u64 → V → list A) (m : gmap u64 V) :
  llen (bmap_flat f m) = sum_N ((λ kv, llen (f kv.1 kv.2)) <$> bmap_list m).
Proof.
  unfold bmap_flat. induction (bmap_list m) as [|kv l IH]; [done|].
  rewrite !fmap_cons, concat_cons, llen_app, IH. done.
Qed.

Lemma bmap_sum_le {V} (f g : V → N) (m : gmap u64 V) :
  (∀ k v, m !! k = Some v → (f v <= g v)%N) → (bmap_sum f m <= bmap_sum g m)%N.
Proof.
  intros Hle. unfold bmap_sum, bmap_values.
  assert (Hin : ∀ v, v ∈ (bmap_list m).*2 → (f v <= g v)%N).
  { intros v ([k v'] & -> & Hkv)%list_elem_of_fmap. apply elem_of_bmap_list in Hkv. by eapply Hle. }
  induction ((bmap_list m).*2) as [|v l IH]; [done|]. rewrite !fmap_cons. unfold sum_N in *. simpl.
  pose proof (Hin v ltac:(left)). assert (∀ v, v ∈ l → (f v <= g v)%N) by (intros; apply Hin; by right).
  specialize (IH ltac:(done)). lia.
Qed.

Lemma flat_values {V A} (f : V → list A) (m : gmap u64 V) :
  llen (bmap_flat (λ _, f) m) = bmap_sum (λ v, llen (f v)) m.
Proof. rewrite bmap_flat_count. unfold bmap_sum, bmap_values. by rewrite <-list_fmap_compose. Qed.

Lemma ones_count {V} (m : gmap u64 V) : bmap_sum (λ _, 1%N) m = N.of_nat (size m).
Proof.
  rewrite <-length_bmap_list. unfold bmap_sum, bmap_values.
  induction (bmap_list m) as [|kv l IH]; [done|]. rewrite !fmap_cons. unfold sum_N in *. simpl. lia.
Qed.

Lemma native_count x cap ss rs ls us :
  held_tcp x = [] → held_udp x = [] → sock_inv x cap ss rs ls us →
  set_count ss = (N.of_nat (size rs) + bmap_sum (λ l, N.of_nat (size (pool l))) ls
    + bmap_sum (λ r, llen (handles r)) us)%N.
Proof.
  intros Ht Hu [Ho1 Ho2 _ _ _ _ _ _ _]. rewrite Ht, app_nil_r in Ho1. rewrite Hu, app_nil_r in Ho2.
  destruct (live_handles _ _ _ Ho1 Ho2) as [Hn Hl]. rewrite (count_live _ _ Hn Hl).
  unfold tcp_handles, udp_handles. rewrite !llen_app, !flat_values, <-ones_count.
  assert (bmap_sum (λ l, llen (bset_elems (pool l))) ls = bmap_sum (λ l, N.of_nat (size (pool l))) ls) as ->; [|done].
  unfold bmap_sum. f_equal. apply list_fmap_ext. intros i l _. unfold llen. by rewrite length_bset_elems.
Qed.

(** The sockets of a running stack's table are those of its records. *)
Lemma registered_count s :
  stack_wf s → lifecycle (stack s) = Running →
  size (tcp_records (stack s)) + size (tcp_listeners (stack s)) + size (udp_records (stack s))
  ≤ size (table_entries (socket_table (stack s))) + size (closing_tcp (stack s)).
Proof.
  intros [Hso Hre _ _ _ _ _ _] Hrun. rewrite <-!size_dom.
  set (R := dom (tcp_records (stack s)) ∖ closing_tcp (stack s)).
  set (L := dom (tcp_listeners (stack s))). set (U := dom (udp_records (stack s))).
  pose proof (λ i k, re_registered _ _ _ _ _ _ _ _ _ Hre Hrun i k ltac:(set_solver)) as Hreg.
  assert (HR : ∀ i, i ∈ R → ∃ j, id j = i ∧ registered (socket_table (stack s)) j Tcp).
  { intros i [[r Hr]%elem_of_dom Hc]%elem_of_difference. exists (tr_identity r).
    destruct (so_records _ _ _ _ _ _ Hso _ _ Hr) as (Hid & _). split; [done|]. apply Hreg. left. exists r. by rewrite Hid. }
  assert (HL : ∀ i, i ∈ L → ∃ j, id j = i ∧ registered (socket_table (stack s)) j Tcp).
  { intros i [r Hr]%elem_of_dom. exists (lr_identity r).
    destruct (so_listeners _ _ _ _ _ _ Hso _ _ Hr) as (Hid & _). split; [done|]. apply Hreg. right. exists r. by rewrite Hid. }
  assert (HU : ∀ i, i ∈ U → ∃ j, id j = i ∧ registered (socket_table (stack s)) j Udp).
  { intros i [r Hr]%elem_of_dom. exists (ur_identity r).
    destruct (so_udps _ _ _ _ _ _ Hso _ _ Hr) as (Hid & _). split; [done|]. apply Hreg. exists r. by rewrite Hid. }
  assert (Hdis : ∀ i, (i ∈ R ∨ i ∈ L) → i ∈ U → False).
  { intros i Hi (j & <- & Hj)%HU. destruct Hi as [(j' & Hid & Hj')%HR|(j' & Hid & Hj')%HL];
      by destruct (registered_unique _ _ _ _ _ Hj Hj' Hid). }
  assert (HRL : R ## L).
  { intros i [[r Hr]%elem_of_dom _]%elem_of_difference Hl%elem_of_dom. rewrite (re_disjoint _ _ _ _ _ _ _ _ _ Hre i Hl) in Hr. done. }
  assert (Hsub : R ∪ L ∪ U ⊆ dom (table_entries (socket_table (stack s)))).
  { intros i Hi. assert (∃ j k, id j = i ∧ registered (socket_table (stack s)) j k) as (j & k & <- & e & He & _).
    { apply elem_of_union in Hi as [[Hi|Hi]%elem_of_union|Hi]; [apply HR in Hi|apply HL in Hi|apply HU in Hi]; naive_solver. }
    apply elem_of_dom. by eexists. }
  apply subseteq_size in Hsub. rewrite size_union in Hsub by set_solver. rewrite size_union in Hsub by done.
  assert (size (dom (tcp_records (stack s))) ≤ size R + size (closing_tcp (stack s))); [|lia].
  transitivity (size (R ∪ closing_tcp (stack s))).
  - apply subseteq_size. intros i Hi. destruct (decide (i ∈ closing_tcp (stack s))); set_solver.
  - rewrite size_union_alt. pose proof (subseteq_size (closing_tcp (stack s) ∖ R) (closing_tcp (stack s)) ltac:(set_solver)). lia.
Qed.
End counts.

Section snapshot_theorem.
Context `{SmolTypes}.
Context (path_mtu_stats : Interface → PathMtuStats).

(** C25. The counts of a snapshot of a well-formed stack add up: every native socket belongs to
    one TCP socket, one listener pool or one UDP socket; the sockets, buffer bytes and
    waiters stay within the capacities shown beside them; the waiters are those of both
    directions; no more connections wait to be accepted than the backlogs allow; and on a
    running stack every socket with a record is registered or being closed. *)
Theorem snapshot_adds_up s :
  stack_wf s →
  let sn := snapshot path_mtu_stats s in
  (sn_native_socket_count sn = sn_tcp_socket_count sn + sn_listener_pool_socket_count sn
     + bmap_sum (λ r, llen (handles r)) (udp_records (stack s))
   ∧ sn_native_socket_count sn <= sn_native_socket_capacity sn
   ∧ sn_socket_buffer_bytes sn <= sn_socket_buffer_capacity sn
   ∧ sn_socket_count sn <= sn_native_socket_capacity sn
   ∧ sn_waiter_count sn = sn_read_waiter_count sn + sn_write_waiter_count sn
   ∧ sn_waiter_count sn <= 2 * sn_native_socket_capacity sn
   ∧ sn_accepted_queue_count sn <= sn_listener_backlog_capacity sn
   ∧ (sn_lifecycle sn = Running →
      sn_tcp_socket_count sn + sn_tcp_listener_count sn + sn_udp_socket_count sn
      <= sn_socket_count sn + sn_closing_tcp_socket_count sn))%N.
Proof.
  intros Hwf. unfold snapshot. destruct (queued_packets _) as [rp tp].
  pose proof (waiter_counts_sum (socket_table (stack s))) as Hwc.
  destruct (waiter_counts _) as [rw ww], (sent_waiter_counts _) as [rs ws]. cbn -[N.add N.mul] in *.
  pose proof (registered_count s Hwf) as Hreg. destruct Hwf as [Hso _ Hta [Hm1 Hm2] _ _ _ _].
  pose proof (native_count held_none _ _ _ _ _ eq_refl eq_refl Hso) as Hn. pose proof (so_count _ _ _ _ _ _ Hso) as Hc.
  pose proof (so_bytes _ _ _ _ _ _ Hso) as Hb. destruct Hta as [Hlen Hcnt Hmax _ _].
  cbn -[N.add N.mul] in *. split_and!.
  - done.
  - lia.
  - change (buffer_bytes (tcp_records (stack s)) (tcp_listeners (stack s)) (udp_records (stack s)) + 0 <= MAX_SOCKET_BUFFER_BYTES)%N in Hb.
    change (socket_buffer_bytes (stack s)) with (buffer_bytes (tcp_records (stack s)) (tcp_listeners (stack s)) (udp_records (stack s))). lia.
  - by rewrite <-Hm1.
  - by rewrite Hcnt, Hwc.
  - lia.
  - apply bmap_sum_le. intros k l Hl. by destruct (so_listeners _ _ _ _ _ _ Hso _ _ Hl) as (_ & _ & _ & _ & _ & _ & _ & ?).
  - intros Hrun. specialize (Hreg Hrun). unfold table_len. lia.
Qed.
End snapshot_theorem.

Section snapshot_sample.
#[local] Existing Instances idle_types idle_engine idle_beam idle_mailbox.

Lemma snapshot_adds_up_witness :
  let sn := snapshot (λ _, {| mtu_received := 0; mtu_rejected := 0; mtu_reductions := 0 |}) sample_sys in
  (sn_native_socket_count sn <= sn_native_socket_capacity sn)%N ∧ sn_lifecycle sn = Running.
Proof.
  pose proof (snapshot_adds_up (λ _, {| mtu_received := 0; mtu_rejected := 0; mtu_reductions := 0 |})
    sample_sys sample_sys_wf) as (_ & Hn & _).
  split; [exact Hn|reflexivity].
Defined.
End snapshot_sample.
