(* ===== verification/Nif.v ===== *)
(** * The functions the BEAM calls

    Models [lib.rs] of [smolnet_core] and [StackResource] of [stack.rs]: each
    native function decodes its arguments, takes the lock of the resource
    without waiting, runs one method of the stack, and encodes an envelope or
    an error atom; a panic is caught and becomes an error atom too. Erlang
    terms belong to the runtime, and are a parameter ([Terms]). *)
From S2P Require Import Prelude Budget Waiter SocketTable Wire TcpSupport Device Packet Smol.
From S2P Require Import Stack Create Readiness Drive Shutdown TcpOps UdpOps Snapshot.

(** The atoms of errors. *)
Inductive Atom :=
| a_native_panic | a_ownership_invariant_violation | a_time_overflow | a_invalid_limits
| a_invalid_stack_config | a_invalid_packet | a_packet_too_large | a_batch_too_large
| a_invalid_socket | a_wrong_socket_kind | a_invalid_socket_state | a_invalid_operation
| a_invalid_options | a_busy | a_system_limit | a_message_too_large | a_invalid_address
| a_invalid_port | a_invalid_backlog | a_scope_required | a_invalid_scope | a_address_in_use
| a_address_not_available | a_ephemeral_ports_exhausted | a_network_unreachable
| a_already_connected | a_not_bound | a_not_connected | a_connection_refused
| a_connection_reset | a_connection_timeout | a_closed | a_end_of_stream
| a_egress_credit_disabled.
#[export] Instance Atom_eq_dec : EqDecision Atom.
Proof. solve_decision. Defined.

Definition socket_error_atom (e : SocketError) : Atom :=
  match e with
  | Closed => a_closed
  | EndOfStream => a_end_of_stream
  | InvalidSocket => a_invalid_socket
  | WrongKind => a_wrong_socket_kind
  | InvalidState => a_invalid_socket_state
  | InvalidOperation => a_invalid_operation
  | InvalidOptions => a_invalid_options
  | Busy => a_busy
  | SystemLimit => a_system_limit
  | MessageTooLarge => a_message_too_large
  | InvalidAddress => a_invalid_address
  | InvalidPort => a_invalid_port
  | InvalidBacklog => a_invalid_backlog
  | ScopeRequired => a_scope_required
  | InvalidScope => a_invalid_scope
  | AddressInUse => a_address_in_use
  | AddressNotAvailable => a_address_not_available
  | EphemeralPortsExhausted => a_ephemeral_ports_exhausted
  | NetworkUnreachable => a_network_unreachable
  | AlreadyConnected => a_already_connected
  | NotBound => a_not_bound
  | NotConnected => a_not_connected
  | ConnectionRefused => a_connection_refused
  | ConnectionReset => a_connection_reset
  | ConnectionTimeout => a_connection_timeout
  end.

Definition stack_error_atom (e : StackError) : Atom :=
  match e with
  | SClosed => a_closed
  | InvalidLimits => a_invalid_limits
  | InvalidStackConfig => a_invalid_stack_config
  | InvalidPacket => a_invalid_packet
  | PacketTooLarge => a_packet_too_large
  | BatchTooLarge => a_batch_too_large
  | OwnershipInvariantViolation => a_ownership_invariant_violation
  | EgressCreditDisabled => a_egress_credit_disabled
  end.

(** ** Terms

    What the decoders use of the runtime: a term may be a list, a binary, an
    integer of some width, a map that is asked for a key, or one of the maps
    that derived decoders read whole. For a list the runtime's iterator yields
    the items, and then ends, or panics when the list is improper. *)
Inductive term_key :=
| key_address | key_port | key_scope_id | key_prefix_length | key_destination | key_gateway
| key_mtu | key_addresses | key_routes | key_egress_credit | key_tcp_timers.
Class Terms := {
  Term : Type;
  as_list : Term → option (list Term * bool);
  as_binary : Term → option bytes;
  as_u8 : Term → option u8;
  as_usize : Term → option usize;
  as_i64 : Term → option i64;
  map_get : term_key → Term → option Term;
  as_limits : Term → option Limits;
  as_egress_credit : Term → option (option EgressCredit);
  as_tcp_timers : Term → option (option TcpTimers)
}.

Section terms.
Context `{Terms}.

(** [term.decode()]: the only error is a bad argument. *)
Definition decoded {A} (o : option A) : outcome unit A :=
  match o with Some a => Ok a | None => Err tt end.

Fixpoint decode_items {A} (decode : Term → outcome unit A) (limit : usize) (items : list Term)
    (proper : bool) (values : list A) : outcome unit (list A) :=
  match items with
  | [] => if proper then Ok values else Panic
  | item :: items =>
      if (llen values =? limit)%N then Err tt
      else v ← decode item; decode_items decode limit items proper (values ++ [v])
  end.
Definition decode_bounded_list {A} (decode : Term → outcome unit A) (t : Term) (limit : usize) :
    outcome unit (list A) :=
  '(items, proper) ← decoded (as_list t); decode_items decode limit items proper [].
Definition decode_u8 (t : Term) : outcome unit u8 := decoded (as_u8 t).
Definition decode_address (t : Term) : outcome unit bytes := decode_bounded_list decode_u8 t 16.

Fixpoint decode_packets (items : list Term) (proper : bool) (packets : list bytes) :
    outcome Atom (list bytes) :=
  match items with
  | [] => if proper then Ok packets else Panic
  | item :: items =>
      if (llen packets =? MAX_INPUT_PACKETS)%N then Err a_batch_too_large
      else
        match as_binary item with
        | None => Err a_invalid_packet
        | Some p => decode_packets items proper (packets ++ [p])
        end
  end.
Definition decode_packet_batch (t : Term) : outcome Atom (list bytes) :=
  match as_list t with
  | None => Err a_invalid_packet
  | Some (items, proper) => decode_packets items proper []
  end.

Definition decode_tcp_endpoint (t : Term) : outcome SocketError TcpEndpoint :=
  match v ← decoded (map_get key_address t); decode_address v with
  | Err _ => Err InvalidAddress
  | Panic => Panic
  | Ok address =>
      match v ← map_get key_port t; as_i64 v with
      | None => Err InvalidPort
      | Some port =>
          match v ← map_get key_scope_id t; as_i64 v with
          | None => Err InvalidScope
          | Some scope_id =>
              Ok {| ep_address := address; ep_port := port; ep_scope_id := scope_id |}
          end
      end
  end.

(** The [Decoder]s of the configuration. *)
Definition decode_address_config (t : Term) : outcome unit AddressConfig :=
  v ← decoded (map_get key_address t);
  address ← decode_address v;
  p ← decoded (map_get key_prefix_length t);
  prefix_length ← decode_u8 p;
  Ok {| ac_address := address; ac_prefix_length := Byte.to_N prefix_length |}.

Definition decode_route_config (t : Term) : outcome unit RouteConfig :=
  v ← decoded (map_get key_destination t);
  destination ← decode_address v;
  p ← decoded (map_get key_prefix_length t);
  prefix_length ← decode_u8 p;
  g ← decoded (map_get key_gateway t);
  gateway ← decode_address g;
  Ok {| destination := destination; rc_prefix_length := Byte.to_N prefix_length; gateway := gateway |}.

(** A missing credit leaves egress unlimited, missing timers give the defaults. *)
Definition decode_stack_config (t : Term) : outcome unit StackConfig :=
  egress_credit ← match map_get key_egress_credit t with
                  | Some v => decoded (as_egress_credit v)
                  | None => Ok None
                  end;
  timers ← match map_get key_tcp_timers t with
           | Some v => o ← decoded (as_tcp_timers v); Ok (default timers_default o)
           | None => Ok timers_default
           end;
  m ← decoded (map_get key_mtu t);
  mtu ← decoded (as_usize m);
  l ← decoded (map_get key_addresses t);
  addresses ← decode_bounded_list decode_address_config l 8;
  k ← decoded (map_get key_routes t);
  routes ← decode_bounded_list decode_route_config k 4;
  Ok {| cfg_mtu := mtu; addresses := addresses; routes := routes;
        cfg_egress_credit := egress_credit; cfg_tcp_timers := timers |}.
End terms.

(** ** The resource

    [inner] is the mutex of the stack: its lock, and whether the stack is
    still there. *)
Section resource.
Context `{Beam, Mailbox, Engine}.

Record StackResource := { inner_lock : lock_state; inner_some : bool; sys : Sys }.
#[export] Instance eta_StackResource : Eta StackResource := λ r,
  {| inner_lock := inner_lock r; inner_some := inner_some r; sys := sys r |}.
Abbreviation St := (M StackResource).

(** [StackResource::with_stack]. A panic while the guard is alive poisons the mutex. *)
Definition with_resource {T} (operation : M Sys unit T) : St unit T := λ r,
  match inner_lock r with
  | Unlocked =>
      if inner_some r then
        match with_stack operation (sys r) with
        | (Ok t, s) => (Ok t, r <| sys := s |>)
        | (Err e, s) => (Err e, r <| sys := s |>)
        | (Panic, s) => (Panic, r <| sys := s |> <| inner_lock := Poisoned |>)
        end
      else (Err tt, r)
  | Locked | Poisoned => (Err tt, r)
  end.

(** [StackResource::with_stack_unobserved], of an operation that only reads. *)
Definition with_stack_unobserved {T} (operation : Sys → T) : St unit T := λ r,
  match inner_lock r with
  | Unlocked => if inner_some r then (Ok (operation (sys r)), r) else (Err tt, r)
  | Locked | Poisoned => (Err tt, r)
  end.

(** The test hook that takes the lock twice: the guard is alive during the second try. *)
Definition test_contention : St unit unit := λ r,
  match inner_lock r with
  | Unlocked =>
      let '(res, r') := with_resource (mret tt) (r <| inner_lock := Locked |>) in
      (res, r' <| inner_lock := Unlocked |>)
  | Locked | Poisoned => (Err tt, r)
  end.

(** [with_stack(..).map_err(ownership)?.map_err(atom)] around a method that may fail. *)
Definition on_stack {A E} (atom : E → Atom) (operation : M Sys E A) : St Atom A :=
  res ← map_err (λ _, a_ownership_invariant_violation) (with_resource (attempt operation));
  match res with inl a => mret a | inr e => fail (atom e) end.
(** The same around a method that does not fail. *)
Definition in_stack {A} (operation : M Sys unit A) : St Atom A :=
  map_err (λ _, a_ownership_invariant_violation) (with_resource operation).

Definition instant (now_millis : i64) : St Atom Time.Instant :=
  map_err (λ _, a_time_overflow) (lift_outcome (Time.instant_from_millis now_millis)).
End resource.

(** ** The native functions *)
Section nifs.
Context `{Beam, Mailbox, Engine, Terms}.
Context (path_mtu_stats : Interface → PathMtuStats).
Abbreviation St := (M StackResource Atom).

Definition nif_stack_ingress (packet : bytes) (now_millis : i64) : St (Envelope unit) :=
  now ← instant now_millis;
  on_stack stack_error_atom (effects ← ingress packet now; finish_call tt effects []).

Definition nif_stack_ingress_batch (packets_term : Term) (now_millis : i64) : St (Envelope usize) :=
  packets ← lift_outcome (decode_packet_batch packets_term);
  now ← instant now_millis;
  on_stack stack_error_atom (effects ← ingress_batch packets now; finish_call (llen packets) effects []).

Definition nif_stack_poll (now_millis : i64) : St (Envelope unit) :=
  now ← instant now_millis; in_stack (poll_call now).

Definition nif_stack_grant_egress (ps bs : usize) (now_millis : i64) : St (Envelope unit) :=
  now ← instant now_millis; on_stack stack_error_atom (grant_egress_call ps bs now).

Definition nif_stack_shutdown (reason : AbortReason) : St (Envelope unit) :=
  in_stack (shutdown reason).

Definition nif_socket_cancel (i : SocketIdentity) (o : Operation) (ref : Reference) :
    St (Envelope CancelResult) :=
  on_stack socket_error_atom (cancel i o ref).

Definition nif_socket_validate (i : SocketIdentity) : St (Envelope SocketKind) :=
  on_stack socket_error_atom (socket_validate i).

Definition nif_tcp_open (f : AddressFamily) (rcvbuf sndbuf : usize) : St (Envelope SocketIdentity) :=
  on_stack socket_error_atom (tcp_open f rcvbuf sndbuf).

(** [decode_tcp_endpoint(..).map_err(socket_error_atom)?]. *)
Definition endpoint_arg (t : Term) : St TcpEndpoint :=
  map_err socket_error_atom (lift_outcome (decode_tcp_endpoint t)).

Definition nif_tcp_bind (i : SocketIdentity) (endpoint_term : Term) : St (Envelope unit) :=
  endpoint ← endpoint_arg endpoint_term; on_stack socket_error_atom (tcp_bind i endpoint).

Definition nif_tcp_listen (i : SocketIdentity) (backlog : usize) (now_millis : i64) : St (Envelope unit) :=
  now ← instant now_millis; on_stack socket_error_atom (tcp_listen i backlog now).

Definition nif_tcp_accept (i : SocketIdentity) (p : LocalPid) (ref : Reference) (now_millis : i64) :
    St (Envelope Reply) :=
  now ← instant now_millis; on_stack socket_error_atom (tcp_accept i p ref now).

Definition nif_tcp_connect (i : SocketIdentity) (endpoint_term : Term) (p : LocalPid) (ref : Reference)
    (now_millis : i64) : St (Envelope Reply) :=
  endpoint ← endpoint_arg endpoint_term;
  now ← instant now_millis;
  on_stack socket_error_atom (tcp_connect i endpoint p ref now).

Definition nif_tcp_send (i : SocketIdentity) (data : bytes) (p : LocalPid) (ref : Reference)
    (now_millis : i64) : St (Envelope Reply) :=
  now ← instant now_millis; on_stack socket_error_atom (tcp_send i data p ref now).

Definition nif_tcp_recv (i : SocketIdentity) (length : usize) (p : LocalPid) (ref : Reference)
    (now_millis : i64) : St (Envelope Reply) :=
  now ← instant now_millis; on_stack socket_error_atom (tcp_recv i length p ref now).

Definition nif_tcp_shutdown (i : SocketIdentity) (how : ShutdownHow) (now_millis : i64) :
    St (Envelope unit) :=
  now ← instant now_millis; on_stack socket_error_atom (tcp_shutdown i how now).

Definition nif_tcp_sockname (i : SocketIdentity) : St (Envelope EncodedEndpoint) :=
  on_stack socket_error_atom (tcp_sockname i).
Definition nif_tcp_peername (i : SocketIdentity) : St (Envelope EncodedEndpoint) :=
  on_stack socket_error_atom (tcp_peername i).

Definition nif_tcp_set_nodelay (i : SocketIdentity) (nodelay : bool) (now_millis : i64) : St (Envelope unit) :=
  now ← instant now_millis; on_stack socket_error_atom (tcp_set_nodelay i nodelay now).
Definition nif_tcp_nodelay (i : SocketIdentity) : St (Envelope bool) :=
  on_stack socket_error_atom (tcp_nodelay i).
Definition nif_tcp_set_keepalive (i : SocketIdentity) (keepalive : bool) (now_millis : i64) :
    St (Envelope unit) :=
  now ← instant now_millis; on_stack socket_error_atom (tcp_set_keepalive i keepalive now).
Definition nif_tcp_keepalive (i : SocketIdentity) : St (Envelope bool) :=
  on_stack socket_error_atom (tcp_keepalive i).

Definition nif_tcp_close (i : SocketIdentity) (now_millis : i64) : St (Envelope unit) :=
  now ← instant now_millis; on_stack socket_error_atom (tcp_close i now).

Definition nif_udp_open (f : AddressFamily) : St (Envelope SocketIdentity) :=
  on_stack socket_error_atom (udp_open f).
Definition nif_udp_bind (i : SocketIdentity) (endpoint_term : Term) : St (Envelope unit) :=
  endpoint ← endpoint_arg endpoint_term; on_stack socket_error_atom (udp_bind i endpoint).
Definition nif_udp_connect (i : SocketIdentity) (endpoint_term : Term) : St (Envelope unit) :=
  endpoint ← endpoint_arg endpoint_term; on_stack socket_error_atom (udp_connect i endpoint).

Definition nif_udp_sendto (i : SocketIdentity) (endpoint_term : Term) (data : bytes) (p : LocalPid)
    (ref : Reference) (now_millis : i64) : St (Envelope Reply) :=
  endpoint ← endpoint_arg endpoint_term;
  now ← instant now_millis;
  on_stack socket_error_atom (udp_sendto i endpoint data p ref now).

Definition nif_udp_recvfrom (i : SocketIdentity) (length : usize) (p : LocalPid) (ref : Reference)
    (now_millis : i64) : St (Envelope Reply) :=
  now ← instant now_millis; on_stack socket_error_atom (udp_recvfrom i length p ref now).

Definition nif_udp_sockname (i : SocketIdentity) : St (Envelope EncodedEndpoint) :=
  on_stack socket_error_atom (udp_sockname i).
Definition nif_udp_peername (i : SocketIdentity) : St (Envelope EncodedEndpoint) :=
  on_stack socket_error_atom (udp_peername i).
Definition nif_udp_close (i : SocketIdentity) (now_millis : i64) : St (Envelope unit) :=
  now ← instant now_millis; on_stack socket_error_atom (udp_close i now).

Definition nif_stack_snapshot : St (Envelope Snapshot) :=
  sn ← map_err (λ _, a_ownership_invariant_violation) (with_stack_unobserved (snapshot path_mtu_stats));
  mret (envelope_empty sn).
End nifs.

(** ** Creation and destruction

    The counts of resources are atomics of the process, of machine width. *)
Record ResourceCounts := { created : usize; dropped : usize; active : usize }.
#[export] Instance eta_ResourceCounts : Eta ResourceCounts := λ k,
  {| created := created k; dropped := dropped k; active := active k |}.

Section creation.
Context `{Beam, Engine, Terms}.
Definition fetch_sub1 (n : usize) : usize := ((n + (2 ^ 64 - 1)) mod 2 ^ 64)%N.

Definition envelope_created (r : StackResource) : Envelope StackResource :=
  {| result := r; output := []; poll_at := None; more := false |}.

(** [StackResource::new]. *)
Definition resource_new (lim : Limits) (config : StackConfig) (now : Time.Instant)
    (stack_id ids generations : u64) (c : Clock) : M ResourceCounts StackError StackResource :=
  s ← lift_outcome (stack_new lim config now stack_id ids generations c);
  modify (λ k, k <| created ::= incr |>) ;;
  modify (λ k, k <| active ::= incr |>) ;;
  mret {| inner_lock := Unlocked; inner_some := true; sys := s |}.

(** [Drop]: a poisoned lock is taken all the same. *)
Definition resource_drop (r : StackResource) : M ResourceCounts unit StackResource :=
  modify (λ k, k <| active ::= fetch_sub1 |>) ;;
  modify (λ k, k <| dropped ::= incr |>) ;;
  mret (r <| inner_some := false |>).

Definition nif_resource_counts : M ResourceCounts unit ResourceCounts := λ k, (Ok k, k).

Definition nif_stack_new (limits_term config_term : Term) (now_millis : i64)
    (stack_id ids generations : u64) (c : Clock) : M ResourceCounts Atom (Envelope StackResource) :=
  lim ← map_err (λ _, a_invalid_limits) (lift_outcome (decoded (as_limits limits_term)));
  config ← map_err (λ _, a_invalid_stack_config) (lift_outcome (decode_stack_config config_term));
  now ← map_err (λ _, a_time_overflow) (lift_outcome (Time.instant_from_millis now_millis));
  resource ← map_err stack_error_atom (resource_new lim config now stack_id ids generations c);
  mret (envelope_created resource).
End creation.

Definition nif_stack_time_until (now_millis deadline_millis : i64) : outcome Atom u64 :=
  match Time.time_until now_millis deadline_millis with
  | Ok remaining => Ok remaining
  | Err _ => Err a_time_overflow
  | Panic => Panic
  end.

(** ** What the caller gets *)
(** [catch_operation]: a panic is an error of its own. *)
Definition catch_operation {S E A} (operation : M S E A) : M S unit (A + E) := λ s,
  match operation s with
  | (Ok a, s') => (Ok (inl a), s')
  | (Err e, s') => (Ok (inr e), s')
  | (Panic, s') => (Err tt, s')
  end.

(** The terms results are encoded as. *)
Inductive Value :=
| VOk
| VCount (n : usize)
| VIdentity (i : SocketIdentity)
| VKind (k : SocketKind)
| VBool (b : bool)
| VEndpoint (e : EncodedEndpoint)
| VReply (r : Reply)
| VCancel (c : CancelResult)
| VSnapshot (sn : Snapshot).

Inductive Answer := AnsOk (env : Envelope Value) | AnsError (a : Atom).

Definition encode_envelope_result {A} (encode : A → Value) (res : outcome unit (Envelope A + Atom)) : Answer :=
  match res with
  | Ok (inl env) => AnsOk {| result := encode (result env); output := output env;
                             poll_at := poll_at env; more := more env |}
  | Ok (inr reason) => AnsError reason
  | Err _ | Panic => AnsError a_native_panic
  end.

(** ** Calls

    A call is one of the functions with its arguments. *)
Section calls.
Context `{Beam, Mailbox, Engine, Terms}.
Context (path_mtu_stats : Interface → PathMtuStats).

Inductive Call :=
| StackIngress (packet : bytes) (now : i64)
| StackIngressBatch (packets : Term) (now : i64)
| StackPoll (now : i64)
| StackGrantEgress (ps bs : usize) (now : i64)
| StackShutdown (reason : AbortReason)
| StackSnapshot
| SocketCancel (i : SocketIdentity) (o : Operation) (ref : Reference)
| SocketValidate (i : SocketIdentity)
| TcpOpen (f : AddressFamily) (rcvbuf sndbuf : usize)
| TcpBind (i : SocketIdentity) (endpoint : Term)
| TcpListen (i : SocketIdentity) (backlog : usize) (now : i64)
| TcpAccept (i : SocketIdentity) (p : LocalPid) (ref : Reference) (now : i64)
| TcpConnect (i : SocketIdentity) (endpoint : Term) (p : LocalPid) (ref : Reference) (now : i64)
| TcpSend (i : SocketIdentity) (data : bytes) (p : LocalPid) (ref : Reference) (now : i64)
| TcpRecv (i : SocketIdentity) (length : usize) (p : LocalPid) (ref : Reference) (now : i64)
| TcpShutdown (i : SocketIdentity) (how : ShutdownHow) (now : i64)
| TcpSockname (i : SocketIdentity)
| TcpPeername (i : SocketIdentity)
| TcpSetNodelay (i : SocketIdentity) (nodelay : bool) (now : i64)
| TcpNodelay (i : SocketIdentity)
| TcpSetKeepalive (i : SocketIdentity) (keepalive : bool) (now : i64)
| TcpKeepalive (i : SocketIdentity)
| TcpClose (i : SocketIdentity) (now : i64)
| UdpOpen (f : AddressFamily)
| UdpBind (i : SocketIdentity) (endpoint : Term)
| UdpConnect (i : SocketIdentity) (endpoint : Term)
| UdpSendto (i : SocketIdentity) (endpoint : Term) (data : bytes) (p : LocalPid) (ref : Reference) (now : i64)
| UdpRecvfrom (i : SocketIdentity) (length : usize) (p : LocalPid) (ref : Reference) (now : i64)
| UdpSockname (i : SocketIdentity)
| UdpPeername (i : SocketIdentity)
| UdpClose (i : SocketIdentity) (now : i64).

Definition nif {A} (encode : A → Value) (operation : M StackResource Atom (Envelope A))
    (r : StackResource) : Answer * StackResource :=
  let '(res, r) := catch_operation operation r in (encode_envelope_result encode res, r).

Definition ok_value (_ : unit) : Value := VOk.

Definition perform (c : Call) : StackResource → Answer * StackResource :=
  match c with
  | StackIngress packet now => nif ok_value (nif_stack_ingress packet now)
  | StackIngressBatch packets now => nif VCount (nif_stack_ingress_batch packets now)
  | StackPoll now => nif ok_value (nif_stack_poll now)
  | StackGrantEgress ps bs now => nif ok_value (nif_stack_grant_egress ps bs now)
  | StackShutdown reason => nif ok_value (nif_stack_shutdown reason)
  | StackSnapshot => nif VSnapshot (nif_stack_snapshot path_mtu_stats)
  | SocketCancel i o ref => nif VCancel (nif_socket_cancel i o ref)
  | SocketValidate i => nif VKind (nif_socket_validate i)
  | TcpOpen f rcvbuf sndbuf => nif VIdentity (nif_tcp_open f rcvbuf sndbuf)
  | TcpBind i e => nif ok_value (nif_tcp_bind i e)
  | TcpListen i backlog now => nif ok_value (nif_tcp_listen i backlog now)
  | TcpAccept i p ref now => nif VReply (nif_tcp_accept i p ref now)
  | TcpConnect i e p ref now => nif VReply (nif_tcp_connect i e p ref now)
  | TcpSend i data p ref now => nif VReply (nif_tcp_send i data p ref now)
  | TcpRecv i length p ref now => nif VReply (nif_tcp_recv i length p ref now)
  | TcpShutdown i how now => nif ok_value (nif_tcp_shutdown i how now)
  | TcpSockname i => nif VEndpoint (nif_tcp_sockname i)
  | TcpPeername i => nif VEndpoint (nif_tcp_peername i)
  | TcpSetNodelay i b now => nif ok_value (nif_tcp_set_nodelay i b now)
  | TcpNodelay i => nif VBool (nif_tcp_nodelay i)
  | TcpSetKeepalive i b now => nif ok_value (nif_tcp_set_keepalive i b now)
  | TcpKeepalive i => nif VBool (nif_tcp_keepalive i)
  | TcpClose i now => nif ok_value (nif_tcp_close i now)
  | UdpOpen f => nif VIdentity (nif_udp_open f)
  | UdpBind i e => nif ok_value (nif_udp_bind i e)
  | UdpConnect i e => nif ok_value (nif_udp_connect i e)
  | UdpSendto i e data p ref now => nif VReply (nif_udp_sendto i e data p ref now)
  | UdpRecvfrom i length p ref now => nif VReply (nif_udp_recvfrom i length p ref now)
  | UdpSockname i => nif VEndpoint (nif_udp_sockname i)
  | UdpPeername i => nif VEndpoint (nif_udp_peername i)
  | UdpClose i now => nif ok_value (nif_udp_close i now)
  end.
End calls.

(** ** The decoders *)
Section decoder_theorems.
Context `{Terms}.

(** A bounded list is decoded exactly when it is proper, within the bound, and every item decodes. *)
Lemma decode_items_spec {A} (decode : Term → outcome unit A) limit items proper values l :
  (llen values <= limit)%N →
  decode_items decode limit items proper values = Ok l ↔
  proper = true ∧ ∃ vs, Forall2 (λ t v, decode t = Ok v) items vs ∧ l = values ++ vs ∧ (llen l <= limit)%N.
Proof.
  revert values. induction items as [|t items IH]; intros values Hle; simpl.
  - destruct proper; [|naive_solver]. split.
    + intros [= <-]. split; [done|]. exists []. by rewrite app_nil_r.
    + intros (_ & vs & Hvs%Forall2_nil_inv_l & -> & _). subst. by rewrite app_nil_r.
  - destruct (N.eqb_spec (llen values) limit) as [He|Hne].
    + split; [done|]. intros (_ & vs & (v & vs' & _ & _ & ->)%Forall2_cons_inv_l & -> & Hl).
      rewrite llen_app in Hl. unfold llen in Hl at 2. simpl in Hl. lia.
    + destruct (decode t) as [v|e|] eqn:Hd; simpl; [|split; [done|]..]; cycle 1.
      { intros (_ & vs & (v & vs' & Hv & _)%Forall2_cons_inv_l & _). congruence. }
      { intros (_ & vs & (v & vs' & Hv & _)%Forall2_cons_inv_l & _). congruence. }
      rewrite IH by (rewrite llen_app; unfold llen in *; simpl; lia). split.
      * intros (Hp & vs & Hvs & -> & Hl). split; [done|]. exists (v :: vs).
        split; [by constructor|]. by rewrite <-app_assoc in *.
      * intros (Hp & vs & (v' & vs' & Hv & Hvs & ->)%Forall2_cons_inv_l & -> & Hl). split; [done|].
        exists vs'. assert (v' = v) as -> by congruence. by rewrite <-app_assoc.
Qed.

Lemma decode_bounded_list_spec {A} (decode : Term → outcome unit A) t limit l :
  decode_bounded_list decode t limit = Ok l ↔
  ∃ items, as_list t = Some (items, true) ∧ Forall2 (λ t v, decode t = Ok v) items l ∧ (llen l <= limit)%N.
Proof.
  unfold decode_bounded_list. destruct (as_list t) as [[items proper]|]; simpl; [|naive_solver].
  rewrite decode_items_spec by (unfold llen; simpl; lia). naive_solver.
Qed.

Lemma decode_packets_spec items proper packets :
  (llen packets <= MAX_INPUT_PACKETS)%N →
  decode_packets items proper packets =
  match mapM as_binary (take (N.to_nat (MAX_INPUT_PACKETS - llen packets)) items) with
  | None => Err a_invalid_packet
  | Some ps =>
      if (MAX_INPUT_PACKETS <? llen packets + llen items)%N then Err a_batch_too_large
      else if proper then Ok (packets ++ ps) else Panic
  end.
Proof.
  revert packets. induction items as [|t items IH]; intros packets Hle; simpl.
  - rewrite take_nil. simpl. rewrite app_nil_r. change (@llen Term []) with 0%N.
    destruct (N.ltb_spec MAX_INPUT_PACKETS (llen packets + 0)); [lia|done].
  - destruct (N.eqb_spec (llen packets) MAX_INPUT_PACKETS) as [He|Hne].
    + replace (MAX_INPUT_PACKETS - llen packets)%N with 0%N by lia. simpl.
      destruct (N.ltb_spec MAX_INPUT_PACKETS (llen packets + llen (t :: items))) as [|Hlt]; [done|].
      unfold llen in Hlt at 2. simpl in Hlt. lia.
    + destruct (N.to_nat (MAX_INPUT_PACKETS - llen packets)) as [|n] eqn:Hn; [lia|]. simpl.
      destruct (as_binary t) as [p|]; [|done]. simpl.
      assert (llen (packets ++ [p]) = llen packets + 1)%N as Hl by (by rewrite llen_app).
      rewrite IH by lia. rewrite Hl. replace (N.to_nat _) with n by lia.
      destruct (mapM as_binary (take n items)) as [ps|]; simpl; [|done]. rewrite <-app_assoc. simpl.
      replace (llen packets + 1 + llen items)%N with (llen packets + llen (t :: items))%N; [done|].
      unfold llen. simpl. lia.
Qed.

(** C26. A batch of packets is decoded to the binaries of its list; a term that is no list, or
    one of whose first items up to the limit is no binary, is an invalid packet, a longer
    list is too large, whatever the items past the limit are, and only an improper list
    panics. *)
Theorem decode_packet_batch_spec t :
  decode_packet_batch t =
  match as_list t with
  | None => Err a_invalid_packet
  | Some (items, proper) =>
      match mapM as_binary (take (N.to_nat MAX_INPUT_PACKETS) items) with
      | None => Err a_invalid_packet
      | Some packets =>
          if (MAX_INPUT_PACKETS <? llen items)%N then Err a_batch_too_large
          else if proper then Ok packets else Panic
      end
  end.
Proof.
  unfold decode_packet_batch. destruct (as_list t) as [[items proper]|]; [|done].
  by rewrite decode_packets_spec.
Qed.
End decoder_theorems.
