(* ===== verification/Hooks.v ===== *)
(** * The hooks of a debug build

    A debug build adds functions to [stack.rs] and [lib.rs] that put a stack
    into states its tests need: forced budgets and limits, maximum work, closing
    connections, and synthetic sockets whose wakers the test itself calls. The
    theorem is that the synthetic sockets keep every wakeup like real ones. *)
From S2P Require Import Prelude Budget Waiter SocketTable Wire TcpSupport Device Packet Smol.
From S2P Require Import Stack Create Readiness Invariant Drive Settle Shutdown TcpOps Nif.

(** When a test's waker is called during a wait. *)
Inductive ArmPoint := ArmNone | BeforeTry | BetweenTryAndArm | AfterArm.
#[export] Instance ArmPoint_eq_dec : EqDecision ArmPoint.
Proof. solve_decision. Defined.

Inductive WaitReply := WaitReady | WaitSelect (o : Operation) (r : Reference).

(** ** Forced limits *)
Section forced.
Context `{Beam, Mailbox, Engine} {E : Type}.
Abbreviation St := (M Sys E).

Definition apply_bounded_work (requested : Work) : St (Envelope Work) :=
  lim ← gs limits;
  let '(completed, more) := constrain lim requested in
  bump (observe completed) ;;
  mret {| result := completed; output := []; poll_at := None; more := more |}.

Definition test_set_budget_checkpoints (checkpoints : usize) : St (Envelope unit) :=
  ms (λ st, st <| next_forced_budget_checkpoints := Some checkpoints |>) ;; mret (envelope_empty tt).
Definition test_set_waiter_capacity (waiters : usize) : St (Envelope unit) :=
  ms (λ st, st <| socket_table ::= test_set_max_waiters waiters |>) ;; mret (envelope_empty tt).
Definition test_set_slice_exhaustion (charges : usize) : St (Envelope unit) :=
  ms (λ st, st <| next_forced_slice_exhaustion := Some charges |>) ;; mret (envelope_empty tt).

(** Every limit reached at once, and packets that add up to the bytes. *)
Definition maximum_work (lim : Limits) : Work := {|
  w_bytes_copied := l_bytes_copied lim; w_input_packets := l_input_packets lim;
  w_output_packets := l_output_packets lim; w_ready_events := l_ready_events lim;
  w_maintenance_work := l_maintenance_work lim |}.
Definition maximum_packet (count size : usize) (index : nat) : bytes :=
  zeroed (size / count + if (N.of_nat index <? size mod count)%N then 1 else 0)%N.
Definition maximum_output (w : Work) : St (list bytes) :=
  (* a division by zero panics *)
  assert_true (negb (w_output_packets w =? 0)%N) ;;
  mret (maximum_packet (w_output_packets w) (w_bytes_copied w) <$> seq 0 (N.to_nat (w_output_packets w))).

Definition test_maximum_work : St (Envelope Work) :=
  lim ← gs limits;
  let completed := maximum_work lim in
  out ← maximum_output completed;
  bump (observe completed) ;;
  mret {| result := completed; output := out; poll_at := None; more := false |}.
End forced.

(** ** Prepared states and synthetic sockets *)
Section hooks.
Context `{Beam, Mailbox, Engine}.
Abbreviation St := (M Sys SocketError).

Definition synthetic_waker (key : ReadyKey) (wakers : list Waker) : St (list Waker) :=
  t ← gs socket_table;
  flag ← lift_outcome (ready_flag t (identity key) Synthetic (direction key));
  mret (wakers ++ [waker key flag]).

Definition test_combined_maximum_work (keys : list ReadyKey) (now : Time.Instant) : St (Envelope Work) :=
  lim ← gs limits;
  fail_if (l_ready_events lim <? llen keys)%N SystemLimit ;;
  wakers ← for_acc keys synthetic_waker [];
  for_each wakers wake ;;
  let completed := maximum_work lim in
  out ← maximum_output completed;
  effects ← poll now;
  bump (observe {| w_bytes_copied := w_bytes_copied completed; w_input_packets := 0;
                   w_output_packets := w_output_packets completed; w_ready_events := 0;
                   w_maintenance_work := 0 |}) ;;
  finish_call completed {| eff_output := out; eff_poll_at := eff_poll_at effects;
                           eff_more := eff_more effects;
                           eff_maintenance_work := eff_maintenance_work effects |} [].

(** One closing connection, of the buffer size these had when it was the default. *)
Definition prepare_closing_one (buffer : usize) (deadline : Time.Instant) (_ : nat) : St unit :=
  ensure_logical_socket_capacity ;;
  ensure_native_socket_capacity 1 0 ;;
  ensure_socket_buffer_capacity (2 * buffer) ;;
  t ← lift_outcome (tcp_socket buffer buffer);
  h ← add_socket (STcp t);
  i ← insert_or_remove Tcp h;
  ms (λ st, st <| tcp_records ::= <[id i := (tcp_record_new i h Inet6 buffer buffer)
    <| phase := PhaseConnected |> <| close_deadline := Some deadline |>]> |>) ;;
  on_table (table_close i) ;;
  tcp_call h tcp_socket_close ;;
  ms (λ st, st <| closing_tcp ::= λ ids, {[id i]} ∪ ids |>
               <| closing_deadlines ::= λ ds, {[(deadline, id i)]} ∪ ds |>).
Definition test_prepare_closing (count : usize) : St (Envelope unit) :=
  lim ← gs limits;
  fail_if (l_sockets lim <? count)%N SystemLimit ;;
  for_each (seq 0 (N.to_nat count))
    (prepare_closing_one (64 * 1024) (Z.of_N CLOSE_TIMEOUT_MILLIS * 1000)%Z) ;;
  ms (λ st, st <| closing_sweep_cursor := None |>) ;;
  request_closing_cleanup ;;
  ms (λ st, st <| maintenance_cleanup_turn := false |>) ;;
  mret (envelope_empty tt).

Definition test_prepare_maximum_drop : St (Envelope unit) :=
  st ← gs (λ st, st);
  let '(r, d) := test_fill_transmit (l_output_packets (limits st)) (stack_mtu st) (device st) in
  ms (λ st, st <| device := d |>) ;;
  match r with Ok _ => mret (envelope_empty tt) | Err _ => fail InvalidState | Panic => panic end.

Definition test_socket_open (internal_handle : u64) : St (Envelope SocketIdentity) :=
  ensure_running ;;
  ensure_logical_socket_capacity ;;
  i ← on_table (table_insert Synthetic internal_handle);
  finish_call i effects_empty [].

Definition wake_repeatedly (w : Waker) (count : usize) : St unit :=
  for_each (seq 0 (N.to_nat count)) (λ _, wake w).

Definition test_socket_wait (i : SocketIdentity) (d : Direction) (o : Operation) (p : LocalPid)
    (ref : Reference) (arm_point : ArmPoint) (wake_count : usize) (completed : bool) :
    St (Envelope WaitReply) :=
  ensure_running ;;
  fail_if (bool_decide (operation_direction o ≠ d)) InvalidOperation ;;
  t ← gs socket_table;
  e ← lift_outcome (validate_any t i);
  let expected_kind := entry_kind e in
  flag ← lift_outcome (ready_flag t i expected_kind d);
  let w := waker (ready_key i d) flag in
  when (bool_decide (arm_point = BeforeTry)) (wake_repeatedly w wake_count) ;;
  reply ←
    (if (completed : bool) then mret WaitReady
     else
       when (bool_decide (arm_point = BetweenTryAndArm)) (wake_repeatedly w wake_count) ;;
       install ← on_table (install_waiter
         {| reg_identity := i; reg_expected_kind := expected_kind; reg_direction := d;
            reg_pid := p; reg_operation := o; reg_reference := ref |});
       when (bool_decide (arm_point = AfterArm) && match install with Armed => true | _ => false end)
         (wake_repeatedly w wake_count) ;;
       mret (WaitSelect o ref));
  finish_call reply effects_empty [].

Definition any_waker (key : ReadyKey) (wakers : list Waker) : St (list Waker) :=
  t ← gs socket_table;
  e ← lift_outcome (validate_any t (identity key));
  flag ← lift_outcome (ready_flag t (identity key) (entry_kind e) (direction key));
  mret (wakers ++ [waker key flag]).
Definition test_socket_ready (keys : list ReadyKey) : St (Envelope unit) :=
  ensure_running ;;
  lim ← gs limits;
  fail_if (l_ready_events lim <? llen keys)%N SystemLimit ;;
  wakers ← for_acc keys any_waker [];
  for_each wakers wake ;;
  finish_call tt effects_empty [].

Definition test_socket_close (i : SocketIdentity) (wake_direction : option Direction) : St (Envelope unit) :=
  ensure_running ;;
  match wake_direction with
  | Some d =>
      t ← gs socket_table;
      flag ← lift_outcome (ready_flag t i Synthetic d);
      wake (waker (ready_key i d) flag)
  | None => mret tt
  end ;;
  ws ← on_table (table_close i);
  finish_call tt effects_empty (notifications i ws).
End hooks.

(** ** The functions around the hooks *)
Section hook_nifs.
Context `{Beam, Mailbox, Engine, Terms}.
(** The derived decoder of a key. *)
Context (as_ready_key : Term → option ReadyKey).
Abbreviation St := (M StackResource Atom).

Definition decode_keys (keys_term : Term) : St (list ReadyKey) :=
  map_err (λ _, a_system_limit)
    (lift_outcome (decode_bounded_list (λ t, decoded (as_ready_key t)) keys_term MAX_READY_EVENTS)).

Definition nif_test_contention : St unit := map_err (λ _, a_ownership_invariant_violation) test_contention.
Definition nif_test_bounded_work (requested : Work) : St (Envelope Work) := in_stack (apply_bounded_work requested).
Definition nif_test_set_budget_checkpoints (checkpoints : usize) : St (Envelope unit) :=
  in_stack (test_set_budget_checkpoints checkpoints).
Definition nif_test_set_waiter_capacity (waiters : usize) : St (Envelope unit) :=
  in_stack (test_set_waiter_capacity waiters).
Definition nif_test_set_slice_exhaustion (charges : usize) : St (Envelope unit) :=
  in_stack (test_set_slice_exhaustion charges).
Definition nif_test_maximum_work : St (Envelope Work) := in_stack test_maximum_work.
Definition nif_test_combined_maximum_work (keys_term : Term) (now_millis : i64) : St (Envelope Work) :=
  now ← instant now_millis;
  keys ← decode_keys keys_term;
  on_stack socket_error_atom (test_combined_maximum_work keys now).
Definition nif_test_prepare_closing (count : usize) : St (Envelope unit) :=
  on_stack socket_error_atom (test_prepare_closing count).
Definition nif_test_prepare_maximum_drop : St (Envelope unit) :=
  on_stack socket_error_atom test_prepare_maximum_drop.
Definition nif_test_socket_open (internal_handle : u64) : St (Envelope SocketIdentity) :=
  on_stack socket_error_atom (test_socket_open internal_handle).

(** The map the wait takes its arguments from. *)
Record TestWait := {
  tw_direction : Direction; tw_operation : Operation; tw_pid : LocalPid; tw_reference : Reference;
  tw_arm_point : ArmPoint; tw_wake_count : usize; tw_completed : bool }.
Definition nif_test_socket_wait (i : SocketIdentity) (w : TestWait) : St (Envelope WaitReply) :=
  on_stack socket_error_atom
    (test_socket_wait i (tw_direction w) (tw_operation w) (tw_pid w) (tw_reference w) (tw_arm_point w)
       (tw_wake_count w) (tw_completed w)).
Definition nif_test_socket_ready (keys_term : Term) : St (Envelope unit) :=
  keys ← decode_keys keys_term; on_stack socket_error_atom (test_socket_ready keys).
Definition nif_test_socket_close (i : SocketIdentity) (wake_direction : option Direction) : St (Envelope unit) :=
  on_stack socket_error_atom (test_socket_close i wake_direction).
End hook_nifs.

(** ** Synthetic sockets keep every wakeup *)
Section hook_theorems.
Context `{Beam, Mailbox, Engine}.
Implicit Types (s : Sys) (R : SocketError → Sys → Prop).

(** What the readiness of sockets needs of a running stack, whatever sockets it has. *)
Record hooked s : Prop := {
  hk_table : table_wf (get_table s);
  hk_running : lifecycle (stack s) = Running;
  hk_kept : wakeups_kept s
}.
Definition hook_done {A} (env : Envelope A) s : Prop :=
  hooked s ∧ (more env = false → ∀ k, ¬ woken (get_table s) k).
Definition hook_ok {A} (m : M Sys SocketError (Envelope A)) s : Prop := wp m hook_done (λ _ s', hooked s') s.

Lemma finish_hook {A} (res : A) aborts R s :
  hooked s → wp (finish_call res effects_empty aborts) hook_done R s.
Proof.
  intros [Hwf Hrun Hk]. eapply wp_mono; [by apply finish_call_wp| |done].
  intros env s' [(done & outs & [Hc (Hwf' & _) _ _ _ _ _ Hk']) ->]. specialize (Hk' Hrun Hk). split.
  - constructor; [done| |done]. apply (f_equal lifecycle) in Hc. simpl in Hc. congruence.
  - simpl. intros Hm. by apply (readiness_settled s').
Qed.

Lemma hooked_wake s w : hooked s → waker_ok w → hooked (after (wake (E:=SocketError) w) s).
Proof.
  intros [Hwf Hrun Hk] Hw. constructor; [| |by apply wake_kept]; unfold after, wake; simpl;
    destruct (mark_ready w (flags (shd s)) (ready (shd s))); [by destruct Hwf|done].
Qed.
Lemma wp_wakes ws (Q : unit → Sys → Prop) R s :
  hooked s → Forall waker_ok ws → (∀ s', hooked s' → stack s' = stack s → Q tt s') → wp (for_each ws wake) Q R s.
Proof.
  intros Hs Hws HQ. eapply (wp_mono _ (λ _ s', hooked s' ∧ stack s' = stack s) _ R); [|by intros [] s' []; apply HQ|done].
  apply (wp_for_each ws (wake (E:=SocketError)) (λ s', hooked s' ∧ stack s' = stack s)); [done|].
  intros w s' Hw [Hs' Hst]. rewrite list.Forall_forall in Hws. split; [by apply (hooked_wake s' w); auto|].
  unfold wake. simpl. by destruct (mark_ready w (flags (shd s')) (ready (shd s'))).
Qed.
Lemma wp_wake_repeatedly w n (Q : unit → Sys → Prop) R s :
  hooked s → waker_ok w → (∀ s', hooked s' → stack s' = stack s → Q tt s') → wp (wake_repeatedly w n) Q R s.
Proof.
  intros Hs Hw HQ. unfold wake_repeatedly.
  eapply (wp_mono _ (λ _ s', hooked s' ∧ stack s' = stack s) _ R); [|by intros [] s' []; apply HQ|done].
  apply (wp_for_each _ (λ _ : nat, wake (E:=SocketError) w) (λ s', hooked s' ∧ stack s' = stack s)); [done|].
  intros j s' _ [Hs' Hst]. split; [by apply (hooked_wake s' w)|].
  unfold wake. simpl. by destruct (mark_ready w (flags (shd s')) (ready (shd s'))).
Qed.

(** A method of the table that raises no flag. *)
Lemma wp_table_hook {A} (m : T A) ins outs (Q : A → Sys → Prop) R s :
  hooked s → op_spec m ins outs (get_table s) →
  wp m (λ _ t', calm (get_table s) t') (λ _ t', calm (get_table s) t') (get_table s) →
  (∀ a s', hooked s' → Q a s') → (∀ e s', hooked s' → R e s') → wp (on_table m) Q R s.
Proof.
  intros [Hwf Hrun Hk] Hop Hm HQ HR. apply wp_zoom. eapply wp_mono; [exact (wp_conj _ _ _ _ _ _ Hop Hm)| |].
  - intros a t' ((Hwf' & _) & Hc). apply HQ. constructor; [by destruct t'|done|by apply kept_calm].
  - intros e t' ((Hwf' & _) & Hc). apply HR. constructor; [by destruct t'|done|by apply kept_calm].
Qed.

Lemma ready_flag_waker i kind d flag s :
  hooked s → ready_flag (socket_table (stack s)) i kind d = Ok flag → waker_ok (waker (ready_key i d) flag).
Proof. intros Hs Hf. by rewrite (ready_flag_key (get_table s) _ _ _ _ (hk_table _ Hs) Hf). Qed.

Lemma wp_running (Q : unit → Sys → Prop) R s : hooked s → Q tt s → wp ensure_running Q R s.
Proof. intros [_ Hrun _] HQ. unfold ensure_running. apply wp_bind, wp_gs. rewrite Hrun. by apply wp_ret. Qed.
Lemma wp_logical_capacity (Q : unit → Sys → Prop) R s :
  Q tt s → (∀ e, R e s) → wp ensure_logical_socket_capacity Q R s.
Proof. intros HQ HR. unfold ensure_logical_socket_capacity. st_steps; auto. Qed.

Lemma open_hook handle s : hooked s → hook_ok (test_socket_open handle) s.
Proof.
  intros Hs. unfold hook_ok, test_socket_open. apply wp_bind, wp_running; [done|].
  apply wp_bind, wp_logical_capacity; [|done]. apply wp_bind.
  eapply wp_table_hook; [done|apply table_insert_spec, Hs| |intros i s' Hs'; by apply finish_hook|done].
  eapply wp_mono; [apply table_insert_calm, Hs|done|by intros e t' []].
Qed.

Lemma close_hook i d s : hooked s → hook_ok (test_socket_close i d) s.
Proof.
  intros Hs. unfold hook_ok, test_socket_close. apply wp_bind, wp_running; [done|]. apply wp_bind.
  eapply (wp_mono _ (λ _ s', hooked s') _ (λ _ s', hooked s')); [|intros [] s1 Hs1|done].
  { destruct d as [d|]; [|by apply wp_ret]. apply wp_bind, wp_gs, wp_bind, wp_lift_outcome; [|done|].
    - intros flag Hf. apply (hooked_wake s (waker (ready_key i d) flag)); [done|]. by eapply ready_flag_waker.
    - apply ready_flag_no_panic. }
  apply wp_bind. eapply (wp_table_hook _ (λ _, []) (given i)); [done| | |intros ws s' Hs'; by apply finish_hook|done].
  { eapply wp_mono; [apply table_close_spec, Hs1|by intros ws t' []|by intros e t' []]. }
  eapply wp_mono; [apply table_close_calm, Hs1|by intros ws t' (_ & _ & Hc)|by intros e t' [-> _]].
Qed.

Lemma validate_any_no_panic t i : validate_any t i ≠ Panic.
Proof. unfold validate_any. by repeat case_match. Qed.

(** A step that finds a waker changes nothing. *)
Lemma wp_ready_flag i kind d (Q : cell → Sys → Prop) R s :
  hooked s → (∀ flag, waker_ok (waker (ready_key i d) flag) → Q flag s) → (∀ e, R e s) →
  wp (lift_outcome (ready_flag (socket_table (stack s)) i kind d)) Q R s.
Proof.
  intros Hs HQ HR. apply wp_lift_outcome; [|by intros e _|apply ready_flag_no_panic].
  intros flag Hf. apply HQ. by eapply ready_flag_waker.
Qed.

Lemma ready_hook keys s : hooked s → hook_ok (test_socket_ready keys) s.
Proof.
  intros Hs. unfold hook_ok, test_socket_ready. apply wp_bind, wp_running; [done|].
  apply wp_bind, wp_gs. apply wp_bind, wp_fail_if; [by intros _|intros _]. apply wp_bind.
  eapply (wp_mono _ (λ ws s', s' = s ∧ Forall waker_ok ws) _ (λ _ s', hooked s')); [|intros ws s1 [-> Hws]|done].
  - apply (wp_for_acc _ _ (λ _ ws s', s' = s ∧ Forall waker_ok ws)); [by split; [|constructor]|].
    intros key l ws s' [-> Hws].
    unfold any_waker. apply wp_bind, wp_gs, wp_bind, wp_lift_outcome; [|by intros e _|apply validate_any_no_panic].
    intros e _. apply wp_bind, wp_ready_flag; [done| |done]. intros flag Hf. apply wp_ret. split; [done|].
    apply Forall_app. split; [done|]. constructor; [|done]. by destruct key as [i d].
  - apply wp_bind, wp_wakes; [done|done|]. intros s' Hs' _. by apply finish_hook.
Qed.

Lemma wait_hook i d o p ref at_ n completed s : hooked s → hook_ok (test_socket_wait i d o p ref at_ n completed) s.
Proof.
  intros Hs. unfold hook_ok, test_socket_wait. apply wp_bind, wp_running; [done|].
  apply wp_bind, wp_fail_if; [by intros _|intros _]. apply wp_bind, wp_gs, wp_bind, wp_lift_outcome;
    [|by intros e _|apply validate_any_no_panic].
  intros e _. cbv zeta. apply wp_bind, wp_ready_flag; [done| |done]. intros flag Hf. set (w := waker _ flag) in *.
  assert (Hwake : ∀ b (Q : unit → Sys → Prop) R s1, hooked s1 → (∀ s', hooked s' → Q tt s') →
    wp (when b (wake_repeatedly w n)) Q R s1).
  { intros b Q R s1 Hs1 HQ. destruct b; [|by apply wp_ret, HQ]. apply wp_wake_repeatedly; auto. }
  apply wp_bind, Hwake; [done|]. intros s1 Hs1. apply wp_bind.
  eapply (wp_mono _ (λ _ s', hooked s') _ (λ _ s', hooked s')); [|intros reply s2 Hs2; by apply finish_hook|done].
  destruct completed; [by apply wp_ret|]. apply wp_bind, Hwake; [done|]. intros s2 Hs2.
  apply wp_bind. eapply wp_table_hook; [done|apply install_waiter_spec, Hs2| | |done].
  - eapply wp_mono; [apply install_waiter_calm, Hs2|by intros r t' []|by intros e' t' ->].
  - intros r s3 Hs3. apply wp_bind, Hwake; [done|]. intros s4 Hs4. by apply wp_ret.
Qed.

End hook_theorems.

Section hook_sample.
#[local] Existing Instances idle_types idle_engine idle_beam idle_mailbox.
Lemma sample_hooked : hooked sample_sys.
Proof.
  pose proof sample_sys_wf as Hwf. constructor; [apply Hwf|done|].
  by apply (inv_kept _ _ Hwf).
Qed.

(** A synthetic socket is opened and a wait on it woken in the middle; the
    waiter is told at once. *)
Definition sample_opened : Sys := (test_socket_open 0 sample_sys).2.
End hook_sample.
