(* ===== verification/Calls.v ===== *)
(** * Histories of calls

    What a process that owns a stack can rely on, call after call: whatever
    functions it calls with whatever arguments, no call panics but a graceful close at
    the very end of time, the stack stays
    well formed, every waiter it was promised a message for gets exactly one
    unless it cancels it, and the packets handed to its link were paid for. *)
From S2P Require Import Prelude Budget Waiter SocketTable Wire TcpSupport Device Packet Smol.
From S2P Require Import Stack Create Readiness Invariant Maintenance Drive Settle Shutdown.
From S2P Require Import TcpOps UdpOps Closedown Snapshot Nif.

(** ** What a call does to the account of a stack *)
Section accounts.
Context `{SmolTypes}.
Implicit Types (s : Sys).

(** A stack only moves towards its end. *)
Definition life_step (l l' : Lifecycle) : Prop := l' = l ∨ (l = ShuttingDown ∧ l' = Shutdown).

(** The account of a call that was answered, from the state [s0] that has the
    call's own input in it: packets, credit, or the order to shut down. *)
Record accounts s0 (promise : option held) (gone : list held) {A} (env : Envelope A) s' : Prop := {
  ac_limits : limits (stack s') = limits (stack s0);
  ac_lifecycle : life_step (lifecycle (stack s0)) (lifecycle (stack s'));
  ac_reason : shutdown_reason (stack s') = shutdown_reason (stack s0);
  ac_ledger : ∃ ins done outs, arms promise s0 ins
    ∧ messages s' = messages s0 ++ (abort_of (stack s0) <$> done) ++ (select_of <$> outs)
    ∧ owed s0 ++ ins ≡ₚ owed s' ++ gone ++ (note_held <$> done) ++ outs
    ∧ (outs = [] ∨ lifecycle (stack s0) = Running)
    ∧ (llen done + llen outs <= l_ready_events (limits (stack s0)))%N;
  ac_link : handed (Some (output env)) (device (stack s0)) (device (stack s'))
}.

Lemma settled_accounts s0 promise gone {A} (env : Envelope A) s' :
  settled s0 promise gone env s' → accounts s0 promise gone env s'.
Proof. intros []. constructor; try done. by left. Qed.

Lemma abated_accounts s0 (env : Envelope unit) s' :
  lifecycle (stack s0) = ShuttingDown → abated s0 env s' → accounts s0 None [] env s'.
Proof.
  intros Hl [_ Hli Hre (dn & Hm & Ho & Hb) Hlk Hout Hend]. constructor; try done.
  - destruct (more env); [left; congruence|right]. split; [done|apply Hend].
  - exists [], dn, []. rewrite fmap_nil, !app_nil_r. simpl. split_and!; [done|done|done|by left|].
    unfold llen at 2. simpl. lia.
Qed.

Lemma accounts_same s {A} (env : Envelope A) : output env = [] → accounts s None [] env s.
Proof.
  intros Hout. constructor; try done; [by left| |rewrite Hout; by apply handed_out].
  exists [], [], []. rewrite !fmap_nil, !app_nil_r. split_and!; [done|done|done|by left|]. unfold llen. simpl. lia.
Qed.

(** Nothing is left to tell: no abort pends and no flag is raised. *)
Definition at_rest s : Prop :=
  pending_notifications (stack s) = [] ∧ ∀ k, ¬ woken (get_table s) k.
(** A running stack that reports no more work has nothing left to tell. *)
Definition reports s0 {A} (env : Envelope A) s' : Prop :=
  lifecycle (stack s0) = Running → more env = false → at_rest s'.
Lemma settled_reports s0 promise gone {A} (env : Envelope A) s' :
  settled s0 promise gone env s' → reports s0 env s'.
Proof. intros Hse Hr Hm. destruct (se_rest _ _ _ _ _ Hse Hm). split; auto. Qed.

Lemma accounts_value s0 promise gone {A B} (env : Envelope A) (env' : Envelope B) s' :
  output env' = output env → accounts s0 promise gone env s' → accounts s0 promise gone env' s'.
Proof. intros Ho []. constructor; try done. by rewrite Ho. Qed.
End accounts.

Section bracket_accounts.
Context `{Beam, Mailbox, Engine}.
Implicit Types (s : Sys).
Lemma bracketed_accounts s s0 promise gone {A} (env : Envelope A) s1 s2 :
  bracketed s s0 → accounts s0 promise gone env s1 → bracketed s1 s2 → accounts s promise gone env s2.
Proof. intros (? & ? & ? & ? & ? & ->) [] (? & ? & ? & ? & ? & ->). by constructor. Qed.
Lemma bracketed_reports s s0 {A} (env : Envelope A) s1 s2 :
  bracketed s s0 → reports s0 env s1 → bracketed s1 s2 → reports s env s2.
Proof. by intros (? & ? & ? & ? & ? & ->) Hr (? & ? & ? & ? & ? & ->). Qed.
End bracket_accounts.

(** ** The calls that are not about one socket *)
Section stack_calls.
Context `{Beam, Mailbox, Engine, !EngineLaws}.
Implicit Types (s : Sys).

(** The packets of a call join those that wait to be read. *)
Definition fed (ps : list bytes) s : Sys := s <| stack ::= λ st, st <| device ::= λ d, d <| receive ::= λ q, q ++ ps |> |> |>.
Definition credited (ps bs : usize) s : Sys := with_device (grant_egress ps bs (device (stack s))).2 s.

Lemma counted_refused f s : refused s (counted f s).
Proof. by constructor. Qed.
Lemma counted_wf x f s : inv x s → inv x (counted f s).
Proof. intros []. by constructor. Qed.

Lemma ingress_call_wp {A} (res : A) packets now s :
  stack_wf s →
  wp (effects ← ingress_batch packets now; finish_call res effects [])
    (answers nothing (fed packets s))
    (λ e s', refuses s e s' ∧ (e = OwnershipInvariantViolation → receive_fits (llen packets) (device (stack s)) = false)) s.
Proof.
  intros Hwf. apply wp_bind. eapply wp_mono; [by apply ingress_batch_wp| |].
  - intros eff s1 (Hrun & Hok & f & Hd). pose proof (drove_wf _ _ _ _ _ _ Hd) as Hi.
    eapply (finish_answers _ nothing [] [] held_none); [exact Hi|done|done|done| |done].
    destruct Hd as [(n & c & _ & Hs & Hlk) _ _ _ _]. destruct (linked_link _ _ _ _ _ Hlk) as (Hq & Hc & _).
    destruct Hlk as [_ []]. simpl in *. constructor; try done; simpl.
    + by rewrite dr_held, !app_nil_r.
    + rewrite Hq, Hc. split; [by eexists|done].
  - intros e s' [[f ->] He]. split; [|done]. split; [by apply counted_wf|apply counted_refused].
Qed.

Lemma poll_running_wp now s :
  stack_wf s → lifecycle (stack s) = Running → wp (poll_call now) (answers nothing s) (λ (_ : unit) _, False) s.
Proof.
  intros Hwf Hrun. unfold poll_call, poll. apply wp_bind, wp_gs. rewrite Hrun. apply wp_bind, wp_bind, wp_ms.
  eapply (expect_drive_wp s [] []); [apply (counted_wf held_none); exact Hwf|apply counted_refused|done|done|].
  intros eff s' Hi Hdu _. by eapply (finish_answers _ nothing [] [] held_none).
Qed.

Lemma grant_call_wp ps bs now s :
  stack_wf s → wp (grant_egress_call ps bs now) (answers nothing (credited ps bs s))
    (λ e s', refuses s e s' ∧ e ≠ OwnershipInvariantViolation) s.
Proof.
  intros Hwf. unfold grant_egress_call. apply wp_bind, wp_gs. apply wp_bind, wp_fail_if.
  { intros _. split; [by apply refuses_same|done]. }
  intros _. unfold credited. destruct (grant_egress ps bs (device (stack s))) as [granted d] eqn:Hg.
  apply wp_bind, wp_ms, wp_bind.
  assert (Hd : receive d = receive (device (stack s)) ∧ device_wf d ∧ (granted = false → d = device (stack s))).
  { revert Hg. unfold grant_egress. pose proof (inv_device _ _ Hwf) as Hdw.
    destruct (credit (device (stack s))); intros [= <- <-]; done. }
  destruct Hd as (Hr & Hdw & Hno). set (s1 := s <| stack ::= _ |>). change s1 with (with_device d s).
  assert (Hi : stack_wf (with_device d s)) by (destruct Hwf; by constructor).
  apply wp_fail_if.
  - intros Hn%negb_true_iff. subst granted. split; [|done]. split; [done|]. rewrite (Hno eq_refl).
    replace (with_device _ s) with s by (by destruct s as [[] ? ? ?]). apply during_refl.
  - intros _. apply wp_bind. eapply (expect_drive_wp (with_device d s) [] []); [exact Hi|apply during_refl|done|done|].
    intros eff s' Hi' Hdu _. by eapply (finish_answers _ nothing [] [] held_none).
Qed.
End stack_calls.

(** ** One call *)
Section one_call.
Context `{Beam, Mailbox, Engine, !EngineLaws, Terms}.
Context (path_mtu_stats : Interface → PathMtuStats).
Implicit Types (s : Sys) (r : StackResource) (c : Call).
Abbreviation perform := (perform path_mtu_stats).

Definition resource_wf r : Prop := inner_lock r = Unlocked ∧ inner_some r = true ∧ stack_wf (sys r).

(** The waiter an answer promises to notify, and those a call withdraws. *)
Definition promised c (v : Value) : option held :=
  match c, v with
  | TcpAccept i p _ _, VReply a => promise_of i p a
  | TcpConnect i _ p _ _, VReply a => promise_of i p a
  | TcpSend i _ p _ _, VReply a => promise_of i p a
  | TcpRecv i _ p _ _, VReply a => promise_of i p a
  | UdpSendto i _ _ p _ _, VReply a => promise_of i p a
  | UdpRecvfrom i _ p _ _, VReply a => promise_of i p a
  | _, _ => None
  end.
Definition withdrawn c (v : Value) (gone : list held) : Prop :=
  match c, v with
  | SocketCancel i o ref, VCancel Cancelled =>
      ∃ w, gone = [(ready_key i (operation_direction o), w)] ∧ waiter_matches w o ref = true
  | _, _ => gone = []
  end.

(** The state with the call's own input in it. *)
Definition base c s : Sys :=
  match c with
  | StackIngress packet _ => fed [packet] s
  | StackIngressBatch t _ => match decode_packet_batch t with Ok ps => fed ps s | _ => s end
  | StackGrantEgress ps bs _ => credited ps bs s
  | StackShutdown reason => match lifecycle (stack s) with Shutdown => s | _ => marked reason s end
  | _ => s
  end.

(** The only calls whose packets may find no room. *)
Definition crowded c s : Prop :=
  match c with
  | StackIngress packet _ => receive_fits 1 (device (stack s)) = false
  | StackIngressBatch t _ =>
      match decode_packet_batch t with
      | Ok ps => receive_fits (llen ps) (device (stack s)) = false
      | _ => False
      end
  | _ => False
  end.

(** A list argument that does not end in the empty list makes its decoder panic. *)
Definition improper (t : Term) : Prop := ∃ items, as_list t = Some (items, false).
Definition improper_argument c : Prop :=
  match c with
  | StackIngressBatch t _ => improper t
  | TcpBind _ t | TcpConnect _ t _ _ _ | UdpBind _ t | UdpConnect _ t | UdpSendto _ t _ _ _ _ =>
      ∃ a, map_get key_address t = Some a ∧ improper a
  | _ => False
  end.

(** The only call that panics inside the stack: a graceful close, in a build
    that checks overflow, whose deadline is past the last instant. *)
Definition overdue c s : Prop :=
  match c with
  | TcpClose i millis =>
      ∃ now, Time.instant_from_millis millis = Ok now ∧ ¬ close_in_time now ∧ closes_gracefully s i
  | _ => False
  end.

Definition answered c s (v : Value) {A} (env : Envelope A) s' : Prop :=
  (∃ gone, withdrawn c v gone ∧ accounts (base c s) (promised c v) gone env s')
  ∧ (c ≠ StackSnapshot → reports (base c s) env s').
Definition answer_ok c s (ans : Answer) s' : Prop :=
  match ans with
  | AnsOk env => answered c s (result env) env s'
  | AnsError a => refused s s' ∧ (a = a_native_panic → improper_argument c)
      ∧ (a = a_ownership_invariant_violation → crowded c s)
  end.

Definition call_served c r : Prop :=
  let '(ans, r') := perform c r in resource_wf r' ∧ answer_ok c (sys r) ans (sys r').

(** From the method of the stack to the function. *)
Definition nif_post c r {A} (encode : A → Value) (op : M StackResource Atom (Envelope A)) : Prop :=
  wp op (λ env r', resource_wf r' ∧ answered c (sys r) (encode (result env)) env (sys r'))
    (λ a r', resource_wf r' ∧ answer_ok c (sys r) (AnsError a) (sys r')) r.

Lemma nif_served c r {A} (encode : A → Value) op :
  perform c = nif encode op → nif_post c r encode op → call_served c r.
Proof.
  intros Hc Hw. unfold call_served. rewrite Hc. unfold nif, catch_operation. unfold nif_post, wp in Hw.
  destruct (op r) as [[env|a|] r']; [|done|done].
  destruct Hw as (Hwf & (gone & Hg & Hac) & Hre). split; [done|]. split; [|done].
  exists gone. split; [done|]. by eapply accounts_value; [|exact Hac].
Qed.

(** The method's own postcondition, between the two ends of the bracket. *)
Definition method_post c r {A} (encode : A → Value) (env : Envelope A) s' : Prop :=
  stack_wf s' ∧ ∃ s0, bracketed (base c (sys r)) s0
    ∧ (∃ gone, withdrawn c (encode (result env)) gone ∧ accounts s0 (promised c (encode (result env))) gone env s')
    ∧ (c ≠ StackSnapshot → reports s0 env s').
Lemma method_answered c r {A} (encode : A → Value) (env : Envelope A) s' s2 :
  resource_wf r → method_post c r encode env s' → bracketed s' s2 →
  resource_wf (r <| sys := s2 |>) ∧ answered c (sys r) (encode (result env)) env s2.
Proof.
  intros (Hl & Hi & _) (Hs' & s0 & Hb0 & (gone & Hg & Hac) & Hre) Hb.
  split; [split_and!; [done|done|by eapply bracketed_inv]|]. split.
  - exists gone. split; [done|]. by eapply bracketed_accounts.
  - intros Hc. eapply bracketed_reports; [done| |done]. by apply Hre.
Qed.
Lemma method_settled c r {A} (encode : A → Value) (env : Envelope A) s0 promise gone s' :
  stack_wf s' → bracketed (base c (sys r)) s0 → settled s0 promise gone env s' →
  promised c (encode (result env)) = promise → withdrawn c (encode (result env)) gone →
  method_post c r encode env s'.
Proof.
  intros Hs' Hb Hse Hp Hg. split; [done|]. exists s0. split; [done|]. split; [|intros _; by eapply settled_reports].
  exists gone. split; [done|]. rewrite Hp. by apply settled_accounts.
Qed.


Lemma bad_argument c r a : resource_wf r → a ≠ a_native_panic → a ≠ a_ownership_invariant_violation →
  resource_wf r ∧ answer_ok c (sys r) (AnsError a) (sys r).
Proof. intros Hwf Hp Ho. split; [done|]. split_and!; [apply during_refl|done|done]. Qed.

Lemma nif_instant c r {A} (encode : A → Value) (k : Time.Instant → M StackResource Atom (Envelope A)) millis :
  resource_wf r → (∀ now, Time.instant_from_millis millis = Ok now → nif_post c r encode (k now)) →
  nif_post c r encode (now ← instant millis; k now).
Proof.
  intros Hwf Hk. unfold nif_post, instant. apply wp_bind, wp_map_err. apply wp_lift_outcome.
  - intros now Hnow. by apply Hk.
  - intros e _. by apply bad_argument.
  - unfold Time.instant_from_millis. by case_match.
Qed.

Lemma nif_endpoint c r {A} (encode : A → Value) (k : TcpEndpoint → M StackResource Atom (Envelope A)) t :
  resource_wf r → decode_tcp_endpoint t ≠ Panic → (∀ e, nif_post c r encode (k e)) →
  nif_post c r encode (e ← endpoint_arg t; k e).
Proof.
  intros Hwf Hp Hk. unfold nif_post, endpoint_arg. apply wp_bind, wp_map_err. apply wp_lift_outcome.
  - intros now _. apply Hk.
  - intros e _. by destruct e; apply bad_argument.
  - done.
Qed.

Lemma wp_resource {T} (op : M Sys unit T) (Q : T → StackResource → Prop) R r :
  resource_wf r → wp (with_stack op) (λ t s, Q t (r <| sys := s |>)) (λ _ _, False) (sys r) →
  wp (with_resource op) Q R r.
Proof.
  intros (Hl & Hi & _) Hw. unfold wp, with_resource. rewrite Hl, Hi. unfold wp in Hw.
  by destruct (with_stack op (sys r)) as [[t|e|] s].
Qed.

(** A method of the stack that may fail. *)
Lemma nif_on_stack {A E} c r (encode : A → Value) (atom : E → Atom) (m : M Sys E (Envelope A)) :
  resource_wf r →
  (∀ s, stack_wf s → bracketed (sys r) s →
    wp m (method_post c r encode) (λ e s', stack_wf s' ∧ refused s s' ∧ atom e ≠ a_native_panic
        ∧ (atom e = a_ownership_invariant_violation → crowded c (sys r))) s) →
  nif_post c r encode (on_stack atom m).
Proof.
  intros Hwf Hm. pose proof Hwf as (Hl & Hi & Hs). unfold nif_post, on_stack. apply wp_bind, wp_map_err.
  apply wp_resource; [done|]. apply wp_with_stack. pose proof (begin_bracketed (E:=unit) (sys r)) as Hb.
  apply wp_attempt. eapply wp_mono; [apply Hm; [by eapply bracketed_inv|exact Hb]| |].
  - intros env s' Hp. apply wp_ret. by eapply method_answered, observe_bracketed.
  - intros e s' (Hs' & Hr & Hne & Hcr). apply wp_fail. pose proof (observe_bracketed (E:=unit) s') as Hb'.
    split; [split_and!; [done|done|by eapply bracketed_inv]|]. split_and!; [by eapply bracketed_refused|done|done].
Qed.

(** A call on one socket. *)
Lemma nif_socket {A} c r (encode : A → Value) (m : M Sys SocketError (Envelope A)) (promise : A → option held) :
  resource_wf r → (∀ s, stack_wf s → bracketed (sys r) s → call_ok m promise s) → base c (sys r) = sys r →
  (∀ a, promised c (encode a) = promise a) → (∀ a, withdrawn c (encode a) []) →
  nif_post c r encode (on_stack socket_error_atom m).
Proof.
  intros Hwf Hm Hbase Hp Hg. apply nif_on_stack; [done|]. intros s Hs Hb. eapply wp_mono; [by apply Hm| |].
  - intros env s' [Hs' Hse]. eapply method_settled; [done| |exact Hse|done|done]. by rewrite Hbase.
  - intros e s' [Hs' Hr]. split_and!; [done|done|by destruct e|by destruct e].
Qed.

Lemma nif_cancel i o ref r :
  resource_wf r → nif_post (SocketCancel i o ref) r VCancel (nif_socket_cancel i o ref).
Proof.
  intros Hwf. apply nif_on_stack; [done|]. intros s Hs Hb. eapply wp_mono; [by apply cancel_wp| |].
  - intros env s' (Hs' & gone & Hse & Hres). by eapply method_settled; [..|destruct (result env)].
  - intros e s' Hr. destruct Hr as [Hs' Hr]. split_and!; [done|done|by destruct e|by destruct e].
Qed.

(** A call whose answer promises and withdraws nothing, from a state that has its input. *)
Lemma nif_input {A} c r (encode : A → Value) (m : M Sys StackError (Envelope A)) (input : Sys → Sys) :
  resource_wf r → base c (sys r) = input (sys r) →
  (∀ s, bracketed (sys r) s → bracketed (input (sys r)) (input s)) →
  (∀ a, promised c (encode a) = None) → (∀ a, withdrawn c (encode a) []) →
  (∀ s, stack_wf s → bracketed (sys r) s → wp m (answers nothing (input s))
    (λ e s', refuses s e s' ∧ (e = OwnershipInvariantViolation → crowded c (sys r))) s) →
  nif_post c r encode (on_stack stack_error_atom m).
Proof.
  intros Hwf Hbase Hin Hp Hg Hm. apply nif_on_stack; [done|]. intros s Hs Hb. eapply wp_mono; [by apply Hm| |].
  - intros env s' [Hs' Hse]. eapply method_settled; [done| |exact Hse|done|done]. rewrite Hbase. by apply Hin.
  - intros e s' [[Hs' Hr] He]. split_and!; [done|done|by destruct e|]. by destruct e; auto.
Qed.

Lemma fed_bracketed ps s s' : bracketed s s' → bracketed (fed ps s) (fed ps s').
Proof. intros (b & k & n & f & g & ->). by exists b, k, n, f, g. Qed.
Lemma credited_bracketed ps bs s s' : bracketed s s' → bracketed (credited ps bs s) (credited ps bs s').
Proof. intros (b & k & n & f & g & ->). by exists b, k, n, f, g. Qed.
Lemma marked_bracketed reason s s' : bracketed s s' → bracketed (marked reason s) (marked reason s').
Proof. intros (b & k & n & f & g & ->). by exists b, k, n, f, g. Qed.
Lemma bracketed_device s s' : bracketed s s' → device (stack s') = device (stack s).
Proof. by intros (? & ? & ? & ? & ? & ->). Qed.

Lemma nif_ingress {A} c r (encode : A → Value) (res : A) packets now :
  resource_wf r → base c (sys r) = fed packets (sys r) →
  (∀ a, promised c (encode a) = None) → (∀ a, withdrawn c (encode a) []) →
  (receive_fits (llen packets) (device (stack (sys r))) = false → crowded c (sys r)) →
  nif_post c r encode (on_stack stack_error_atom (effects ← ingress_batch packets now; finish_call res effects [])).
Proof.
  intros Hwf Hbase Hp Hg Hcr. apply (nif_input _ _ _ _ (fed packets)); try done; [by apply fed_bracketed|].
  intros s Hs Hb. eapply wp_mono; [by apply ingress_call_wp|done|]. intros e s' [Hr He]. split; [done|].
  intros Ho. apply Hcr. rewrite <-(bracketed_device _ _ Hb). by apply He.
Qed.

Lemma nif_in_stack {A} c r (encode : A → Value) (m : M Sys unit (Envelope A)) :
  resource_wf r →
  (∀ s, stack_wf s → bracketed (sys r) s → wp m (method_post c r encode) (λ _ _, False) s) →
  nif_post c r encode (in_stack m).
Proof.
  intros Hwf Hm. pose proof Hwf as (Hl & Hi & Hs). unfold nif_post, in_stack. apply wp_map_err.
  apply wp_resource; [done|]. apply wp_with_stack. pose proof (begin_bracketed (E:=unit) (sys r)) as Hb.
  eapply wp_mono; [apply Hm; [by eapply bracketed_inv|exact Hb]| |done].
  intros env s' Hp. by eapply method_answered, observe_bracketed.
Qed.

(** A stack that does not run has nothing to report. *)
Lemma method_stopped c r {A} (encode : A → Value) (env : Envelope A) s0 s' :
  stack_wf s' → bracketed (base c (sys r)) s0 → lifecycle (stack s0) ≠ Running → accounts s0 None [] env s' →
  promised c (encode (result env)) = None → withdrawn c (encode (result env)) [] →
  method_post c r encode env s'.
Proof.
  intros Hs' Hb Hl Hac Hp Hg. split; [done|]. exists s0. split; [done|]. split; [|by intros ? ?].
  exists []. split; [done|]. by rewrite Hp.
Qed.

Lemma nif_poll millis r : resource_wf r → nif_post (StackPoll millis) r ok_value (nif_stack_poll millis).
Proof.
  intros Hwf. apply nif_instant; [done|]. intros now _. apply nif_in_stack; [done|]. intros s Hs Hb.
  destruct (lifecycle (stack s)) eqn:Hl.
  - eapply wp_mono; [by apply poll_running_wp| |done]. intros env s' [Hs' Hse]. by eapply method_settled.
  - eapply (wp_mono _ _ _ (λ _ _, False)); [by apply poll_shutting_wp| |done]. intros env s' [Hab _].
    eapply method_stopped; [apply Hab|exact Hb|congruence|by apply abated_accounts|done|done].
  - apply poll_shut; [done|]. eapply method_stopped; [done|exact Hb|congruence|by apply accounts_same|done|done].
Qed.

Lemma nif_shutdown reason r : resource_wf r → nif_post (StackShutdown reason) r ok_value (nif_stack_shutdown reason).
Proof.
  intros Hwf. apply nif_in_stack; [done|]. intros s Hs Hb. pose proof (bracketed_lifecycle _ _ Hb) as Hl.
  destruct (decide (lifecycle (stack s) = Shutdown)) as [Hsh|Hne].
  - unfold shutdown. apply wp_bind, wp_gs. rewrite Hsh. apply wp_ret.
    eapply (method_stopped _ _ _ _ s); [done| |congruence|by apply accounts_same|done|done].
    simpl. rewrite <-Hl, Hsh. exact Hb.
  - eapply (wp_mono _ _ _ (λ _ _, False)); [by apply shutdown_wp| |done]. intros env s' [Hab _].
    eapply (method_stopped _ _ _ _ (marked reason s)); [apply Hab| |done|by apply abated_accounts|done|done].
    simpl. rewrite <-Hl. destruct (lifecycle (stack s)); try done; by apply marked_bracketed.
Qed.

Lemma decode_batch_errors t a : decode_packet_batch t = Err a → a = a_invalid_packet ∨ a = a_batch_too_large.
Proof.
  unfold decode_packet_batch. destruct (as_list t) as [[items proper]|]; [|intros [= <-]; by left].
  rewrite decode_packets_spec by done. intros Hd. repeat case_match; simplify_eq; auto.
Qed.
Lemma decode_batch_panics t : decode_packet_batch t = Panic → improper t.
Proof.
  unfold decode_packet_batch. destruct (as_list t) as [[items proper]|] eqn:Hl; [|done].
  rewrite decode_packets_spec by done. intros Hd. repeat case_match; simplify_eq. by exists items.
Qed.
Lemma decode_items_panics {A} (decode : Term → outcome unit A) limit items proper values :
  (∀ t, decode t ≠ Panic) → decode_items decode limit items proper values = Panic → proper = false.
Proof.
  intros Hd. revert values. induction items as [|t items IH]; intros values; simpl; [by destruct proper|].
  destruct (_ =? _)%N; [done|]. destruct (decode t) eqn:He; simpl; [apply IH|done|by destruct (Hd t)].
Qed.
Lemma decode_address_panics t : decode_address t = Panic → improper t.
Proof.
  unfold decode_address, decode_bounded_list. destruct (as_list t) as [[items proper]|] eqn:Hl; [|done].
  intros ->%decode_items_panics; [by exists items|]. intros t'. unfold decode_u8. by destruct (as_u8 t').
Qed.
Lemma decode_endpoint_panics t :
  decode_tcp_endpoint t = Panic → ∃ a, map_get key_address t = Some a ∧ improper a.
Proof.
  unfold decode_tcp_endpoint. destruct (map_get key_address t) as [a|]; simpl; [|done].
  destruct (decode_address a) eqn:Ha; [by repeat case_match|done|]. intros _. exists a.
  split; [done|]. by apply decode_address_panics.
Qed.

(** The calls whose arguments make a decoder panic never reach the stack. *)
Definition argument_panics c : bool :=
  match c with
  | StackIngressBatch t _ => match decode_packet_batch t with Panic => true | _ => false end
  | TcpBind _ t | TcpConnect _ t _ _ _ | UdpBind _ t | UdpConnect _ t | UdpSendto _ t _ _ _ _ =>
      match decode_tcp_endpoint t with Panic => true | _ => false end
  | _ => false
  end.
Lemma panics_served c r : resource_wf r → argument_panics c = true → call_served c r.
Proof.
  intros Hwf Hp. assert (improper_argument c) as Hi.
  { destruct c; try done; simpl in Hp; case_match; try done; by apply decode_batch_panics || apply decode_endpoint_panics. }
  assert (perform c r = (AnsError a_native_panic, r)) as Hc.
  { destruct c; try done; simpl in Hp; case_match; try done.
    all: unfold perform, Nif.perform, nif, catch_operation, nif_stack_ingress_batch, nif_tcp_bind, nif_tcp_connect,
      nif_udp_bind, nif_udp_connect, nif_udp_sendto, endpoint_arg.
    all: match goal with H : _ = Panic |- _ => rewrite H end; done. }
  unfold call_served. rewrite Hc. split; [done|]. split_and!; [apply during_refl|done|done].
Qed.

Lemma nif_ingress_batch t millis r :
  resource_wf r → decode_packet_batch t ≠ Panic → nif_post (StackIngressBatch t millis) r VCount (nif_stack_ingress_batch t millis).
Proof.
  intros Hwf Hne. unfold nif_stack_ingress_batch, nif_post.
  apply wp_bind. apply wp_lift_outcome.
  - intros ps Hps. apply nif_instant; [done|]. intros now _. apply (nif_ingress _ _ _ _ ps); try done; simpl; by rewrite Hps.
  - intros a Ha. by destruct (decode_batch_errors _ _ Ha) as [-> | ->]; apply bad_argument.
  - done.
Qed.

Lemma send_ok i data p ref now s : stack_wf s → call_ok (tcp_send i data p ref now) (promise_of i p) s.
Proof. intros Hs. eapply wp_mono; [by apply tcp_send_wp|by intros env s' []|by intros e s' []]. Qed.
Lemma recv_ok i n p ref now s : stack_wf s → call_ok (tcp_recv i n p ref now) (promise_of i p) s.
Proof. intros Hs. eapply wp_mono; [by apply tcp_recv_wp|by intros env s' []|by intros e s' []]. Qed.

#[local] Hint Resolve send_ok recv_ok : calls.

Lemma nif_snapshot r : resource_wf r → nif_post StackSnapshot r VSnapshot (nif_stack_snapshot path_mtu_stats).
Proof.
  intros Hwf. pose proof Hwf as (Hl & Hi & Hs). unfold nif_post, nif_stack_snapshot. apply wp_bind, wp_map_err.
  unfold wp, with_stack_unobserved. rewrite Hl, Hi. split; [done|]. split; [|done]. exists []. split; [done|]. by apply accounts_same.
Qed.

Lemma bracketed_closes s s' i : bracketed s s' → closes_gracefully s' i ↔ closes_gracefully s i.
Proof. by intros (? & ? & ? & ? & ? & ->). Qed.
Lemma nif_close i millis r :
  resource_wf r → ¬ overdue (TcpClose i millis) (sys r) →
  nif_post (TcpClose i millis) r ok_value (nif_tcp_close i millis).
Proof.
  intros Hwf Hno. apply nif_instant; [done|]. intros now Hnow. eapply nif_socket; [done| |done..].
  intros s Hs Hb. apply tcp_close_ok; [done|]. rewrite (bracketed_closes _ _ _ Hb). intros Hg.
  destruct (decide (close_in_time now)) as [Hin|Hlate]; [done|]. destruct Hno. by exists now.
Qed.

(** Every function, by the lemma of the method it runs. *)
Lemma served c r : resource_wf r → ¬ overdue c (sys r) → call_served c r.
Proof.
  intros Hwf Hno. destruct (argument_panics c) eqn:Hp; [by apply panics_served|].
  destruct c; (eapply nif_served; [reflexivity|]).
  1: { apply nif_instant; [done|]. intros t _. by apply (nif_ingress _ _ _ _ [packet]). }
  1: { apply nif_ingress_batch; [done|]. intros Hd. simpl in Hp. by rewrite Hd in Hp. }
  1: by apply nif_poll.
  1: { apply nif_instant; [done|]. intros t _. apply (nif_input _ _ _ _ (credited ps bs)); try done;
         [intros; by apply credited_bracketed|]. intros s Hs _. eapply wp_mono; [by apply grant_call_wp|done|naive_solver]. }
  1: by apply nif_shutdown.
  1: by apply nif_snapshot.
  1: by apply nif_cancel.
  16: by apply nif_close.
  all: unfold nif_socket_validate, nif_tcp_open, nif_tcp_bind, nif_tcp_listen, nif_tcp_accept, nif_tcp_connect,
    nif_tcp_send, nif_tcp_recv, nif_tcp_shutdown, nif_tcp_sockname, nif_tcp_peername, nif_tcp_set_nodelay,
    nif_tcp_nodelay, nif_tcp_set_keepalive, nif_tcp_keepalive, nif_tcp_close, nif_udp_open, nif_udp_bind,
    nif_udp_connect, nif_udp_sendto, nif_udp_recvfrom, nif_udp_sockname, nif_udp_peername, nif_udp_close.
  all: try (apply nif_endpoint; [exact Hwf|intros Hd; simpl in Hp; by rewrite Hd in Hp|intros e]); try (apply nif_instant; [exact Hwf|intros t _]).
  all: eapply nif_socket; [exact Hwf| |reflexivity|intros v; reflexivity|intros v; reflexivity].
  all: intros s Hs _.
  all: by eauto with calls.
Qed.

(** ** A poisoned lock

    A panic inside the stack poisons the lock of the resource, and no call gets
    past it again. *)
Lemma overdue_dec c s : overdue c s ∨ ¬ overdue c s.
Proof.
  destruct c; try (right; by intros []). simpl. destruct (Time.instant_from_millis now) as [t|e|]; [|naive_solver..].
  destruct (decide (close_in_time t)); [naive_solver|]. enough (closes_gracefully s i ∨ ¬ closes_gracefully s i) by naive_solver.
  destruct (decide (closes_gracefully s i)); auto.
Qed.

Definition poisoned s r : StackResource := r <| sys := s |> <| inner_lock := Poisoned |>.

Lemma overdue_poisons i millis r :
  resource_wf r → overdue (TcpClose i millis) (sys r) → ∃ s' ws,
    perform (TcpClose i millis) r = (AnsError a_native_panic, poisoned s' r)
    ∧ during (sys r) [] (given i ws) None s' ∧ table_entries (socket_table (stack s')) !! id i = None.
Proof.
  intros (Hl & Hi & Hwf) (now & Hnow & Hlate & Hg). pose proof (begin_bracketed (E:=unit) (sys r)) as Hb.
  pose proof (tcp_close_panics i now (after (begin_call (E:=unit)) (sys r))) as Hp. unfold panics in Hp.
  specialize (Hp (bracketed_inv _ _ _ Hb Hwf) (proj2 (bracketed_closes _ _ i Hb) Hg) Hlate).
  destruct (tcp_close i now _) as [[env|e|] s'] eqn:Hc; [done|done|]. destruct Hp as (ws & Hdu & Hno).
  exists s', ws. split_and!; [|by eapply bracketed_during|done].
  unfold perform, Nif.perform, nif, nif_tcp_close, catch_operation, instant, on_stack. rewrite Hnow.
  unfold mbind, M_bind, map_err, lift_outcome, with_resource. rewrite Hl, Hi. unfold with_stack, attempt.
  unfold mbind, M_bind. unfold after in Hc. unfold begin_call in *. destruct (budget_start _ _). simpl in *. by rewrite Hc.
Qed.

Lemma poisoned_answers c r : inner_lock r = Poisoned → ∃ a, perform c r = (AnsError a, r).
Proof.
  intros Hl. destruct c; unfold perform, Nif.perform, nif, catch_operation.
  all: unfold nif_stack_ingress, nif_stack_ingress_batch, nif_stack_poll, nif_stack_grant_egress, nif_stack_shutdown,
    nif_stack_snapshot, nif_socket_cancel, nif_socket_validate, nif_tcp_open, nif_tcp_bind, nif_tcp_listen, nif_tcp_accept,
    nif_tcp_connect, nif_tcp_send, nif_tcp_recv, nif_tcp_shutdown, nif_tcp_sockname, nif_tcp_peername,
    nif_tcp_set_nodelay, nif_tcp_nodelay, nif_tcp_set_keepalive, nif_tcp_keepalive, nif_tcp_close, nif_udp_open,
    nif_udp_bind, nif_udp_connect, nif_udp_sendto, nif_udp_recvfrom, nif_udp_sockname, nif_udp_peername, nif_udp_close.
  all: unfold endpoint_arg, instant, on_stack, in_stack, with_resource, with_stack_unobserved, map_err, lift_outcome,
    mbind, M_bind.
  all: rewrite ?Hl.
  all: try (destruct (decode_tcp_endpoint _) as [?|?|]; simpl; [|by eexists..]).
  all: try (destruct (decode_packet_batch _) as [?|?|]; simpl; [|by eexists..]).
  all: try (destruct (Time.instant_from_millis _) as [?|?|]; simpl; [|by eexists..]).
  all: rewrite ?Hl; by eexists.
Qed.
End one_call.
