(* ===== verification/History.v ===== *)
(** * Histories of a stack

    Any sequence of calls on a stack, with the other stacks of the process
    taking identities in between: what the answers, the messages and the
    packets add up to. The specification of the messages is a machine of its
    own, a ledger of the waiters that are owed one. *)
From S2P Require Import Prelude Budget Waiter SocketTable Wire TcpSupport Device Packet Smol.
From S2P Require Import Stack Create Readiness Invariant Maintenance Drive Settle Shutdown.
From S2P Require Import TcpOps UdpOps Closedown Snapshot Nif Calls.

(** ** The ledger: the abstract specification *)
Section ledger.
Context `{SmolTypes, Terms}.

Record Ledger := { lg_life : Lifecycle; lg_reason : AbortReason; lg_owed : list held }.

(** Only a call to shut down gives an order, and only to a stack that is not shut down. *)
Definition ordered (c : Call) (l : Ledger) : Ledger :=
  match c, lg_life l with
  | StackShutdown reason, (Running | ShuttingDown) =>
      {| lg_life := ShuttingDown; lg_reason := reason; lg_owed := lg_owed l |}
  | _, _ => l
  end.
Definition reason_given (l : Ledger) : AbortReason :=
  match lg_life l with Running => ReasonClosed | ShuttingDown | Shutdown => lg_reason l end.

(** A waiter that is promised a message is entered, unless it is there. *)
Definition entered (promise : option held) (owed armed : list held) : Prop :=
  match promise with
  | None => armed = []
  | Some w => armed = [w] ∨ (armed = [] ∧ w ∈ owed)
  end.

(** An answered call strikes out the waiters it withdrew and those it sent a
    message, selects only while the stack runs; an error changes nothing. *)
Inductive ledger_step : Call → Answer → Ledger → list Message → Ledger → Prop :=
| ledger_answer c env l l' armed gone ended selected :
    entered (promised c (result env)) (lg_owed l) armed →
    withdrawn c (result env) gone →
    lg_owed l ++ armed ≡ₚ lg_owed l' ++ gone ++ ended ++ selected →
    (selected = [] ∨ lg_life (ordered c l) = Running) →
    life_step (lg_life (ordered c l)) (lg_life l') →
    lg_reason l' = lg_reason (ordered c l) →
    ledger_step c (AnsOk env) l
      ((aborted (reason_given (ordered c l)) <$> ended) ++ (select_of <$> selected)) l'
| ledger_error c a l l' :
    lg_life l' = lg_life l → lg_reason l' = lg_reason l → lg_owed l' ≡ₚ lg_owed l →
    ledger_step c (AnsError a) l [] l'.

Inductive ledger_run : list (Call * Answer) → Ledger → list Message → Ledger → Prop :=
| ledger_done l : ledger_run [] l [] l
| ledger_more c a tr l ms l1 ms' l2 :
    ledger_step c a l ms l1 → ledger_run tr l1 ms' l2 → ledger_run ((c, a) :: tr) l (ms ++ ms') l2.

(** What a trace promised and withdrew. *)
Definition promise_in (ca : Call * Answer) : option held :=
  match ca.2 with AnsOk env => promised ca.1 (result env) | AnsError _ => None end.
Definition promises (tr : list (Call * Answer)) : list held := omap promise_in tr.
Definition withdrawal_in (ca : Call * Answer) : option (SocketIdentity * Operation * Reference) :=
  match ca with
  | (SocketCancel i o ref, AnsOk env) =>
      match result env with VCancel Cancelled => Some (i, o, ref) | _ => None end
  | _ => None
  end.
Definition withdrawals (tr : list (Call * Answer)) := omap withdrawal_in tr.
Definition cancels (w : SocketIdentity * Operation * Reference) (h : held) : Prop :=
  let '(i, o, ref) := w in h.1 = ready_key i (operation_direction o) ∧ waiter_matches h.2 o ref = true.

Definition message_for (m : Message) (h : held) : Prop := m = select_of h ∨ ∃ reason, m = aborted reason h.
End ledger.

(** ** Histories *)
Section histories.
Context `{Beam, Mailbox, Engine, Terms}.
Context (path_mtu_stats : Interface → PathMtuStats).
Implicit Types (r : StackResource) (c : Call).

Inductive Event := Own (c : Call) | Others (ids generations : N).

Definition others (ids generations : N) r : StackResource :=
  r <| sys ::= λ s, s <| shd ::= others_take ids generations |> |>.

Fixpoint run (es : list Event) r : list (Call * Answer) * StackResource :=
  match es with
  | [] => ([], r)
  | Own c :: es =>
      let '(a, r1) := perform path_mtu_stats c r in
      let '(tr, r2) := run es r1 in ((c, a) :: tr, r2)
  | Others ids generations :: es => run es (others ids generations r)
  end.

(** The stacks a process can hold and call: made by [stack_new], and then called
    with the lock free afterwards (no panic has poisoned it). The identity
    counters of the process start at one and never pass the limit. *)
Inductive attainable : StackResource → Prop :=
| attainable_new limits_term config_term millis stack_id ids generations clock k env k' :
    (ids <= MAX_SOCKET_ID + 1)%N → (generations <= MAX_SOCKET_ID + 1)%N →
    nif_stack_new limits_term config_term millis stack_id ids generations clock k = (Ok env, k') →
    attainable (result env)
| attainable_call c r a r' :
    attainable r → perform path_mtu_stats c r = (a, r') → inner_lock r' = Unlocked → attainable r'
| attainable_others ids generations r : attainable r → attainable (others ids generations r).

Definition ledger_of (s : Sys) : Ledger :=
  {| lg_life := lifecycle (stack s); lg_reason := shutdown_reason (stack s); lg_owed := owed s |}.

(** What a trace granted to the stack and handed to the link. *)
Definition grant_in (ca : Call * Answer) : N * N :=
  match ca with (StackGrantEgress ps bs _, AnsOk _) => (ps, bs) | _ => (0, 0)%N end.
Definition output_in (ca : Call * Answer) : list bytes :=
  match ca.2 with AnsOk env => output env | AnsError _ => [] end.
Definition outputs (tr : list (Call * Answer)) : list bytes := concat (output_in <$> tr).
Definition granted (tr : list (Call * Answer)) : N * N :=
  (sum_N ((λ ca, (grant_in ca).1) <$> tr), sum_N ((λ ca, (grant_in ca).2) <$> tr)).
End histories.

(** ** What the ledger guarantees *)
Section ledger_theorems.
Context `{SmolTypes, Terms}.
Implicit Types (l : Ledger).

(** Between two books: what was entered is what is left, withdrawn, or told. *)
Definition balanced (promised : list held) (cancelled : list (SocketIdentity * Operation * Reference))
    (ms : list Message) (before after : list held) : Prop :=
  ∃ armed gone told, armed ⊆+ promised ∧ (∀ w, w ∈ promised → w ∈ before ++ armed)
    ∧ Forall2 cancels cancelled gone ∧ Forall2 message_for ms told
    ∧ before ++ armed ≡ₚ after ++ gone ++ told.

Lemma balanced_nil (o o' : list held) : o' ≡ₚ o → balanced [] [] [] o o'.
Proof.
  intros Hl. exists [], [], []. split_and!; [done| |done|done|by rewrite !app_nil_r].
  intros w Hw. by apply elem_of_nil in Hw.
Qed.

Lemma balanced_app ps1 cs1 ms1 o o1 ps2 cs2 ms2 o2 :
  balanced ps1 cs1 ms1 o o1 → balanced ps2 cs2 ms2 o1 o2 →
  balanced (ps1 ++ ps2) (cs1 ++ cs2) (ms1 ++ ms2) o o2.
Proof.
  intros (a1 & g1 & t1 & Ha1 & Hp1 & Hg1 & Ht1 & Ho1) (a2 & g2 & t2 & Ha2 & Hp2 & Hg2 & Ht2 & Ho2).
  exists (a1 ++ a2), (g1 ++ g2), (t1 ++ t2). split_and!.
  - by apply submseteq_app.
  - intros w [Hw|Hw]%elem_of_app; rewrite app_assoc, elem_of_app; [left; by apply Hp1|].
    apply Hp2, elem_of_app in Hw as [Hw|Hw]; [left|by right]. rewrite Ho1. apply elem_of_app. by left.
  - by apply Forall2_app.
  - by apply Forall2_app.
  - rewrite app_assoc, Ho1. transitivity ((o1 ++ a2) ++ (g1 ++ t1)); [solve_Permutation|].
    rewrite Ho2. solve_Permutation.
Qed.

Lemma entered_balanced promise armed o :
  entered promise o armed → armed ⊆+ option_list promise ∧ (∀ w, w ∈ option_list promise → w ∈ o ++ armed).
Proof.
  destruct promise as [w|]; simpl.
  - intros [-> |[-> Hw]]; split; try done.
    + intros w' ->%list_elem_of_singleton. apply elem_of_app. right. by left.
    + apply submseteq_nil_l.
    + intros w' ->%list_elem_of_singleton. by rewrite app_nil_r.
  - intros ->. split; [done|]. by intros w Hw%elem_of_nil.
Qed.

Lemma withdrawn_cancels c (env : Envelope Value) gone :
  withdrawn c (result env) gone → Forall2 cancels (option_list (withdrawal_in (c, AnsOk env))) gone.
Proof.
  destruct c; simpl; try (intros ->; constructor). destruct (result env) as [| | | | | | |[]|]; simpl;
    try (intros ->; constructor). intros (w & -> & Hm). by repeat constructor.
Qed.

Lemma told_messages reason ended selected :
  Forall2 message_for ((aborted reason <$> ended) ++ (select_of <$> selected)) (ended ++ selected).
Proof.
  apply Forall2_app; apply Forall2_fmap_l, Forall_Forall2_diag, Forall_true; intros h; [right; eauto|by left].
Qed.

Lemma ledger_step_balanced c a l ms l' :
  ledger_step c a l ms l' →
  balanced (option_list (promise_in (c, a))) (option_list (withdrawal_in (c, a))) ms (lg_owed l) (lg_owed l').
Proof.
  intros [c' env l0 l0' armed gone ended selected He Hw Ho _ _ _|c' a' l0 l0' _ _ Ho].
  - destruct (entered_balanced _ _ _ He) as [Hs Hp]. exists armed, gone, (ended ++ selected).
    split_and!; [done|done|by apply withdrawn_cancels|apply told_messages|done].
  - replace (withdrawal_in (c', AnsError a')) with (@None (SocketIdentity * Operation * Reference)) by (by destruct c').
    by apply balanced_nil.
Qed.

Lemma ledger_run_balanced tr l ms l' :
  ledger_run tr l ms l' → balanced (promises tr) (withdrawals tr) ms (lg_owed l) (lg_owed l').
Proof.
  induction 1 as [l|c a tr l ms l1 ms' l2 Hs _ IH]; [by apply balanced_nil|].
  change (promises ((c, a) :: tr)) with (omap promise_in ([(c, a)] ++ tr)).
  change (withdrawals ((c, a) :: tr)) with (omap withdrawal_in ([(c, a)] ++ tr)). rewrite !omap_app.
  eapply balanced_app; [|exact IH]. pose proof (ledger_step_balanced _ _ _ _ _ Hs) as Hb.
  unfold omap, list_omap. by destruct (promise_in (c, a)), (withdrawal_in (c, a)).
Qed.
End ledger_theorems.

(** ** The stack implements the ledger *)
Section history_theorems.
Context `{Beam, Mailbox, Engine, !EngineLaws, Terms}.
Context (path_mtu_stats : Interface → PathMtuStats).
Implicit Types (r : StackResource) (c : Call) (s : Sys).
Abbreviation perform := (perform path_mtu_stats).
Abbreviation run := (run path_mtu_stats).

Lemma base_ledger c s : ledger_of (base c s) = ordered c (ledger_of s).
Proof.
  destruct c; simpl; try done; [by destruct (decode_packet_batch packets)|]. unfold ordered, ledger_of. simpl.
  by destruct (lifecycle (stack s)) eqn:Hl; simpl; rewrite ?Hl.
Qed.
Lemma base_kept c s :
  messages (base c s) = messages s ∧ socket_table (stack (base c s)) = socket_table (stack s)
  ∧ limits (stack (base c s)) = limits (stack s).
Proof. destruct c; simpl; try done; [by destruct (decode_packet_batch packets)|]. by destruct (lifecycle (stack s)). Qed.
Lemma ordered_owed c l : lg_owed (ordered c l) = lg_owed l.
Proof. destruct c; try done. unfold ordered. by destruct (lg_life l). Qed.
Lemma abort_aborted s (done : list PendingNotification) :
  abort_of (stack s) <$> done = aborted (reason_given (ledger_of s)) <$> (note_held <$> done).
Proof. rewrite <-list_fmap_compose. by apply list_fmap_ext. Qed.

(** A call is served, or is the late close that poisons the lock. *)
Lemma call_cases c r :
  resource_wf r → (¬ overdue c (sys r) ∧ call_served path_mtu_stats c r)
  ∨ (overdue c (sys r) ∧ ∃ i ws s', perform c r = (AnsError a_native_panic, poisoned s' r)
    ∧ during (sys r) [] (given i ws) None s').
Proof.
  intros Hwf. destruct (overdue_dec c (sys r)) as [Hov|Hno]; [right|left; split; [done|by apply served]].
  split; [done|]. destruct c; try by destruct Hov.
  destruct (overdue_poisons path_mtu_stats i now r Hwf Hov) as (s' & ws & Hp & Hdu & _). by exists i, ws, s'.
Qed.

Lemma free_served c r a r' :
  resource_wf r → perform c r = (a, r') → inner_lock r' = Unlocked → call_served path_mtu_stats c r.
Proof.
  intros Hwf Hp Hl. destruct (call_cases c r Hwf) as [[_ ?]|(_ & i & ws & s' & Hp' & _)]; [done|].
  rewrite Hp in Hp'. injection Hp' as -> ->. done.
Qed.

(** What is left of a stack: it is well formed, or closed behind a poisoned lock. *)
Definition sound r : Prop := resource_wf r ∨ inner_lock r = Poisoned.

Lemma sound_call c r : sound r → sound (perform c r).2.
Proof.
  intros [Hwf|Hl].
  - destruct (call_cases c r Hwf) as [[_ Hs]|(_ & i & ws & s' & -> & _)]; [left|by right].
    unfold call_served in Hs. destruct (perform c r). by apply Hs.
  - destruct (poisoned_answers path_mtu_stats c r Hl) as [a ->]. by right.
Qed.

Lemma run_poisoned es r :
  inner_lock r = Poisoned → let '(tr, r') := run es r in
  inner_lock r' = Poisoned ∧ Forall (λ ca, ∃ a, ca.2 = AnsError a) tr
  ∧ stack (sys r') = stack (sys r) ∧ messages (sys r') = messages (sys r).
Proof.
  revert r. induction es as [|[c|ids generations] es IH]; intros r Hl; simpl; [by split_and!| |].
  - destruct (poisoned_answers path_mtu_stats c r Hl) as [a ->]. specialize (IH r Hl).
    destruct (run es r) as [tr r']. destruct IH as (? & ? & ? & ?). split_and!; [done| |done|done].
    constructor; [by exists a|done].
  - by apply (IH (others ids generations r)).
Qed.

Lemma call_implements c r a r' :
  resource_wf r → perform c r = (a, r') → inner_lock r' = Unlocked →
  resource_wf r' ∧ ∃ ms, ledger_step c a (ledger_of (sys r)) ms (ledger_of (sys r'))
    ∧ messages (sys r') = messages (sys r) ++ ms.
Proof.
  intros Hwf Hp Hul. pose proof (free_served c r a r' Hwf Hp Hul) as Hs. unfold call_served in Hs. rewrite Hp in Hs.
  destruct Hs as [Hwf' Ha]. split; [done|]. destruct a as [env|a]; simpl in Ha.
  - destruct Ha as [(gone & Hg & [_ Hl Hr (ins & dn & outs & Hin & Hm & Ho & Hrun & _) _]) _].
    destruct (base_kept c (sys r)) as (Hms & Htb & _).
    pose proof (base_ledger c (sys r)) as Hb. assert (Hbo : owed (base c (sys r)) = owed (sys r)).
    { change (lg_owed (ledger_of (base c (sys r))) = lg_owed (ledger_of (sys r))). by rewrite Hb, ordered_owed. }
    eexists. split.
    + eapply (ledger_answer c env _ _ ins gone (note_held <$> dn) outs); rewrite <-?Hb; try done; simpl.
      * destruct (promised c (result env)); [|done]. destruct Hin as [-> |[-> Hin]]; [by left|right].
        split; [done|]. unfold owed. apply elem_of_app. left. by rewrite <-Htb.
      * by rewrite <-Hbo.
    + by rewrite Hm, Hms, <-Hb, <-abort_aborted.
  - destruct Ha as [[_ Hl Hr Hpe Hout Hh _] _]. exists []. split.
    + constructor; [done|done|]. simpl. unfold owed. rewrite Hpe. rewrite !app_nil_r in Hh. by rewrite Hh.
    + unfold messages. by rewrite Hout, app_nil_r.
Qed.

Lemma others_wf ids generations r : resource_wf r → resource_wf (others ids generations r).
Proof.
  intros (Hl & Hi & [Hso Hre Ht Hro Hd Hk Hli Hq]). split_and!; [done|done|]. constructor; try done; simpl.
  - eapply (reg_weaken held_none); [done| |exact Hre]. simpl. lia.
  - pose proof (wf_next _ Ht) as Hn. simpl in Hn.
    eapply op_post_shared; [exact Ht|done|simpl; lia..].
  - eapply (queue_weaken held_none); [done| |exact Hq]. simpl. lia.
Qed.
Lemma nif_stack_new_wf lt ct millis stack_id ids generations clock k env k' :
  (ids <= MAX_SOCKET_ID + 1)%N → (generations <= MAX_SOCKET_ID + 1)%N →
  nif_stack_new lt ct millis stack_id ids generations clock k = (Ok env, k') → resource_wf (result env).
Proof.
  intros Hi Hg Hn. enough (wp (nif_stack_new lt ct millis stack_id ids generations clock)
    (λ env _, resource_wf (result env)) (λ _ _, True) k ∨
    (nif_stack_new lt ct millis stack_id ids generations clock k).1 = Panic) as [Hw|Hp].
  { unfold wp in Hw. by rewrite Hn in Hw. }
  { by rewrite Hn in Hp. }
  unfold nif_stack_new, resource_new, map_err, lift_outcome, mbind, M_bind, wp.
  destruct (decoded (as_limits lt)) as [lim|[]|]; simpl; [|by left|by right].
  destruct (decode_stack_config ct) as [config|[]|]; simpl; [|by left|by right].
  destruct (Time.instant_from_millis millis) as [now|[]|]; simpl; [|by left|by right].
  destruct (stack_new lim config now stack_id ids generations clock) as [s|e|] eqn:Hs; simpl; [|by left|by right].
  left. split_and!; [done|done|]. by eapply stack_new_wf.
Qed.

Lemma attainable_wf r : attainable path_mtu_stats r → resource_wf r.
Proof.
  induction 1 as [lt ct millis stack_id ids generations clock k env k' Hi Hg Hn|c r a r' _ IH Hp Hl|ids gens r _ IH].
  - eapply nif_stack_new_wf; [| |exact Hn]; done.
  - by apply (call_implements _ _ _ _ IH) in Hp as [? _].
  - by apply others_wf.
Qed.

(** A lock that is free in the end was free all along. *)
Lemma call_unlocked es c r a r1 :
  resource_wf r → perform c r = (a, r1) → inner_lock (run es r1).2 = Unlocked → inner_lock r1 = Unlocked.
Proof.
  intros Hwf Hp Hl. pose proof (sound_call c r (or_introl Hwf)) as Hso. rewrite Hp in Hso.
  destruct Hso as [Hwf1|Hpo]; [apply Hwf1|]. pose proof (run_poisoned es r1 Hpo) as Hr. simpl in Hpo.
  destruct (run es r1) as [tr r2]. destruct Hr. simpl in Hl. congruence.
Qed.

Lemma run_implements es r :
  resource_wf r → let '(tr, r') := run es r in inner_lock r' = Unlocked →
  resource_wf r' ∧ ∃ ms, ledger_run tr (ledger_of (sys r)) ms (ledger_of (sys r'))
    ∧ messages (sys r') = messages (sys r) ++ ms.
Proof.
  revert r. induction es as [|[c|ids generations] es IH]; intros r Hwf; simpl.
  - intros _. split; [done|]. exists []. split; [constructor|]. by rewrite app_nil_r.
  - destruct (perform c r) as [a r1] eqn:Hp.
    pose proof (call_unlocked es c r a r1 Hwf Hp) as Hu. destruct (run es r1) as [tr r2] eqn:Hrun. intros Hl.
    destruct (call_implements _ _ _ _ Hwf Hp (Hu Hl)) as (Hwf1 & ms & Hs & Hm). specialize (IH r1 Hwf1).
    rewrite Hrun in IH. destruct (IH Hl) as (Hwf2 & ms' & Hr & Hm'). split; [done|].
    exists (ms ++ ms'). split; [by econstructor|]. by rewrite Hm', Hm, app_assoc.
  - by apply (IH (others ids generations r)), others_wf.
Qed.

Lemma run_attainable es r :
  attainable path_mtu_stats r → inner_lock (run es r).2 = Unlocked → attainable path_mtu_stats (run es r).2.
Proof.
  revert r. induction es as [|[c|ids generations] es IH]; intros r Hr; simpl; [done| |].
  - destruct (perform c r) as [a r1] eqn:Hp.
    pose proof (call_unlocked es c r a r1 (attainable_wf _ Hr) Hp) as Hu. specialize (IH r1).
    destruct (run es r1) as [tr r2]. intros Hl. apply IH; [|done]. by eapply attainable_call; [exact Hr|exact Hp|apply Hu].
  - by apply (IH (others ids generations r)), attainable_others.
Qed.

(** ** The link is paid *)
Lemma credited_pays c s env s' gone promise k :
  accounts (base c s) promise gone env s' → credit (device (stack s)) = Some k →
  ∃ k', credit (device (stack s')) = Some k'
    ∧ (packets k' + llen (output env) <= packets k + (grant_in (c, AnsOk env)).1)%N
    ∧ (credit_bytes k' + total_len (output env) <= credit_bytes k + (grant_in (c, AnsOk env)).2)%N.
Proof.
  intros [_ _ _ _ [_ Hsp]] Hk.
  assert (∃ k0, credit (device (stack (base c s))) = Some k0
    ∧ (packets k0 <= packets k + (grant_in (c, AnsOk env)).1)%N
    ∧ (credit_bytes k0 <= credit_bytes k + (grant_in (c, AnsOk env)).2)%N) as (k0 & Hk0 & Hp & Hb).
  { destruct c; simpl; try (exists k; split_and!; [done|lia..]).
    - exists k. destruct (decode_packet_batch packets); split_and!; done || lia.
    - unfold credited, grant_egress. rewrite Hk. simpl. eexists. split; [done|]. simpl.
      unfold saturating_add. lia.
    - exists k. destruct (lifecycle (stack s)); split_and!; done || lia. }
  unfold spent in Hsp. rewrite Hk0 in Hsp. destruct Hsp as (k' & Hk' & Hpk & Hby). exists k'. split; [done|]. lia.
Qed.

Lemma link_pays c a s s' k :
  link_of (device (stack s')) = link_of (device (stack s)) → credit (device (stack s)) = Some k →
  ∃ k', credit (device (stack s')) = Some k'
    ∧ (packets k' + llen (output_in (c, AnsError a)) <= packets k + (grant_in (c, AnsError a)).1)%N
    ∧ (credit_bytes k' + total_len (output_in (c, AnsError a)) <= credit_bytes k + (grant_in (c, AnsError a)).2)%N.
Proof.
  intros Hlk Hk. unfold link_of in Hlk. injection Hlk as _ _ Hc.
  exists k. rewrite Hc. split; [done|]. unfold total_len, llen. simpl. lia.
Qed.
Lemma call_pays c r a r' k :
  sound r → perform c r = (a, r') → credit (device (stack (sys r))) = Some k →
  ∃ k', credit (device (stack (sys r'))) = Some k'
    ∧ (packets k' + llen (output_in (c, a)) <= packets k + (grant_in (c, a)).1)%N
    ∧ (credit_bytes k' + total_len (output_in (c, a)) <= credit_bytes k + (grant_in (c, a)).2)%N.
Proof.
  intros [Hwf|Hl] Hp Hk.
  - destruct (call_cases c r Hwf) as [[_ Hs]|(_ & i & ws & s' & Hp' & [_ _ _ _ _ _ Hlk])].
    + unfold call_served in Hs. rewrite Hp in Hs. destruct Hs as [_ Ha]. destruct a as [env|a]; simpl in Ha.
      * destruct Ha as [(gone & _ & Hac) _]. by eapply credited_pays.
      * destruct Ha as [[_ _ _ _ _ _ Hlk] _]. by apply (link_pays c a (sys r)).
    + rewrite Hp in Hp'. injection Hp' as -> ->. by apply (link_pays c _ (sys r)).
  - destruct (poisoned_answers path_mtu_stats c r Hl) as [a' Hp']. rewrite Hp in Hp'. injection Hp' as -> ->.
    by apply (link_pays c _ (sys r)).
Qed.

Lemma run_pays es r k :
  sound r → credit (device (stack (sys r))) = Some k → let '(tr, r') := run es r in
  ∃ k', credit (device (stack (sys r'))) = Some k'
    ∧ (packets k' + llen (outputs tr) <= packets k + (granted tr).1)%N
    ∧ (credit_bytes k' + total_len (outputs tr) <= credit_bytes k + (granted tr).2)%N.
Proof.
  revert r k. induction es as [|[c|ids generations] es IH]; intros r k Hso Hk; simpl.
  - exists k. split; [done|]. unfold total_len, llen. simpl. lia.
  - pose proof (sound_call c r Hso) as Hso1. destruct (perform c r) as [a r1] eqn:Hp.
    destruct (call_pays _ _ _ _ _ Hso Hp Hk) as (k1 & Hk1 & Hp1 & Hb1). specialize (IH r1 k1 Hso1 Hk1).
    destruct (run es r1) as [tr r2]. destruct IH as (k2 & Hk2 & Hp2 & Hb2). exists k2. split; [done|].
    unfold outputs, granted in *. rewrite fmap_cons, concat_cons, llen_app, total_len_app.
    simpl in *. unfold fmap in *. lia.
  - apply (IH (others ids generations r)); [|done]. destruct Hso; [left; by apply others_wf|by right].
Qed.


(** C2. The stack implements the ledger of promised messages: every history of calls that leaves
    the lock of the stack free (no panic has poisoned it) is a run of the ledger machine
    with the same answers and messages, in which an answered call strikes out what it
    withdrew and told, selects only while the stack runs, aborts with the reason of the
    order to shut down, moves only towards the end, and a call that answers an error changes
    nothing. *)
Theorem stack_refines_ledger es r :
  attainable path_mtu_stats r → let '(tr, r') := run es r in inner_lock r' = Unlocked →
  ∃ ms, ledger_run tr (ledger_of (sys r)) ms (ledger_of (sys r'))
    ∧ messages (sys r') = messages (sys r) ++ ms.
Proof.
  intros Hwf%attainable_wf. pose proof (run_implements es r Hwf) as Hr.
  destruct (run es r) as [tr r']. intros Hl. specialize (Hr Hl). by destruct Hr.
Qed.

(** C1. Over any history of calls from any stack a process can hold, with other stacks of the
    process taking identities in between, that leaves the lock of the stack free (no panic
    has poisoned it): the waiters owed a message at the start plus those newly armed are
    exactly those still owed at the end, those withdrawn (one for each successful cancel,
    matching its operation and reference), and those told, each by exactly one message, in
    the order of the messages; a waiter is armed only by an answer that promises it, and
    every promised waiter was armed or already owed. *)
Theorem every_waiter_is_told_once es r :
  attainable path_mtu_stats r → let '(tr, r') := run es r in inner_lock r' = Unlocked →
  ∃ ms, messages (sys r') = messages (sys r) ++ ms
    ∧ balanced (promises tr) (withdrawals tr) ms (owed (sys r)) (owed (sys r')).
Proof.
  intros Hwf%attainable_wf. pose proof (run_implements es r Hwf) as Hr.
  destruct (run es r) as [tr r']. intros Hl. specialize (Hr Hl). destruct Hr as (_ & ms & Hr & Hm). exists ms. split; [done|].
  by apply ledger_run_balanced in Hr.
Qed.

(** C7. Over any history of calls on a stack with egress credit, the packets and bytes in the
    answers plus the credit left never exceed the credit at the start plus what answered
    grants added. *)
Theorem output_is_paid_for es r k :
  attainable path_mtu_stats r → credit (device (stack (sys r))) = Some k → let '(tr, r') := run es r in
  ∃ k', credit (device (stack (sys r'))) = Some k'
    ∧ (packets k' + llen (outputs tr) <= packets k + (granted tr).1)%N
    ∧ (credit_bytes k' + total_len (outputs tr) <= credit_bytes k + (granted tr).2)%N.
Proof. intros Hwf%attainable_wf. by apply run_pays; left. Qed.

(** C6. When a running stack answers a call (other than a snapshot) and reports no more work,
    nothing is left to tell: no abort is pending and no socket has its readiness flag
    raised. *)
Theorem no_more_work_means_rest c r env r' :
  attainable path_mtu_stats r → perform c r = (AnsOk env, r') → c ≠ StackSnapshot →
  lifecycle (stack (sys r')) = Running → more env = false → at_rest (sys r').
Proof.
  intros Hwf%attainable_wf Hp Hc Hl Hm.
  destruct (call_cases c r Hwf) as [[_ Hs]|(_ & i & ws & s' & Hp' & _)]; [|congruence].
  unfold call_served in Hs. rewrite Hp in Hs. destruct Hs as [_ [(gone & _ & Hac) Hre]]. apply (Hre Hc); [|done].
  destruct (ac_lifecycle _ _ _ _ _ Hac) as [He|[_ He]]; congruence.
Qed.

(** C12. A call that answers an error, whatever the call and the error, sends no message and
    keeps the lifecycle, the packets waiting to be read and the egress credit; and unless it
    left the lock of the stack poisoned, it keeps every waiter that is owed a message. *)
Theorem errors_change_nothing c r a r' :
  attainable path_mtu_stats r → perform c r = (AnsError a, r') →
  messages (sys r') = messages (sys r)
  ∧ (inner_lock r' = Unlocked → owed (sys r') ≡ₚ owed (sys r))
  ∧ lifecycle (stack (sys r')) = lifecycle (stack (sys r))
  ∧ receive (device (stack (sys r'))) = receive (device (stack (sys r)))
  ∧ credit (device (stack (sys r'))) = credit (device (stack (sys r))).
Proof.
  intros Hwf%attainable_wf Hp.
  assert (∃ gone, during (sys r) [] gone None (sys r') ∧ (inner_lock r' = Unlocked → gone = []))
    as (gone & [_ Hl _ Hpe Hout Hh Hlk] & Hgone).
  { destruct (call_cases c r Hwf) as [[_ Hs]|(_ & i & ws & s' & Hp' & Hdu)].
    - unfold call_served in Hs. rewrite Hp in Hs. destruct Hs as [_ [Hs _]]. by exists [].
    - rewrite Hp in Hp'. injection Hp' as -> ->. by exists (given i ws). }
  simpl in Hlk. unfold link_of in Hlk. injection Hlk as Hr _ Hc.
  split_and!; [by unfold messages; rewrite Hout| |done|done|done].
  intros ->%Hgone. unfold owed. rewrite Hpe. rewrite !app_nil_r in Hh. by rewrite Hh.
Qed.


(** C13. On every stack a process can hold, two UDP sockets of one family are never bound to the
    same port. *)
Theorem udp_ports_are_exclusive r i j ri rj e e' :
  attainable path_mtu_stats r → i ≠ j →
  udp_records (stack (sys r)) !! i = Some ri → udp_records (stack (sys r)) !! j = Some rj →
  udp_local ri = Some e → udp_local rj = Some e' → ur_family ri = ur_family rj → v_port e ≠ v_port e'.
Proof.
  intros (_ & _ & Hwf)%attainable_wf Hij Hi Hj He He' Hf Hp. destruct Hij. symmetry.
  apply (so_ports _ _ _ _ _ _ (inv_sock _ _ Hwf) i ri Hi j rj (ur_family ri, v_port e) Hj); unfold port_of.
  - by rewrite He.
  - rewrite He', Hf, Hp. done.
Qed.
End history_theorems.
