(* ===== verification/Sample.v ===== *)
(** * A concrete stack

    Instances of every parameter of the model, and a run of a stack on them:
    the hypotheses of the theorems can hold, and hold on runs in which
    sockets connect, wait, cancel, send and receive, and the stack ends. *)
From S2P Require Import Prelude Budget Waiter SocketTable Wire TcpSupport Device Packet Smol.
From S2P Require Import Stack Create Readiness Invariant Maintenance Drive Settle Shutdown.
From S2P Require Import TcpOps UdpOps Closedown Snapshot Nif Calls History.

(** ** An engine that answers

    Whenever a socket has asked for a connection, the engine sends a packet,
    establishes every such connection with five bytes to read, and calls the
    wakers; the peer at port 81 closes its side at once. *)
Section engine.
#[local] Existing Instances idle_types.

Definition greeting : bytes := [Byte.x68; Byte.x65; Byte.x6c; Byte.x6c; Byte.x6f].
Definition greeted (t : TcpSocket) : TcpState :=
  match tuple t with Some (_, peer) => if (port peer =? 81)%N then StCloseWait else StEstablished | None => StEstablished end.
Definition greet (s : Socket) : Socket :=
  match s with
  | STcp t =>
      match tcp_state t with
      | StSynSent => STcp (t <| tcp_state := greeted t |> <| rx_buffer := greeting |>
                             <| rx_waker := None |> <| tx_waker := None |>)
      | _ => s
      end
  | SUdp _ => s
  end.
Definition greet_all (ss : SocketSet) : SocketSet := map (option_map greet) ss.
Definition asking (o : option Socket) : bool :=
  match o with Some (STcp t) => bool_decide (tcp_state t = StSynSent) | _ => false end.
Definition asking_wakers (ss : SocketSet) : list Waker :=
  flat_map (λ o, if asking o then from_option socket_wakers [] o else []) ss.
Fixpoint wake_then {A} (ws : list Waker) (p : DevProg A) : DevProg A :=
  match ws with [] => p | w :: ws => DWake w (wake_then ws p) end.

Definition greeting_engine : Engine := {|
  iface_new _ _ _ cs rs := {| ip_addrs := cs; iface_routes := rs; iface_rest := tt : IfaceRest |};
  poll_ingress_single _ i ss := DReceive (DRet (i, ss)) (λ _, None) (λ _, DRet (i, ss));
  poll_egress _ i ss :=
    if existsb asking ss
    then DTransmit (DRet (i, ss, PollNone)) (Some sample_packet)
           (wake_then (asking_wakers ss) (DRet (i, greet_all ss, PollNone)))
    else DRet (i, ss, PollNone);
  poll_maintenance _ i := Some i;
  iface_poll_at _ _ _ := None;
  get_source_address i a :=
    if is_unspecified a then None else Some (option_map cidr_address (hd_error (ip_addrs i)));
  udp_tx_enqueue m d q :=
    if (llen (q : list (bytes * IpEndpoint)) <? PACKET_CAPACITY)%N
    then Some (q ++ [(d, meta_endpoint m)]) else None |}.
#[local] Existing Instance greeting_engine.

Lemma greet_evolves ss : evolves ss (greet_all ss).
Proof.
  unfold evolves, greet_all. apply Forall2_fmap_r, Forall_Forall2_diag, Forall_true. intros [s|]; simpl; constructor.
  destruct s as [t|u]; simpl; [|done]. destruct (tcp_state t) eqn:Hs; simpl; rewrite ?Hs; try done.
  split_and!; try done. apply list_subseteq_nil.
Qed.
Lemma asking_set_wakers ss : asking_wakers ss ⊆ set_wakers ss.
Proof.
  unfold asking_wakers, set_wakers. induction ss as [|o ss IH]; simpl; [done|]. intros w Hw.
  apply elem_of_app in Hw as [Hw|Hw]; apply elem_of_app; [left|right; by apply IH].
  destruct (asking o); [done|]. by apply elem_of_nil in Hw.
Qed.
Lemma wake_then_polls {A} (W : Waker → Prop) (P : A → Prop) ws p :
  Forall W ws → polls W P p → polls W P (wake_then ws p).
Proof. induction 1; simpl; auto. Qed.
Lemma wake_then_sends {A} ws (p : DevProg A) : sends_only p → sends_only (wake_then ws p).
Proof. intros Hp. by induction ws. Qed.

#[export] Instance greeting_laws : EngineLaws.
Proof.
  constructor; intros; simpl.
  - split; [|intros packet]; apply evolves_refl.
  - destruct (existsb asking ss); simpl; [|apply evolves_refl]. split; [apply evolves_refl|].
    apply wake_then_polls; [|apply greet_evolves]. 
    apply Forall_forall. intros w Hw. by apply asking_set_wakers, list_elem_of_In.
  - destruct (existsb asking ss); simpl; [|done]. split; [done|]. by apply wake_then_sends.
  - by eexists.
  - match goal with Ha : _ = false |- _ => rewrite Ha end. by eexists.
Qed.
End engine.

(** ** A concrete history *)
(** Terms enough to create a stack and call it. *)
#[warnings="-register-all"]
Inductive SampleTerm :=
| TList (items : list SampleTerm) (proper : bool)
| TInt (z : Z)
| TBinary (b : bytes)
| TMap (fields : list (term_key * SampleTerm))
| TLimits (l : Limits)
| TCredit (c : EgressCredit).
#[export] Instance term_key_eq_dec : EqDecision term_key.
Proof. solve_decision. Defined.

Definition sample_terms : Terms := {|
  Term := SampleTerm;
  as_list t := match t with TList l proper => Some (l, proper) | _ => None end;
  as_binary t := match t with TBinary b => Some b | _ => None end;
  as_u8 t := match t with TInt z => Byte.of_N (Z.to_N z) | _ => None end;
  as_usize t := match t with TInt z => Some (Z.to_N z) | _ => None end;
  as_i64 t := match t with TInt z => Some z | _ => None end;
  map_get k t := match t with TMap l => (λ x, x.2.2) <$> list_find (λ kt, kt.1 = k) l | _ => None end;
  as_limits t := match t with TLimits l => Some l | _ => None end;
  as_egress_credit t := match t with TCredit c => Some (Some c) | _ => None end;
  as_tcp_timers _ := Some None
|}.

Section sample_history.
(** A microsecond passes between two readings of the clock, and a second before every ninth. *)
Definition sample_beam : Beam := {|
  clock_at n := (Z.of_N n * 1000 + Z.of_N (n / 9) * 1000000000)%Z;
  timeslice_spent _ _ := false;
  overflow_checks := true |}.
#[local] Existing Instances idle_types greeting_engine sample_beam idle_mailbox sample_terms.

Definition no_path_mtu (_ : Interface) : PathMtuStats := {| mtu_received := 0; mtu_rejected := 0; mtu_reductions := 0 |}.
Definition TAddress (l : list Z) : SampleTerm := TList (TInt <$> l) true.
Definition sample_limits_term : Term := TLimits sample_limits.
Definition sample_config_term : Term :=
  TMap [(key_mtu, TInt 1500%Z);
        (key_addresses, TList [TMap [(key_address, TAddress [10; 0; 0; 1]%Z); (key_prefix_length, TInt 24%Z)]] true);
        (key_routes, TList [] true);
        (key_egress_credit, TCredit {| packets := 2; credit_bytes := 3000 |})].
Definition counts_none : ResourceCounts := {| created := 0; dropped := 0; active := 0 |}.
Definition sample_new := nif_stack_new sample_limits_term sample_config_term 0%Z 1 1 1
  clock_new counts_none.
Definition sample_resource : StackResource := result (from_ok sample_new.1).

Lemma sample_new_ok : sample_new = (Ok (envelope_created sample_resource), {| created := 1; dropped := 0; active := 1 |}).
Proof. by vm_compute. Qed.
Lemma sample_attainable : attainable no_path_mtu sample_resource.
Proof.
  apply (attainable_new no_path_mtu sample_limits_term sample_config_term 0%Z 1 1 1
    clock_new counts_none (envelope_created sample_resource)
    {| created := 1; dropped := 0; active := 1 |}); [done|done|exact sample_new_ok].
Qed.

(** A UDP socket is opened and bound, a process waits on it, cancels, and
    waits again; a TCP socket connects and receives; then the stack is told to
    shut down and polled. *)
Definition sample_socket : SocketIdentity := {| id := 1; generation := 1 |}.
Definition sample_tcp : SocketIdentity := {| id := 5; generation := 7 |}.
Definition sample_endpoint (host port : Z) : Term :=
  TMap [(key_address, TAddress [10; 0; 0; host]%Z); (key_port, TInt port); (key_scope_id, TInt 0%Z)].
Definition sample_events : list Event :=
  [Own (UdpOpen Inet); Own (UdpBind sample_socket (sample_endpoint 1 5000));
   Own (UdpRecvfrom sample_socket 100 7 1 0%Z); Others 3 5;
   Own (SocketCancel sample_socket Recvfrom 1);
   Own (UdpRecvfrom sample_socket 100 7 2 0%Z);
   Own (TcpOpen Inet 4096 4096);
   Own (TcpConnect sample_tcp (sample_endpoint 2 80) 8 3 0%Z);
   Own (TcpConnect sample_tcp (sample_endpoint 2 80) 8 3 0%Z);
   Own (TcpRecv sample_tcp 2 8 4 0%Z);
   Own (TcpSend sample_tcp greeting 8 5 0%Z);
   Own (StackGrantEgress 4 100 0%Z);
   Own (StackShutdown ReasonClosed); Own (StackPoll 1%Z); Own (StackPoll 2%Z); Own (StackPoll 3%Z)].
Abbreviation sample_run := (run no_path_mtu sample_events sample_resource).

(** Before the order to shut down one waiter is owed a message. *)
Definition sample_waiting : StackResource := (run no_path_mtu (take 11 sample_events) sample_resource).2.
Lemma sample_waiting_attainable : attainable no_path_mtu sample_waiting.
Proof. apply run_attainable; [apply sample_attainable|by vm_compute]. Qed.


Lemma stack_refines_ledger_witness :
  length sample_run.1 = 15 ∧ ∃ ms, ledger_run sample_run.1 (ledger_of (sys sample_resource)) ms (ledger_of (sys sample_run.2))
    ∧ messages (sys sample_run.2) = messages (sys sample_resource) ++ ms.
Proof.
  split; [by vm_compute|]. pose proof (stack_refines_ledger no_path_mtu sample_events sample_resource sample_attainable) as Hw.
  assert (Hl : inner_lock sample_run.2 = Unlocked) by by vm_compute. destruct sample_run. by apply Hw.
Defined.

Lemma every_waiter_is_told_once_witness :
  length (promises sample_run.1) = 3 ∧ length (withdrawals sample_run.1) = 1
  ∧ messages (sys sample_run.2) = [Select 8 sample_tcp 3; Abort 7 sample_socket 2 ReasonClosed] ∧ owed (sys sample_run.2) = []
  ∧ ∃ ms, messages (sys sample_run.2) = messages (sys sample_resource) ++ ms
    ∧ balanced (promises sample_run.1) (withdrawals sample_run.1) ms (owed (sys sample_resource)) (owed (sys sample_run.2)).
Proof.
  split_and!; [by vm_compute..|].
  pose proof (every_waiter_is_told_once no_path_mtu sample_events sample_resource sample_attainable) as Hw.
  assert (Hl : inner_lock sample_run.2 = Unlocked) by by vm_compute. destruct sample_run. by apply Hw.
Defined.

Lemma output_is_paid_for_witness :
  credit (device (stack (sys sample_resource))) = Some {| packets := 2; credit_bytes := 3000 |}
  ∧ granted sample_run.1 = (4, 100)%N ∧ outputs sample_run.1 = [sample_packet]
  ∧ ∃ k', credit (device (stack (sys sample_run.2))) = Some k'
    ∧ (packets k' + llen (outputs sample_run.1) <= 6)%N
    ∧ (credit_bytes k' + total_len (outputs sample_run.1) <= 3100)%N.
Proof.
  split_and!; [by vm_compute..|].
  pose proof (output_is_paid_for no_path_mtu sample_events sample_resource {| packets := 2; credit_bytes := 3000 |}
    sample_attainable ltac:(by vm_compute)) as Hw.
  assert (granted sample_run.1 = (4, 100)%N) as Hg by by vm_compute.
  destruct sample_run as [tr r']. simpl in Hg. rewrite Hg in Hw. exact Hw.
Defined.

Lemma no_more_work_means_rest_witness :
  at_rest (sys (perform no_path_mtu (StackPoll 0) sample_waiting).2).
Proof.
  assert (Ha : (perform no_path_mtu (StackPoll 0) sample_waiting).1 = AnsOk (envelope_empty VOk)) by by vm_compute.
  apply (no_more_work_means_rest no_path_mtu (StackPoll 0) sample_waiting (envelope_empty VOk) _ sample_waiting_attainable);
    [by rewrite <-Ha, <-surjective_pairing|done|by vm_compute|done].
Defined.

Lemma errors_change_nothing_witness :
  (perform no_path_mtu (UdpClose {| id := 9; generation := 9 |} 0) sample_waiting).1 = AnsError a_invalid_socket
  ∧ length (owed (sys sample_waiting)) = 1
  ∧ owed (sys (perform no_path_mtu (UdpClose {| id := 9; generation := 9 |} 0) sample_waiting).2) ≡ₚ owed (sys sample_waiting).
Proof.
  assert (Ha : (perform no_path_mtu (UdpClose {| id := 9; generation := 9 |} 0) sample_waiting).1
    = AnsError a_invalid_socket) by by vm_compute.
  split_and!; [exact Ha|by vm_compute|].
  apply (errors_change_nothing no_path_mtu (UdpClose {| id := 9; generation := 9 |} 0) sample_waiting a_invalid_socket _
    sample_waiting_attainable); [by rewrite <-Ha, <-surjective_pairing|by vm_compute].
Defined.

(** The clock interrupts the first call of this shutdown, and two polls end it. *)
Definition sample_granted : StackResource := (run no_path_mtu (take 12 sample_events) sample_resource).2.
Definition sample_polls : list Time.Instant := [1000; 2000]%Z.
Definition sample_ordered : Sys := (with_stack (E:=Empty_set) (shutdown ReasonClosed) (sys sample_granted)).2.

(** The TCP socket is connected. *)
Definition sample_connected : StackResource := (run no_path_mtu (take 9 sample_events) sample_resource).2.
Lemma sample_connected_wf : stack_wf (sys sample_connected).
Proof. apply (attainable_wf no_path_mtu), run_attainable; [apply sample_attainable|by vm_compute]. Qed.

Definition reply_of (o : outcome SocketError (Envelope Reply)) : option Reply :=
  match o with Ok env => Some (result env) | _ => None end.

Lemma tcp_send_witness :
  let o := tcp_send sample_tcp greeting 8 5 0%Z (sys sample_connected) in
  ∃ env, o.1 = Ok env ∧ result env = ReplyOk
    ∧ stack_wf o.2 ∧ accepted_of (sys sample_connected) sample_tcp greeting 8 5 0%Z env o.2.
Proof.
  pose proof (tcp_send_accepts_what_fits sample_tcp greeting 8 5 0%Z (sys sample_connected) sample_connected_wf) as Hw.
  assert (Ho : reply_of (tcp_send sample_tcp greeting 8 5 0%Z (sys sample_connected)).1 = Some ReplyOk) by by vm_compute.
  cbv zeta. destruct (tcp_send sample_tcp greeting 8 5 0%Z (sys sample_connected)) as [[env|e|] s']; [|done|done].
  exists env. split; [done|]. split; [by injection Ho|exact Hw].
Defined.

Lemma tcp_recv_witness :
  let o := tcp_recv sample_tcp 10 8 4 0%Z (sys sample_connected) in
  ∃ env, o.1 = Ok env ∧ result env = ReplySelectData Recv 4 greeting
    ∧ stack_wf o.2 ∧ returned (sys sample_connected) sample_tcp 10 8 4 0%Z env o.2.
Proof.
  pose proof (tcp_recv_returns_the_front sample_tcp 10 8 4 0%Z (sys sample_connected) sample_connected_wf) as Hw.
  assert (Ho : reply_of (tcp_recv sample_tcp 10 8 4 0%Z (sys sample_connected)).1
    = Some (ReplySelectData Recv 4 greeting)) by by vm_compute.
  cbv zeta. destruct (tcp_recv sample_tcp 10 8 4 0%Z (sys sample_connected)) as [[env|e|] s']; [|done|done].
  exists env. split; [done|]. split; [by injection Ho|exact Hw].
Defined.

(** Two UDP sockets: one asks for a port, the other is given one. *)
Definition sample_two : StackResource :=
  (run no_path_mtu
    [Own (UdpOpen Inet); Own (UdpBind sample_socket (sample_endpoint 1 5000));
     Own (UdpOpen Inet); Own (UdpBind {| id := 2; generation := 2 |} (sample_endpoint 1 0))] sample_resource).2.
Lemma sample_two_attainable : attainable no_path_mtu sample_two.
Proof. apply run_attainable; [apply sample_attainable|by vm_compute]. Qed.
Definition sample_record (i : u64) : UdpRecord :=
  default (udp_record_new sample_socket 0%N Inet) (udp_records (stack (sys sample_two)) !! i).
Definition sample_local (i : u64) : ValidatedEndpoint :=
  default {| v_address := Ipv4 []; v_port := 0; v_scope_id := 0 |} (udp_local (sample_record i)).
Lemma udp_ports_witness : v_port (sample_local 1) = 5000%N ∧ v_port (sample_local 1) ≠ v_port (sample_local 2).
Proof.
  split; [by vm_compute|].
  apply (udp_ports_are_exclusive no_path_mtu sample_two 1%N 2%N (sample_record 1) (sample_record 2)
    (sample_local 1) (sample_local 2) sample_two_attainable); [done|by vm_compute..].
Defined.

(** The peer answers, sends, and closes before the process retries. *)
Definition sample_half_closed : StackResource :=
  (run no_path_mtu [Own (TcpOpen Inet 4096 4096); Own (TcpConnect sample_socket (sample_endpoint 2 81) 8 3 0%Z);
                    Own (StackPoll 1%Z)]
    sample_resource).2.
Definition sample_peer : TcpEndpoint :=
  {| ep_address := [Byte.x0a; Byte.x00; Byte.x00; Byte.x02]; ep_port := 81%Z; ep_scope_id := 0%Z |}.

(** A process waits for more than the peer has sent when the socket is closed,
    at the last millisecond the clock of a stack can name. *)
Definition sample_receiving : StackResource :=
  (run no_path_mtu (take 9 sample_events ++ [Own (TcpRecv sample_tcp 10 8 4 0%Z)]) sample_resource).2.
Definition last_millisecond : i64 := 9223372036854775%Z.
End sample_history.
